(* ===== verification/_CoqProject ===== *)
-Q . S2P
Prelude.v
CxxStd.v
StoreKey.v
StoreKeyTheorems.v
Proto.v
LevelDB.v
Store.v
StoreSpec.v
StoreRepr.v
StoreRefine.v
StoreScan.v
StoreCompact.v
StoreSnapshot.v
StoreOps.v
StoreRun.v
StoreEvents.v
Demo.v
StoreTheorems.v
StoreMaintenance.v
Replicas.v
StoreLife.v
StoreOrphans.v
WatchHub.v
WatchCall.v
WatchStore.v
WatchSystem.v
WatchInv.v
WatchSteps.v
WatchTheorems.v
WatchLive.v
WatchExamples.v
Node.v
StateMachine.v
RaftNode.v
FsmTheorems.v
RaftTheorems.v
Cluster.v
Recovery.v
RaftSpec.v
RaftExamples.v
RaftLive.v
RecoveryExamples.v
RestUtil.v
KVService.v
Services.v
Server.v
RestFacts.v
ServiceTheorems.v
ServerTheorems.v
FrontEnd.v
ServerStop.v
ServerLife.v
WatchNodes.v
WatchService.v
WatchCluster.v
Client.v
ClientTheorems.v
