(* ===== verification/Prelude.v ===== *)
(** * Configraft: a verification of the configuration centre

    Configraft is a configuration and key-value server.  Clients talk to it over
    gRPC and HTTP/JSON; commands go through a node, which is a single process or
    a member of a raft group; every node applies the committed commands to an
    MVCC store on LevelDB and reports the changes to a hub that long-polling
    [Watch] calls wait on.  This library translates the C++ sources under src/src
    into Rocq definitions, function by function, and proves what the parts promise
    each other and their clients.

    ** The program and its model

    - Byte layout of the database keys (common/storekey): StoreKey.v; the
      properties are in StoreKeyTheorems.v.
    - Messages (src/proto/configraft.proto) and result structs (raft/node.h):
      Proto.v.
    - LevelDB and the directory calls around it, as classes with laws and an
      in-memory instance: LevelDB.v.
    - The store (store/store): Store.v has one definition per method, from the
      state of the database to the result and the next state.  StoreSpec.v has
      the abstract state, four maps and two counters, with an operation for each
      method and the invariant [wf]; StoreRepr.v relates the two ([Rep]);
      StoreRefine.v (writes and reads), StoreScan.v (iterator loops),
      StoreCompact.v (compaction) and StoreSnapshot.v (snapshots, open, close)
      show that the code implements the specification.
    - The dispatcher of commands (store/store_ops): StoreOps.v, with the
      specification [spec_apply] of every command; StoreEvents.v relates the
      events it reports to the history; StoreRun.v is the running store, in which
      a compaction pass and commands overlap.  Properties: StoreTheorems.v,
      StoreMaintenance.v, StoreLife.v, StoreOrphans.v and Replicas.v.  Demo.v has
      the concrete stores of the examples.
    - The watch hub (watch/watch_hub): WatchHub.v (waiters, registration,
      delivery), WatchCall.v ([Watch] as a program that takes a step between any
      two points where other threads can act), WatchStore.v (the store as the
      hub's event source), WatchSystem.v (calls, writer and compaction
      interleaved), WatchInv.v and WatchSteps.v (the invariant and its
      preservation), WatchTheorems.v, WatchLive.v and WatchExamples.v.  The nodes as
      the writer of that system: WatchNodes.v; from a request to the clients that
      wait for it: WatchService.v; watching a group of nodes: WatchCluster.v.
    - The node interface and the single node (raft/node.h, raft/local_node):
      Node.v, with the class [ConfigNode] of operations and the class
      [ConfigNodeSpec] of what they promise.
    - The replicated state machine (raft/state_machine): StateMachine.v and
      FsmTheorems.v; the cluster node (raft/raft_node): RaftNode.v,
      RaftTheorems.v, RaftLive.v, RaftExamples.v; a group of such nodes: Cluster.v
      (what clients see) and Recovery.v (snapshots, crashes and restarts), with
      concrete groups in RecoveryExamples.v.
      RaftSpec.v shows that a cluster node keeps the promise of [ConfigNodeSpec].
    - The services (server/rest_util.h, kv_service_impl, config_service_impl,
      watch_service_impl, admin_service_impl, dashboard_service_impl): RestUtil.v,
      KVService.v, Services.v; RestFacts.v and ServiceTheorems.v; FrontEnd.v states
      which operation each request asks for and shows that the handlers serve it.
    - The server and main (server/server, main/server_main): Server.v,
      ServerTheorems.v (start), ServerStop.v (the destructor against the compaction
      thread) and ServerLife.v (from the return of Init to the end of main, in which
      order the members go and who still uses them); the command line client (src/client/client_main.cpp):
      Client.v and ClientTheorems.v.

    Prelude.v, this file, has the outcomes of C++ functions (a value or an
    exception), 64-bit integers, facts about strings and lists, the hint databases
    and the tactics the other files share; CxxStd.v has the functions of the C++
    library the sources call.

    ** How state and effects are kept

    A method that can throw returns an [outcome].  Output parameters are part of
    the result.  The store is explicit state; a node is the state of a monad
    [call], whose results are a value, an exception, or nothing when the fuel of a
    wait is used up.  What runs beside a call is explicit: a replay and a
    compaction pass take the database at the creation of their iterator and the
    database later; a [Watch] call is a step machine in a system whose actions
    interleave freely; a request on a cluster node meets the callbacks of the raft
    library, and whole compaction passes, between its own steps ([turn]).  A group
    of nodes is a step relation ([group_step] of Recovery.v): entries are committed,
    handed over, snapshots saved, installed on another node, processes end with
    anything left in their directory and start again.  What a node promises its
    callers ([ConfigNodeSpec]) leaves room for other clients and compaction before
    and after each command, and between the two reads of [GetConfig]; the single node
    keeps it for a client that is alone ([alone_spec]) and among others
    ([LocalNode_spec], for any calls of [OtherThreads]).  A condition variable on which
    one call sleeps is a mark: whether it has been notified since the call went to
    sleep.  A sleeping call goes on when the mark is set, and where the wait has a
    deadline also when that has passed or for no reason; so what wakes a [Watch] call is
    [notify_all] in [offer], what wakes a proposal is [notify_one] in
    [ApplyClosure_Run], and what stops the compaction thread is the notification of
    the destructor (ServerStop.v).  [int64_t] is [Z] with its
    wrap-around written out where the code computes ([to_int64], [to_uint64]).

    ** What is a parameter

    LevelDB and its files (class [LevelDB], laws [LevelDBSpec]; instance [MemDB]),
    the protobuf wire format ([KVCodec] and [CmdCodec]; instances in [BitCodec]
    and [BitCmdCodec]), the JSON parser ([JsonToProto]), the raft library
    ([Braft], with [BraftSpec], [BraftTasks], [BraftLog] and [BraftGroup]; instance
    [SoloRaft]),
    the RPC library ([Channel] and [ChannelSpec]), what other clients do to a single
    node while a call does not hold the lock of its store ([OtherThreads]), what
    opening a file of the dashboard yields.  The laws state documented behaviour: an
    ordered map with atomic batches and snapshot iterators, a round trip of valid
    UTF-8 records, a log that is delivered in order to every closure's owner, a request
    that is sent again when a connection breaks.  Every property that uses them has a
    witness on the instances.

    ** What the theorems show

    - Store: commands, compaction and replay refine the specification, in any
      overlap and with writes refused anywhere; each operation does
      what its name says, on every branch; a snapshot installs the state of its
      exporter; the invariant and the typing of the database hold through
      commands, compaction, snapshots, closing and opening.
    - Watch: the events of a call are matching changes in order without a gap up
      to the anchor it returns, and a client that resumes from the anchors of
      results with events loses nothing, also when it goes from one node of a group
      to another; calls end, and end with events once a broadcast has reached them;
      no waiter is left behind; commands on a node are schedules of the system, and
      what a service answers as written is returned by the calls that wait for it.
    - Replication: the state is a function of the log; every proposer gets the
      result of its own command, and gets it as soon as the library has settled its
      task; the commands and reads that the nodes of a group answer are
      linearizable; replicas agree whatever their compaction schedules; nodes
      come back from crashes and snapshots with the revision and the current records
      that the log gives.  The theorems about whole groups assume that no command
      rolls back to an explicit version ([log_ok]; Replicas.v shows that replicas
      diverge otherwise) and that the devices accept writes ([replica_of]); those about
      recovery also that the old directory can be removed when a snapshot is loaded,
      and two conditions that RecoveryExamples.v shows the code does not enforce; the
      one about watching a group, that no snapshot is installed on a running node.
    - Services: every request asks for exactly one operation, and is answered with
      what that operation answers in a state between the request and the answer (a
      configuration with the history of a later state), or refused; what is written through HTTP or RPC is read back, or what has been
      written over it since, from any node that keeps the promise, the single node
      and the cluster node both; no malformed key reaches it; cross-origin headers and
      file access stay where they belong; the client prints what the server has.
    - Server: what a successful and a failed start leave; shutting down is prompt, and
      no request, callback or pass reaches an object that has been destroyed.
    - Some theorems show by a concrete run that the code does not do what a
      comment or its own purpose says; they are listed with the findings.

    ** Bounds and fuel

    Loops over iterators and lists are structural.  Waits take fuel, a number of
    turns of the outside: 10001 turns are enough for a linearizable read (one
    second in steps of 5 ms and one in steps of 100 us) and 600 for a membership
    change (60 s in steps of 100 ms, each wait of the condition variable lasting its
    100 ms unless the change is done), by [raft_waits_end]; a proposal sleeps
    without a limit in the code, and the theorem about it says when it ends.  A
    [Watch] call is at most 17 of its own steps from its return once it has
    something to return or its deadline has passed.

    ** Not modelled

    - log.h prints to stderr and status.h declares a struct nothing uses.
    - The callbacks on_error, on_configuration_committed, on_stop_following and
      on_start_following of the state machine only log; log lines are left out
      everywhere.
    - Data races as such: memory is sequentially consistent in the model; where a
      field is read without its lock, a theorem says that the state is reachable.
    - What happens between two getters of the raft library that are called one right
      after the other: a node that is not the leader is asked for the leader in the
      same state.
    - A compaction pass of the single node that overlaps the two reads of one
      [GetConfig] is a whole pass between them; passes that overlap commands are in
      StoreRun.v.
    - The writes of LevelDB below its interface: a batch is atomic.  A crash leaves
      anything at all in the directory of a node that has a snapshot (Recovery.v);
      which batches of the last moments survive is not modelled.
    - The scripts, the web assets and the test programs.

    ** Further work

    The promise of [Watch] for calls that wait while a snapshot is installed:
    RecoveryExamples.v shows that the code does not keep it as it is. *)
From stdpp Require Export base gmap strings list sorting fin_maps.
From Stdlib Require Export ZArith Lia.

#[global] Open Scope Z_scope.

(** * C++ outcomes: a value, or an exception that leaves the function *)

(** The exceptions the modelled code can raise: [std::stoll] on a bad or too
    large number, [std::string::substr] past the end, an access through a null
    [std::unique_ptr], [std::filesystem::create_directories], and a [std::string]
    that is resized past its maximum. *)
Inductive exn :=
| InvalidArgument
| OutOfRange
| NullDeref
| FilesystemError
| LengthError.

#[export] Instance exn_eq_dec : EqDecision exn.
Proof. solve_decision. Defined.

Inductive outcome (A : Type) :=
| Done (a : A)
| Throws (e : exn).
Arguments Done {A} a.
Arguments Throws {A} e.

#[export] Instance outcome_ret : MRet outcome := @Done.
#[export] Instance outcome_bind : MBind outcome := fun A B k m =>
  match m with Done a => k a | Throws e => Throws e end.
#[export] Instance outcome_fmap : FMap outcome := fun A B f m =>
  match m with Done a => Done (f a) | Throws e => Throws e end.

Lemma outcome_bind_Done {A B} (k : A -> outcome B) a : (Done a ≫= k) = k a.
Proof. done. Qed.

(** * Machine integers *)

Definition int64_max : Z := 2 ^ 63 - 1.
Definition int64_min : Z := - 2 ^ 63.

(** [static_cast<uint64_t>] and [static_cast<int64_t>]. *)
Definition to_uint64 (v : Z) : Z := v mod 2 ^ 64.
Definition to_int64 (v : Z) : Z :=
  let u := v mod 2 ^ 64 in if u <? 2 ^ 63 then u else u - 2 ^ 64.

Definition in_int64 (v : Z) : Prop := int64_min <= v <= int64_max.

#[export] Instance in_int64_dec v : Decision (in_int64 v).
Proof. unfold in_int64. apply _. Defined.

Lemma to_uint64_nonneg v : 0 <= v < 2 ^ 64 -> to_uint64 v = v.
Proof. intros H. unfold to_uint64. by apply Z.mod_small. Qed.

Lemma to_uint64_range v : 0 <= to_uint64 v < 2 ^ 64.
Proof. unfold to_uint64. apply Z.mod_pos_bound. lia. Qed.

Lemma to_int64_to_uint64 v : in_int64 v -> to_int64 (to_uint64 v) = v.
Proof.
  unfold in_int64, int64_min, int64_max, to_int64, to_uint64. intros H.
  rewrite Z.mod_mod by lia.
  destruct (Z.leb_spec 0 v).
  - rewrite Z.mod_small by lia. destruct (Z.ltb_spec v (2 ^ 63)); lia.
  - replace (v mod 2 ^ 64) with (v + 2 ^ 64).
    + destruct (Z.ltb_spec (v + 2 ^ 64) (2 ^ 63)); lia.
    + apply Z.mod_unique with (q := -1); lia.
Qed.

Lemma to_int64_small v : 0 <= v <= int64_max -> to_int64 v = v.
Proof.
  unfold int64_max, to_int64. intros H. rewrite Z.mod_small by lia.
  destruct (Z.ltb_spec v (2 ^ 63)); lia.
Qed.

(** * Lists *)

(** The loop [for (; it->Valid() && p(it); it->Next())]: the longest prefix of
    the remaining entries that satisfies the guard. *)
Fixpoint take_while {A} (p : A -> bool) (l : list A) : list A :=
  match l with
  | [] => []
  | x :: l' => if p x then x :: take_while p l' else []
  end.

Lemma elem_of_take_while {A} (p : A -> bool) l x :
  x ∈ take_while p l -> x ∈ l /\ p x = true.
Proof.
  induction l as [|y l IH]; simpl; [by intros ?%elem_of_nil|].
  destruct (p y) eqn:Hp; [|by intros ?%elem_of_nil].
  intros [->|Hx]%elem_of_cons; [by split; [left|]|].
  destruct (IH Hx). by split; [right|].
Qed.

(** On a sorted list a guard that never becomes true again is a filter. *)
Lemma elem_of_take_while_sorted {A} (R : relation A) (p : A -> bool) l :
  StronglySorted R l ->
  (forall a b, a ∈ l -> b ∈ l -> R a b -> p b = true -> p a = true) ->
  forall x, x ∈ take_while p l <-> x ∈ l /\ p x = true.
Proof.
  intros Hs Hp x. split; [apply elem_of_take_while|]. intros [Hx Hpx].
  induction Hs as [|y l Hs IH Hy]; simpl; [done|].
  assert (p y = true) as ->.
  { apply elem_of_cons in Hx as [->|Hx]; [done|].
    apply (Hp y x); [by left|by right| |done].
    rewrite Forall_forall in Hy. by apply Hy. }
  apply elem_of_cons in Hx as [->|Hx]; [by left|right].
  apply IH; [|done]. intros a b Ha Hb. apply Hp; by right.
Qed.

Lemma StronglySorted_take_while {A} (R : relation A) (p : A -> bool) l :
  StronglySorted R l -> StronglySorted R (take_while p l).
Proof.
  induction 1 as [|y l Hs IH Hy]; simpl; [constructor|].
  destruct (p y); [|constructor].
  constructor; [done|]. rewrite Forall_forall in Hy |- *.
  intros x [Hx _]%elem_of_take_while. by apply Hy.
Qed.

Lemma StronglySorted_filter {A} (R : relation A) (P : A -> Prop)
  `{forall x, Decision (P x)} l :
  StronglySorted R l -> StronglySorted R (filter P l).
Proof.
  induction 1 as [|y l Hs IH Hy]; [constructor|].
  rewrite filter_cons. case_decide; [|done].
  constructor; [done|]. rewrite Forall_forall in Hy |- *.
  intros x [_ Hx]%list_elem_of_filter. by apply Hy.
Qed.

Lemma filter_all {A} (P : A -> Prop) `{forall x, Decision (P x)} (l : list A) :
  (forall x, x ∈ l -> P x) -> filter P l = l.
Proof.
  induction l as [|x l IH]; intros Hl; [done|].
  rewrite filter_cons_True by (apply Hl; by left). f_equal. apply IH.
  intros y Hy. apply Hl. by right.
Qed.

Lemma filter_none {A} (P : A -> Prop) `{forall x, Decision (P x)} (l : list A) :
  (forall x, x ∈ l -> ~ P x) -> filter P l = [].
Proof.
  induction l as [|x l IH]; intros Hl; [done|].
  rewrite filter_cons_False by (apply Hl; by left). apply IH.
  intros y Hy. apply Hl. by right.
Qed.

(** What the loop [omap] skips may be filtered out before. *)
Lemma omap_filter {A B} (f : A -> option B) (P : A -> Prop) `{forall x, Decision (P x)}
    (l : list A) :
  (forall x, x ∈ l -> ~ P x -> f x = None) -> omap f (filter P l) = omap f l.
Proof.
  induction l as [|x l IH]; intros Hl; [done|].
  assert (omap f (filter P l) = omap f l) as IH' by (apply IH; intros; apply Hl; [by right|done]).
  rewrite filter_cons. case_decide as Hx; csimpl; [by rewrite IH'|].
  rewrite IH', (Hl x); [done|by left|done].
Qed.

Lemma omap_fmap_Some {A B C} (f : B -> option C) (g : A -> B) (h : A -> C) (l : list A) :
  (forall x, x ∈ l -> f (g x) = Some (h x)) -> omap f (g <$> l) = h <$> l.
Proof.
  induction l as [|x l IH]; intros Hl; [done|]. simpl.
  rewrite Hl by (by left). f_equal. apply IH. intros y Hy. apply Hl. by right.
Qed.

Lemma StronglySorted_irrefl_NoDup {A} (R : relation A) l :
  (forall x, ~ R x x) -> StronglySorted R l -> NoDup l.
Proof.
  intros Hirr. induction 1 as [|y l Hs IH Hy]; constructor; [|done].
  intros Hin. rewrite Forall_forall in Hy. by apply (Hirr y), Hy.
Qed.

(** Two strictly sorted lists with the same elements are the same list. *)
Lemma strictly_sorted_unique {A} (R : relation A) l1 l2 :
  (forall x, ~ R x x) -> (forall x y, R x y -> R y x -> x = y) ->
  StronglySorted R l1 -> StronglySorted R l2 ->
  (forall x, x ∈ l1 <-> x ∈ l2) -> l1 = l2.
Proof.
  intros Hirr Hasym H1 H2 Hin.
  apply (StronglySorted_unique_strong R); [by eauto|done|done|].
  apply NoDup_Permutation; eauto using StronglySorted_irrefl_NoDup.
Qed.

Lemma seqZ_strict m n : StronglySorted Z.lt (seqZ m n).
Proof.
  destruct (decide (0 <= n)) as [Hn|Hn]; [|rewrite seqZ_nil by lia; constructor].
  revert m. pattern n. apply natlike_ind; [constructor| |done].
  intros k Hk IH m. rewrite seqZ_cons by lia. rewrite Z.pred_succ.
  constructor; [done|]. apply Forall_forall. intros x Hx%elem_of_seqZ. lia.
Qed.

(** * Strings: bytes compared as unsigned characters *)

#[global] Arguments String.append : simpl nomatch.

(** The bytewise comparator LevelDB is opened with orders keys like
    [String.compare]. *)
Definition str_lt (a b : string) : Prop := String.compare a b = Lt.

#[global] Arguments str_lt : simpl never.

#[export] Instance str_lt_dec a b : Decision (str_lt a b).
Proof. unfold str_lt. apply _. Defined.

Lemma str_compare_refl a : String.compare a a = Eq.
Proof.
  pose proof (String.compare_antisym a a) as H.
  destruct (String.compare a a); simpl in H; congruence.
Qed.

Lemma str_lt_irrefl a : ~ str_lt a a.
Proof. unfold str_lt. by rewrite str_compare_refl. Qed.

Lemma str_lt_le a b : str_lt a b <-> String.le a b /\ a <> b.
Proof.
  unfold str_lt, String.le, String.leb. split.
  - intros H. rewrite H. split; [done|]. intros ->.
    by rewrite str_compare_refl in H.
  - intros [H Hne]. destruct (String.compare a b) eqn:E; [|done|done].
    by apply String.compare_eq_iff in E.
Qed.

Lemma str_le_lt_eq a b : String.le a b <-> str_lt a b \/ a = b.
Proof.
  rewrite str_lt_le. destruct (decide (a = b)) as [->|]; [by split; [right|]|].
  intuition.
Qed.

Lemma str_lt_trans a b c : str_lt a b -> str_lt b c -> str_lt a c.
Proof.
  rewrite !str_lt_le. intros [Hab Hne] [Hbc ?]. split; [by etrans|].
  intros ->. by apply Hne, (anti_symm String.le).
Qed.

Lemma str_le_lt_trans a b c : String.le a b -> str_lt b c -> str_lt a c.
Proof. rewrite str_le_lt_eq. intros [?| ->]; [by apply str_lt_trans|done]. Qed.

Lemma str_lt_asym a b : str_lt a b -> ~ str_lt b a.
Proof. intros H1 H2. by eapply str_lt_irrefl, str_lt_trans. Qed.

Lemma str_lt_total a b : str_lt a b \/ a = b \/ str_lt b a.
Proof.
  destruct (String.compare a b) eqn:E; [|by left|].
  - apply String.compare_eq_iff in E. auto.
  - right; right. unfold str_lt. by rewrite String.compare_antisym, E.
Qed.

Lemma str_lt_cons c a b : str_lt (String c a) (String c b) <-> str_lt a b.
Proof.
  unfold str_lt. simpl. unfold Ascii.compare. by rewrite N.compare_refl.
Qed.

Lemma str_lt_app p a b : str_lt (p +:+ a) (p +:+ b) <-> str_lt a b.
Proof.
  induction p as [|c p IH]; simpl; [done|]. by rewrite str_lt_cons.
Qed.

Lemma str_app_assoc (a b c : string) : (a +:+ b) +:+ c = a +:+ (b +:+ c).
Proof. induction a; simpl; [done|by f_equal]. Qed.

Lemma str_app_nil_r (a : string) : a +:+ "" = a.
Proof. induction a; simpl; [done|by f_equal]. Qed.

Lemma str_length_app (a b : string) :
  String.length (a +:+ b) = (String.length a + String.length b)%nat.
Proof. induction a; simpl; [done|by f_equal]. Qed.

Lemma str_app_inj_length (a b c d : string) :
  String.length a = String.length b -> a +:+ c = b +:+ d -> a = b /\ c = d.
Proof.
  revert b. induction a as [|x a IH]; intros [|y b] Hl Heq; simplify_eq/=; [done|].
  destruct (IH b) as [-> ->]; auto.
Qed.

(** Equal concatenations whose tails have the same length. *)
Lemma str_app_inj_length_r (a b c d : string) :
  String.length c = String.length d -> a +:+ c = b +:+ d -> a = b /\ c = d.
Proof.
  intros Hl Heq. apply str_app_inj_length; [|done].
  apply (f_equal String.length) in Heq. rewrite !str_length_app in Heq. lia.
Qed.

(** [Slice::starts_with]. *)
Definition starts_with (p s : string) : bool := String.prefix p s.

Lemma starts_with_spec p s : starts_with p s = true <-> exists t, s = p +:+ t.
Proof.
  unfold starts_with. revert s. induction p as [|c p IH]; intros s; simpl.
  - split; [by exists s|]. by destruct s.
  - destruct s as [|c' s]; [by split; [|intros [t ?]]|]. simpl.
    destruct (Ascii.ascii_dec c c') as [->|Hne].
    + rewrite (IH s). split; intros [t Ht]; exists t; simpl in *; congruence.
    + split; [done|]. intros [t Ht]. congruence.
Qed.

Lemma starts_with_app p s : starts_with p (p +:+ s) = true.
Proof. rewrite starts_with_spec. eauto. Qed.

(** Keys with a common prefix are contiguous in byte order. *)
Lemma starts_with_convex p a b :
  String.le p a -> str_lt a b -> starts_with p b = true -> starts_with p a = true.
Proof.
  rewrite starts_with_spec. intros Hpa Hab [t ->].
  rewrite starts_with_spec. revert a Hpa Hab.
  induction p as [|c p IH]; intros a Hpa Hab; [by eauto|].
  destruct a as [|c' a]; [done|].
  rewrite str_le_lt_eq in Hpa. unfold str_lt in *. simpl in *.
  destruct (Ascii.compare c' c) eqn:Hc; [| |done].
  - apply Ascii.compare_eq_iff in Hc as ->.
    unfold Ascii.compare in Hpa. rewrite N.compare_refl in Hpa.
    destruct (IH a) as [u ->]; [|done|by eauto].
    rewrite str_le_lt_eq. destruct Hpa as [?|?]; [by left|right; congruence].
  - rewrite Ascii.compare_antisym, Hc in Hpa. simpl in Hpa.
    destruct Hpa as [?|[= -> ->]]; [done|].
    unfold Ascii.compare in Hc. by rewrite N.compare_refl in Hc.
Qed.

(** A prefix is not above the strings it starts. *)
Lemma str_le_app p s : String.le p (p +:+ s).
Proof.
  rewrite str_le_lt_eq. induction p as [|c p IH]; simpl.
  - destruct s; [by right|by left].
  - rewrite str_lt_cons. destruct IH as [?| <-]; auto.
Qed.

#[global] Opaque String.le.

(** Rewriting with the laws of string concatenation. *)
Create HintDb str.
Create Rewrite HintDb str_rw.
#[export] Hint Rewrite str_app_assoc str_app_nil_r str_length_app str_lt_app
  starts_with_app : str_rw.
#[export] Hint Resolve str_lt_irrefl str_lt_asym str_le_app : str.
