(* ===== verification/CxxStd.v ===== *)
(** The C and C++ library functions the modelled code calls on strings and
    numbers: [std::string::substr], [find], [rfind], [strtoll], [std::stoll] and
    [snprintf] with ["%016llx"].  They are given their standard meaning, with
    the exceptions the C++ ones throw as values of [outcome]. *)
From S2P Require Import Prelude.
From Stdlib Require Import Ascii.

(** * Substrings *)

(** [s.substr(pos)] and [s.substr(pos, n)]: throws [std::out_of_range] when
    [pos > s.size()]. *)
Definition substr (s : string) (pos n : nat) : outcome string :=
  if decide (pos <= String.length s)%nat then Done (String.substring pos n s)
  else Throws OutOfRange.

Definition substr_from (s : string) (pos : nat) : outcome string :=
  substr s pos (String.length s - pos).

Lemma substring_app_skip (p s : string) n :
  String.substring (String.length p) n (p +:+ s) = String.substring 0 n s.
Proof. induction p; simpl; auto. Qed.

Lemma substring_all (s : string) : String.substring 0 (String.length s) s = s.
Proof. induction s; simpl; [done|]. by f_equal. Qed.

Lemma substring_prefix (s t : string) :
  String.substring 0 (String.length s) (s +:+ t) = s.
Proof. induction s; simpl; [by destruct t|]. by f_equal. Qed.

Lemma substring_split (s : string) k :
  (k <= String.length s)%nat ->
  String.substring 0 k s +:+ String.substring k (String.length s - k) s = s.
Proof.
  revert k. induction s as [|c s IH]; intros [|k] Hk; cbn in *; try done.
  - by rewrite substring_all.
  - change (String c ?x +:+ ?y) with (String c (x +:+ y)). by rewrite IH by lia.
Qed.

(** The fields of a string cut at the end of a known prefix. *)
Lemma substr_app (p s t : string) :
  substr (p +:+ s +:+ t) (String.length p) (String.length s) = Done s.
Proof.
  unfold substr. rewrite str_length_app. rewrite decide_True by lia.
  by rewrite substring_app_skip, substring_prefix.
Qed.

Lemma substr_from_app (p s : string) :
  substr_from (p +:+ s) (String.length p) = Done s.
Proof.
  unfold substr_from, substr. rewrite str_length_app, decide_True by lia.
  rewrite substring_app_skip.
  replace (String.length p + String.length s - String.length p)%nat
    with (String.length s) by lia.
  by rewrite substring_all.
Qed.

Lemma substr_from_past s pos :
  (String.length s < pos)%nat -> substr_from s pos = Throws OutOfRange.
Proof. intros H. unfold substr_from, substr. by rewrite decide_False by lia. Qed.

(** [s.find(c)] and [s.rfind(c)] for one character; [None] is [npos]. *)
Fixpoint find_char (c : ascii) (s : string) : option nat :=
  match s with
  | "" => None
  | String d s' => if Ascii.eqb c d then Some 0%nat else S <$> find_char c s'
  end.

Fixpoint rfind_char (c : ascii) (s : string) : option nat :=
  match s with
  | "" => None
  | String d s' =>
      match rfind_char c s' with
      | Some i => Some (S i)
      | None => if Ascii.eqb c d then Some 0%nat else None
      end
  end.

(** [s.find(p)] for a string; [None] is [npos]. *)
Fixpoint find_str (p s : string) : option nat :=
  if starts_with p s then Some 0%nat
  else match s with
       | "" => None
       | String _ s' => S <$> find_str p s'
       end.

(** * Reading numbers *)

Definition is_space (c : ascii) : bool :=
  match N_of_ascii c with 9 | 10 | 11 | 12 | 13 | 32 => true | _ => false end%N.

Fixpoint skip_space (s : string) : string :=
  match s with
  | String c s' => if is_space c then skip_space s' else s
  | "" => ""
  end.

(** The value of a digit in bases up to 36. *)
Definition digit_val (base : Z) (c : ascii) : option Z :=
  let n := Z.of_N (N_of_ascii c) in
  let d := if (48 <=? n) && (n <=? 57) then n - 48
           else if (97 <=? n) && (n <=? 122) then n - 87
           else if (65 <=? n) && (n <=? 90) then n - 55
           else base in
  if d <? base then Some d else None.

Fixpoint scan_digits (base : Z) (s : string) (acc : Z) : Z :=
  match s with
  | "" => acc
  | String c s' =>
      match digit_val base c with
      | Some d => scan_digits base s' (acc * base + d)
      | None => acc
      end
  end.

(** The optional sign; the boolean tells a minus sign. *)
Definition scan_sign (s : string) : bool * string :=
  match s with
  | String "-" s' => (true, s')
  | String "+" s' => (false, s')
  | _ => (false, s)
  end.

(** The ["0x"] or ["0X"] prefix of base 16, taken when a digit follows it. *)
Definition skip_0x (base : Z) (s : string) : string :=
  match s with
  | String "0" (String x (String c s')) =>
      if (base =? 16) && (Ascii.eqb x "x" || Ascii.eqb x "X")
         && (match digit_val base c with Some _ => true | None => false end)
      then String c s' else s
  | _ => s
  end.

(** The number [strtoll] reads before it is checked against the range of
    [long long]; [None] when no conversion is possible. *)
Definition scan_ll (base : Z) (s : string) : option Z :=
  let '(neg, s1) := scan_sign (skip_space s) in
  match skip_0x base s1 with
  | "" => None
  | String c _ as s2 =>
      match digit_val base c with
      | None => None
      | Some _ =>
          let v := scan_digits base s2 0 in Some (if neg then - v else v)
      end
  end.

(** [strtoll(s, nullptr, base)]: 0 when nothing is read, clamped to the range. *)
Definition strtoll (s : string) (base : Z) : Z :=
  match scan_ll base s with
  | None => 0
  | Some v => Z.min int64_max (Z.max int64_min v)
  end.

Lemma strtoll_range s base : in_int64 (strtoll s base).
Proof. unfold strtoll, in_int64, int64_min, int64_max. destruct (scan_ll base s); lia. Qed.

(** [std::stoll(s, nullptr, base)]: throws instead. *)
Definition stoll (s : string) (base : Z) : outcome Z :=
  match scan_ll base s with
  | None => Throws InvalidArgument
  | Some v => if decide (in_int64 v) then Done v else Throws OutOfRange
  end.

(** * Printing hexadecimal numbers *)

Definition hex_digit (d : Z) : ascii :=
  ascii_of_N (Z.to_N (if d <? 10 then 48 + d else 87 + d)).

(** The [n] lower-case hexadecimal digits of [v], most significant first. *)
Fixpoint hex_fixed (n : nat) (v : Z) : string :=
  match n with
  | O => ""
  | S n' => String (hex_digit (v / 16 ^ Z.of_nat n'))
                   (hex_fixed n' (v mod 16 ^ Z.of_nat n'))
  end.

Lemma length_hex_fixed n v : String.length (hex_fixed n v) = n.
Proof. revert v. induction n; simpl; auto. Qed.

(** Case analysis on one hexadecimal digit. *)
Lemma hex_digit_cases (P : Z -> Prop) :
  Forall P [0;1;2;3;4;5;6;7;8;9;10;11;12;13;14;15] ->
  forall d, 0 <= d < 16 -> P d.
Proof.
  rewrite Forall_forall. intros H d Hd. apply H.
  rewrite !elem_of_cons. lia.
Qed.

Lemma digit_val_hex_digit d : 0 <= d < 16 -> digit_val 16 (hex_digit d) = Some d.
Proof. revert d. apply hex_digit_cases. repeat constructor. Qed.

Lemma hex_digit_plain d :
  0 <= d < 16 ->
  is_space (hex_digit d) = false /\ (forall s, scan_sign (String (hex_digit d) s)
    = (false, String (hex_digit d) s)) /\
  Ascii.eqb (hex_digit d) "x" || Ascii.eqb (hex_digit d) "X" = false.
Proof. revert d. apply hex_digit_cases. repeat constructor. Qed.

Lemma hex_digit_compare a b :
  0 <= a < 16 -> 0 <= b < 16 ->
  Ascii.compare (hex_digit a) (hex_digit b) = Z.compare a b.
Proof.
  intros Ha Hb. revert a Ha b Hb.
  apply (hex_digit_cases (fun a => forall b, _ -> Ascii.compare (hex_digit a)
    (hex_digit b) = Z.compare a b)).
  repeat (constructor; [apply hex_digit_cases; by repeat constructor|]).
  constructor.
Qed.

Lemma pow16_pos n : 0 < 16 ^ Z.of_nat n.
Proof. apply Z.pow_pos_nonneg; lia. Qed.

Lemma pow16_S n : 16 ^ Z.of_nat (S n) = 16 * 16 ^ Z.of_nat n.
Proof. rewrite Nat2Z.inj_succ, Z.pow_succ_r by lia. done. Qed.

(** The leading digit and the rest of a number below [16 ^ (n+1)]. *)
Lemma hex_split n v :
  0 <= v < 16 ^ Z.of_nat (S n) ->
  0 <= v / 16 ^ Z.of_nat n < 16 /\
  0 <= v mod 16 ^ Z.of_nat n < 16 ^ Z.of_nat n /\
  v = v / 16 ^ Z.of_nat n * 16 ^ Z.of_nat n + v mod 16 ^ Z.of_nat n.
Proof.
  rewrite pow16_S. intros Hv. pose proof (pow16_pos n) as Hp.
  split_and!.
  - apply Z.div_pos; lia.
  - apply Z.div_lt_upper_bound; lia.
  - apply Z.mod_pos_bound; lia.
  - apply Z.mod_pos_bound; lia.
  - rewrite Z.mul_comm. apply Z.div_mod. lia.
Qed.

(** Fixed-width hexadecimal compares like the numbers it prints. *)
Lemma hex_fixed_compare n a b :
  0 <= a < 16 ^ Z.of_nat n -> 0 <= b < 16 ^ Z.of_nat n ->
  String.compare (hex_fixed n a) (hex_fixed n b) = Z.compare a b.
Proof.
  revert a b. induction n as [|n IH]; intros a b Ha Hb.
  { change (16 ^ Z.of_nat 0) with 1 in *. simpl. symmetry.
    apply Z.compare_eq_iff. lia. }
  destruct (hex_split n a Ha) as (Had & Har & Hae).
  destruct (hex_split n b Hb) as (Hbd & Hbr & Hbe).
  simpl. rewrite hex_digit_compare, (IH _ _ Har Hbr) by done.
  set (p := 16 ^ Z.of_nat n) in *. pose proof (pow16_pos n) as Hp. fold p in Hp.
  clear IH Ha Hb Had Hbd.
  revert Har Hbr Hae Hbe. generalize (a / p) (a mod p) (b / p) (b mod p).
  intros qa ra qb rb Har Hbr -> ->. symmetry.
  destruct (Z.compare_spec qa qb) as [->|E|E].
  - apply Z.add_compare_mono_l.
  - apply Z.compare_lt_iff. nia.
  - apply Z.compare_gt_iff. nia.
Qed.

Lemma scan_hex_fixed n v acc :
  0 <= v < 16 ^ Z.of_nat n ->
  scan_digits 16 (hex_fixed n v) acc = acc * 16 ^ Z.of_nat n + v.
Proof.
  revert v acc. induction n as [|n IH]; intros v acc Hv.
  { change (16 ^ Z.of_nat 0) with 1 in *. simpl. lia. }
  destruct (hex_split n v Hv) as (Hd & Hr & He). simpl.
  rewrite digit_val_hex_digit, IH, pow16_S by done. lia.
Qed.

(** [stoll] reads back what ["%016llx"] printed, and rejects what does not fit
    in a signed 64-bit integer. *)
Lemma scan_ll_hex_fixed n v :
  0 <= v < 16 ^ Z.of_nat (S (S n)) ->
  scan_ll 16 (hex_fixed (S (S n)) v) = Some v.
Proof.
  intros Hv. pose proof (hex_split _ _ Hv) as (Hd & Hr & _).
  pose proof (hex_split _ _ Hr) as (Hd2 & _ & _).
  pose proof (scan_hex_fixed _ _ 0 Hv) as Hs.
  destruct (hex_digit_plain _ Hd) as (Hsp & Hsg & _).
  destruct (hex_digit_plain _ Hd2) as (_ & _ & Hx).
  unfold scan_ll. cbn [hex_fixed] in *. cbn [skip_space]. rewrite Hsp, Hsg. cbv beta iota.
  pose proof (digit_val_hex_digit _ Hd) as Hdv.
  revert Hs Hx Hdv. clear Hsp Hsg.
  generalize (hex_digit (v / 16 ^ Z.of_nat (S n))).
  generalize (hex_digit (v mod 16 ^ Z.of_nat (S n) / 16 ^ Z.of_nat n)).
  generalize (hex_fixed n ((v mod 16 ^ Z.of_nat (S n)) mod 16 ^ Z.of_nat n)).
  intros rest d2 d1 Hs Hx Hdv.
  assert (skip_0x 16 (String d1 (String d2 rest)) = String d1 (String d2 rest)) as ->.
  { unfold skip_0x. repeat case_match; simplify_eq; try done.
    all: match goal with H : _ && _ && _ = true |- _ =>
           by rewrite ?Hx, ?andb_false_r in H end. }
  rewrite Hdv, Hs. f_equal; lia.
Qed.
