(* ===== verification/StoreKey.v ===== *)
(** Model of src/src/common/storekey.{h,cpp}: the byte layout of the LevelDB key
    space and the integer codecs.  The theorems are what the store relies on:
    the fixed-width hexadecimal code keeps the numeric order, keys of different
    namespaces never meet, and each key determines the data it was built from. *)
From S2P Require Import Prelude CxxStd.
From Stdlib Require Import Ascii.

Definition kRevisionMetaKey : string := "meta/revision".
Definition kCompactRevKey : string := "meta/compact_rev".
Definition kMainPrefix : string := "k/".
Definition kVersionPrefix : string := "v/".
Definition kConfigPrefix : string := "cfg/".

Definition RevisionMetaKey : string := kRevisionMetaKey.
Definition CompactRevKey : string := kCompactRevKey.

Definition MainKey (key : string) : string := kMainPrefix +:+ key.

Definition EncodeOrd (v : Z) : string := hex_fixed 16 (to_uint64 v).

Definition DecodeOrd (hex : string) : outcome Z := stoll hex 16.

Definition VersionKey (revision : Z) (key : string) : string :=
  kVersionPrefix +:+ EncodeOrd revision +:+ "/" +:+ key.

Definition ConfigKey (key : string) (version : Z) : string :=
  kConfigPrefix +:+ key +:+ "/" +:+ EncodeOrd version.

(** [EncodeUint64]: the loop writes byte 7 down to byte 0, shifting [v] right by
    8 bits each time, so the [i] most significant bytes come first. *)
Fixpoint encode_bytes (i : nat) (v : Z) (acc : string) : string :=
  match i with
  | O => acc
  | S i' => encode_bytes i' (Z.shiftr v 8)
              (String (ascii_of_N (Z.to_N (Z.land v 255))) acc)
  end.

Definition EncodeUint64 (v : Z) : string := encode_bytes 8 v "".

(** [DecodeUint64]: the loop over the first 8 bytes, [v] a [uint64_t]. *)
Fixpoint decode_bytes (n : nat) (v : Z) (s : string) : Z :=
  match n, s with
  | S n', String c s' =>
      decode_bytes n' (Z.lor (to_uint64 (Z.shiftl v 8)) (Z.of_N (N_of_ascii c))) s'
  | _, _ => v
  end.

Definition DecodeUint64 (s : string) : Z :=
  if (String.length s <? 8)%nat then 0 else decode_bytes 8 0 s.

(** * Order-preserving encoding *)

Lemma length_EncodeOrd v : String.length (EncodeOrd v) = 16%nat.
Proof. apply length_hex_fixed. Qed.

Lemma to_uint64_below v : 0 <= to_uint64 v < 16 ^ Z.of_nat 16.
Proof. apply to_uint64_range. Qed.

Lemma EncodeOrd_compare a b :
  String.compare (EncodeOrd a) (EncodeOrd b) = Z.compare (to_uint64 a) (to_uint64 b).
Proof. apply hex_fixed_compare; apply to_uint64_below. Qed.

Lemma EncodeOrd_lt a b :
  0 <= a <= int64_max -> 0 <= b <= int64_max ->
  str_lt (EncodeOrd a) (EncodeOrd b) <-> a < b.
Proof.
  unfold str_lt, int64_max. intros Ha Hb. rewrite EncodeOrd_compare.
  rewrite !to_uint64_nonneg by lia. apply Z.compare_lt_iff.
Qed.

Lemma EncodeOrd_inj a b : in_int64 a -> in_int64 b -> EncodeOrd a = EncodeOrd b -> a = b.
Proof.
  intros Ha Hb Heq. rewrite <-(to_int64_to_uint64 a), <-(to_int64_to_uint64 b) by done.
  f_equal. apply Z.compare_eq_iff. rewrite <-EncodeOrd_compare, Heq.
  apply str_compare_refl.
Qed.

Lemma DecodeOrd_EncodeOrd_nonneg v :
  0 <= v <= int64_max -> DecodeOrd (EncodeOrd v) = Done v.
Proof.
  unfold int64_max. intros Hv. unfold DecodeOrd, EncodeOrd, stoll.
  rewrite scan_ll_hex_fixed by apply to_uint64_below.
  rewrite to_uint64_nonneg by lia. rewrite decide_True; [done|].
  unfold in_int64, int64_min, int64_max. lia.
Qed.

Lemma DecodeOrd_EncodeOrd_neg v :
  int64_min <= v < 0 -> DecodeOrd (EncodeOrd v) = Throws OutOfRange.
Proof.
  unfold int64_min. intros Hv. unfold DecodeOrd, EncodeOrd, stoll.
  rewrite scan_ll_hex_fixed by apply to_uint64_below.
  assert (to_uint64 v = v + 2 ^ 64) as ->.
  { unfold to_uint64. symmetry. apply Z.mod_unique with (q := -1); lia. }
  rewrite decide_False; [done|]. unfold in_int64, int64_min, int64_max. lia.
Qed.

(** * The key layout *)

Lemma MainKey_inj a b : MainKey a = MainKey b -> a = b.
Proof. unfold MainKey. intros [=]; done. Qed.

Lemma VersionKey_inj r1 k1 r2 k2 :
  in_int64 r1 -> in_int64 r2 ->
  VersionKey r1 k1 = VersionKey r2 k2 -> r1 = r2 /\ k1 = k2.
Proof.
  unfold VersionKey. intros H1 H2 Heq.
  apply (inj (String.append kVersionPrefix)) in Heq.
  apply str_app_inj_length in Heq as [Hr Hk]; [|by rewrite !length_EncodeOrd].
  apply EncodeOrd_inj in Hr; [|done|done]. by apply (inj (String.append "/")) in Hk.
Qed.

(** The key may itself hold slashes: the fixed width of the version decides. *)
Lemma ConfigKey_inj k1 v1 k2 v2 :
  in_int64 v1 -> in_int64 v2 ->
  ConfigKey k1 v1 = ConfigKey k2 v2 -> k1 = k2 /\ v1 = v2.
Proof.
  unfold ConfigKey. intros H1 H2 Heq.
  apply (inj (String.append kConfigPrefix)) in Heq.
  apply str_app_inj_length_r in Heq as [Hk Hv].
  - apply (inj (String.append "/")) in Hv. by apply EncodeOrd_inj in Hv.
  - by rewrite !str_length_app, !length_EncodeOrd.
Qed.

Lemma VersionKey_lt r1 k1 r2 k2 :
  0 <= r1 <= int64_max -> 0 <= r2 <= int64_max -> r1 < r2 ->
  str_lt (VersionKey r1 k1) (VersionKey r2 k2).
Proof.
  intros H1 H2 Hlt. unfold VersionKey. rewrite str_lt_app.
  apply EncodeOrd_lt in Hlt; [|done|done]. revert Hlt.
  pose proof (length_EncodeOrd r1) as L1. pose proof (length_EncodeOrd r2) as L2.
  rewrite <-L1 in L2. clear L1. revert L2.
  generalize (EncodeOrd r1) (EncodeOrd r2). intros a.
  induction a as [|c a IH]; intros [|d b] Hl Hlt; simplify_eq/=; [done|].
  unfold str_lt in *. simpl in *. destruct (Ascii.compare c d); [|done|done].
  by apply IH.
Qed.

Lemma ConfigKey_lt k v1 v2 :
  0 <= v1 <= int64_max -> 0 <= v2 <= int64_max -> v1 < v2 ->
  str_lt (ConfigKey k v1) (ConfigKey k v2).
Proof.
  intros H1 H2 Hlt. unfold ConfigKey. rewrite !str_lt_app. by apply EncodeOrd_lt.
Qed.

(** The kind of data a key of the layout addresses, read off its bytes. *)
Inductive namespace := NsConfig | NsMain | NsMeta | NsVersion.

Definition key_ns (s : string) : option namespace :=
  match s with
  | String "c" _ => Some NsConfig
  | String "k" _ => Some NsMain
  | String "m" _ => Some NsMeta
  | String "v" _ => Some NsVersion
  | _ => None
  end.

Lemma key_ns_layout :
  key_ns RevisionMetaKey = Some NsMeta /\ key_ns CompactRevKey = Some NsMeta /\
  (forall k, key_ns (MainKey k) = Some NsMain) /\
  (forall r k, key_ns (VersionKey r k) = Some NsVersion) /\
  (forall k v, key_ns (ConfigKey k v) = Some NsConfig).
Proof. done. Qed.

Lemma RevisionMetaKey_ne_CompactRevKey : RevisionMetaKey <> CompactRevKey.
Proof. done. Qed.

(** Two keys of the layout are equal only within one namespace. *)
Ltac ns_discriminate :=
  let H := fresh in
  intros H; apply (f_equal key_ns) in H; discriminate H.

Lemma MainKey_ne_VersionKey k r k' : MainKey k <> VersionKey r k'.
Proof. ns_discriminate. Qed.
Lemma MainKey_ne_ConfigKey k k' v : MainKey k <> ConfigKey k' v.
Proof. ns_discriminate. Qed.
Lemma VersionKey_ne_ConfigKey r k k' v : VersionKey r k <> ConfigKey k' v.
Proof. ns_discriminate. Qed.
Lemma RevisionMetaKey_ne_MainKey k : RevisionMetaKey <> MainKey k.
Proof. ns_discriminate. Qed.
Lemma RevisionMetaKey_ne_VersionKey r k : RevisionMetaKey <> VersionKey r k.
Proof. ns_discriminate. Qed.
Lemma RevisionMetaKey_ne_ConfigKey k v : RevisionMetaKey <> ConfigKey k v.
Proof. ns_discriminate. Qed.
Lemma CompactRevKey_ne_MainKey k : CompactRevKey <> MainKey k.
Proof. ns_discriminate. Qed.
Lemma CompactRevKey_ne_VersionKey r k : CompactRevKey <> VersionKey r k.
Proof. ns_discriminate. Qed.
Lemma CompactRevKey_ne_ConfigKey k v : CompactRevKey <> ConfigKey k v.
Proof. ns_discriminate. Qed.

(** The substrings Compaction and ReplayEvents cut out of a [v/] key. *)
Lemma VersionKey_rev_field r k :
  substr (VersionKey r k) 2 16 = Done (EncodeOrd r).
Proof.
  unfold VersionKey. rewrite <-(length_EncodeOrd r).
  apply (substr_app kVersionPrefix).
Qed.

Lemma VersionKey_key_field r k : substr_from (VersionKey r k) 19 = Done k.
Proof.
  assert (VersionKey r k = (kVersionPrefix +:+ EncodeOrd r +:+ "/") +:+ k) as ->.
  { unfold VersionKey. by rewrite !str_app_assoc. }
  replace 19%nat with (String.length (kVersionPrefix +:+ EncodeOrd r +:+ "/"))
    by (by rewrite !str_length_app, length_EncodeOrd).
  apply substr_from_app.
Qed.

Lemma length_VersionKey r k :
  String.length (VersionKey r k) = (19 + String.length k)%nat.
Proof. unfold VersionKey. by rewrite !str_length_app, length_EncodeOrd. Qed.

Lemma starts_with_VersionKey r k : starts_with "v/" (VersionKey r k) = true.
Proof. apply (starts_with_app "v/"). Qed.

Lemma starts_with_ConfigKey k v : starts_with ("cfg/" +:+ k +:+ "/") (ConfigKey k v) = true.
Proof.
  unfold ConfigKey. change kConfigPrefix with "cfg/".
  rewrite <-!str_app_assoc. apply starts_with_app.
Qed.

(** * Big-endian counters *)

Lemma byte_round v :
  Z.of_N (N_of_ascii (ascii_of_N (Z.to_N (Z.land v 255)))) = v mod 256.
Proof.
  assert (0 <= v mod 256 < 256) by (apply Z.mod_pos_bound; lia).
  change 255 with (Z.ones 8). rewrite Z.land_ones by lia. change (2 ^ 8) with 256.
  rewrite N_ascii_embedding by lia. lia.
Qed.

Lemma lor_byte v b : 0 <= b < 256 -> Z.lor (v * 256) b = v * 256 + b.
Proof.
  intros Hb. rewrite <-Z.add_lor_land.
  enough (Z.land (v * 256) b = 0) as -> by lia.
  rewrite <-(Z.mod_small b (2 ^ 8)), <-Z.land_ones, (Z.land_comm b), Z.land_assoc by lia.
  rewrite Z.land_ones by lia. change 256 with (2 ^ 8).
  by rewrite Z.mod_mul by lia.
Qed.

Lemma decode_step v c n s :
  0 <= v < 2 ^ 56 ->
  decode_bytes (S n) v (String c s) =
  decode_bytes n (v * 256 + Z.of_N (N_of_ascii c)) s.
Proof.
  intros Hv. simpl. pose proof (N_ascii_bounded c) as Hc.
  rewrite Z.shiftl_mul_pow2 by lia. change (2 ^ 8) with 256.
  rewrite to_uint64_nonneg by lia. f_equal. apply lor_byte. lia.
Qed.

Lemma decode_encode_bytes i v s n acc :
  0 <= v < 256 ^ Z.of_nat i -> 0 <= acc ->
  acc * 256 ^ Z.of_nat i + v < 2 ^ 64 ->
  decode_bytes (i + n) acc (encode_bytes i v s) =
  decode_bytes n (acc * 256 ^ Z.of_nat i + v) s.
Proof.
  revert v s n. induction i as [|i IH]; intros v s n Hv Hacc Hb.
  { change (256 ^ Z.of_nat 0) with 1 in *. simpl. f_equal. lia. }
  rewrite Nat2Z.inj_succ, Z.pow_succ_r in Hv, Hb |- * by lia.
  set (p := 256 ^ Z.of_nat i) in *.
  assert (0 < p) by (apply Z.pow_pos_nonneg; lia).
  cbn [encode_bytes]. rewrite Z.shiftr_div_pow2 by lia. change (2 ^ 8) with 256.
  assert (v = v / 256 * 256 + v mod 256) as Hv'
    by (rewrite Z.mul_comm; apply Z.div_mod; lia).
  assert (0 <= v mod 256 < 256) by (apply Z.mod_pos_bound; lia).
  assert (0 <= v / 256 < p).
  { split; [apply Z.div_pos; lia|apply Z.div_lt_upper_bound; lia]. }
  replace (S i + n)%nat with (i + S n)%nat by lia.
  rewrite IH by (unfold p in *; nia).
  fold p. rewrite decode_step by nia. rewrite byte_round. f_equal. nia.
Qed.

Lemma length_EncodeUint64 v : String.length (EncodeUint64 v) = 8%nat.
Proof. done. Qed.

Lemma DecodeUint64_EncodeUint64 v :
  0 <= v < 2 ^ 64 -> DecodeUint64 (EncodeUint64 v) = v.
Proof.
  intros Hv. unfold DecodeUint64. rewrite length_EncodeUint64. cbn [Nat.ltb Nat.leb].
  unfold EncodeUint64. change 8%nat with (8 + 0)%nat at 1.
  rewrite decode_encode_bytes; simpl; lia.
Qed.

(** The counters the store keeps: an [int64_t] cast to [uint64_t] and back. *)
Lemma counter_roundtrip v :
  in_int64 v -> to_int64 (DecodeUint64 (EncodeUint64 (to_uint64 v))) = v.
Proof.
  intros Hv. rewrite DecodeUint64_EncodeUint64 by apply to_uint64_range.
  by apply to_int64_to_uint64.
Qed.

#[global] Opaque EncodeOrd DecodeOrd.

#[export] Hint Resolve MainKey_ne_VersionKey MainKey_ne_ConfigKey
  VersionKey_ne_ConfigKey RevisionMetaKey_ne_MainKey RevisionMetaKey_ne_VersionKey
  RevisionMetaKey_ne_ConfigKey CompactRevKey_ne_MainKey CompactRevKey_ne_VersionKey
  CompactRevKey_ne_ConfigKey RevisionMetaKey_ne_CompactRevKey : str.
