(* ===== verification/StoreKeyTheorems.v ===== *)
(** Properties of the key layout of src/src/common/storekey.cpp. *)
From S2P Require Import Prelude CxxStd StoreKey.

(** C39. The numbers in keys sort: [EncodeOrd] writes 16 hexadecimal digits whose
    byte order is the order of the numbers, so a scan of [v/] goes through the
    revisions in order and a scan of one key's [cfg/] through its versions; and
    [DecodeOrd] reads the number back.  This is for numbers that are not
    negative: a negative one sorts above all of them, and [DecodeOrd] raises
    [std::out_of_range] on it. *)
Theorem EncodeOrd_sorts :
  (forall a b k1 k2, 0 <= a <= int64_max -> 0 <= b <= int64_max ->
     (str_lt (EncodeOrd a) (EncodeOrd b) <-> a < b) /\
     (a < b -> str_lt (VersionKey a k1) (VersionKey b k2)) /\
     (a < b -> str_lt (ConfigKey k1 a) (ConfigKey k1 b))) /\
  (forall a, 0 <= a <= int64_max -> DecodeOrd (EncodeOrd a) = Done a) /\
  (forall a b, int64_min <= a < 0 -> 0 <= b <= int64_max ->
     str_lt (EncodeOrd b) (EncodeOrd a) /\ DecodeOrd (EncodeOrd a) = Throws OutOfRange).
Proof.
  split_and!.
  - intros a b k1 k2 Ha Hb. split_and!; [by apply EncodeOrd_lt|..].
    + by apply VersionKey_lt.
    + by apply ConfigKey_lt.
  - apply DecodeOrd_EncodeOrd_nonneg.
  - intros a b Ha Hb. split; [|by apply DecodeOrd_EncodeOrd_neg].
    unfold str_lt. rewrite EncodeOrd_compare. apply Z.compare_lt_iff.
    unfold int64_min, int64_max in *. rewrite to_uint64_nonneg by lia.
    unfold to_uint64. replace (a mod 2 ^ 64) with (a + 2 ^ 64); [lia|].
    apply Z.mod_unique with (q := -1); lia.
Qed.

(** The five kinds of keys with their fields. *)
Inductive layout :=
| KRevision
| KCompact
| KMain (key : string)
| KVersion (revision : Z) (key : string)
| KConfig (key : string) (version : Z).

Definition layout_bytes (l : layout) : string :=
  match l with
  | KRevision => RevisionMetaKey
  | KCompact => CompactRevKey
  | KMain key => MainKey key
  | KVersion revision key => VersionKey revision key
  | KConfig key version => ConfigKey key version
  end.

Definition layout_int64 (l : layout) : Prop :=
  match l with
  | KVersion n _ | KConfig _ n => in_int64 n
  | _ => True
  end.

(** The layout is unambiguous: two keys with the same bytes are of the same
    kind and have the same fields, for all strings, also those that hold slashes
    or look like a key of another kind; and the fields compaction cuts out of a
    [v/] key by position are its revision and its key. *)
Theorem layout_unambiguous l1 l2 :
  layout_int64 l1 -> layout_int64 l2 -> layout_bytes l1 = layout_bytes l2 ->
  l1 = l2 /\
  match l1 with
  | KVersion revision key =>
      substr (layout_bytes l1) 2 16 = Done (EncodeOrd revision) /\
      substr_from (layout_bytes l1) (2 + 16 + 1) = Done key
  | _ => True
  end.
Proof.
  intros H1 H2 E. assert (l1 = l2) as <-.
  { destruct l1 as [| |k1|r1 k1|k1 v1], l2 as [| |k2|r2 k2|k2 v2]; simpl in *; try done;
      try (by exfalso; apply (f_equal key_ns) in E; discriminate E).
    - by apply MainKey_inj in E as ->.
    - by apply VersionKey_inj in E as [-> ->].
    - by apply ConfigKey_inj in E as [-> ->]. }
  split; [done|]. destruct l1; try done. simpl.
  split; [apply VersionKey_rev_field|apply VersionKey_key_field].
Qed.

Lemma layout_unambiguous_witness :
  KVersion 258 "a/b" = KVersion 258 "a/b" /\
  substr (VersionKey 258 "a/b") 2 16 = Done (EncodeOrd 258) /\
  substr_from (VersionKey 258 "a/b") 19 = Done "a/b".
Proof. apply (layout_unambiguous (KVersion 258 "a/b") (KVersion 258 "a/b")); by vm_compute. Defined.
