(* ===== verification/Proto.v ===== *)
(** The protocol messages of src/proto/configraft.proto and the result structs of
    src/src/raft/node.h, with the interface of the protobuf serialisation the
    store uses.  The protobuf runtime is not part of the repository: its parser
    and serialiser are the operations of a class, their round trip is its law,
    and a concrete instance shows that the law can hold. *)
From S2P Require Import Prelude.
From Stdlib Require Import Ascii.

(** * Messages *)

Inductive Code :=
| OK
| KEY_NOT_FOUND
| CAS_FAILED
| NOT_LEADER
| VERSION_NOT_FOUND
| COMPACTED
| INVALID_ARGUMENT
| INTERNAL.

#[export] Instance Code_eq_dec : EqDecision Code.
Proof. solve_decision. Defined.

(** The number each enumerator has on the wire. *)
Definition Code_number (c : Code) : Z :=
  match c with
  | OK => 0 | KEY_NOT_FOUND => 1 | CAS_FAILED => 2 | NOT_LEADER => 3
  | VERSION_NOT_FOUND => 4 | COMPACTED => 5 | INVALID_ARGUMENT => 6
  | INTERNAL => 100
  end.

Record KV := mkKV {
  kv_key : string;
  kv_value : string;
  kv_version : Z;
  kv_revision : Z;
  kv_deleted : bool
}.

#[export] Instance KV_eq_dec : EqDecision KV.
Proof. solve_decision. Defined.

(** A default-constructed message. *)
Definition KV_default : KV := mkKV "" "" 0 0 false.

Record WatchEvent := mkEvent {
  ev_revision : Z;
  ev_key : string;
  ev_value : string;
  ev_version : Z;
  ev_type : string
}.

#[export] Instance WatchEvent_eq_dec : EqDecision WatchEvent.
Proof. solve_decision. Defined.

(** [RaftCmd], a [oneof]; [CmdNotSet] is [CMD_NOT_SET]. *)
Inductive RaftCmd :=
| CmdPut (key value : string)
| CmdDelete (key : string)
| CmdCas (key expect value : string)
| CmdPublish (key value : string)
| CmdRollback (key : string) (target_version : Z)
| CmdBatchPut (puts : list (string * string))
| CmdNotSet.

#[export] Instance RaftCmd_eq_dec : EqDecision RaftCmd.
Proof. solve_decision. Defined.

Record SnapshotData := mkSnapshot {
  sd_revision : Z;
  sd_kvs : list KV;
  sd_cfg_kvs : list KV
}.

(** * Results passed between the layers *)

Record ApplyResult := mkApplyResult {
  ar_code : Code;
  ar_message : string;
  ar_kv : KV;
  ar_kvs : list KV;
  ar_leader_id : string;
  ar_events : list WatchEvent
}.

Definition ApplyResult_default : ApplyResult :=
  mkApplyResult OK "" KV_default [] "" [].

Record GetResult := mkGetResult {
  gr_code : Code;
  gr_message : string;
  gr_kv : KV;
  gr_kvs : list KV;
  gr_leader_id : string
}.

Definition GetResult_default : GetResult := mkGetResult OK "" KV_default [] "".

Record ConfigResult := mkConfigResult {
  cr_code : Code;
  cr_message : string;
  cr_kv : KV;
  cr_history : list KV
}.

Definition ConfigResult_default : ConfigResult := mkConfigResult OK "" KV_default [].

Record WatchResult := mkWatchResult {
  wr_code : Code;
  wr_message : string;
  wr_current_revision : Z;
  wr_events : list WatchEvent
}.

Record ConfChangeResult := mkConfChangeResult {
  cc_code : Code;
  cc_message : string
}.

(** * Serialisation of the stored record *)

(** [KV::SerializeToString] and [KV::ParseFromString].  [utf8_valid] is the check
    proto3 makes on [string] fields: a record with another byte string in them
    is written but not read back. *)
Class KVCodec := {
  SerializeKV : KV -> string;
  ParseKV : string -> option KV;
  utf8_valid : string -> bool
}.

(** The records the round trip holds for. *)
Definition kv_encodable `{KVCodec} (kv : KV) : Prop :=
  utf8_valid (kv_key kv) = true /\ utf8_valid (kv_value kv) = true /\
  in_int64 (kv_version kv) /\ in_int64 (kv_revision kv).

#[export] Instance kv_encodable_dec `{KVCodec} kv : Decision (kv_encodable kv).
Proof. unfold kv_encodable. apply _. Defined.

Class KVCodecSpec `{KVCodec} : Prop := {
  ParseKV_SerializeKV : forall kv, kv_encodable kv -> ParseKV (SerializeKV kv) = Some kv;
  utf8_valid_empty : utf8_valid "" = true;
  SerializeKV_default : SerializeKV KV_default = ""   (** fields at their default take no bytes *)
}.

(** [ByteSizeLong] is the size of the serialised message. *)
Definition KV_ByteSizeLong `{KVCodec} (kv : KV) : nat := String.length (SerializeKV kv).

Lemma KV_ByteSizeLong_pos `{KVCodecSpec} kv :
  kv_encodable kv -> kv <> KV_default -> (0 <? KV_ByteSizeLong kv)%nat = true.
Proof.
  intros He Hne. unfold KV_ByteSizeLong. apply Nat.ltb_lt.
  destruct (SerializeKV kv) as [|c s] eqn:E; simpl; [|lia]. destruct Hne.
  pose proof (ParseKV_SerializeKV kv He) as Hp. rewrite E, <-SerializeKV_default in Hp.
  rewrite ParseKV_SerializeKV in Hp; [congruence|]. split_and!; [| |done|done];
    apply utf8_valid_empty.
Qed.

(** * A concrete codec *)

(** The wire format of this instance is its own: a record is sent through the
    numbering of [Countable], and the number is written in binary digits.  A
    default record is written as the empty string, like protobuf does. *)
Module BitCodec.
Fixpoint pos_digits (p : positive) : string :=
  match p with
  | xH => ""
  | xO p' => String "0" (pos_digits p')
  | xI p' => String "1" (pos_digits p')
  end.

Fixpoint digits_pos (s : string) : positive :=
  match s with
  | "" => 1
  | String "0" s' => (digits_pos s')~0
  | String _ s' => (digits_pos s')~1
  end.

Lemma digits_pos_digits p : digits_pos (pos_digits p) = p.
Proof. induction p; simpl; congruence. Qed.

Definition kv_tuple (kv : KV) : list (string + Z + bool) :=
  [inl (inl (kv_key kv)); inl (inl (kv_value kv)); inl (inr (kv_version kv));
   inl (inr (kv_revision kv)); inr (kv_deleted kv)].

Definition tuple_kv (t : list (string + Z + bool)) : option KV :=
  match t with
  | [inl (inl k); inl (inl v); inl (inr n); inl (inr r); inr d] =>
      Some (mkKV k v n r d)
  | _ => None
  end.

Definition serialize (kv : KV) : string :=
  if decide (kv = KV_default) then "" else "#" +:+ pos_digits (encode (kv_tuple kv)).

Definition parse (s : string) : option KV :=
  match s with
  | "" => Some KV_default
  | String "#" s' => decode (digits_pos s') ≫= tuple_kv
  | _ => None
  end.

(** Seven-bit strings stand for the valid ones. *)
Fixpoint ascii_only (s : string) : bool :=
  match s with
  | "" => true
  | String c s' => (Ascii.N_of_ascii c <? 128)%N && ascii_only s'
  end.

#[export] Instance codec : KVCodec := {|
  SerializeKV := serialize; ParseKV := parse; utf8_valid := ascii_only
|}.

Lemma parse_serialize kv : parse (serialize kv) = Some kv.
Proof.
  unfold serialize. case_decide as H; [by subst|].
  simpl. rewrite digits_pos_digits, decode_encode. by destruct kv.
Qed.

#[export] Instance codec_spec : KVCodecSpec.
Proof. constructor; [intros kv _; apply parse_serialize|done|done]. Qed.
End BitCodec.
