(* ===== verification/LevelDB.v ===== *)
(** The interface of the storage engine.  LevelDB and the file system are not
    part of the repository: the calls the store makes are the operations of two
    classes, and what their documentation promises of them (an ordered map from
    byte strings to byte strings, atomic write batches, iterators over a
    consistent snapshot in bytewise order, durable contents) is their laws.  An
    in-memory instance satisfies the laws and is what the witnesses run on. *)
From S2P Require Import Prelude.

(** * Operations *)

(** [leveldb::WriteBatch]: the recorded operations, oldest first. *)
Inductive write_op :=
| OpPut (k v : string)
| OpDelete (k : string).

Abbreviation WriteBatch := (list write_op).

(** The status of [DB::Get]. *)
Inductive get_status :=
| GetOk (raw : string)
| GetNotFound
| GetError (msg : string).

(** [db_seek d k] is what an iterator opened on [d] and positioned by [Seek(k)]
    goes through with [Next] until it is no longer [Valid]. *)
Class LevelDB (DB : Type) := {
  db_get : DB -> string -> get_status;
  db_seek : DB -> string -> list (string * string);
  db_write : DB -> WriteBatch -> option string * DB   (** [None]: status ok *)
}.

(** Opening, closing and the directory calls around them. *)
Class LevelDBFiles (DB FS : Type) := {
  db_open : FS -> string -> (string + DB) * FS;
  db_close : DB -> FS -> FS;
  fs_create_directories : FS -> string -> outcome FS;
  fs_remove_all : FS -> string -> bool * FS             (** [true]: no error code *)
}.

(** * Laws *)

Definition apply_op (m : gmap string string) (o : write_op) : gmap string string :=
  match o with OpPut k v => <[k := v]> m | OpDelete k => delete k m end.

Definition apply_batch (b : WriteBatch) (m : gmap string string) : gmap string string :=
  foldl apply_op m b.

Definition entry_lt (a b : string * string) : Prop := str_lt a.1 b.1.

Class LevelDBSpec (DB : Type) `{LevelDB DB} := {
  contents : DB -> gmap string string;
  readable : DB -> Prop;    (** no read of this state meets an I/O error *)
  db_get_readable d k : readable d ->
    db_get d k = match contents d !! k with Some v => GetOk v | None => GetNotFound end;
  db_seek_sorted d k : readable d -> StronglySorted entry_lt (db_seek d k);
  db_seek_elem d k k' v : readable d ->
    (k', v) ∈ db_seek d k <-> contents d !! k' = Some v /\ String.le k k';
  db_write_ok d b d' : db_write d b = (None, d') -> contents d' = apply_batch b (contents d);
  db_write_error d b e d' : db_write d b = (Some e, d') -> contents d' = contents d;
  db_write_readable d b e d' : readable d -> db_write d b = (e, d') -> readable d'
}.

(** A state from which every write succeeds, whatever the batch, is one whose
    device accepts writes. *)
Definition accepts_writes {DB} `{LevelDB DB} (d : DB) : Prop :=
  forall b, fst (db_write d b) = None.

Class LevelDBFilesSpec (DB FS : Type) `{LevelDBSpec DB} `{!LevelDBFiles DB FS} := {
  disk : FS -> string -> gmap string string;    (** the database in a directory *)
  db_dir : DB -> string;
  db_write_dir d b : db_dir (snd (db_write d b)) = db_dir d;
  db_open_ok fs dir d fs' : db_open fs dir = (inr d, fs') ->
    contents d = disk fs dir /\ readable d /\ db_dir d = dir;
  db_open_error_disk fs dir e fs' : db_open fs dir = (inl e, fs') -> disk fs' dir = disk fs dir;
  db_close_disk d fs : disk (db_close d fs) (db_dir d) = contents d;
  fs_create_directories_disk fs dir fs' :
    fs_create_directories fs dir = Done fs' -> disk fs' dir = disk fs dir;
  fs_remove_all_disk fs dir fs' : fs_remove_all fs dir = (true, fs') -> disk fs' dir = ∅
}.

(** * Consequences *)

Section laws.
Context {DB : Type} `{LevelDBSpec DB}.

Lemma entry_lt_irrefl e : ~ entry_lt e e.
Proof. apply str_lt_irrefl. Qed.

Lemma entry_lt_asym e1 e2 : entry_lt e1 e2 -> entry_lt e2 e1 -> e1 = e2.
Proof. intros H1 H2. by destruct (str_lt_asym _ _ H1). Qed.

Lemma apply_batch_app b1 b2 m :
  apply_batch (b1 ++ b2) m = apply_batch b2 (apply_batch b1 m).
Proof. apply foldl_app. Qed.

Lemma db_get_Some d k v : readable d -> contents d !! k = Some v -> db_get d k = GetOk v.
Proof. intros Hr Hk. by rewrite db_get_readable, Hk. Qed.

Lemma db_get_None d k : readable d -> contents d !! k = None -> db_get d k = GetNotFound.
Proof. intros Hr Hk. by rewrite db_get_readable, Hk. Qed.

(** The loop over the entries that carry a prefix, from a seek position that
    carries it too. *)
Definition scan_prefix (d : DB) (from p : string) : list (string * string) :=
  take_while (fun e => starts_with p e.1) (db_seek d from).

Lemma scan_prefix_elem d from p k v :
  readable d -> String.le p from ->
  (k, v) ∈ scan_prefix d from p <->
  contents d !! k = Some v /\ String.le from k /\ starts_with p k = true.
Proof.
  intros Hr Hp. unfold scan_prefix.
  rewrite (elem_of_take_while_sorted entry_lt).
  - rewrite db_seek_elem by done. simpl. tauto.
  - by apply db_seek_sorted.
  - intros [a va] [b vb] Ha Hb Hlt. apply starts_with_convex; [|done].
    apply db_seek_elem in Ha as [_ Ha]; [|done]. simpl. by etrans.
Qed.

Lemma scan_prefix_sorted d from p :
  readable d -> StronglySorted entry_lt (scan_prefix d from p).
Proof. intros Hr. by apply StronglySorted_take_while, db_seek_sorted. Qed.

(** What a scan yields is known from the contents alone. *)
Lemma scan_prefix_unique d from p l :
  readable d -> String.le p from ->
  StronglySorted entry_lt l ->
  (forall k v, (k, v) ∈ l <->
     contents d !! k = Some v /\ String.le from k /\ starts_with p k = true) ->
  scan_prefix d from p = l.
Proof.
  intros Hr Hp Hs Hl. apply (strictly_sorted_unique entry_lt); [apply entry_lt_irrefl| |
    by apply scan_prefix_sorted|done|].
  - intros. by apply entry_lt_asym.
  - intros [k v]. by rewrite scan_prefix_elem, Hl.
Qed.
End laws.

(** * An in-memory engine *)

Module MemDB.
(** [write_error]: what the device answers to writes; [read_error]: reads fail. *)
Record t := mk {
  dir : string;
  mem : gmap string string;
  write_error : option string;
  read_error : bool
}.

Definition entry_le (a b : string * string) : Prop := String.le a.1 b.1.
#[export] Instance entry_le_dec : RelDecision entry_le.
Proof. intros a b. unfold entry_le. apply _. Defined.
#[export] Instance entry_le_trans : Transitive entry_le.
Proof. intros a b c. unfold entry_le. apply transitivity. Qed.
#[export] Instance entry_le_total : Total entry_le.
Proof. intros a b. unfold entry_le. apply String.le_total. Qed.

Definition entries (m : gmap string string) : list (string * string) :=
  merge_sort entry_le (map_to_list m).

#[export] Instance ops : LevelDB t := {|
  db_get d k :=
    if read_error d then GetError "io error"
    else match mem d !! k with Some v => GetOk v | None => GetNotFound end;
  db_seek d k :=
    if read_error d then []
    else filter (fun e => String.le k e.1) (entries (mem d));
  db_write d b :=
    match write_error d with
    | Some e => (Some e, d)
    | None => (None, mk (dir d) (apply_batch b (mem d)) None (read_error d))
    end
|}.

Lemma elem_of_entries m k v : (k, v) ∈ entries m <-> m !! k = Some v.
Proof. unfold entries. rewrite merge_sort_Permutation. apply elem_of_map_to_list. Qed.

Lemma entries_sorted m : StronglySorted entry_lt (entries m).
Proof.
  assert (StronglySorted entry_le (entries m)) as Hs.
  { apply StronglySorted_merge_sort; apply _. }
  assert (NoDup (entries m).*1) as Hnd.
  { unfold entries. rewrite merge_sort_Permutation. apply NoDup_fst_map_to_list. }
  induction Hs as [|[k v] l Hs IH Hk]; [constructor|].
  rewrite fmap_cons in Hnd. apply NoDup_cons in Hnd as [Hn Hnd].
  constructor; [by apply IH|]. rewrite Forall_forall in Hk |- *.
  intros [k' v'] Hin. unfold entry_lt. rewrite str_lt_le.
  split; [by apply (Hk (k', v'))|].
  simpl in *. intros ->. apply Hn. apply list_elem_of_fmap. by exists (k', v').
Qed.

#[export] Program Instance spec : LevelDBSpec t := {|
  contents := mem;
  readable d := read_error d = false
|}.
Next Obligation. intros [dir m we re] k H. simpl in *. by rewrite H. Qed.
Next Obligation.
  intros [dir m we re] k H. simpl in *. rewrite H.
  apply StronglySorted_filter, entries_sorted.
Qed.
Next Obligation.
  intros [dir m we re] k k' v H. simpl in *. rewrite H.
  rewrite list_elem_of_filter, elem_of_entries. simpl. tauto.
Qed.
Next Obligation. intros [dir m [e|] re] b d' H; simplify_eq/=. done. Qed.
Next Obligation. intros [dir m [e|] re] b e' d' H; simplify_eq/=. done. Qed.
Next Obligation. intros [dir m [e|] re] b e' d' H1 H2; simplify_eq/=; done. Qed.

(** The file system: the databases by directory, whether directories can be
    created and removed, and what opening answers. *)
Record fs := mkFS {
  dbs : gmap string (gmap string string);
  can_create : bool;
  can_remove : bool;
  open_error : option string
}.

Definition disk_of (f : fs) (dir : string) : gmap string string :=
  default ∅ (dbs f !! dir).

#[export] Instance files : LevelDBFiles t fs := {|
  db_open f dir :=
    match open_error f with
    | Some e => (inl e, f)
    | None => (inr (mk dir (disk_of f dir) None false), f)
    end;
  db_close d f :=
    mkFS (<[dir d := mem d]> (dbs f)) (can_create f) (can_remove f) (open_error f);
  fs_create_directories f dir := if can_create f then Done f else Throws FilesystemError;
  fs_remove_all f dir :=
    if can_remove f
    then (true, mkFS (delete dir (dbs f)) (can_create f) (can_remove f) (open_error f))
    else (false, f)
|}.

#[export] Program Instance files_spec : LevelDBFilesSpec t fs := {|
  disk := disk_of; db_dir := dir
|}.
Next Obligation. by intros [dir m [e|] re] b. Qed.
Next Obligation. intros [m c r [e|]] dir d f' H; by simplify_eq/=. Qed.
Next Obligation. intros [m c r [e|]] dir e' f' H; by simplify_eq/=. Qed.
Next Obligation.
  intros d f. unfold disk_of. simpl. by rewrite lookup_insert_eq.
Qed.
Next Obligation. intros [m [] r o] dir f' H; by simplify_eq/=. Qed.
Next Obligation.
  intros [m c [] o] dir f' H; simplify_eq/=. unfold disk_of. simpl.
  by rewrite lookup_delete_eq.
Qed.

(** A healthy empty database. *)
Definition empty : t := mk "data" ∅ None false.
End MemDB.
