(* ===== verification/Store.v ===== *)
(** Model of src/src/store/store.{h,cpp}: the MVCC store on LevelDB.  A method
    [XLocked] of the class is a function [XLocked] from the database state to its
    result and the next state; a public method [X] takes the store object, finds
    the database behind [db_] (a null [db_] is a crash, [NullDeref]) and calls
    it.  Every batch is built in the order of the source and written at once.
    Output parameters are part of the result: [Some kv] when [*out_kv] was
    assigned.  64-bit additions wrap around; the theorems keep away from the
    bound, where the C++ addition is undefined. *)
From S2P Require Import Prelude CxxStd StoreKey Proto LevelDB.

Section locked.
Context `{KVCodec} {DB : Type} `{LevelDB DB}.
Implicit Types d : DB.

(** * Reading *)

Definition ReadMainLocked (d : DB) (key : string) : option KV :=
  match db_get d (MainKey key) with
  | GetOk raw => ParseKV raw
  | GetNotFound => None
  | GetError _ => None
  end.

(** Every status that is not ok, an I/O error included, reads as 0. *)
Definition CurrentRevisionLocked (d : DB) : Z :=
  match db_get d RevisionMetaKey with
  | GetOk raw => to_int64 (DecodeUint64 raw)
  | _ => 0
  end.

Definition CompactRevLocked (d : DB) : Z :=
  match db_get d CompactRevKey with
  | GetOk raw => to_int64 (DecodeUint64 raw)
  | _ => 0
  end.

Definition GetLocked (d : DB) (key : string) : option KV * Code :=
  match ReadMainLocked d key with
  | None => (None, KEY_NOT_FOUND)
  | Some kv => if kv_deleted kv then (None, KEY_NOT_FOUND) else (Some kv, OK)
  end.

Definition GetConfigLocked (d : DB) (key : string) (version : Z) : option KV * Code :=
  if version <=? 0 then GetLocked d key
  else
    match db_get d (ConfigKey key version) with
    | GetNotFound => (None, VERSION_NOT_FOUND)
    | GetError _ => (None, INTERNAL)
    | GetOk raw =>
        match ParseKV raw with
        | None => (None, INTERNAL)
        | Some kv =>
            if kv_deleted kv then (None, VERSION_NOT_FOUND) else (Some kv, OK)
        end
    end.

(** One iteration of the loop of [GetHistoryLocked]. *)
Definition history_entry (key : string) (e : string * string) : option KV :=
  match ParseKV e.2 with
  | None => None
  | Some kv =>
      if negb (String.eqb (kv_key kv) key) then None
      else if kv_deleted kv then None else Some kv
  end.

Definition GetHistoryLocked (d : DB) (key : string) : list KV :=
  let prefix := "cfg/" +:+ key +:+ "/" in
  omap (history_entry key) (scan_prefix d prefix prefix).

(** * Writing *)

(** Returns the new revision and the batch with its [meta/revision] write. *)
Definition NextRevisionLocked (d : DB) (batch : WriteBatch) : Z * WriteBatch :=
  let rev := to_int64 (CurrentRevisionLocked d + 1) in
  (rev, batch ++ [OpPut RevisionMetaKey (EncodeUint64 (to_uint64 rev))]).

Definition next_version (old : option KV) : Z :=
  match old with Some old_kv => to_int64 (kv_version old_kv + 1) | None => 1 end.

Definition PutLocked (d : DB) (key value : string) : Z * option KV * DB :=
  let existed := ReadMainLocked d key in
  let '(rev, batch) := NextRevisionLocked d [] in
  if rev <? 0 then (-1, None, d)
  else
    let new_kv := mkKV key value (next_version existed) rev false in
    let serialized := SerializeKV new_kv in
    let batch := batch ++ [OpPut (MainKey key) serialized] in
    let batch := batch ++ [OpPut (VersionKey rev key) serialized] in
    match db_write d batch with
    | (Some _, d') => (-1, None, d')
    | (None, d') => (rev, Some new_kv, d')
    end.

Definition DeleteLocked (d : DB) (key : string) : Z * option KV * DB :=
  let '(rev, batch) := NextRevisionLocked d [] in
  if rev <? 0 then (-1, None, d)
  else
    let version :=
      match ReadMainLocked d key with
      | Some old_kv => to_int64 (kv_version old_kv + 1)
      | None => 1
      end in
    let kv := mkKV key "" version rev true in
    let serialized := SerializeKV kv in
    let batch := batch ++ [OpPut (MainKey key) serialized] in
    let batch := batch ++ [OpPut (VersionKey rev key) serialized] in
    match db_write d batch with
    | (Some _, d') => (-1, None, d')
    | (None, d') => (rev, Some kv, d')
    end.

Definition CompareAndSwapLocked (d : DB) (key expect value : string)
    : Z * option KV * Code * DB :=
  let existed := ReadMainLocked d key in
  let absent := match existed with None => true | Some old_kv => kv_deleted old_kv end in
  let matched :=
    if String.eqb expect "" then absent
    else negb absent &&
         match existed with Some old_kv => String.eqb (kv_value old_kv) expect
                       | None => false end in
  if negb matched then (-1, None, CAS_FAILED, d)
  else
    let '(rev, batch) := NextRevisionLocked d [] in
    if rev <? 0 then (-1, None, INTERNAL, d)
    else
      let new_kv := mkKV key value (next_version existed) rev false in
      let serialized := SerializeKV new_kv in
      let batch := batch ++ [OpPut (MainKey key) serialized] in
      let batch := batch ++ [OpPut (VersionKey rev key) serialized] in
      match db_write d batch with
      | (Some _, d') => (-1, None, INTERNAL, d')
      | (None, d') => (rev, Some new_kv, OK, d')
      end.

(** The loop of [BatchPutLocked]: the revision, the batch and the new records
    accumulated so far. *)
Fixpoint batch_put_loop (d : DB) (kvs : list (string * string)) (rev : Z)
    (batch : WriteBatch) (new_kvs : list KV) : Z * WriteBatch * list KV :=
  match kvs with
  | [] => (rev, batch, new_kvs)
  | (key, value) :: kvs' =>
      let rev := to_int64 (rev + 1) in
      let existed := ReadMainLocked d key in
      let new_kv := mkKV key value (next_version existed) rev false in
      let serialized := SerializeKV new_kv in
      let batch := batch ++ [OpPut (MainKey key) serialized] in
      let batch := batch ++ [OpPut (VersionKey rev key) serialized] in
      batch_put_loop d kvs' rev batch (new_kvs ++ [new_kv])
  end.

Definition BatchPutLocked (d : DB) (kvs : list (string * string))
    : Z * option (list KV) * DB :=
  match kvs with
  | [] => (0, None, d)
  | _ =>
      let '(rev, batch, new_kvs) := batch_put_loop d kvs (CurrentRevisionLocked d) [] [] in
      let batch := batch ++ [OpPut RevisionMetaKey (EncodeUint64 (to_uint64 rev))] in
      match db_write d batch with
      | (Some _, d') => (-1, None, d')
      | (None, d') => (0, Some new_kvs, d')
      end
  end.

Definition PublishLocked (d : DB) (key value : string) : Z * option KV * DB :=
  let existed := ReadMainLocked d key in
  let '(rev, batch) := NextRevisionLocked d [] in
  if rev <? 0 then (-1, None, d)
  else
    let new_kv := mkKV key value (next_version existed) rev false in
    let serialized := SerializeKV new_kv in
    let batch := batch ++ [OpPut (MainKey key) serialized] in
    let batch := batch ++ [OpPut (VersionKey rev key) serialized] in
    let batch := batch ++ [OpPut (ConfigKey key (kv_version new_kv)) serialized] in
    match db_write d batch with
    | (Some _, d') => (-1, None, d')
    | (None, d') => (rev, Some new_kv, d')
    end.

(** The boolean is the output parameter [*ok]. *)
Definition RollbackLocked (d : DB) (key : string) (target_version : Z)
    : Z * option KV * bool * DB :=
  match fst (GetConfigLocked d key target_version) with
  | None => (-1, None, false, d)
  | Some target =>
      let '(rev, out, d') := PublishLocked d key (kv_value target) in
      (rev, out, true, d')
  end.

(** * Compaction *)

(** [std::map<std::string, std::vector<std::pair<int64_t, int64_t>>>]: ordered
    by key; the pairs are (revision, version) in the order they were appended. *)
Abbreviation per_key_map := (list (string * list (Z * Z))).

(** [per_key[key].emplace_back(x)] *)
Fixpoint per_key_push (key : string) (x : Z * Z) (m : per_key_map) : per_key_map :=
  match m with
  | [] => [(key, [x])]
  | (k, xs) :: m' =>
      match String.compare key k with
      | Eq => (k, xs ++ [x]) :: m'
      | Lt => (key, [x]) :: m
      | Gt => (k, xs) :: per_key_push key x m'
      end
  end.

Fixpoint compaction_collect (es : list (string * string)) (m : per_key_map)
    : outcome per_key_map :=
  match es with
  | [] => Done m
  | (k, raw) :: es' =>
      if (String.length k <? 18)%nat then compaction_collect es' m
      else
        rev_hex ← substr k 2 16;
        key ← substr_from k (2 + 16 + 1);
        match ParseKV raw with
        | None => compaction_collect es' m
        | Some kv =>
            rev ← DecodeOrd rev_hex;
            compaction_collect es' (per_key_push key (rev, kv_version kv) m)
        end
  end.

(** The batch, [removed] and [max_deleted_rev]. *)
Abbreviation compaction_acc := (WriteBatch * Z * Z)%type.

Definition compaction_record (key : string) (acc : compaction_acc) (r : Z * Z)
    : compaction_acc :=
  let '(batch, removed, max_deleted_rev) := acc in
  let '(rev, ver) := r in
  (batch ++ [OpDelete (VersionKey rev key)] ++ [OpDelete (ConfigKey key ver)],
   removed + 1,
   if max_deleted_rev <? rev then rev else max_deleted_rev).

Definition compaction_key (keep_versions : Z) (acc : compaction_acc)
    (e : string * list (Z * Z)) : compaction_acc :=
  let '(key, records) := e in
  let excess := Z.of_nat (length records) - keep_versions in
  if excess <=? 0 then acc
  else foldl (compaction_record key) acc (take (Z.to_nat excess) records).

(** Returns the number of removed records; the status of the write is not
    looked at.  [d_it] is the database when the iterator is created and [d] the
    one the batch is written to: commands may be applied in between, since the
    lock is shared.  [compact_rev] is written by this function and by the
    loading of a snapshot, which takes the lock exclusively, so it is the same
    on [d] as when the code reads it. *)
Definition CompactionLocked (d_it d : DB) (keep_versions : Z) : outcome (Z * DB) :=
  let keep_versions := if keep_versions <? 1 then 1 else keep_versions in
  per_key ← compaction_collect (scan_prefix d_it "v/" "v/") [];
  let '(batch, removed, max_deleted_rev) :=
    foldl (compaction_key keep_versions) ([], 0, 0) per_key in
  if 0 <? removed then
    let new_compact_rev := Z.max (CompactRevLocked d) max_deleted_rev in
    let batch := batch ++ [OpPut CompactRevKey (EncodeUint64 (to_uint64 new_compact_rev))] in
    Done (removed, snd (db_write d batch))
  else Done (removed, d).

(** * Replay of the history for Watch *)

(** The loop of [ReplayEventsLocked] over the entries of its iterator. *)
Fixpoint replay_loop (current_revision : Z) (key : string) (max_events : Z)
    (es : list (string * string)) (out : list WatchEvent) : outcome (list WatchEvent) :=
  match es with
  | [] => Done out
  | (k, raw) :: es' =>
      if negb (starts_with "v/" k) then Done out
      else if (String.length k <? 18)%nat then
        replay_loop current_revision key max_events es' out
      else
        rev_hex ← substr k 2 16;
        rev ← DecodeOrd rev_hex;
        if current_revision <? rev then Done out
        else
          match ParseKV raw with
          | None => replay_loop current_revision key max_events es' out
          | Some kv =>
              if negb (String.eqb key "") && negb (String.eqb (kv_key kv) key)
              then replay_loop current_revision key max_events es' out
              else
                let ev := mkEvent rev (kv_key kv) (kv_value kv) (kv_version kv)
                            (if kv_deleted kv then "DELETE" else "PUT") in
                let out := out ++ [ev] in
                if max_events <=? Z.of_nat (length out) then Done out
                else replay_loop current_revision key max_events es' out
          end
  end.

(** [d_it] is the database when the iterator is created, [d] the database when
    [CompactRevLocked] reads it: a compaction or a write may come between. *)
Definition ReplayEventsLocked (d_it d : DB) (from_revision current_revision : Z)
    (key : string) (max_events : Z) : outcome (bool * list WatchEvent * Code) :=
  if max_events <=? 0 then Done (true, [], OK)
  else
    let from_revision := if from_revision <? 0 then 0 else from_revision in
    let compact_rev := CompactRevLocked d in
    if from_revision <? compact_rev then Done (false, [], COMPACTED)
    else if current_revision <=? from_revision then Done (true, [], OK)
    else
      out ← replay_loop current_revision key max_events
              (db_seek d_it (VersionKey (to_int64 (from_revision + 1)) "")) [];
      Done (true, out, OK).

(** * Snapshots *)

Definition export_revision (d : DB) : Z :=
  match db_seek d RevisionMetaKey with
  | (k, raw) :: _ =>
      if String.eqb k RevisionMetaKey then to_int64 (DecodeUint64 raw) else 0
  | [] => 0
  end.

Definition ExportSnapshotLocked (d : DB) : SnapshotData :=
  mkSnapshot (export_revision d)
    (omap (fun e => ParseKV e.2) (scan_prefix d (MainKey "") "k/"))
    (omap (fun e => ParseKV e.2) (scan_prefix d "cfg/" "cfg/")).

(** The batch [LoadSnapshot] writes into the fresh database. *)
Definition load_batch (data : SnapshotData) : WriteBatch :=
  mbind (fun kv => [OpPut (MainKey (kv_key kv)) (SerializeKV kv);
                    OpPut (VersionKey (kv_revision kv) (kv_key kv)) (SerializeKV kv)])
    (sd_kvs data) ++
  fmap (fun kv => OpPut (ConfigKey (kv_key kv) (kv_version kv)) (SerializeKV kv))
    (sd_cfg_kvs data) ++
  (if 0 <? sd_revision data then
     [OpPut RevisionMetaKey (EncodeUint64 (to_uint64 (sd_revision data)));
      OpPut CompactRevKey (EncodeUint64 (to_uint64 (sd_revision data)))]
   else []).
End locked.

(** * The store object *)

Record Store (DB : Type) := mkStore {
  db_ : option DB;
  data_dir_ : string
}.
Arguments mkStore {DB}.
Arguments db_ {DB}.
Arguments data_dir_ {DB}.

Section store.
Context `{KVCodec} {DB FS : Type} `{LevelDB DB} `{LevelDBFiles DB FS}.
Implicit Types st : Store DB.

(** A public method: take the lock, run on [*db_]. *)
Definition with_db {A} (st : Store DB) (f : DB -> A * DB) : outcome (A * Store DB) :=
  match db_ st with
  | None => Throws NullDeref
  | Some d => let '(r, d') := f d in Done (r, mkStore (Some d') (data_dir_ st))
  end.

Definition read_db {A} (st : Store DB) (f : DB -> A) : outcome A :=
  match db_ st with None => Throws NullDeref | Some d => Done (f d) end.

Definition Put st key value : outcome (Z * option KV * Store DB) :=
  with_db st (fun d => PutLocked d key value).
Definition Delete st key : outcome (Z * option KV * Store DB) :=
  with_db st (fun d => DeleteLocked d key).
Definition CompareAndSwap st key expect value
    : outcome (Z * option KV * Code * Store DB) :=
  with_db st (fun d => CompareAndSwapLocked d key expect value).
Definition BatchPut st kvs : outcome (Z * option (list KV) * Store DB) :=
  with_db st (fun d => BatchPutLocked d kvs).
Definition Publish st key value : outcome (Z * option KV * Store DB) :=
  with_db st (fun d => PublishLocked d key value).
Definition Rollback st key target_version : outcome (Z * option KV * bool * Store DB) :=
  with_db st (fun d => RollbackLocked d key target_version).

Definition Get st key : outcome (option KV * Code) :=
  read_db st (fun d => GetLocked d key).
Definition GetConfig st key version : outcome (option KV * Code) :=
  read_db st (fun d => GetConfigLocked d key version).
Definition GetHistory st key : outcome (list KV) :=
  read_db st (fun d => GetHistoryLocked d key).
Definition CompactRev st : outcome Z := read_db st CompactRevLocked.
Definition CurrentRevision st : outcome Z := read_db st CurrentRevisionLocked.
Definition ExportSnapshot st : outcome SnapshotData := read_db st ExportSnapshotLocked.

(** With no write between the iterator and the batch. *)
Definition Compaction st keep_versions : outcome (Z * Store DB) :=
  match db_ st with
  | None => Throws NullDeref
  | Some d =>
      '(removed, d') ← CompactionLocked d d keep_versions;
      Done (removed, mkStore (Some d') (data_dir_ st))
  end.

(** With no write between the iterator and the read of [compact_rev]. *)
Definition ReplayEvents st from_revision current_revision key max_events
    : outcome (bool * list WatchEvent * Code) :=
  match db_ st with
  | None => Throws NullDeref
  | Some d => ReplayEventsLocked d d from_revision current_revision key max_events
  end.

(** [db_.reset()]: the database is closed and its contents stay on disk. *)
Definition reset_db st (fs : FS) : Store DB * FS :=
  match db_ st with
  | None => (st, fs)
  | Some d => (mkStore None (data_dir_ st), db_close d fs)
  end.

(** The result is [None] when the call returns true, [Some err] otherwise.
    Opening leaves an old database, if any, to be closed by [db_.reset(db)]. *)
Definition OpenLocked st (fs : FS) (data_dir : string)
    : outcome (option string * Store DB * FS) :=
  fs ← fs_create_directories fs data_dir;
  match db_open fs data_dir with
  | (inl err, fs) => Done (Some err, st, fs)
  | (inr db, fs) =>
      let '(_, fs) := reset_db st fs in
      Done (None, mkStore (Some db) data_dir, fs)
  end.

Definition Open st fs data_dir := OpenLocked st fs data_dir.

Definition Close st (fs : FS) : Store DB * FS := reset_db st fs.

Definition LoadSnapshot st (fs : FS) (data : SnapshotData)
    : outcome (option string * Store DB * FS) :=
  let '(st, fs) := reset_db st fs in
  let '(_, fs) := fs_remove_all fs (data_dir_ st) in
  '(err, st, fs) ← OpenLocked st fs (data_dir_ st);
  match err with
  | Some e => Done (Some e, st, fs)
  | None =>
      match db_ st with
      | None => Throws NullDeref
      | Some d =>
          match db_write d (load_batch data) with
          | (Some e, d') =>
              Done (Some ("write snapshot failed: " +:+ e),
                    mkStore (Some d') (data_dir_ st), fs)
          | (None, d') => Done (None, mkStore (Some d') (data_dir_ st), fs)
          end
      end
  end.
End store.
