(* ===== verification/StoreSpec.v ===== *)
(** What the store of src/src/store promises, without bytes: the state of an
    MVCC store as finite maps, its operations, and the invariant they keep.
    StoreRefine.v shows that the functions of Store.v implement it. *)
From S2P Require Import Prelude Proto.

(** The last allocated revision, the highest reclaimed revision, the current
    record of each key, the retained history by revision, and the published
    records by key and version. *)
Record Mvcc := mkMvcc {
  m_rev : Z;
  m_compact : Z;
  m_main : gmap string KV;
  m_hist : gmap Z KV;
  m_cfg : gmap (string * Z) KV
}.

Definition mvcc_empty : Mvcc := mkMvcc 0 0 ∅ ∅ ∅.

(** * Operations *)

Definition spec_version (a : Mvcc) (key : string) : Z :=
  match m_main a !! key with Some old => kv_version old + 1 | None => 1 end.

(** The record a write of [key] produces in state [a]. *)
Definition spec_record (a : Mvcc) (key value : string) (deleted : bool) : KV :=
  mkKV key value (spec_version a key) (m_rev a + 1) deleted.

Definition spec_commit (a : Mvcc) (kv : KV) : Mvcc :=
  mkMvcc (kv_revision kv) (m_compact a) (<[kv_key kv := kv]> (m_main a))
    (<[kv_revision kv := kv]> (m_hist a)) (m_cfg a).

Definition spec_index (a : Mvcc) (kv : KV) : Mvcc :=
  mkMvcc (m_rev a) (m_compact a) (m_main a) (m_hist a)
    (<[(kv_key kv, kv_version kv) := kv]> (m_cfg a)).

Definition spec_put (a : Mvcc) (key value : string) : Mvcc :=
  spec_commit a (spec_record a key value false).

Definition spec_delete (a : Mvcc) (key : string) : Mvcc :=
  spec_commit a (spec_record a key "" true).

Definition spec_publish (a : Mvcc) (key value : string) : Mvcc :=
  let kv := spec_record a key value false in spec_index (spec_commit a kv) kv.

Definition spec_get (a : Mvcc) (key : string) : option KV :=
  match m_main a !! key with
  | Some kv => if kv_deleted kv then None else Some kv
  | None => None
  end.

(** The comparison of [CompareAndSwap]: the empty string expects no live value. *)
Definition spec_cas_matches (a : Mvcc) (key expect : string) : bool :=
  match spec_get a key with
  | None => String.eqb expect ""
  | Some kv => negb (String.eqb expect "") && String.eqb (kv_value kv) expect
  end.

Definition spec_get_config (a : Mvcc) (key : string) (version : Z) : option KV :=
  if version <=? 0 then spec_get a key else m_cfg a !! (key, version).

(** Versions inside one batch are counted from the state [a0] before it. *)
Definition spec_batch_record (a0 a : Mvcc) (e : string * string) : KV :=
  mkKV e.1 e.2 (spec_version a0 e.1) (m_rev a + 1) false.

Fixpoint spec_batch (a0 a : Mvcc) (kvs : list (string * string)) : Mvcc :=
  match kvs with
  | [] => a
  | e :: kvs' => spec_batch a0 (spec_commit a (spec_batch_record a0 a e)) kvs'
  end.

Fixpoint spec_batch_records (a0 a : Mvcc) (kvs : list (string * string)) : list KV :=
  match kvs with
  | [] => []
  | e :: kvs' =>
      let kv := spec_batch_record a0 a e in
      kv :: spec_batch_records a0 (spec_commit a kv) kvs'
  end.

(** The records of a key newer than revision [r]. *)
Definition newer (h : gmap Z KV) (key : string) (r : Z) : gmap Z KV :=
  filter (fun e => r < e.1 /\ kv_key e.2 = key) h.

(** A record is reclaimed when [keep] newer records of its key exist. *)
Definition reclaimed (keep : Z) (h : gmap Z KV) (r : Z) (kv : KV) : Prop :=
  keep <= Z.of_nat (size (newer h (kv_key kv) r)).

#[export] Instance reclaimed_dec keep h r kv : Decision (reclaimed keep h r kv).
Proof. unfold reclaimed. apply _. Defined.

Definition victims (keep : Z) (h : gmap Z KV) : gmap Z KV :=
  filter (fun e => reclaimed keep h e.1 e.2) h.

(** The published records whose key and version a victim carries. *)
Definition indexed_by (v : gmap Z KV) (kv : string * Z) : Prop :=
  exists r x, v !! r = Some x /\ kv_key x = kv.1 /\ kv_version x = kv.2.

#[export] Instance indexed_by_dec v kv : Decision (indexed_by v kv).
Proof.
  refine (cast_if (decide (Exists (fun e => kv_key e.2 = kv.1 /\ kv_version e.2 = kv.2)
    (map_to_list v)))).
  - match goal with H : Exists _ _ |- _ => apply Exists_exists in H as ([r x]&Hin&H1&H2) end.
    apply elem_of_map_to_list in Hin. by exists r, x.
  - intros (r & x & Hx & H1 & H2).
    match goal with H : ~ Exists _ _ |- _ => apply H end.
    apply Exists_exists. exists (r, x). by rewrite elem_of_map_to_list.
Defined.

Definition max_rev (v : gmap Z KV) (r : Z) : Z := map_fold (fun k _ m => Z.max k m) r v.

(** Removing the records [v] with the index entries of their versions. *)
Definition spec_reclaim (v : gmap Z KV) (a : Mvcc) : Mvcc :=
  mkMvcc (m_rev a) (max_rev v (m_compact a)) (m_main a) (m_hist a ∖ v)
    (filter (fun e => ~ indexed_by v e.1) (m_cfg a)).

(** A compaction pass that nothing else runs beside. *)
Definition spec_compact (keep : Z) (a : Mvcc) : Mvcc :=
  spec_reclaim (victims (Z.max 1 keep) (m_hist a)) a.

(** Records that may go: they are in the history and none of them is current. *)
Definition reclaimable (v : gmap Z KV) (a : Mvcc) : Prop :=
  v ⊆ m_hist a /\ forall k kv, m_main a !! k = Some kv -> v !! kv_revision kv = None.

(** The state a node has after it installed a snapshot of [a]. *)
Definition spec_reload (a : Mvcc) : Mvcc :=
  mkMvcc (m_rev a) (m_rev a) (m_main a)
    (filter (fun e => m_main a !! kv_key e.2 = Some e.2) (m_hist a)) (m_cfg a).

(** * The invariant *)

Section wf.
Context `{KVCodec}.

Definition kv_utf8 (kv : KV) : Prop :=
  utf8_valid (kv_key kv) = true /\ utf8_valid (kv_value kv) = true.

Record wf (a : Mvcc) : Prop := {
  wf_bounds : 0 <= m_compact a <= m_rev a /\ m_rev a <= int64_max;
  wf_hist r kv : m_hist a !! r = Some kv ->
    kv_revision kv = r /\ 1 <= r <= m_rev a /\ 1 <= kv_version kv <= r /\ kv_utf8 kv;
  (** the current record of a key is in the history *)
  wf_main k kv : m_main a !! k = Some kv ->
    kv_key kv = k /\ m_hist a !! kv_revision kv = Some kv;
  (** and it is the newest of its key *)
  wf_latest r kv : m_hist a !! r = Some kv ->
    exists cur, m_main a !! kv_key kv = Some cur /\ r <= kv_revision cur /\
                kv_version kv <= kv_version cur;
  (** no revision above the reclaimed ones is missing *)
  wf_holes r : m_compact a < r <= m_rev a -> is_Some (m_hist a !! r);
  wf_cfg k v kv : m_cfg a !! (k, v) = Some kv ->
    kv_key kv = k /\ kv_version kv = v /\ kv_deleted kv = false /\ 1 <= v /\
    1 <= kv_revision kv <= m_rev a /\ kv_utf8 kv /\
    exists cur, m_main a !! k = Some cur /\ v <= kv_version cur
}.

Lemma wf_empty : wf mvcc_empty.
Proof. split; simpl; [unfold int64_max; lia|try done..]. lia. Qed.

Section with_state.
Context (a : Mvcc) (Hwf : wf a).

Lemma wf_main_version k kv :
  m_main a !! k = Some kv -> 1 <= kv_version kv <= m_rev a.
Proof using Hwf.
  intros Hk. destruct (wf_main _ Hwf _ _ Hk) as [_ Hh].
  destruct (wf_hist _ Hwf _ _ Hh) as (? & ? & ? & _). lia.
Qed.

Lemma wf_main_encodable k kv : m_main a !! k = Some kv -> kv_encodable kv.
Proof using Hwf.
  intros Hk. destruct (wf_main _ Hwf _ _ Hk) as [_ Hh].
  destruct (wf_hist _ Hwf _ _ Hh) as (Hr & ? & ? & [? ?]).
  destruct (wf_bounds _ Hwf). unfold kv_encodable, in_int64, int64_min, int64_max in *.
  split_and!; try done; lia.
Qed.

Lemma wf_hist_encodable r kv : m_hist a !! r = Some kv -> kv_encodable kv.
Proof using Hwf.
  intros Hh. destruct (wf_hist _ Hwf _ _ Hh) as (Hr & ? & ? & [? ?]).
  destruct (wf_bounds _ Hwf). unfold kv_encodable, in_int64, int64_min, int64_max in *.
  split_and!; try done; lia.
Qed.

Lemma wf_cfg_encodable k kv : m_cfg a !! k = Some kv -> kv_encodable kv.
Proof using Hwf.
  destruct k as [k v]. intros Hc.
  destruct (wf_cfg _ Hwf _ _ _ Hc) as (? & ? & ? & ? & ? & [? ?] & cur & Hm & ?).
  apply wf_main_version in Hm. destruct (wf_bounds _ Hwf).
  unfold kv_encodable, in_int64, int64_min, int64_max in *.
  split_and!; try done; lia.
Qed.

Lemma wf_hist_fresh r : m_rev a < r -> m_hist a !! r = None.
Proof using Hwf.
  intros Hr. destruct (m_hist a !! r) as [kv|] eqn:E; [|done].
  destruct (wf_hist _ Hwf _ _ E). lia.
Qed.

Lemma spec_version_range key : 1 <= spec_version a key <= m_rev a + 1.
Proof using Hwf.
  unfold spec_version. destruct (m_main a !! key) eqn:E.
  - apply wf_main_version in E. lia.
  - destruct (wf_bounds _ Hwf). lia.
Qed.
End with_state.

(** A commit of the next revision keeps the invariant. *)
Lemma wf_commit a kv :
  wf a -> m_rev a < int64_max -> kv_revision kv = m_rev a + 1 ->
  1 <= kv_version kv <= m_rev a + 1 -> kv_utf8 kv ->
  (forall cur, m_main a !! kv_key kv = Some cur -> kv_version cur <= kv_version kv) ->
  wf (spec_commit a kv).
Proof.
  intros Hwf Hroom Hrev Hver Hutf Hcur. pose proof (wf_bounds _ Hwf) as Hb.
  split; simpl.
  - lia.
  - intros r kv' [[<- <-]|[Hne Hh]]%lookup_insert_Some; [by split_and!; try lia|].
    destruct (wf_hist _ Hwf _ _ Hh) as (? & ? & ? & ?). split_and!; try done; lia.
  - intros k kv' [[<- <-]|[Hne Hm]]%lookup_insert_Some.
    + by rewrite lookup_insert_eq.
    + destruct (wf_main _ Hwf _ _ Hm) as [? Hh]. split; [done|].
      rewrite lookup_insert_ne; [done|].
      destruct (wf_hist _ Hwf _ _ Hh) as (? & ? & _). lia.
  - intros r kv' [[<- <-]|[Hne Hh]]%lookup_insert_Some.
    + exists kv. rewrite lookup_insert_eq. split_and!; [done|lia|lia].
    + destruct (wf_latest _ Hwf _ _ Hh) as (cur & Hm & ? & ?).
      destruct (wf_hist _ Hwf _ _ Hh) as (? & ? & _).
      destruct (decide (kv_key kv = kv_key kv')) as [Heq|Hk].
      * exists kv. rewrite Heq, lookup_insert_eq. split_and!; [done|lia|].
        rewrite <-Heq in Hm. specialize (Hcur _ Hm). lia.
      * exists cur. by rewrite lookup_insert_ne.
  - intros r Hr. rewrite lookup_insert_is_Some.
    destruct (decide (kv_revision kv = r)); [by left|right].
    split; [done|]. apply (wf_holes _ Hwf). lia.
  - intros k v kv' Hc.
    destruct (wf_cfg _ Hwf _ _ _ Hc) as (? & ? & ? & ? & ? & ? & cur & Hm & ?).
    split_and!; try done; try lia.
    destruct (decide (kv_key kv = k)) as [<-|Hk].
    + exists kv. rewrite lookup_insert_eq. split; [done|].
      specialize (Hcur _ Hm). lia.
    + exists cur. by rewrite lookup_insert_ne.
Qed.

(** So does the index entry of the record just committed. *)
Lemma wf_index a kv :
  wf a -> m_main a !! kv_key kv = Some kv -> kv_deleted kv = false ->
  wf (spec_index a kv).
Proof.
  intros Hwf Hm Hd. destruct Hwf. split; simpl; try done.
  intros k v kv' [[Hk <-]|[Hne Hc]]%lookup_insert_Some; [|by eapply wf_cfg0].
  destruct (wf_main0 _ _ Hm) as [_ Hh]. destruct (wf_hist0 _ _ Hh) as (? & ? & ? & ?).
  injection Hk as <- <-. split_and!; try done; try lia. by exists kv.
Qed.

Lemma spec_record_wf a key value deleted :
  wf a -> m_rev a < int64_max -> utf8_valid key = true -> utf8_valid value = true ->
  wf (spec_commit a (spec_record a key value deleted)).
Proof.
  intros Hwf Hroom Hk Hv. apply wf_commit; simpl; try done.
  - by apply spec_version_range.
  - intros cur Hm. unfold spec_version. rewrite Hm. lia.
Qed.

Lemma spec_put_wf a key value :
  wf a -> m_rev a < int64_max -> utf8_valid key = true -> utf8_valid value = true ->
  wf (spec_put a key value).
Proof. apply spec_record_wf. Qed.

Lemma spec_publish_wf a key value :
  wf a -> m_rev a < int64_max -> utf8_valid key = true -> utf8_valid value = true ->
  wf (spec_publish a key value).
Proof.
  intros. apply wf_index; [by apply spec_record_wf| |done].
  simpl. apply lookup_insert_eq.
Qed.

Lemma spec_get_config_utf8 a key version kv :
  wf a -> spec_get_config a key version = Some kv -> utf8_valid (kv_value kv) = true.
Proof.
  intros Hwf. unfold spec_get_config, spec_get.
  destruct (version <=? 0).
  - destruct (m_main a !! key) as [x|] eqn:E; [|done].
    destruct (kv_deleted x); [done|]. intros [= <-].
    destruct (wf_main_encodable _ Hwf _ _ E) as (_ & ? & _). done.
  - intros Hc. by destruct (wf_cfg_encodable _ Hwf _ _ Hc) as (_ & ? & _).
Qed.

(** * Batches *)

Lemma spec_batch_rev a0 a kvs : m_rev (spec_batch a0 a kvs) = m_rev a + Z.of_nat (length kvs).
Proof.
  revert a. induction kvs as [|e kvs IH]; intros a; simpl; [lia|].
  rewrite IH. simpl. lia.
Qed.

Lemma spec_batch_wf_gen a0 a kvs :
  wf a ->
  (forall k cur, m_main a !! k = Some cur -> kv_version cur <= spec_version a0 k) ->
  (forall k, 1 <= spec_version a0 k <= m_rev a + 1) ->
  m_rev a + Z.of_nat (length kvs) <= int64_max ->
  Forall (fun e => utf8_valid e.1 = true /\ utf8_valid e.2 = true) kvs ->
  wf (spec_batch a0 a kvs).
Proof.
  revert a. induction kvs as [|[k v] kvs IH]; intros a Hwf Hcur Hver Hroom Hutf; [done|].
  apply Forall_cons in Hutf as [[Hk Hv] Hutf]. simpl in *.
  apply IH; simpl; [| |intros k'; specialize (Hver k'); lia|lia|done].
  - apply wf_commit; simpl; try done; [lia|]. by apply Hcur.
  - intros k' cur [[<- <-]|[_ Hm]]%lookup_insert_Some; [done|by apply Hcur].
Qed.

Lemma spec_batch_wf a kvs :
  wf a -> m_rev a + Z.of_nat (length kvs) <= int64_max ->
  Forall (fun e => utf8_valid e.1 = true /\ utf8_valid e.2 = true) kvs ->
  wf (spec_batch a a kvs).
Proof.
  intros Hwf. apply spec_batch_wf_gen; [done| |by apply spec_version_range].
  intros k cur Hm. unfold spec_version. rewrite Hm. lia.
Qed.

(** * Compaction *)

Lemma max_rev_spec v m :
  m <= max_rev v m /\ (forall r, is_Some (v !! r) -> r <= max_rev v m) /\
  (forall b, m <= b -> (forall r, is_Some (v !! r) -> r <= b) -> max_rev v m <= b).
Proof.
  unfold max_rev. apply (map_fold_weak_ind (fun x v => m <= x /\
    (forall r, is_Some (v !! r) -> r <= x) /\
    (forall b, m <= b -> (forall r, is_Some (v !! r) -> r <= b) -> x <= b))).
  - split_and!; [done| |by auto]. intros r [? Hr]. done.
  - intros i x v' r Hi (Hm & Hle & Hub). split_and!; [lia| |].
    + intros r' [<-|[Hne Hr]]%lookup_insert_is_Some; [lia|].
      apply Hle in Hr. lia.
    + intros b Hb Hall. apply Z.max_lub; [apply Hall|apply Hub; [done|]].
      * by rewrite lookup_insert_eq.
      * intros r' Hr. apply Hall. rewrite lookup_insert_is_Some.
        destruct (decide (i = r')); auto.
Qed.

Lemma victims_lookup keep h r kv :
  victims keep h !! r = Some kv <-> h !! r = Some kv /\ reclaimed keep h r kv.
Proof. apply map_lookup_filter_Some. Qed.

Lemma victims_subseteq keep h : victims keep h ⊆ h.
Proof. apply map_filter_subseteq. Qed.

(** The newest record of a key is no victim. *)
Lemma victims_reclaimable a keep :
  wf a -> reclaimable (victims (Z.max 1 keep) (m_hist a)) a.
Proof.
  intros Hwf. split; [apply victims_subseteq|]. intros k kv Hm.
  destruct (wf_main _ Hwf _ _ Hm) as [<- Hh].
  destruct (victims _ _ !! _) as [x|] eqn:E; [|done].
  apply victims_lookup in E as [Hx Hrec]. simplify_eq.
  assert (newer (m_hist a) (kv_key kv) (kv_revision kv) = ∅) as Hn.
  { apply map_empty. intros r. apply map_lookup_filter_None. right.
    intros y Hy [Hlt Hk]. simpl in *.
    destruct (wf_latest _ Hwf _ _ Hy) as (cur & Hc & Hle & _).
    rewrite Hk, Hm in Hc. simplify_eq. lia. }
  unfold reclaimed in Hrec. rewrite Hn, map_size_empty in Hrec. lia.
Qed.

Lemma reclaimable_hist v a r kv : reclaimable v a -> v !! r = Some kv -> m_hist a !! r = Some kv.
Proof. intros [Hv _] Hr. by eapply lookup_weaken. Qed.

Lemma spec_reclaim_wf v a : wf a -> reclaimable v a -> wf (spec_reclaim v a).
Proof.
  intros Hwf Hv. pose proof (wf_bounds _ Hwf) as Hb.
  destruct (max_rev_spec v (m_compact a)) as (Hge & Hall & Hub).
  split; simpl.
  - enough (max_rev v (m_compact a) <= m_rev a) by lia.
    apply Hub; [lia|]. intros r [kv Hr]. apply (reclaimable_hist _ a) in Hr; [|done].
    destruct (wf_hist _ Hwf _ _ Hr). lia.
  - intros r kv [Hr _]%lookup_difference_Some. by apply (wf_hist _ Hwf).
  - intros k kv Hm. destruct (wf_main _ Hwf _ _ Hm) as [? Hh]. split; [done|].
    apply lookup_difference_Some. split; [done|]. by apply (proj2 Hv k).
  - intros r kv [Hr _]%lookup_difference_Some. by apply (wf_latest _ Hwf).
  - intros r Hr. destruct (wf_holes _ Hwf r) as [kv Hkv]; [lia|]. exists kv.
    apply lookup_difference_Some. split; [done|].
    destruct (v !! r) as [x|] eqn:E; [|done].
    assert (r <= max_rev v (m_compact a)) by (apply Hall; eauto). lia.
  - intros k ver kv [Hc _]%map_lookup_filter_Some. by apply (wf_cfg _ Hwf).
Qed.

(** * Snapshots *)

Lemma spec_reload_wf a : wf a -> wf (spec_reload a).
Proof.
  intros Hwf. pose proof (wf_bounds _ Hwf). split; simpl.
  - lia.
  - intros r kv [Hr _]%map_lookup_filter_Some. by apply (wf_hist _ Hwf).
  - intros k kv Hm. destruct (wf_main _ Hwf _ _ Hm) as [Hk Hh]. split; [done|].
    apply map_lookup_filter_Some. split; [done|]. simpl. by rewrite Hk.
  - intros r kv [Hr _]%map_lookup_filter_Some. by apply (wf_latest _ Hwf).
  - intros r Hr. lia.
  - intros k v kv. apply (wf_cfg _ Hwf).
Qed.

(** * Values in force *)

Lemma spec_get_put_ne a key value k :
  k <> key -> spec_get (spec_put a key value) k = spec_get a k.
Proof. intros Hk. unfold spec_get, spec_put. simpl. by rewrite lookup_insert_ne. Qed.

Lemma spec_get_delete_ne a key k :
  k <> key -> spec_get (spec_delete a key) k = spec_get a k.
Proof. intros Hk. unfold spec_get, spec_delete. simpl. by rewrite lookup_insert_ne. Qed.

(** The current record of a key after a batch: its last entry wins. *)
Lemma spec_batch_main a0 a kvs k :
  m_main (spec_batch a0 a kvs) !! k =
  match last (filter (fun kv => kv_key kv = k) (spec_batch_records a0 a kvs)) with
  | Some kv => Some kv
  | None => m_main a !! k
  end.
Proof.
  revert a. induction kvs as [|e kvs IH]; intros a; [done|]. simpl. rewrite IH.
  rewrite filter_cons. simpl. destruct (decide (e.1 = k)) as [->|Hne].
  - rewrite last_cons. destruct (last _); [done|]. apply lookup_insert_eq.
  - destruct (last _); [done|]. by apply lookup_insert_ne.
Qed.

Lemma spec_batch_records_entry a0 a kvs i kv :
  spec_batch_records a0 a kvs !! i = Some kv ->
  exists key value, kvs !! i = Some (key, value) /\
    kv = mkKV key value (spec_version a0 key) (m_rev a + 1 + Z.of_nat i) false.
Proof.
  revert a i. induction kvs as [|[k v] kvs IH]; intros a i; [done|].
  destruct i as [|i]; simpl.
  - intros [= <-]. exists k, v. split; [done|]. unfold spec_batch_record. simpl. f_equal. lia.
  - intros Hi. apply IH in Hi as (key & value & ? & ->). exists key, value. split; [done|].
    simpl. f_equal. lia.
Qed.

Lemma spec_batch_records_pairs a0 a kvs :
  (fun kv => (kv_key kv, kv_value kv)) <$> spec_batch_records a0 a kvs = kvs.
Proof.
  revert a. induction kvs as [|[k v] kvs IH]; intros a; [done|]. csimpl. by rewrite IH.
Qed.

(** The records a batch leaves are live, so [Get] returns them. *)
Lemma spec_batch_get a kvs k :
  spec_get (spec_batch a a kvs) k =
  match last (filter (fun kv => kv_key kv = k) (spec_batch_records a a kvs)) with
  | Some kv => Some kv
  | None => spec_get a k
  end.
Proof.
  unfold spec_get. rewrite spec_batch_main.
  destruct (last _) as [kv|] eqn:E; [|done].
  apply last_Some_elem_of, list_elem_of_filter in E as [_ Hin].
  apply list_elem_of_lookup in Hin as [i Hi].
  by apply spec_batch_records_entry in Hi as (? & ? & _ & ->).
Qed.
End wf.
