(* ===== verification/StoreRepr.v ===== *)
(** How a LevelDB database represents an abstract store state: the relation
    [Repr] between the bytes and the maps, the lemmas that move one write of a
    batch to the abstract side, and what the reads of Store.v see. *)
From S2P Require Import Prelude CxxStd StoreKey Proto LevelDB Store StoreSpec.

(** A counter under a [meta/] key; a missing one is 0. *)
Definition counter (m : gmap string string) (k : string) : Z :=
  match m !! k with Some raw => to_int64 (DecodeUint64 raw) | None => 0 end.

(** The history record stored for revision [r], if it is one of [k]. *)
Definition hist_at (h : gmap Z KV) (r : Z) (k : string) : option KV :=
  h !! r ≫= fun kv => if decide (kv_key kv = k) then Some kv else None.

Inductive layout_key : string -> Prop :=
| LRevision : layout_key RevisionMetaKey
| LCompact : layout_key CompactRevKey
| LMain k : layout_key (MainKey k)
| LVersion r k : in_int64 r -> layout_key (VersionKey r k)
| LConfig k v : in_int64 v -> layout_key (ConfigKey k v).

Section repr.
Context `{KVCodec}.

Record Repr (m : gmap string string) (a : Mvcc) : Prop := {
  repr_rev : counter m RevisionMetaKey = m_rev a;
  repr_compact : counter m CompactRevKey = m_compact a;
  repr_main k : m !! MainKey k = SerializeKV <$> m_main a !! k;
  repr_hist r k : in_int64 r ->
    m !! VersionKey r k = SerializeKV <$> hist_at (m_hist a) r k;
  repr_cfg k v : in_int64 v -> m !! ConfigKey k v = SerializeKV <$> m_cfg a !! (k, v);
  repr_layout s : is_Some (m !! s) -> layout_key s
}.

Lemma repr_empty : Repr ∅ mvcc_empty.
Proof.
  split; simpl; try done.
  intros s [? Hs]. done.
Qed.

(** Equal keys of the layout: absurd, or equal fields. *)
Ltac key_eq :=
  repeat match goal with
  | E : _ = _ :> string |- _ =>
      first [ exfalso; apply (f_equal key_ns) in E; discriminate E
            | discriminate E
            | apply MainKey_inj in E; subst
            | apply VersionKey_inj in E as [? ?]; [|done|done]; subst
            | apply ConfigKey_inj in E as [? ?]; [|done|done]; subst ]
  end.

Ltac solve_repr :=
  intros []; split; unfold counter in *; simpl;
  repeat intro;
  repeat match goal with
  | |- context [<[_ := _]> _ !! _] => rewrite lookup_insert; case_decide; key_eq
  | |- context [delete _ _ !! _] => rewrite lookup_delete; case_decide; key_eq
  end; simplify_eq/=; eauto.

Lemma repr_set_rev m a r :
  in_int64 r -> Repr m a ->
  Repr (<[RevisionMetaKey := EncodeUint64 (to_uint64 r)]> m)
    (mkMvcc r (m_compact a) (m_main a) (m_hist a) (m_cfg a)).
Proof.
  intros Hr. solve_repr; try by apply counter_roundtrip.
  match goal with H : is_Some _ |- _ => rewrite lookup_insert_is_Some in H end.
  destruct_or?; destruct_and?; subst; [constructor|eauto].
Qed.

Lemma repr_set_compact m a r :
  in_int64 r -> Repr m a ->
  Repr (<[CompactRevKey := EncodeUint64 (to_uint64 r)]> m)
    (mkMvcc (m_rev a) r (m_main a) (m_hist a) (m_cfg a)).
Proof.
  intros Hr. solve_repr; try by apply counter_roundtrip.
  match goal with H : is_Some _ |- _ => rewrite lookup_insert_is_Some in H end.
  destruct_or?; destruct_and?; subst; [constructor|eauto].
Qed.

Lemma repr_put_main m a k kv :
  Repr m a ->
  Repr (<[MainKey k := SerializeKV kv]> m)
    (mkMvcc (m_rev a) (m_compact a) (<[k := kv]> (m_main a)) (m_hist a) (m_cfg a)).
Proof.
  solve_repr.
  match goal with H : is_Some _ |- _ => rewrite lookup_insert_is_Some in H end.
  destruct_or?; destruct_and?; subst; [constructor|eauto].
Qed.

Lemma repr_put_cfg m a k v kv :
  in_int64 v -> Repr m a ->
  Repr (<[ConfigKey k v := SerializeKV kv]> m)
    (mkMvcc (m_rev a) (m_compact a) (m_main a) (m_hist a) (<[(k, v) := kv]> (m_cfg a))).
Proof.
  intros Hv. solve_repr.
  match goal with H : is_Some _ |- _ => rewrite lookup_insert_is_Some in H end.
  destruct_or?; destruct_and?; subst; [by constructor|eauto].
Qed.

Lemma hist_at_insert h r kv r' k :
  h !! r = None ->
  hist_at (<[r := kv]> h) r' k =
  if decide (r = r' /\ kv_key kv = k) then Some kv else hist_at h r' k.
Proof.
  intros Hf. unfold hist_at. rewrite lookup_insert.
  destruct (decide (r = r')) as [<-|]; simpl;
    [|by rewrite decide_False by (intros [? _]; done)].
  rewrite Hf. simpl. apply decide_ext. tauto.
Qed.

Lemma repr_put_hist m a r kv :
  in_int64 r -> m_hist a !! r = None -> Repr m a ->
  Repr (<[VersionKey r (kv_key kv) := SerializeKV kv]> m)
    (mkMvcc (m_rev a) (m_compact a) (m_main a) (<[r := kv]> (m_hist a)) (m_cfg a)).
Proof.
  intros Hr Hf []. split; unfold counter in *; simpl; intros;
    try (rewrite lookup_insert_ne by (intros E; key_eq); eauto).
  - rewrite lookup_insert, hist_at_insert by done.
    case_decide as E; key_eq.
    + by rewrite decide_True.
    + rewrite decide_False by (intros [<- <-]; done). by apply repr_hist0.
  - match goal with H : is_Some _ |- _ => rewrite lookup_insert_is_Some in H end.
    destruct_or?; destruct_and?; subst; [by constructor|eauto].
Qed.

Lemma repr_del_hist m a r kv :
  in_int64 r -> m_hist a !! r = Some kv -> Repr m a ->
  Repr (delete (VersionKey r (kv_key kv)) m)
    (mkMvcc (m_rev a) (m_compact a) (m_main a) (delete r (m_hist a)) (m_cfg a)).
Proof.
  intros Hr Hf []. split; unfold counter in *; simpl; intros;
    try (rewrite lookup_delete_ne by (intros E; key_eq); eauto).
  - unfold hist_at. rewrite !lookup_delete.
    case_decide as E; key_eq; [by rewrite decide_True|].
    destruct (decide (r = r0)) as [<-|]; [|by apply repr_hist0].
    rewrite repr_hist0 by done. unfold hist_at. rewrite Hf. simpl.
    rewrite decide_False; [done|]. intros <-. done.
  - match goal with H : is_Some _ |- _ => rewrite lookup_delete_is_Some in H end.
    destruct_and?. eauto.
Qed.

Lemma repr_del_cfg m a k v :
  in_int64 v -> Repr m a ->
  Repr (delete (ConfigKey k v) m)
    (mkMvcc (m_rev a) (m_compact a) (m_main a) (m_hist a) (delete (k, v) (m_cfg a))).
Proof.
  intros Hv. solve_repr.
  match goal with H : is_Some _ |- _ => rewrite lookup_delete_is_Some in H end.
  destruct_and?. eauto.
Qed.
End repr.

(** * A database in a state *)

Section rep.
Context `{KVCodecSpec} {DB : Type} `{LevelDBSpec DB}.
Implicit Types (d : DB) (a : Mvcc).

Definition Rep (d : DB) (a : Mvcc) : Prop :=
  readable d /\ Repr (contents d) a /\ wf a.

Lemma rep_readable d a : Rep d a -> readable d.
Proof. by intros (? & _). Qed.
Lemma rep_repr d a : Rep d a -> Repr (contents d) a.
Proof. by intros (_ & ? & _). Qed.
Lemma rep_wf d a : Rep d a -> wf a.
Proof. by intros (_ & _ & ?). Qed.

(** A database represents one state: two maps of records with the same bytes are
    the same map. *)
Lemma serialized_eq (x y : option KV) :
  (forall kv, x = Some kv -> kv_encodable kv) -> (forall kv, y = Some kv -> kv_encodable kv) ->
  SerializeKV <$> x = SerializeKV <$> y -> x = y.
Proof.
  intros Hx Hy E. destruct x as [u|], y as [w|]; try done. simpl in E.
  injection E as E. f_equal. apply (f_equal ParseKV) in E.
  rewrite !ParseKV_SerializeKV in E by auto. congruence.
Qed.

Lemma hist_at_subseteq a b :
  wf a -> (forall r k, in_int64 r -> hist_at (m_hist a) r k = hist_at (m_hist b) r k) ->
  m_hist a ⊆ m_hist b.
Proof.
  intros Hw E. apply map_subseteq_spec. intros r kv Hr.
  destruct (wf_hist _ Hw _ _ Hr) as (_ & ? & _), (wf_bounds _ Hw).
  specialize (E r (kv_key kv) ltac:(unfold in_int64, int64_min; lia)). unfold hist_at in E.
  rewrite Hr in E. simpl in E. rewrite decide_True in E by done.
  destruct (m_hist b !! r) as [x|]; [|done]. simpl in E. by case_decide; simplify_eq.
Qed.

Lemma cfg_subseteq a b :
  wf a -> (forall k v, in_int64 v -> m_cfg a !! (k, v) = m_cfg b !! (k, v)) -> m_cfg a ⊆ m_cfg b.
Proof.
  intros Hw E. apply map_subseteq_spec. intros [k v] kv Hv.
  destruct (wf_cfg _ Hw _ _ _ Hv) as (_ & <- & _).
  destruct (wf_cfg_encodable _ Hw _ _ Hv) as (_ & _ & Hi & _). by rewrite <-E.
Qed.

Lemma Rep_unique d a b : Rep d a -> Rep d b -> a = b.
Proof.
  intros (_ & Ha & Hwa) (_ & Hb & Hwb).
  assert (m_main a = m_main b) as Em.
  { apply map_eq. intros k. apply serialized_eq; [by eapply wf_main_encodable..|].
    by rewrite <-(repr_main _ _ Ha), <-(repr_main _ _ Hb). }
  assert (forall r k, in_int64 r -> hist_at (m_hist a) r k = hist_at (m_hist b) r k) as Eh.
  { assert (forall c, wf c -> forall r k kv, hist_at (m_hist c) r k = Some kv -> kv_encodable kv)
      as He.
    { intros c Hw r k kv. unfold hist_at. intros E. apply bind_Some in E as (x & Hx & E).
      case_decide; [|done]. simplify_eq. by eapply wf_hist_encodable. }
    intros r k Hi. apply serialized_eq; [by eapply He..|].
    by rewrite <-(repr_hist _ _ Ha), <-(repr_hist _ _ Hb). }
  assert (forall k v, in_int64 v -> m_cfg a !! (k, v) = m_cfg b !! (k, v)) as Ec.
  { intros k v Hi. apply serialized_eq; [by eapply wf_cfg_encodable..|].
    by rewrite <-(repr_cfg _ _ Ha), <-(repr_cfg _ _ Hb). }
  assert (m_hist a = m_hist b) as Ehist.
  { apply (anti_symm (⊆)); apply hist_at_subseteq; try done. intros. by rewrite Eh. }
  assert (m_cfg a = m_cfg b) as Ecfg.
  { apply (anti_symm (⊆)); apply cfg_subseteq; try done. intros. by rewrite Ec. }
  assert (m_rev a = m_rev b) as Er by by rewrite <-(repr_rev _ _ Ha), <-(repr_rev _ _ Hb).
  assert (m_compact a = m_compact b) as Eo
    by by rewrite <-(repr_compact _ _ Ha), <-(repr_compact _ _ Hb).
  destruct a, b. simpl in *. by subst.
Qed.

(** A failed write leaves the state, a write that succeeds applies its batch. *)
Lemma rep_write_error d a b e d' : Rep d a -> db_write d b = (Some e, d') -> Rep d' a.
Proof.
  intros (Hr & Hm & Hw) E. split_and!; [by eapply db_write_readable| |done].
  by rewrite (db_write_error _ _ _ _ E).
Qed.

Lemma rep_write_ok d a b d' a' :
  Rep d a -> db_write d b = (None, d') ->
  Repr (apply_batch b (contents d)) a' -> wf a' -> Rep d' a'.
Proof.
  intros (Hr & _ & _) E Hm Hw. split_and!; [by eapply db_write_readable| |done].
  by rewrite (db_write_ok _ _ _ E).
Qed.

(** * Reads *)

Lemma counter_read d k :
  readable d ->
  match db_get d k with GetOk raw => to_int64 (DecodeUint64 raw) | _ => 0 end =
  counter (contents d) k.
Proof. intros Hr. unfold counter. rewrite db_get_readable by done. by destruct (contents d !! k). Qed.

Lemma CurrentRevisionLocked_rep d a : Rep d a -> CurrentRevisionLocked d = m_rev a.
Proof.
  intros (Hr & Hm & _). unfold CurrentRevisionLocked.
  rewrite counter_read by done. apply (repr_rev _ _ Hm).
Qed.

Lemma CompactRevLocked_rep d a : Rep d a -> CompactRevLocked d = m_compact a.
Proof.
  intros (Hr & Hm & _). unfold CompactRevLocked.
  rewrite counter_read by done. apply (repr_compact _ _ Hm).
Qed.

Lemma ReadMainLocked_rep d a key : Rep d a -> ReadMainLocked d key = m_main a !! key.
Proof.
  intros (Hr & Hm & Hw). unfold ReadMainLocked.
  rewrite db_get_readable, (repr_main _ _ Hm) by done.
  destruct (m_main a !! key) as [kv|] eqn:E; [|done]. simpl.
  apply ParseKV_SerializeKV. by eapply wf_main_encodable.
Qed.

Lemma GetLocked_rep d a key :
  Rep d a ->
  GetLocked d key =
  match spec_get a key with Some kv => (Some kv, OK) | None => (None, KEY_NOT_FOUND) end.
Proof.
  intros Hd. unfold GetLocked, spec_get. rewrite (ReadMainLocked_rep _ _ _ Hd).
  by repeat case_match.
Qed.

Lemma GetConfigLocked_rep d a key version :
  Rep d a -> in_int64 version ->
  GetConfigLocked d key version =
  match spec_get_config a key version with
  | Some kv => (Some kv, OK)
  | None => (None, if version <=? 0 then KEY_NOT_FOUND else VERSION_NOT_FOUND)
  end.
Proof.
  intros Hd Hv. unfold GetConfigLocked, spec_get_config.
  destruct (version <=? 0); [by apply GetLocked_rep|].
  pose proof Hd as (Hr & Hm & Hw).
  rewrite db_get_readable, (repr_cfg _ _ Hm) by done.
  destruct (m_cfg a !! (key, version)) as [kv|] eqn:E; [|done]. simpl.
  rewrite ParseKV_SerializeKV by (by eapply wf_cfg_encodable).
  by destruct (wf_cfg _ Hw _ _ _ E) as (_ & _ & -> & _).
Qed.

Lemma next_version_rep d a key :
  Rep d a -> m_rev a < int64_max ->
  next_version (ReadMainLocked d key) = spec_version a key.
Proof.
  intros Hd Hroom. rewrite (ReadMainLocked_rep _ _ _ Hd). unfold next_version, spec_version.
  destruct (m_main a !! key) as [kv|] eqn:E; [|done].
  apply to_int64_small. apply (wf_main_version _ (rep_wf _ _ Hd)) in E. lia.
Qed.

Lemma NextRevisionLocked_rep d a batch :
  Rep d a -> m_rev a < int64_max ->
  NextRevisionLocked d batch =
  (m_rev a + 1,
   batch ++ [OpPut RevisionMetaKey (EncodeUint64 (to_uint64 (m_rev a + 1)))]) /\
  (m_rev a + 1 <? 0) = false.
Proof.
  intros Hd Hroom. unfold NextRevisionLocked. rewrite (CurrentRevisionLocked_rep _ _ Hd).
  destruct (wf_bounds _ (rep_wf _ _ Hd)). rewrite to_int64_small by lia.
  split; [done|]. apply Z.ltb_ge. lia.
Qed.
End rep.
