(* ===== verification/StoreRefine.v ===== *)
(** The write and read methods of src/src/store/store.cpp implement the
    operations of StoreSpec.v: from a database that represents a state, each
    method ends in a database that represents the next state, or, when the
    device refuses the write, in one that still represents the old state. *)
From S2P Require Import Prelude CxxStd StoreKey Proto LevelDB Store StoreSpec StoreRepr.

Section refine.
Context `{KVCodecSpec} {DB : Type} `{LevelDBSpec DB}.
Implicit Types (d : DB) (a : Mvcc).

(** The outcome of a single-record write of [kv] that leads from [a] to [a']. *)
Definition write_result (d : DB) (a : Mvcc) (kv : KV) (a' : Mvcc)
    (res : Z * option KV * DB) : Prop :=
  match res with
  | (rev, Some kv', d') => rev = kv_revision kv /\ kv' = kv /\ Rep d' a'
  | (rev, None, d') => rev = -1 /\ ~ accepts_writes d /\ Rep d' a
  end.

Lemma not_accepts_writes d b e d' : db_write d b = (Some e, d') -> ~ accepts_writes d.
Proof. intros Hw Ha. specialize (Ha b). by rewrite Hw in Ha. Qed.

Lemma write_result_intro d a kv a' b :
  Rep d a -> Repr (apply_batch b (contents d)) a' -> wf a' ->
  write_result d a kv a'
    match db_write d b with
    | (Some _, d') => (-1, None, d')
    | (None, d') => (kv_revision kv, Some kv, d')
    end.
Proof.
  intros Hd Hm Hw. destruct (db_write d b) as [[e|] d'] eqn:E; simpl.
  - split_and!; [done|by eapply not_accepts_writes|by eapply rep_write_error].
  - split_and!; [done|done|by eapply rep_write_ok].
Qed.

Lemma rev_int64 a : wf a -> m_rev a < int64_max -> in_int64 (m_rev a + 1).
Proof.
  intros Hw Hroom. destruct (wf_bounds _ Hw). unfold in_int64, int64_min. lia.
Qed.

(** The two records of a write, in any order with the counter. *)
Lemma repr_commit m a kv :
  wf a -> m_rev a < int64_max -> kv_revision kv = m_rev a + 1 -> Repr m a ->
  Repr (<[VersionKey (kv_revision kv) (kv_key kv) := SerializeKV kv]>
         (<[MainKey (kv_key kv) := SerializeKV kv]>
           (<[RevisionMetaKey := EncodeUint64 (to_uint64 (kv_revision kv))]> m)))
    (spec_commit a kv).
Proof.
  intros Hw Hroom Hr Hm. pose proof (rev_int64 _ Hw Hroom) as Hi. rewrite <-Hr in Hi.
  apply (repr_put_hist _ (mkMvcc _ _ _ _ _)); [done| |].
  - simpl. apply wf_hist_fresh; [done|lia].
  - by apply (repr_put_main _ (mkMvcc _ _ _ _ _)), repr_set_rev.
Qed.

Lemma PutLocked_refines d a key value :
  Rep d a -> m_rev a < int64_max -> utf8_valid key = true -> utf8_valid value = true ->
  write_result d a (spec_record a key value false) (spec_put a key value)
    (PutLocked d key value).
Proof.
  intros Hd Hroom Hk Hv. unfold PutLocked.
  destruct (NextRevisionLocked_rep _ _ [] Hd Hroom) as [-> ->].
  rewrite (next_version_rep _ _ _ Hd Hroom).
  apply (write_result_intro d a (spec_record a key value false)); [done| |].
  - apply (repr_commit _ _ (spec_record a key value false)); try done.
    + by eapply rep_wf.
    + by apply rep_repr.
  - apply spec_put_wf; try done. by eapply rep_wf.
Qed.

Lemma DeleteLocked_refines d a key :
  Rep d a -> m_rev a < int64_max -> utf8_valid key = true ->
  write_result d a (spec_record a key "" true) (spec_delete a key) (DeleteLocked d key).
Proof.
  intros Hd Hroom Hk. unfold DeleteLocked.
  destruct (NextRevisionLocked_rep _ _ [] Hd Hroom) as [-> ->].
  fold (next_version (ReadMainLocked d key)). rewrite (next_version_rep _ _ _ Hd Hroom).
  apply (write_result_intro d a (spec_record a key "" true)); [done| |].
  - apply (repr_commit _ _ (spec_record a key "" true)); try done.
    + by eapply rep_wf.
    + by apply rep_repr.
  - apply spec_record_wf; try done; [by eapply rep_wf|apply utf8_valid_empty].
Qed.

Lemma PublishLocked_refines d a key value :
  Rep d a -> m_rev a < int64_max -> utf8_valid key = true -> utf8_valid value = true ->
  write_result d a (spec_record a key value false) (spec_publish a key value)
    (PublishLocked d key value).
Proof.
  intros Hd Hroom Hk Hv. unfold PublishLocked.
  destruct (NextRevisionLocked_rep _ _ [] Hd Hroom) as [-> ->].
  rewrite (next_version_rep _ _ _ Hd Hroom).
  pose proof (rep_wf _ _ Hd) as Hw.
  apply (write_result_intro d a (spec_record a key value false)); [done| |].
  - apply (repr_put_cfg _ (spec_put a key value) key
      (spec_version a key) (spec_record a key value false)).
    + pose proof (spec_version_range _ Hw key). pose proof (wf_bounds _ Hw).
      unfold in_int64, int64_min. lia.
    + apply (repr_commit _ _ (spec_record a key value false)); try done.
      by apply rep_repr.
  - by apply spec_publish_wf.
Qed.

(** The comparison the source makes is the abstract one. *)
Lemma cas_matched_rep a key expect :
  (if String.eqb expect "" then
     match m_main a !! key with None => true | Some kv => kv_deleted kv end
   else
     negb (match m_main a !! key with None => true | Some kv => kv_deleted kv end) &&
     match m_main a !! key with Some kv => String.eqb (kv_value kv) expect
                           | None => false end) =
  spec_cas_matches a key expect.
Proof.
  unfold spec_cas_matches, spec_get.
  destruct (m_main a !! key) as [kv|]; [destruct (kv_deleted kv)|];
    destruct (String.eqb expect ""); done.
Qed.

Definition cas_result (d : DB) (a : Mvcc) (key expect value : string)
    (res : Z * option KV * Code * DB) : Prop :=
  if spec_cas_matches a key expect then
    let '(rev, out, code, d') := res in
    code = match out with Some _ => OK | None => INTERNAL end /\
    write_result d a (spec_record a key value false) (spec_put a key value) (rev, out, d')
  else res = (-1, None, CAS_FAILED, d).

(** A comparison that holds is followed by the writes of [Put]. *)
Lemma CompareAndSwapLocked_Put d a key expect value :
  Rep d a ->
  CompareAndSwapLocked d key expect value =
  if spec_cas_matches a key expect then
    let '(rev, out, d') := PutLocked d key value in
    (rev, out, match out with Some _ => OK | None => INTERNAL end, d')
  else (-1, None, CAS_FAILED, d).
Proof.
  intros Hd. unfold CompareAndSwapLocked, PutLocked.
  rewrite (ReadMainLocked_rep _ _ _ Hd), cas_matched_rep.
  destruct (spec_cas_matches a key expect); [|done]. cbn [negb].
  destruct (NextRevisionLocked d []) as [rev b]. destruct (rev <? 0); [done|].
  by destruct (db_write d _) as [[e|] d'].
Qed.

Lemma CompareAndSwapLocked_refines d a key expect value :
  Rep d a -> m_rev a < int64_max -> utf8_valid key = true -> utf8_valid value = true ->
  cas_result d a key expect value (CompareAndSwapLocked d key expect value).
Proof.
  intros Hd Hroom Hk Hv. unfold cas_result. rewrite (CompareAndSwapLocked_Put _ _ _ _ _ Hd).
  pose proof (PutLocked_refines _ _ _ _ Hd Hroom Hk Hv) as Hput.
  destruct (spec_cas_matches a key expect); [|done].
  by destruct (PutLocked d key value) as [[rev out] d'].
Qed.

(** * Batches *)

(** The writes of the records of a batch. *)
Fixpoint batch_ops (kvs : list KV) : WriteBatch :=
  match kvs with
  | [] => []
  | kv :: kvs' =>
      OpPut (MainKey (kv_key kv)) (SerializeKV kv) ::
      OpPut (VersionKey (kv_revision kv) (kv_key kv)) (SerializeKV kv) ::
      batch_ops kvs'
  end.

(** The loop builds the abstract records, reading versions from [a0] only. *)
Lemma batch_put_loop_rep d a0 a kvs batch out :
  Rep d a0 -> m_rev a0 < int64_max ->
  0 <= m_rev a -> m_rev a + Z.of_nat (length kvs) <= int64_max ->
  batch_put_loop d kvs (m_rev a) batch out =
  (m_rev a + Z.of_nat (length kvs),
   batch ++ batch_ops (spec_batch_records a0 a kvs),
   out ++ spec_batch_records a0 a kvs).
Proof.
  intros Hd Hroom. revert a batch out.
  induction kvs as [|[k v] kvs IH]; intros a batch out Hpos Hb; simpl.
  { by rewrite !app_nil_r, Z.add_0_r. }
  simpl in Hb. rewrite to_int64_small by lia.
  rewrite (next_version_rep _ _ _ Hd Hroom).
  set (kv := spec_batch_record a0 a (k, v)).
  specialize (IH (spec_commit a kv)). simpl in IH. rewrite IH by lia.
  rewrite <-!app_assoc. simpl. f_equal. f_equal. lia.
Qed.

Definition with_counter (r : Z) (m : gmap string string) : gmap string string :=
  <[RevisionMetaKey := EncodeUint64 (to_uint64 r)]> m.

Lemma repr_with_counter m a :
  in_int64 (m_rev a) -> Repr m a -> Repr (with_counter (m_rev a) m) a.
Proof.
  intros Hi Hm. pose proof (repr_set_rev m a (m_rev a) Hi Hm). by destruct a.
Qed.

(** Applying them, with the counter last, is the abstract batch. *)
Lemma repr_batch m a0 a kvs :
  wf a ->
  (forall k cur, m_main a !! k = Some cur -> kv_version cur <= spec_version a0 k) ->
  (forall k, 1 <= spec_version a0 k <= m_rev a + 1) ->
  m_rev a + Z.of_nat (length kvs) <= int64_max ->
  Forall (fun e => utf8_valid e.1 = true /\ utf8_valid e.2 = true) kvs ->
  Repr (with_counter (m_rev a) m) a ->
  Repr (with_counter (m_rev (spec_batch a0 a kvs))
         (apply_batch (batch_ops (spec_batch_records a0 a kvs)) m))
    (spec_batch a0 a kvs).
Proof.
  revert m a. induction kvs as [|[k v] kvs IH];
    intros m a Hw Hcur Hver Hroom Hutf Hm; simpl; [done|].
  apply Forall_cons in Hutf as [[Hk Hv] Hutf]. simpl in *.
  set (kv := spec_batch_record a0 a (k, v)).
  apply IH; simpl; [| |intros k'; specialize (Hver k'); lia|lia|done|].
  - apply wf_commit; simpl; try done; [lia|]. by apply Hcur.
  - intros k' cur [[<- <-]|[_ Hm']]%lookup_insert_Some; [done|by apply Hcur].
  - pose proof (repr_commit _ a kv Hw ltac:(lia) eq_refl Hm) as Hc.
    revert Hc. unfold with_counter. rewrite insert_insert_eq.
    rewrite !(insert_insert_ne _ RevisionMetaKey) by auto with str. done.
Qed.

Definition batch_result (d : DB) (a : Mvcc) (kvs : list (string * string))
    (res : Z * option (list KV) * DB) : Prop :=
  match res with
  | (rev, Some out, d') =>
      rev = 0 /\ out = spec_batch_records a a kvs /\ Rep d' (spec_batch a a kvs)
  | (rev, None, d') => Rep d' a /\ (kvs = [] /\ rev = 0 \/ rev = -1 /\ ~ accepts_writes d)
  end.

Lemma BatchPutLocked_refines d a kvs :
  Rep d a -> m_rev a + Z.of_nat (length kvs) <= int64_max ->
  Forall (fun e => utf8_valid e.1 = true /\ utf8_valid e.2 = true) kvs ->
  batch_result d a kvs (BatchPutLocked d kvs).
Proof.
  intros Hd Hroom Hutf. destruct kvs as [|e kvs'] eqn:Ekvs; [by split; [|left]|].
  rewrite <-Ekvs in *. assert (m_rev a < int64_max) as Hlt.
  { subst kvs. simpl in Hroom. lia. }
  pose proof (rep_wf _ _ Hd) as Hw. pose proof (wf_bounds _ Hw) as Hb.
  assert (BatchPutLocked d kvs = let '(rev, batch, new_kvs) :=
      batch_put_loop d kvs (CurrentRevisionLocked d) [] [] in
    match db_write d (batch ++ [OpPut RevisionMetaKey (EncodeUint64 (to_uint64 rev))]) with
    | (Some _, d') => (-1, None, d')
    | (None, d') => (0, Some new_kvs, d')
    end) as -> by (by subst kvs).
  rewrite (CurrentRevisionLocked_rep _ _ Hd).
  rewrite (batch_put_loop_rep _ a a) by (done || lia). simpl.
  match goal with |- context [db_write d ?b] => destruct (db_write d b) as [[e'|] d'] eqn:E end;
    simpl.
  - split; [by eapply rep_write_error|]. right. split; [done|].
    by eapply not_accepts_writes.
  - split_and!; [done|done|]. eapply rep_write_ok; [done..| |by apply spec_batch_wf].
    rewrite apply_batch_app. rewrite <-(spec_batch_rev a a kvs).
    apply repr_batch; try done.
    + intros k cur Hm. unfold spec_version. rewrite Hm. lia.
    + by apply spec_version_range.
    + apply repr_with_counter; [|by apply rep_repr].
      unfold in_int64, int64_min. lia.
Qed.

(** * Rollback *)

Definition rollback_result (d : DB) (a : Mvcc) (key : string) (target : Z)
    (res : Z * option KV * bool * DB) : Prop :=
  match spec_get_config a key target with
  | None => res = (-1, None, false, d)
  | Some t =>
      exists rev out d', res = (rev, out, true, d') /\
        write_result d a (spec_record a key (kv_value t) false)
          (spec_publish a key (kv_value t)) (rev, out, d')
  end.

Lemma RollbackLocked_refines d a key target :
  Rep d a -> m_rev a < int64_max -> utf8_valid key = true -> in_int64 target ->
  rollback_result d a key target (RollbackLocked d key target).
Proof.
  intros Hd Hroom Hk Ht. unfold rollback_result, RollbackLocked.
  rewrite (GetConfigLocked_rep _ _ _ _ Hd Ht).
  destruct (spec_get_config a key target) as [t|] eqn:E; simpl; [|done].
  pose proof (PublishLocked_refines _ _ key (kv_value t) Hd Hroom Hk) as Hp.
  destruct (PublishLocked d key (kv_value t)) as [[rev out] d'].
  exists rev, out, d'. split; [done|]. apply Hp.
  eapply spec_get_config_utf8; [by eapply rep_wf|done].
Qed.

(** A successful write, from its refinement. *)
Lemma write_succeeds d a kv a' res :
  accepts_writes d -> write_result d a kv a' res ->
  exists d', res = (kv_revision kv, Some kv, d') /\ Rep d' a'.
Proof.
  intros Ha. destruct res as [[rev [kv'|]] d']; [|by intros (_ & ? & _)].
  intros (-> & -> & Hd). by exists d'.
Qed.
End refine.
