(* ===== verification/StoreScan.v ===== *)
(** The iterator loops of src/src/store/store.cpp against the abstract state:
    what a scan of the [v/] and [cfg/] namespaces yields, [GetHistory] and the
    replay of the history for Watch. *)
From S2P Require Import Prelude CxxStd StoreKey Proto LevelDB Store StoreSpec StoreRepr.

(** * Maps keyed by integers, in increasing order *)

Definition zle_fst {A} (a b : Z * A) : Prop := a.1 <= b.1.
Definition zlt_fst {A} (a b : Z * A) : Prop := a.1 < b.1.

#[export] Instance zle_fst_dec {A} : RelDecision (@zle_fst A).
Proof. intros a b. unfold zle_fst. apply _. Defined.
#[export] Instance zle_fst_trans {A} : Transitive (@zle_fst A).
Proof. intros a b c. unfold zle_fst. lia. Qed.
#[export] Instance zle_fst_total {A} : Total (@zle_fst A).
Proof. intros a b. unfold zle_fst. lia. Qed.

(** The entries of a map in the order of their keys. *)
Definition sorted_entries {A} (h : gmap Z A) : list (Z * A) :=
  merge_sort zle_fst (map_to_list h).

Lemma elem_of_sorted_entries {A} (h : gmap Z A) r x :
  (r, x) ∈ sorted_entries h <-> h !! r = Some x.
Proof. unfold sorted_entries. rewrite merge_sort_Permutation. apply elem_of_map_to_list. Qed.

Lemma sorted_entries_sorted {A} (h : gmap Z A) : StronglySorted zlt_fst (sorted_entries h).
Proof.
  assert (StronglySorted zle_fst (sorted_entries h)) as Hs
    by (apply StronglySorted_merge_sort; apply _).
  assert (NoDup (sorted_entries h).*1) as Hnd.
  { unfold sorted_entries. rewrite merge_sort_Permutation. apply NoDup_fst_map_to_list. }
  induction Hs as [|[k v] l Hs IH Hk]; [constructor|].
  rewrite fmap_cons in Hnd. apply NoDup_cons in Hnd as [Hn Hnd].
  constructor; [by apply IH|]. rewrite Forall_forall in Hk |- *.
  intros [k' v'] Hin. specialize (Hk _ Hin). unfold zle_fst, zlt_fst in *. simpl in *.
  enough (k <> k') by lia. intros ->. apply Hn, list_elem_of_fmap. by exists (k', v').
Qed.

Lemma zlt_fst_unique {A} (l1 l2 : list (Z * A)) :
  StronglySorted zlt_fst l1 -> StronglySorted zlt_fst l2 ->
  (forall x, x ∈ l1 <-> x ∈ l2) -> l1 = l2.
Proof. apply strictly_sorted_unique; unfold zlt_fst; [lia|]. intros; lia. Qed.

Lemma StronglySorted_map_in {A B} (R : relation A) (R' : relation B) (f : A -> B) l :
  (forall x y, x ∈ l -> y ∈ l -> R x y -> R' (f x) (f y)) ->
  StronglySorted R l -> StronglySorted R' (f <$> l).
Proof.
  intros Hf Hs. induction Hs as [|x l Hs IH Hx]; [constructor|].
  rewrite fmap_cons. constructor.
  - apply IH. intros y z Hy Hz. apply Hf; by right.
  - apply Forall_fmap. rewrite Forall_forall in Hx |- *. intros y Hy.
    apply Hf; [by left|by right|by apply Hx].
Qed.

(** * The [v/] namespace *)

Section scan.
Context `{KVCodecSpec} {DB : Type} `{LevelDBSpec DB}.
Implicit Types (d : DB) (a : Mvcc).

(** The entry of a history record. *)
Definition version_entry (e : Z * KV) : string * string :=
  (VersionKey e.1 (kv_key e.2), SerializeKV e.2).

Lemma wf_hist_int64 a r kv : wf a -> m_hist a !! r = Some kv -> 1 <= r <= int64_max.
Proof.
  intros Hw Hh. destruct (wf_hist _ Hw _ _ Hh) as (_ & ? & _).
  destruct (wf_bounds _ Hw). lia.
Qed.

(** A stored key with the prefix ["v/"] is one of a history record. *)
Lemma version_key_inv d a k raw :
  Rep d a -> contents d !! k = Some raw -> starts_with "v/" k = true ->
  exists r kv, m_hist a !! r = Some kv /\ (k, raw) = version_entry (r, kv).
Proof.
  intros (Hr & Hm & Hw) Hk Hp.
  destruct (repr_layout _ _ Hm k) as [| |k'|r k' Hi|k' v Hi]; eauto; try done.
  rewrite (repr_hist _ _ Hm) in Hk by done. unfold hist_at in Hk.
  destruct (m_hist a !! r) as [kv|] eqn:E; [|done]. simpl in Hk.
  case_decide; simplify_eq/=. by exists r, kv.
Qed.

Lemma version_entry_stored d a r kv :
  Rep d a -> m_hist a !! r = Some kv ->
  contents d !! VersionKey r (kv_key kv) = Some (SerializeKV kv).
Proof.
  intros (Hr & Hm & Hw) Hh. pose proof (wf_hist_int64 _ _ _ Hw Hh).
  rewrite (repr_hist _ _ Hm) by (unfold in_int64, int64_min; lia).
  unfold hist_at. rewrite Hh. simpl. by rewrite decide_True.
Qed.

(** A scan of the namespace from [s], where [s] is below exactly the keys of
    the revisions that satisfy [P]. *)
Lemma scan_versions d a s (P : Z -> Prop) `{forall r, Decision (P r)} :
  Rep d a -> String.le "v/" s ->
  (forall r k, 1 <= r <= int64_max -> String.le s (VersionKey r k) <-> P r) ->
  scan_prefix d s "v/" =
  version_entry <$> filter (fun e => P e.1) (sorted_entries (m_hist a)).
Proof.
  intros Hd Hs HP. pose proof (rep_wf _ _ Hd) as Hw.
  apply scan_prefix_unique; [by eapply rep_readable|done| |].
  - apply (StronglySorted_map_in zlt_fst); [|apply StronglySorted_filter, sorted_entries_sorted].
    intros [r1 kv1] [r2 kv2] [_ H1']%list_elem_of_filter [_ H2']%list_elem_of_filter Hlt.
    apply elem_of_sorted_entries, wf_hist_int64 in H1'; [|done].
    apply elem_of_sorted_entries, wf_hist_int64 in H2'; [|done].
    unfold entry_lt, zlt_fst in *. simpl in *. apply VersionKey_lt; lia.
  - intros k raw. rewrite list_elem_of_fmap. split.
    + intros ([r kv] & E & [HPr Hin]%list_elem_of_filter).
      apply elem_of_sorted_entries in Hin. unfold version_entry in E. simplify_eq/=.
      split_and!; [by apply (version_entry_stored _ a)| |].
      * apply HP; [by eapply wf_hist_int64|done].
      * apply (starts_with_app "v/").
    + intros (Hk & Hle & Hp).
      destruct (version_key_inv _ _ _ _ Hd Hk Hp) as (r & kv & Hh & E).
      exists (r, kv). split; [done|]. apply list_elem_of_filter.
      rewrite elem_of_sorted_entries. split; [|done]. simpl.
      unfold version_entry in E. simplify_eq/=.
      eapply HP; [by eapply wf_hist_int64|done].
Qed.

Lemma scan_all_versions d a :
  Rep d a -> scan_prefix d "v/" "v/" = version_entry <$> sorted_entries (m_hist a).
Proof.
  intros Hd. rewrite (scan_versions _ a "v/" (fun _ => True)); [|done|done|].
  - f_equal. by apply filter_all.
  - intros r k _. split; [done|]. intros _. apply (str_le_app "v/").
Qed.

Lemma VersionKey_seek from r k :
  0 <= from <= int64_max -> 1 <= r <= int64_max ->
  String.le (VersionKey from "") (VersionKey r k) <-> from <= r.
Proof.
  intros Hf Hr. split; intros Hle.
  - destruct (decide (r < from)) as [Hlt|]; [|lia].
    apply (VersionKey_lt r k from "") in Hlt; [|lia|lia].
    destruct (str_lt_irrefl (VersionKey from "")). by eapply str_le_lt_trans.
  - destruct (decide (from = r)) as [->|].
    + unfold VersionKey. pose proof (str_le_app
        (kVersionPrefix +:+ EncodeOrd r +:+ "/" +:+ "") k) as Hp.
      by rewrite !str_app_assoc in Hp.
    + apply str_le_lt_eq. left. apply VersionKey_lt; lia.
Qed.

Lemma scan_versions_from d a from :
  Rep d a -> 0 <= from <= int64_max ->
  scan_prefix d (VersionKey from "") "v/" =
  version_entry <$> filter (fun e => from <= e.1) (sorted_entries (m_hist a)).
Proof.
  intros Hd Hf. apply (scan_versions _ _ _ (fun r => from <= r)); [done| |].
  - apply (str_le_app "v/").
  - intros r k Hr. by apply VersionKey_seek.
Qed.

(** * Replay *)

Definition spec_event (kv : KV) : WatchEvent :=
  mkEvent (kv_revision kv) (kv_key kv) (kv_value kv) (kv_version kv)
    (if kv_deleted kv then "DELETE" else "PUT").

(** The empty filter matches every key. *)
Definition key_matches (key : string) (kv : KV) : Prop := key = "" \/ kv_key kv = key.

#[export] Instance key_matches_dec key kv : Decision (key_matches key kv).
Proof. unfold key_matches. apply _. Defined.

(** The retained changes in [(from, to]] that match, oldest first. *)
Definition changes (h : gmap Z KV) (from to : Z) (key : string) : list KV :=
  (filter (fun e => from < e.1 <= to /\ key_matches key e.2) (sorted_entries h)).*2.

Definition spec_replay (a : Mvcc) (from to : Z) (key : string) (max : nat)
    : list WatchEvent :=
  take max (spec_event <$> changes (m_hist a) from to key).

Lemma replay_loop_prefix cur key max es out :
  replay_loop cur key max es out =
  replay_loop cur key max (take_while (fun e => starts_with "v/" e.1) es) out.
Proof.
  revert out. induction es as [|[k raw] es IH]; intros out; [done|]. simpl.
  destruct (starts_with "v/" k) eqn:E; [|done]. simpl. rewrite E. simpl.
  case_match; [apply IH|].
  destruct (substr k 2 16) as [hex|]; [|done].
  change (Done hex ≫= ?f) with (f hex). cbn beta.
  destruct (DecodeOrd hex) as [rev|]; [|done].
  change (Done rev ≫= ?f) with (f rev). cbn beta.
  destruct (cur <? rev); [done|]. destruct (ParseKV raw) as [kv|]; [|apply IH].
  destruct (_ && _); [apply IH|]. destruct (max <=? _); [done|apply IH].
Qed.

Lemma matches_test key kv :
  negb (String.eqb key "") && negb (String.eqb (kv_key kv) key) = true <->
  ~ key_matches key kv.
Proof.
  unfold key_matches. rewrite andb_true_iff, !negb_true_iff, !String.eqb_neq. tauto.
Qed.

Lemma replay_loop_versions cur key max l out :
  StronglySorted zlt_fst l ->
  (forall r kv, (r, kv) ∈ l -> 1 <= r <= int64_max /\ kv_revision kv = r /\ kv_encodable kv) ->
  (length out < max)%nat ->
  replay_loop cur key (Z.of_nat max) (version_entry <$> l) out =
  Done (out ++ take (max - length out)
    (spec_event <$> (filter (fun e => e.1 <= cur /\ key_matches key e.2) l).*2)).
Proof.
  intros Hs. revert out. induction Hs as [|[r kv] l Hs IH Hr]; intros out Hl Hmax.
  { simpl. by rewrite take_nil, app_nil_r. }
  destruct (Hl r kv) as (Hrb & Hrev & Henc); [by left|].
  assert (Hl' : forall r' kv', (r', kv') ∈ l ->
    1 <= r' <= int64_max /\ kv_revision kv' = r' /\ kv_encodable kv') by (intros; apply Hl; by right).
  rewrite fmap_cons. unfold version_entry at 1.
  cbn [replay_loop fst snd]. rewrite starts_with_VersionKey. cbn [negb].
  rewrite length_VersionKey. change (19 + ?x <? 18)%nat with false. cbn iota.
  rewrite VersionKey_rev_field, outcome_bind_Done, DecodeOrd_EncodeOrd_nonneg by lia.
  rewrite outcome_bind_Done, ParseKV_SerializeKV by done.
  rewrite filter_cons. simpl fst. simpl snd.
  destruct (Z.ltb_spec cur r) as [Hlt|Hle].
  { rewrite decide_False by (intros [? _]; lia).
    rewrite (filter_none _ l); [simpl; by rewrite take_nil, app_nil_r|].
    rewrite Forall_forall in Hr. intros [r' kv'] Hin [Hc _].
    specialize (Hr _ Hin). unfold zlt_fst in Hr. simpl in *. lia. }
  destruct (negb _ && _) eqn:Et.
  - apply matches_test in Et. rewrite decide_False by tauto. by apply IH.
  - assert (key_matches key kv) as Hk.
    { destruct (decide (key_matches key kv)) as [|Hn]; [done|].
      apply matches_test in Hn. congruence. }
    rewrite decide_True by done.
    replace (mkEvent r (kv_key kv) (kv_value kv) (kv_version kv) _) with (spec_event kv)
      by (unfold spec_event; by rewrite Hrev).
    rewrite !fmap_cons, length_app. simpl length.
    destruct (Z.leb_spec (Z.of_nat max) (Z.of_nat (length out + 1))).
    + replace (max - length out)%nat with 1%nat by lia. simpl. by rewrite take_0.
    + rewrite IH by (rewrite ?length_app; simpl; done || lia).
      rewrite length_app. simpl length.
      replace (max - length out)%nat with (S (max - (length out + 1)))%nat by lia.
      simpl. by rewrite <-app_assoc.
Qed.

Lemma changes_empty h from to key : to <= from -> changes h from to key = [].
Proof. intros Hle. unfold changes. rewrite filter_none; [done|]. intros [r kv] _. lia. Qed.

(** What a replay returns: the changes its iterator can see, unless history
    above [from_revision] has been reclaimed. *)
Definition replay_result (a_it a : Mvcc) (from cur : Z) (key : string) (max : nat)
    : bool * list WatchEvent * Code :=
  if (max =? 0)%nat then (true, [], OK)
  else if Z.max 0 from <? m_compact a then (false, [], COMPACTED)
  else (true, spec_replay a_it (Z.max 0 from) cur key max, OK).

Lemma ReplayEventsLocked_refines d_it d a_it a from cur key max :
  Rep d_it a_it -> Rep d a -> cur <= int64_max ->
  ReplayEventsLocked d_it d from cur key (Z.of_nat max) =
  Done (replay_result a_it a from cur key max).
Proof.
  intros Hit Hd Hcur. unfold ReplayEventsLocked, replay_result.
  destruct max as [|max']; [done|]. set (max := S max').
  destruct (Z.leb_spec (Z.of_nat max) 0); [lia|]. cbn [Nat.eqb].
  replace (if from <? 0 then 0 else from) with (Z.max 0 from)
    by (destruct (Z.ltb_spec from 0); lia).
  rewrite (CompactRevLocked_rep _ _ Hd).
  generalize (Z.max_spec 0 from). generalize (Z.max 0 from). intros f Hf.
  change (max =? 0)%nat with false. cbn iota.
  destruct (Z.ltb_spec f (m_compact a)); [done|].
  destruct (Z.leb_spec cur f) as [Hle|Hlt].
  { unfold spec_replay. rewrite changes_empty by done. by rewrite fmap_nil, take_nil. }
  rewrite to_int64_small by lia. rewrite replay_loop_prefix.
  fold (scan_prefix d_it (VersionKey (f + 1) "") "v/").
  rewrite (scan_versions_from _ _ _ Hit) by lia.
  rewrite replay_loop_versions; [|apply StronglySorted_filter, sorted_entries_sorted| |simpl; lia].
  - rewrite outcome_bind_Done. unfold spec_replay, changes.
    rewrite list_filter_filter. simpl length. rewrite Nat.sub_0_r. simpl app.
    repeat f_equal. apply list_filter_iff. intros [r kv]. simpl.
    split; intros; destruct_and!; split_and!; (done || lia).
  - intros r kv [_ Hin]%list_elem_of_filter. apply elem_of_sorted_entries in Hin.
    pose proof (rep_wf _ _ Hit) as Hw. split_and!; try by eapply wf_hist_int64.
    + by destruct (wf_hist _ Hw _ _ Hin).
    + by eapply wf_hist_encodable.
Qed.

(** * The history of published versions *)

Definition versions_of (c : gmap (string * Z) KV) (key : string) : gmap Z KV :=
  list_to_map (omap (fun e => if decide (e.1.1 = key) then Some (e.1.2, e.2) else None)
                 (map_to_list c)).

Lemma versions_of_lookup c key v : versions_of c key !! v = c !! (key, v).
Proof.
  unfold versions_of. apply option_eq. intros kv.
  rewrite <-elem_of_list_to_map.
  - rewrite list_elem_of_omap. split.
    + intros ([[k v'] kv'] & Hin & E). simpl in E. case_decide; simplify_eq.
      by apply elem_of_map_to_list.
    + intros Hc. exists ((key, v), kv). rewrite elem_of_map_to_list.
      split; [done|]. simpl. by rewrite decide_True.
  - pose proof (NoDup_map_to_list c) as Hnd.
    assert (forall k v1 x1 v2 x2, ((k, v1), x1) ∈ map_to_list c ->
      ((k, v2), x2) ∈ map_to_list c -> v1 = v2 -> x1 = x2) as Hinj.
    { intros k v1 x1 v2 x2 H1' H2' ->.
      apply elem_of_map_to_list in H1', H2'. by simplify_eq. }
    induction (map_to_list c) as [|[[k v'] x] l IH]; [constructor|].
    apply NoDup_cons in Hnd as [Hx Hnd]. csimpl.
    assert (NoDup (omap (fun e : string * Z * KV =>
      if decide (e.1.1 = key) then Some (e.1.2, e.2) else None) l).*1) as HI.
    { apply IH; [done|]. intros. eapply Hinj; eauto; by right. }
    case_decide as Hk; [|done]. simpl in Hk. subst k. rewrite fmap_cons.
    apply NoDup_cons. split; [|done]. simpl. intros Hin.
    apply list_elem_of_fmap in Hin as ([v2 x2] & -> & Hin). simpl in *.
    apply list_elem_of_omap in Hin as ([[k3 v3] x3] & Hin & E3). simpl in E3.
    case_decide; simplify_eq. apply Hx.
    rewrite (Hinj key v2 x v2 x2); [done|by left|by right|done].
Qed.

(** The published records of a key by increasing version. *)
Definition spec_history (a : Mvcc) (key : string) : list KV :=
  (sorted_entries (versions_of (m_cfg a) key)).*2.

Definition config_entry (key : string) (e : Z * KV) : string * string :=
  (ConfigKey key e.1, SerializeKV e.2).

Lemma wf_cfg_int64 a k v kv : wf a -> m_cfg a !! (k, v) = Some kv -> 1 <= v <= int64_max.
Proof.
  intros Hw Hc. destruct (wf_cfg _ Hw _ _ _ Hc) as (_ & _ & _ & ? & _ & _ & cur & Hm & ?).
  apply (wf_main_version _ Hw) in Hm. destruct (wf_bounds _ Hw). lia.
Qed.

Lemma config_key_inv d a k raw :
  Rep d a -> contents d !! k = Some raw -> starts_with "cfg/" k = true ->
  exists key v kv, m_cfg a !! (key, v) = Some kv /\ (k, raw) = config_entry key (v, kv).
Proof.
  intros (Hr & Hm & Hw) Hk Hp.
  destruct (repr_layout _ _ Hm k) as [| |k'|r k' Hi|k' v Hi]; eauto; try done.
  rewrite (repr_cfg _ _ Hm) in Hk by done.
  destruct (m_cfg a !! (k', v)) as [kv|] eqn:E; [|done]. simplify_eq/=. by exists k', v, kv.
Qed.

Lemma config_entry_stored d a key v kv :
  Rep d a -> m_cfg a !! (key, v) = Some kv ->
  contents d !! ConfigKey key v = Some (SerializeKV kv).
Proof.
  intros (Hr & Hm & Hw) Hc. pose proof (wf_cfg_int64 _ _ _ _ Hw Hc).
  rewrite (repr_cfg _ _ Hm) by (unfold in_int64, int64_min; lia). by rewrite Hc.
Qed.

(** The records of other keys that share the prefix are skipped. *)
Lemma history_entry_config a key key' v kv :
  wf a -> m_cfg a !! (key', v) = Some kv ->
  history_entry key (config_entry key' (v, kv)) = if decide (key' = key) then Some kv else None.
Proof.
  intros Hw Hc. unfold history_entry, config_entry. cbn [snd].
  rewrite ParseKV_SerializeKV by (by eapply wf_cfg_encodable).
  destruct (wf_cfg _ Hw _ _ _ Hc) as (-> & _ & -> & _).
  destruct (String.eqb_spec key' key); [by rewrite decide_True|by rewrite decide_False].
Qed.

Lemma starts_with_shorter p q s : starts_with (p +:+ q) s = true -> starts_with p s = true.
Proof. rewrite !starts_with_spec. intros [t ->]. exists (q +:+ t). by rewrite str_app_assoc. Qed.

Lemma GetHistoryLocked_refines d a key :
  Rep d a -> GetHistoryLocked d key = spec_history a key.
Proof.
  intros Hd. pose proof (rep_wf _ _ Hd) as Hw. unfold GetHistoryLocked.
  set (prefix := "cfg/" +:+ key +:+ "/").
  assert (filter (fun e => history_entry key e <> None) (scan_prefix d prefix prefix) =
    config_entry key <$> sorted_entries (versions_of (m_cfg a) key)) as Hf.
  { apply (strictly_sorted_unique entry_lt); [apply entry_lt_irrefl|
      intros; by apply entry_lt_asym| | |].
    - by apply StronglySorted_filter, scan_prefix_sorted, (rep_readable _ _ Hd).
    - apply (StronglySorted_map_in zlt_fst); [|apply sorted_entries_sorted].
      intros [v1 x1] [v2 x2] E1 E2 Hlt.
      apply elem_of_sorted_entries in E1, E2. rewrite versions_of_lookup in E1, E2.
      apply (wf_cfg_int64 _ _ _ _ Hw) in E1. apply (wf_cfg_int64 _ _ _ _ Hw) in E2.
      unfold zlt_fst in Hlt. simpl in *. apply ConfigKey_lt; simpl; lia.
    - intros [k raw]. rewrite list_elem_of_filter, scan_prefix_elem;
        [|by eapply rep_readable|done].
      rewrite list_elem_of_fmap. split.
      + intros (Hne & Hk & _ & Hp).
        destruct (config_key_inv d a k raw Hd Hk) as (k' & v & kv & Hc & E).
        { by eapply (starts_with_shorter "cfg/"). }
        exists (v, kv). rewrite E in Hne |- *.
        rewrite (history_entry_config _ _ _ _ _ Hw Hc) in Hne.
        case_decide; [subst k'|done]. split; [done|].
        by rewrite elem_of_sorted_entries, versions_of_lookup.
      + intros ([v kv] & E & Hin). rewrite elem_of_sorted_entries, versions_of_lookup in Hin.
        rewrite E. rewrite (history_entry_config _ _ _ _ _ Hw Hin), decide_True by done.
        unfold config_entry in E. simplify_eq/=.
        split_and!; [done|by apply (config_entry_stored _ a)| |apply starts_with_ConfigKey].
        unfold prefix, ConfigKey. change kConfigPrefix with "cfg/".
        rewrite <-!str_app_assoc. apply str_le_app. }
  rewrite <-(omap_filter _ (fun e => history_entry key e <> None)), Hf.
  - apply omap_fmap_Some. intros [v kv] Hin.
    rewrite elem_of_sorted_entries, versions_of_lookup in Hin.
    by rewrite (history_entry_config _ _ _ _ _ Hw Hin), decide_True.
  - intros e _ Hn. by destruct (history_entry key e); [destruct Hn|].
Qed.

(** * The public readers *)

(** What the readers answer in a represented state. *)
Lemma Get_rep d a dir key :
  Rep d a -> Get (mkStore (Some d) dir) key =
    Done (match spec_get a key with Some kv => (Some kv, OK) | None => (None, KEY_NOT_FOUND) end).
Proof. intros Hd. unfold Get, read_db. simpl. by rewrite (GetLocked_rep _ _ _ Hd). Qed.

(** What the readers of published versions answer. *)
Lemma GetConfig_rep d a dir key v :
  Rep d a -> in_int64 v -> GetConfig (mkStore (Some d) dir) key v =
    Done (match spec_get_config a key v with
          | Some kv => (Some kv, OK)
          | None => (None, if v <=? 0 then KEY_NOT_FOUND else VERSION_NOT_FOUND)
          end).
Proof.
  intros Hd Hv. unfold GetConfig, read_db. simpl. by rewrite (GetConfigLocked_rep _ _ _ _ Hd Hv).
Qed.

Lemma GetHistory_rep d a dir key :
  Rep d a -> GetHistory (mkStore (Some d) dir) key = Done (spec_history a key).
Proof.
  intros Hd. unfold GetHistory, read_db. simpl. by rewrite (GetHistoryLocked_refines _ _ _ Hd).
Qed.

(** A new version is above the indexed ones, so it ends the history. *)
Lemma spec_publish_history a key value k :
  wf a -> spec_history (spec_publish a key value) k =
  spec_history a k ++ if decide (k = key) then [spec_record a key value false] else [].
Proof.
  intros Hw. unfold spec_history. set (kv := spec_record a key value false).
  assert (sorted_entries (versions_of (m_cfg (spec_publish a key value)) k) =
    sorted_entries (versions_of (m_cfg a) k) ++
    if decide (k = key) then [(kv_version kv, kv)] else []) as ->.
  2: { rewrite fmap_app. by destruct (decide (k = key)). }
  assert (Hlt : forall v x, (v, x) ∈ sorted_entries (versions_of (m_cfg a) k) ->
    k = key -> v < kv_version kv).
  { intros v x Hin ->. rewrite elem_of_sorted_entries, versions_of_lookup in Hin.
    destruct (wf_cfg _ Hw _ _ _ Hin) as (_ & _ & _ & _ & _ & _ & cur & Hm & ?).
    simpl. unfold spec_version. rewrite Hm. lia. }
  apply zlt_fst_unique; [apply sorted_entries_sorted| |].
  - case_decide as Hk; [|rewrite app_nil_r; apply sorted_entries_sorted].
    apply StronglySorted_app_2; [|apply sorted_entries_sorted|repeat constructor].
    intros [v x] e Hin ->%list_elem_of_singleton. by apply (Hlt v x).
  - intros [v x]. rewrite elem_of_app, !elem_of_sorted_entries, !versions_of_lookup.
    simpl. destruct (decide (k = key)) as [->|Hk].
    + rewrite list_elem_of_singleton, lookup_insert_Some. split.
      * intros [[Hv <-]|[_ Hc]]; [right; fold kv; congruence|by left].
      * intros [Hc|Hv]; [right|left; fold kv; split; congruence]. split; [|done]. intros Hv.
        assert (v < kv_version kv); [|simpl in *; simplify_eq; lia].
        apply (Hlt v x); [|done]. by rewrite elem_of_sorted_entries, versions_of_lookup.
    + rewrite lookup_insert_ne by congruence. split; [by left|].
      intros [?|?%elem_of_nil]; done.
Qed.
End scan.
