(* ===== verification/StoreCompact.v ===== *)
(** [Store::Compaction]: the two loops of src/src/store/store.cpp (grouping the
    history by key, then deleting the oldest records of each key) reclaim exactly
    the records the specification calls victims. *)
From S2P Require Import Prelude CxxStd StoreKey Proto LevelDB Store StoreSpec StoreRepr.
From S2P Require Import StoreRefine StoreScan.

(** * Grouping *)

Abbreviation per_key_map := (list (string * list (Z * Z))).

Definition key_lt (a b : string * list (Z * Z)) : Prop := str_lt a.1 b.1.

(** [per_key[key]] *)
Fixpoint pk_get (m : per_key_map) (key : string) : list (Z * Z) :=
  match m with
  | [] => []
  | (k, xs) :: m' => if decide (k = key) then xs else pk_get m' key
  end.

Lemma pk_get_above m key :
  Forall (fun e => str_lt key e.1) m -> pk_get m key = [].
Proof.
  induction 1 as [|[k xs] m Hk _ IH]; [done|]. simpl in *.
  rewrite decide_False; [done|]. intros ->. by apply str_lt_irrefl in Hk.
Qed.

Lemma pk_get_elem m k xs : StronglySorted key_lt m -> (k, xs) ∈ m -> pk_get m k = xs.
Proof.
  induction 1 as [|[k' xs'] m Hs IH Hk]; [by intros ?%elem_of_nil|]. simpl.
  intros [E|Hin]%elem_of_cons; [by simplify_eq; rewrite decide_True|].
  rewrite decide_False; [by apply IH|]. intros ->.
  rewrite Forall_forall in Hk. by apply (str_lt_irrefl k), (Hk (k, xs)).
Qed.

Lemma elem_of_per_key_push key x m e :
  e ∈ per_key_push key x m -> e.1 = key \/ e ∈ m.
Proof.
  induction m as [|[k xs] m IH]; simpl.
  - intros ->%list_elem_of_singleton. by left.
  - destruct (String.compare key k) eqn:E.
    + apply String.compare_eq_iff in E as ->.
      intros [->|Hin]%elem_of_cons; [by left|right; by right].
    + intros [->|Hin]%elem_of_cons; [by left|by right].
    + intros [->|Hin]%elem_of_cons; [right; by left|].
      destruct (IH Hin); [by left|right; by right].
Qed.

Lemma per_key_push_sorted key x m :
  StronglySorted key_lt m -> StronglySorted key_lt (per_key_push key x m).
Proof.
  induction 1 as [|[k xs] m Hs IH Hk]; simpl; [repeat constructor|].
  destruct (String.compare key k) eqn:E.
  - by constructor.
  - constructor; [by constructor|]. constructor; [done|].
    eapply Forall_impl; [exact Hk|]. intros e He. by eapply str_lt_trans.
  - constructor; [done|]. rewrite Forall_forall in Hk |- *.
    intros e [He|He]%elem_of_per_key_push; [|by apply Hk].
    unfold key_lt, str_lt. simpl. by rewrite He, String.compare_antisym, E.
Qed.

Lemma pk_get_push key x m k :
  StronglySorted key_lt m ->
  pk_get (per_key_push key x m) k =
  if decide (k = key) then pk_get m key ++ [x] else pk_get m k.
Proof.
  induction 1 as [|[k' xs] m Hs IH Hk]; simpl.
  { repeat case_decide; simplify_eq; done. }
  destruct (String.compare key k') eqn:E.
  - apply String.compare_eq_iff in E as ->. simpl.
    rewrite (decide_True (P := k' = k')) by done.
    repeat case_decide; simplify_eq; done.
  - simpl. assert (pk_get ((k', xs) :: m) key = []) as Hn.
    { apply pk_get_above. constructor; [done|].
      eapply Forall_impl; [exact Hk|]. intros e He. by eapply str_lt_trans. }
    simpl in Hn. rewrite Hn. repeat case_decide; simplify_eq; done.
  - simpl. rewrite IH. assert (key <> k') as Hne.
    { intros ->. by rewrite str_compare_refl in E. }
    repeat case_decide; simplify_eq; done.
Qed.

(** The pairs recorded for a key: its records in the order of the history. *)
Definition record_pair (e : Z * KV) : Z * Z := (e.1, kv_version e.2).

Definition records_of (key : string) (l : list (Z * KV)) : list (Z * KV) :=
  filter (fun e => kv_key e.2 = key) l.

Definition group_step (m : per_key_map) (e : Z * KV) : per_key_map :=
  per_key_push (kv_key e.2) (record_pair e) m.

Lemma group_spec l m :
  StronglySorted key_lt m ->
  StronglySorted key_lt (foldl group_step m l) /\
  forall key, pk_get (foldl group_step m l) key =
              pk_get m key ++ (record_pair <$> records_of key l).
Proof.
  revert m. induction l as [|[r kv] l IH]; intros m Hm; simpl.
  { split; [done|]. intros key. by rewrite app_nil_r. }
  destruct (IH (group_step m (r, kv))) as [Hs Hg]; [by apply per_key_push_sorted|].
  split; [done|]. intros key. rewrite Hg. unfold group_step at 1. simpl.
  rewrite pk_get_push by done. unfold records_of. rewrite filter_cons. simpl.
  destruct (decide (key = kv_key kv)) as [->|Hne].
  - rewrite decide_True by done. by rewrite fmap_cons, <-app_assoc.
  - by rewrite decide_False by congruence.
Qed.

(** * Deleting *)

(** What the second loop removes: key, revision and version. *)
Definition removed_list (keep : Z) (m : per_key_map) : list (string * (Z * Z)) :=
  mbind (fun e => pair e.1 <$> take (Z.to_nat (Z.of_nat (length e.2) - keep)) e.2) m.

Definition removed_keys (e : string * (Z * Z)) : list string :=
  [VersionKey e.2.1 e.1; ConfigKey e.1 e.2.2].

Definition max_of (m : Z) (l : list (string * (Z * Z))) : Z :=
  foldl (fun m e => Z.max m e.2.1) m l.

Lemma compaction_record_fold key rs b n mx :
  foldl (compaction_record key) (b, n, mx) rs =
  (b ++ (OpDelete <$> mbind removed_keys (pair key <$> rs)),
   n + Z.of_nat (length rs), max_of mx (pair key <$> rs)).
Proof.
  revert b n mx. induction rs as [|[r v] rs IH]; intros b n mx.
  { simpl. by rewrite app_nil_r, Z.add_0_r. }
  cbn [foldl compaction_record]. rewrite IH. csimpl.
  rewrite <-app_assoc. simpl. f_equal; [f_equal; lia|].
  unfold max_of. simpl. f_equal. destruct (Z.ltb_spec mx r); lia.
Qed.

Lemma compaction_fold keep m b n mx :
  foldl (compaction_key keep) (b, n, mx) m =
  (b ++ (OpDelete <$> mbind removed_keys (removed_list keep m)),
   n + Z.of_nat (length (removed_list keep m)), max_of mx (removed_list keep m)).
Proof.
  revert b n mx. induction m as [|[key rs] m IH]; intros b n mx.
  { simpl. by rewrite app_nil_r, Z.add_0_r. }
  cbn [foldl]. unfold removed_list. rewrite bind_cons. fold (removed_list keep m). simpl fst. simpl snd.
  unfold compaction_key at 2.
  destruct (Z.leb_spec (Z.of_nat (length rs) - keep) 0) as [Hle|Hgt].
  - replace (Z.to_nat _) with 0%nat by lia. by rewrite take_0, IH.
  - rewrite compaction_record_fold, IH. rewrite bind_app, fmap_app, <-app_assoc.
    rewrite length_app, length_fmap. unfold max_of. rewrite foldl_app.
    f_equal. f_equal. lia.
Qed.

Lemma max_of_spec m l :
  m <= max_of m l /\ (forall e, e ∈ l -> e.2.1 <= max_of m l) /\
  (forall b, m <= b -> (forall e, e ∈ l -> e.2.1 <= b) -> max_of m l <= b).
Proof.
  revert m. induction l as [|e l IH]; intros m; simpl.
  { split_and!; [lia|by intros e ?%elem_of_nil|done]. }
  destruct (IH (Z.max m e.2.1)) as (H1 & H2 & H3). unfold max_of in *. simpl.
  split_and!; [lia| |].
  - intros e' [->|He]%elem_of_cons; [lia|by apply H2].
  - intros b Hb Hall. apply H3.
    + pose proof (Hall e ltac:(by left)). lia.
    + intros e' He. apply Hall. by right.
Qed.

Lemma apply_deletes ks (m : gmap string string) s :
  apply_batch (OpDelete <$> ks) m !! s = if decide (s ∈ ks) then None else m !! s.
Proof.
  revert m. induction ks as [|k ks IH]; intros m.
  { rewrite decide_False; [done|]. by apply not_elem_of_nil. }
  cbn [fmap list_fmap apply_batch foldl apply_op].
  change (foldl apply_op ?x ?y) with (apply_batch y x). rewrite IH, lookup_delete.
  destruct (decide (s ∈ k :: ks)) as [Hin|Hin]; rewrite elem_of_cons in Hin.
  - repeat case_decide; intuition congruence.
  - rewrite !decide_False by (intuition congruence). done.
Qed.

(** * The position of a record among those of its key *)

Lemma sorted_newer (l : list (Z * KV)) i e :
  StronglySorted zlt_fst l -> l !! i = Some e ->
  length (filter (fun x => e.1 < x.1) l) = (length l - 1 - i)%nat.
Proof.
  intros Hs. revert i. induction Hs as [|x l Hs IH Hx]; intros i Hi; [done|].
  rewrite Forall_forall in Hx. unfold zlt_fst in Hx.
  destruct i as [|i]; simpl in Hi.
  - simplify_eq. rewrite filter_cons, decide_False by lia.
    rewrite filter_all by done. simpl. lia.
  - rewrite filter_cons, decide_False.
    + rewrite (IH _ Hi). simpl. lia.
    + apply list_elem_of_lookup_2, Hx in Hi. lia.
Qed.

Lemma size_newer h key r :
  size (newer h key r) = length (filter (fun x => r < x.1) (records_of key (sorted_entries h))).
Proof.
  rewrite <-length_map_to_list. apply Permutation_length, NoDup_Permutation.
  - apply NoDup_map_to_list.
  - apply NoDup_filter, NoDup_filter.
    apply (StronglySorted_irrefl_NoDup zlt_fst); [unfold zlt_fst; lia|].
    apply sorted_entries_sorted.
  - intros [r' kv]. unfold newer, records_of. rewrite elem_of_map_to_list, map_lookup_filter_Some.
    rewrite !list_elem_of_filter, elem_of_sorted_entries. simpl. tauto.
Qed.

(** The first [n - keep] records of a key are those with [keep] newer ones. *)
Lemma removed_records keep h key r kv :
  1 <= keep ->
  (r, kv) ∈ take (Z.to_nat (Z.of_nat (length (records_of key (sorted_entries h))) - keep))
             (records_of key (sorted_entries h)) <->
  victims keep h !! r = Some kv /\ kv_key kv = key.
Proof.
  intros Hkeep. set (l := records_of key (sorted_entries h)).
  assert (Hs : StronglySorted zlt_fst l) by apply StronglySorted_filter, sorted_entries_sorted.
  assert (Hl : forall r kv, (r, kv) ∈ l <-> h !! r = Some kv /\ kv_key kv = key).
  { intros. unfold l, records_of. rewrite list_elem_of_filter, elem_of_sorted_entries.
    simpl. tauto. }
  rewrite victims_lookup. unfold reclaimed. rewrite list_elem_of_lookup. split.
  - intros (i & Hi). apply lookup_take_Some in Hi as [Hi Hlt].
    pose proof (sorted_newer _ _ _ Hs Hi) as Hn.
    apply list_elem_of_lookup_2 in Hi as Hin. apply Hl in Hin as [Hh Hk].
    split; [|done]. split; [done|]. rewrite Hk, size_newer. fold l.
    simpl in Hn. rewrite Hn. lia.
  - intros [[Hh Hrec] Hk]. assert (Hin : (r, kv) ∈ l) by by apply Hl.
    apply list_elem_of_lookup in Hin as (i & Hi). exists i.
    pose proof (sorted_newer _ _ _ Hs Hi) as Hn. rewrite Hk, size_newer in Hrec. fold l in Hrec.
    simpl in Hn. rewrite Hn in Hrec. apply lookup_lt_Some in Hi as Hb.
    apply lookup_take_Some. split; [done|]. lia.
Qed.

(** * The whole pass *)

Section compaction.
Context `{KVCodecSpec} {DB : Type} `{LevelDBSpec DB}.
Implicit Types (d : DB) (a : Mvcc).

Lemma compaction_collect_versions l m :
  (forall r kv, (r, kv) ∈ l -> 1 <= r <= int64_max /\ kv_encodable kv) ->
  compaction_collect (version_entry <$> l) m = Done (foldl group_step m l).
Proof.
  revert m. induction l as [|[r kv] l IH]; intros m Hl; [done|].
  destruct (Hl r kv) as [Hr He]; [by left|].
  rewrite fmap_cons. unfold version_entry at 1. cbn [compaction_collect fst snd].
  rewrite length_VersionKey. change (19 + ?x <? 18)%nat with false. cbn iota.
  rewrite VersionKey_rev_field, outcome_bind_Done.
  rewrite VersionKey_key_field, outcome_bind_Done, ParseKV_SerializeKV by done.
  rewrite DecodeOrd_EncodeOrd_nonneg, outcome_bind_Done by lia.
  apply IH. intros. apply Hl. by right.
Qed.

(** The groups of the history and what is removed from them. *)
Definition groups (h : gmap Z KV) : per_key_map := foldl group_step [] (sorted_entries h).

Lemma removed_list_elem keep h key r v :
  1 <= keep ->
  (key, (r, v)) ∈ removed_list keep (groups h) <->
  exists kv, victims keep h !! r = Some kv /\ kv_key kv = key /\ kv_version kv = v.
Proof.
  intros Hkeep. destruct (group_spec (sorted_entries h) []) as [Hs Hg]; [constructor|].
  unfold removed_list. rewrite list_elem_of_bind. split.
  - intros ([k xs] & Hin & Hxs). apply list_elem_of_fmap in Hin as (p & E & Hin).
    simpl in *. simplify_eq. apply pk_get_elem in Hxs; [|done].
    fold (groups h) in Hg. unfold groups in Hxs. rewrite Hg in Hxs. simpl in Hxs.
    subst xs. rewrite length_fmap, <-fmap_take in Hin.
    apply list_elem_of_fmap in Hin as ([r' kv] & E & Hin).
    unfold record_pair in E. simplify_eq/=.
    apply removed_records in Hin as [Hv Hk]; [|done]. by exists kv.
  - intros (kv & Hv & Hk & <-).
    pose proof (conj Hv Hk) as Hin. apply removed_records in Hin; [|done].
    assert (Hx : (r, kv_version kv) ∈
      take (Z.to_nat (Z.of_nat (length (pk_get (groups h) key)) - keep))
        (pk_get (groups h) key)).
    { unfold groups. rewrite Hg. simpl. rewrite length_fmap, <-fmap_take.
      apply list_elem_of_fmap. by exists (r, kv). }
    exists (key, pk_get (groups h) key). split.
    + simpl. apply list_elem_of_fmap. by exists (r, kv_version kv).
    + revert Hx. generalize (groups h). intros m. clear.
      induction m as [|[k xs] m IH]; simpl.
      { rewrite take_nil. by intros ?%elem_of_nil. }
      case_decide as E; [subst; intros _; by left|]. intros Hx. right. by apply IH.
Qed.

Lemma removed_list_revs_NoDup keep h :
  1 <= keep -> NoDup ((fun e : string * (Z * Z) => e.2.1) <$> removed_list keep (groups h)).
Proof.
  intros Hkeep. destruct (group_spec (sorted_entries h) []) as [Hs Hg]; [constructor|].
  fold (groups h) in Hs, Hg.
  assert (Hrec : forall k xs, (k, xs) ∈ groups h ->
    xs = record_pair <$> records_of k (sorted_entries h)).
  { intros k xs Hin. apply pk_get_elem in Hin; [|done]. by rewrite Hg in Hin. }
  clear Hg. induction Hs as [|[k xs] m Hs IH Hk]; [constructor|].
  unfold removed_list. rewrite bind_cons, fmap_app. fold (removed_list keep m).
  simpl fst. simpl snd. apply NoDup_app. split_and!.
  - rewrite <-list_fmap_compose. rewrite (Hrec k xs) by (by left).
    rewrite length_fmap, <-fmap_take, <-list_fmap_compose.
    apply (StronglySorted_irrefl_NoDup Z.lt); [lia|].
    apply (StronglySorted_map_in zlt_fst); [by unfold zlt_fst|].
    eapply StronglySorted_app_1_l. rewrite take_drop.
    apply StronglySorted_filter, sorted_entries_sorted.
  - intros r Hr Hr'.
    apply list_elem_of_fmap in Hr as ([k1 [r1 v1]] & -> & Hin1).
    apply list_elem_of_fmap in Hin1 as ([r2 v2] & E & Hin1). simplify_eq/=.
    rewrite (Hrec k xs) in Hin1 by (by left). rewrite length_fmap, <-fmap_take in Hin1.
    apply list_elem_of_fmap in Hin1 as ([r1 kv1] & E & Hin1). unfold record_pair in E.
    simplify_eq/=. apply removed_records in Hin1 as [Hv1 <-]; [|done].
    apply list_elem_of_fmap in Hr' as ([k2 [r2 v2]] & E & Hin2). simplify_eq/=.
    unfold removed_list in Hin2. apply list_elem_of_bind in Hin2 as ([k3 xs3] & Hin2 & Hm).
    simpl in Hin2. apply list_elem_of_fmap in Hin2 as ([r3 v3] & E & Hin2). simplify_eq.
    rewrite (Hrec k3 xs3) in Hin2 by (by right). rewrite length_fmap, <-fmap_take in Hin2.
    apply list_elem_of_fmap in Hin2 as ([r4 kv4] & E & Hin2). unfold record_pair in E.
    simplify_eq/=. apply removed_records in Hin2 as [Hv4 <-]; [|done]. simplify_eq.
    rewrite Forall_forall in Hk. by apply (str_lt_irrefl (kv_key kv1)), (Hk _ Hm).
  - apply IH. intros k' xs' Hin. apply Hrec. by right.
Qed.

Lemma removed_list_length keep h :
  1 <= keep -> length (removed_list keep (groups h)) = size (victims keep h).
Proof.
  intros Hkeep. rewrite <-length_map_to_list, <-(length_fmap fst (map_to_list _)).
  rewrite <-(length_fmap (fun e : string * (Z * Z) => e.2.1)).
  apply Permutation_length, NoDup_Permutation.
  - by apply removed_list_revs_NoDup.
  - apply NoDup_fst_map_to_list.
  - intros r. rewrite !list_elem_of_fmap. split.
    + intros ([k [r' v]] & -> & Hin). apply removed_list_elem in Hin as (kv & Hv & _); [|done].
      exists (r', kv). by rewrite elem_of_map_to_list.
    + intros ([r' kv] & -> & Hin). apply elem_of_map_to_list in Hin.
      exists (kv_key kv, (r', kv_version kv)). split; [done|].
      apply removed_list_elem; [done|]. by exists kv.
Qed.

(** The keys the batch deletes are those of the victims. *)
Lemma removed_keys_elem keep h s :
  1 <= keep ->
  s ∈ mbind removed_keys (removed_list keep (groups h)) <->
  exists r kv, victims keep h !! r = Some kv /\
    (s = VersionKey r (kv_key kv) \/ s = ConfigKey (kv_key kv) (kv_version kv)).
Proof.
  intros Hkeep. rewrite list_elem_of_bind. split.
  - intros ([k [r v]] & Hs & Hin). apply removed_list_elem in Hin as (kv & Hv & <- & <-); [|done].
    exists r, kv. split; [done|]. unfold removed_keys in Hs. simpl in Hs.
    rewrite !elem_of_cons in Hs. destruct Hs as [->|[->|[]%elem_of_nil]]; auto.
  - intros (r & kv & Hv & Hs). exists (kv_key kv, (r, kv_version kv)). split.
    + unfold removed_keys. simpl. rewrite !elem_of_cons. tauto.
    + apply removed_list_elem; [done|]. by exists kv.
Qed.

(** Deleting them leaves what the specification keeps. *)
Lemma repr_deletes m a v ks :
  wf a -> reclaimable v a -> Repr m a ->
  (forall s, s ∈ ks <-> exists r kv, v !! r = Some kv /\
    (s = VersionKey r (kv_key kv) \/ s = ConfigKey (kv_key kv) (kv_version kv))) ->
  Repr (apply_batch (OpDelete <$> ks) m)
    (mkMvcc (m_rev a) (m_compact a) (m_main a) (m_hist a ∖ v)
       (filter (fun e => ~ indexed_by v e.1) (m_cfg a))).
Proof.
  intros Hw Hr Hm Hks.
  assert (Hno : forall s, (forall r k, s <> VersionKey r k) -> (forall k v, s <> ConfigKey k v) ->
    apply_batch (OpDelete <$> ks) m !! s = m !! s).
  { intros s Hn1 Hn2. rewrite apply_deletes, decide_False; [done|].
    rewrite Hks. intros (r & kv & _ & [->| ->]); [by eapply Hn1|by eapply Hn2]. }
  assert (Hvic : forall r kv, v !! r = Some kv ->
    m_hist a !! r = Some kv /\ in_int64 r /\ in_int64 (kv_version kv)).
  { intros r kv Hv. apply (reclaimable_hist _ a) in Hv as Hh; [|done]. split; [done|].
    destruct (wf_hist _ Hw _ _ Hh) as (_ & ? & ? & _). pose proof (wf_bounds _ Hw).
    unfold in_int64, int64_min. lia. }
  destruct Hm. split; unfold counter in *; simpl.
  - rewrite Hno by auto with str. done.
  - rewrite Hno by auto with str. done.
  - intros k. rewrite Hno by auto with str. done.
  - intros r k Hi0. rewrite apply_deletes, repr_hist by done. unfold hist_at.
    destruct (decide (VersionKey r k ∈ ks)) as [Hin|Hin]; rewrite Hks in Hin.
    + destruct Hin as (r' & kv & Hv & [E|E]); [|by apply VersionKey_ne_ConfigKey in E].
      destruct (Hvic _ _ Hv) as (Hh & Hi & _).
      apply VersionKey_inj in E as [-> ->]; [|done|done].
      by rewrite lookup_difference, Hv.
    + rewrite lookup_difference. destruct (v !! r) as [kv|] eqn:Hv; [|done].
      destruct (Hvic _ _ Hv) as (-> & _). simpl. rewrite decide_False; [done|].
      intros <-. apply Hin. exists r, kv. auto.
  - intros k ver Hi. rewrite apply_deletes, repr_cfg by done.
    destruct (decide (ConfigKey k ver ∈ ks)) as [Hin|Hin]; rewrite Hks in Hin.
    + destruct Hin as (r' & kv & Hv & [E|E]); [by symmetry in E; apply VersionKey_ne_ConfigKey in E|].
      destruct (Hvic _ _ Hv) as (Hh & _ & Hi').
      apply ConfigKey_inj in E as [-> ->]; [|done|done].
      symmetry. apply fmap_None, map_lookup_filter_None. right. intros y _ Hn. apply Hn.
      exists r', kv. done.
    + f_equal. destruct (m_cfg a !! (k, ver)) as [x|] eqn:E.
      * symmetry. apply map_lookup_filter_Some. split; [done|]. intros (r & kv & Hv & E1 & E2).
        simpl in *. apply Hin. exists r, kv. subst. auto.
      * symmetry. apply map_lookup_filter_None. by left.
  - intros s. rewrite apply_deletes. case_decide; [by intros []|]. apply repr_layout.
Qed.

(** The pass whose iterator saw the state [a0] and whose batch meets [a]. *)
Definition compaction_result (d : DB) (a0 a : Mvcc) (keep : Z) (res : outcome (Z * DB)) : Prop :=
  let v := victims (Z.max 1 keep) (m_hist a0) in
  exists removed d', res = Done (removed, d') /\ removed = Z.of_nat (size v) /\
    (Rep d' (spec_reclaim v a) \/ ~ accepts_writes d /\ Rep d' a).

Lemma spec_reclaim_none v a : size v = 0%nat -> spec_reclaim v a = a.
Proof.
  intros ->%map_size_empty_iff. unfold spec_reclaim, max_rev.
  rewrite map_fold_empty, map_difference_empty. destruct a. simpl. f_equal.
  apply map_filter_id. intros [k v] x _ (r & kv & Hr & _). by rewrite lookup_empty in Hr.
Qed.

(** The running maximum of the loop is the specified one. *)
Lemma compact_rev_max h a k :
  1 <= k -> wf a ->
  Z.max (m_compact a) (max_of 0 (removed_list k (groups h))) =
  max_rev (victims k h) (m_compact a).
Proof.
  intros Hk Hw.
  destruct (max_of_spec 0 (removed_list k (groups h))) as (G1 & G2 & G3).
  destruct (max_rev_spec (victims k h) (m_compact a)) as (M1 & M2 & M3).
  destruct (wf_bounds _ Hw). apply Z.le_antisymm.
  - apply Z.max_lub; [done|]. apply G3; [lia|]. intros [key [r v]] Hin.
    apply removed_list_elem in Hin as (kv & Hv & _); [|done]. apply M2. by exists kv.
  - apply M3; [lia|]. intros r [kv Hv].
    enough (r <= max_of 0 (removed_list k (groups h))) by lia.
    apply (G2 (kv_key kv, (r, kv_version kv))), removed_list_elem; [done|]. by exists kv.
Qed.

Lemma CompactionLocked_beside d_it a0 d a keep :
  Rep d_it a0 -> Rep d a -> reclaimable (victims (Z.max 1 keep) (m_hist a0)) a ->
  compaction_result d a0 a keep (CompactionLocked d_it d keep).
Proof.
  intros Hd0 Hd Hv. pose proof (rep_wf _ _ Hd0) as Hw0. pose proof (rep_wf _ _ Hd) as Hw.
  unfold CompactionLocked, compaction_result.
  replace (if keep <? 1 then 1 else keep) with (Z.max 1 keep)
    by (destruct (Z.ltb_spec keep 1); lia).
  rewrite (scan_all_versions _ _ Hd0), compaction_collect_versions, outcome_bind_Done.
  2: { intros r kv Hin%elem_of_sorted_entries. split.
       - by apply (wf_hist_int64 a0 r kv).
       - by apply (wf_hist_encodable _ Hw0 r). }
  fold (groups (m_hist a0)). rewrite compaction_fold. rewrite Z.add_0_l, app_nil_l.
  set (k := Z.max 1 keep) in *. assert (1 <= k) as Hk by lia.
  rewrite removed_list_length by done. cbv zeta. set (v := victims k (m_hist a0)) in *.
  destruct (Z.ltb_spec 0 (Z.of_nat (size v))) as [Hpos|Hz].
  - rewrite (CompactRevLocked_rep _ _ Hd).
    destruct (db_write d _) as [[e|] d'] eqn:E; simpl; do 2 eexists; (split; [done|]);
      (split; [done|]).
    + right. split; [by eapply not_accepts_writes|by eapply rep_write_error].
    + left. eapply rep_write_ok; [done..| |by apply (spec_reclaim_wf v a)].
      rewrite apply_batch_app. simpl.
      pose proof (repr_deletes _ _ v _ Hw Hv (rep_repr _ _ Hd)
        (fun s => removed_keys_elem k (m_hist a0) s Hk)) as Hm.
      rewrite (compact_rev_max _ _ _ Hk Hw). apply (repr_set_compact _ _ (max_rev v (m_compact a)))
        in Hm; [exact Hm|].
      pose proof (wf_bounds _ (spec_reclaim_wf _ _ Hw Hv)) as Hb. simpl in Hb.
      unfold in_int64, int64_min. lia.
  - do 2 eexists. split; [done|]. split; [done|]. left. rewrite spec_reclaim_none; [done|]. lia.
Qed.

(** With nothing in between. *)
Lemma CompactionLocked_refines d a keep :
  Rep d a -> compaction_result d a a keep (CompactionLocked d d keep).
Proof.
  intros Hd. apply CompactionLocked_beside; [done..|].
  apply victims_reclaimable. by eapply rep_wf.
Qed.
End compaction.
