(* ===== verification/StoreSnapshot.v ===== *)
(** [Store::ExportSnapshot], [Store::LoadSnapshot], [Open] and [Close]: the
    snapshot of a represented state holds its current and published records, and
    loading it into an emptied directory gives the reloaded state. *)
From S2P Require Import Prelude CxxStd StoreKey Proto LevelDB Store StoreSpec StoreRepr.
From S2P Require Import StoreRefine StoreScan.

(** * Building maps by repeated insertion *)

Definition insert_all {K} `{Countable K} (f : KV -> K) (m : gmap K KV) (l : list KV) : gmap K KV :=
  foldl (fun m x => <[f x := x]> m) m l.

Lemma insert_all_lookup {K} `{Countable K} (f : KV -> K) m l k x :
  NoDup (f <$> l) ->
  insert_all f m l !! k = Some x <->
  (x ∈ l /\ f x = k) \/ (m !! k = Some x /\ k ∉ f <$> l).
Proof.
  unfold insert_all. revert m. induction l as [|y l IH]; intros m Hnd; simpl.
  { split; [|intros [[Hx _]|[? _]]; [by apply elem_of_nil in Hx|done]].
    intros Hm. right. split; [done|]. apply not_elem_of_nil. }
  apply NoDup_cons in Hnd as [Hy Hnd]. rewrite (IH _ Hnd), lookup_insert_Some.
  rewrite elem_of_cons, not_elem_of_cons. split.
  - intros [[Hx Hk]|[[[<- <-]|[Hne Hm]] Hn]]; [left; tauto|left; auto|right; auto].
  - intros [[[->|Hx] Hk]|[Hm [Hne Hn]]]; [right; subst k; auto|left; auto|right; auto].
Qed.

Lemma insert_all_insert {K} `{Countable K} (f : KV -> K) m l x :
  insert_all f (<[f x := x]> m) l = insert_all f m (x :: l).
Proof. done. Qed.

Section snapshot.
Context `{KVCodecSpec} {DB : Type} `{LevelDBSpec DB}.
Implicit Types (d : DB) (a : Mvcc).

(** A snapshot of state [a]; the order of its records is not significant. *)
Definition snapshot_of (a : Mvcc) (sd : SnapshotData) : Prop :=
  sd_revision sd = m_rev a /\
  sd_kvs sd ≡ₚ (map_to_list (m_main a)).*2 /\
  sd_cfg_kvs sd ≡ₚ (map_to_list (m_cfg a)).*2.

(** * Export *)

Lemma export_revision_rep d a : Rep d a -> export_revision d = m_rev a.
Proof.
  intros Hd. pose proof (rep_readable _ _ Hd) as Hr.
  rewrite <-(repr_rev _ _ (rep_repr _ _ Hd)). unfold export_revision, counter.
  pose proof (db_seek_sorted d RevisionMetaKey Hr) as Hs.
  pose proof (fun k v => db_seek_elem d RevisionMetaKey k v Hr) as He.
  destruct (contents d !! RevisionMetaKey) as [raw|] eqn:Ec.
  - assert ((RevisionMetaKey, raw) ∈ db_seek d RevisionMetaKey) as Hin by by apply He.
    destruct (db_seek d RevisionMetaKey) as [|[k v] l]; [by apply elem_of_nil in Hin|].
    assert (k = RevisionMetaKey) as ->.
    { apply elem_of_cons in Hin as [|Hin]; [congruence|].
      destruct (He k v) as [[_ Hle] _]; [by left|].
      apply StronglySorted_cons in Hs as [Hk _]. rewrite Forall_forall in Hk.
      specialize (Hk _ Hin). unfold entry_lt in Hk. simpl in Hk.
      destruct (str_lt_irrefl RevisionMetaKey). by eapply str_le_lt_trans. }
    destruct (He RevisionMetaKey v) as [[Hv _] _]; [by left|]. simplify_eq.
    by rewrite String.eqb_refl.
  - destruct (db_seek d RevisionMetaKey) as [|[k v] l]; [done|].
    destruct (String.eqb_spec k RevisionMetaKey) as [->|]; [|done].
    destruct (He RevisionMetaKey v) as [[Hv _] _]; [by left|congruence].
Qed.

(** A scan whose entries are the images of a map's entries. *)
Lemma scan_map {K} `{Countable K} d a (m : gmap K KV) (f : K -> string) from p :
  Rep d a -> String.le p from ->
  (forall k1 k2 x1 x2, m !! k1 = Some x1 -> m !! k2 = Some x2 -> f k1 = f k2 -> k1 = k2) ->
  (forall k x, m !! k = Some x -> kv_encodable x) ->
  (forall s raw, contents d !! s = Some raw /\ String.le from s /\ starts_with p s = true <->
     exists k x, m !! k = Some x /\ s = f k /\ raw = SerializeKV x) ->
  omap (fun e => ParseKV e.2) (scan_prefix d from p) ≡ₚ (map_to_list m).*2.
Proof.
  intros Hd Hp Hinj Henc Hm.
  assert (scan_prefix d from p ≡ₚ (fun e => (f e.1, SerializeKV e.2)) <$> map_to_list m) as ->.
  { apply NoDup_Permutation.
    - apply (StronglySorted_irrefl_NoDup entry_lt); [apply entry_lt_irrefl|].
      by apply scan_prefix_sorted, (rep_readable _ _ Hd).
    - apply (NoDup_fmap_2_strong); [|apply NoDup_map_to_list].
      intros [k1 x1] [k2 x2] H1'%elem_of_map_to_list H2'%elem_of_map_to_list E.
      simplify_eq/=. assert (k1 = k2) as -> by (eapply Hinj; eauto). by simplify_eq.
    - intros [s raw]. rewrite scan_prefix_elem by (done || by eapply rep_readable).
      rewrite Hm, list_elem_of_fmap. split.
      + intros (k & x & Hk & -> & ->). exists (k, x). by rewrite elem_of_map_to_list.
      + intros ([k x] & E & Hk). simplify_eq/=. exists k, x.
        by rewrite elem_of_map_to_list in Hk. }
  rewrite (omap_fmap_Some _ _ snd); [done|].
  intros [k x] Hin%elem_of_map_to_list. simpl. by apply ParseKV_SerializeKV, (Henc k).
Qed.

Lemma ExportSnapshotLocked_refines d a :
  Rep d a -> snapshot_of a (ExportSnapshotLocked d).
Proof.
  intros Hd. pose proof Hd as (Hr & Hm & Hw).
  split; [by apply export_revision_rep|]. split; simpl.
  - eapply (scan_map d a (m_main a) MainKey); [done..| | |].
    + intros k1 k2 x1 x2 _ _. apply MainKey_inj.
    + intros k x. by apply wf_main_encodable.
    + intros s raw. split.
      * intros (Hs & _ & Hp). destruct (repr_layout _ _ Hm s) as [| |k|r k Hi|k v Hi]; eauto;
          try done.
        rewrite (repr_main _ _ Hm) in Hs. apply fmap_Some in Hs as (x & Hx & ->).
        by exists k, x.
      * intros (k & x & Hx & -> & ->). rewrite (repr_main _ _ Hm), Hx.
        split_and!; [done|apply (str_le_app "k/")|apply (starts_with_app "k/")].
  - eapply (scan_map d a (m_cfg a) (fun e => ConfigKey e.1 e.2)); [done..| | |].
    + intros [k1 v1] [k2 v2] x1 x2 H1' H2' E.
      apply (wf_cfg_int64 _ _ _ _ Hw) in H1', H2'.
      apply ConfigKey_inj in E as [? ?]; simpl in *;
        [by subst|unfold in_int64, int64_min; lia..].
    + intros k x. by apply wf_cfg_encodable.
    + intros s raw. split.
      * intros (Hs & _ & Hp). destruct (config_key_inv _ _ _ _ Hd Hs Hp) as (k & v & x & Hx & E).
        unfold config_entry in E. simplify_eq/=. by exists (k, v), x.
      * intros ([k v] & x & Hx & -> & ->). simpl.
        rewrite (config_entry_stored _ _ _ _ _ Hd Hx).
        split_and!; [done|apply (str_le_app "cfg/")|apply (starts_with_app "cfg/")].
Qed.

(** * Load *)

Lemma load_kvs_repr m a l :
  Repr m a -> Forall (fun kv => in_int64 (kv_revision kv)) l ->
  NoDup (kv_revision <$> l) ->
  (forall kv, kv ∈ l -> m_hist a !! kv_revision kv = None) ->
  Repr (apply_batch (mbind (fun kv =>
          [OpPut (MainKey (kv_key kv)) (SerializeKV kv);
           OpPut (VersionKey (kv_revision kv) (kv_key kv)) (SerializeKV kv)]) l) m)
    (mkMvcc (m_rev a) (m_compact a) (insert_all kv_key (m_main a) l)
       (insert_all kv_revision (m_hist a) l) (m_cfg a)).
Proof.
  revert m a. induction l as [|kv l IH]; intros m a Hm Hi Hnd Hf; [by destruct a|].
  apply Forall_cons in Hi as [Hi1 Hi]. apply NoDup_cons in Hnd as [Hn Hnd].
  rewrite bind_cons, apply_batch_app. simpl.
  apply (repr_put_main _ _ (kv_key kv) kv) in Hm.
  apply (repr_put_hist _ _ (kv_revision kv) kv) in Hm; [|done|simpl; apply Hf; by left].
  specialize (IH _ _ Hm Hi Hnd). simpl in IH. apply IH.
  intros kv' Hin. rewrite lookup_insert_ne; [apply Hf; by right|].
  intros E. apply Hn. rewrite E. by apply list_elem_of_fmap_2.
Qed.

Lemma load_cfg_repr m a l :
  Repr m a -> Forall (fun kv => in_int64 (kv_version kv)) l ->
  Repr (apply_batch ((fun kv => OpPut (ConfigKey (kv_key kv) (kv_version kv))
                                  (SerializeKV kv)) <$> l) m)
    (mkMvcc (m_rev a) (m_compact a) (m_main a) (m_hist a)
       (insert_all (fun kv => (kv_key kv, kv_version kv)) (m_cfg a) l)).
Proof.
  revert m a. induction l as [|kv l IH]; intros m a Hm Hi; [by destruct a|].
  apply Forall_cons in Hi as [Hi1 Hi]. rewrite fmap_cons. simpl.
  apply (repr_put_cfg _ _ (kv_key kv) (kv_version kv) kv) in Hm; [|done].
  specialize (IH _ _ Hm Hi). simpl in IH. apply IH.
Qed.

Lemma main_values a kv :
  wf a -> kv ∈ (map_to_list (m_main a)).*2 <-> m_main a !! kv_key kv = Some kv.
Proof.
  intros Hw. rewrite list_elem_of_fmap. split.
  - intros ([k x] & -> & Hin). apply elem_of_map_to_list in Hin. simpl.
    by destruct (wf_main _ Hw _ _ Hin) as [-> _].
  - intros Hm. exists (kv_key kv, kv). by rewrite elem_of_map_to_list.
Qed.

Lemma cfg_values a kv :
  wf a -> kv ∈ (map_to_list (m_cfg a)).*2 <->
          m_cfg a !! (kv_key kv, kv_version kv) = Some kv.
Proof.
  intros Hw. rewrite list_elem_of_fmap. split.
  - intros ([[k v] x] & -> & Hin). apply elem_of_map_to_list in Hin. simpl.
    by destruct (wf_cfg _ Hw _ _ _ Hin) as (-> & -> & _).
  - intros Hm. exists ((kv_key kv, kv_version kv), kv). by rewrite elem_of_map_to_list.
Qed.

(** Values of a map are told apart by any function that recovers their key. *)
Lemma NoDup_values {K L} `{Countable K} (m : gmap K KV) (f : KV -> L) :
  (forall k1 k2 x1 x2, m !! k1 = Some x1 -> m !! k2 = Some x2 -> f x1 = f x2 -> k1 = k2) ->
  NoDup (f <$> (map_to_list m).*2).
Proof.
  intros Hf. rewrite <-list_fmap_compose. apply NoDup_fmap_2_strong; [|apply NoDup_map_to_list].
  intros [k1 x1] [k2 x2] H1'%elem_of_map_to_list H2'%elem_of_map_to_list E. simpl in E.
  assert (k1 = k2) as -> by (eapply Hf; eauto). by simplify_eq.
Qed.

Lemma load_batch_repr a sd :
  wf a -> snapshot_of a sd -> Repr (apply_batch (load_batch sd) ∅) (spec_reload a).
Proof.
  intros Hw (Hrev & Hkvs & Hcfg). pose proof (wf_bounds _ Hw) as Hb.
  assert (Hk : forall kv, kv ∈ sd_kvs sd <-> m_main a !! kv_key kv = Some kv).
  { intros kv. rewrite Hkvs. by apply main_values. }
  assert (Hc : forall kv, kv ∈ sd_cfg_kvs sd <-> m_cfg a !! (kv_key kv, kv_version kv) = Some kv).
  { intros kv. rewrite Hcfg. by apply cfg_values. }
  assert (Hnk : NoDup (kv_key <$> sd_kvs sd)).
  { rewrite Hkvs. apply NoDup_values. intros k1 k2 x1 x2 E1 E2 E.
    apply (wf_main _ Hw) in E1 as [<- _], E2 as [<- _]. done. }
  assert (Hnr : NoDup (kv_revision <$> sd_kvs sd)).
  { rewrite Hkvs. apply NoDup_values. intros k1 k2 x1 x2 E1 E2 E.
    apply (wf_main _ Hw) in E1 as [<- E1], E2 as [<- E2]. rewrite E in E1. by simplify_eq. }
  assert (Hnc : NoDup ((fun kv => (kv_key kv, kv_version kv)) <$> sd_cfg_kvs sd)).
  { rewrite Hcfg. apply NoDup_values. intros [k1 v1] [k2 v2] x1 x2 E1 E2 E.
    apply (wf_cfg _ Hw) in E1 as (<- & <- & _), E2 as (<- & <- & _). done. }
  assert (spec_reload a = mkMvcc (m_rev a) (m_rev a) (insert_all kv_key ∅ (sd_kvs sd))
    (insert_all kv_revision ∅ (sd_kvs sd))
    (insert_all (fun kv => (kv_key kv, kv_version kv)) ∅ (sd_cfg_kvs sd))) as ->.
  { unfold spec_reload. f_equal; apply map_eq; intros k; apply option_eq; intros kv;
      rewrite insert_all_lookup, lookup_empty by done.
    - rewrite Hk. split; [|by intros [[? <-]|[? _]]].
      intros Hm. destruct (wf_main _ Hw _ _ Hm) as [<- _]. auto.
    - rewrite map_lookup_filter_Some, Hk. simpl. split.
      + intros [Hh Hm]. left. split; [done|]. by destruct (wf_hist _ Hw _ _ Hh).
      + intros [[Hm <-]|[? _]]; [|done]. split; [|done]. by destruct (wf_main _ Hw _ _ Hm).
    - rewrite Hc. split; [|by intros [[? <-]|[? _]]]. destruct k as [k v].
      intros Hm. destruct (wf_cfg _ Hw _ _ _ Hm) as (<- & <- & _). auto. }
  assert (Hik : Forall (fun kv => in_int64 (kv_revision kv)) (sd_kvs sd)).
  { apply Forall_forall. intros kv Hin%Hk. by destruct (wf_main_encodable _ Hw _ _ Hin) as (_&_&_&?). }
  assert (Hic : Forall (fun kv => in_int64 (kv_version kv)) (sd_cfg_kvs sd)).
  { apply Forall_forall. intros kv Hin%Hc. by destruct (wf_cfg_encodable _ Hw _ _ Hin) as (_&_&?&_). }
  unfold load_batch. rewrite !apply_batch_app, Hrev.
  pose proof (load_kvs_repr _ _ _ repr_empty Hik Hnr (fun _ _ => lookup_empty _)) as Hm.
  apply load_cfg_repr with (l := sd_cfg_kvs sd) in Hm; [|done]. simpl in Hm.
  destruct (Z.ltb_spec 0 (m_rev a)); simpl.
  - assert (in_int64 (m_rev a)) as Hi by (unfold in_int64, int64_min; lia).
    apply (repr_set_compact _ (mkMvcc _ 0 _ _ _)); [done|].
    by apply (repr_set_rev _ (mkMvcc 0 _ _ _ _)).
  - by replace (m_rev a) with 0 by lia.
Qed.
End snapshot.
