(* ===== verification/StoreOps.v ===== *)
(** Model of src/src/store/store_ops.cpp: [ApplyCmdToStore], the one place where
    a replicated command changes the store, with the result and the Watch events
    it reports.  Its specification [spec_apply] is a pure function of the
    abstract state. *)
From S2P Require Import Prelude CxxStd StoreKey Proto LevelDB Store StoreSpec StoreRepr.
From S2P Require Import StoreRefine StoreScan.

(** * The code *)

Definition MakeEvent (kv : KV) : WatchEvent :=
  mkEvent (kv_revision kv) (kv_key kv) (kv_value kv) (kv_version kv)
    (if kv_deleted kv then "DELETE" else "PUT").

(** The assignments the handlers make to [*out]. *)
Definition set_error (out : ApplyResult) (code : Code) (message : string) : ApplyResult :=
  mkApplyResult code message (ar_kv out) (ar_kvs out) (ar_leader_id out) (ar_events out).

Definition set_kv (out : ApplyResult) (kv : KV) : ApplyResult :=
  mkApplyResult OK (ar_message out) kv (ar_kvs out) (ar_leader_id out)
    (ar_events out ++ [MakeEvent kv]).

Section ops.
Context `{KVCodec} {DB : Type} `{LevelDB DB}.

Definition ApplyPut (store : Store DB) (key value : string) (out : ApplyResult)
    : outcome (ApplyResult * Store DB) :=
  '(rev, kv, store) ← Put store key value;
  if rev <? 0 then Done (set_error out INTERNAL "store write failed", store)
  else Done (set_kv out (default KV_default kv), store).

Definition ApplyDelete (store : Store DB) (key : string) (out : ApplyResult)
    : outcome (ApplyResult * Store DB) :=
  '(rev, kv, store) ← Delete store key;
  if rev <? 0 then Done (set_error out INTERNAL "store write failed", store)
  else Done (set_kv out (default KV_default kv), store).

Definition ApplyPublish (store : Store DB) (key value : string) (out : ApplyResult)
    : outcome (ApplyResult * Store DB) :=
  '(rev, kv, store) ← Publish store key value;
  if rev <? 0 then Done (set_error out INTERNAL "store publish failed", store)
  else Done (set_kv out (default KV_default kv), store).

Definition ApplyRollback (store : Store DB) (key : string) (target_version : Z)
    (out : ApplyResult) : outcome (ApplyResult * Store DB) :=
  '(rev, kv, ok, store) ← Rollback store key target_version;
  if negb ok then Done (set_error out VERSION_NOT_FOUND "target version not found", store)
  else if rev <? 0 then Done (set_error out INTERNAL "store rollback failed", store)
  else Done (set_kv out (default KV_default kv), store).

Definition ApplyCas (store : Store DB) (key expect value : string) (out : ApplyResult)
    : outcome (ApplyResult * Store DB) :=
  '(rev, kv, code, store) ← CompareAndSwap store key expect value;
  if rev <? 0 then
    if decide (code = CAS_FAILED)
    then Done (set_error out CAS_FAILED "expect value mismatch", store)
    else Done (set_error out INTERNAL "store cas failed", store)
  else Done (set_kv out (default KV_default kv), store).

Definition ApplyBatch (store : Store DB) (puts : list (string * string))
    (out : ApplyResult) : outcome (ApplyResult * Store DB) :=
  '(rev, kvs, store) ← BatchPut store puts;
  if rev <? 0 then Done (set_error out INTERNAL "store batch write failed", store)
  else
    let new_kvs := default [] kvs in
    Done (mkApplyResult OK (ar_message out) (ar_kv out) new_kvs (ar_leader_id out)
            (ar_events out ++ (MakeEvent <$> new_kvs)), store).

Definition ApplyCmdToStore (store : Store DB) (cmd : RaftCmd) (out : ApplyResult)
    : outcome (ApplyResult * Store DB) :=
  match cmd with
  | CmdPut key value => ApplyPut store key value out
  | CmdDelete key => ApplyDelete store key out
  | CmdBatchPut puts => ApplyBatch store puts out
  | CmdCas key expect value => ApplyCas store key expect value out
  | CmdPublish key value => ApplyPublish store key value out
  | CmdRollback key target_version => ApplyRollback store key target_version out
  | CmdNotSet => Done (set_error out INTERNAL "unknown raft cmd", store)
  end.
End ops.

(** * A command issues at most one write batch *)

Section atomic.
Context `{KVCodec} {DB : Type} `{LevelDB DB}.

(** [d'] is [d] or what one [DB::Write] made of it. *)
Definition one_write (d d' : DB) : Prop := d' = d \/ exists b, d' = snd (db_write d b).

Lemma one_write_db_write d b e d' : db_write d b = (e, d') -> one_write d d'.
Proof. intros E. right. exists b. by rewrite E. Qed.

Ltac one_write_cases :=
  repeat (case_match; simplify_eq/=);
  try (left; reflexivity); try (by eapply one_write_db_write).

Lemma PutLocked_one_write d k v rev out d' :
  PutLocked d k v = (rev, out, d') -> one_write d d'.
Proof. unfold PutLocked. intros. one_write_cases. Qed.

Lemma DeleteLocked_one_write d k rev out d' :
  DeleteLocked d k = (rev, out, d') -> one_write d d'.
Proof. unfold DeleteLocked, NextRevisionLocked. intros. simplify_eq/=. one_write_cases. Qed.

Lemma PublishLocked_one_write d k v rev out d' :
  PublishLocked d k v = (rev, out, d') -> one_write d d'.
Proof. unfold PublishLocked. intros. one_write_cases. Qed.

Lemma RollbackLocked_one_write d k t rev out ok d' :
  RollbackLocked d k t = (rev, out, ok, d') -> one_write d d'.
Proof.
  unfold RollbackLocked. intros. destruct (fst _) as [x|]; [|simplify_eq; by left].
  destruct (PublishLocked d k (kv_value x)) as [[r o] d''] eqn:E. simplify_eq.
  by eapply PublishLocked_one_write.
Qed.

Lemma CompareAndSwapLocked_one_write d k e v rev out code d' :
  CompareAndSwapLocked d k e v = (rev, out, code, d') -> one_write d d'.
Proof.
  unfold CompareAndSwapLocked. intros Hc.
  destruct (negb _); [simplify_eq; by left|].
  destruct (NextRevisionLocked d []) as [r b]. destruct (r <? 0); [simplify_eq; by left|].
  destruct (db_write d _) as [[err|] d''] eqn:E; simplify_eq; by eapply one_write_db_write.
Qed.

Lemma BatchPutLocked_one_write d kvs rev out d' :
  BatchPutLocked d kvs = (rev, out, d') -> one_write d d'.
Proof.
  unfold BatchPutLocked. intros Hc. destruct kvs as [|e kvs]; [simplify_eq; by left|].
  destruct (batch_put_loop d (e :: kvs) _ _ _) as [[r b] l].
  destruct (db_write d _) as [[err|] d''] eqn:E; simplify_eq; by eapply one_write_db_write.
Qed.

Lemma ApplyCmdToStore_one_write d dir cmd out r st' :
  ApplyCmdToStore (mkStore (Some d) dir) cmd out = Done (r, st') ->
  exists d', st' = mkStore (Some d') dir /\ one_write d d'.
Proof.
  destruct cmd as [k v|k|k e v|k v|k t|puts|]; simpl.
  - unfold ApplyPut, Put, with_db. simpl.
    destruct (PutLocked d k v) as [[rev o] d'] eqn:E. apply PutLocked_one_write in E.
    simpl. case_match; intros; simplify_eq; eauto.
  - unfold ApplyDelete, Delete, with_db. simpl.
    destruct (DeleteLocked d k) as [[rev o] d'] eqn:E. apply DeleteLocked_one_write in E.
    simpl. case_match; intros; simplify_eq; eauto.
  - unfold ApplyCas, CompareAndSwap, with_db. simpl.
    destruct (CompareAndSwapLocked d k e v) as [[[rev o] c] d'] eqn:E.
    apply CompareAndSwapLocked_one_write in E.
    simpl. repeat case_match; intros; simplify_eq; eauto.
  - unfold ApplyPublish, Publish, with_db. simpl.
    destruct (PublishLocked d k v) as [[rev o] d'] eqn:E. apply PublishLocked_one_write in E.
    simpl. case_match; intros; simplify_eq; eauto.
  - unfold ApplyRollback, Rollback, with_db. simpl.
    destruct (RollbackLocked d k t) as [[[rev o] ok] d'] eqn:E.
    apply RollbackLocked_one_write in E.
    simpl. repeat case_match; intros; simplify_eq; eauto.
  - unfold ApplyBatch, BatchPut, with_db. simpl.
    destruct (BatchPutLocked d puts) as [[rev o] d'] eqn:E. apply BatchPutLocked_one_write in E.
    simpl. case_match; intros; simplify_eq; eauto.
  - intros. simplify_eq. exists d. split; [done|by left].
Qed.
End atomic.

(** * Its specification *)

Definition ok_result (kv : KV) : ApplyResult := set_kv ApplyResult_default kv.
Definition error_result (code : Code) (message : string) : ApplyResult :=
  set_error ApplyResult_default code message.

Definition spec_apply (a : Mvcc) (cmd : RaftCmd) : Mvcc * ApplyResult :=
  match cmd with
  | CmdPut key value =>
      (spec_put a key value, ok_result (spec_record a key value false))
  | CmdDelete key => (spec_delete a key, ok_result (spec_record a key "" true))
  | CmdPublish key value =>
      (spec_publish a key value, ok_result (spec_record a key value false))
  | CmdRollback key target =>
      match spec_get_config a key target with
      | Some t => (spec_publish a key (kv_value t),
                   ok_result (spec_record a key (kv_value t) false))
      | None => (a, error_result VERSION_NOT_FOUND "target version not found")
      end
  | CmdCas key expect value =>
      if spec_cas_matches a key expect
      then (spec_put a key value, ok_result (spec_record a key value false))
      else (a, error_result CAS_FAILED "expect value mismatch")
  | CmdBatchPut puts =>
      let kvs := spec_batch_records a a puts in
      (spec_batch a a puts, mkApplyResult OK "" KV_default kvs "" (MakeEvent <$> kvs))
  | CmdNotSet => (a, error_result INTERNAL "unknown raft cmd")
  end.

(** The number of revisions a command may use. *)
Definition cmd_size (cmd : RaftCmd) : Z :=
  match cmd with CmdBatchPut puts => Z.of_nat (length puts) | _ => 1 end.

(** The strings of a command that came through the protobuf parser are valid
    UTF-8, and its numbers are [int64]. *)
Definition cmd_valid `{KVCodec} (cmd : RaftCmd) : Prop :=
  match cmd with
  | CmdPut key value | CmdPublish key value | CmdCas key _ value =>
      utf8_valid key = true /\ utf8_valid value = true
  | CmdDelete key => utf8_valid key = true
  | CmdRollback key target => utf8_valid key = true /\ in_int64 target
  | CmdBatchPut puts =>
      Forall (fun e => utf8_valid e.1 = true /\ utf8_valid e.2 = true) puts
  | CmdNotSet => True
  end.

#[export] Instance cmd_valid_dec `{KVCodec} cmd : Decision (cmd_valid cmd).
Proof. destruct cmd; simpl; apply _. Defined.

Definition cmd_fits (a : Mvcc) (cmd : RaftCmd) : Prop := m_rev a + cmd_size cmd <= int64_max.

(** * Facts about the specification *)

Section spec.
Context `{KVCodecSpec}.

Lemma spec_apply_wf a cmd :
  wf a -> cmd_valid cmd -> cmd_fits a cmd -> wf (fst (spec_apply a cmd)).
Proof.
  unfold cmd_fits. intros Hw Hv Hf. destruct cmd as [k v|k|k e v|k v|k t|puts|]; simpl in *.
  - apply spec_put_wf; try tauto; lia.
  - apply spec_record_wf; try done; [lia|apply utf8_valid_empty].
  - destruct (spec_cas_matches a k e); [apply spec_put_wf; try tauto; lia|done].
  - apply spec_publish_wf; try tauto; lia.
  - destruct (spec_get_config a k t) as [x|] eqn:E; [|done]. simpl.
    apply spec_publish_wf; try tauto; [lia|]. by eapply spec_get_config_utf8.
  - by apply spec_batch_wf.
  - done.
Qed.

Lemma spec_apply_rev a cmd :
  m_rev a <= m_rev (fst (spec_apply a cmd)) <= m_rev a + cmd_size cmd.
Proof.
  destruct cmd; simpl; try lia.
  - destruct (spec_cas_matches _ _ _); simpl; lia.
  - destruct (spec_get_config _ _ _); simpl; lia.
  - rewrite spec_batch_rev. lia.
Qed.

Lemma spec_batch_fields a0 a kvs :
  m_compact (spec_batch a0 a kvs) = m_compact a /\ m_cfg (spec_batch a0 a kvs) = m_cfg a.
Proof. revert a. induction kvs as [|e kvs IH]; intros a; [done|]. simpl. exact (IH _). Qed.

(** Commands do not reclaim history. *)
Lemma spec_apply_compact a cmd : m_compact (fst (spec_apply a cmd)) = m_compact a.
Proof.
  destruct cmd; simpl; try done.
  - by destruct (spec_cas_matches _ _ _).
  - by destruct (spec_get_config _ _ _).
  - apply spec_batch_fields.
Qed.

(** The current records after a command are old ones or have new revisions. *)
Lemma spec_batch_main_new a0 a kvs k kv :
  m_main (spec_batch a0 a kvs) !! k = Some kv -> m_main a !! k = Some kv \/ m_rev a < kv_revision kv.
Proof.
  revert a. induction kvs as [|e kvs IH]; intros a; [by left|]. simpl.
  intros [Hk|Hk]%IH; simpl in Hk; [|right; lia].
  apply lookup_insert_Some in Hk as [[_ <-]|[_ Hk]]; [right; simpl; lia|by left].
Qed.

Lemma spec_apply_main_new a cmd k kv :
  m_main (fst (spec_apply a cmd)) !! k = Some kv ->
  m_main a !! k = Some kv \/ m_rev a < kv_revision kv.
Proof.
  destruct cmd as [key v|key|key e v|key v|key t|puts|]; simpl;
    [|..|by apply spec_batch_main_new|by left].
  all: try (destruct (spec_cas_matches a key e); simpl; [|by left]).
  all: try (destruct (spec_get_config a key t); simpl; [|by left]).
  all: intros [[_ <-]|[_ Hk]]%lookup_insert_Some; [right; simpl; lia|by left].
Qed.

(** No key is forgotten, and versions do not go back. *)
Definition has_version (a : Mvcc) (k : string) (v : Z) : Prop :=
  exists cur, m_main a !! k = Some cur /\ v <= kv_version cur.

Lemma has_version_next a k v : has_version a k v -> v < spec_version a k.
Proof. intros (cur & E & ?). unfold spec_version. rewrite E. lia. Qed.

Lemma has_version_commit a kv k v :
  has_version a k v -> (kv_key kv = k -> v <= kv_version kv) -> has_version (spec_commit a kv) k v.
Proof.
  intros (cur & E & Hv) Hk. unfold has_version. simpl. destruct (decide (kv_key kv = k)) as [<-|].
  - rewrite lookup_insert_eq. eexists. split; [done|by apply Hk].
  - rewrite lookup_insert_ne by done. by exists cur.
Qed.

Lemma has_version_record a k' x dl k v :
  has_version a k v -> has_version (spec_commit a (spec_record a k' x dl)) k v.
Proof.
  intros Hv. apply has_version_commit; [done|]. simpl. intros ->.
  apply has_version_next in Hv. lia.
Qed.

Lemma has_version_batch a0 a kvs k v :
  has_version a0 k v -> has_version a k v -> has_version (spec_batch a0 a kvs) k v.
Proof.
  intros H0'. revert a. induction kvs as [|e kvs IH]; intros a Ha; [done|]. simpl. apply IH.
  apply has_version_commit; [done|]. simpl. intros ->. apply has_version_next in H0'. lia.
Qed.

Lemma spec_apply_version a cmd k v :
  has_version a k v -> has_version (fst (spec_apply a cmd)) k v.
Proof.
  intros Hv. destruct cmd as [key x|key|key e x|key x|key t|puts|]; simpl;
    [..|by apply has_version_batch|done].
  all: try (destruct (spec_cas_matches a key e); simpl; [|done]).
  all: try (destruct (spec_get_config a key t); simpl; [|done]).
  all: by apply has_version_record.
Qed.

(** What the index holds under a version that has been given out stays. *)
Lemma spec_apply_cfg a cmd k v :
  has_version a k v -> m_cfg (fst (spec_apply a cmd)) !! (k, v) = m_cfg a !! (k, v).
Proof.
  intros Hv%has_version_next. destruct cmd as [key x|key|key e x|key x|key t|puts|]; simpl; try done.
  - by destruct (spec_cas_matches a key e).
  - apply lookup_insert_ne. intros [= -> <-]. lia.
  - destruct (spec_get_config a key t); simpl; [|done].
    apply lookup_insert_ne. intros [= -> <-]. lia.
  - by rewrite (proj2 (spec_batch_fields _ _ _)).
Qed.

(** A step of the store: a command, or the removal of records none of which is
    current, which is what a compaction pass does. *)
Inductive store_step : Mvcc -> Mvcc -> Prop :=
| StepApply a cmd : cmd_valid cmd -> cmd_fits a cmd ->
    store_step a (fst (spec_apply a cmd))
| StepReclaim a v : reclaimable v a -> store_step a (spec_reclaim v a).

Lemma step_compact a keep : wf a -> store_step a (spec_compact keep a).
Proof. intros Hw. by apply StepReclaim, victims_reclaimable. Qed.

Lemma store_step_wf a b : store_step a b -> wf a -> wf b.
Proof. destruct 1; intros Hw; [by apply spec_apply_wf|by apply spec_reclaim_wf]. Qed.

Lemma store_steps_wf a b : rtc store_step a b -> wf a -> wf b.
Proof. induction 1; intros; [done|]. eauto using store_step_wf. Qed.

Lemma store_step_mono a b :
  store_step a b -> m_rev a <= m_rev b /\ m_compact a <= m_compact b.
Proof.
  destruct 1 as [a cmd|a v].
  - rewrite spec_apply_compact. pose proof (spec_apply_rev a cmd). lia.
  - simpl. split; [lia|]. exact (proj1 (max_rev_spec _ _)).
Qed.

Lemma store_steps_mono a b :
  rtc store_step a b -> m_rev a <= m_rev b /\ m_compact a <= m_compact b.
Proof.
  induction 1 as [|a b c Hs _ IH]; [lia|]. apply store_step_mono in Hs. lia.
Qed.

(** After more steps the current record of a key is the same or a newer one. *)
Definition not_older (a b : Mvcc) : Prop := forall k kv, m_main a !! k = Some kv ->
  exists kv', m_main b !! k = Some kv' /\ (kv' = kv \/ kv_revision kv < kv_revision kv').

Lemma store_step_not_older a b : wf a -> store_step a b -> not_older a b.
Proof.
  intros Hw. destruct 1 as [a cmd|a v]; intros k kv E; [|by exists kv; auto].
  destruct (spec_apply_version a cmd k (kv_version kv)) as (kv' & E' & _); [by exists kv|].
  exists kv'. split; [done|]. apply spec_apply_main_new in E' as E2.
  destruct E2 as [E2|E2]; [left; congruence|right].
  destruct (wf_main _ Hw _ _ E) as [_ Hh]. destruct (wf_hist _ Hw _ _ Hh) as (_ & ? & _). lia.
Qed.

Lemma store_steps_not_older a b : rtc store_step a b -> wf a -> not_older a b.
Proof.
  induction 1 as [a|a b c Hs _ IH]; intros Hw k kv E; [by eauto|].
  destruct (store_step_not_older _ _ Hw Hs k kv E) as (kv1 & E1 & H1').
  destruct (IH (store_step_wf _ _ Hs Hw) k kv1 E1) as (kv2 & E2 & H2').
  exists kv2. split; [done|]. destruct H1' as [->|?], H2' as [->|?]; auto; right; lia.
Qed.

(** A published record stays in the index until it is reclaimed, and nothing else
    takes its place. *)
Definition published (a : Mvcc) (kv : KV) : Prop :=
  has_version a (kv_key kv) (kv_version kv) /\
  (m_cfg a !! (kv_key kv, kv_version kv) = Some kv \/ m_cfg a !! (kv_key kv, kv_version kv) = None).

Lemma store_steps_published a b kv : rtc store_step a b -> published a kv -> published b kv.
Proof.
  induction 1 as [|a b c Hs _ IH]; [done|]. intros [Hv Hc]. apply IH.
  destruct Hs as [a cmd|a v].
  - split; [by apply spec_apply_version|]. by rewrite spec_apply_cfg.
  - split; [done|]. simpl. rewrite map_lookup_filter.
    destruct Hc as [->| ->]; [|by right]. simpl. case_guard; [by left|by right].
Qed.

(** A record that is still in the history after more steps is the same one. *)
Lemma spec_batch_hist a0 a kvs r :
  r <= m_rev a -> m_hist (spec_batch a0 a kvs) !! r = m_hist a !! r.
Proof.
  revert a. induction kvs as [|e kvs IH]; intros a Hr; [done|]. simpl.
  rewrite IH by (simpl; lia). simpl. apply lookup_insert_ne. lia.
Qed.

Lemma spec_apply_hist a cmd r :
  r <= m_rev a -> m_hist (fst (spec_apply a cmd)) !! r = m_hist a !! r.
Proof.
  intros Hr. destruct cmd as [k v|k|k e v|k v|k t|puts|]; simpl;
    [|..|by apply spec_batch_hist|done].
  all: try (destruct (spec_cas_matches a k e); simpl).
  all: try (destruct (spec_get_config a k t); simpl).
  all: done || (apply lookup_insert_ne; lia).
Qed.
End spec.

(** * The code implements it *)

Section refine.
Context `{KVCodecSpec} {DB : Type} `{LevelDBSpec DB}.
Implicit Types (d : DB) (a : Mvcc).

(** The command is applied as specified, or the device refused the write and
    nothing changed. *)
Definition apply_result (d : DB) (dir : string) (a : Mvcc) (cmd : RaftCmd)
    (res : outcome (ApplyResult * Store DB)) : Prop :=
  exists r d', res = Done (r, mkStore (Some d') dir) /\
    (r = snd (spec_apply a cmd) /\ Rep d' (fst (spec_apply a cmd)) \/
     ar_code r = INTERNAL /\ ar_events r = [] /\ ~ accepts_writes d /\ Rep d' a).

Lemma rev_nonneg a : wf a -> (m_rev a + 1 <? 0) = false.
Proof. intros Hw. destruct (wf_bounds _ Hw). apply Z.ltb_ge. lia. Qed.

(** The three handlers of a single write share this shape. *)
Lemma apply_write d dir a kv a' msg (res : Z * option KV * DB) :
  wf a -> kv_revision kv = m_rev a + 1 -> write_result d a kv a' res ->
  exists r d',
    (let '(rev, okv, d') := res in
     if rev <? 0
     then Done (set_error ApplyResult_default INTERNAL msg, mkStore (Some d') dir)
     else Done (set_kv ApplyResult_default (default KV_default okv), mkStore (Some d') dir))
    = Done (r, mkStore (Some d') dir) /\
    (r = ok_result kv /\ Rep d' a' \/
     ar_code r = INTERNAL /\ ar_events r = [] /\ ~ accepts_writes d /\ Rep d' a).
Proof.
  intros Hw Hr. destruct res as [[rev [kv'|]] d']; simpl.
  - intros (-> & -> & Hd). rewrite Hr, rev_nonneg by done. eauto 10.
  - intros (-> & Ha & Hd). simpl. do 2 eexists. split; [done|]. auto.
Qed.

Lemma ApplyCmdToStore_refines d dir a cmd :
  Rep d a -> cmd_valid cmd -> cmd_fits a cmd ->
  apply_result d dir a cmd
    (ApplyCmdToStore (mkStore (Some d) dir) cmd ApplyResult_default).
Proof.
  intros Hd Hv Hf. pose proof (rep_wf _ _ Hd) as Hw. unfold cmd_fits in Hf.
  unfold apply_result. destruct cmd as [k v|k|k e v|k v|k t|puts|]; simpl in *.
  - destruct Hv as [Hk Hv]. pose proof (PutLocked_refines d a k v Hd ltac:(lia) Hk Hv) as Hr.
    unfold ApplyPut, Put, with_db. simpl. apply apply_write with (dir := dir)
      (msg := "store write failed") in Hr; [|done|done].
    by destruct (PutLocked d k v) as [[rev okv] d'].
  - pose proof (DeleteLocked_refines d a k Hd ltac:(lia) Hv) as Hr.
    unfold ApplyDelete, Delete, with_db. simpl. apply apply_write with (dir := dir)
      (msg := "store write failed") in Hr; [|done|done].
    by destruct (DeleteLocked d k) as [[rev okv] d'].
  - destruct Hv as [Hk Hv].
    pose proof (CompareAndSwapLocked_refines d a k e v Hd ltac:(lia) Hk Hv) as Hr.
    unfold ApplyCas, CompareAndSwap, with_db, cas_result in *. simpl.
    destruct (spec_cas_matches a k e).
    + destruct (CompareAndSwapLocked d k e v) as [[[rev [kv|]] code] d'].
      * destruct Hr as (-> & -> & -> & Hd'). simpl. rewrite rev_nonneg by done. eauto 10.
      * destruct Hr as (-> & -> & Ha & Hd'). simpl. do 2 eexists. split; [done|]. auto.
    + rewrite Hr. simpl. eauto 10.
  - destruct Hv as [Hk Hv].
    pose proof (PublishLocked_refines d a k v Hd ltac:(lia) Hk Hv) as Hr.
    unfold ApplyPublish, Publish, with_db. simpl. apply apply_write with (dir := dir)
      (msg := "store publish failed") in Hr; [|done|done].
    by destruct (PublishLocked d k v) as [[rev okv] d'].
  - destruct Hv as [Hk Ht].
    pose proof (RollbackLocked_refines d a k t Hd ltac:(lia) Hk Ht) as Hr.
    unfold ApplyRollback, Rollback, with_db, rollback_result in *. simpl.
    destruct (spec_get_config a k t) as [x|]; [|rewrite Hr; simpl; eauto 10].
    destruct Hr as (rev & out & d' & -> & Hr). simpl.
    by apply apply_write with (dir := dir) (msg := "store rollback failed") in Hr.
  - pose proof (BatchPutLocked_refines d a puts Hd Hf Hv) as Hr.
    unfold ApplyBatch, BatchPut, with_db, batch_result in *. simpl.
    destruct (BatchPutLocked d puts) as [[rev [kvs|]] d'].
    + destruct Hr as (-> & -> & Hd'). simpl. eauto 10.
    + destruct Hr as (Hd' & [[-> ->]|[-> Ha]]); simpl; [eauto 10|].
      do 2 eexists. split; [done|]. auto.
  - eauto 10.
Qed.
End refine.
