(* ===== verification/StoreRun.v ===== *)
(** The running store: commands, and compaction passes that run beside them.
    The pass of src/src/store/store.cpp holds the lock in shared mode from the
    creation of its iterator to its write, so commands come in between; loading a
    snapshot, opening and closing take it exclusively and do not. *)
From S2P Require Import Prelude CxxStd StoreKey Proto LevelDB Store StoreSpec StoreRepr.
From S2P Require Import StoreRefine StoreScan StoreCompact StoreOps.

(** * Commands between two points of a pass *)

Section spec.
Context `{KVCodecSpec}.
Implicit Types a b : Mvcc.

Inductive apply_step : Mvcc -> Mvcc -> Prop :=
| ApplyStep a cmd : cmd_valid cmd -> cmd_fits a cmd ->
    apply_step a (fst (spec_apply a cmd)).

Lemma apply_step_store a b : apply_step a b -> store_step a b.
Proof. destruct 1. by constructor. Qed.

Lemma apply_steps_store a b : rtc apply_step a b -> rtc store_step a b.
Proof. induction 1; [done|]. eapply rtc_l; [by apply apply_step_store|done]. Qed.

Lemma apply_steps_compact a b : rtc apply_step a b -> m_compact b = m_compact a.
Proof. induction 1 as [|a b c [] _ IH]; [done|]. by rewrite IH, spec_apply_compact. Qed.

(** What may be removed stays so while commands are applied. *)
Lemma reclaimable_apply v a cmd :
  wf a -> reclaimable v a -> reclaimable v (fst (spec_apply a cmd)).
Proof.
  intros Hw [Hv Hm]. assert (forall r kv, v !! r = Some kv -> r <= m_rev a) as Hr.
  { intros r kv E. eapply lookup_weaken in E; [|exact Hv]. destruct (wf_hist _ Hw _ _ E) as (_ & ? & _). lia. }
  split.
  - apply map_subseteq_spec. intros r kv E. rewrite spec_apply_hist by eauto.
    by eapply lookup_weaken.
  - intros k kv [E|E]%spec_apply_main_new; [by eapply Hm|].
    destruct (v !! kv_revision kv) eqn:Ev; [|done]. apply Hr in Ev. lia.
Qed.

Lemma reclaimable_apply_steps v a b :
  rtc apply_step a b -> wf a -> reclaimable v a -> reclaimable v b.
Proof.
  induction 1 as [|a b c Hs _ IH]; [done|]. intros Hw Hv. destruct Hs.
  apply IH; [by apply spec_apply_wf|by apply reclaimable_apply].
Qed.

(** * The abstract machine *)

(** A state, and the state the iterator of the pass under way has seen. *)
Inductive mvcc_step : Mvcc * option Mvcc -> Mvcc * option Mvcc -> Prop :=
| MvccApply a it cmd : cmd_valid cmd -> cmd_fits a cmd ->
    mvcc_step (a, it) (fst (spec_apply a cmd), it)
| MvccCompactBegin a : mvcc_step (a, None) (a, Some a)
| MvccCompactEnd a a0 keep :
    mvcc_step (a, Some a0)
      (spec_reclaim (victims (Z.max 1 keep) (m_hist a0)) a, None)
| MvccCompactLost a a0 : mvcc_step (a, Some a0) (a, None).

(** Only commands separate the two states. *)
Definition under_way (s : Mvcc * option Mvcc) : Prop :=
  wf s.1 /\ match s.2 with None => True | Some a0 => wf a0 /\ rtc apply_step a0 s.1 end.

Lemma mvcc_step_under_way s s' : mvcc_step s s' -> under_way s -> under_way s'.
Proof.
  destruct 1 as [a it cmd Hv Hf|a|a a0 keep|a a0]; intros [Hw Hi]; simpl in *.
  - split; [by apply spec_apply_wf|]. destruct it as [a0|]; [|done].
    destruct Hi as [? Hi]. split; [done|]. simpl. eapply rtc_r; [exact Hi|by constructor].
  - by split.
  - split; [|done]. destruct Hi as [Hw0 Hi].
    apply spec_reclaim_wf, (reclaimable_apply_steps _ a0); try done.
    by apply victims_reclaimable.
  - by split.
Qed.

Lemma mvcc_steps_under_way s s' : rtc mvcc_step s s' -> under_way s -> under_way s'.
Proof. induction 1; eauto using mvcc_step_under_way. Qed.

Lemma mvcc_step_store s s' : mvcc_step s s' -> under_way s -> rtc store_step s.1 s'.1.
Proof.
  destruct 1 as [a it cmd Hv Hf|a|a a0 keep|a a0]; intros [Hw Hi]; simpl in *; try done.
  - by apply rtc_once, StepApply.
  - destruct Hi as [Hw0 Hi]. apply rtc_once, StepReclaim.
    apply (reclaimable_apply_steps _ a0); try done.
    by apply victims_reclaimable.
Qed.

Lemma mvcc_steps_store s s' : rtc mvcc_step s s' -> under_way s -> rtc store_step s.1 s'.1.
Proof.
  induction 1 as [|s s1 s2 Hs _ IH]; [done|]. intros Hu.
  etrans; [by eapply mvcc_step_store|]. by eapply IH, mvcc_step_under_way.
Qed.
End spec.

(** * The code *)

Section run.
Context `{KVCodecSpec} {DB : Type} `{LevelDBSpec DB}.
Implicit Types (d : DB) (a : Mvcc) (dir : string).

(** A pass whose iterator was created before the commands that lead to [a]. *)
Lemma CompactionLocked_during d_it a0 d a keep :
  Rep d_it a0 -> Rep d a -> rtc apply_step a0 a ->
  compaction_result d a0 a keep (CompactionLocked d_it d keep).
Proof.
  intros Hd0 Hd Hs. apply CompactionLocked_beside; [done..|].
  pose proof (rep_wf _ _ Hd0). eapply reclaimable_apply_steps; [done..|].
  by apply victims_reclaimable.
Qed.

(** A step of the running store: a command, or the begin or the end of a pass of
    the compaction thread, of which there is one at a time. *)
Inductive db_step : DB * option DB -> DB * option DB -> Prop :=
| DbApply d it dir cmd r d' :
    cmd_valid cmd -> CurrentRevisionLocked d + cmd_size cmd <= int64_max ->
    ApplyCmdToStore (mkStore (Some d) dir) cmd ApplyResult_default =
      Done (r, mkStore (Some d') dir) ->
    db_step (d, it) (d', it)
| DbCompactBegin d : db_step (d, None) (d, Some d)
| DbCompactEnd d d_it keep removed d' :
    CompactionLocked d_it d keep = Done (removed, d') -> db_step (d, Some d_it) (d', None).

Definition iter_rep (it : option DB) (ait : option Mvcc) : Prop := option_Forall2 Rep it ait.

Lemma db_step_simulated s s' a ait :
  Rep s.1 a -> iter_rep s.2 ait -> under_way (a, ait) -> db_step s s' ->
  exists a' ait', rtc mvcc_step (a, ait) (a', ait') /\ Rep s'.1 a' /\ iter_rep s'.2 ait'.
Proof.
  intros Hd Hi Hu Hs. destruct Hs as [d it dir cmd r d' Hv Hf E|d|d d_it keep removed d' E];
    simpl in *.
  - rewrite (CurrentRevisionLocked_rep _ _ Hd) in Hf.
    destruct (ApplyCmdToStore_refines d dir a cmd Hd Hv Hf) as (r' & d'' & E' & Hr).
    rewrite E' in E. simplify_eq. destruct Hr as [[_ Hr]|(_ & _ & _ & Hr)]; [|by exists a, ait].
    exists (fst (spec_apply a cmd)), ait. split; [|done]. by apply rtc_once, MvccApply.
  - destruct ait as [?|]; [by inversion Hi|]. exists a, (Some a).
    split_and!; [apply rtc_once, MvccCompactBegin|done|by constructor].
  - destruct ait as [a0|]; [|by inversion Hi]. inversion Hi as [? ? Hd0|]; subst.
    destruct Hu as [_ [_ Hu]].
    destruct (CompactionLocked_during d_it a0 d a keep Hd0 Hd Hu) as (n & d'' & E' & _ & Hr).
    rewrite E' in E. simplify_eq. destruct Hr as [Hr|[_ Hr]].
    + eexists _, None. split_and!; [by apply rtc_once, MvccCompactEnd|done|constructor].
    + exists a, None. split_and!; [by eapply rtc_once, MvccCompactLost|done|constructor].
Qed.

Lemma db_steps_simulated s s' a ait :
  Rep s.1 a -> iter_rep s.2 ait -> under_way (a, ait) -> rtc db_step s s' ->
  exists a' ait', rtc mvcc_step (a, ait) (a', ait') /\ Rep s'.1 a' /\ iter_rep s'.2 ait'.
Proof.
  intros Hd Hi Hu Hs. revert a ait Hd Hi Hu.
  induction Hs as [s|s s1 s2 H1' _ IH]; intros a ait Hd Hi Hu; [by exists a, ait|].
  destruct (db_step_simulated _ _ _ _ Hd Hi Hu H1') as (a1 & ait1 & Hs1 & Hd1 & Hi1).
  destruct (IH a1 ait1 Hd1 Hi1) as (a2 & ait2 & Hs2 & Hd2).
  { by eapply mvcc_steps_under_way. }
  exists a2, ait2. split; [by etrans|done].
Qed.
End run.
