(* ===== verification/StoreEvents.v ===== *)
(** The events a command reports are the changes a later replay finds in the
    history: broadcast and replay speak of the same events in the same order. *)
From S2P Require Import Prelude CxxStd StoreKey Proto LevelDB Store StoreSpec StoreRepr.
From S2P Require Import StoreRefine StoreScan StoreOps.

Lemma MakeEvent_spec kv : MakeEvent kv = spec_event kv.
Proof. done. Qed.

Definition rev_lt (x y : KV) : Prop := kv_revision x < kv_revision y.

(** The changes above [from] are known from their membership. *)
Lemma changes_intro h from to l :
  StronglySorted rev_lt l ->
  (forall r kv, from < r <= to -> h !! r = Some kv <-> kv ∈ l /\ kv_revision kv = r) ->
  (forall kv, kv ∈ l -> from < kv_revision kv <= to) ->
  changes h from to "" = l.
Proof.
  intros Hs Hh Hl. unfold changes.
  assert (filter (fun e => from < e.1 <= to /\ key_matches "" e.2) (sorted_entries h) =
    (fun kv => (kv_revision kv, kv)) <$> l) as ->.
  { apply zlt_fst_unique.
    - apply StronglySorted_filter, sorted_entries_sorted.
    - by apply (StronglySorted_map_in rev_lt).
    - intros [r kv]. rewrite list_elem_of_filter, elem_of_sorted_entries, list_elem_of_fmap.
      simpl. split.
      + intros [[Hr _] Hin]. apply Hh in Hin as [Hin <-]; [|done]. by exists kv.
      + intros (kv' & [= -> ->] & Hin). pose proof (Hl _ Hin) as Hr.
        split; [by split; [|left]|]. by apply Hh. }
  rewrite <-list_fmap_compose. by rewrite list_fmap_id.
Qed.

Lemma changes_key h from to key :
  changes h from to key = filter (key_matches key) (changes h from to "").
Proof.
  unfold changes. induction (sorted_entries h) as [|[r kv] l IH]; [done|].
  rewrite !filter_cons. simpl fst. simpl snd.
  destruct (decide (from < r <= to)) as [Hr|Hr].
  - rewrite (decide_True (P := _ /\ key_matches "" _)) by (by split; [|left]).
    rewrite fmap_cons, filter_cons, <-IH.
    destruct (decide (key_matches key kv)).
    + rewrite decide_True by (by split). simpl. by rewrite decide_True.
    + rewrite decide_False by tauto. simpl. by rewrite decide_False.
  - rewrite !decide_False by tauto. done.
Qed.

Lemma changes_split h from mid to :
  from <= mid <= to ->
  changes h from to "" = changes h from mid "" ++ changes h mid to "".
Proof.
  intros Hm. unfold changes. rewrite <-fmap_app. f_equal.
  pose proof (sorted_entries_sorted h) as Hs.
  induction Hs as [|[r kv] l Hs IH Hr]; [done|].
  rewrite !filter_cons. simpl fst. simpl snd.
  assert (key_matches "" kv) as Hk by by left.
  destruct (decide (from < r <= mid)).
  - rewrite !decide_True by (split; [lia|done]). rewrite (decide_False (P := mid < r <= to /\ _)) by lia.
    simpl. by rewrite IH.
  - rewrite (decide_False (P := from < r <= mid /\ _)) by tauto.
    destruct (decide (mid < r <= to)).
    + rewrite !decide_True by (split; [lia|done]). rewrite IH.
      rewrite (filter_none _ l) at 1.
      * rewrite (filter_none (fun e => from < e.1 <= mid /\ _)); [done|].
        rewrite Forall_forall in Hr. intros x Hx. specialize (Hr _ Hx).
        unfold zlt_fst in Hr. simpl in *. lia.
      * rewrite Forall_forall in Hr. intros x Hx. specialize (Hr _ Hx).
        unfold zlt_fst in Hr. simpl in *. lia.
    + rewrite !decide_False by lia. apply IH.
Qed.

Lemma changes_sorted h from to key :
  (forall r kv, h !! r = Some kv -> kv_revision kv = r) ->
  StronglySorted rev_lt (changes h from to key).
Proof.
  intros Hh. unfold changes. apply (StronglySorted_map_in zlt_fst).
  - intros [r1 k1] [r2 k2] [_ H1]%list_elem_of_filter [_ H2]%list_elem_of_filter.
    rewrite elem_of_sorted_entries in H1, H2. unfold zlt_fst, rev_lt. simpl.
    by rewrite (Hh _ _ H1), (Hh _ _ H2).
  - apply StronglySorted_filter, sorted_entries_sorted.
Qed.

Lemma elem_of_changes h from to key kv :
  (forall r kv, h !! r = Some kv -> kv_revision kv = r) ->
  kv ∈ changes h from to key <->
  h !! kv_revision kv = Some kv /\ from < kv_revision kv <= to /\ key_matches key kv.
Proof.
  intros Hh. unfold changes. rewrite list_elem_of_fmap. split.
  - intros ([r kv'] & -> & [[Hr Hk] Hin]%list_elem_of_filter).
    apply elem_of_sorted_entries in Hin. simpl in *. by rewrite (Hh _ _ Hin).
  - intros (Hin & Hr & Hk). exists (kv_revision kv, kv). split; [done|].
    by rewrite list_elem_of_filter, elem_of_sorted_entries.
Qed.

(** Changes of an interval in which two histories agree. *)
Lemma changes_agree h1 h2 from to key :
  (forall r, from < r <= to -> h1 !! r = h2 !! r) ->
  changes h1 from to key = changes h2 from to key.
Proof.
  intros Heq. unfold changes. f_equal. apply zlt_fst_unique.
  1,2: apply StronglySorted_filter, sorted_entries_sorted.
  intros [r kv]. rewrite !list_elem_of_filter, !elem_of_sorted_entries. simpl.
  split; intros [[Hr Hk] Hin]; (split; [done|]); [rewrite <-Heq|rewrite Heq]; done.
Qed.

Section events.
Context `{KVCodecSpec}.

Lemma wf_hist_rev a : wf a -> forall r kv, m_hist a !! r = Some kv -> kv_revision kv = r.
Proof. intros Hw r kv Hr. by destruct (wf_hist _ Hw _ _ Hr). Qed.

(** Above the reclaimed revision no change is missing. *)
Lemma changes_revs a from to :
  wf a -> m_compact a <= from <= to -> to <= m_rev a ->
  kv_revision <$> changes (m_hist a) from to "" = seqZ (from + 1) (to - from).
Proof.
  intros Hw Hf Ht. pose proof (wf_hist_rev a Hw) as Hh.
  apply (strictly_sorted_unique Z.lt); [lia|lia| |apply seqZ_strict|].
  - apply (StronglySorted_map_in rev_lt); [done|]. by apply changes_sorted.
  - intros r. rewrite list_elem_of_fmap, elem_of_seqZ. split.
    + intros (kv & -> & Hin). apply elem_of_changes in Hin as (_ & ? & _); [lia|done].
    + intros Hr. destruct (wf_holes a Hw r) as [kv Hkv]; [lia|]. exists kv.
      pose proof (Hh _ _ Hkv) as Hk. split; [done|]. apply elem_of_changes; [done|].
      rewrite Hk. split_and!; [done|lia|lia|by left].
Qed.

Lemma spec_commit_changes a kv :
  kv_revision kv = m_rev a + 1 ->
  changes (m_hist (spec_commit a kv)) (m_rev a) (m_rev a + 1) "" = [kv].
Proof.
  intros Hr. apply changes_intro.
  - repeat constructor.
  - intros r kv' Hb. assert (r = kv_revision kv) as -> by lia. simpl.
    rewrite lookup_insert_eq, list_elem_of_singleton.
    split; [by intros [= ->]|by intros [-> _]].
  - intros kv' ->%list_elem_of_singleton. lia.
Qed.

Lemma spec_batch_changes a0 a kvs :
  changes (m_hist (spec_batch a0 a kvs)) (m_rev a) (m_rev a + Z.of_nat (length kvs)) "" =
  spec_batch_records a0 a kvs.
Proof.
  revert a. induction kvs as [|e kvs IH]; intros a; simpl.
  { apply changes_empty. simpl. lia. }
  set (kv := spec_batch_record a0 a e). specialize (IH (spec_commit a kv)). simpl in IH.
  rewrite (changes_split _ _ (m_rev a + 1)) by lia.
  replace (m_rev a + Z.of_nat (S (length kvs))) with (m_rev a + 1 + Z.of_nat (length kvs)) by lia.
  rewrite IH.
  rewrite (changes_agree _ (m_hist (spec_commit a kv))).
  - by rewrite (spec_commit_changes a kv).
  - intros r Hr. apply spec_batch_hist. simpl. lia.
Qed.

Lemma spec_apply_events a cmd :
  ar_events (snd (spec_apply a cmd)) =
  spec_event <$> changes (m_hist (fst (spec_apply a cmd))) (m_rev a)
                   (m_rev (fst (spec_apply a cmd))) "".
Proof.
  assert (Hc : forall kv, kv_revision kv = m_rev a + 1 -> [MakeEvent kv] =
    spec_event <$> changes (m_hist (spec_commit a kv)) (m_rev a) (m_rev a + 1) "").
  { intros kv Hr. by rewrite spec_commit_changes. }
  assert (Hn : [] = spec_event <$> changes (m_hist a) (m_rev a) (m_rev a) "").
  { by rewrite changes_empty by lia. }
  destruct cmd as [k v|k|k e v|k v|k t|puts|]; simpl; try by apply Hc.
  - destruct (spec_cas_matches a k e); simpl; [by apply Hc|done].
  - destruct (spec_get_config a k t); simpl; [by apply Hc|done].
  - rewrite spec_batch_rev, spec_batch_changes. done.
  - done.
Qed.
End events.
