(* ===== verification/Demo.v ===== *)
(** Concrete stores for the witnesses: the in-memory engine and codec, with
    commands applied.  [run_rep] says that the engine then represents the state
    the specification gives, so the theorems can be applied there. *)
From S2P Require Import Prelude CxxStd StoreKey Proto LevelDB Store StoreSpec StoreRepr.
From S2P Require Import StoreRefine StoreScan StoreCompact StoreOps.

#[export] Existing Instances BitCodec.codec BitCodec.codec_spec MemDB.ops MemDB.spec
  MemDB.files MemDB.files_spec.

Lemma empty_rep : Rep MemDB.empty mvcc_empty.
Proof. split_and!; [done|apply repr_empty|apply wf_empty]. Qed.

(** An in-memory engine whose device answers no error accepts all writes, and
    goes on to do so. *)
Lemma mem_accepts (d : MemDB.t) : MemDB.write_error d = None -> accepts_writes d.
Proof. intros Hd b. simpl. by rewrite Hd. Qed.

Lemma mem_one_write (d d' : MemDB.t) :
  one_write d d' -> MemDB.write_error d = None -> MemDB.write_error d' = None.
Proof. intros [->|[b ->]] Hd; [done|]. simpl. by rewrite Hd. Qed.

(** The engine after a list of commands, and the specified state. *)
Fixpoint run (d : MemDB.t) (cmds : list RaftCmd) : MemDB.t :=
  match cmds with
  | [] => d
  | cmd :: cmds' =>
      match ApplyCmdToStore (mkStore (Some d) "data") cmd ApplyResult_default with
      | Done (_, mkStore (Some d') _) => run d' cmds'
      | _ => d
      end
  end.

Fixpoint spec_run (a : Mvcc) (cmds : list RaftCmd) : Mvcc :=
  match cmds with
  | [] => a
  | cmd :: cmds' => spec_run (fst (spec_apply a cmd)) cmds'
  end.

Fixpoint run_ok (a : Mvcc) (cmds : list RaftCmd) : bool :=
  match cmds with
  | [] => true
  | cmd :: cmds' =>
      bool_decide (cmd_valid cmd) && (m_rev a + cmd_size cmd <=? int64_max) &&
      run_ok (fst (spec_apply a cmd)) cmds'
  end.

Lemma run_rep d a cmds :
  MemDB.write_error d = None -> Rep d a -> run_ok a cmds = true ->
  Rep (run d cmds) (spec_run a cmds) /\ MemDB.write_error (run d cmds) = None.
Proof.
  revert d a. induction cmds as [|cmd cmds IH]; intros d a He Hd Hok; [done|].
  simpl in Hok. rewrite !andb_true_iff in Hok. destruct Hok as [[Hv Hf] Hok].
  apply bool_decide_eq_true in Hv. apply Z.leb_le in Hf.
  destruct (ApplyCmdToStore_refines d "data" a cmd Hd Hv Hf) as (r & d' & E & Hr).
  cbn [run]. rewrite E. destruct (ApplyCmdToStore_one_write _ _ _ _ _ _ E) as (d'' & E' & Hw).
  simplify_eq. destruct Hr as [[_ Hr]|(_ & _ & Ha & _)].
  - apply IH; [|done|done]. by eapply mem_one_write.
  - destruct Ha. by apply mem_accepts.
Qed.

Lemma run_empty_rep cmds :
  run_ok mvcc_empty cmds = true ->
  Rep (run MemDB.empty cmds) (spec_run mvcc_empty cmds) /\
  accepts_writes (run MemDB.empty cmds).
Proof.
  intros Hok. destruct (run_rep MemDB.empty mvcc_empty cmds eq_refl empty_rep Hok) as [Hr He].
  split; [done|by apply mem_accepts].
Qed.

(** The commands of the examples: two keys that share the prefix ["cfg/app/"],
    three published versions of one of them, a plain put and a deletion. *)
Definition demo_cmds : list RaftCmd :=
  [CmdPublish "app" "1000"; CmdPublish "app/db" "x"; CmdPublish "app" "2000";
   CmdPut "b" "1"; CmdPublish "app" "3000"; CmdDelete "b"].

Definition demo_db : MemDB.t := run MemDB.empty demo_cmds.
Definition demo_state : Mvcc := spec_run mvcc_empty demo_cmds.

Lemma demo_rep : Rep demo_db demo_state.
Proof. by apply run_empty_rep. Qed.

Lemma demo_accepts : accepts_writes demo_db.
Proof. by apply run_empty_rep. Qed.

(** Hypotheses at the demonstration store are facts above or evaluate. *)
Ltac demo :=
  first [ exact demo_rep | exact demo_accepts | by vm_compute
        | repeat constructor; by vm_compute ].

Lemma positive_int64 v :
  (0 <? v) && (v <=? int64_max) = true -> 0 < v <= int64_max.
Proof. rewrite andb_true_iff, Z.ltb_lt, Z.leb_le. done. Qed.

Lemma demo_rev : CurrentRevisionLocked demo_db = 6.
Proof. by vm_compute. Qed.

Lemma demo_version_app : spec_version demo_state "app" = 4.
Proof. by vm_compute. Qed.

Lemma demo_version_b : spec_version demo_state "b" = 3.
Proof. by vm_compute. Qed.

(** Opaque in what follows, so that only [vm_compute] evaluates them. *)
#[global] Opaque demo_db demo_state.

(** The store after a pass of the compaction thread that keeps one version. *)
Definition demo_compacted : MemDB.t :=
  match CompactionLocked demo_db demo_db 1 with Done (_, d) => d | Throws _ => demo_db end.

Lemma demo_compacted_rep : Rep demo_compacted (spec_compact 1 demo_state).
Proof.
  destruct (CompactionLocked_refines demo_db demo_state 1 demo_rep)
    as (n & d & E & _ & [Hd|[Ha _]]).
  - unfold demo_compacted. by rewrite E.
  - by destruct (Ha demo_accepts).
Qed.
