(* ===== verification/StoreTheorems.v ===== *)
(** The properties of the key layout, the store and the command dispatcher
    (src/src/common/storekey.cpp, src/src/store/), each with a witness on the
    in-memory engine of Demo.v. *)
From S2P Require Import Prelude CxxStd StoreKey Proto LevelDB Store StoreSpec StoreRepr.
From S2P Require Import StoreRefine StoreScan StoreCompact StoreSnapshot StoreOps StoreEvents.
From S2P Require Import Demo StoreRun.

Section theorems.
Context `{KVCodecSpec} {DB : Type} `{LevelDBSpec DB}.
Implicit Types (d : DB) (a : Mvcc) (dir : string).

(** C1. [ApplyCmdToStore] implements the specification of every command: from
    a database that represents state [a] it returns normally, and either the
    result is the specified one (code, message, record, batch records and Watch
    events) and the database represents the specified next state, or the device
    refused the write, the code is INTERNAL, no event is reported and the
    database still represents [a]. *)
Theorem ApplyCmdToStore_implements_spec d dir a cmd :
  Rep d a -> cmd_valid cmd -> cmd_fits a cmd ->
  apply_result d dir a cmd
    (ApplyCmdToStore (mkStore (Some d) dir) cmd ApplyResult_default).
Proof. apply ApplyCmdToStore_refines. Qed.

(** C2. Simulation: every run of the store, commands with a compaction pass
    beginning before some of them and ending after, and with writes failing
    anywhere, is matched by steps of the abstract machine, where the end of a pass
    removes what was superseded when its iterator was created; at its end the
    database represents a well-formed state, in which neither the revision nor the
    reclaimed revision has gone back. *)
Theorem store_run_simulated d d' it a :
  Rep d a -> rtc db_step (d, None) (d', it) ->
  exists a' ait, rtc mvcc_step (a, None) (a', ait) /\ Rep d' a' /\ iter_rep it ait /\ wf a' /\
             CurrentRevisionLocked d <= CurrentRevisionLocked d' /\
             CompactRevLocked d <= CompactRevLocked d'.
Proof.
  intros Hd Hs. assert (under_way (a, None)) as Hu by (split; [by eapply rep_wf|done]).
  destruct (db_steps_simulated (d, None) _ a None Hd ltac:(constructor) Hu Hs)
    as (a' & ait & Ha & Hd' & Hi). simpl in Hd', Hi.
  exists a', ait.
  pose proof (store_steps_mono _ _ (mvcc_steps_store _ _ Ha Hu)) as Hm. simpl in Hm.
  rewrite (CurrentRevisionLocked_rep _ _ Hd), (CurrentRevisionLocked_rep _ _ Hd').
  rewrite (CompactRevLocked_rep _ _ Hd), (CompactRevLocked_rep _ _ Hd').
  split_and!; try tauto. by eapply rep_wf.
Qed.

(** C9. A replay that runs beside writes and compaction passes is never
    silently incomplete.  The iterator is created on [d_it], the reclaimed
    revision is read later, on [d], after any steps in between.  If the call
    does not answer COMPACTED, it returns exactly the first [max] matching
    changes of [(from, cur]] in the order of their revisions, and no revision
    of that interval is missing from the history they are taken from. *)
Theorem ReplayEvents_complete d_it d a_it a from cur key max :
  Rep d_it a_it -> Rep d a -> rtc store_step a_it a ->
  0 <= from -> cur <= CurrentRevisionLocked d_it -> (0 < max)%nat ->
  exists ok events code,
    ReplayEventsLocked d_it d from cur key (Z.of_nat max) = Done (ok, events, code) /\
    (ok = false -> code = COMPACTED /\ from < CompactRevLocked d) /\
    (ok = true ->
       code = OK /\
       events = take max (spec_event <$> changes (m_hist a_it) from cur key) /\
       forall r, from < r <= cur -> is_Some (m_hist a_it !! r)).
Proof.
  intros Hit Hd Hs Hf Hc Hmax. rewrite (CurrentRevisionLocked_rep _ _ Hit) in Hc.
  pose proof (wf_bounds _ (rep_wf _ _ Hit)) as Hb.
  rewrite (ReplayEventsLocked_refines _ _ _ _ _ _ _ _ Hit Hd), (CompactRevLocked_rep _ _ Hd) by lia.
  unfold replay_result. replace (Z.max 0 from) with from by lia.
  destruct (Nat.eqb_spec max 0); [lia|].
  destruct (Z.ltb_spec from (m_compact a)); do 3 eexists; (split; [done|]); split; try done.
  intros _. split_and!; [done|done|]. intros r Hr. apply (wf_holes _ (rep_wf _ _ Hit)).
  apply store_steps_mono in Hs. lia.
Qed.

(** C23. Broadcast and replay agree: the events a command reports for the Watch
    hub are, in order, what a replay of all keys from the revision before the
    command finds afterwards. *)
Theorem reported_events_replayable d dir a cmd r d' :
  Rep d a -> cmd_valid cmd -> cmd_fits a cmd ->
  ApplyCmdToStore (mkStore (Some d) dir) cmd ApplyResult_default =
    Done (r, mkStore (Some d') dir) ->
  ReplayEventsLocked d' d' (CurrentRevisionLocked d) (CurrentRevisionLocked d') ""
    (Z.of_nat (S (length (ar_events r)))) = Done (true, ar_events r, OK).
Proof.
  intros Hd Hv Hf E. destruct (ApplyCmdToStore_refines d dir a cmd Hd Hv Hf) as (r' & d'' & E' & Hr).
  rewrite E' in E. simplify_eq. pose proof (wf_bounds _ (rep_wf _ _ Hd)) as Hb.
  rewrite (CurrentRevisionLocked_rep _ _ Hd).
  destruct Hr as [[-> Hr]|(_ & Hev & _ & Hr)].
  - pose proof (spec_apply_compact a cmd). pose proof (wf_bounds _ (rep_wf _ _ Hr)) as Hb'.
    rewrite (ReplayEventsLocked_refines _ _ _ _ _ _ _ _ Hr Hr)
      by (rewrite (CurrentRevisionLocked_rep _ _ Hr); lia).
    unfold replay_result. cbn [Nat.eqb]. rewrite Z.max_r by lia.
    destruct (Z.ltb_spec (m_rev a) (m_compact (fst (spec_apply a cmd)))); [lia|].
    rewrite (CurrentRevisionLocked_rep _ _ Hr). unfold spec_replay.
    rewrite <-spec_apply_events, take_ge; [done|lia].
  - rewrite (ReplayEventsLocked_refines _ _ _ _ _ _ _ _ Hr Hr)
      by (rewrite (CurrentRevisionLocked_rep _ _ Hr); lia).
    unfold replay_result. cbn [Nat.eqb]. rewrite Z.max_r by lia.
    destruct (Z.ltb_spec (m_rev a) (m_compact a)); [lia|].
    rewrite (CurrentRevisionLocked_rep _ _ Hr), Hev. unfold spec_replay.
    by rewrite changes_empty by lia.
Qed.

(** [Put]: on a device that accepts writes the record gets the next
    revision and the next version of its key, [Get] then returns it, and no
    other key is affected. *)
Theorem Put_then_Get d a dir key value :
  Rep d a -> accepts_writes d -> m_rev a < int64_max ->
  utf8_valid key = true -> utf8_valid value = true ->
  let kv := mkKV key value (spec_version a key) (CurrentRevisionLocked d + 1) false in
  exists d', let st' := mkStore (Some d') dir in
    Put (mkStore (Some d) dir) key value = Done (CurrentRevisionLocked d + 1, Some kv, st') /\
    CurrentRevision st' = Done (CurrentRevisionLocked d + 1) /\
    Get st' key = Done (Some kv, OK) /\
    forall k, k <> key -> Get st' k = Get (mkStore (Some d) dir) k.
Proof.
  intros Hd Ha Hroom Hk Hv kv.
  pose proof (PutLocked_refines d a key value Hd Hroom Hk Hv) as Hr.
  apply write_succeeds in Hr as (d' & E & Hd'); [|done]. exists d'. cbv zeta.
  unfold kv. rewrite (CurrentRevisionLocked_rep _ _ Hd).
  split_and!.
  - unfold Put, with_db. simpl. by rewrite E.
  - unfold CurrentRevision, read_db. simpl. by rewrite (CurrentRevisionLocked_rep _ _ Hd').
  - rewrite (Get_rep _ _ _ _ Hd'). unfold spec_get, spec_put. simpl. by rewrite lookup_insert_eq.
  - intros k Hne. rewrite (Get_rep _ _ _ _ Hd'), (Get_rep _ _ _ _ Hd). by rewrite spec_get_put_ne.
Qed.

(** [Delete] writes a tombstone: it takes the next revision and counts as a
    version, the key is then not found, its published versions stay readable,
    and no other key is affected. *)
Theorem Delete_then_Get d a dir key :
  Rep d a -> accepts_writes d -> m_rev a < int64_max -> utf8_valid key = true ->
  let kv := mkKV key "" (spec_version a key) (CurrentRevisionLocked d + 1) true in
  exists d', let st := mkStore (Some d) dir in let st' := mkStore (Some d') dir in
    Delete st key = Done (CurrentRevisionLocked d + 1, Some kv, st') /\
    Get st' key = Done (None, KEY_NOT_FOUND) /\
    (forall k, k <> key -> Get st' k = Get st k) /\
    (forall k v, 0 < v <= int64_max -> GetConfig st' k v = GetConfig st k v) /\
    forall k, GetHistory st' k = GetHistory st k.
Proof.
  intros Hd Ha Hroom Hk kv.
  pose proof (DeleteLocked_refines d a key Hd Hroom Hk) as Hr.
  apply write_succeeds in Hr as (d' & E & Hd'); [|done]. exists d'. cbv zeta.
  unfold kv. rewrite (CurrentRevisionLocked_rep _ _ Hd).
  split_and!.
  - unfold Delete, with_db. simpl. by rewrite E.
  - rewrite (Get_rep _ _ _ _ Hd'). unfold spec_get, spec_delete. simpl. by rewrite lookup_insert_eq.
  - intros k Hne. rewrite (Get_rep _ _ _ _ Hd'), (Get_rep _ _ _ _ Hd).
    by rewrite spec_get_delete_ne.
  - intros k v Hv. unfold GetConfig, read_db. simpl.
    rewrite (GetConfigLocked_rep _ _ _ _ Hd'), (GetConfigLocked_rep _ _ _ _ Hd)
      by (unfold in_int64, int64_min; lia).
    unfold spec_get_config. destruct (Z.leb_spec v 0); [lia|done].
  - intros k. unfold GetHistory, read_db. simpl.
    by rewrite (GetHistoryLocked_refines _ _ _ Hd'), (GetHistoryLocked_refines _ _ _ Hd).
Qed.

(** C17. [CompareAndSwap] succeeds exactly when the comparison holds: with an
    empty [expect] the key must have no live value, otherwise its live value
    must be [expect].  A failed comparison leaves the database as it was and
    uses no revision; a successful one is a [Put]. *)
Theorem CompareAndSwap_correct d a dir key expect value :
  Rep d a -> accepts_writes d -> m_rev a < int64_max ->
  utf8_valid key = true -> utf8_valid value = true ->
  let st := mkStore (Some d) dir in
  let matches := if decide (expect = "") then spec_get a key = None
                 else kv_value <$> spec_get a key = Some expect in
  (matches /\ exists rev kv st', Put st key value = Done (rev, Some kv, st') /\
     CompareAndSwap st key expect value = Done (rev, Some kv, OK, st') /\
     0 < rev) \/
  (~ matches /\ CompareAndSwap st key expect value = Done (-1, None, CAS_FAILED, st)).
Proof.
  intros Hd Ha Hroom Hk Hv st matches.
  assert (Hm : spec_cas_matches a key expect = true <-> matches).
  { unfold matches, spec_cas_matches. destruct (spec_get a key) as [kv|]; simpl;
      destruct (String.eqb_spec expect "") as [->|Hne];
      rewrite ?(decide_True (P := "" = "")), ?(decide_False (P := expect = "")) by done;
      simpl; rewrite ?String.eqb_eq; split; congruence. }
  unfold CompareAndSwap, Put, with_db, st. simpl.
  rewrite (CompareAndSwapLocked_Put _ _ _ _ _ Hd).
  pose proof (PutLocked_refines d a key value Hd Hroom Hk Hv) as Hr.
  apply write_succeeds in Hr as (d' & E & _); [|done]. rewrite E.
  destruct (wf_bounds _ (rep_wf _ _ Hd)).
  destruct (spec_cas_matches a key expect); [left|right].
  - split; [by apply Hm|]. do 3 eexists. split_and!; [done|done|simpl; lia].
  - split; [|done]. intros Hx. by apply Hm in Hx.
Qed.


(** C21. [BatchPut] is one atomic write: entry [i] of the batch gets the [i]-th
    next revision, all versions are counted from the state before the batch,
    the revision moves by the length of the batch, [Get] then returns the last
    entry of a key, and a key that is not in the batch is not affected. *)
Theorem BatchPut_correct d a dir kvs :
  Rep d a -> accepts_writes d -> kvs <> [] ->
  m_rev a + Z.of_nat (length kvs) <= int64_max ->
  Forall (fun e => utf8_valid e.1 = true /\ utf8_valid e.2 = true) kvs ->
  exists new_kvs d', let st := mkStore (Some d) dir in let st' := mkStore (Some d') dir in
    BatchPut st kvs = Done (0, Some new_kvs, st') /\
    (fun kv => (kv_key kv, kv_value kv)) <$> new_kvs = kvs /\
    (forall i kv, new_kvs !! i = Some kv ->
       kv_revision kv = CurrentRevisionLocked d + 1 + Z.of_nat i /\
       kv_version kv = spec_version a (kv_key kv) /\ kv_deleted kv = false) /\
    CurrentRevision st' = Done (CurrentRevisionLocked d + Z.of_nat (length kvs)) /\
    forall k, Get st' k =
      match last (filter (fun kv => kv_key kv = k) new_kvs) with
      | Some kv => Done (Some kv, OK)
      | None => Get st k
      end.
Proof.
  intros Hd Ha Hne Hroom Hutf.
  pose proof (BatchPutLocked_refines d a kvs Hd Hroom Hutf) as Hr. unfold batch_result in Hr.
  destruct (BatchPutLocked d kvs) as [[rev [new|]] d'] eqn:E;
    [|by destruct Hr as (_ & [[? _]|[_ Hn]])].
  destruct Hr as (-> & -> & Hd'). exists (spec_batch_records a a kvs), d'. cbv zeta.
  rewrite (CurrentRevisionLocked_rep _ _ Hd). split_and!.
  - unfold BatchPut, with_db. simpl. by rewrite E.
  - apply spec_batch_records_pairs.
  - intros i kv Hi. by apply spec_batch_records_entry in Hi as (k & v & _ & ->).
  - unfold CurrentRevision, read_db. simpl.
    by rewrite (CurrentRevisionLocked_rep _ _ Hd'), spec_batch_rev.
  - intros k. rewrite (Get_rep _ _ _ _ Hd'), (Get_rep _ _ _ _ Hd), spec_batch_get.
    by destruct (last _).
Qed.

(** What a publication does to the readers, shared by [Publish] and [Rollback]. *)
Lemma published_readers d a d' dir key value :
  Rep d a -> m_rev a < int64_max -> Rep d' (spec_publish a key value) ->
  let st := mkStore (Some d) dir in let st' := mkStore (Some d') dir in
  let kv := spec_record a key value false in
  GetConfig st' key (kv_version kv) = Done (Some kv, OK) /\
  GetConfig st' key 0 = Done (Some kv, OK) /\
  (forall k v, 0 < v <= int64_max -> (k, v) <> (key, kv_version kv) ->
     GetConfig st' k v = GetConfig st k v) /\
  exists hist, GetHistory st key = Done hist /\ GetHistory st' key = Done (hist ++ [kv]) /\
    forall k, k <> key -> GetHistory st' k = GetHistory st k.
Proof.
  intros Hd Hroom Hd' st st' kv. pose proof (rep_wf _ _ Hd) as Hw.
  pose proof (spec_version_range _ Hw key) as Hv.
  assert (Hi : in_int64 (kv_version kv)) by (unfold in_int64, int64_min; simpl; lia).
  split_and!.
  - unfold st'. rewrite (GetConfig_rep _ _ _ _ _ Hd' Hi). unfold spec_get_config.
    destruct (Z.leb_spec (kv_version kv) 0) as [Hle|_]; [simpl in Hle; lia|].
    unfold spec_publish. simpl. by rewrite lookup_insert_eq.
  - unfold st'. rewrite (GetConfig_rep _ _ _ _ _ Hd') by done.
    unfold spec_get_config, spec_get, spec_publish. simpl. by rewrite lookup_insert_eq.
  - intros k v Hb Hne. assert (in_int64 v) by (unfold in_int64, int64_min; lia).
    unfold st', st. rewrite (GetConfig_rep _ _ _ _ _ Hd'), (GetConfig_rep _ _ _ _ _ Hd) by done.
    unfold spec_get_config. destruct (Z.leb_spec v 0); [lia|].
    unfold spec_publish. cbn [m_cfg spec_index]. rewrite lookup_insert_ne; [done|].
    intros E. by apply Hne.
  - exists (spec_history a key). unfold st', st.
    rewrite (GetHistory_rep _ _ _ _ Hd), (GetHistory_rep _ _ _ _ Hd').
    rewrite spec_publish_history, decide_True by done. split_and!; [done..|].
    intros k Hk. rewrite (GetHistory_rep _ _ _ _ Hd), (GetHistory_rep _ _ _ _ Hd').
    by rewrite spec_publish_history, decide_False, app_nil_r by done.
Qed.
(** [Publish] is a [Put] that also enters its record in the version index:
    [GetConfig] finds it under its version and as the latest, other published
    versions stay as they were, and the history of the key gains exactly this
    record at its end. *)
Theorem Publish_then_GetConfig d a dir key value :
  Rep d a -> accepts_writes d -> m_rev a < int64_max ->
  utf8_valid key = true -> utf8_valid value = true ->
  let kv := mkKV key value (spec_version a key) (CurrentRevisionLocked d + 1) false in
  exists d' hist, let st := mkStore (Some d) dir in let st' := mkStore (Some d') dir in
    Publish st key value = Done (CurrentRevisionLocked d + 1, Some kv, st') /\
    CurrentRevision st' = Done (CurrentRevisionLocked d + 1) /\
    GetConfig st' key (kv_version kv) = Done (Some kv, OK) /\
    GetConfig st' key 0 = Done (Some kv, OK) /\
    (forall k v, 0 < v <= int64_max -> (k, v) <> (key, kv_version kv) ->
       GetConfig st' k v = GetConfig st k v) /\
    GetHistory st key = Done hist /\ GetHistory st' key = Done (hist ++ [kv]) /\
    forall k, k <> key -> GetHistory st' k = GetHistory st k.
Proof.
  intros Hd Ha Hroom Hk Hv kv.
  pose proof (PublishLocked_refines d a key value Hd Hroom Hk Hv) as Hr.
  apply write_succeeds in Hr as (d' & E & Hd'); [|done].
  destruct (published_readers d a d' dir key value Hd Hroom Hd')
    as (G1 & G2 & G3 & hist & G4 & G5 & G6).
  exists d', hist. cbv zeta. unfold kv. rewrite (CurrentRevisionLocked_rep _ _ Hd).
  split_and!; try done.
  - unfold Publish, with_db. simpl. by rewrite E.
  - unfold CurrentRevision, read_db. simpl. by rewrite (CurrentRevisionLocked_rep _ _ Hd').
Qed.

(** C18. [Rollback] never rewrites history: when [GetConfig] finds the target,
    the target's value is published as a new version and revision at the end
    of the history; when it does not, [ok] is false and the store is as it
    was. *)
Theorem Rollback_correct d a dir key target :
  Rep d a -> accepts_writes d -> m_rev a < int64_max ->
  utf8_valid key = true -> in_int64 target ->
  let st := mkStore (Some d) dir in
  (exists tkv kv d' hist, let st' := mkStore (Some d') dir in
     GetConfig st key target = Done (Some tkv, OK) /\
     kv = mkKV key (kv_value tkv) (spec_version a key) (CurrentRevisionLocked d + 1) false /\
     Rollback st key target = Done (kv_revision kv, Some kv, true, st') /\
     GetConfig st' key 0 = Done (Some kv, OK) /\
     GetHistory st key = Done hist /\ GetHistory st' key = Done (hist ++ [kv])) \/
  (exists code, GetConfig st key target = Done (None, code) /\
     Rollback st key target = Done (-1, None, false, st)).
Proof.
  intros Hd Ha Hroom Hk Ht st. rewrite (CurrentRevisionLocked_rep _ _ Hd).
  unfold st. rewrite (GetConfig_rep _ _ _ _ _ Hd Ht).
  pose proof (RollbackLocked_refines d a key target Hd Hroom Hk Ht) as Hr.
  unfold rollback_result in Hr.
  destruct (spec_get_config a key target) as [tkv|] eqn:Ec; [left|right].
  - destruct Hr as (rev & out & d' & E & Hr).
    apply write_succeeds in Hr as (d'' & E' & Hd'); [|done]. simplify_eq.
    destruct (published_readers d a d'' dir key (kv_value tkv) Hd Hroom Hd')
      as (_ & G2 & _ & hist & G4 & G5 & _).
    exists tkv, (spec_record a key (kv_value tkv) false), d'', hist. cbv zeta.
    split_and!; try done. unfold Rollback, with_db. simpl. by rewrite E.
  - eexists. split; [done|]. unfold Rollback, with_db. simpl. by rewrite Hr.
Qed.

(** C22. [GetHistory] is exact: the records come in the order of their versions,
    without repetition, and a record is listed exactly when [GetConfig] returns
    it for its version.  Keys that share a prefix of the index, such as [a] and
    [a/b], are not mixed up. *)
Theorem GetHistory_exact d a dir key :
  Rep d a ->
  exists hist, GetHistory (mkStore (Some d) dir) key = Done hist /\
    StronglySorted (fun x y => kv_version x < kv_version y) hist /\
    forall kv, kv ∈ hist <->
      0 < kv_version kv <= int64_max /\
      GetConfig (mkStore (Some d) dir) key (kv_version kv) = Done (Some kv, OK).
Proof.
  intros Hd. pose proof (rep_wf _ _ Hd) as Hw. exists (spec_history a key).
  rewrite (GetHistory_rep _ _ _ _ Hd). split; [done|].
  assert (Hel : forall v kv, (v, kv) ∈ sorted_entries (versions_of (m_cfg a) key) <->
    m_cfg a !! (key, v) = Some kv).
  { intros v kv. by rewrite elem_of_sorted_entries, versions_of_lookup. }
  split.
  - unfold spec_history. apply (StronglySorted_map_in zlt_fst); [|apply sorted_entries_sorted].
    intros [v1 x1] [v2 x2] H1'%Hel H2'%Hel Hlt. simpl.
    destruct (wf_cfg _ Hw _ _ _ H1') as (_ & -> & _), (wf_cfg _ Hw _ _ _ H2') as (_ & -> & _).
    done.
  - intros kv. unfold spec_history. rewrite list_elem_of_fmap. split.
    + intros ([v x] & -> & Hc%Hel). simpl. pose proof (wf_cfg_int64 _ _ _ _ Hw Hc) as Hv.
      destruct (wf_cfg _ Hw _ _ _ Hc) as (_ & -> & _). split; [lia|].
      rewrite (GetConfig_rep _ _ _ _ _ Hd) by (unfold in_int64, int64_min; lia).
      unfold spec_get_config. destruct (Z.leb_spec v 0); [lia|]. by rewrite Hc.
    + intros [Hv Hg]. rewrite (GetConfig_rep _ _ _ _ _ Hd) in Hg
        by (unfold in_int64, int64_min; lia).
      unfold spec_get_config in Hg. destruct (Z.leb_spec (kv_version kv) 0); [lia|].
      destruct (m_cfg a !! (key, kv_version kv)) as [x|] eqn:Hc; [|done]. simplify_eq.
      exists (kv_version kv, kv). split; [done|]. by apply Hel.
Qed.
End theorems.

(** * Witnesses on the demonstration store *)

(** Six revisions: [app] has three published versions, [b] was put and deleted. *)
Lemma ApplyCmdToStore_implements_spec_witness :
  apply_result demo_db "data" demo_state (CmdCas "app" "3000" "4000")
    (ApplyCmdToStore (mkStore (Some demo_db) "data") (CmdCas "app" "3000" "4000")
       ApplyResult_default).
Proof. apply ApplyCmdToStore_implements_spec; demo. Defined.

(** A command is applied while a pass is under way. *)
Lemma store_run_simulated_witness :
  let d1 := run demo_db [CmdPublish "app" "4000"] in
  exists d2, CompactionLocked demo_db d1 1 = Done (3, d2) /\
  exists a' ait, rtc mvcc_step (demo_state, None) (a', ait) /\ Rep d2 a' /\ iter_rep None ait /\
    wf a' /\ CurrentRevisionLocked demo_db <= CurrentRevisionLocked d2 /\
    CompactRevLocked demo_db <= CompactRevLocked d2.
Proof.
  intros d1. eexists. split; [by vm_compute|].
  apply (store_run_simulated demo_db _ None demo_state demo_rep).
  eapply rtc_l; [apply DbCompactBegin|]. eapply rtc_l.
  { apply (DbApply demo_db _ "data" (CmdPublish "app" "4000")
      (snd (spec_apply demo_state (CmdPublish "app" "4000"))) d1); by vm_compute. }
  apply rtc_once. apply (DbCompactEnd d1 demo_db 1 3). by vm_compute.
Defined.

Lemma ReplayEvents_complete_witness :
  exists ok events code,
    ReplayEventsLocked demo_db demo_compacted 4 6 "app" (Z.of_nat 8) = Done (ok, events, code) /\
    (ok = false -> code = COMPACTED /\ 4 < CompactRevLocked demo_compacted) /\
    (ok = true -> code = OK /\
       events = take 8 (spec_event <$> changes (m_hist demo_state) 4 6 "app") /\
       forall r, 4 < r <= 6 -> is_Some (m_hist demo_state !! r)).
Proof.
  apply (ReplayEvents_complete demo_db demo_compacted demo_state (spec_compact 1 demo_state));
    [demo|apply demo_compacted_rep|apply rtc_once, step_compact; eapply rep_wf, demo_rep
    |done|by vm_compute|lia].
Defined.

Lemma reported_events_replayable_witness :
  exists r d', ApplyCmdToStore (mkStore (Some demo_db) "data")
      (CmdBatchPut [("x", "1"); ("y", "2")]) ApplyResult_default =
      Done (r, mkStore (Some d') "data") /\
    length (ar_events r) = 2%nat /\
    ReplayEventsLocked d' d' (CurrentRevisionLocked demo_db) (CurrentRevisionLocked d') ""
      (Z.of_nat (S (length (ar_events r)))) = Done (true, ar_events r, OK).
Proof.
  do 2 eexists. split; [by vm_compute|]. split; [done|].
  apply (reported_events_replayable demo_db "data" demo_state
    (CmdBatchPut [("x", "1"); ("y", "2")])); demo.
Defined.

Lemma Put_then_Get_witness :
  exists d', Put (mkStore (Some demo_db) "data") "b" "2" =
      Done (7, Some (mkKV "b" "2" 3 7 false), mkStore (Some d') "data") /\
    Get (mkStore (Some d') "data") "b" = Done (Some (mkKV "b" "2" 3 7 false), OK).
Proof.
  destruct (Put_then_Get demo_db demo_state "data" "b" "2") as (d' & E & _ & Hg & _); [demo..|].
  rewrite demo_rev, demo_version_b in *. exists d'. split; [exact E|exact Hg].
Defined.

Lemma Delete_then_Get_witness :
  exists d', Delete (mkStore (Some demo_db) "data") "app" =
      Done (7, Some (mkKV "app" "" 4 7 true), mkStore (Some d') "data") /\
    Get (mkStore (Some d') "data") "app" = Done (None, KEY_NOT_FOUND) /\
    GetConfig (mkStore (Some d') "data") "app" 2 =
      GetConfig (mkStore (Some demo_db) "data") "app" 2.
Proof.
  destruct (Delete_then_Get demo_db demo_state "data" "app") as (d' & E & Hg & _ & Hc & _); [demo..|].
  rewrite demo_rev, demo_version_app in E. exists d'. split_and!; [exact E|exact Hg|].
  exact (Hc "app" 2 (positive_int64 2 eq_refl)).
Defined.

Lemma CompareAndSwap_correct_witness :
  CompareAndSwap (mkStore (Some demo_db) "data") "app" "" "x" =
    Done (-1, None, CAS_FAILED, mkStore (Some demo_db) "data").
Proof.
  destruct (CompareAndSwap_correct demo_db demo_state "data" "app" "" "x") as [[Hm _]|[_ E]];
    [demo..|by vm_compute in Hm|exact E].
Defined.

Lemma BatchPut_correct_witness :
  exists new_kvs d', BatchPut (mkStore (Some demo_db) "data") [("b", "1"); ("c", "2")] =
      Done (0, Some new_kvs, mkStore (Some d') "data") /\
    kv_revision <$> new_kvs = [7; 8].
Proof.
  destruct (BatchPut_correct demo_db demo_state "data" [("b", "1"); ("c", "2")])
    as (new & d' & E & Hp & Hr & _); [demo..|].
  exists new, d'. split; [exact E|]. clear E. rewrite demo_rev in Hr.
  apply (f_equal length) in Hp. rewrite length_fmap in Hp.
  destruct new as [|k1 [|k2 [|? ?]]]; try done. csimpl.
  by rewrite (proj1 (Hr 0%nat k1 eq_refl)), (proj1 (Hr 1%nat k2 eq_refl)).
Defined.

Lemma Publish_then_GetConfig_witness :
  exists d', Publish (mkStore (Some demo_db) "data") "b" "9" =
      Done (7, Some (mkKV "b" "9" 3 7 false), mkStore (Some d') "data") /\
    GetConfig (mkStore (Some d') "data") "b" 3 = Done (Some (mkKV "b" "9" 3 7 false), OK).
Proof.
  destruct (Publish_then_GetConfig demo_db demo_state "data" "b" "9")
    as (d' & hist & E & _ & Hc & _); [demo..|].
  rewrite demo_rev, demo_version_b in *. exists d'. split; [exact E|exact Hc].
Defined.

Lemma Rollback_correct_witness :
  exists kv d', Rollback (mkStore (Some demo_db) "data") "app" 1 =
      Done (7, Some kv, true, mkStore (Some d') "data") /\ kv_value kv = "1000".
Proof.
  destruct (Rollback_correct demo_db demo_state "data" "app" 1)
    as [(tkv & kv & d' & hist & Ht & Hkv & E & _)|(code & Ht & _)]; [demo..| |].
  - rewrite demo_rev, demo_version_app in Hkv. subst kv. do 2 eexists. split; [exact E|].
    clear E. vm_compute in Ht. by injection Ht as <-.
  - by vm_compute in Ht.
Defined.

Lemma GetHistory_exact_witness :
  exists hist, GetHistory (mkStore (Some demo_db) "data") "app" = Done hist /\
    kv_version <$> hist = [1; 2; 3] /\
    StronglySorted (fun x y => kv_version x < kv_version y) hist.
Proof.
  destruct (GetHistory_exact demo_db demo_state "data" "app" demo_rep) as (hist & E & Hs & _).
  exists hist. split_and!; [exact E| |exact Hs].
  vm_compute in E. by injection E as <-.
Defined.
