(* ===== verification/StoreMaintenance.v ===== *)
(** Properties of the operations that run around the commands: compaction,
    snapshots, opening and closing, and what they mean for replicas that apply
    the same commands (src/src/store/store.cpp). *)
From S2P Require Import Prelude CxxStd StoreKey Proto LevelDB Store StoreSpec StoreRepr.
From S2P Require Import StoreRefine StoreScan StoreCompact StoreSnapshot StoreOps StoreEvents.
From S2P Require Import Demo StoreRun.

Section compaction.
Context `{KVCodecSpec} {DB : Type} `{LevelDBSpec DB}.
Implicit Types (d : DB) (a : Mvcc) (dir : string).

Lemma CompactionLocked_nothing d keep d' :
  CompactionLocked d d keep = Done (0, d') -> d' = d.
Proof.
  unfold CompactionLocked. destruct (compaction_collect _ _) as [m|e]; [|done]. simpl.
  destruct (foldl _ _ _) as [[b n] mx]. destruct (Z.ltb_spec 0 n); intros; simplify_eq; [|done].
  lia.
Qed.

(** What is retained has fewer than [keep] newer records, also afterwards. *)
Lemma victims_after keep h : victims keep (h ∖ victims keep h) = ∅.
Proof.
  apply map_empty. intros r. apply map_lookup_filter_None. right. intros kv Hkv Hrec. simpl in *.
  apply lookup_difference_Some in Hkv as [Hkv Hn].
  assert (reclaimed keep h r kv) as Hr.
  { unfold reclaimed in *. simpl in *. etrans; [exact Hrec|]. apply Nat2Z.inj_le.
    apply map_subseteq_size, map_filter_subseteq_mono, map_subseteq_difference_l. done. }
  assert (victims keep h !! r = Some kv) as E by by apply victims_lookup.
  by rewrite E in Hn.
Qed.

Lemma spec_reclaim_changes v a from to key :
  m_compact (spec_reclaim v a) <= from ->
  changes (m_hist (spec_reclaim v a)) from to key = changes (m_hist a) from to key.
Proof.
  intros Hf. apply changes_agree. intros r Hr. simpl.
  destruct (max_rev_spec v (m_compact a)) as (_ & Hle & _).
  apply option_eq. intros kv. rewrite lookup_difference_Some. split; [by intros [? _]|].
  intros Hkv. split; [done|]. destruct (v !! r) as [x|] eqn:E; [|done].
  specialize (Hle r (ex_intro _ x E)). simpl in Hf. lia.
Qed.

(** C19. A compaction pass removes exactly the records that had [max 1 keep]
    newer ones of their key when its iterator was created, with the index entries
    of their versions, and counts them, whatever commands are applied before its
    batch is written; what is in force does not change; a replay above the new
    reclaimed revision is the same as before and one below it answers COMPACTED.
    When nothing runs beside it, a second pass finds nothing to remove. *)
Theorem Compaction_correct d_it a_it d a dir keep :
  Rep d_it a_it -> Rep d a -> rtc apply_step a_it a -> accepts_writes d ->
  let st := mkStore (Some d) dir in
  let removed := victims (Z.max 1 keep) (m_hist a_it) in
  exists d', let st' := mkStore (Some d') dir in
    CompactionLocked d_it d keep = Done (Z.of_nat (size removed), d') /\
    CurrentRevision st' = CurrentRevision st /\
    (forall k, Get st' k = Get st k) /\
    (forall k v, 0 < v <= int64_max -> GetConfig st' k v =
       if decide (indexed_by removed (k, v)) then Done (None, VERSION_NOT_FOUND)
       else GetConfig st k v) /\
    (forall from cur key max, cur <= int64_max -> (0 < max)%nat -> 0 <= from ->
       ReplayEvents st' from cur key (Z.of_nat max) =
       if decide (CompactRevLocked d' <= from)
       then ReplayEvents st from cur key (Z.of_nat max)
       else Done (false, [], COMPACTED)) /\
    (d_it = d -> Compaction st keep = Done (Z.of_nat (size removed), st') /\
                 Compaction st' keep = Done (0, st')).
Proof.
  intros Hd0 Hd Hs Ha st removed.
  destruct (CompactionLocked_during d_it a_it d a keep Hd0 Hd Hs)
    as (n & d' & E & -> & [Hd'|[Hn _]]); [|done].
  fold removed in E, Hd'. exists d'. cbv zeta. split_and!; [exact E|..].
  - unfold CurrentRevision, read_db, st. simpl.
    by rewrite (CurrentRevisionLocked_rep _ _ Hd'), (CurrentRevisionLocked_rep _ _ Hd).
  - intros k. unfold st. by rewrite (Get_rep _ _ _ _ Hd'), (Get_rep _ _ _ _ Hd).
  - intros k v Hv. assert (in_int64 v) by (unfold in_int64, int64_min; lia). unfold st.
    rewrite (GetConfig_rep _ _ _ _ _ Hd'), (GetConfig_rep _ _ _ _ _ Hd) by done.
    unfold spec_get_config. destruct (Z.leb_spec v 0); [lia|]. simpl.
    case_decide as Hi.
    + rewrite (proj2 (map_lookup_filter_None _ _ _)); [done|]. right. by intros x _ [].
    + rewrite map_lookup_filter. destruct (m_cfg a !! (k, v)); [|done]. simpl.
      by rewrite option_guard_True.
  - intros from cur key max Hc Hm Hf. unfold ReplayEvents, st. simpl.
    rewrite !(ReplayEventsLocked_refines _ _ _ _ _ _ _ _ Hd' Hd'),
      !(ReplayEventsLocked_refines _ _ _ _ _ _ _ _ Hd Hd) by done.
    unfold replay_result. destruct (Nat.eqb_spec max 0); [lia|].
    rewrite (CompactRevLocked_rep _ _ Hd'), Z.max_r by done.
    destruct (max_rev_spec removed (m_compact a)) as [Hle _].
    change (max_rev removed (m_compact a)) with (m_compact (spec_reclaim removed a)) in Hle.
    case_decide; destruct (Z.ltb_spec from (m_compact (spec_reclaim removed a)));
      try lia; [|done].
    destruct (Z.ltb_spec from (m_compact a)); [lia|].
    unfold spec_replay. by rewrite spec_reclaim_changes.
  - intros ->. rewrite (Rep_unique _ _ _ Hd Hd0) in Hd'. split.
    { unfold Compaction, st. simpl. by rewrite E. }
    destruct (CompactionLocked_refines d' _ keep Hd') as (n & d'' & E' & -> & _).
    simpl in E'. unfold removed in E'. rewrite victims_after, map_size_empty in E'.
    unfold Compaction. simpl. rewrite E'. apply CompactionLocked_nothing in E' as ->. done.
Qed.
End compaction.

Section files.
Context `{KVCodecSpec} {DB FS : Type} `{LevelDBFilesSpec DB FS}.
Implicit Types (d : DB) (fs : FS) (a : Mvcc) (dir : string).

Lemma OpenLocked_done (st : Store DB) fs dir st' fs' :
  OpenLocked st fs dir = Done (None, st', fs') ->
  exists fs1 fs2 d, fs_create_directories fs dir = Done fs1 /\
    db_open fs1 dir = (inr d, fs2) /\ st' = mkStore (Some d) dir /\
    fs' = snd (reset_db st fs2).
Proof.
  unfold OpenLocked. destruct (fs_create_directories fs dir) as [fs1|e] eqn:Ec; [|done]. simpl.
  destruct (db_open fs1 dir) as [[e|d] fs2] eqn:Eo; [done|].
  destruct (reset_db st fs2) as [st'' fs''] eqn:Er. intros [= <- <-].
  exists fs1, fs2, d. by rewrite Er.
Qed.

(** A closed store opened on a directory has what the directory holds. *)
Lemma OpenLocked_disk dir0 fs dir st' fs' :
  OpenLocked (mkStore (None : option DB) dir0) fs dir = Done (None, st', fs') ->
  exists d, st' = mkStore (Some d) dir /\ contents d = disk fs dir /\ readable d.
Proof.
  intros (fs1 & fs2 & d & Hc & Ho & -> & _)%OpenLocked_done. exists d.
  destruct (db_open_ok _ _ _ _ Ho) as (Hd & Hr & _).
  by rewrite Hd, (fs_create_directories_disk _ _ _ Hc).
Qed.

(** Durability: a store that is closed and opened again on its directory
    represents the same state, so every reader answers as before. *)
Theorem Close_then_Open d a dir fs st1 fs1 st2 fs2 :
  Rep d a -> db_dir d = dir ->
  Close (mkStore (Some d) dir) fs = (st1, fs1) ->
  Open st1 fs1 dir = Done (None, st2, fs2) ->
  db_ st1 = None /\
  exists d2, st2 = mkStore (Some d2) dir /\ Rep d2 a /\
    (forall k, Get st2 k = Get (mkStore (Some d) dir) k) /\
    (forall k v, in_int64 v -> GetConfig st2 k v = GetConfig (mkStore (Some d) dir) k v) /\
    CurrentRevision st2 = CurrentRevision (mkStore (Some d) dir).
Proof.
  intros Hd Hdir [= <- <-] Ho. split; [done|].
  apply OpenLocked_disk in Ho as (d2 & -> & Hc & Hr). exists d2.
  assert (Rep d2 a) as Hd2.
  { split_and!; [done| |by eapply rep_wf]. rewrite Hc, <-Hdir, db_close_disk. by apply rep_repr. }
  split_and!; [done|done| | |].
  - intros k. by rewrite (Get_rep _ _ _ _ Hd2), (Get_rep _ _ _ _ Hd).
  - intros k v Hv. by rewrite (GetConfig_rep _ _ _ _ _ Hd2), (GetConfig_rep _ _ _ _ _ Hd).
  - unfold CurrentRevision, read_db. simpl.
    by rewrite (CurrentRevisionLocked_rep _ _ Hd2), (CurrentRevisionLocked_rep _ _ Hd).
Qed.

(** The steps of [LoadSnapshot] when it returns true. *)
Lemma LoadSnapshot_done (st : Store DB) fs data st' fs' :
  LoadSnapshot st fs data = Done (None, st', fs') ->
  let dir := data_dir_ st in
  exists fs1 d d', fs1 = snd (fs_remove_all (snd (reset_db st fs)) dir) /\
    contents d = disk fs1 dir /\ readable d /\
    db_write d (load_batch data) = (None, d') /\ st' = mkStore (Some d') dir.
Proof.
  unfold LoadSnapshot. destruct (reset_db st fs) as [st0 fs0] eqn:E0.
  assert (st0 = mkStore None (data_dir_ st)) as ->.
  { destruct st as [[d|] dir]; unfold reset_db in E0; simpl in *; congruence. }
  simpl. destruct (fs_remove_all fs0 (data_dir_ st)) as [b fs1]. simpl.
  destruct (OpenLocked _ _ _) as [[[err st1] fs2]|e] eqn:Eo; [|done]. simpl.
  destruct err as [err|]; [done|]. apply OpenLocked_disk in Eo as (d & -> & Hc & Hr). simpl.
  destruct (db_write d (load_batch data)) as [[e|] d'] eqn:Ew; [done|]. intros [= <- <-].
  by exists fs1, d, d'.
Qed.

(** The database a loaded snapshot of state [a] leaves. *)
Lemma LoadSnapshot_of a data (st : Store DB) fs st' fs' :
  wf a -> snapshot_of a data -> LoadSnapshot st fs data = Done (None, st', fs') ->
  fst (fs_remove_all (snd (reset_db st fs)) (data_dir_ st)) = true ->
  exists d', st' = mkStore (Some d') (data_dir_ st) /\ Rep d' (spec_reload a).
Proof.
  intros Hw Hsd Hl Hrm.
  apply LoadSnapshot_done in Hl as (fs1 & d0 & d' & Hf & Hc & Hr & Hwr & ->).
  destruct (fs_remove_all _ _) as [b fs1'] eqn:Erm. simpl in Hrm, Hf. subst b fs1'.
  apply fs_remove_all_disk in Erm. rewrite Erm in Hc. exists d'. split; [done|].
  split_and!; [by eapply db_write_readable| |by apply spec_reload_wf].
  rewrite (db_write_ok _ _ _ Hwr), Hc. by apply load_batch_repr.
Qed.

Lemma LoadSnapshot_rep d a data (st : Store DB) fs st' fs' :
  Rep d a -> data = ExportSnapshotLocked d ->
  LoadSnapshot st fs data = Done (None, st', fs') ->
  fst (fs_remove_all (snd (reset_db st fs)) (data_dir_ st)) = true ->
  exists d', st' = mkStore (Some d') (data_dir_ st) /\ Rep d' (spec_reload a).
Proof.
  intros Hd ->. apply LoadSnapshot_of; [by eapply rep_wf|by apply ExportSnapshotLocked_refines].
Qed.

(** C20. A snapshot carries the state: when a node installs what another node
    exported, and the old directory could be removed, its database represents
    the exported state with the superseded history dropped.  Every current and
    every published record and the revision are those of the exporter, whatever
    the node held before; the reclaimed revision is the snapshot's, so a replay
    from an older revision is refused rather than incomplete. *)
Theorem LoadSnapshot_installs d a dir data (st : Store DB) fs st' fs' :
  Rep d a -> ExportSnapshot (mkStore (Some d) dir) = Done data ->
  LoadSnapshot st fs data = Done (None, st', fs') ->
  fst (fs_remove_all (snd (reset_db st fs)) (data_dir_ st)) = true ->
  exists d', st' = mkStore (Some d') (data_dir_ st) /\ Rep d' (spec_reload a) /\
    (forall k, Get st' k = Get (mkStore (Some d) dir) k) /\
    (forall k v, in_int64 v -> GetConfig st' k v = GetConfig (mkStore (Some d) dir) k v) /\
    (forall k, GetHistory st' k = GetHistory (mkStore (Some d) dir) k) /\
    CurrentRevision st' = CurrentRevision (mkStore (Some d) dir) /\
    CompactRev st' = CurrentRevision (mkStore (Some d) dir).
Proof.
  intros Hd [= <-] Hl Hrm.
  destruct (LoadSnapshot_rep _ _ _ _ _ _ _ Hd eq_refl Hl Hrm) as (d' & -> & Hd').
  exists d'. split_and!; [done|done|..].
  - intros k. by rewrite (Get_rep _ _ _ _ Hd'), (Get_rep _ _ _ _ Hd).
  - intros k v Hv. by rewrite (GetConfig_rep _ _ _ _ _ Hd'), (GetConfig_rep _ _ _ _ _ Hd).
  - intros k. by rewrite (GetHistory_rep _ _ _ _ Hd'), (GetHistory_rep _ _ _ _ Hd).
  - unfold CurrentRevision, read_db. simpl.
    by rewrite (CurrentRevisionLocked_rep _ _ Hd'), (CurrentRevisionLocked_rep _ _ Hd).
  - unfold CompactRev, CurrentRevision, read_db. simpl.
    by rewrite (CompactRevLocked_rep _ _ Hd'), (CurrentRevisionLocked_rep _ _ Hd).
Qed.

(** When the directory cannot be opened again, [LoadSnapshot] reports the
    error (or lets the exception of [create_directories] through), but the old
    database is already closed and removed: the node is left without one and
    every later access runs into the null pointer. *)
Lemma LoadSnapshot_open_failure (st : Store DB) fs data :
  let dir := data_dir_ st in
  let fs1 := snd (fs_remove_all (snd (reset_db st fs)) dir) in
  (forall e, fs_create_directories fs1 dir = Throws e -> LoadSnapshot st fs data = Throws e) /\
  (forall fs2 err fs3,
     fs_create_directories fs1 dir = Done fs2 -> db_open fs2 dir = (inl err, fs3) ->
     exists st', LoadSnapshot st fs data = Done (Some err, st', fs3) /\ data_dir_ st' = dir /\
       (forall k, Get st' k = Throws NullDeref) /\
       (forall k v, Put st' k v = Throws NullDeref) /\
       CurrentRevision st' = Throws NullDeref /\ ExportSnapshot st' = Throws NullDeref).
Proof.
  intros dir fs1. unfold LoadSnapshot.
  assert (reset_db st fs = (mkStore None dir, snd (reset_db st fs))) as ->.
  { destruct st as [[d|] dir']; done. }
  cbn [data_dir_]. fold dir in fs1. destruct (fs_remove_all _ dir) as [b fs1'] eqn:E.
  cbn [snd] in fs1. unfold OpenLocked. subst fs1. split.
  - intros e ->. done.
  - intros fs2 err fs3 Hc Ho. rewrite Hc. simpl. rewrite Ho. simpl.
    eexists. split; [done|]. done.
Qed.
End files.

(** * A read error restarts the revisions *)

Section read_error.
Context `{KVCodecSpec} {DB : Type} `{LevelDBSpec DB}.
Implicit Types (d : DB).

(** [CurrentRevisionLocked] takes every status for a missing counter, an
    I/O error included: one failed read of [meta/revision] and the next [Put]
    allocates revision 1 and writes it back, however far the store was. *)
Theorem read_error_restarts_revision d dir key value msg :
  db_get d RevisionMetaKey = GetError msg -> accepts_writes d ->
  exists kv d', Put (mkStore (Some d) dir) key value =
      Done (1, Some kv, mkStore (Some d') dir) /\
    kv_revision kv = 1 /\ counter (contents d') RevisionMetaKey = 1.
Proof.
  intros He Ha.
  assert (Hr : CurrentRevisionLocked d = 0) by (unfold CurrentRevisionLocked; by rewrite He).
  unfold Put, with_db. cbn [db_ data_dir_]. unfold PutLocked, NextRevisionLocked. rewrite Hr.
  change (to_int64 (0 + 1)) with 1. cbn iota zeta. cbn [Z.ltb Z.compare].
  match goal with |- context [db_write d ?b] =>
    pose proof (Ha b) as Hb; destruct (db_write d b) as [e d'] eqn:E end.
  simpl in Hb. subst e. do 2 eexists. split; [done|]. split; [done|].
  rewrite (db_write_ok _ _ _ E). unfold counter. simpl.
  rewrite !lookup_insert_ne, lookup_insert_eq by auto with str.
  by apply (counter_roundtrip 1).
Qed.
End read_error.

(** * Witnesses *)

Definition demo_fs : MemDB.fs := MemDB.mkFS ∅ true true None.

(** A node that held one key and installs the snapshot of the demonstration
    store. *)
Definition old_node : Store MemDB.t :=
  mkStore (Some (run MemDB.empty [CmdPut "stale" "1"])) "data".

Definition load_demo (fs : MemDB.fs) : outcome (option string * Store MemDB.t * MemDB.fs) :=
  LoadSnapshot old_node fs (ExportSnapshotLocked demo_db).

Definition loaded (fs : MemDB.fs) : MemDB.t :=
  match load_demo fs with
  | Done (None, mkStore (Some d) _, _) => d
  | _ => demo_db
  end.

(** When the old directory survives, so do its keys. *)
Lemma LoadSnapshot_keeps_stale_keys :
  let fs := MemDB.mkFS ∅ true false None in
  exists fs', load_demo fs = Done (None, mkStore (Some (loaded fs)) "data", fs') /\
    Get (mkStore (Some demo_db) "data") "stale" = Done (None, KEY_NOT_FOUND) /\
    Get (mkStore (Some (loaded fs)) "data") "stale" =
      Done (Some (mkKV "stale" "1" 1 1 false), OK).
Proof. eexists. split_and!; by vm_compute. Qed.

(** How [LoadSnapshot] fails.  When the directory cannot be opened again, the
    call reports the error (or lets the exception of [create_directories] through),
    but the old database is already closed and removed: the node is left without
    one and every later access runs into the null pointer.  And the error code of
    [remove_all] is not looked at: when the old directory survives, the call
    succeeds and the node answers a key that is not in the snapshot. *)
Theorem LoadSnapshot_failures :
  (forall DB FS `{KVCodec} `{LevelDB DB} `{!LevelDBFiles DB FS} (st : Store DB) (fs : FS) data,
     let dir := data_dir_ st in
     let fs1 := snd (fs_remove_all (snd (reset_db st fs)) dir) in
     (forall e, fs_create_directories fs1 dir = Throws e -> LoadSnapshot st fs data = Throws e) /\
     (forall fs2 err fs3,
        fs_create_directories fs1 dir = Done fs2 -> db_open fs2 dir = (inl err, fs3) ->
        exists st', LoadSnapshot st fs data = Done (Some err, st', fs3) /\ data_dir_ st' = dir /\
          (forall k, Get st' k = Throws NullDeref) /\
          (forall k v, Put st' k v = Throws NullDeref) /\
          CurrentRevision st' = Throws NullDeref /\ ExportSnapshot st' = Throws NullDeref)) /\
  let fs := MemDB.mkFS ∅ true false None in
  exists fs', load_demo fs = Done (None, mkStore (Some (loaded fs)) "data", fs') /\
    Get (mkStore (Some demo_db) "data") "stale" = Done (None, KEY_NOT_FOUND) /\
    Get (mkStore (Some (loaded fs)) "data") "stale" =
      Done (Some (mkKV "stale" "1" 1 1 false), OK).
Proof. split; [intros; apply LoadSnapshot_open_failure|exact LoadSnapshot_keeps_stale_keys]. Qed.

(** A version is published while the pass is under way. *)
Lemma Compaction_correct_witness :
  let d := run demo_db [CmdPublish "app" "4000"] in
  exists d', CompactionLocked demo_db d 1 = Done (3, d') /\
    (forall k, Get (mkStore (Some d') "data") k = Get (mkStore (Some d) "data") k) /\
    GetConfig (mkStore (Some d') "data") "app" 3 = GetConfig (mkStore (Some d) "data") "app" 3.
Proof.
  intros d. assert (size (victims (Z.max 1 1) (m_hist demo_state)) = 3%nat) as Hn
    by by vm_compute.
  assert (~ indexed_by (victims (Z.max 1 1) (m_hist demo_state)) ("app", 3)) as Hi.
  { eapply bool_decide_eq_false. by vm_compute. }
  assert (rtc apply_step demo_state (fst (spec_apply demo_state (CmdPublish "app" "4000"))))
    as Hs by (apply rtc_once, ApplyStep; by vm_compute).
  assert (0 < 3 <= int64_max) as H3 by by apply positive_int64; vm_compute.
  destruct (run_rep demo_db demo_state [CmdPublish "app" "4000"])
    as [Hd He]; [by vm_compute|exact demo_rep|by vm_compute|].
  destruct (Compaction_correct demo_db demo_state d _ "data" 1 demo_rep Hd Hs
    (mem_accepts _ He)) as (d' & E & _ & Hg & Hc & _).
  rewrite Hn in E. exists d'. split; [exact E|split; [exact Hg|]].
  rewrite (Hc "app" 3 H3), decide_False; [reflexivity|exact Hi].
Defined.

Lemma Close_then_Open_witness :
  let '(st1, fs1) := Close (mkStore (Some demo_db) "data") demo_fs in
  exists st2 fs2, Open st1 fs1 "data" = Done (None, st2, fs2) /\
    exists d2, st2 = mkStore (Some d2) "data" /\ Rep d2 demo_state.
Proof.
  destruct (Close (mkStore (Some demo_db) "data") demo_fs) as [st1 fs1] eqn:Ec.
  assert (exists st2 fs2, Open st1 fs1 "data" = Done (None, st2, fs2)) as (st2 & fs2 & Eo).
  { unfold Close, reset_db in Ec. simpl in Ec. injection Ec as <- <-. by do 2 eexists. }
  exists st2, fs2. split; [exact Eo|].
  destruct (Close_then_Open demo_db demo_state "data" demo_fs st1 fs1 st2 fs2 demo_rep)
    as (_ & d2 & E2 & Hd2 & _); [by vm_compute|exact Ec|exact Eo|].
  exists d2. split; [exact E2|exact Hd2].
Defined.

Lemma load_demo_ok : exists fs', load_demo demo_fs =
  Done (None, mkStore (Some (loaded demo_fs)) "data", fs').
Proof. eexists. by vm_compute. Qed.

Lemma loaded_rep : Rep (loaded demo_fs) (spec_reload demo_state).
Proof.
  destruct load_demo_ok as [fs' E].
  destruct (LoadSnapshot_rep demo_db demo_state _ old_node demo_fs _ fs' demo_rep eq_refl E)
    as (d' & [= <-] & Hd'); [by vm_compute|exact Hd'].
Qed.

Lemma LoadSnapshot_installs_witness :
  exists d', Rep d' (spec_reload demo_state) /\
    Get (mkStore (Some d') "data") "stale" = Get (mkStore (Some demo_db) "data") "stale" /\
    GetHistory (mkStore (Some d') "data") "app" = GetHistory (mkStore (Some demo_db) "data") "app".
Proof.
  destruct load_demo_ok as [fs' E].
  destruct (LoadSnapshot_installs demo_db demo_state "data" (ExportSnapshotLocked demo_db)
    old_node demo_fs _ fs' demo_rep eq_refl E) as (d' & Est & Hd' & Hg & _ & Hh & _);
    [by vm_compute|].
  cbn [data_dir_ old_node] in Est. rewrite Est in Hg, Hh. exists d'. split; [exact Hd'|split; [apply Hg|apply Hh]].
Defined.

Lemma read_error_restarts_revision_witness :
  let d := MemDB.mk "data" (MemDB.mem demo_db) None true in
  exists kv d', Put (mkStore (Some d) "data") "b" "2" =
    Done (1, Some kv, mkStore (Some d') "data") /\ kv_revision kv = 1.
Proof.
  intros d. destruct (read_error_restarts_revision d "data" "b" "2" "io error")
    as (kv & d' & E & Hr & _); [done|by apply mem_accepts|].
  exists kv, d'. split; [exact E|exact Hr].
Defined.
