(* ===== verification/Replicas.v ===== *)
(** Replicas that apply the same commands while each compacts on its own
    (src/src/raft applies committed commands through [ApplyCmdToStore];
    src/src/server/server.cpp runs [Compaction] per node, outside the log).
    Two states are equivalent here when they hold the same revision and the same
    current records; the retained history and the version index may differ. *)
From S2P Require Import Prelude CxxStd StoreKey Proto LevelDB Store StoreSpec StoreRepr.
From S2P Require Import StoreRefine StoreScan StoreCompact StoreSnapshot StoreOps StoreEvents.
From S2P Require Import Demo StoreRun.

#[export] Instance mvcc_equiv : Equiv Mvcc := fun a b =>
  m_rev a = m_rev b /\ m_main a = m_main b.

#[export] Instance mvcc_equivalence : Equivalence (≡@{Mvcc}).
Proof.
  split; [by intros a|by intros a b []|].
  intros a b c [H1 H2] [H3 H4]. split; congruence.
Qed.

#[export] Instance m_rev_proper : Proper ((≡) ==> (=)) m_rev.
Proof. by intros a b []. Qed.
#[export] Instance m_main_proper : Proper ((≡) ==> (=)) m_main.
Proof. by intros a b []. Qed.
#[export] Instance spec_version_proper : Proper ((≡) ==> (=) ==> (=)) spec_version.
Proof. intros a b E k ? <-. unfold spec_version. by rewrite E. Qed.
#[export] Instance spec_get_proper : Proper ((≡) ==> (=) ==> (=)) spec_get.
Proof. intros a b E k ? <-. unfold spec_get. by rewrite E. Qed.
#[export] Instance spec_record_proper :
  Proper ((≡) ==> (=) ==> (=) ==> (=) ==> (=)) spec_record.
Proof. intros a b E k ? <- v ? <- x ? <-. unfold spec_record. by rewrite E. Qed.
#[export] Instance spec_commit_proper : Proper ((≡) ==> (=) ==> (≡)) spec_commit.
Proof. intros a b E kv ? <-. split; [done|]. simpl. by rewrite E. Qed.
#[export] Instance spec_index_proper : Proper ((≡) ==> (=) ==> (≡)) spec_index.
Proof. by intros a b E kv ? <-. Qed.
#[export] Instance spec_cas_matches_proper :
  Proper ((≡) ==> (=) ==> (=) ==> (=)) spec_cas_matches.
Proof. intros a b E k ? <- x ? <-. unfold spec_cas_matches. by rewrite E. Qed.
#[export] Instance spec_batch_record_proper :
  Proper ((≡) ==> (≡) ==> (=) ==> (=)) spec_batch_record.
Proof. intros a0 b0 E0 a b E e ? <-. unfold spec_batch_record. by rewrite E, E0. Qed.

#[export] Instance spec_batch_proper : Proper ((≡) ==> (≡) ==> (=) ==> (≡)) spec_batch.
Proof.
  intros a0 b0 E0 a b E kvs ? <-. revert a b E.
  induction kvs as [|e kvs IH]; intros a b E; [done|]. simpl. apply IH. by rewrite E, E0.
Qed.

#[export] Instance spec_batch_records_proper :
  Proper ((≡) ==> (≡) ==> (=) ==> (=)) spec_batch_records.
Proof.
  intros a0 b0 E0 a b E kvs ? <-. revert a b E.
  induction kvs as [|e kvs IH]; intros a b E; [done|]. simpl. rewrite E, E0 at 1. f_equal.
  apply IH. by rewrite E, E0.
Qed.

(** The commands that read the version index. *)
Definition reads_index (cmd : RaftCmd) : bool :=
  match cmd with CmdRollback _ target => 0 <? target | _ => false end.

(** A command that does not read the index respects the equivalence. *)
Lemma spec_apply_equiv a b cmd :
  a ≡ b -> reads_index cmd = false ->
  fst (spec_apply a cmd) ≡ fst (spec_apply b cmd) /\
  snd (spec_apply a cmd) = snd (spec_apply b cmd).
Proof.
  intros E. destruct cmd as [k v|k|k e v|k v|k t|puts|]; simpl; intros Hr.
  - unfold spec_put. by rewrite E.
  - unfold spec_delete. by rewrite E.
  - rewrite E. destruct (spec_cas_matches b k e); simpl; [|done].
    unfold spec_put. by rewrite E.
  - unfold spec_publish. by rewrite E.
  - unfold spec_get_config. destruct (Z.ltb_spec 0 t); [done|].
    destruct (Z.leb_spec t 0); [|lia]. rewrite E. destruct (spec_get b k); simpl; [|done].
    unfold spec_publish. by rewrite E.
  - by rewrite E.
  - done.
Qed.

Lemma spec_reclaim_equiv v a : spec_reclaim v a ≡ a.
Proof. done. Qed.

Section replica.
Context `{KVCodecSpec} {DB : Type} `{LevelDBSpec DB}.
Implicit Types (d : DB) (a : Mvcc).

(** A node whose device accepts writes applies the commands in order, while
    compaction passes begin and end anywhere in between; the second component is
    what the iterator of the pass under way sees. *)
Inductive replica_run : DB * option DB -> list RaftCmd -> list ApplyResult -> DB -> Prop :=
| RunDone d it : replica_run (d, it) [] [] d
| RunApply d it dir cmd r d1 cmds rs d2 :
    cmd_valid cmd -> CurrentRevisionLocked d + cmd_size cmd <= int64_max ->
    accepts_writes d ->
    ApplyCmdToStore (mkStore (Some d) dir) cmd ApplyResult_default =
      Done (r, mkStore (Some d1) dir) ->
    replica_run (d1, it) cmds rs d2 -> replica_run (d, it) (cmd :: cmds) (r :: rs) d2
| RunCompactBegin d cmds rs d2 :
    replica_run (d, Some d) cmds rs d2 -> replica_run (d, None) cmds rs d2
| RunCompactEnd d d_it keep removed d1 cmds rs d2 :
    CompactionLocked d_it d keep = Done (removed, d1) ->
    replica_run (d1, None) cmds rs d2 -> replica_run (d, Some d_it) cmds rs d2.

(** Every such run follows the specification up to equivalence. *)
Fixpoint spec_results (a : Mvcc) (cmds : list RaftCmd) : Mvcc * list ApplyResult :=
  match cmds with
  | [] => (a, [])
  | cmd :: cmds' =>
      let '(a', r) := spec_apply a cmd in
      let '(a'', rs) := spec_results a' cmds' in (a'', r :: rs)
  end.

Lemma spec_results_equiv a b cmds :
  a ≡ b -> Forall (fun cmd => reads_index cmd = false) cmds ->
  (spec_results a cmds).1 ≡ (spec_results b cmds).1 /\
  (spec_results a cmds).2 = (spec_results b cmds).2.
Proof.
  intros E Hc. revert a b E. induction Hc as [|cmd cmds Hc _ IH]; intros a b E; [done|].
  destruct (spec_apply_equiv a b cmd E Hc) as [E1 E2]. simpl.
  destruct (spec_apply a cmd) as [a1 r1], (spec_apply b cmd) as [b1 r2]. simpl in *.
  destruct (IH a1 b1 E1) as [E3 E4].
  destruct (spec_results a1 cmds), (spec_results b1 cmds). simpl in *. by subst.
Qed.

Lemma replica_run_spec s cmds rs d' a ait :
  replica_run s cmds rs d' -> Rep s.1 a -> iter_rep s.2 ait -> under_way (a, ait) ->
  Forall (fun cmd => reads_index cmd = false) cmds ->
  exists a', Rep d' a' /\ a' ≡ (spec_results a cmds).1 /\ rs = (spec_results a cmds).2.
Proof.
  intros Hr. revert a ait. induction Hr as [d it|d it dir cmd r d1 cmds rs d2 Hv Hf Ha E _ IH|
    d cmds rs d2 _ IH|d d_it keep removed d1 cmds rs d2 E _ IH]; simpl in *;
    intros a ait Hd Hi Hu Hc.
  - by exists a.
  - apply Forall_cons in Hc as [_ Hc]. rewrite (CurrentRevisionLocked_rep _ _ Hd) in Hf.
    destruct (ApplyCmdToStore_refines d dir a cmd Hd Hv Hf) as (r' & d'' & E' & Hr).
    rewrite E' in E. simplify_eq. destruct Hr as [[-> Hd1]|(_ & _ & Hn & _)]; [|done].
    pose proof (mvcc_step_under_way _ _ (MvccApply a ait cmd Hv Hf) Hu) as Hu'.
    destruct (spec_apply a cmd) as [a1 r1]. simpl in *.
    destruct (IH a1 ait Hd1 Hi Hu' Hc) as (a2 & Hd2 & He & ->). exists a2.
    by destruct (spec_results a1 cmds).
  - destruct ait as [?|]; [by inversion Hi|]. apply (IH a (Some a)); try done.
    + by constructor.
    + by eapply mvcc_step_under_way; [apply MvccCompactBegin|].
  - destruct ait as [a0|]; [|by inversion Hi]. inversion Hi as [? ? Hd0|]; subst.
    pose proof Hu as [_ [_ Hs]].
    destruct (CompactionLocked_during d_it a0 d a keep Hd0 Hd Hs) as (n & d'' & E' & _ & Hr).
    rewrite E' in E. simplify_eq. destruct Hr as [Hd1|[_ Hd1]].
    2: { apply (IH a None); try done; [constructor|].
         by eapply mvcc_step_under_way; [apply (MvccCompactLost a a0)|]. }
    destruct (IH _ None Hd1) as (a2 & Hd2 & He & ->); [constructor| |done|].
    { by eapply mvcc_step_under_way; [apply (MvccCompactEnd a a0 keep)|]. }
    exists a2.
    destruct (spec_results_equiv _ _ cmds (spec_reclaim_equiv
      (victims (Z.max 1 keep) (m_hist a0)) a) Hc) as [E1 E2].
    split_and!; [done| |done]. by rewrite He.
Qed.

(** C32. Replicas agree whatever their compaction schedules, also while passes
    run beside the commands: two nodes that start from equivalent states, whose devices
    accept the writes, and that apply the same commands, none of which rolls back to an
    explicit version, return the same results (records,
    revisions, codes and events), and end with the same revision and the same
    value of every key. *)
Theorem replicas_agree d1 d2 a1 a2 cmds rs1 rs2 d1' d2' dir :
  Rep d1 a1 -> Rep d2 a2 -> a1 ≡ a2 ->
  Forall (fun cmd => reads_index cmd = false) cmds ->
  replica_run (d1, None) cmds rs1 d1' -> replica_run (d2, None) cmds rs2 d2' ->
  rs1 = rs2 /\ CurrentRevisionLocked d1' = CurrentRevisionLocked d2' /\
  forall k, Get (mkStore (Some d1') dir) k = Get (mkStore (Some d2') dir) k.
Proof.
  intros Hd1 Hd2 E Hc H1' H2'.
  assert (forall d a, Rep d a -> under_way (a, None)) as Hu
    by (intros d a Hd; split; [by eapply rep_wf|done]).
  destruct (replica_run_spec _ _ _ _ _ None H1' Hd1) as (b1 & G1 & E1 & ->);
    [constructor|by eapply Hu|done|].
  destruct (replica_run_spec _ _ _ _ _ None H2' Hd2) as (b2 & G2 & E2 & ->);
    [constructor|by eapply Hu|done|].
  destruct (spec_results_equiv _ _ cmds E Hc) as [E3 E4].
  assert (b1 ≡ b2) as Eb by by rewrite E1, E2.
  split_and!; [done| |].
  - rewrite (CurrentRevisionLocked_rep _ _ G1), (CurrentRevisionLocked_rep _ _ G2). by rewrite Eb.
  - intros k. rewrite (Get_rep _ _ _ _ G1), (Get_rep _ _ _ _ G2). by rewrite Eb.
Qed.
End replica.

(** A run of the in-memory engine is such a run. *)
Lemma mem_replica_run (d : MemDB.t) it a cmds :
  MemDB.write_error d = None -> Rep d a -> run_ok a cmds = true ->
  replica_run (d, it) cmds (spec_results a cmds).2 (run d cmds).
Proof.
  revert d a. induction cmds as [|cmd cmds IH]; intros d a He Hd Hok; [constructor|].
  simpl in Hok. rewrite !andb_true_iff in Hok. destruct Hok as [[Hv Hf] Hok].
  apply bool_decide_eq_true in Hv. apply Z.leb_le in Hf.
  destruct (ApplyCmdToStore_refines d "data" a cmd Hd Hv Hf) as (r & d' & E & Hr).
  destruct (ApplyCmdToStore_one_write _ _ _ _ _ _ E) as (d'' & [= <-] & Hw).
  destruct Hr as [[-> Hr]|(_ & _ & Ha & _)]; [|by destruct Ha; apply mem_accepts].
  cbn [run]. rewrite E. cbn [spec_results].
  destruct (spec_apply a cmd) as [a1 r1] eqn:Es. simpl in *.
  assert (replica_run (d', it) cmds (spec_results a1 cmds).2 (run d' cmds)) as Hrun.
  { apply IH; [by eapply mem_one_write|done|done]. }
  destruct (spec_results a1 cmds) as [a2 rs]. simpl in *.
  apply (RunApply d it "data" cmd r1 d'); try done; [|by apply mem_accepts].
  by rewrite (CurrentRevisionLocked_rep _ _ Hd).
Qed.

(** The restriction is needed: from the same database, a replica that has
    compacted answers a rollback to version 1 with VERSION_NOT_FOUND and leaves
    its revision, while one that has not compacted applies it; from then on
    their revisions and current values differ. *)
Theorem rollback_diverges_after_compaction :
  exists r1 r2 (d1 d2 : MemDB.t),
    replica_run (demo_db, None) [CmdRollback "app" 1] [r1] d1 /\
    replica_run (demo_db, None) [CmdRollback "app" 1] [r2] d2 /\
    ar_code r1 = OK /\ ar_code r2 = VERSION_NOT_FOUND /\
    CurrentRevisionLocked d1 = 7 /\ CurrentRevisionLocked d2 = 6 /\
    kv_value <$> fst (GetLocked d1 "app") = Some "1000" /\
    kv_value <$> fst (GetLocked d2 "app") = Some "3000".
Proof.
  set (cmd := CmdRollback "app" 1).
  exists (spec_apply demo_state cmd).2, (spec_apply (spec_compact 1 demo_state) cmd).2,
    (run demo_db [cmd]), (run demo_compacted [cmd]).
  split_and!; [| |by vm_compute..].
  - apply (mem_replica_run demo_db None demo_state [cmd]); [by vm_compute|demo|by vm_compute].
  - apply RunCompactBegin, (RunCompactEnd _ _ 1 3 demo_compacted); [by vm_compute|].
    apply (mem_replica_run demo_compacted None (spec_compact 1 demo_state) [cmd]);
      [by vm_compute|exact demo_compacted_rep|by vm_compute].
Qed.

Lemma replicas_agree_witness :
  let cmds := [CmdPut "b" "5"; CmdRollback "app" 0; CmdCas "app" "3000" "z"] in
  exists rs (d1 d2 : MemDB.t),
    replica_run (demo_db, None) cmds rs d1 /\ replica_run (demo_compacted, None) cmds rs d2 /\
    forall k, Get (mkStore (Some d1) "data") k = Get (mkStore (Some d2) "data") k.
Proof.
  intros cmds. assert (Forall (fun cmd => reads_index cmd = false) cmds) as Hc
    by repeat constructor.
  assert (R1 : replica_run (demo_db, None) cmds (spec_results demo_state cmds).2 (run demo_db cmds)).
  { apply mem_replica_run; [by vm_compute|demo|by vm_compute]. }
  assert (R2 : replica_run (demo_compacted, None) cmds
    (spec_results (spec_compact 1 demo_state) cmds).2 (run demo_compacted cmds)).
  { apply mem_replica_run; [by vm_compute|exact demo_compacted_rep|by vm_compute]. }
  destruct (replicas_agree _ _ _ _ _ _ _ _ _ "data" demo_rep demo_compacted_rep
    (symmetry (spec_reclaim_equiv _ demo_state)) Hc R1 R2) as (E & _ & Hg).
  rewrite <-E in R2. do 3 eexists. split; [exact R1|split; [exact R2|exact Hg]].
Defined.
