(* ===== verification/StoreLife.v ===== *)
(** The life of a store: opened, used by commands and compaction passes, closed,
    opened again, replaced by snapshots of other nodes, with any of these steps
    failing.  Whatever the order, a store that is open represents a well-formed
    state (src/src/store/store.cpp). *)
From S2P Require Import Prelude CxxStd StoreKey Proto LevelDB Store StoreSpec StoreRepr.
From S2P Require Import StoreRefine StoreScan StoreCompact StoreSnapshot StoreOps StoreRun StoreEvents.
From S2P Require Import Demo StoreMaintenance.

Section life.
Context `{KVCodecSpec} {DB FS : Type} `{LevelDBFilesSpec DB FS}.
Implicit Types (d : DB) (fs : FS) (a : Mvcc) (dir : string).

(** The object, the disk, and what the iterator of a compaction pass sees. *)
Record Life := mkLife {
  lf_store : Store DB;
  lf_fs : FS;
  lf_it : option DB
}.

(** The steps.  [Open], [Close] and [LoadSnapshot] take the lock exclusively, so
    no pass is under way; a call that throws ends the process and is no step.  A
    snapshot is one of a well-formed state, and the old directory can be
    removed. *)
Inductive life_step dir : Life -> Life -> Prop :=
| LifeRun d it d' it' fs : db_step (d, it) (d', it') ->
    life_step dir (mkLife (mkStore (Some d) dir) fs it) (mkLife (mkStore (Some d') dir) fs it')
| LifeOpen st fs err st' fs' : db_ st = None -> Open st fs dir = Done (err, st', fs') ->
    life_step dir (mkLife st fs None) (mkLife st' fs' None)
| LifeClose st fs st' fs' : data_dir_ st = dir -> Close st fs = (st', fs') ->
    life_step dir (mkLife st fs None) (mkLife st' fs' None)
| LifeLoad st fs b data err st' fs' :
    data_dir_ st = dir -> wf b -> snapshot_of b data ->
    fst (fs_remove_all (snd (reset_db st fs)) dir) = true ->
    LoadSnapshot st fs data = Done (err, st', fs') ->
    life_step dir (mkLife st fs None) (mkLife st' fs' None).

(** The state [a] is in the open database, or on the disk. *)
Definition life_rep dir (s : Life) a : Prop :=
  match db_ (lf_store s) with
  | Some d => data_dir_ (lf_store s) = dir /\ db_dir d = dir /\ Rep d a /\
      exists ait, iter_rep (lf_it s) ait /\ under_way (a, ait)
  | None => lf_it s = None /\ wf a /\ Repr (disk (lf_fs s) dir) a
  end.

Lemma life_rep_open dir d fs a : db_dir d = dir -> Rep d a ->
  life_rep dir (mkLife (mkStore (Some d) dir) fs None) a.
Proof.
  intros Hd Hr. split_and!; try done. exists None.
  split; [constructor|split; [by eapply rep_wf|done]].
Qed.

Lemma life_rep_disk dir st fs a : db_ st = None -> wf a -> Repr (disk fs dir) a ->
  life_rep dir (mkLife st fs None) a.
Proof. intros Hs Hw Hm. unfold life_rep. simpl. by rewrite Hs. Qed.

Lemma life_rep_wf dir s a : life_rep dir s a -> wf a.
Proof.
  unfold life_rep. destruct (db_ (lf_store s)) as [d|]; [intros (_ & _ & Hr & _)|by intros (_ & ? & _)].
  by eapply rep_wf.
Qed.

(** * Every step keeps it *)

Lemma one_write_dir d d' : one_write d d' -> db_dir d' = db_dir d.
Proof. intros [->|[b ->]]; [done|apply db_write_dir]. Qed.

Lemma CompactionLocked_one_write d_it d keep n d' :
  CompactionLocked d_it d keep = Done (n, d') -> one_write d d'.
Proof.
  unfold CompactionLocked. destruct (compaction_collect _ _) as [m|]; [|done]. simpl.
  destruct (foldl _ _ _) as [[b k] mx]. destruct (0 <? k); intros; simplify_eq;
    [right; by eexists|by left].
Qed.

Lemma db_step_dir s s' : db_step s s' -> db_dir s'.1 = db_dir s.1.
Proof.
  destruct 1 as [d it dir cmd r d' Hv Hf E|d|d d_it keep removed d' E]; simpl; [|done|].
  - apply ApplyCmdToStore_one_write in E as (d1 & E1 & Hw). simplify_eq. by apply one_write_dir.
  - by eapply one_write_dir, CompactionLocked_one_write.
Qed.

Lemma life_run dir d it d' it' fs a :
  db_step (d, it) (d', it') -> life_rep dir (mkLife (mkStore (Some d) dir) fs it) a ->
  exists a', life_rep dir (mkLife (mkStore (Some d') dir) fs it') a'.
Proof.
  intros Hs (_ & Hdir & Hd & ait & Hi & Hu).
  destruct (db_step_simulated (d, it) (d', it') a ait Hd Hi Hu Hs) as (a' & ait' & Hm & Hd' & Hi').
  exists a'. split_and!; try done.
  - apply db_step_dir in Hs. simpl in Hs. simpl. congruence.
  - exists ait'. split; [done|]. by eapply mvcc_steps_under_way.
Qed.

(** A call of [OpenLocked] on a store that is closed. *)
Lemma OpenLocked_life st fs dir err st' fs' a :
  db_ st = None -> wf a -> Repr (disk fs dir) a ->
  OpenLocked st fs dir = Done (err, st', fs') ->
  (err <> None /\ db_ st' = None /\ Repr (disk fs' dir) a) \/
  (err = None /\ exists d, st' = mkStore (Some d) dir /\ db_dir d = dir /\ Rep d a /\
     contents d = disk fs dir).
Proof.
  intros Hs Hw Hm. unfold OpenLocked.
  destruct (fs_create_directories fs dir) as [fs1|] eqn:Ec; [|done]. simpl.
  apply fs_create_directories_disk in Ec. rewrite <-Ec in Hm.
  destruct (db_open fs1 dir) as [[e|d] fs2] eqn:Eo.
  - intros [= <- <- <-]. left. apply db_open_error_disk in Eo. rewrite Eo. done.
  - destruct (reset_db st fs2) as [st2 fs3]. intros [= <- <- <-]. right. split; [done|].
    apply db_open_ok in Eo as (Hc & Hr & Hdir). exists d. rewrite <-Ec.
    split_and!; try done. split_and!; [done|by rewrite Hc|done].
Qed.

Lemma reset_db_life dir st fs a :
  data_dir_ st = dir -> life_rep dir (mkLife st fs None) a ->
  db_ (reset_db st fs).1 = None /\ data_dir_ (reset_db st fs).1 = dir /\
  Repr (disk (reset_db st fs).2 dir) a.
Proof.
  intros Hdir. unfold life_rep, reset_db. simpl. destruct (db_ st) as [d|] eqn:Ed; simpl.
  - intros (_ & Hd & Hr & _). rewrite <-Hd, db_close_disk, Hd. split_and!; [done..|by apply rep_repr].
  - by intros (_ & _ & ?).
Qed.

(** After [LoadSnapshot] the state is the snapshot's, or empty. *)
Lemma LoadSnapshot_life dir st fs b data err st' fs' a :
  data_dir_ st = dir -> life_rep dir (mkLife st fs None) a -> wf b -> snapshot_of b data ->
  fst (fs_remove_all (snd (reset_db st fs)) dir) = true ->
  LoadSnapshot st fs data = Done (err, st', fs') ->
  exists a', life_rep dir (mkLife st' fs' None) a' /\
    (err = None -> a' = spec_reload b) /\ (err <> None -> a' = mvcc_empty).
Proof.
  intros Hdir Ha Hw Hsd Hrm. destruct (reset_db_life _ _ _ _ Hdir Ha) as (Hn & Hd0 & _).
  unfold LoadSnapshot. destruct (reset_db st fs) as [st0 fs0]. simpl in *. rewrite Hd0.
  destruct (fs_remove_all fs0 dir) as [ok fs1] eqn:Er. simpl in Hrm. subst ok.
  apply fs_remove_all_disk in Er.
  destruct (OpenLocked st0 fs1 dir) as [[[e st1] fs2]|] eqn:Eo; [|done]. simpl.
  apply (OpenLocked_life _ _ _ _ _ _ mvcc_empty Hn wf_empty) in Eo;
    [|rewrite Er; apply repr_empty].
  destruct Eo as [(He & Hn1 & Hm)|(-> & d & -> & Hdd & Hr & Hc)].
  - destruct e as [e|]; [|done]. intros [= <- <- <-]. exists mvcc_empty.
    split; [|done]. by apply life_rep_disk; [|apply wf_empty|].
  - simpl. destruct (db_write d (load_batch data)) as [[e|] d'] eqn:Ew; intros [= <- <- <-].
    + exists mvcc_empty. split; [|done]. apply life_rep_open; [|by eapply rep_write_error].
      rewrite <-Hdd. by eapply one_write_dir, one_write_db_write.
    + exists (spec_reload b). split; [|done]. apply life_rep_open.
      { rewrite <-Hdd. by eapply one_write_dir, one_write_db_write. }
      eapply rep_write_ok; [done..| |by apply spec_reload_wf].
      rewrite Hc, Er. by apply load_batch_repr.
Qed.

Lemma life_step_rep dir s s' a :
  life_step dir s s' -> life_rep dir s a -> exists a', life_rep dir s' a'.
Proof.
  destruct 1 as [d it d' it' fs Hs|st fs err st' fs' Hn Ho|st fs st' fs' Hd Hc|
    st fs b data err st' fs' Hd Hw Hsd Hrm Hl]; intros Ha.
  - by eapply life_run.
  - pose proof Ha as Ha'. unfold life_rep in Ha. simpl in Ha. rewrite Hn in Ha.
    destruct Ha as (_ & Hw & Hm). exists a.
    destruct (OpenLocked_life _ _ _ _ _ _ a Hn Hw Hm Ho)
      as [(_ & Hn' & Hm')|(_ & d & -> & Hdd & Hr & _)];
      [by apply life_rep_disk|by apply life_rep_open].
  - destruct (reset_db_life _ _ _ _ Hd Ha) as (Hn & _ & Hm). unfold Close in Hc.
    rewrite Hc in Hn, Hm. exists a. apply life_rep_disk; [done|by eapply life_rep_wf|done].
  - destruct (LoadSnapshot_life _ _ _ _ _ _ _ _ _ Hd Ha Hw Hsd Hrm Hl) as (a' & ? & _).
    by exists a'.
Qed.

Lemma life_reachable dir fs s :
  disk fs dir = ∅ -> rtc (life_step dir) (mkLife (mkStore None "") fs None) s ->
  exists a, life_rep dir s a.
Proof.
  intros Hempty Hs.
  assert (life_rep dir (mkLife (mkStore None "") fs None) mvcc_empty) as H0'.
  { apply life_rep_disk; [done|apply wf_empty|]. rewrite Hempty. apply repr_empty. }
  revert H0'. generalize mvcc_empty. induction Hs as [|s s1 s2 Hst _ IH]; [by eauto|].
  intros a Ha. destruct (life_step_rep _ _ _ _ Hst Ha) as [a1 Ha1]. by apply (IH a1).
Qed.

(** C12. The invariant of the store.  From an empty directory, and through any
    sequence of opening, closing, commands, compaction passes beside them and
    snapshots installed, with writes refused and opening failing anywhere, but the old
    directory removed whenever a snapshot is loaded (the code does not look at the
    error of [remove_all], and old keys that survived would break the bounds), a
    store that is open represents a well-formed state: its reclaimed revision
    never exceeds its revision; the record [Get] returns is the live one of its
    key, with a version and a revision in range; and above the reclaimed revision
    no change is missing, a replay finds exactly one for every revision. *)
Theorem store_life_invariant dir fs s d :
  disk fs dir = ∅ -> rtc (life_step dir) (mkLife (mkStore None "") fs None) s ->
  db_ (lf_store s) = Some d ->
  let st := mkStore (Some d) dir in
  exists rev compact,
    lf_store s = st /\ CurrentRevision st = Done rev /\ CompactRev st = Done compact /\
    0 <= compact <= rev /\ rev <= int64_max /\
    (forall k kv c, Get st k = Done (Some kv, c) -> kv_key kv = k /\ kv_deleted kv = false /\
       1 <= kv_version kv <= kv_revision kv /\ kv_revision kv <= rev) /\
    (forall from max, compact <= from <= rev -> rev - from < Z.of_nat max ->
       exists evs, ReplayEvents st from rev "" (Z.of_nat max) = Done (true, evs, OK) /\
         ev_revision <$> evs = seqZ (from + 1) (rev - from)).
Proof.
  intros Hempty Hs Hd st.
  destruct (life_reachable _ _ _ Hempty Hs) as [a Ha].
  unfold life_rep in Ha. rewrite Hd in Ha. destruct Ha as (Hdir & _ & Hr & _).
  pose proof (rep_wf _ _ Hr) as Hw. pose proof (wf_bounds _ Hw).
  exists (m_rev a), (m_compact a). split_and!; try lia.
  - destruct (lf_store s). simpl in *. by subst.
  - unfold CurrentRevision, read_db. simpl. by rewrite (CurrentRevisionLocked_rep _ _ Hr).
  - unfold CompactRev, read_db. simpl. by rewrite (CompactRevLocked_rep _ _ Hr).
  - intros k kv c E. unfold st in E. rewrite (Get_rep _ _ _ _ Hr) in E. unfold spec_get in E.
    destruct (m_main a !! k) as [x|] eqn:Em; [|done].
    destruct (kv_deleted x) eqn:Ex; simplify_eq.
    destruct (wf_main _ Hw _ _ Em) as [? Hh]. destruct (wf_hist _ Hw _ _ Hh) as (_ & ? & ? & _).
    split_and!; try done; lia.
  - intros from max Hf Hmax. exists (spec_event <$> changes (m_hist a) from (m_rev a) "").
    unfold ReplayEvents, st. simpl.
    rewrite (ReplayEventsLocked_refines _ _ _ _ _ _ _ _ Hr Hr) by lia. unfold replay_result.
    destruct (Nat.eqb_spec max 0); [lia|]. rewrite Z.max_r by lia.
    destruct (Z.ltb_spec from (m_compact a)); [lia|]. unfold spec_replay.
    pose proof (changes_revs a from (m_rev a) Hw ltac:(lia) ltac:(lia)) as Hseq.
    assert (length (changes (m_hist a) from (m_rev a) "") = Z.to_nat (m_rev a - from)) as Hlen
      by by rewrite <-(length_fmap kv_revision), Hseq, length_seqZ.
    rewrite take_ge by (rewrite length_fmap; lia). split; [done|].
    by rewrite <-list_fmap_compose, <-Hseq.
Qed.
(** The type of an entry of the database [m]: what its key says about its value,
    and which other entries it promises. *)
Inductive typed_entry (m : gmap string string) (rev : Z) : string -> string -> Prop :=
| TyRevision raw :
    to_int64 (DecodeUint64 raw) = rev -> typed_entry m rev RevisionMetaKey raw
| TyCompact raw :
    0 <= to_int64 (DecodeUint64 raw) <= rev -> typed_entry m rev CompactRevKey raw
| TyMain k raw kv :
    ParseKV raw = Some kv -> kv_key kv = k -> 1 <= kv_version kv <= kv_revision kv -> kv_revision kv <= rev ->
    m !! VersionKey (kv_revision kv) k = Some raw -> typed_entry m rev (MainKey k) raw
| TyVersion r k raw kv :
    ParseKV raw = Some kv -> kv_key kv = k -> kv_revision kv = r -> 1 <= r <= rev ->
    is_Some (m !! MainKey k) -> typed_entry m rev (VersionKey r k) raw
| TyConfig k v raw kv :
    ParseKV raw = Some kv -> kv_key kv = k -> kv_version kv = v -> 1 <= v ->
    kv_deleted kv = false -> 1 <= kv_revision kv <= rev ->
    is_Some (m !! MainKey k) -> typed_entry m rev (ConfigKey k v) raw.

Lemma repr_typed m a k raw :
  Repr m a -> wf a -> m !! k = Some raw -> typed_entry m (m_rev a) k raw.
Proof.
  intros Hr Hw Hk.
  assert (forall r, 1 <= r <= m_rev a -> in_int64 r) as Hi64.
  { pose proof (wf_bounds _ Hw). unfold in_int64, int64_min, int64_max in *. lia. }
  destruct (repr_layout _ _ Hr k ltac:(by eexists)) as [| |k|r k Hi|k v Hi].
  - constructor. pose proof (repr_rev _ _ Hr) as E. unfold counter in E. by rewrite Hk in E.
  - constructor. pose proof (repr_compact _ _ Hr) as E. unfold counter in E. rewrite Hk in E.
    rewrite E. apply (wf_bounds _ Hw).
  - rewrite (repr_main _ _ Hr) in Hk. destruct (m_main a !! k) as [kv|] eqn:Em; simplify_eq/=.
    destruct (wf_main _ Hw _ _ Em) as [<- Hh]. destruct (wf_hist _ Hw _ _ Hh) as (_ & ? & ? & _).
    eapply TyMain; [apply ParseKV_SerializeKV; by eapply wf_main_encodable|done|lia|lia|].
    rewrite (repr_hist _ _ Hr) by auto. unfold hist_at. rewrite Hh. simpl. by rewrite decide_True.
  - rewrite (repr_hist _ _ Hr) in Hk by done. unfold hist_at in Hk.
    destruct (m_hist a !! r) as [kv|] eqn:Eh; simplify_eq/=.
    destruct (decide (kv_key kv = k)) as [<-|]; simplify_eq/=.
    destruct (wf_hist _ Hw _ _ Eh) as (? & ? & _). destruct (wf_latest _ Hw _ _ Eh) as (cur & Hc & _).
    eapply TyVersion; [apply ParseKV_SerializeKV; by eapply wf_hist_encodable|done..|].
    rewrite (repr_main _ _ Hr), Hc. by eexists.
  - rewrite (repr_cfg _ _ Hr) in Hk by done. destruct (m_cfg a !! (k, v)) as [kv|] eqn:Ec; simplify_eq/=.
    destruct (wf_cfg _ Hw _ _ _ Ec) as (? & ? & ? & ? & ? & _ & cur & Hc & _).
    eapply TyConfig; [apply ParseKV_SerializeKV; by eapply wf_cfg_encodable|done..|].
    rewrite (repr_main _ _ Hr), Hc. by eexists.
Qed.

(** C25. The database is well typed through the whole life of the store: every key
    is of one of the five kinds, every value parses as what its kind holds, with
    the key, version and revision its own key names, within the bound of the
    revision counter; the current record of a key is also a record of the
    history, byte for byte, and nothing is kept of a key without a current
    record. *)
Theorem store_life_typed dir fs s d k raw :
  disk fs dir = ∅ -> rtc (life_step dir) (mkLife (mkStore None "") fs None) s ->
  db_ (lf_store s) = Some d -> contents d !! k = Some raw ->
  exists rev, CurrentRevisionLocked d = rev /\ typed_entry (contents d) rev k raw.
Proof.
  intros Hempty Hs Hd Hk. destruct (life_reachable _ _ _ Hempty Hs) as [a Ha].
  unfold life_rep in Ha. rewrite Hd in Ha. destruct Ha as (_ & _ & Hr & _).
  exists (m_rev a). split; [by apply CurrentRevisionLocked_rep|].
  by apply repr_typed; [apply rep_repr|eapply rep_wf|].
Qed.
End life.

(** A store is opened on an empty directory, written, closed and opened again. *)
Definition demo_life_db : MemDB.t := run MemDB.empty [CmdPut "a" "1"].

Lemma demo_life : exists fs,
  rtc (life_step "data") (mkLife (mkStore None "") demo_fs None)
    (mkLife (mkStore (Some demo_life_db) "data") fs None).
Proof.
  set (d := demo_life_db).
  destruct (OpenLocked (mkStore (None : option MemDB.t) "") demo_fs "data")
    as [[[err st1] fs1]|] eqn:E1; [|discriminate E1].
  assert (st1 = mkStore (Some MemDB.empty) "data") as ->.
  { injection E1 as _ <- _. reflexivity. }
  destruct (Close (mkStore (Some d) "data") fs1) as [st2 fs2] eqn:E2.
  assert (st2 = mkStore None "data") as ->.
  { change st2 with (fst (st2, fs2)). rewrite <-E2. reflexivity. }
  assert (exists fs3, OpenLocked (mkStore (None : option MemDB.t) "data") fs2 "data" =
    Done (None, mkStore (Some d) "data", fs3)) as [fs3 E3].
  { injection E1 as _ <-. injection E2 as <-. eexists. by vm_compute. }
  exists fs3.
  eapply rtc_l; [apply (LifeOpen "data" (mkStore None "") demo_fs err
    (mkStore (Some MemDB.empty) "data") fs1); [done|exact E1]|].
  eapply rtc_l.
  { apply (LifeRun "data" MemDB.empty None d None fs1).
    apply (DbApply MemDB.empty None "data" (CmdPut "a" "1")
      (snd (spec_apply mvcc_empty (CmdPut "a" "1"))) d); by vm_compute. }
  eapply rtc_l; [apply (LifeClose "data" (mkStore (Some d) "data") fs1
    (mkStore None "data") fs2); [done|exact E2]|].
  apply rtc_once, (LifeOpen "data" (mkStore None "data") fs2 None
    (mkStore (Some d) "data") fs3); [done|exact E3].
Qed.

Lemma demo_life_empty : disk demo_fs "data" = ∅.
Proof. by vm_compute. Qed.

Lemma store_life_invariant_witness :
  exists s, rtc (life_step "data") (mkLife (mkStore None "") demo_fs None) s /\
    db_ (lf_store s) = Some demo_life_db /\
    CurrentRevision (mkStore (Some demo_life_db) "data") = Done 1 /\
    (forall k kv c, Get (mkStore (Some demo_life_db) "data") k = Done (Some kv, c) -> kv_key kv = k).
Proof.
  destruct demo_life as [fs Hs].
  exists (mkLife (mkStore (Some demo_life_db) "data") fs None).
  split; [exact Hs|]. split; [reflexivity|].
  destruct (store_life_invariant "data" demo_fs _ demo_life_db demo_life_empty Hs eq_refl)
    as (rev & compact & _ & Hr & _ & _ & _ & Hg & _).
  split; [vm_compute; reflexivity|]. intros k kv c E. exact (proj1 (Hg k kv c E)).
Defined.

(** The current record of ["a"] in that database. *)
Lemma store_life_typed_witness :
  exists raw, contents demo_life_db !! MainKey "a" = Some raw /\
    exists rev, CurrentRevisionLocked demo_life_db = rev /\
      typed_entry (contents demo_life_db) rev (MainKey "a") raw.
Proof.
  assert (is_Some (contents demo_life_db !! MainKey "a")) as [raw Hk] by by vm_compute; eexists.
  destruct demo_life as [fs Hs]. exists raw. split; [exact Hk|].
  exact (store_life_typed "data" demo_fs _ demo_life_db (MainKey "a") raw demo_life_empty Hs eq_refl Hk).
Defined.
