(* ===== verification/StoreOrphans.v ===== *)
(** A published version whose history record is gone but whose index entry is
    still there: compaction finds index entries through history records, so
    nothing reclaims it any more.  Installing a snapshot makes such entries. *)
From S2P Require Import Prelude CxxStd StoreKey Proto LevelDB Store StoreSpec StoreRepr.
From S2P Require Import StoreRefine StoreScan StoreCompact StoreSnapshot StoreOps Demo.
From S2P Require Import StoreMaintenance.

(** The entry of version [v] of [k], superseded and without a history record. *)
Record orphan (a : Mvcc) (k : string) (v : Z) (kv : KV) : Prop := {
  orphan_cfg : m_cfg a !! (k, v) = Some kv;
  orphan_hist r x : m_hist a !! r = Some x -> kv_key x = k -> kv_version x <> v;
  orphan_old : v < spec_version a k
}.

Section orphans.
Context `{KVCodecSpec}.
Implicit Types a : Mvcc.

Lemma orphan_commit a k v kv x :
  orphan a k v kv -> (kv_key x = k -> v < kv_version x) -> orphan (spec_commit a x) k v kv.
Proof.
  intros [Hc Hh Ho] Hx. split; simpl; [done| |].
  - intros r y [[_ <-]|[_ Hy]]%lookup_insert_Some Hk; [specialize (Hx Hk); lia|by eapply Hh].
  - unfold spec_version in *. simpl. destruct (decide (kv_key x = k)) as [Hk|Hk].
    + rewrite Hk, lookup_insert_eq. specialize (Hx Hk). lia.
    + by rewrite lookup_insert_ne.
Qed.

Lemma orphan_record a k v kv key value del :
  orphan a k v kv -> orphan (spec_commit a (spec_record a key value del)) k v kv.
Proof. intros Ho. apply orphan_commit; [done|]. simpl. intros ->. by destruct Ho. Qed.

Lemma orphan_publish a k v kv key value :
  orphan a k v kv -> orphan (spec_publish a key value) k v kv.
Proof.
  intros Ho. pose proof (orphan_record a k v kv key value false Ho) as [Hc Hh Hv].
  split; [|done|done]. unfold spec_publish. cbn [spec_index m_cfg].
  rewrite lookup_insert_ne; [done|]. simpl. intros [= <- E].
  destruct Ho as [_ _ Ho]. lia.
Qed.

Lemma orphan_batch a0 a k v kv kvs :
  orphan a k v kv -> v < spec_version a0 k -> orphan (spec_batch a0 a kvs) k v kv.
Proof.
  intros Ho Hv. revert a Ho. induction kvs as [|e kvs IH]; intros a Ho; [done|]. simpl.
  apply IH, orphan_commit; [done|]. simpl. by intros ->.
Qed.

Lemma orphan_apply a k v kv cmd : orphan a k v kv -> orphan (fst (spec_apply a cmd)) k v kv.
Proof.
  intros Ho. destruct cmd as [key value|key|key e value|key value|key t|puts|]; simpl.
  - by apply orphan_record.
  - by apply orphan_record.
  - destruct (spec_cas_matches a key e); [by apply orphan_record|done].
  - by apply orphan_publish.
  - destruct (spec_get_config a key t); [by apply orphan_publish|done].
  - apply orphan_batch; [done|by destruct Ho].
  - done.
Qed.

Lemma orphan_reclaim a k v kv vs :
  reclaimable vs a -> orphan a k v kv -> orphan (spec_reclaim vs a) k v kv.
Proof.
  intros Hr [Hc Hh Ho]. split; simpl; [| |done].
  - apply map_lookup_filter_Some. split; [done|]. intros (r & x & Hx & Hk & Hv).
    apply (reclaimable_hist _ a) in Hx; [|done]. by destruct (Hh r x Hx Hk).
  - intros r x [Hx _]%lookup_difference_Some. by apply (Hh r).
Qed.

Lemma orphan_steps a b k v kv : rtc store_step a b -> orphan a k v kv -> orphan b k v kv.
Proof.
  induction 1 as [|a b c Hs _ IH]; [done|]. intros Ho. apply IH.
  destruct Hs; [by apply orphan_apply|by apply orphan_reclaim].
Qed.

(** A snapshot keeps the history records that are current only. *)
Lemma orphan_reload a k v kv cur :
  wf a -> m_cfg a !! (k, v) = Some kv -> m_main a !! k = Some cur -> v < kv_version cur ->
  orphan (spec_reload a) k v kv.
Proof.
  intros Hw Hc Hm Hv. split; simpl; [done| |].
  - intros r x [Hx E]%map_lookup_filter_Some <-. simpl in E. rewrite Hm in E. simplify_eq. lia.
  - unfold spec_version. simpl. rewrite Hm. lia.
Qed.
End orphans.

Section never_reclaimed.
Context `{KVCodecSpec} {DB : Type} `{LevelDBSpec DB}.
Implicit Types (d : DB) (a : Mvcc) (dir : string).

(** A node that installed a snapshot keeps its superseded published
    versions for ever: [GetConfig] answers the same record for them after any
    sequence of commands and compaction passes, however small [keep] is. *)
Theorem reloaded_versions_never_reclaimed d a d' b dir k v kv cur :
  wf a -> Rep d (spec_reload a) -> Rep d' b -> rtc store_step (spec_reload a) b ->
  0 < v <= int64_max -> GetConfig (mkStore (Some d) dir) k v = Done (Some kv, OK) ->
  m_main a !! k = Some cur -> v < kv_version cur ->
  GetConfig (mkStore (Some d') dir) k v = Done (Some kv, OK).
Proof.
  intros Hw Hd Hd' Hs Hv Hg Hm Hlt. assert (in_int64 v) by (unfold in_int64, int64_min; lia).
  rewrite (GetConfig_rep _ _ _ _ _ Hd) in Hg by done.
  rewrite (GetConfig_rep _ _ _ _ _ Hd') by done.
  unfold spec_get_config in *. destruct (Z.leb_spec v 0); [lia|]. simpl in Hg.
  destruct (m_cfg a !! (k, v)) as [x|] eqn:Ec; [|done]. simplify_eq.
  destruct (orphan_steps _ _ _ _ _ Hs (orphan_reload a k v kv cur Hw Ec Hm Hlt)) as [-> _ _].
  done.
Qed.
End never_reclaimed.

Lemma reloaded_versions_never_reclaimed_witness :
  exists d', CompactionLocked (loaded demo_fs) (loaded demo_fs) 1 = Done (0, d') /\
    GetConfig (mkStore (Some d') "data") "app" 1 =
      Done (Some (mkKV "app" "1000" 1 1 false), OK).
Proof.
  destruct (CompactionLocked_refines (loaded demo_fs) _ 1 loaded_rep)
    as (n & d' & E & -> & [Hd'|[Ha _]]).
  - exists d'. split; [rewrite E; by vm_compute|]. clear E.
    apply (reloaded_versions_never_reclaimed (loaded demo_fs) demo_state d'
      (spec_compact 1 (spec_reload demo_state)) "data" "app" 1 _ (mkKV "app" "3000" 3 5 false));
      [eapply rep_wf, demo_rep|exact loaded_rep|exact Hd'|apply rtc_once, step_compact; eapply rep_wf, loaded_rep
      |by vm_compute|by vm_compute|by vm_compute|by vm_compute].
  - destruct Ha. apply mem_accepts. by vm_compute.
Defined.
