(* ===== verification/WatchHub.v ===== *)
(** Model of the hub of src/src/watch/watch_hub.{h,cpp}: the waiters, their
    registration, and [Broadcast].  The hub keeps weak pointers; the strong
    reference of a waiter is held by its [Watch] call.  Waiters therefore live in
    a heap, addressed by the identifier of their call, and an address that is not
    in the heap is an expired pointer.  Only the call that owns a waiter ever sleeps
    on its condition variable, so the condition variable is a mark: that it has been
    notified since the call last went to sleep on it. *)
From S2P Require Import Prelude Proto.

(** * Data *)

Record Waiter := mkWaiter {
  key_filter : string;
  w_events : list WatchEvent;
  overflow : bool;
  notified : bool        (** [cv] *)
}.

Abbreviation Heap := (gmap nat Waiter).

Definition kMaxWatchEvents : nat := 1024.

Record WatchHub := mkHub {
  waiters_ : list nat;
  max_events_per_waiter_ : nat
}.

(** The constructor: a limit of 0 selects the default. *)
Definition WatchHub_new (max_events_per_waiter : nat) : WatchHub :=
  mkHub [] (if (0 <? max_events_per_waiter)%nat then max_events_per_waiter
            else kMaxWatchEvents).

(** * Operations *)

Definition Matches (w : Waiter) (e : WatchEvent) : bool :=
  String.eqb (key_filter w) "" || String.eqb (ev_key e) (key_filter w).

Definition Register (hub : WatchHub) (w : nat) : WatchHub :=
  mkHub (waiters_ hub ++ [w]) (max_events_per_waiter_ hub).

(** [weak_ptr::lock]. *)
Definition weak_lock (heap : Heap) (p : nat) : option nat :=
  if decide (is_Some (heap !! p)) then Some p else None.

Definition Unregister (heap : Heap) (hub : WatchHub) (w : nat) : WatchHub :=
  mkHub (filter (fun p => weak_lock heap p <> Some w) (waiters_ hub))
    (max_events_per_waiter_ hub).

(** The loop of [Broadcast] over the events, for one waiter. *)
Fixpoint deliver (max : nat) (w : Waiter) (events : list WatchEvent) : Waiter :=
  match events with
  | [] => w
  | e :: events' =>
      if negb (Matches w e) then deliver max w events'
      else if (max <=? length (w_events w))%nat then mkWaiter (key_filter w) [] true (notified w)
      else deliver max (mkWaiter (key_filter w) (w_events w ++ [e]) (overflow w) (notified w))
             events'
  end.

(** [cv.notify_all]. *)
Definition notify_all (w : Waiter) : Waiter :=
  mkWaiter (key_filter w) (w_events w) (overflow w) true.

(** The call releases the waiter's mutex and goes to sleep on [cv]: what wakes it is
    a notification that comes later. *)
Definition go_to_sleep (w : Waiter) : Waiter :=
  mkWaiter (key_filter w) (w_events w) (overflow w) false.

(** The critical section of [Broadcast] for one waiter. *)
Definition offer (max : nat) (events : list WatchEvent) (w : Waiter) : Waiter :=
  notify_all (deliver max w events).

(** What [Broadcast] does with one pointer of its copy of the list. *)
Definition deliver_to (max : nat) (events : list WatchEvent) (heap : Heap) (p : nat) : Heap :=
  match heap !! p with
  | Some w => <[p := offer max events w]> heap
  | None => heap
  end.

Definition Broadcast (heap : Heap) (hub : WatchHub) (events : list WatchEvent) : Heap :=
  match events with
  | [] => heap
  | _ => foldl (deliver_to (max_events_per_waiter_ hub) events) heap (waiters_ hub)
  end.

(** * What a delivery does *)

Definition matching (key : string) (events : list WatchEvent) : list WatchEvent :=
  filter (fun e => key = "" \/ ev_key e = key) events.

Lemma matching_app key l1 l2 : matching key (l1 ++ l2) = matching key l1 ++ matching key l2.
Proof. apply filter_app. Qed.

Lemma Matches_spec w e : Matches w e = true <-> key_filter w = "" \/ ev_key e = key_filter w.
Proof. unfold Matches. rewrite orb_true_iff, !String.eqb_eq. done. Qed.

Lemma deliver_key max w events : key_filter (deliver max w events) = key_filter w.
Proof.
  revert w. induction events as [|e events IH]; intros w; [done|]. simpl.
  destruct (negb (Matches w e)); [done|]. case_match; [done|]. by rewrite IH.
Qed.

(** Once a waiter has overflowed it stays so. *)
Lemma deliver_overflow max w events :
  overflow w = true -> overflow (deliver max w events) = true.
Proof.
  revert w. induction events as [|e events IH]; intros w Ho; [done|]. simpl.
  destruct (negb (Matches w e)); [by apply IH|]. case_match; [done|]. by apply IH.
Qed.

(** A delivery appends the matching events in order, or overflows because they
    do not fit. *)
Lemma deliver_spec max w events :
  let all := w_events w ++ matching (key_filter w) events in
  let w' := deliver max w events in
  (overflow w' = overflow w /\ w_events w' = all \/
   overflow w' = true /\ (max < length all)%nat) /\
  ((length all <= max)%nat -> w_events w' = all /\ overflow w' = overflow w).
Proof.
  revert w. induction events as [|e events IH]; intros w; simpl.
  { rewrite app_nil_r. split; [by left|done]. }
  unfold matching in *. rewrite filter_cons. destruct (Matches w e) eqn:Hm; simpl.
  - apply Matches_spec in Hm. rewrite decide_True by done.
    destruct (Nat.leb_spec max (length (w_events w))) as [Hle|Hlt].
    + simpl. rewrite length_app. simpl. split; [right; split; [done|lia]|lia].
    + specialize (IH (mkWaiter (key_filter w) (w_events w ++ [e]) (overflow w) (notified w))).
      cbn [w_events key_filter overflow] in IH. by rewrite <-app_assoc in IH.
  - assert (~ (key_filter w = "" \/ ev_key e = key_filter w)) as Hn.
    { intros Hk%Matches_spec. congruence. }
    rewrite decide_False by done. apply IH.
Qed.

(** The buffer never exceeds its limit. *)
Lemma deliver_bound max w events :
  (length (w_events w) <= max)%nat -> (length (w_events (deliver max w events)) <= max)%nat.
Proof.
  revert w. induction events as [|e events IH]; intros w Hl; [done|]. simpl.
  destruct (negb (Matches w e)); [by apply IH|].
  destruct (Nat.leb_spec max (length (w_events w))); [simpl; lia|].
  apply IH. simpl. rewrite length_app. simpl. lia.
Qed.

(** * What a broadcast does *)

Lemma deliver_to_lookup max events heap p w :
  deliver_to max events heap p !! w =
  if decide (p = w) then offer max events <$> heap !! w else heap !! w.
Proof.
  unfold deliver_to. destruct (decide (p = w)) as [->|Hne].
  - destruct (heap !! w) as [x|] eqn:E; simpl; [apply lookup_insert_eq|done].
  - destruct (heap !! p); [by apply lookup_insert_ne|done].
Qed.

Lemma foldl_deliver_lookup max events ps heap w :
  NoDup ps ->
  foldl (deliver_to max events) heap ps !! w =
  if decide (w ∈ ps) then offer max events <$> heap !! w else heap !! w.
Proof.
  intros Hnd. revert heap. induction Hnd as [|p ps Hp Hnd IH]; intros heap; [done|].
  simpl. rewrite IH, deliver_to_lookup.
  destruct (decide (p = w)) as [->|Hne].
  - rewrite decide_False by done. by rewrite decide_True by by left.
  - destruct (decide (w ∈ ps)).
    + by rewrite decide_True by by right.
    + rewrite decide_False; [done|]. by intros [->|?]%elem_of_cons.
Qed.

Lemma Broadcast_lookup heap hub events w :
  events <> [] -> NoDup (waiters_ hub) ->
  Broadcast heap hub events !! w =
  if decide (w ∈ waiters_ hub)
  then offer (max_events_per_waiter_ hub) events <$> heap !! w
  else heap !! w.
Proof.
  intros Hne Hnd. unfold Broadcast. destruct events as [|e events]; [done|].
  by apply foldl_deliver_lookup.
Qed.

Lemma elem_of_Unregister heap hub w p :
  is_Some (heap !! w) -> p ∈ waiters_ (Unregister heap hub w) <-> p ∈ waiters_ hub /\ p <> w.
Proof.
  intros Hw. unfold Unregister. simpl. rewrite list_elem_of_filter. unfold weak_lock. split.
  - intros [Hp Hin]. split; [done|]. intros ->. by rewrite decide_True in Hp.
  - intros [Hin Hne]. split; [|done]. case_decide; congruence.
Qed.

(** * Numbered events *)

Definition ev_lt (x y : WatchEvent) : Prop := ev_revision x < ev_revision y.

(** The event of revision [r] is at place [r - 1]. *)
Definition numbered (L : list WatchEvent) : Prop :=
  forall i e, L !! i = Some e -> ev_revision e = Z.of_nat i + 1.

Lemma numbered_sorted L : numbered L -> StronglySorted ev_lt L.
Proof.
  intros HL. assert (StronglySorted Z.lt (ev_revision <$> L)) as Hs.
  { enough (ev_revision <$> L = seqZ 1 (Z.of_nat (length L))) as -> by apply seqZ_strict.
    apply list_eq. intros i. rewrite list_lookup_fmap. destruct (L !! i) as [e|] eqn:E.
    - simpl. rewrite lookup_seqZ_lt; [|apply lookup_lt_Some in E; lia].
      f_equal. rewrite (HL _ _ E). lia.
    - apply lookup_ge_None in E. rewrite lookup_seqZ_ge by lia. done. }
  clear HL. induction L as [|e L IH]; [constructor|].
  rewrite fmap_cons in Hs. apply StronglySorted_cons in Hs as [Hf Hs].
  constructor; [by apply IH|]. by rewrite Forall_fmap in Hf.
Qed.

Lemma ev_lt_irrefl e : ~ ev_lt e e.
Proof. unfold ev_lt. lia. Qed.

Lemma ev_lt_asym x y : ev_lt x y -> ev_lt y x -> x = y.
Proof. unfold ev_lt. lia. Qed.
