(* ===== verification/WatchCall.v ===== *)
(** Model of [WatchHub::Watch] (src/src/watch/watch_hub.cpp) as a program that
    takes steps: a step is what the calling bthread does between two points where
    other threads can act (a lock is taken or left, the store is read, the clock
    is read, the thread sleeps).  A call asleep in [cv.wait_until] goes on when its
    waiter has been notified, when the time is over, or for no reason.  What the outside answers in a step is the
    record [env]; the store is used through the interface [EventStore]. *)
From S2P Require Import Prelude Proto WatchHub.

(** * The interface of the store *)

(** What the hub and the writers use of a store [S]: the revision, the reclaimed
    revision, the replay (from an iterator on an earlier state), the application
    of a command with the events it reports, and the end of a compaction pass
    (whose iterator saw an earlier state too). *)
Class EventStore (S : Type) := {
  es_rev : S -> Z;
  es_compact_rev : S -> Z;
  es_replay : S -> S -> Z -> Z -> string -> Z -> outcome (bool * list WatchEvent * Code);
  es_apply : S -> RaftCmd -> outcome (list WatchEvent * S);
  es_compact : S -> S -> Z -> outcome S
}.

(** What it promises: [es_inv s L] says that [L] lists the events of all changes
    of [s], the event of revision [r] at place [r]; [es_since s0 s] that only
    commands were applied between [s0] and [s]. *)
Class EventStoreSpec (S : Type) `{EventStore S} := {
  es_inv : S -> list WatchEvent -> Prop;
  es_valid : S -> RaftCmd -> Prop;
  es_inv_rev s L : es_inv s L -> es_rev s = Z.of_nat (length L);
  es_inv_event s L i e : es_inv s L -> L !! i = Some e -> ev_revision e = Z.of_nat i + 1;
  es_inv_compact s L : es_inv s L -> 0 <= es_compact_rev s <= es_rev s;
  es_inv_apply s L cmd evs s' : es_inv s L -> es_valid s cmd ->
    es_apply s cmd = Done (evs, s') -> es_inv s' (L ++ evs);
  es_since : S -> S -> Prop;
  es_since_refl s L : es_inv s L -> es_since s s;
  es_since_apply s0 s cmd evs s' : es_since s0 s -> es_valid s cmd ->
    es_apply s cmd = Done (evs, s') -> es_since s0 s';
  es_inv_compact_step s0 s L keep s' : es_inv s L -> es_since s0 s ->
    es_compact s0 s keep = Done s' -> es_inv s' L;
  (** from an iterator on [s0], the reclaimed revision read on a later [s] *)
  es_replay_spec s0 L0 s L from cur key max :
    es_inv s0 L0 -> es_inv s L -> L0 `prefix_of` L -> es_compact_rev s0 <= es_compact_rev s ->
    0 <= from -> cur <= es_rev s0 -> (0 < max)%nat ->
    es_replay s0 s from cur key (Z.of_nat max) =
    if decide (from < es_compact_rev s) then Done (false, [], COMPACTED)
    else Done (true, take max (filter (fun e => from < ev_revision e <= cur /\
                                     (key = "" \/ ev_key e = key)) L0), OK);
  es_apply_compact_rev s cmd evs s' L : es_inv s L -> es_valid s cmd ->
    es_apply s cmd = Done (evs, s') -> es_compact_rev s <= es_compact_rev s';
  es_compact_compact_rev s0 s keep s' L : es_inv s L -> es_since s0 s ->
    es_compact s0 s keep = Done s' -> es_compact_rev s <= es_compact_rev s'
}.

(** * Time *)

Record timespec := mkTimespec { tv_sec : Z; tv_nsec : Z }.

(** [/] and [%] of C++ truncate towards zero. *)
Definition FromEpochUs (us : Z) : timespec :=
  mkTimespec (Z.quot us 1000000) (Z.rem us 1000000 * 1000).

Definition TimespecLess (a b : timespec) : bool :=
  (tv_sec a <? tv_sec b) || ((tv_sec a =? tv_sec b) && (tv_nsec a <? tv_nsec b)).

(** [std::clamp]. *)
Definition clamp (v lo hi : Z) : Z := if v <? lo then lo else if hi <? v then hi else v.

(** What the outside answers in one step: [butil::gettimeofday_us],
    [butil::microseconds_from_now], the [canceled] callback, whether a
    [wait_until] on which the call sleeps returns [ETIMEDOUT] now, and whether it
    returns without a reason. *)
Record env := mkEnv {
  now_us : Z;
  microseconds_from_now : Z -> timespec;
  canceled : bool;
  timed_out : bool;
  spurious : bool
}.

(** * The call *)

Record WatchArgs := mkArgs {
  wa_key : string;
  wa_from_revision : Z;
  wa_timeout_ms : Z;
  wa_server_deadline_us : Z;
  wa_cancelable : bool       (** [canceled] is not null *)
}.

Definition from_rev (a : WatchArgs) : Z :=
  if wa_from_revision a <? 0 then 0 else wa_from_revision a.
Definition timeout (a : WatchArgs) : Z := clamp (wa_timeout_ms a) 1 60000.
Definition is_canceled (a : WatchArgs) (e : env) : bool := wa_cancelable a && canceled e.

(** Where the call is; the names of the local variables are kept. *)
Inductive watch_pc (S : Type) :=
| WEntry
| WCompacted
| WCatchStart
| WCatchup (catchup_deadline_us : Z)
| WBehind (catchup_deadline_us : Z)
| WBehindRev
| WRegister
| WReplayCur
| WReplayIter (cur : Z)
| WReplayRead (cur : Z) (it : S)
| WReplayed (replay : list WatchEvent)
| WReplayCompacted
| WDeadline
| WWait (deadline : timespec)
| WBlocked (deadline : timespec)
| WUnregister
| WOverflow
| WOverflowRev
| WEvents
| WTimeoutRev
| WReturn (ok : bool) (out : WatchResult).
Arguments WEntry {S}.
Arguments WCompacted {S}.
Arguments WCatchStart {S}.
Arguments WCatchup {S}.
Arguments WBehind {S}.
Arguments WBehindRev {S}.
Arguments WRegister {S}.
Arguments WReplayCur {S}.
Arguments WReplayIter {S}.
Arguments WReplayRead {S}.
Arguments WReplayed {S}.
Arguments WReplayCompacted {S}.
Arguments WDeadline {S}.
Arguments WWait {S}.
Arguments WBlocked {S}.
Arguments WUnregister {S}.
Arguments WOverflow {S}.
Arguments WOverflowRev {S}.
Arguments WEvents {S}.
Arguments WTimeoutRev {S}.
Arguments WReturn {S}.

Definition compacted_message : string :=
  "requested revision has been compacted, resume from current_revision".
Definition behind_message : string := "local node behind requested revision, retry".
Definition overflow_message : string :=
  "watch buffer overflow (slow consumer), reconnect with current_revision".

(** [events.back().revision()] of a list that is not empty. *)
Definition last_revision (events : list WatchEvent) : Z :=
  match last events with Some e => ev_revision e | None => 0 end.

Section call.
Context {S : Type} `{EventStore S}.

(** One step of the call [me] with arguments [a]: the next point, and the heap
    and hub after it. *)
Definition watch_step (me : nat) (a : WatchArgs) (e : env) (s : S) (heap : Heap)
    (hub : WatchHub) (pc : watch_pc S) : outcome (watch_pc S * Heap * WatchHub) :=
  let from := from_rev a in
  match pc with
  | WEntry =>
      Done (if (0 <? from) && (from <? es_compact_rev s) then WCompacted
            else if 0 <? from then WCatchStart else WRegister, heap, hub)
  | WCompacted =>
      Done (WReturn false (mkWatchResult COMPACTED compacted_message (es_rev s) []),
            delete me heap, hub)
  | WCatchStart =>
      let catchup_deadline_us := now_us e + 5000000 in
      Done (WCatchup (if (0 <? wa_server_deadline_us a) &&
                         (wa_server_deadline_us a <? catchup_deadline_us)
                      then wa_server_deadline_us a else catchup_deadline_us), heap, hub)
  | WCatchup dl => Done (if es_rev s <? from then WBehind dl else WRegister, heap, hub)
  | WBehind dl =>
      Done (if is_canceled a e then WReturn true (mkWatchResult OK "" 0 [])
            else if dl <=? now_us e then WBehindRev
            else WCatchup dl, heap, hub)
  | WBehindRev =>
      Done (WReturn false (mkWatchResult INTERNAL behind_message (es_rev s) []), heap, hub)
  | WRegister =>
      Done (if 0 <? from then WReplayCur else WDeadline,
            <[me := mkWaiter (wa_key a) [] false false]> heap, Register hub me)
  | WReplayCur => Done (WReplayIter (es_rev s), heap, hub)
  | WReplayIter cur => Done (WReplayRead cur s, heap, hub)
  | WReplayRead cur it =>
      '(ok, replay, rcode) ← es_replay it s from cur (wa_key a)
                               (Z.of_nat (max_events_per_waiter_ hub));
      Done (if (ok : bool) then
              match replay with [] => WDeadline | _ => WReplayed replay end
            else if decide (rcode = COMPACTED) then WReplayCompacted else WDeadline,
            heap, hub)
  | WReplayed replay =>
      Done (WReturn true (mkWatchResult OK "" (last_revision replay) replay),
            delete me heap, Unregister heap hub me)
  | WReplayCompacted => Done (WCompacted, heap, Unregister heap hub me)
  | WDeadline =>
      let deadline := microseconds_from_now e (timeout a * 1000) in
      Done (WWait (if (0 <? wa_server_deadline_us a) &&
                      TimespecLess (FromEpochUs (wa_server_deadline_us a)) deadline
                   then FromEpochUs (wa_server_deadline_us a) else deadline), heap, hub)
  | WWait dl =>
      match heap !! me with
      | None => Throws NullDeref
      | Some w =>
          Done (match w_events w with
                | [] => if overflow w then (WUnregister, heap, hub)
                        else if is_canceled a e then (WUnregister, heap, hub)
                        else (WBlocked dl, <[me := go_to_sleep w]> heap, hub)
                | _ => (WUnregister, heap, hub)
                end)
      end
  | WBlocked dl =>
      match heap !! me with
      | None => Throws NullDeref
      | Some w =>
          Done (if timed_out e then WUnregister
                else if notified w || spurious e then WWait dl
                else WBlocked dl, heap, hub)
      end
  | WUnregister => Done (WOverflow, heap, Unregister heap hub me)
  | WOverflow =>
      match heap !! me with
      | None => Throws NullDeref
      | Some w => Done (if overflow w then WOverflowRev else WEvents, heap, hub)
      end
  | WOverflowRev =>
      Done (WReturn false (mkWatchResult INTERNAL overflow_message (es_rev s) []),
            delete me heap, hub)
  | WEvents =>
      match heap !! me with
      | None => Throws NullDeref
      | Some w =>
          match w_events w with
          | [] => Done (WTimeoutRev, heap, hub)
          | evs => Done (WReturn true (mkWatchResult OK "" (last_revision evs) evs),
                         delete me heap, hub)
          end
      end
  | WTimeoutRev =>
      Done (WReturn true (mkWatchResult OK "" (es_rev s) []), delete me heap, hub)
  | WReturn ok out => Done (pc, heap, hub)
  end.

(** * Termination *)

(** Steps left once every deadline has passed. *)
Definition rank (pc : watch_pc S) : nat :=
  match pc with
  | WEntry => 17 | WCatchStart => 16 | WCatchup _ => 15 | WBehind _ => 14 | WBehindRev => 1
  | WRegister => 13 | WReplayCur => 12 | WReplayIter _ => 11 | WReplayRead _ _ => 10
  | WReplayed _ => 1 | WReplayCompacted => 2 | WCompacted => 1
  | WDeadline => 9 | WWait _ => 8 | WBlocked _ => 7 | WUnregister => 6
  | WOverflow => 5 | WOverflowRev => 1 | WEvents => 4 | WTimeoutRev => 1
  | WReturn _ _ => 0
  end.

(** The deadlines a point waits for have passed in [e]. *)
Definition late (pc : watch_pc S) (e : env) : Prop :=
  match pc with
  | WBehind dl => dl <= now_us e
  | WBlocked _ => timed_out e = true
  | _ => True
  end.

Lemma watch_step_rank me a e s heap hub pc pc' heap' hub' :
  watch_step me a e s heap hub pc = Done (pc', heap', hub') -> late pc e ->
  (rank pc' < rank pc)%nat \/ exists ok out, pc = WReturn ok out /\ pc' = pc.
Proof.
  destruct pc as [| | | | | | | | |cur it| | | | | | | | | | |ok out]; simpl; intros Hs Hl.
  10: { destruct (es_replay _ _ _ _ _ _) as [[[[] rep] c]|] eqn:Er; [..|done]; simplify_eq/=;
        case_match; simplify_eq/=; left; simpl; lia. }
  20: { right. by exists ok, out; simplify_eq. }
  all: left; repeat first [case_match | progress simplify_eq/=]; rewrite ?Z.leb_gt in *; lia.
Qed.
End call.
