(* ===== verification/WatchStore.v ===== *)
(** The store keeps the promises the Watch hub relies on: the database of Store.v
    is an [EventStore]. *)
From S2P Require Import Prelude CxxStd StoreKey Proto LevelDB Store StoreSpec StoreRepr.
From S2P Require Import StoreRefine StoreScan StoreCompact StoreOps StoreEvents WatchHub.
From S2P Require Import WatchCall StoreRun.

Section instance.
Context `{KVCodec} {DB : Type} `{LevelDB DB}.

Definition db_apply (d : DB) (cmd : RaftCmd) : outcome (list WatchEvent * DB) :=
  '(r, st) ← ApplyCmdToStore (mkStore (Some d) "") cmd ApplyResult_default;
  match db_ st with
  | Some d' => Done (ar_events r, d')
  | None => Throws NullDeref
  end.

Definition db_compact (d_it d : DB) (keep : Z) : outcome DB :=
  snd <$> CompactionLocked d_it d keep.

#[export] Instance store_events : EventStore DB := {|
  es_rev := CurrentRevisionLocked;
  es_compact_rev := CompactRevLocked;
  es_replay := ReplayEventsLocked;
  es_apply := db_apply;
  es_compact := db_compact
|}.
End instance.

(** * The history as a log *)

Section spec.
Context `{KVCodecSpec}.

(** A list of all the events of a store in state [a]. *)
Record log_of (a : Mvcc) (L : list WatchEvent) : Prop := {
  log_length : Z.of_nat (length L) = m_rev a;
  log_event : numbered L;
  log_hist r kv : m_hist a !! r = Some kv -> L !! Z.to_nat (r - 1) = Some (spec_event kv)
}.

(** The changes still in the history are the events of the log. *)
Lemma log_changes a L from cur key :
  wf a -> log_of a L -> m_compact a <= from -> cur <= m_rev a ->
  spec_event <$> changes (m_hist a) from cur key =
  filter (fun e => from < ev_revision e <= cur /\ (key = "" \/ ev_key e = key)) L.
Proof.
  intros Hw [Hlen Hev Hhist] Hf Hc. pose proof (wf_hist_rev a Hw) as Hh.
  apply (strictly_sorted_unique (fun x y => ev_revision x < ev_revision y)); [lia|lia| | |].
  - apply (StronglySorted_map_in rev_lt); [done|]. by apply changes_sorted.
  - by apply StronglySorted_filter, numbered_sorted.
  - intros e. rewrite list_elem_of_fmap, list_elem_of_filter. split.
    + intros (kv & -> & Hin). apply elem_of_changes in Hin as (Hin & Hr & Hk); [|done].
      split; [by split|]. apply Hhist in Hin. by eapply list_elem_of_lookup_2.
    + intros [[Hr Hk] Hin]. apply list_elem_of_lookup in Hin as [i Hi].
      pose proof (Hev _ _ Hi) as Hi'.
      destruct (wf_holes a Hw (ev_revision e)) as [kv Hkv]; [lia|].
      pose proof (Hhist _ _ Hkv) as Hl. replace (Z.to_nat (ev_revision e - 1)) with i in Hl by lia.
      rewrite Hi in Hl. injection Hl as ->. exists kv. split; [done|].
      apply elem_of_changes; [done|]. by rewrite (Hh _ _ Hkv).
Qed.

Lemma log_apply a L cmd :
  wf a -> cmd_valid cmd -> cmd_fits a cmd -> log_of a L ->
  log_of (fst (spec_apply a cmd)) (L ++ ar_events (snd (spec_apply a cmd))).
Proof.
  intros Hw Hv Hf [Hlen Hev Hhist]. rewrite spec_apply_events.
  pose proof (spec_apply_wf a cmd Hw Hv Hf) as Hw'.
  pose proof (spec_apply_rev a cmd) as Hr. pose proof (spec_apply_compact a cmd) as Hc.
  pose proof (spec_apply_hist a cmd) as Hold.
  destruct (wf_bounds _ Hw) as [Hb _].
  set (a' := fst (spec_apply a cmd)) in *. clearbody a'.
  pose proof (changes_revs a' (m_rev a) (m_rev a') Hw' ltac:(lia) ltac:(lia)) as Hseq.
  set (l := changes (m_hist a') (m_rev a) (m_rev a') "") in *.
  assert (Z.of_nat (length l) = m_rev a' - m_rev a) as Hll.
  { apply (f_equal length) in Hseq. rewrite length_fmap, length_seqZ in Hseq. lia. }
  assert (Hnth : forall i kv, l !! i = Some kv -> kv_revision kv = m_rev a + 1 + Z.of_nat i).
  { intros i kv Hi. assert ((kv_revision <$> l) !! i = Some (kv_revision kv)) as E.
    { by rewrite list_lookup_fmap, Hi. }
    rewrite Hseq, lookup_seqZ in E. lia. }
  split.
  - rewrite length_app, length_fmap. lia.
  - intros i e [Hi|[Hge Hi]]%lookup_app_Some; [by apply Hev|].
    rewrite list_lookup_fmap in Hi. destruct (l !! (i - length L)%nat) as [kv|] eqn:E; [|done].
    simplify_eq/=. rewrite (Hnth _ _ E). lia.
  - intros r kv Hk. destruct (wf_hist _ Hw' _ _ Hk) as (Hrev & Hrb & _).
    destruct (decide (r <= m_rev a)) as [Hle|Hgt].
    + rewrite lookup_app_l by lia. apply Hhist. by rewrite <-Hold.
    + rewrite lookup_app_r, list_lookup_fmap by lia.
      assert (kv ∈ l) as Hin.
      { apply elem_of_changes; [by apply wf_hist_rev|]. rewrite Hrev.
        split_and!; [done|lia|lia|by left]. }
      apply list_elem_of_lookup in Hin as [i Hi]. pose proof (Hnth _ _ Hi).
      replace (Z.to_nat (r - 1) - length L)%nat with i by lia. by rewrite Hi.
Qed.

Lemma log_reclaim a L v : log_of a L -> log_of (spec_reclaim v a) L.
Proof.
  intros [Hlen Hev Hhist]. split; [done..|]. simpl.
  intros r kv [Hr _]%lookup_difference_Some. by apply Hhist.
Qed.
End spec.

Section laws.
Context `{KVCodecSpec} {DB : Type} `{LevelDBSpec DB}.
Implicit Types (d : DB) (a : Mvcc).

Definition db_inv d L : Prop := exists a, Rep d a /\ log_of a L.

Definition db_valid d cmd : Prop :=
  cmd_valid cmd /\ CurrentRevisionLocked d + cmd_size cmd <= int64_max.

Definition db_since d0 d : Prop :=
  exists a0 a, Rep d0 a0 /\ Rep d a /\ rtc apply_step a0 a.

Lemma db_apply_spec d a cmd evs d' :
  Rep d a -> db_valid d cmd -> db_apply d cmd = Done (evs, d') ->
  exists a', Rep d' a' /\ (forall L, log_of a L -> log_of a' (L ++ evs)) /\ rtc apply_step a a'.
Proof.
  intros Hd [Hv Hf] E. rewrite (CurrentRevisionLocked_rep _ _ Hd) in Hf.
  unfold db_apply in E. destruct (ApplyCmdToStore_refines d "" a cmd Hd Hv Hf)
    as (r & d'' & E' & Hr). rewrite E' in E. simplify_eq/=.
  destruct Hr as [[-> Hr]|(_ & -> & _ & Hr)].
  - exists (fst (spec_apply a cmd)). split_and!; [done| |by apply rtc_once, ApplyStep].
    intros L HL. apply log_apply; [by eapply rep_wf|done..].
  - exists a. split_and!; [done| |done]. intros L. by rewrite app_nil_r.
Qed.

Lemma db_compact_spec d_it d a L keep d' :
  Rep d a -> log_of a L -> db_since d_it d -> db_compact d_it d keep = Done d' ->
  exists a', Rep d' a' /\ log_of a' L /\ m_compact a <= m_compact a'.
Proof.
  intros Hd HL (a0 & b & Hd0 & Hb & Hs) E. rewrite <-(Rep_unique _ _ _ Hd Hb) in Hs.
  unfold db_compact in E.
  destruct (CompactionLocked_during d_it a0 d a keep Hd0 Hd Hs) as (n & d'' & E' & _ & Hr).
  rewrite E' in E. simplify_eq/=. destruct Hr as [Hr|[_ Hr]]; [|by exists a].
  eexists. split_and!; [exact Hr|by apply log_reclaim|]. exact (proj1 (max_rev_spec _ _)).
Qed.

#[export] Program Instance store_events_spec : EventStoreSpec DB := {|
  es_inv := db_inv;
  es_valid := db_valid;
  es_since := db_since
|}.
Next Obligation.
  intros d L (a & Hd & []). simpl. by rewrite (CurrentRevisionLocked_rep _ _ Hd).
Qed.
Next Obligation. intros d L i e (a & Hd & []). eauto. Qed.
Next Obligation.
  intros d L (a & Hd & []). simpl.
  rewrite (CurrentRevisionLocked_rep _ _ Hd), (CompactRevLocked_rep _ _ Hd).
  destruct (wf_bounds _ (rep_wf _ _ Hd)). lia.
Qed.
Next Obligation.
  intros d L cmd evs d' (a & Hd & HL) Hv E.
  destruct (db_apply_spec _ _ _ _ _ Hd Hv E) as (a' & ? & ? & _). exists a'. auto.
Qed.
Next Obligation. intros d L (a & Hd & _). by exists a, a. Qed.
Next Obligation.
  intros d0 d cmd evs d' (a0 & a & Hd0 & Hd & Hs) Hv E.
  destruct (db_apply_spec _ _ _ _ _ Hd Hv E) as (a' & ? & _ & ?).
  exists a0, a'. split_and!; [done..|]. by etrans.
Qed.
Next Obligation.
  intros d0 d L keep d' (a & Hd & HL) Hs E.
  destruct (db_compact_spec _ _ _ _ _ _ Hd HL Hs E) as (a' & ? & ? & _). by exists a'.
Qed.
Next Obligation.
  intros d0 L0 d L from cur key max (a0 & Hd0 & HL0) (a & Hd & HL) _ Hc Hf Hcur Hmax.
  simpl in *. rewrite (CompactRevLocked_rep _ _ Hd) in Hc |- *.
  rewrite (CompactRevLocked_rep _ _ Hd0) in Hc. rewrite (CurrentRevisionLocked_rep _ _ Hd0) in Hcur.
  destruct (wf_bounds _ (rep_wf _ _ Hd0)).
  rewrite (ReplayEventsLocked_refines _ _ _ _ _ _ _ _ Hd0 Hd) by lia. unfold replay_result.
  destruct (Nat.eqb_spec max 0); [lia|]. rewrite Z.max_r by done.
  destruct (Z.ltb_spec from (m_compact a)); case_decide; try lia; [done|].
  unfold spec_replay. rewrite (log_changes a0 L0); [done|by eapply rep_wf|done|lia|done].
Qed.
Next Obligation.
  intros d cmd evs d' L (a & Hd & HL) Hv E. simpl.
  destruct (db_apply_spec _ _ _ _ _ Hd Hv E) as (a' & Hd' & _ & Hc).
  apply apply_steps_compact in Hc.
  rewrite (CompactRevLocked_rep _ _ Hd), (CompactRevLocked_rep _ _ Hd'). lia.
Qed.
Next Obligation.
  intros d0 d keep d' L (a & Hd & HL) Hs E. simpl.
  destruct (db_compact_spec _ _ _ _ _ _ Hd HL Hs E) as (a' & Hd' & _ & Hc).
  by rewrite (CompactRevLocked_rep _ _ Hd), (CompactRevLocked_rep _ _ Hd').
Qed.
End laws.
