(* ===== verification/WatchSystem.v ===== *)
(** Writers, compaction and any number of [Watch] calls running against one store
    and one hub.  A write is the critical section of [LocalNode::Apply] or an
    iteration of [on_apply]: the store is changed first, then [Broadcast] copies
    the list of waiters, then it delivers to one waiter after the other; all
    other threads may act in between.  A compaction pass creates its iterator in
    one step and writes its batch in a later one.  The invariant of this file says what a
    waiter has buffered at any time, and the results of the calls follow from
    it. *)
From S2P Require Import Prelude Proto WatchHub WatchCall.

(** * Segments of the log *)

Definition slice (L : list WatchEvent) (lo hi : nat) : list WatchEvent := drop lo (take hi L).

Lemma slice_prefix L L' lo hi :
  L `prefix_of` L' -> (hi <= length L)%nat -> slice L' lo hi = slice L lo hi.
Proof. intros [k ->] Hle. unfold slice. by rewrite take_app_le. Qed.

Lemma slice_empty L lo hi : (hi <= lo)%nat -> slice L lo hi = [].
Proof.
  intros Hle. unfold slice. apply length_zero_iff_nil. rewrite length_drop, length_take. lia.
Qed.

Lemma slice_split L lo mid hi :
  (lo <= mid)%nat -> (mid <= hi)%nat -> slice L lo hi = slice L lo mid ++ slice L mid hi.
Proof.
  intros H1 H2. unfold slice. rewrite <-(take_drop mid (take hi L)) at 1.
  rewrite take_take, Nat.min_l by done. rewrite drop_app.
  destruct (decide (mid <= length L)%nat) as [Hle|Hgt].
  - rewrite length_take, Nat.min_l by done. replace (lo - mid)%nat with 0%nat by lia. done.
  - rewrite (drop_ge (take hi L)) by (rewrite length_take; lia). by rewrite drop_nil.
Qed.

Lemma slice_app L evs lo :
  (lo <= length L)%nat -> slice (L ++ evs) lo (length (L ++ evs)) = slice L lo (length L) ++ evs.
Proof.
  intros Hle. rewrite (slice_split _ lo (length L)) by (rewrite ?length_app; lia).
  f_equal; unfold slice.
  - by rewrite take_app_le.
  - by rewrite take_ge, drop_app_length by done.
Qed.

Lemma elem_of_slice L lo hi e :
  e ∈ slice L lo hi <-> exists i, (lo <= i < hi)%nat /\ L !! i = Some e.
Proof.
  unfold slice. rewrite list_elem_of_lookup. split.
  - intros [i Hi]. rewrite lookup_drop in Hi. apply lookup_take_Some in Hi as [Hi Hlt].
    exists (lo + i)%nat. split; [lia|done].
  - intros (i & Hr & Hi). exists (i - lo)%nat. rewrite lookup_drop, lookup_take_lt by lia.
    by replace (lo + (i - lo))%nat with i by lia.
Qed.

(** The part of a numbered log between two revisions. *)
Lemma slice_revisions L lo hi e :
  numbered L -> e ∈ slice L lo hi <-> e ∈ L /\ Z.of_nat lo < ev_revision e <= Z.of_nat hi.
Proof.
  intros HL. rewrite elem_of_slice. split.
  - intros (i & Hr & Hi). rewrite (HL _ _ Hi). split; [by eapply list_elem_of_lookup_2|lia].
  - intros [Hin Hr]. apply list_elem_of_lookup in Hin as [i Hi]. exists i.
    rewrite (HL _ _ Hi) in Hr. split; [lia|done].
Qed.

Lemma matching_slice_sorted L key lo hi :
  numbered L -> StronglySorted ev_lt (matching key (slice L lo hi)).
Proof.
  intros HL. apply StronglySorted_filter. unfold slice.
  assert (StronglySorted ev_lt (take hi L)) as Hs.
  { apply numbered_sorted in HL. rewrite <-(take_drop hi L) in HL.
    by apply StronglySorted_app_1_l in HL. }
  rewrite <-(take_drop lo (take hi L)) in Hs. by apply StronglySorted_app_1_r in Hs.
Qed.

Lemma matching_slice L key from cur :
  numbered L -> 0 <= from -> 0 <= cur ->
  filter (fun e => from < ev_revision e <= cur /\ (key = "" \/ ev_key e = key)) L =
  matching key (slice L (Z.to_nat from) (Z.to_nat cur)).
Proof.
  intros HL Hf Hc. apply (strictly_sorted_unique ev_lt); [apply ev_lt_irrefl|apply ev_lt_asym|
    by apply StronglySorted_filter, numbered_sorted|by apply matching_slice_sorted|].
  intros e. unfold matching. rewrite !list_elem_of_filter, slice_revisions by done.
  rewrite !Z2Nat.id by done. tauto.
Qed.

(** * The system *)

Inductive writer :=
| WrIdle
| WrApplied (evs : list WatchEvent)
| WrDelivering (evs : list WatchEvent) (rest : list nat).

Record Call (S : Type) := mkCall { c_args : WatchArgs; c_pc : watch_pc S }.
Arguments mkCall {S}.
Arguments c_args {S}.
Arguments c_pc {S}.

(** [sy_log] and [sy_reg] are not state of the program: all events so far, and
    for each registered call how many of them had been broadcast to the waiters
    when it registered. *)
Record Sys (S : Type) := mkSys {
  sy_store : S;
  sy_compaction : option (S * Z);   (** of the pass under way: what its iterator sees, [keep] *)
  sy_heap : Heap;
  sy_hub : WatchHub;
  sy_writer : writer;
  sy_calls : gmap nat (Call S);
  sy_log : list WatchEvent;
  sy_reg : gmap nat nat
}.
Arguments mkSys {S}.
Arguments sy_store {S}.
Arguments sy_compaction {S}.
Arguments sy_heap {S}.
Arguments sy_hub {S}.
Arguments sy_writer {S}.
Arguments sy_calls {S}.
Arguments sy_log {S}.
Arguments sy_reg {S}.

Inductive action :=
| AWrite (cmd : RaftCmd)          (** apply a command *)
| ABroadcast                      (** the writer goes on with its broadcast *)
| ACompact (keep : Z)             (** the compaction thread creates its iterator *)
| ACompactEnd                     (** and writes its batch *)
| ACall (w : nat) (a : WatchArgs) (** a client calls [Watch] *)
| AWatch (w : nat) (e : env).     (** a call takes a step *)

(** The events the writer has applied and not yet offered to [w]. *)
Definition withheld (wr : writer) (w : nat) : nat :=
  match wr with
  | WrIdle => 0
  | WrApplied evs => length evs
  | WrDelivering evs rest => if decide (w ∈ rest) then length evs else 0
  end.

Definition targets (wr : writer) : list nat :=
  match wr with WrDelivering _ rest => rest | _ => [] end.

Definition pending (wr : writer) : list WatchEvent :=
  match wr with WrIdle => [] | WrApplied evs | WrDelivering evs _ => evs end.

Section system.
Context {S : Type} `{EventStore S}.
Implicit Types σ : Sys S.

Definition sys_init (s : S) (L : list WatchEvent) (max : nat) : Sys S :=
  mkSys s None ∅ (WatchHub_new max) WrIdle ∅ L ∅.

Definition set_store σ s log wr : Sys S :=
  mkSys s (sy_compaction σ) (sy_heap σ) (sy_hub σ) wr (sy_calls σ) log (sy_reg σ).
Definition set_compaction σ s c : Sys S :=
  mkSys s c (sy_heap σ) (sy_hub σ) (sy_writer σ) (sy_calls σ) (sy_log σ) (sy_reg σ).
Definition set_writer σ heap wr : Sys S :=
  mkSys (sy_store σ) (sy_compaction σ) heap (sy_hub σ) wr (sy_calls σ) (sy_log σ) (sy_reg σ).
Definition set_call σ w c heap hub reg : Sys S :=
  mkSys (sy_store σ) (sy_compaction σ) heap hub (sy_writer σ) (<[w := c]> (sy_calls σ)) (sy_log σ) reg.

(** [None]: the action is not possible now. *)
Definition exec σ (act : action) : option (Sys S) :=
  match act with
  | AWrite cmd =>
      match sy_writer σ, es_apply (sy_store σ) cmd with
      | WrIdle, Done (evs, s') =>
          Some (set_store σ s' (sy_log σ ++ evs)
                  (match evs with [] => WrIdle | _ => WrApplied evs end))
      | _, _ => None
      end
  | ABroadcast =>
      match sy_writer σ with
      | WrIdle => None
      | WrApplied evs =>
          Some (set_writer σ (sy_heap σ) (WrDelivering evs (waiters_ (sy_hub σ))))
      | WrDelivering evs [] => Some (set_writer σ (sy_heap σ) WrIdle)
      | WrDelivering evs (p :: rest) =>
          Some (set_writer σ (deliver_to (max_events_per_waiter_ (sy_hub σ)) evs (sy_heap σ) p)
                  (WrDelivering evs rest))
      end
  | ACompact keep =>
      match sy_compaction σ with
      | None => Some (set_compaction σ (sy_store σ) (Some (sy_store σ, keep)))
      | Some _ => None
      end
  | ACompactEnd =>
      match sy_compaction σ with
      | None => None
      | Some (it, keep) =>
          match es_compact it (sy_store σ) keep with
          | Done s' => Some (set_compaction σ s' None)
          | Throws _ => None
          end
      end
  | ACall w a =>
      match sy_calls σ !! w with
      | Some _ => None
      | None => Some (set_call σ w (mkCall a WEntry) (sy_heap σ) (sy_hub σ) (sy_reg σ))
      end
  | AWatch w e =>
      match sy_calls σ !! w with
      | None => None
      | Some c =>
          match watch_step w (c_args c) e (sy_store σ) (sy_heap σ) (sy_hub σ) (c_pc c) with
          | Throws _ => None
          | Done (pc, heap, hub) =>
              Some (set_call σ w (mkCall (c_args c) pc) heap hub
                      (match c_pc c with
                       | WRegister =>
                           <[w := (length (sy_log σ) - withheld (sy_writer σ) w)%nat]> (sy_reg σ)
                       | _ => sy_reg σ
                       end))
          end
      end
  end.

Fixpoint exec_all σ (acts : list action) : option (Sys S) :=
  match acts with
  | [] => Some σ
  | act :: acts' => exec σ act ≫= fun σ' => exec_all σ' acts'
  end.
End system.
