(* ===== verification/WatchInv.v ===== *)
(** The invariant of the system of WatchSystem.v, and that every action keeps
    it. *)
From S2P Require Import Prelude Proto WatchHub WatchCall WatchSystem.

(** * What a buffer holds *)

(** A waiter with filter [key] that has been offered the events of the log from
    place [lo] to place [hi]: it holds the matching ones in order, or it has
    overflowed because they are more than [max]. *)
Definition buffered (max : nat) (key : string) (L : list WatchEvent) (lo hi : nat)
    (w : Waiter) : Prop :=
  (lo <= hi <= length L)%nat /\ key_filter w = key /\
  (overflow w = false /\ w_events w = matching key (slice L lo hi) \/
   overflow w = true /\ (max < length (matching key (slice L lo hi)))%nat).

Lemma buffered_prefix max key L L' lo hi w :
  L `prefix_of` L' -> buffered max key L lo hi w -> buffered max key L' lo hi w.
Proof.
  intros Hp ([Hl Hh] & Hk & Hb). unfold buffered. rewrite (slice_prefix L L') by done.
  apply prefix_length in Hp. split_and!; (done || lia).
Qed.

Lemma buffered_deliver max key L evs lo w :
  buffered max key (L ++ evs) lo (length L) w ->
  buffered max key (L ++ evs) lo (length (L ++ evs)) (offer max evs w).
Proof.
  intros ([Hlo _] & Hk & Hb). unfold buffered, offer. simpl. rewrite deliver_key.
  split_and!; [rewrite length_app; lia|lia|done|].
  rewrite (slice_split _ lo (length L)), matching_app by (rewrite ?length_app; lia).
  assert (slice (L ++ evs) (length L) (length (L ++ evs)) = evs) as ->.
  { unfold slice. by rewrite take_ge, drop_app_length by done. }
  destruct Hb as [[Ho He]|[Ho Hm]].
  - destruct (deliver_spec max w evs) as [[[Ho' He']|[Ho' Hl]] _]; rewrite Hk in *.
    + left. rewrite Ho', He', He. done.
    + right. split; [done|]. by rewrite <-He.
  - right. split; [by apply deliver_overflow|]. rewrite length_app. lia.
Qed.

(** * The invariant of one call *)

Section inv.
Context {S : Type} `{EventStoreSpec S}.
Implicit Types (s : S) (L : list WatchEvent) (σ : Sys S).

Definition from_nat (a : WatchArgs) : nat := Z.to_nat (from_rev a).

(** No matching change between the anchor of the call and the place where its
    buffer starts, as far as the replay could see. *)
Definition quiet (a : WatchArgs) L (lo : nat) : Prop :=
  from_rev a = 0 \/
  exists cur, (lo <= cur <= length L)%nat /\ matching (wa_key a) (slice L (from_nat a) cur) = [].

Definition caught_up (a : WatchArgs) L : Prop := (from_nat a <= length L)%nat.

(** The call waits in the hub. *)
Definition registered (max : nat) L (inw : Prop) (wt : option Waiter) (seen : nat)
    (reg : option nat) (a : WatchArgs) (P : nat -> Prop) : Prop :=
  exists lo w, reg = Some lo /\ inw /\ wt = Some w /\ caught_up a L /\
    buffered max (wa_key a) L lo seen w /\ P lo.

(** The call has left the hub and looks at its buffer; a broadcast that copied
    the list before may still deliver to it. *)
Definition unregistered (max : nat) L (inw tgt : Prop) (wt : option Waiter) (seen : nat)
    (reg : option nat) (a : WatchArgs) (P : Waiter -> Prop) : Prop :=
  exists lo hi w, reg = Some lo /\ ~ inw /\ wt = Some w /\ caught_up a L /\
    buffered max (wa_key a) L lo hi w /\ (hi <= length L)%nat /\ (tgt -> hi = seen) /\
    quiet a L lo /\ P w.

(** A call that sleeps has nothing in its buffer, or has been notified. *)
Definition asleep (wt : option Waiter) : Prop :=
  forall w, wt = Some w -> notified w = true \/ w_events w = [] /\ overflow w = false.

(** What a result means; [reg] is the place of the log at which the call
    registered. *)
Definition result_ok (max : nat) s L (reg : option nat) (a : WatchArgs) (ok : bool)
    (out : WatchResult) : Prop :=
  match wr_code out with
  | OK =>
      ok = true /\
      match wr_events out with
      | [] => wr_current_revision out = 0 \/
              from_rev a <= wr_current_revision out <= Z.of_nat (length L)
      | evs =>
          wr_current_revision out = last_revision evs /\
          exists lo hi rest, (hi <= length L)%nat /\
            (** a contiguous part of the log, in order *)
            evs ++ rest = matching (wa_key a) (slice L lo hi) /\
            (** from the anchor, or all since the registration *)
            (0 < from_rev a /\ lo = from_nat a \/ rest = [] /\ reg = Some lo /\ quiet a L lo)
      end
  | COMPACTED =>
      ok = false /\ wr_events out = [] /\ 0 < from_rev a < es_compact_rev s /\
      from_rev a <= wr_current_revision out <= Z.of_nat (length L)
  | INTERNAL =>
      ok = false /\ wr_events out = [] /\ wr_current_revision out <= Z.of_nat (length L) /\
      (wr_message out = behind_message \/
       wr_message out = overflow_message /\ from_rev a <= wr_current_revision out /\
       exists lo, (max < length (matching (wa_key a) (slice L lo (length L))))%nat)
  | _ => False
  end.

Definition call_inv (max : nat) s L (inw tgt : Prop) (wt : option Waiter) (seen : nat)
    (reg : option nat) (a : WatchArgs) (pc : watch_pc S) : Prop :=
  match pc with
  | WEntry | WCatchStart | WCatchup _ | WBehind _ => ~ inw /\ ~ tgt /\ wt = None
  | WBehindRev => ~ inw /\ wt = None
  | WRegister => ~ inw /\ ~ tgt /\ wt = None /\ caught_up a L
  | WCompacted => ~ inw /\ 0 < from_rev a < es_compact_rev s
  | WReplayCur => registered max L inw wt seen reg a (fun lo => 0 < from_rev a)
  | WReplayIter cur =>
      registered max L inw wt seen reg a (fun lo =>
        0 < from_rev a /\ Z.of_nat lo <= cur <= Z.of_nat (length L))
  | WReplayRead cur it =>
      registered max L inw wt seen reg a (fun lo =>
        0 < from_rev a /\ Z.of_nat lo <= cur /\
        exists L0, es_inv it L0 /\ L0 `prefix_of` L /\ cur <= Z.of_nat (length L0) /\
                   es_compact_rev it <= es_compact_rev s)
  | WReplayed rep =>
      registered max L inw wt seen reg a (fun _ =>
        0 < from_rev a /\ rep <> [] /\
        exists cur rest, (cur <= length L)%nat /\
          rep ++ rest = matching (wa_key a) (slice L (from_nat a) cur))
  | WReplayCompacted =>
      registered max L inw wt seen reg a (fun _ => 0 < from_rev a < es_compact_rev s)
  | WDeadline | WWait _ | WUnregister =>
      registered max L inw wt seen reg a (quiet a L)
  | WBlocked _ => registered max L inw wt seen reg a (quiet a L) /\ asleep wt
  | WOverflow => unregistered max L inw tgt wt seen reg a (fun _ => True)
  | WOverflowRev => unregistered max L inw tgt wt seen reg a (fun w => overflow w = true)
  | WEvents =>
      unregistered max L inw tgt wt seen reg a (fun w =>
        overflow w = true -> w_events w = [] /\ ~ tgt)
  | WTimeoutRev => unregistered max L inw tgt wt seen reg a (fun _ => True)
  | WReturn ok out => ~ inw /\ wt = None /\ result_ok max s L reg a ok out
  end.

(** * More history, more reclaimed *)

Section mono.
Context (max : nat) (s s' : S) (L L' : list WatchEvent) (inw tgt : Prop)
  (wt : option Waiter) (seen : nat) (reg : option nat) (a : WatchArgs).
Context (HL : L `prefix_of` L') (Hs : es_compact_rev s <= es_compact_rev s').

Lemma length_mono : (length L <= length L')%nat.
Proof using HL. by apply prefix_length. Qed.

Lemma caught_up_mono : caught_up a L -> caught_up a L'.
Proof using HL. unfold caught_up. pose proof length_mono. lia. Qed.

Lemma quiet_mono lo : quiet a L lo -> quiet a L' lo.
Proof using HL.
  pose proof length_mono. intros [?|(cur & Hc & Hm)]; [by left|right].
  exists cur. rewrite (slice_prefix L L') by (done || lia). split; [lia|done].
Qed.

Lemma registered_mono P P' :
  (forall lo, P lo -> P' lo) ->
  registered max L inw wt seen reg a P -> registered max L' inw wt seen reg a P'.
Proof using HL.
  intros HP (lo & w & ? & ? & ? & ? & ? & ?). exists lo, w.
  split_and!; try done; [by apply caught_up_mono|by eapply buffered_prefix|by apply HP].
Qed.

Lemma unregistered_mono (P : Waiter -> Prop) :
  unregistered max L inw tgt wt seen reg a P -> unregistered max L' inw tgt wt seen reg a P.
Proof using HL.
  pose proof length_mono. intros (lo & hi & w & ? & ? & ? & ? & ? & ? & ? & ? & ?).
  exists lo, hi, w. split_and!; try done;
    [by apply caught_up_mono|by eapply buffered_prefix|lia|by apply quiet_mono].
Qed.

Lemma result_ok_mono ok out :
  result_ok max s L reg a ok out -> result_ok max s' L' reg a ok out.
Proof using HL Hs.
  pose proof length_mono as Hl. unfold result_ok.
  destruct (wr_code out); try done.
  - intros [-> Ho]. split; [done|]. destruct (wr_events out) as [|e evs].
    + destruct Ho; [by left|right; lia].
    + destruct Ho as (-> & lo & hi & rest & Hhi & Hm & Hc). split; [done|].
      exists lo, hi, rest. rewrite (slice_prefix L L') by done.
      split_and!; [lia|done|]. destruct Hc as [?|(? & ? & ?)]; [by left|right].
      split_and!; [done|done|by apply quiet_mono].
  - intros (-> & -> & ? & ?). split_and!; (done || lia).
  - intros (-> & -> & ? & Ho). split_and!; [done|done|lia|].
    destruct Ho as [?|(? & ? & lo & Hlo)]; [by left|right].
    split_and!; [done|lia|]. exists lo. eapply Nat.lt_le_trans; [exact Hlo|].
    destruct (decide (lo <= length L)%nat) as [Hle|Hgt].
    + rewrite (slice_split L' lo (length L)), matching_app, (slice_prefix L L') by (done || lia).
      rewrite length_app. lia.
    + rewrite slice_empty by lia. simpl. lia.
Qed.

Lemma call_inv_mono pc :
  call_inv max s L inw tgt wt seen reg a pc -> call_inv max s' L' inw tgt wt seen reg a pc.
Proof using HL Hs.
  pose proof length_mono as Hl. destruct pc; simpl; try done.
  - intros [? ?]. split; [done|lia].
  - intros (? & ? & ? & ?). split_and!; try done. by apply caught_up_mono.
  - by apply registered_mono.
  - apply registered_mono. intros lo Hp. lia.
  - apply registered_mono. intros lo (? & ? & L0 & ? & ? & ? & ?).
    split_and!; [done|done|]. exists L0. split_and!; try done; [by etrans|lia].
  - apply registered_mono. intros lo (? & ? & c & rest & ? & Hm).
    split_and!; [done|done|]. exists c, rest. rewrite (slice_prefix L L') by done.
    split; [lia|done].
  - apply registered_mono. intros lo Hp. lia.
  - apply registered_mono, quiet_mono.
  - apply registered_mono, quiet_mono.
  - intros [Hr ?]. split; [|done]. revert Hr. apply registered_mono, quiet_mono.
  - apply registered_mono, quiet_mono.
  - apply unregistered_mono.
  - apply unregistered_mono.
  - apply unregistered_mono.
  - apply unregistered_mono.
  - intros (? & ? & ?). split_and!; [done|done|]. by apply result_ok_mono.
Qed.
End mono.
End inv.
