(* ===== verification/WatchSteps.v ===== *)
(** Every action of the system keeps the invariant of WatchInv.v. *)
From S2P Require Import Prelude Proto WatchHub WatchCall WatchSystem WatchInv.

Section steps.
Context {S : Type} `{EventStoreSpec S}.
Implicit Types (s : S) (L : list WatchEvent) (σ : Sys S) (a : WatchArgs).

(** * One call while others act *)

Lemma call_inv_iff max s L inw inw' tgt tgt' wt seen reg a pc :
  (inw <-> inw') -> (tgt <-> tgt') ->
  call_inv max s L inw tgt wt seen reg a pc -> call_inv max s L inw' tgt' wt seen reg a pc.
Proof.
  intros Hi Ht. destruct pc; simpl; unfold registered, unregistered; try tauto.
  all: try (intros [(lo & w & Hc) Ha]; split; [|exact Ha]; exists lo, w; tauto).
  all: intros (lo & w & Hc); exists lo, w; try tauto.
  all: destruct Hc as (w' & Hc); exists w'; tauto.
Qed.

(** The writer copies the list of waiters, or ends its broadcast. *)
Lemma call_inv_targets max s L (inw tgt tgt' : Prop) wt seen seen' reg a pc :
  ~ tgt -> (inw -> seen' = seen) -> (tgt' -> inw) ->
  call_inv max s L inw tgt wt seen reg a pc -> call_inv max s L inw tgt' wt seen' reg a pc.
Proof.
  intros Ht Hs Hi. destruct pc; simpl; unfold registered, unregistered; try tauto.
  all: try (intros [(lo & w & ? & Hw & Hc) Ha]; split; [|exact Ha];
    rewrite (Hs Hw) in *; exists lo, w; tauto).
  all: try (intros (lo & w & ? & Hw & Hc); rewrite (Hs Hw) in *; exists lo, w; tauto).
  all: intros (lo & hi & w & ? & Hw & Hc); exists lo, hi, w; tauto.
Qed.

Lemma deliver_overflow_empty max w evs :
  overflow w = false -> overflow (deliver max w evs) = true -> w_events (deliver max w evs) = [].
Proof.
  revert w. induction evs as [|e evs IH]; intros w Hw; simpl; [congruence|].
  destruct (negb (Matches w e)); [by apply IH|]. case_match; [done|]. by apply IH.
Qed.

(** The writer delivers the events that end the log to this call. *)
Lemma call_inv_deliver max s L evs inw (tgt : Prop) wt reg a pc :
  tgt -> call_inv max s (L ++ evs) inw tgt wt (length L) reg a pc ->
  call_inv max s (L ++ evs) inw False (offer max evs <$> wt)
    (length (L ++ evs)) reg a pc.
Proof.
  intros Ht. destruct pc; simpl; try tauto.
  all: try (intros [(lo & w & ? & Hw & -> & Hc & Hb & HP) _]; split;
    [exists lo, (offer max evs w);
     refine (conj _ (conj Hw (conj eq_refl (conj Hc (conj _ HP))))); [done|];
     by apply buffered_deliver
    |intros ? [= <-]; by left]).
  all: try (intros [? ->]; done). all: try (intros (? & -> & ?); done).
  all: try (intros (lo & w & ? & Hw & -> & Hc & Hb & HP); exists lo, (offer max evs w);
    refine (conj _ (conj Hw (conj eq_refl (conj Hc (conj _ HP))))); [done|];
    by apply buffered_deliver).
  all: intros (lo & hi & w & ? & Hw & -> & Hc & Hb & Hh & Hs & Hq & HP);
    rewrite (Hs Ht) in *; exists lo, (length (L ++ evs)), (offer max evs w);
    refine (conj _ (conj Hw (conj eq_refl (conj Hc (conj _ (conj _ (conj _ (conj Hq _))))))));
    try done; try (by apply buffered_deliver).
  - by apply deliver_overflow.
  - intros Ho. destruct (overflow w) eqn:Ew; [by destruct (HP eq_refl)|].
    split; [by apply deliver_overflow_empty|by intros []].
Qed.

(** * The call itself *)

Lemma from_rev_nonneg a : 0 <= from_rev a.
Proof. unfold from_rev. case_match; lia. Qed.

Lemma last_revision_bound L events :
  numbered L -> (forall e, e ∈ events -> e ∈ L) -> events <> [] ->
  0 < last_revision events <= Z.of_nat (length L).
Proof.
  intros HL Hin Hne. unfold last_revision.
  destruct (last events) as [e|] eqn:E; [|by apply last_None in E].
  apply last_Some_elem_of, Hin, list_elem_of_lookup in E as [i Hi].
  rewrite (HL _ _ Hi). apply lookup_lt_Some in Hi. lia.
Qed.

(** What the replay answers to a registered call. *)
Lemma replay_result L0 it s L from cur key max :
  es_inv it L0 -> es_inv s L -> L0 `prefix_of` L ->
  es_compact_rev it <= es_compact_rev s -> 0 <= from -> 0 <= cur <= Z.of_nat (length L0) ->
  (0 < max)%nat ->
  es_replay it s from cur key (Z.of_nat max) =
  if decide (from < es_compact_rev s) then Done (false, [], COMPACTED)
  else Done (true, take max (matching key (slice L (Z.to_nat from) (Z.to_nat cur))), OK).
Proof.
  intros Hi Hs Hp Hc Hf Hcur Hm.
  rewrite (es_replay_spec it L0 s L) by (try done; rewrite (es_inv_rev it L0) by done; lia).
  assert (numbered L0) as HL0 by (intros i e; by apply (es_inv_event it)).
  rewrite matching_slice by (done || lia).
  by rewrite (slice_prefix L0 L) by (done || lia).
Qed.

(** Only a call that has not registered can register. *)
Definition reg_after (reg : option nat) (seen : nat) (pc : watch_pc S) : option nat :=
  match pc with WRegister => Some seen | _ => reg end.

Lemma watch_step_inv max me a e s L (tgt : Prop) heap hub seen reg pc pc' heap' hub' :
  es_inv s L -> (0 < max)%nat -> max_events_per_waiter_ hub = max -> (seen <= length L)%nat ->
  call_inv max s L (me ∈ waiters_ hub) tgt (heap !! me) seen reg a pc ->
  watch_step me a e s heap hub pc = Done (pc', heap', hub') ->
  call_inv max s L (me ∈ waiters_ hub') tgt (heap' !! me) seen (reg_after reg seen pc) a pc'.
Proof.
  intros Hs Hmax Hhub Hseen Hc Hstep. pose proof (from_rev_nonneg a) as Hf.
  pose proof (es_inv_rev _ _ Hs) as Hrev. pose proof (es_inv_compact _ _ Hs) as Hcomp.
  assert (numbered L) as HL by (intros i ev; by apply (es_inv_event s)).
  destruct pc as [| | | | | | | |cur|cur it|rep| | | | | | | | | |ok out]; simpl in Hstep, Hc.
  - (* WEntry *) simplify_eq.
    destruct (Z.ltb_spec 0 (from_rev a)); simpl; [|split_and!; try tauto; unfold caught_up, from_nat; lia].
    destruct (Z.ltb_spec (from_rev a) (es_compact_rev s)); simpl; [|done]. split; [tauto|lia].
  - (* WCompacted *) simplify_eq. simpl. split_and!; [tauto|apply lookup_delete_eq|].
    unfold result_ok. simpl. split_and!; (done || lia).
  - (* WCatchStart *) by simplify_eq.
  - (* WCatchup *) simplify_eq. destruct (Z.ltb_spec (es_rev s) (from_rev a)); simpl; [done|].
    split_and!; try tauto. unfold caught_up, from_nat. lia.
  - (* WBehind *) simplify_eq. destruct (is_canceled a e); simpl.
    + split_and!; try tauto. unfold result_ok. simpl. split; [done|by left].
    + destruct (catchup_deadline_us <=? now_us e); simpl; tauto.
  - (* WBehindRev *) simplify_eq. simpl. split_and!; [tauto|tauto|]. unfold result_ok. simpl.
    split_and!; try done; [lia|by left].
  - (* WRegister *) simplify_eq. destruct Hc as (Hn & Ht & _ & Hcu).
    assert (buffered (max_events_per_waiter_ hub) (wa_key a) L seen seen (mkWaiter (wa_key a) [] false false)).
    { split; [lia|]. split; [done|]. left. by rewrite slice_empty by lia. }
    assert (me ∈ waiters_ hub ++ [me]) by (rewrite elem_of_app, list_elem_of_singleton; by right).
    destruct (Z.ltb_spec 0 (from_rev a)); simpl; unfold registered;
      rewrite lookup_insert_eq; exists seen, (mkWaiter (wa_key a) [] false false);
      split_and!; try done. left. lia.
  - (* WReplayCur *) simplify_eq. destruct Hc as (lo & w & ? & ? & ? & ? & Hb & ?).
    exists lo, w. split_and!; try done; destruct Hb as [? _]; lia.
  - (* WReplayIter *) simplify_eq. destruct Hc as (lo & w & ? & ? & ? & ? & ? & ? & ? & ?).
    exists lo, w. split_and!; try done. exists L. by split_and!.
  - (* WReplayRead *) destruct Hc as (lo & w & Hr & Hw & Hwt & Hcu & Hb & Hf0 & Hlo & L0 & Hit & Hp & Hcur & Hle).
    rewrite Hhub in Hstep.
    assert (forall l : list WatchEvent, take max l = [] -> l = []) as Htake.
    { intros [|? ?]; [done|]. destruct max; [lia|done]. }
    rewrite (replay_result L0 it s L) in Hstep by (done || lia). simpl in Hstep.
    destruct (decide (from_rev a < es_compact_rev s)); simplify_eq/=.
    { exists lo, w. by split_and!. }
    apply prefix_length in Hp as Hpl.
    destruct (take _ _) as [|ev evs] eqn:Et; simpl; exists lo, w;
      refine (conj eq_refl (conj Hw (conj Hwt (conj Hcu (conj Hb _))))).
    + right. exists (Z.to_nat cur). split; [lia|]. by apply Htake.
    + split_and!; [done|done|]. exists (Z.to_nat cur). eexists. split; [lia|].
      unfold from_nat. rewrite app_comm_cons, <-Et. apply take_drop.
  - (* WReplayed *) destruct Hc as (lo & w & Hr & Hw & Hwt & Hcu & Hb & Hf0 & Hne & cur & rest & Hcl & Hm).
    simplify_eq. cbn [call_inv reg_after]. rewrite elem_of_Unregister by by rewrite Hwt. split_and!; [by intros []|apply lookup_delete_eq|].
    unfold result_ok. simpl. split; [done|]. destruct rep as [|ev evs]; [done|].
    split; [done|]. exists (from_nat a), cur, rest. split_and!; [done|done|by left].
  - (* WReplayCompacted *) destruct Hc as (lo & w & Hr & Hw & Hwt & Hcu & Hb & Hf0).
    simplify_eq. cbn [call_inv reg_after]. rewrite elem_of_Unregister by by rewrite Hwt. by split; [intros []|].
  - (* WDeadline *) by simplify_eq.
  - (* WWait *) destruct Hc as (lo & w & Hr & Hw & Hwt & Hc). rewrite Hwt in Hstep. simplify_eq.
    destruct (w_events w) as [|ev evs] eqn:Ee;
      [destruct (overflow w) eqn:Eo; [|destruct (is_canceled a e)]|]; simplify_eq;
      try (simpl; by exists lo, w).
    destruct Hc as (Hcu & Hb & Hq). cbn [call_inv reg_after]. rewrite lookup_insert_eq. split.
    + by exists lo, (go_to_sleep w).
    + intros ? [= <-]. by right.
  - (* WBlocked *) destruct Hc as [Hc Ha]. destruct (heap !! me) as [w|] eqn:Ew; [|done].
    simplify_eq. rewrite Ew. by destruct (timed_out e), (notified w || spurious e).
  - (* WUnregister *) destruct Hc as (lo & w & Hr & Hw & Hwt & Hcu & Hb & Hq).
    simplify_eq. exists lo, seen, w. cbn [reg_after].
    rewrite elem_of_Unregister by by rewrite Hwt.
    split_and!; try done. by intros [].
  - (* WOverflow *) destruct Hc as (lo & hi & w & Hr & Hw & Hwt & Hc). rewrite Hwt in Hstep.
    simplify_eq. destruct (overflow w) eqn:Ho; simpl; exists lo, hi, w.
    + split_and!; tauto.
    + rewrite Ho. split_and!; tauto || done.
  - (* WOverflowRev *)
    destruct Hc as (lo & hi & w & Hr & Hw & Hwt & Hcu & (Hlh & Hk & Hb) & Hhi & _ & _ & Ho).
    simplify_eq/=. split_and!; [done|apply lookup_delete_eq|].
    unfold result_ok. simpl. split_and!; [done|done|lia|].
    right. split_and!; [done|unfold caught_up, from_nat in Hcu; lia|]. exists lo.
    destruct Hb as [[? _]|[_ Hb]]; [congruence|].
    rewrite (slice_split L lo hi), matching_app, length_app by lia. lia.
  - (* WEvents *)
    destruct Hc as (lo & hi & w & Hr & Hw & Hwt & Hcu & Hb & Hhi & Ht & Hq & Ho).
    rewrite Hwt in Hstep. destruct (w_events w) as [|ev evs] eqn:Ee; simplify_eq/=.
    + exists lo, hi, w. by split_and!.
    + split_and!; [done|apply lookup_delete_eq|]. unfold result_ok. simpl. split; [done|].
      split; [done|]. exists lo, hi, []. destruct Hb as (_ & _ & [[_ Hb]|[Hov _]]).
      * rewrite app_nil_r, <-Hb, Ee. split_and!; [done|done|by right].
      * destruct (Ho Hov) as [? _]. congruence.
  - (* WTimeoutRev *)
    destruct Hc as (lo & hi & w & Hr & Hw & Hwt & Hcu & _).
    simplify_eq/=. split_and!; [done|apply lookup_delete_eq|]. unfold result_ok. simpl.
    split; [done|]. right.
    unfold caught_up, from_nat in Hcu. lia.
  - (* WReturn *) by simplify_eq.
Qed.

(** * The system *)

Record sys_inv (max : nat) σ : Prop := {
  si_store : es_inv (sy_store σ) (sy_log σ);
  si_compaction it keep : sy_compaction σ = Some (it, keep) -> es_since it (sy_store σ);
  si_max : max_events_per_waiter_ (sy_hub σ) = max /\ (0 < max)%nat;
  si_pending : exists L, sy_log σ = L ++ pending (sy_writer σ);
  si_waiters : NoDup (waiters_ (sy_hub σ));
  si_targets : NoDup (targets (sy_writer σ));
  si_known p : p ∈ waiters_ (sy_hub σ) \/ p ∈ targets (sy_writer σ) -> is_Some (sy_calls σ !! p);
  si_heap p w : sy_heap σ !! p = Some w ->
    is_Some (sy_calls σ !! p) /\ (length (w_events w) <= max)%nat;
  si_calls w c : sy_calls σ !! w = Some c ->
    call_inv max (sy_store σ) (sy_log σ) (w ∈ waiters_ (sy_hub σ))
      (w ∈ targets (sy_writer σ)) (sy_heap σ !! w)
      (length (sy_log σ) - withheld (sy_writer σ) w)%nat (sy_reg σ !! w) (c_args c) (c_pc c)
}.

(** What an action needs: the commands written are valid. *)
Definition allowed σ (act : action) : Prop :=
  match act with AWrite cmd => es_valid (sy_store σ) cmd | _ => True end.

Inductive sys_step : Sys S -> Sys S -> Prop :=
| SysStep σ act σ' : allowed σ act -> exec σ act = Some σ' -> sys_step σ σ'.

Lemma sys_init_inv s L max : es_inv s L -> exists m, sys_inv m (sys_init s L max).
Proof.
  intros Hs. exists (max_events_per_waiter_ (WatchHub_new max)). split; simpl; try done.
  - split; [done|]. destruct (Nat.ltb_spec 0 max); [done|unfold kMaxWatchEvents; lia].
  - exists L. by rewrite app_nil_r.
  - constructor.
  - constructor.
  - intros p [?%elem_of_nil|?%elem_of_nil]; done.
Qed.

Lemma write_inv max σ s' evs wr :
  sys_inv max σ -> sy_writer σ = WrIdle -> es_inv s' (sy_log σ ++ evs) ->
  (forall it, es_since it (sy_store σ) -> es_since it s') ->
  es_compact_rev (sy_store σ) <= es_compact_rev s' ->
  wr = match evs with [] => WrIdle | _ => WrApplied evs end ->
  sys_inv max (set_store σ s' (sy_log σ ++ evs) wr).
Proof.
  intros [] Hw Hs Hsince Hc ->. rewrite Hw in *. split; simpl; try done.
  - intros it keep E. eapply Hsince, si_compaction0, E.
  - exists (sy_log σ). by destruct evs.
  - by destruct evs.
  - intros p [?|Hp]; [by apply si_known0; left|by destruct evs; apply elem_of_nil in Hp].
  - intros w c Hcall. apply si_calls0 in Hcall. simpl in Hcall. rewrite Nat.sub_0_r in Hcall.
    assert (length (sy_log σ ++ evs) - withheld match evs with [] => WrIdle | _ => WrApplied evs end w
      = length (sy_log σ))%nat as ->.
    { rewrite length_app. destruct evs; simpl; lia. }
    replace (targets match evs with [] => WrIdle | _ => WrApplied evs end) with (@nil nat)
      by by destruct evs.
    eapply call_inv_mono; [|exact Hc|exact Hcall]. by apply prefix_app_r.
Qed.

Lemma broadcast_inv max σ σ' :
  sys_inv max σ -> exec σ ABroadcast = Some σ' -> sys_inv max σ'.
Proof.
  intros [] E. simpl in E. destruct (sy_writer σ) as [|evs|evs [|p rest]] eqn:Ew; simplify_eq.
  - split; simpl in *; try done.
    + intros p [?|?]; apply si_known0; by left.
    + intros w c Hcall. apply si_calls0 in Hcall. simpl in Hcall.
      eapply call_inv_targets; [..|exact Hcall].
      * by intros ?%elem_of_nil.
      * intros Hin. by rewrite decide_True.
      * done.
  - split; simpl in *; try done.
    + destruct si_pending0 as [L HL]. exists (sy_log σ). by rewrite app_nil_r.
  - apply NoDup_cons in si_targets0 as [Hp Hnd].
    split; simpl in *; try done.
    + intros q [?|?]; apply si_known0; [by left|by right; right].
    + intros q w. rewrite deliver_to_lookup. case_decide as Hq; [subst q|by apply si_heap0].
      intros (x & Hx & ->)%fmap_Some. apply si_heap0 in Hx as [? ?]. split; [done|].
      destruct si_max0 as [-> _]. simpl. by apply deliver_bound.
    + intros w c Hcall. apply si_calls0 in Hcall. rewrite deliver_to_lookup.
      destruct si_max0 as [-> Hmax], si_pending0 as [L HL]. rewrite HL in Hcall |- *.
      destruct (decide (p = w)) as [->|Hne].
      * rewrite (decide_False (P := w ∈ rest)) by done. rewrite Nat.sub_0_r.
        rewrite decide_True in Hcall by by left.
        rewrite length_app, Nat.add_sub in Hcall.
        apply call_inv_deliver in Hcall; [|by left].
        eapply call_inv_iff; [reflexivity| |exact Hcall]. by split; [intros []|].
      * apply (call_inv_iff _ _ _ (w ∈ waiters_ (sy_hub σ)) _ (w ∈ p :: rest)); [done| |].
        { rewrite elem_of_cons. split; [by intros [|]|by right]. }
        destruct (decide (w ∈ rest)) as [Hin|Hin].
        { by rewrite decide_True in Hcall by by right. }
        rewrite decide_False in Hcall; [done|]. by intros [|]%elem_of_cons.
Qed.

(** A step of one call does not touch the others. *)
Lemma watch_step_frame me a e s heap hub pc pc' heap' hub' w :
  watch_step me a e s heap hub pc = Done (pc', heap', hub') -> w <> me ->
  heap' !! w = heap !! w /\ (w ∈ waiters_ hub' <-> w ∈ waiters_ hub).
Proof.
  intros Hs Hne.
  assert (Hu : w ∈ waiters_ (Unregister heap hub me) <-> w ∈ waiters_ hub).
  { unfold Unregister. simpl. rewrite list_elem_of_filter. unfold weak_lock.
    split; [tauto|]. intros Hin. split; [|done]. case_decide; congruence. }
  assert (Hr : w ∈ waiters_ (Register hub me) <-> w ∈ waiters_ hub).
  { simpl. rewrite elem_of_app, list_elem_of_singleton. tauto. }
  assert (Hd : delete me heap !! w = heap !! w) by by rewrite lookup_delete_ne.
  destruct pc; simpl in Hs; try (injection Hs as <- <- <-; done).
  - injection Hs as <- <- <-. split; [by rewrite lookup_insert_ne|done].
  - destruct (es_replay _ _ _ _ _ _) as [[[ok rep] c]|]; [|done]. by simplify_eq/=.
  - destruct (heap !! me) as [x|]; [|done].
    repeat case_match; simplify_eq; (split; [|done]); try done; by rewrite lookup_insert_ne.
  - destruct (heap !! me); by simplify_eq.
  - destruct (heap !! me); by simplify_eq.
  - destruct (heap !! me) as [x|]; [|done]. destruct (w_events x); by simplify_eq.
Qed.

Lemma watch_step_hub me a e s heap hub pc pc' heap' hub' :
  watch_step me a e s heap hub pc = Done (pc', heap', hub') ->
  max_events_per_waiter_ hub' = max_events_per_waiter_ hub /\
  (NoDup (waiters_ hub) -> (forall P : Prop, pc = WRegister -> me ∈ waiters_ hub -> P) ->
   NoDup (waiters_ hub')).
Proof.
  intros Hs. assert (NoDup (waiters_ hub) -> NoDup (waiters_ (Unregister heap hub me))) as Hu
    by apply NoDup_filter.
  destruct pc; simpl in Hs; try (injection Hs as <- <- <-; split; by auto).
  - injection Hs as <- <- <-. split; [done|]. intros Hnd Hn. simpl.
    apply NoDup_app. split_and!; [done| |apply NoDup_singleton].
    intros p Hp ->%list_elem_of_singleton. by apply (Hn False).
  - destruct (es_replay _ _ _ _ _ _) as [[[ok rep] c]|]; [|done]. simplify_eq/=. split; auto.
  - destruct (heap !! me) as [x|]; [|done]. repeat case_match; simplify_eq; split; auto.
  - destruct (heap !! me); simplify_eq. split; auto.
  - destruct (heap !! me); simplify_eq. split; auto.
  - destruct (heap !! me) as [x|]; [|done]. destruct (w_events x); simplify_eq; split; auto.
Qed.

(** The only new waiters are empty ones of the caller. *)
Lemma watch_step_heap me a e s heap hub pc pc' heap' hub' p x :
  watch_step me a e s heap hub pc = Done (pc', heap', hub') -> heap' !! p = Some x ->
  heap !! p = Some x \/ p = me /\ w_events x = [].
Proof.
  intros Hs. assert (Hd : delete me heap !! p = Some x -> heap !! p = Some x).
  { by intros [_ ?]%lookup_delete_Some. }
  destruct pc; simpl in Hs; try (injection Hs as <- <- <-; by auto).
  - injection Hs as <- <- <-. intros [[-> <-]|[_ Hp]]%lookup_insert_Some; auto.
  - destruct (es_replay _ _ _ _ _ _) as [[[ok rep] c]|]; [|done]. simplify_eq/=. auto.
  - destruct (heap !! me) as [y|]; [|done].
    destruct (w_events y) eqn:Ee; [destruct (overflow y); [|destruct (is_canceled a e)]|];
      simplify_eq; auto.
    intros [[-> <-]|[_ Hp]]%lookup_insert_Some; auto.
  - destruct (heap !! me); simplify_eq. auto.
  - destruct (heap !! me); simplify_eq. auto.
  - destruct (heap !! me) as [y|]; [|done]. destruct (w_events y); simplify_eq; auto.
Qed.

Lemma watch_inv max σ σ' w e :
  sys_inv max σ -> exec σ (AWatch w e) = Some σ' -> sys_inv max σ'.
Proof.
  intros [] E. simpl in E. destruct (sy_calls σ !! w) as [[a pc]|] eqn:Ec; [|done]. simpl in E.
  destruct (watch_step _ _ _ _ _ _ _) as [[[pc' heap'] hub']|] eqn:Es; [|done]. simplify_eq.
  pose proof (si_calls0 _ _ Ec) as Hc. simpl in Hc. destruct si_max0 as [Hm Hmax].
  destruct (watch_step_hub _ _ _ _ _ _ _ _ _ _ Es) as [Hm' Hnd].
  assert (Hfr : forall p, p <> w -> heap' !! p = sy_heap σ !! p /\
    (p ∈ waiters_ hub' <-> p ∈ waiters_ (sy_hub σ))) by (intros; by eapply watch_step_frame).
  split; simpl; try done.
  - by rewrite Hm'.
  - apply Hnd; [done|]. intros P -> Hin. simpl in Hc. tauto.
  - intros p Hp. destruct (decide (p = w)) as [->|Hne]; [by rewrite lookup_insert_eq|].
    rewrite lookup_insert_ne by done. apply si_known0. destruct Hp as [Hp|Hp]; [left|by right].
    by apply (Hfr p Hne).
  - intros p x Hx. rewrite lookup_insert_is_Some.
    destruct (watch_step_heap _ _ _ _ _ _ _ _ _ _ _ _ Es Hx) as [Hp|[-> He]].
    + apply si_heap0 in Hp as [? ?]. split; [|done].
      destruct (decide (w = p)); [by left|by right].
    + split; [by left|]. rewrite He. simpl. lia.
  - intros p c Hp. destruct (decide (w = p)) as [<-|Hne].
    + rewrite lookup_insert_eq in Hp. simplify_eq/=.
      eapply watch_step_inv in Hc; [|done..|lia|exact Es].
      destruct pc; simpl in Hc |- *; try exact Hc. by rewrite lookup_insert_eq.
    + rewrite lookup_insert_ne in Hp by done. destruct (Hfr p ltac:(done)) as [Hh Hw].
      rewrite Hh. assert ((match pc with
        | WRegister => <[w:=(length (sy_log σ) - withheld (sy_writer σ) w)%nat]> (sy_reg σ)
        | _ => sy_reg σ end) !! p = sy_reg σ !! p) as ->.
      { destruct pc; try done. by apply lookup_insert_ne. }
      apply (call_inv_iff _ _ _ (p ∈ waiters_ (sy_hub σ)) _ (p ∈ targets (sy_writer σ)));
        [done|done|by apply si_calls0].
Qed.

Lemma sys_step_inv max σ σ' : sys_inv max σ -> sys_step σ σ' -> sys_inv max σ'.
Proof.
  intros Hi Hst. inversion Hst as [? act ? Ha E]; subst. destruct act as [cmd| |keep| |w a|w e].
  - simpl in E, Ha. destruct (sy_writer _) eqn:Ew; try done.
    destruct (es_apply _ _) as [[evs s']|] eqn:Ea; [|done]. simplify_eq.
    apply write_inv; try done.
    + eapply es_inv_apply; [apply (si_store _ _ Hi)|done|done].
    + intros it Hit. by eapply es_since_apply.
    + eapply es_apply_compact_rev; [apply (si_store _ _ Hi)|done|done].
  - by eapply broadcast_inv.
  - simpl in E. destruct (sy_compaction σ) eqn:Ek; [done|]. simplify_eq.
    pose proof (es_since_refl _ _ (si_store _ _ Hi)) as Hs.
    destruct Hi. split; simpl; try done. intros it k E. by simplify_eq.
  - simpl in E. destruct (sy_compaction σ) as [[it keep]|] eqn:Ek; [|done].
    destruct (es_compact _ _ _) as [s'|] eqn:Ec; [|done]. simplify_eq.
    pose proof (si_compaction _ _ Hi _ _ Ek) as Hsince.
    pose proof (es_compact_compact_rev _ _ _ _ _ (si_store _ _ Hi) Hsince Ec) as Hc.
    pose proof (es_inv_compact_step _ _ _ _ _ (si_store _ _ Hi) Hsince Ec) as Hs.
    destruct Hi. split; simpl; try done. intros w c Hw.
    by eapply call_inv_mono; [| |apply si_calls0].
  - simpl in E. destruct (sy_calls _ !! w) eqn:Ew; [done|]. simplify_eq.
    destruct Hi. split; simpl; try done.
    + intros p Hp. rewrite lookup_insert_is_Some. destruct (decide (w = p)); [by left|right].
      split; [done|]. by apply si_known0.
    + intros p x Hx. apply si_heap0 in Hx as [? ?]. rewrite lookup_insert_is_Some.
      split; [|done]. destruct (decide (w = p)); [by left|by right].
    + intros p c [[<- <-]|[Hne Hp]]%lookup_insert_Some; [|by apply si_calls0]. simpl.
      split_and!; try (intros Hin; destruct (si_known0 w) as [x Hx]; try congruence; by (left + right)).
      destruct (sy_heap _ !! w) as [x|] eqn:Ex; [|done].
      destruct (si_heap0 _ _ Ex) as [[y Hy] _]. congruence.
  - by eapply watch_inv.
Qed.

Fixpoint allowed_all σ (acts : list action) : Prop :=
  match acts with
  | [] => True
  | act :: acts' =>
      allowed σ act /\
      match exec σ act with Some σ' => allowed_all σ' acts' | None => True end
  end.

Lemma exec_all_steps σ acts σ' :
  exec_all σ acts = Some σ' -> allowed_all σ acts -> rtc sys_step σ σ'.
Proof.
  revert σ. induction acts as [|act acts IH]; intros σ E Ha; simpl in *; [by simplify_eq|].
  destruct Ha as [Ha Hall]. destruct (exec σ act) as [σ1|] eqn:E1; [|done]. simpl in E.
  eapply rtc_l; [by econstructor|]. by apply IH.
Qed.

Lemma sys_steps_inv max σ σ' : sys_inv max σ -> rtc sys_step σ σ' -> sys_inv max σ'.
Proof. induction 2; eauto using sys_step_inv. Qed.
End steps.
