(* ===== verification/WatchTheorems.v ===== *)
(** Properties of [Watch], for any store that keeps the promises of
    [EventStoreSpec], any number of calls and any interleaving with writes,
    broadcasts and compaction. *)
From S2P Require Import Prelude Proto WatchHub WatchCall WatchSystem WatchInv WatchSteps.

Section theorems.
Context {S : Type} `{EventStoreSpec S}.
Implicit Types (s : S) (L : list WatchEvent) (σ : Sys S) (a : WatchArgs).

(** The states the system can be in after it starts on a store. *)
Definition reachable σ : Prop :=
  exists s L max, es_inv s L /\ rtc sys_step (sys_init s L max) σ.

Lemma reachable_inv σ : reachable σ -> exists max, sys_inv max σ.
Proof.
  intros (s & L & max & Hs & Hr). destruct (sys_init_inv s L max Hs) as [m Hm].
  exists m. by eapply sys_steps_inv.
Qed.

Lemma reachable_numbered σ : reachable σ -> numbered (sy_log σ).
Proof.
  intros [max Hi]%reachable_inv i e. by apply (es_inv_event (sy_store σ)), (si_store _ _ Hi).
Qed.

Lemma returned_inv σ w a ok out :
  reachable σ -> sy_calls σ !! w = Some (mkCall a (WReturn ok out)) ->
  ~ (w ∈ waiters_ (sy_hub σ)) /\ sy_heap σ !! w = None /\
  result_ok (max_events_per_waiter_ (sy_hub σ)) (sy_store σ) (sy_log σ) (sy_reg σ !! w) a ok out.
Proof.
  intros [max Hi]%reachable_inv Hc. apply (si_calls _ _ Hi) in Hc.
  by destruct (si_max _ _ Hi) as [-> _].
Qed.

Lemma elem_of_matching key L e :
  e ∈ matching key L <-> (key = "" \/ ev_key e = key) /\ e ∈ L.
Proof. unfold matching. by rewrite list_elem_of_filter. Qed.

Lemma last_of_sorted (evs : list WatchEvent) e :
  StronglySorted ev_lt evs -> e ∈ evs -> ev_revision e <= last_revision evs.
Proof.
  intros Hs Hin. unfold last_revision. induction Hs as [|x l Hs IH Hx]; [by apply elem_of_nil in Hin|].
  rewrite last_cons. rewrite Forall_forall in Hx. unfold ev_lt in Hx.
  apply elem_of_cons in Hin as [->|Hin].
  - destruct (last l) as [y|] eqn:El; [|done]. apply last_Some_elem_of in El.
    specialize (Hx _ El). simpl. lia.
  - specialize (IH Hin). destruct (last l) eqn:El; [done|]. apply last_None in El.
    subst. by apply elem_of_nil in Hin.
Qed.

(** A prefix of the matching part of a segment holds all that is not above its
    last event. *)
Lemma prefix_complete key L lo hi evs rest e :
  numbered L -> evs <> [] -> evs ++ rest = matching key (slice L lo hi) ->
  e ∈ L -> key = "" \/ ev_key e = key -> Z.of_nat lo < ev_revision e <= last_revision evs ->
  e ∈ evs.
Proof.
  intros HL Hne Hm Hin Hk Hr. pose proof (matching_slice_sorted L key lo hi HL) as Hs.
  rewrite <-Hm in Hs.
  assert (exists x, last evs = Some x) as [x Hx].
  { destruct (last evs) eqn:E; [eauto|]. by apply last_None in E. }
  assert (ev_revision x = last_revision evs) as Hxr by (unfold last_revision; by rewrite Hx).
  apply last_Some_elem_of in Hx as Hxin.
  assert (x ∈ evs ++ rest) as Hxs by (apply elem_of_app; by left).
  rewrite Hm in Hxs. apply elem_of_matching in Hxs as [_ [_ Hxb]%slice_revisions]; [|done].
  assert (e ∈ evs ++ rest) as He.
  { rewrite Hm. apply elem_of_matching. split; [done|]. apply slice_revisions; [done|].
    split; [done|lia]. }
  apply elem_of_app in He as [He|He]; [done|].
  pose proof (StronglySorted_app_1_elem_of _ _ _ _ _ Hs Hxin He) as Hlt.
  unfold ev_lt in Hlt. lia.
Qed.

(** Where the events of a result come from: the front of the matching changes of a
    segment of the log, which begins at the anchor, or where the call registered. *)
Lemma returned_events σ w a ok out :
  reachable σ -> sy_calls σ !! w = Some (mkCall a (WReturn ok out)) ->
  wr_events out <> [] ->
  ok = true /\ wr_code out = OK /\
  wr_current_revision out = last_revision (wr_events out) /\
  exists lo hi rest,
    wr_events out ++ rest = matching (wa_key a) (slice (sy_log σ) lo hi) /\
    (0 < from_rev a /\ lo = from_nat a \/ rest = [] /\ quiet a (sy_log σ) lo).
Proof.
  intros Hr Hc Hne. destruct (returned_inv _ _ _ _ _ Hr Hc) as (_ & _ & Ho).
  unfold result_ok in Ho. destruct (wr_code out); try tauto. destruct Ho as [-> Ho].
  assert (wr_current_revision out = last_revision (wr_events out) /\ exists lo hi rest,
    (hi <= length (sy_log σ))%nat /\
    wr_events out ++ rest = matching (wa_key a) (slice (sy_log σ) lo hi) /\
    (0 < from_rev a /\ lo = from_nat a \/
     rest = [] /\ sy_reg σ !! w = Some lo /\ quiet a (sy_log σ) lo))
    as (-> & lo & hi & rest & _ & Hm & Hq) by by destruct (wr_events out).
  split_and!; [done..|]. exists lo, hi, rest. split; [done|].
  by destruct Hq as [?|(? & _ & ?)]; [left|right].
Qed.

(** Nothing is missing between the anchor of the call and the new one. *)
Lemma returned_from_anchor σ w a ok out e :
  reachable σ -> sy_calls σ !! w = Some (mkCall a (WReturn ok out)) ->
  wr_events out <> [] -> 0 < from_rev a -> e ∈ sy_log σ -> wa_key a = "" \/ ev_key e = wa_key a ->
  from_rev a < ev_revision e <= wr_current_revision out -> e ∈ wr_events out.
Proof.
  intros Hr Hc Hne Hf He Hk. pose proof (reachable_numbered _ Hr) as HL.
  destruct (returned_events _ _ _ _ _ Hr Hc Hne) as (_ & _ & -> & lo & hi & rest & Hm & Hq).
  intros Hb. pose proof (prefix_complete (wa_key a) (sy_log σ) lo hi _ rest e HL Hne Hm He Hk) as Hcomp.
  destruct Hq as [[_ ->]|(-> & [?|(cur & Hcur & Hnone)])]; [|lia|].
  - apply Hcomp. unfold from_nat. lia.
  - destruct (decide (Z.of_nat lo < ev_revision e)); [apply Hcomp; lia|].
    exfalso. apply (not_elem_of_nil e). rewrite <-Hnone. apply elem_of_matching.
    split; [done|]. apply slice_revisions; [done|]. unfold from_nat. split; [done|lia].
Qed.

Lemma returned_sound σ w a ok out e :
  reachable σ -> sy_calls σ !! w = Some (mkCall a (WReturn ok out)) ->
  e ∈ wr_events out -> e ∈ sy_log σ /\ (wa_key a = "" \/ ev_key e = wa_key a).
Proof.
  intros Hr Hc He. pose proof (reachable_numbered _ Hr) as HL.
  destruct (returned_events _ _ _ _ _ Hr Hc) as (_ & _ & _ & lo & hi & rest & Hm & _).
  { intros E. rewrite E in He. by apply elem_of_nil in He. }
  assert (e ∈ wr_events out ++ rest) as Hx by (apply elem_of_app; by left).
  rewrite Hm in Hx. apply elem_of_matching in Hx as [? [? _]%slice_revisions]; done.
Qed.

(** C5. What [Watch] returns is right: the events are changes the store has
    made, all match the filter, they come in the order of their revisions
    without repetition, and the anchor is the revision of the last one.  No
    matching change is missing between two of them, and when the call had an
    anchor to resume from, none is missing between that anchor and the new one,
    whatever writes, broadcasts, compaction passes and other calls ran beside
    it.  So a client that follows the anchors of results with events loses
    nothing. *)
Theorem watch_events_complete σ w a ok out :
  reachable σ -> sy_calls σ !! w = Some (mkCall a (WReturn ok out)) ->
  wr_events out <> [] ->
  let matches e := wa_key a = "" \/ ev_key e = wa_key a in
  ok = true /\ wr_code out = OK /\
  wr_current_revision out = last_revision (wr_events out) /\
  StronglySorted ev_lt (wr_events out) /\
  (forall e, e ∈ wr_events out -> e ∈ sy_log σ /\ matches e) /\
  (forall x e, x ∈ wr_events out -> e ∈ sy_log σ -> matches e ->
     ev_revision x <= ev_revision e <= wr_current_revision out -> e ∈ wr_events out) /\
  (0 < from_rev a -> forall e, e ∈ sy_log σ -> matches e ->
     from_rev a < ev_revision e <= wr_current_revision out -> e ∈ wr_events out).
Proof.
  intros Hr Hc Hne matches. pose proof (reachable_numbered _ Hr) as HL.
  destruct (returned_events _ _ _ _ _ Hr Hc Hne) as (-> & Hcode & Hcur & lo & hi & rest & Hm & _).
  pose proof (matching_slice_sorted (sy_log σ) (wa_key a) lo hi HL) as Hs. rewrite <-Hm in Hs.
  split_and!; try done.
  - by apply StronglySorted_app_1_l in Hs.
  - intros e. by eapply returned_sound.
  - intros x e Hx He Hk Hb. rewrite Hcur in Hb.
    eapply (prefix_complete (wa_key a) (sy_log σ) lo hi _ rest); try done.
    assert (x ∈ wr_events out ++ rest) as Hx' by (apply elem_of_app; by left).
    rewrite Hm in Hx'. apply elem_of_matching in Hx' as [_ [_ ?]%slice_revisions]; [lia|done].
  - intros Hf e He Hk Hb. by eapply returned_from_anchor.
Qed.

(** * A client that resumes *)

(** What the calls of a system have answered. *)
Definition answered σ a out : Prop :=
  exists w ok, sy_calls σ !! w = Some (mkCall a (WReturn ok out)).

(** Successive calls of one client for [key], from anchor [from] to anchor [to].  It
    moves its anchor when a result has events, to the anchor of the result, and asks
    again from where it was when a result has none: after a timeout, an error, an
    overflow, or on another node that is behind. *)
Inductive subscription (answer : WatchArgs -> WatchResult -> Prop) (key : string)
    : Z -> list WatchEvent -> Z -> Prop :=
| SubEnd n : subscription answer key n [] n
| SubEvents from a out evs to :
    answer a out -> wa_key a = key -> from_rev a = from ->
    wr_events out <> [] -> subscription answer key (wr_current_revision out) evs to ->
    subscription answer key from (wr_events out ++ evs) to
| SubNothing from a out evs to :
    answer a out -> wa_key a = key -> from_rev a = from ->
    wr_events out = [] -> subscription answer key from evs to ->
    subscription answer key from evs to.

(** The events of an answer are matching changes of [L], and none of them is missing
    between the two anchors. *)
Definition covers (L : list WatchEvent) a out : Prop :=
  0 < wr_current_revision out /\
  (forall e, e ∈ wr_events out -> e ∈ L /\ (wa_key a = "" \/ ev_key e = wa_key a)) /\
  (0 < from_rev a -> forall e, e ∈ L -> wa_key a = "" \/ ev_key e = wa_key a ->
     from_rev a < ev_revision e <= wr_current_revision out -> e ∈ wr_events out).

Lemma subscription_covers L answer key from evs to :
  (forall a out, answer a out -> wr_events out <> [] -> covers L a out) ->
  subscription answer key from evs to -> 0 < from ->
  (forall e, e ∈ evs -> e ∈ L /\ (key = "" \/ ev_key e = key)) /\
  (forall e, e ∈ L -> key = "" \/ ev_key e = key -> from < ev_revision e <= to -> e ∈ evs).
Proof.
  intros Hans. induction 1 as [n|from a out evs to Ha <- <- Hne _ IH|from a out evs to _ _ _ _ _ IH];
    intros Hf; [| |by apply IH].
  - split; [by intros e ?%elem_of_nil|lia].
  - destruct (Hans _ _ Ha Hne) as (Hpos & Hsound & Hall). destruct (IH Hpos) as [Hin Hrest]. split.
    + intros e [He|He]%elem_of_app; [by apply Hsound|by apply Hin].
    + intros e He Hk Hb. apply elem_of_app.
      destruct (decide (ev_revision e <= wr_current_revision out));
        [left; apply Hall|right; apply Hrest]; done || lia.
Qed.

Lemma answered_covers σ a out :
  reachable σ -> answered σ a out -> wr_events out <> [] -> covers (sy_log σ) a out.
Proof.
  intros Hr (w & ok & Hc) Hne. pose proof (reachable_numbered _ Hr) as HL. split_and!.
  - destruct (returned_events _ _ _ _ _ Hr Hc Hne) as (_ & _ & -> & _).
    apply (last_revision_bound (sy_log σ)); [done| |done].
    intros e He. by eapply returned_sound.
  - intros e He. by eapply returned_sound.
  - intros Hf e He Hk Hb. by eapply returned_from_anchor.
Qed.

(** C7. A subscription loses nothing.  A client that keeps asking, with the anchor of
    its last result that had events, receives every matching change between the
    anchor it began with and the one it has reached, and nothing but matching
    changes, whatever writes, broadcasts, compaction passes and other calls ran
    beside its calls and between them, and however many of them timed out, were
    refused or overflowed.  (A snapshot installed on the node is none of these.) *)
Theorem subscription_complete σ key from evs to :
  reachable σ -> subscription (answered σ) key from evs to -> 0 < from ->
  (forall e, e ∈ evs -> e ∈ sy_log σ /\ (key = "" \/ ev_key e = key)) /\
  (forall e, e ∈ sy_log σ -> key = "" \/ ev_key e = key -> from < ev_revision e <= to -> e ∈ evs).
Proof.
  intros Hr. apply subscription_covers. intros a out. by apply answered_covers.
Qed.

(** C29. The other results: the code is OK, COMPACTED or INTERNAL, and [Watch]
    returns true exactly with OK.  COMPACTED is answered only when history
    above the anchor has been reclaimed, and an overflow only when the matching
    changes since some point are more than the buffer may hold.  The anchor
    handed out is never above the revision of the store, and never below the
    one the client came with, except when the call was cancelled (0) or the
    node was behind it. *)
Theorem watch_results_classified σ w a ok out :
  reachable σ -> sy_calls σ !! w = Some (mkCall a (WReturn ok out)) ->
  (ok = true <-> wr_code out = OK) /\
  wr_current_revision out <= es_rev (sy_store σ) /\
  (from_rev a <= wr_current_revision out \/
   wr_code out = OK /\ wr_events out = [] /\ wr_current_revision out = 0 \/
   wr_code out = OK /\ wr_events out <> [] \/
   wr_code out = INTERNAL /\ wr_message out = behind_message) /\
  match wr_code out with
  | OK => True
  | COMPACTED => wr_events out = [] /\ 0 < from_rev a < es_compact_rev (sy_store σ)
  | INTERNAL => wr_events out = [] /\
      (wr_message out = behind_message \/
       wr_message out = overflow_message /\
       exists lo, (max_events_per_waiter_ (sy_hub σ) <
         length (matching (wa_key a) (drop lo (sy_log σ))))%nat)
  | _ => False
  end.
Proof.
  intros Hr Hc. pose proof (reachable_numbered _ Hr) as HL.
  destruct (returned_inv _ _ _ _ _ Hr Hc) as (_ & _ & Ho).
  destruct (reachable_inv _ Hr) as [m Hi]. pose proof (es_inv_rev _ _ (si_store _ _ Hi)) as Hrev.
  rewrite Hrev. unfold result_ok in Ho. destruct (wr_code out) eqn:Ecode; try tauto.
  - destruct Ho as [-> Ho]. split; [done|].
    destruct (wr_events out) as [|e evs] eqn:Ee.
    + destruct Ho as [->|?]; (split; [lia|split; [|done]]); [|by left; lia].
      right; left. done.
    + destruct Ho as (-> & lo & hi & rest & Hhi & Hm & _).
      split; [|split; [|done]].
      * destruct (last_revision_bound (sy_log σ) (e :: evs) HL) as [_ ?]; [|done|done].
        intros x Hx. assert (x ∈ (e :: evs) ++ rest) as Hx' by (apply elem_of_app; by left).
        rewrite Hm in Hx'. apply elem_of_matching in Hx' as [_ Hx'].
        by apply slice_revisions in Hx' as [? _].
      * right; right; left. done.
  - destruct Ho as (-> & -> & ? & ?). split_and!; try done; lia || (left; lia).
  - destruct Ho as (-> & -> & ? & Ho). split_and!; try done.
    + destruct Ho as [?|(_ & ? & _)]; [by right; right; right|by left].
    + destruct Ho as [?|(? & _ & lo & Hlo)]; [by left|right]. split; [done|]. exists lo.
      unfold slice in Hlo. by rewrite take_ge in Hlo.
Qed.

(** C30. Bounds and cleanup: no waiter ever buffers more events than the limit,
    a waiter is listed at most once, and when a call has returned the hub no
    longer lists it and its waiter is gone, on every path. *)
Theorem watch_no_leak σ :
  reachable σ ->
  (forall p x, sy_heap σ !! p = Some x ->
     (length (w_events x) <= max_events_per_waiter_ (sy_hub σ))%nat) /\
  NoDup (waiters_ (sy_hub σ)) /\
  forall w a ok out, sy_calls σ !! w = Some (mkCall a (WReturn ok out)) ->
    ~ (w ∈ waiters_ (sy_hub σ)) /\ sy_heap σ !! w = None.
Proof.
  intros Hr. destruct (reachable_inv _ Hr) as [m Hi]. split_and!.
  - intros p x Hx. destruct (si_max _ _ Hi) as [-> _]. by destruct (si_heap _ _ Hi _ _ Hx).
  - apply (si_waiters _ _ Hi).
  - intros w a ok out Hc. by destruct (returned_inv _ _ _ _ _ Hr Hc) as (? & ? & _).
Qed.

(** Another thread does not move a call. *)
Lemma exec_frame_call σ act σ' w c :
  sy_calls σ !! w = Some c -> (forall e, act <> AWatch w e) -> exec σ act = Some σ' ->
  sy_calls σ' !! w = Some c.
Proof.
  intros Hc Hact E. destruct act as [cmd| |keep| |w' a|w' e']; simpl in E.
  - destruct (sy_writer σ); try done. destruct (es_apply _ _) as [[evs s']|]; by simplify_eq.
  - destruct (sy_writer σ) as [| |evs [|p rest]]; by simplify_eq.
  - destruct (sy_compaction σ); by simplify_eq.
  - destruct (sy_compaction σ) as [[it k]|]; [|done]. destruct (es_compact _ _ _); by simplify_eq.
  - destruct (sy_calls σ !! w') eqn:Ew; simplify_eq. simpl. rewrite lookup_insert_ne; congruence.
  - assert (w' <> w) by (intros ->; by apply (Hact e')).
    destruct (sy_calls σ !! w') as [c'|]; [|done].
    destruct (watch_step _ _ _ _ _ _ _) as [[[pc' heap'] hub']|]; simplify_eq.
    simpl. by rewrite lookup_insert_ne.
Qed.

(** C31. [Watch] ends: a call that has not returned can always take a step
    (it never meets a missing waiter), no action of another thread moves it,
    and once the deadline it waits for has passed each of its steps brings it
    closer to its return, which is at most 17 steps away. *)
Theorem watch_ends σ w c e :
  reachable σ -> sy_calls σ !! w = Some c -> (rank (c_pc c) <> 0)%nat -> late (c_pc c) e ->
  (rank (c_pc c) <= 17)%nat /\
  (exists σ' c', exec σ (AWatch w e) = Some σ' /\ sy_calls σ' !! w = Some c' /\
     (rank (c_pc c') < rank (c_pc c))%nat) /\
  (forall act σ', (forall e', act <> AWatch w e') -> exec σ act = Some σ' ->
     sy_calls σ' !! w = Some c).
Proof.
  intros Hr Hc Hrank Hl. destruct (reachable_inv _ Hr) as [m Hi].
  split; [destruct c as [a []]; simpl; lia|]. split.
  - destruct (watch_step w (c_args c) e (sy_store σ) (sy_heap σ) (sy_hub σ) (c_pc c))
      as [[[pc' heap'] hub']|x] eqn:E.
    + simpl. rewrite Hc, E. do 2 eexists. split; [done|]. simpl. rewrite lookup_insert_eq.
      split; [done|]. destruct (watch_step_rank _ _ _ _ _ _ _ _ _ _ E Hl)
        as [?|(ok & out & Hpc & _)]; [done|]. by rewrite Hpc in Hrank.
    + exfalso. apply (si_calls _ _ Hi) in Hc. destruct (si_max _ _ Hi) as [Hm Hmax].
      destruct c as [a pc]. destruct pc; simpl in E, Hc; try discriminate E.
      * destruct Hc as (lo & y & _ & _ & _ & _ & _ & Hf0 & Hlo & L0 & Hit & Hp & Hcur & Hle).
        rewrite Hm, (replay_result L0 it _ (sy_log σ)) in E;
          try done; [|by apply (si_store _ _ Hi)|lia|lia].
        by destruct (decide _).
      * destruct Hc as (lo & y & _ & _ & Hy & _). rewrite Hy in E. repeat case_match; done.
      * destruct Hc as [(lo & y & _ & _ & Hy & _) _]. by rewrite Hy in E.
      * destruct Hc as (lo & hi & y & _ & _ & Hy & _). by rewrite Hy in E.
      * destruct Hc as (lo & hi & y & _ & _ & Hy & _). rewrite Hy in E. by destruct (w_events y).
  - intros act σ' Hact E. by apply (exec_frame_call σ act σ' w c).
Qed.

(** The deliveries of one broadcast, one after the other. *)
Lemma deliveries σ evs rest :
  sy_writer σ = WrDelivering evs rest ->
  exec_all σ (replicate (length rest + 1) ABroadcast) =
  Some (set_writer σ (foldl (deliver_to (max_events_per_waiter_ (sy_hub σ)) evs)
                        (sy_heap σ) rest) WrIdle).
Proof.
  revert σ. induction rest as [|p rest IH]; intros σ Hw; simpl; rewrite Hw; [done|]. simpl.
  by rewrite IH.
Qed.

(** The steps of the writer are [Broadcast]: when nothing else runs between
    them, they leave the heap that the function [Broadcast] computes from the
    hub's list, and each registered waiter has then been offered the events
    once. *)
Theorem broadcast_uninterrupted σ evs :
  reachable σ -> sy_writer σ = WrApplied evs -> evs <> [] ->
  let heap' := Broadcast (sy_heap σ) (sy_hub σ) evs in
  exec_all σ (replicate (length (waiters_ (sy_hub σ)) + 2) ABroadcast) =
    Some (set_writer σ heap' WrIdle) /\
  forall w, heap' !! w =
    if decide (w ∈ waiters_ (sy_hub σ))
    then offer (max_events_per_waiter_ (sy_hub σ)) evs <$> sy_heap σ !! w
    else sy_heap σ !! w.
Proof.
  intros Hr Hw Hne heap'. destruct (reachable_inv _ Hr) as [m Hi]. split.
  - rewrite Nat.add_succ_r. simpl. rewrite Hw. simpl.
    rewrite (deliveries _ evs (waiters_ (sy_hub σ))) by done. simpl.
    unfold heap', Broadcast. by destruct evs.
  - intros w. apply Broadcast_lookup; [done|]. apply (si_waiters _ _ Hi).
Qed.

(** The comparison of [timespec]s is that of the microseconds. *)
Lemma TimespecLess_us x y :
  0 <= x -> 0 <= y -> TimespecLess (FromEpochUs x) (FromEpochUs y) = (x <? y).
Proof.
  intros Hx Hy. unfold TimespecLess, FromEpochUs. simpl.
  rewrite !Z.quot_div_nonneg, !Z.rem_mod_nonneg by lia.
  pose proof (Z.div_mod x 1000000 ltac:(lia)). pose proof (Z.div_mod y 1000000 ltac:(lia)).
  pose proof (Z.mod_pos_bound x 1000000 ltac:(lia)).
  pose proof (Z.mod_pos_bound y 1000000 ltac:(lia)).
  destruct (Z.ltb_spec x y).
  - apply orb_true_iff. rewrite andb_true_iff, !Z.ltb_lt, Z.eqb_eq. lia.
  - apply orb_false_iff. rewrite andb_false_iff, !Z.ltb_ge, Z.eqb_neq. lia.
Qed.

(** How long a call waits: the timeout is clamped to between 1 ms and 60 s,
    and the deadline is the earlier of now plus this timeout and the deadline
    of the server, when it has one. *)
Theorem watch_deadline me a e s heap hub t :
  let ms := if wa_timeout_ms a <? 1 then 1
            else if 60000 <? wa_timeout_ms a then 60000 else wa_timeout_ms a in
  0 <= t -> microseconds_from_now e (ms * 1000) = FromEpochUs t ->
  1 <= ms <= 60000 /\
  watch_step me a e s heap hub WDeadline =
    Done (WWait (FromEpochUs (if 0 <? wa_server_deadline_us a
                              then Z.min (wa_server_deadline_us a) t else t)), heap, hub).
Proof.
  intros ms Ht Hm. split.
  { unfold ms. destruct (Z.ltb_spec (wa_timeout_ms a) 1); [lia|].
    destruct (Z.ltb_spec 60000 (wa_timeout_ms a)); lia. }
  simpl. unfold timeout, clamp. fold ms. rewrite Hm.
  destruct (Z.ltb_spec 0 (wa_server_deadline_us a)); simpl; [|done].
  rewrite TimespecLess_us by lia.
  destruct (Z.ltb_spec (wa_server_deadline_us a) t);
    [rewrite Z.min_l by lia|rewrite Z.min_r by lia]; done.
Qed.
End theorems.
