(* ===== verification/WatchLive.v ===== *)
(** A [Watch] call that waits is woken: once the broadcast of a matching change is
    through, the call returns with it after a bounded number of its own steps,
    without its deadline passing. *)
From S2P Require Import Prelude Proto WatchHub WatchCall WatchSystem WatchInv WatchSteps.
From S2P Require Import WatchTheorems.

Fixpoint own_steps (w : nat) (acts : list action) : nat :=
  match acts with
  | [] => 0
  | AWatch w' _ :: acts' => (if decide (w' = w) then 1 else 0) + own_steps w acts'
  | _ :: acts' => own_steps w acts'
  end.

Section live.
Context {S : Type} `{EventStoreSpec S}.
Implicit Types (L : list WatchEvent) (σ : Sys S) (a : WatchArgs).

(** The matching changes since the registration do not fit the buffer. *)
Definition too_many σ a (lo : nat) : Prop :=
  (max_events_per_waiter_ (sy_hub σ) < length (matching (wa_key a) (drop lo (sy_log σ))))%nat.

(** The result has [e], or has no event because the buffer overflowed. *)
Definition has_result σ a lo (e : WatchEvent) (out : WatchResult) : Prop :=
  e ∈ wr_events out \/ wr_events out = [] /\ too_many σ a lo.

Definition has_event σ a lo e (wt : option Waiter) (pc : watch_pc S) : Prop :=
  match pc with
  | WWait _ | WUnregister | WOverflow | WEvents =>
      exists x, wt = Some x /\ (e ∈ w_events x \/ overflow x = true)
  | WBlocked _ =>
      exists x, wt = Some x /\ (e ∈ w_events x \/ overflow x = true) /\ notified x = true
  | WOverflowRev | WTimeoutRev => too_many σ a lo
  | WReturn ok out => has_result σ a lo e out
  | _ => False
  end.

Definition live_rank (pc : watch_pc S) : nat :=
  match pc with
  | WBlocked _ => 6 | WWait _ => 5 | WUnregister => 4 | WOverflow => 3 | WEvents => 2
  | WOverflowRev | WTimeoutRev => 1 | _ => 0
  end.

(** The call [w] is on its way to return [e]. *)
Definition on_its_way w a lo e σ (k : nat) : Prop :=
  sy_reg σ !! w = Some lo /\ exists pc, sy_calls σ !! w = Some (mkCall a pc) /\
    has_event σ a lo e (sy_heap σ !! w) pc /\ (live_rank pc <= k)%nat.

Lemma overflow_too_many σ a lo hi x :
  buffered (max_events_per_waiter_ (sy_hub σ)) (wa_key a) (sy_log σ) lo hi x ->
  overflow x = true -> too_many σ a lo.
Proof.
  intros ([Hlo Hhi] & _ & [[Ho _]|[_ Hm]]) Hx; [congruence|]. unfold too_many.
  assert (drop lo (sy_log σ) = slice (sy_log σ) lo (length (sy_log σ))) as ->
    by (unfold slice; by rewrite take_ge).
  rewrite (slice_split _ lo hi), matching_app, length_app by lia. lia.
Qed.

Lemma too_many_mono σ σ' a lo :
  sy_log σ `prefix_of` sy_log σ' ->
  max_events_per_waiter_ (sy_hub σ') = max_events_per_waiter_ (sy_hub σ) ->
  too_many σ a lo -> too_many σ' a lo.
Proof.
  unfold too_many. intros [k ->] ->. rewrite drop_app, matching_app, length_app. lia.
Qed.

(** * Other threads *)

Lemma exec_log σ act σ' : exec σ act = Some σ' ->
  sy_log σ `prefix_of` sy_log σ' /\
  max_events_per_waiter_ (sy_hub σ') = max_events_per_waiter_ (sy_hub σ).
Proof.
  intros E. destruct act as [cmd| |keep| |w' a|w' e']; simpl in E.
  - destruct (sy_writer σ); try done. destruct (es_apply _ _) as [[evs s']|]; simplify_eq/=.
    split; [by apply prefix_app_r|done].
  - destruct (sy_writer σ) as [| |evs [|p rest]]; by simplify_eq.
  - destruct (sy_compaction σ); by simplify_eq.
  - destruct (sy_compaction σ) as [[it k]|]; [|done]. destruct (es_compact _ _ _); by simplify_eq.
  - destruct (sy_calls σ !! w'); by simplify_eq.
  - destruct (sy_calls σ !! w') as [c'|]; [|done].
    destruct (watch_step _ _ _ _ _ _ _) as [[[pc' heap'] hub']|] eqn:Es; simplify_eq/=.
    split; [done|]. by eapply watch_step_hub.
Qed.

(** Another thread leaves the waiter of a call, or delivers to it. *)
Lemma exec_frame_heap σ act σ' w :
  (forall e, act <> AWatch w e) -> exec σ act = Some σ' ->
  sy_heap σ' !! w = sy_heap σ !! w \/
  exists evs, sy_heap σ' !! w =
    offer (max_events_per_waiter_ (sy_hub σ)) evs <$> sy_heap σ !! w.
Proof.
  intros Hact E. destruct act as [cmd| |keep| |w' a|w' e']; simpl in E.
  - destruct (sy_writer σ); try done. destruct (es_apply _ _) as [[evs s']|]; simplify_eq. by left.
  - destruct (sy_writer σ) as [| |evs [|p rest]]; simplify_eq; [by left..|]. simpl.
    rewrite deliver_to_lookup. destruct (decide (p = w)); [right; by eexists|by left].
  - destruct (sy_compaction σ); simplify_eq. by left.
  - destruct (sy_compaction σ) as [[it k]|]; [|done].
    destruct (es_compact _ _ _); simplify_eq. by left.
  - destruct (sy_calls σ !! w'); simplify_eq. by left.
  - assert (w <> w') by (intros ->; by apply (Hact e')).
    destruct (sy_calls σ !! w') as [c'|]; [|done].
    destruct (watch_step _ _ _ _ _ _ _) as [[[pc' heap'] hub']|] eqn:Es; simplify_eq.
    left. by eapply watch_step_frame.
Qed.

Lemma exec_frame_reg σ act σ' w :
  (forall e, act <> AWatch w e) -> exec σ act = Some σ' -> sy_reg σ' !! w = sy_reg σ !! w.
Proof.
  intros Hact E. destruct act as [cmd| |keep| |w' a|w' e']; simpl in E.
  - destruct (sy_writer σ); try done. destruct (es_apply _ _) as [[evs s']|]; by simplify_eq.
  - destruct (sy_writer σ) as [| |evs [|p rest]]; by simplify_eq.
  - destruct (sy_compaction σ); by simplify_eq.
  - destruct (sy_compaction σ) as [[it k]|]; [|done]. destruct (es_compact _ _ _); by simplify_eq.
  - destruct (sy_calls σ !! w'); by simplify_eq.
  - assert (w' <> w) by (intros ->; by apply (Hact e')).
    destruct (sy_calls σ !! w') as [c'|]; [|done].
    destruct (watch_step _ _ _ _ _ _ _) as [[[pc' heap'] hub']|]; simplify_eq. simpl.
    destruct (c_pc c'); try done. by rewrite lookup_insert_ne.
Qed.

Lemma has_event_deliver x e max evs :
  e ∈ w_events x \/ overflow x = true ->
  e ∈ w_events (deliver max x evs) \/ overflow (deliver max x evs) = true.
Proof.
  intros [He|Ho]; [|right; by apply deliver_overflow].
  destruct (deliver_spec max x evs) as [[[_ ->]|[? _]] _]; [left|by right].
  apply elem_of_app. by left.
Qed.

Lemma other_on_its_way w a lo e σ k act σ' :
  (forall e', act <> AWatch w e') -> exec σ act = Some σ' ->
  on_its_way w a lo e σ k -> on_its_way w a lo e σ' k.
Proof.
  intros Hact E (Hreg & pc & Hc & He & Hk). destruct (exec_log _ _ _ E) as [Hl Hm].
  split; [by rewrite (exec_frame_reg _ _ _ _ Hact E)|]. exists pc.
  split; [by eapply exec_frame_call|]. split; [|done].
  assert (too_many σ a lo -> too_many σ' a lo) as Ht by by apply too_many_mono.
  destruct pc; simpl in *; try done; try by auto.
  2: destruct He as (x & Hx & He & Hn);
    destruct (exec_frame_heap _ _ _ w Hact E) as [->|[evs ->]]; rewrite Hx; simpl; eexists;
    (split; [done|]); [done|split; [by apply has_event_deliver|done]].
  1-4: destruct He as (x & Hx & He);
    destruct (exec_frame_heap _ _ _ w Hact E) as [->|[evs ->]]; rewrite Hx; simpl; eexists;
    (split; [done|]); [done|by apply has_event_deliver].
  destruct He as [He|[He ?]]; [by left|by right; auto].
Qed.

(** * The call itself *)

Lemma own_on_its_way w a lo e σ k e' σ' max :
  sys_inv max σ -> exec σ (AWatch w e') = Some σ' ->
  on_its_way w a lo e σ k -> on_its_way w a lo e σ' (k - 1).
Proof.
  intros Hi E (Hreg & pc & Hc & He & Hk). pose proof (si_calls _ _ Hi _ _ Hc) as Hinv.
  destruct (si_max _ _ Hi) as [Hmax _]. subst max.
  simpl in E, Hinv. rewrite Hc in E. simpl in E.
  destruct pc; simpl in He, Hinv, Hk; try done.
  - destruct He as (x & Hx & He). simpl in E. rewrite Hx in E.
    assert ((match w_events x with
      | [] => if overflow x then (WUnregister, sy_heap σ, sy_hub σ)
              else if is_canceled a e' then (WUnregister, sy_heap σ, sy_hub σ)
              else (WBlocked deadline, <[w := go_to_sleep x]> (sy_heap σ), sy_hub σ)
      | _ :: _ => (WUnregister, sy_heap σ, sy_hub σ) end)
      = (WUnregister (S := S), sy_heap σ, sy_hub σ)) as Hgo.
    { destruct (w_events x); [|done]. by destruct He as [?%elem_of_nil|Ho]; [|rewrite Ho]. }
    rewrite Hgo in E. simplify_eq/=. split; [done|]. eexists. split; [apply lookup_insert_eq|].
    split; [by exists x|simpl; lia].
  - destruct He as (x & Hx & He & Hn). simpl in E. rewrite Hx, Hn in E. simplify_eq/=.
    split; [done|]. eexists. split; [apply lookup_insert_eq|].
    destruct (timed_out e'); (split; [by exists x|simpl; lia]).
  - simpl in E. simplify_eq/=. split; [done|]. eexists. split; [apply lookup_insert_eq|].
    split; [done|simpl; lia].
  - destruct He as (x & Hx & He). simpl in E. rewrite Hx in E. simplify_eq/=.
    split; [done|]. eexists. split; [apply lookup_insert_eq|].
    destruct Hinv as (lo' & hi & y & Hlo & _ & Hy & _ & Hb & _).
    rewrite Hx in Hy. injection Hy as <-. rewrite Hreg in Hlo. injection Hlo as <-.
    destruct (overflow x) eqn:Ho; (split; [|simpl; lia]); simpl.
    + by eapply overflow_too_many.
    + exists x. by rewrite Ho.
  - simpl in E. simplify_eq/=. split; [done|]. eexists. split; [apply lookup_insert_eq|].
    split; [by right|simpl; lia].
  - destruct He as (x & Hx & He). simpl in E. rewrite Hx in E.
    destruct Hinv as (lo' & hi & y & Hlo & _ & Hy & _ & Hb & _ & _ & _ & Hov).
    rewrite Hx in Hy. injection Hy as <-. rewrite Hreg in Hlo. injection Hlo as <-.
    destruct (w_events x) as [|ev evs] eqn:Ee; simplify_eq/=;
      (split; [done|]); eexists; (split; [apply lookup_insert_eq|]); (split; [|simpl; lia]); simpl.
    + destruct He as [?%elem_of_nil|Ho]; [done|]. by eapply overflow_too_many.
    + destruct He as [?|Ho]; [by left|]. by destruct (Hov Ho).
  - simpl in E. simplify_eq/=. split; [done|]. eexists. split; [apply lookup_insert_eq|].
    split; [by right|simpl; lia].
  - simpl in E. simplify_eq/=. split; [done|]. eexists. split; [apply lookup_insert_eq|].
    split; [done|simpl; lia].
Qed.

Lemma run_on_its_way w a lo e acts σ σ' k max :
  sys_inv max σ -> exec_all σ acts = Some σ' -> allowed_all σ acts ->
  on_its_way w a lo e σ k -> on_its_way w a lo e σ' (k - own_steps w acts).
Proof.
  revert σ k. induction acts as [|act acts IH]; intros σ k Hi E Ha Hw; simpl in *.
  { simplify_eq. by rewrite Nat.sub_0_r. }
  destruct Ha as [Ha Hall]. destruct (exec σ act) as [σ1|] eqn:E1; [|done]. simpl in E.
  assert (sys_inv max σ1) as Hi1 by by eapply sys_step_inv; [|econstructor].
  assert ((exists e', act = AWatch w e') \/ (forall e', act <> AWatch w e')) as [[e' ->]|Hact].
  { destruct act as [| | | | |w' e']; try by right. destruct (decide (w' = w)) as [->|];
      [left; by eexists|right; congruence]. }
  - rewrite decide_True by done. rewrite Nat.sub_add_distr. apply (IH σ1); try done.
    by apply (own_on_its_way _ _ _ _ σ _ e' _ max).
  - assert (own_steps w (act :: acts) = own_steps w acts) as Ho.
    { destruct act as [| | | | |w' e']; simpl; try done. rewrite decide_False; [done|].
      intros ->. by apply (Hact e'). }
    simpl in Ho. rewrite Ho. apply (IH σ1); try done.
    by apply (other_on_its_way _ _ _ _ σ _ act).
Qed.

(** A matching change since the registration, with no broadcast under way, is in the
    buffer of a call that waits, or has made it overflow. *)
Lemma waiting_on_its_way σ w a lo e dl :
  reachable σ -> sy_writer σ = WrIdle ->
  sy_calls σ !! w = Some (mkCall a (WWait dl)) \/ sy_calls σ !! w = Some (mkCall a (WBlocked dl)) ->
  sy_reg σ !! w = Some lo -> e ∈ matching (wa_key a) (drop lo (sy_log σ)) ->
  on_its_way w a lo e σ 6.
Proof.
  intros [max Hi]%reachable_inv Hwr Hc Hreg He.
  assert (exists pc, sy_calls σ !! w = Some (mkCall a pc) /\ (pc = WWait dl \/ pc = WBlocked dl))
    as (pc & Hpc & Hor) by (destruct Hc; eauto).
  split; [done|]. exists pc. split; [done|]. pose proof (si_calls _ _ Hi _ _ Hpc) as Hinv.
  simpl in Hinv. rewrite Hwr, Hreg, Nat.sub_0_r in Hinv.
  assert (registered max (sy_log σ) (w ∈ waiters_ (sy_hub σ)) (sy_heap σ !! w)
    (length (sy_log σ)) (Some lo) a (quiet a (sy_log σ))) as (lo' & x & [= <-] & _ & Hx & _ & Hb & _)
    by by destruct Hor as [-> | ->]; [|destruct Hinv].
  assert (e ∈ w_events x \/ overflow x = true) as Hx'.
  { destruct Hb as (_ & _ & [[_ ->]|[? _]]); [left|by right].
    unfold slice. by rewrite take_ge. }
  destruct Hor as [-> | ->]; (split; [|simpl; lia]); exists x; [done|]. split_and!; [done..|].
  destruct Hinv as [_ Ha]. destruct (Ha x Hx) as [?|[He0 Ho0]]; [done|]. exfalso.
  rewrite He0, Ho0 in Hx'. by destruct Hx' as [?%elem_of_nil|].
Qed.

(** After six own steps a call on its way has returned. *)
Lemma on_its_way_returns σ acts σ' w a lo e :
  reachable σ -> on_its_way w a lo e σ 6 ->
  exec_all σ acts = Some σ' -> allowed_all σ acts -> (6 <= own_steps w acts)%nat ->
  exists ok out, sy_calls σ' !! w = Some (mkCall a (WReturn ok out)) /\
    (e ∈ wr_events out \/ wr_events out = [] /\ too_many σ' a lo).
Proof.
  intros [max Hi]%reachable_inv Hw E Ha Hk.
  apply (run_on_its_way _ _ _ _ _ _ _ _ _ Hi E Ha) in Hw.
  destruct Hw as (_ & pc' & Hc' & He' & Hk'). replace (6 - own_steps w acts)%nat with 0%nat in Hk' by lia.
  destruct pc'; simpl in He', Hk'; try done; try lia. by do 2 eexists.
Qed.

(** C8. A waiting call is woken: a call asleep on its condition variable goes on only
    when it is notified, when its time is over or for no reason, and the broadcast
    notifies it: when the writer has finished its broadcasts, a
    call that waits and that registered before a matching change [e] returns
    after at most six steps of its own, whatever the clock says, with no spurious
    wake-up needed and whatever other threads do in between; its result contains [e], unless the changes
    since the registration are more than the buffer may hold and the result has no
    event. *)
Theorem watch_wakes σ acts σ' w a lo e dl :
  reachable σ -> sy_writer σ = WrIdle ->
  sy_calls σ !! w = Some (mkCall a (WWait dl)) \/ sy_calls σ !! w = Some (mkCall a (WBlocked dl)) ->
  sy_reg σ !! w = Some lo -> e ∈ matching (wa_key a) (drop lo (sy_log σ)) ->
  exec_all σ acts = Some σ' -> allowed_all σ acts -> (6 <= own_steps w acts)%nat ->
  exists ok out, sy_calls σ' !! w = Some (mkCall a (WReturn ok out)) /\
    (e ∈ wr_events out \/ wr_events out = [] /\ too_many σ' a lo).
Proof.
  intros Hr Hwr Hc Hreg He E Ha Hk. eapply on_its_way_returns; [exact Hr| |exact E|exact Ha|exact Hk].
  by eapply waiting_on_its_way.
Qed.
End live.
