(* ===== verification/WatchExamples.v ===== *)
(** The Watch hub on the in-memory store: witnesses for the properties of
    WatchTheorems.v, and runs that show what the properties leave open. *)
From S2P Require Import Prelude CxxStd StoreKey Proto LevelDB Store StoreSpec StoreRepr StoreOps.
From S2P Require Import Demo WatchHub WatchCall WatchStore WatchSystem WatchInv WatchSteps.
From S2P Require Import WatchTheorems WatchLive.

Lemma empty_inv : es_inv MemDB.empty [].
Proof. exists mvcc_empty. split; [exact empty_rep|]. by split. Qed.

Definition calm : env := mkEnv 0 (mkTimespec 0) false false false.
Definition late_env : env := mkEnv 0 (mkTimespec 0) false true false.

Definition start (max : nat) : Sys MemDB.t := sys_init MemDB.empty [] max.

(** A call of [w] that waits for changes above [from], brought to its wait. *)
Definition wait_from (w : nat) (from : Z) : list action :=
  ACall w (mkArgs "" from 1000 0 false) :: replicate 8 (AWatch w calm).

(** A write with its whole broadcast to [n] waiters. *)
Definition put_broadcast (key value : string) (n : nat) : list action :=
  AWrite (CmdPut key value) :: replicate (n + 2) ABroadcast.

(** The wait of [w] times out. *)
Definition time_out (w : nat) : list action := [AWatch w calm; AWatch w late_env].

(** What a schedule leaves: the call of [w], the log, and the waiters the writer
    has still to deliver to. *)
Definition outcome_of (max : nat) (acts : list action) (w : nat)
    : option (option (Call MemDB.t) * list WatchEvent * list nat) :=
  (fun σ => (sy_calls σ !! w, sy_log σ, targets (sy_writer σ))) <$> exec_all (start max) acts.

Lemma outcome_reachable max acts w c L ts :
  outcome_of max acts w = Some (Some c, L, ts) -> allowed_all (start max) acts ->
  exists σ, reachable σ /\ sy_calls σ !! w = Some c /\ sy_log σ = L /\ targets (sy_writer σ) = ts.
Proof.
  unfold outcome_of. intros E Ha. destruct (exec_all _ _) as [σ|] eqn:Ee; [|done].
  simplify_eq/=. exists σ. split_and!; try done. exists MemDB.empty, [], max.
  split; [exact empty_inv|]. by eapply exec_all_steps.
Qed.

Definition ev (r : Z) (key value : string) (version : Z) : WatchEvent :=
  mkEvent r key value version "PUT".

(** * What the properties leave open *)

(** A result may repeat the anchor's own event.  [Broadcast] has no check of
    the revision: a write that is in the store when a call reads it, and whose
    broadcast has not copied the list of waiters yet when the call registers, is
    delivered to it although its revision is not above [from_revision].  The
    comment in [Watch] says the replayed and the broadcast changes are disjoint. *)
Theorem watch_may_repeat_the_anchor :
  exists σ out, reachable σ /\
    sy_calls σ !! 1%nat = Some (mkCall (mkArgs "" 1 1000 0 false) (WReturn (S := MemDB.t) true out)) /\
    wr_events out = [ev 1 "a" "1" 1].
Proof.
  destruct (outcome_reachable 8 ([AWrite (CmdPut "a" "1")] ++ wait_from 1 1 ++
    [ABroadcast; ABroadcast] ++ replicate 4 (AWatch 1 calm)) 1
    (mkCall (mkArgs "" 1 1000 0 false) (WReturn true (mkWatchResult OK "" 1 [ev 1 "a" "1" 1])))
    [ev 1 "a" "1" 1] []) as (σ & Hr & Hc & _); [by vm_compute|by vm_compute|].
  by exists σ, (mkWatchResult OK "" 1 [ev 1 "a" "1" 1]).
Qed.

(** An empty result may step over a change.  After a timeout the call leaves
    the hub and then reads the revision of the store: a write applied before that
    read and broadcast after the call has left is covered by the anchor the
    client gets, but was not delivered.  Here the client resumes from revision 2
    and never sees the event of revision 2. *)
Lemma watch_timeout_may_skip :
  exists σ out, reachable σ /\
    sy_calls σ !! 1%nat = Some (mkCall (mkArgs "" 1 1000 0 false) (WReturn (S := MemDB.t) true out)) /\
    wr_code out = OK /\ wr_events out = [] /\ wr_current_revision out = 2 /\
    ev 2 "a" "2" 2 ∈ sy_log σ /\ targets (sy_writer σ) = [].
Proof.
  destruct (outcome_reachable 8 (put_broadcast "a" "1" 0 ++ wait_from 1 1 ++
    [AWrite (CmdPut "a" "2")] ++ time_out 1 ++ replicate 4 (AWatch 1 calm) ++
    [ABroadcast; ABroadcast]) 1
    (mkCall (mkArgs "" 1 1000 0 false) (WReturn true (mkWatchResult OK "" 2 [])))
    [ev 1 "a" "1" 1; ev 2 "a" "2" 2] []) as (σ & Hr & Hc & HL & Ht); [by vm_compute|by vm_compute|].
  exists σ, (mkWatchResult OK "" 2 []). rewrite HL, Ht. split_and!; try done. by right; left.
Qed.

(** So does an overflow: the buffer is emptied and the anchor of the error,
    which the message tells the client to reconnect with, is the revision of the
    store.  Two events arrive at a waiter whose limit is 1; a client that resumes
    from revision 3 sees neither. *)
Lemma watch_overflow_skips :
  exists σ out, reachable σ /\
    sy_calls σ !! 1%nat = Some (mkCall (mkArgs "" 1 1000 0 false) (WReturn (S := MemDB.t) false out)) /\
    wr_code out = INTERNAL /\ wr_message out = overflow_message /\
    wr_current_revision out = 3 /\ ev 2 "a" "2" 2 ∈ sy_log σ /\ ev 3 "a" "3" 3 ∈ sy_log σ.
Proof.
  destruct (outcome_reachable 1 (put_broadcast "a" "1" 0 ++ wait_from 1 1 ++
    put_broadcast "a" "2" 1 ++ put_broadcast "a" "3" 1 ++ replicate 4 (AWatch 1 calm)) 1
    (mkCall (mkArgs "" 1 1000 0 false)
       (WReturn false (mkWatchResult INTERNAL overflow_message 3 [])))
    [ev 1 "a" "1" 1; ev 2 "a" "2" 2; ev 3 "a" "3" 3] []) as (σ & Hr & Hc & HL & _);
    [by vm_compute|by vm_compute|].
  exists σ, (mkWatchResult INTERNAL overflow_message 3 []). rewrite HL.
  split_and!; try done; [by right; left|by right; right; left].
Qed.

(** The anchor handed out may step over a change, in two ways.  After a timeout
    the call leaves the hub and then reads the revision of the store: a write
    applied before that read and broadcast after the call has left is covered by
    the anchor, but was not delivered; here the client resumes from revision 2 and
    never sees the event of revision 2.  And an overflow empties the buffer and
    answers with the revision of the store, which its message tells the client to
    reconnect with; here two events arrive at a waiter whose limit is 1, and a
    client that resumes from revision 3 sees neither. *)
Theorem watch_anchor_may_skip :
  (exists σ out, reachable σ /\
    sy_calls σ !! 1%nat = Some (mkCall (mkArgs "" 1 1000 0 false) (WReturn (S := MemDB.t) true out)) /\
    wr_code out = OK /\ wr_events out = [] /\ wr_current_revision out = 2 /\
    ev 2 "a" "2" 2 ∈ sy_log σ /\ targets (sy_writer σ) = []) /\
  (exists σ out, reachable σ /\
    sy_calls σ !! 1%nat = Some (mkCall (mkArgs "" 1 1000 0 false) (WReturn (S := MemDB.t) false out)) /\
    wr_code out = INTERNAL /\ wr_message out = overflow_message /\
    wr_current_revision out = 3 /\ ev 2 "a" "2" 2 ∈ sy_log σ /\ ev 3 "a" "3" 3 ∈ sy_log σ).
Proof. split; [exact watch_timeout_may_skip|exact watch_overflow_skips]. Qed.

(** The call timed out and left the hub after the list was copied. *)
Definition race_schedule : list action :=
  put_broadcast "a" "1" 0 ++ wait_from 1 1 ++ [AWrite (CmdPut "a" "2"); ABroadcast] ++
  time_out 1 ++ replicate 2 (AWatch 1 calm).

Definition race_state : Sys MemDB.t := default (start 8) (exec_all (start 8) race_schedule).

Lemma race_reachable : reachable race_state.
Proof.
  exists MemDB.empty, [], 8%nat. split; [exact empty_inv|].
  apply (exec_all_steps _ race_schedule); by vm_compute.
Qed.

(** A data race: after [Unregister] the call reads its buffer without the
    waiter's lock, while a broadcast that copied the list before still delivers
    to it.  In this state the next step of the call reads the buffer and the next
    step of the writer appends to it. *)
Theorem watch_reads_buffer_unlocked :
  exists σ, reachable σ /\
    sy_calls σ !! 1%nat = Some (mkCall (mkArgs "" 1 1000 0 false) (WEvents (S := MemDB.t))) /\
    targets (sy_writer σ) = [1%nat] /\
    exists σ', exec σ ABroadcast = Some σ' /\
      w_events <$> sy_heap σ !! 1%nat = Some [] /\
      w_events <$> sy_heap σ' !! 1%nat = Some [ev 2 "a" "2" 2].
Proof.
  exists race_state. split; [exact race_reachable|].
  split; [by vm_compute|]. split; [by vm_compute|].
  exists (default race_state (exec race_state ABroadcast)). split_and!; by vm_compute.
Qed.

(** * Witnesses *)

(** A call from revision 1 that receives the change of revision 2. *)
Definition live_schedule : list action :=
  put_broadcast "a" "1" 0 ++ wait_from 1 1 ++ put_broadcast "a" "2" 1 ++
  replicate 4 (AWatch 1 calm).

Definition live_state : Sys MemDB.t := default (start 8) (exec_all (start 8) live_schedule).

Lemma live_reachable : reachable live_state.
Proof.
  exists MemDB.empty, [], 8%nat. split; [exact empty_inv|].
  apply (exec_all_steps _ live_schedule); by vm_compute.
Qed.

Definition live_args : WatchArgs := mkArgs "" 1 1000 0 false.
Definition live_result : WatchResult := mkWatchResult OK "" 2 [ev 2 "a" "2" 2].

Lemma live_call :
  sy_calls live_state !! 1%nat = Some (mkCall live_args (WReturn true live_result)).
Proof. by vm_compute. Qed.

Lemma watch_events_complete_witness :
  wr_current_revision live_result = 2 /\
  forall e, e ∈ sy_log live_state -> 1 < ev_revision e <= 2 -> e ∈ wr_events live_result.
Proof.
  destruct (watch_events_complete live_state 1 live_args true live_result live_reachable live_call)
    as (_ & _ & E & _ & _ & _ & Hall); [done|].
  split; [exact E|]. intros e He Hb. by apply Hall; [|exact He|left|].
Defined.

Lemma watch_results_classified_witness :
  wr_current_revision live_result <= CurrentRevisionLocked (sy_store live_state).
Proof.
  exact (proj1 (proj2 (watch_results_classified live_state 1 live_args true live_result
    live_reachable live_call))).
Defined.

Lemma watch_no_leak_witness :
  ~ (1%nat ∈ waiters_ (sy_hub live_state)) /\ sy_heap live_state !! 1%nat = None.
Proof.
  destruct (watch_no_leak live_state live_reachable) as (_ & _ & Hw).
  exact (Hw 1%nat live_args true live_result live_call).
Defined.

Lemma watch_ends_witness :
  exists σ' c', exec race_state (AWatch 1 calm) = Some σ' /\ sy_calls σ' !! 1%nat = Some c' /\
    (rank (c_pc c') < 4)%nat.
Proof.
  assert (sy_calls race_state !! 1%nat = Some (mkCall live_args WEvents)) as Hc by by vm_compute.
  destruct (watch_ends race_state 1 _ calm race_reachable Hc) as (_ & Hs & _); [done|done|exact Hs].
Defined.

(** A write is in the store and one waiter is registered. *)
Definition applied_state : Sys MemDB.t :=
  default (start 8) (exec_all (start 8) (wait_from 1 0 ++ [AWrite (CmdPut "a" "1")])).

Lemma applied_reachable : reachable applied_state.
Proof.
  exists MemDB.empty, [], 8%nat. split; [exact empty_inv|].
  apply (exec_all_steps _ (wait_from 1 0 ++ [AWrite (CmdPut "a" "1")])); by vm_compute.
Qed.

Lemma broadcast_uninterrupted_witness :
  w_events <$> Broadcast (sy_heap applied_state) (sy_hub applied_state) [ev 1 "a" "1" 1] !! 1%nat =
    Some [ev 1 "a" "1" 1].
Proof.
  assert (sy_writer applied_state = WrApplied [ev 1 "a" "1" 1]) as Hw by by vm_compute.
  destruct (broadcast_uninterrupted applied_state _ applied_reachable Hw) as [_ Hb]; [done|].
  rewrite (Hb 1%nat). by vm_compute.
Defined.

Lemma watch_deadline_witness :
  watch_step 1 (mkArgs "" 0 90000 5000000 false) (mkEnv 0 FromEpochUs false false false)
    MemDB.empty ∅ (WatchHub_new 8) WDeadline =
  Done (WWait (mkTimespec 5 0), ∅, WatchHub_new 8).
Proof.
  destruct (watch_deadline 1 (mkArgs "" 0 90000 5000000 false) (mkEnv 0 FromEpochUs false false false)
    MemDB.empty ∅ (WatchHub_new 8) 60000000) as [_ E]; [done|done|exact E].
Defined.

(** The same call asleep when the change is broadcast, with a compaction pass beside
    its steps. *)
Definition waiting_schedule : list action :=
  put_broadcast "a" "1" 0 ++ wait_from 1 1 ++ [AWatch 1 calm] ++ put_broadcast "a" "2" 1.

Definition waiting_state : Sys MemDB.t := default (start 8) (exec_all (start 8) waiting_schedule).

Definition waking_steps : list action :=
  ACompact 1 :: replicate 3 (AWatch 1 calm) ++ ACompactEnd :: replicate 3 (AWatch 1 calm).

Lemma watch_wakes_witness :
  exists σ' ok out, exec_all waiting_state waking_steps = Some σ' /\
    sy_calls σ' !! 1%nat = Some (mkCall live_args (WReturn ok out)) /\
    (ev 2 "a" "2" 2 ∈ wr_events out \/ wr_events out = [] /\ too_many σ' live_args 1).
Proof.
  assert (reachable waiting_state) as Hr.
  { exists MemDB.empty, [], 8%nat. split; [exact empty_inv|].
    apply (exec_all_steps _ waiting_schedule); by vm_compute. }
  assert (allowed_all waiting_state waking_steps) as Ha by by vm_compute.
  assert (sy_calls waiting_state !! 1%nat = Some (mkCall live_args (WBlocked (mkTimespec 0 1000000))))
    as Hc by by vm_compute.
  assert (ev 2 "a" "2" 2 ∈ matching "" (drop 1 (sy_log waiting_state))) as He.
  { assert (drop 1 (sy_log waiting_state) = [ev 2 "a" "2" 2]) as -> by by vm_compute.
    apply elem_of_matching. split; [by left|by apply list_elem_of_singleton]. }
  assert (sy_reg waiting_state !! 1%nat = Some 1%nat) as Hg by by vm_compute.
  assert (sy_writer waiting_state = WrIdle) as Hw by by vm_compute.
  assert (is_Some (exec_all waiting_state waking_steps)) as [σ' E] by by vm_compute; eexists.
  destruct (watch_wakes waiting_state waking_steps σ' 1 live_args 1 (ev 2 "a" "2" 2)
    (mkTimespec 0 1000000) Hr Hw (or_intror Hc) Hg He E Ha) as (ok & out & H1 & H2); [simpl; lia|].
  exists σ', ok, out. split; [exact E|split; [exact H1|exact H2]].
Defined.

(** A client with three calls: the second times out, the third resumes from the anchor
    of the first. *)
Definition resume_schedule : list action :=
  live_schedule ++ wait_from 2 2 ++ time_out 2 ++ replicate 4 (AWatch 2 calm) ++
  wait_from 3 2 ++ put_broadcast "a" "3" 1 ++ replicate 4 (AWatch 3 calm).

Definition resume_state : Sys MemDB.t := default (start 8) (exec_all (start 8) resume_schedule).

Lemma subscription_complete_witness :
  subscription (answered resume_state) "" 1 [ev 2 "a" "2" 2; ev 3 "a" "3" 3] 3 /\
  forall e, e ∈ sy_log resume_state -> 1 < ev_revision e <= 3 ->
    e ∈ [ev 2 "a" "2" 2; ev 3 "a" "3" 3].
Proof.
  assert (reachable resume_state) as Hr.
  { exists MemDB.empty, [], 8%nat. split; [exact empty_inv|].
    apply (exec_all_steps _ resume_schedule); by vm_compute. }
  assert (sy_calls resume_state !! 1%nat = Some (mkCall live_args (WReturn true live_result)))
    as C1 by (vm_compute; reflexivity).
  assert (sy_calls resume_state !! 2%nat = Some (mkCall (mkArgs "" 2 1000 0 false)
    (WReturn true (mkWatchResult OK "" 2 [])))) as C2 by (vm_compute; reflexivity).
  assert (sy_calls resume_state !! 3%nat = Some (mkCall (mkArgs "" 2 1000 0 false)
    (WReturn true (mkWatchResult OK "" 3 [ev 3 "a" "3" 3])))) as C3 by (vm_compute; reflexivity).
  assert (subscription (answered resume_state) "" 1 [ev 2 "a" "2" 2; ev 3 "a" "3" 3] 3) as Hs.
  { apply (SubEvents _ "" 1 live_args live_result [ev 3 "a" "3" 3] 3 (ex_intro _ 1%nat (ex_intro _ true C1)));
      [reflexivity|reflexivity|discriminate|].
    eapply SubNothing; [exact (ex_intro _ 2%nat (ex_intro _ true C2))|reflexivity|reflexivity|reflexivity|].
    apply (SubEvents _ "" 2 _ (mkWatchResult OK "" 3 [ev 3 "a" "3" 3]) [] 3 (ex_intro _ 3%nat (ex_intro _ true C3))); [reflexivity|reflexivity|discriminate|].
    constructor. }
  split; [exact Hs|].
  destruct (subscription_complete resume_state "" 1 _ 3 Hr Hs) as [_ Hall]; [lia|].
  intros e He Hb. apply Hall; [exact He|left; reflexivity|exact Hb].
Defined.
