(* ===== verification/Node.v ===== *)
(** The interface [ConfigNode] of src/src/raft/node.h that the services are
    written against, and its single-node implementation [LocalNode]
    (src/src/raft/local_node.{h,cpp}). *)
From S2P Require Import Prelude CxxStd StoreKey Proto LevelDB Store StoreSpec StoreRepr.
From S2P Require Import StoreRefine StoreScan StoreCompact StoreOps WatchHub WatchCall.

(** * The interface *)

(** A call on a node of type [N]: it may throw, it may not have returned within
    the fuel of its loops ([None]), and it leaves a node. *)
Definition call (N A : Type) : Type := N -> outcome (option (A * N)).

#[export] Instance call_ret {N} : MRet (call N) := fun A x n => Done (Some (x, n)).
#[export] Instance call_bind {N} : MBind (call N) := fun A B k m n =>
  match m n with
  | Done (Some (x, n')) => k x n'
  | Done None => Done None
  | Throws e => Throws e
  end.

(** A call that always returns, and one that leaves the node alone. *)
Definition returning {N A} (f : N -> outcome (A * N)) : call N A := fun n =>
  x ← f n; Done (Some x).
Definition reading {N A} (f : N -> outcome A) : call N A := fun n =>
  x ← f n; Done (Some (x, n)).

(** A node is asked with default-constructed results, as the services do.  What
    the hub's [Watch] will have answered is an argument of [node_Watch]: a call
    blocks, and WatchCall.v models what it does meanwhile. *)
Class ConfigNode (N : Type) := {
  node_Apply : RaftCmd -> call N ApplyResult;
  node_Get : string -> bool -> call N GetResult;
  node_GetConfig : string -> Z -> call N ConfigResult;
  node_Watch : WatchArgs -> (WatchArgs -> WatchResult) -> call N WatchResult;
  node_Compaction : Z -> call N Z;
  node_AddPeer : string -> call N ConfChangeResult;
  node_RemovePeer : string -> call N ConfChangeResult;
  node_IsLeader : N -> bool;
  node_LeaderId : N -> string;
  node_Role : N -> string;
  node_Term : N -> Z;
  node_CommitIndex : N -> Z;
  node_AppliedIndex : N -> Z;
  node_Peers : N -> list string;
  node_CurrentRevision : call N Z
}.

(** * Reads shared by the two nodes *)

Section reads.
Context `{KVCodec} {DB : Type} `{LevelDB DB}.

(** The end of [Get] in both nodes. *)
Definition get_from_store (store : Store DB) (key : string) (out : GetResult)
    : outcome GetResult :=
  '(kv, code) ← Get store key;
  Done match kv with
       | None => mkGetResult code "key not found" (gr_kv out) (gr_kvs out) (gr_leader_id out)
       | Some kv => mkGetResult OK (gr_message out) kv (gr_kvs out) (gr_leader_id out)
       end.

(** [GetConfig] is the same text in both nodes.  The record and the history are read
    in two calls of the store, each under its lock: [meanwhile] is what other threads
    do to the node of type [N] between the two. *)
Definition get_config_from_store {N : Type} (store_ : N -> Store DB) (meanwhile : N -> outcome N)
    (n : N) (key : string) (version : Z) (out : ConfigResult) : outcome (ConfigResult * N) :=
  '(kv, code) ← GetConfig (store_ n) key version;
  match kv with
  | None =>
      Done (mkConfigResult code
              (if decide (code = VERSION_NOT_FOUND) then "version not found" else "key not found")
              (cr_kv out) (cr_history out), n)
  | Some kv =>
      n ← meanwhile n;
      history ← GetHistory (store_ n) key;
      Done (mkConfigResult OK (cr_message out) kv history, n)
  end.
End reads.

(** * The local node *)

(** [ln_waiters] is the heap of the waiters the hub's pointers lead to. *)
Record LocalNode (DB : Type) := mkLocalNode {
  ln_store : Store DB;
  ln_hub : option WatchHub;
  ln_waiters : Heap
}.
Arguments mkLocalNode {DB}.
Arguments ln_store {DB}.
Arguments ln_hub {DB}.
Arguments ln_waiters {DB}.

(** [if (hub_ && !events.empty()) hub_->Broadcast(events)], in both nodes. *)
Definition broadcast_events (heap : Heap) (hub : option WatchHub) (events : list WatchEvent) : Heap :=
  match hub with
  | Some hub => match events with [] => heap | _ => Broadcast heap hub events end
  | None => heap
  end.

(** What the other clients of the node and the compaction thread have done to it
    when a call that had left the lock of the store takes it again. *)
Inductive other_call :=
| OtherApply (cmd : RaftCmd)
| OtherCompaction (keep_versions : Z).

Class OtherThreads (DB : Type) := other_calls : LocalNode DB -> list other_call.

(** Nobody else uses the node. *)
Definition alone (DB : Type) : OtherThreads DB := fun _ => [].

Section local.
Context `{KVCodec} {DB : Type} `{LevelDB DB}.
Implicit Types n : LocalNode DB.

(** The whole call runs under [mu_]. *)
Definition LocalNode_Apply n (cmd : RaftCmd) : outcome (ApplyResult * LocalNode DB) :=
  '(out, store) ← ApplyCmdToStore (ln_store n) cmd ApplyResult_default;
  Done (out, mkLocalNode store (ln_hub n)
               (broadcast_events (ln_waiters n) (ln_hub n) (ar_events out))).

Definition LocalNode_Watch n (a : WatchArgs) (hub_watch : WatchArgs -> WatchResult)
    : WatchResult :=
  match ln_hub n with
  | Some _ => hub_watch a
  | None => mkWatchResult INTERNAL "watch hub unavailable" 0 []
  end.

Definition LocalNode_Get n (key : string) (serializable : bool)
    : outcome (GetResult * LocalNode DB) :=
  out ← get_from_store (ln_store n) key GetResult_default;
  Done (out, n).

Definition LocalNode_CurrentRevision n : outcome Z := CurrentRevision (ln_store n).

Definition LocalNode_Compaction n (keep_versions : Z) : outcome (Z * LocalNode DB) :=
  '(removed, store) ← Compaction (ln_store n) keep_versions;
  Done (removed, mkLocalNode store (ln_hub n) (ln_waiters n)).

Definition LocalNode_ConfChange n (peer : string)
    : outcome (ConfChangeResult * LocalNode DB) :=
  Done (mkConfChangeResult INTERNAL "single-node mode does not support membership change", n).

Definition serve_other n (c : other_call) : outcome (LocalNode DB) :=
  match c with
  | OtherApply cmd => '(_, n) ← LocalNode_Apply n cmd; Done n
  | OtherCompaction keep => '(_, n) ← LocalNode_Compaction n keep; Done n
  end.

Fixpoint serve_others n (cs : list other_call) : outcome (LocalNode DB) :=
  match cs with
  | [] => Done n
  | c :: cs' => n ← serve_other n c; serve_others n cs'
  end.

Context `{Ot : OtherThreads DB}.

Definition LocalNode_GetConfig n (key : string) (version : Z)
    : outcome (ConfigResult * LocalNode DB) :=
  get_config_from_store ln_store (fun n => serve_others n (other_calls n)) n key version
    ConfigResult_default.

#[export] Instance LocalNode_node : ConfigNode (LocalNode DB) := {|
  node_Apply cmd := returning (fun n => LocalNode_Apply n cmd);
  node_Get key serializable := returning (fun n => LocalNode_Get n key serializable);
  node_GetConfig key version := returning (fun n => LocalNode_GetConfig n key version);
  node_Watch a hub_watch := reading (fun n => Done (LocalNode_Watch n a hub_watch));
  node_Compaction keep := returning (fun n => LocalNode_Compaction n keep);
  node_AddPeer peer := returning (fun n => LocalNode_ConfChange n peer);
  node_RemovePeer peer := returning (fun n => LocalNode_ConfChange n peer);
  node_IsLeader _ := true;
  node_LeaderId _ := "";
  node_Role _ := "leader";
  node_Term _ := 0;
  node_CommitIndex _ := 0;
  node_AppliedIndex _ := 0;
  node_Peers _ := [];
  node_CurrentRevision := reading LocalNode_CurrentRevision
|}.
End local.

(** * What the interface promises *)

(** The codes with which a node turns a request down. *)
Definition refusal (c : Code) : Prop := c = NOT_LEADER \/ c = INTERNAL.

(** The answer to a read of a configuration. *)
Definition config_result (found : option KV) (version : Z) (history : list KV) : ConfigResult :=
  match found with
  | Some kv => mkConfigResult OK "" kv history
  | None =>
      if version <=? 0 then mkConfigResult KEY_NOT_FOUND "key not found" KV_default []
      else mkConfigResult VERSION_NOT_FOUND "version not found" KV_default []
  end.

(** A node over a store: [nd_rep n a] says that node [n] serves state [a], and
    [nd_others a b] that other clients and compaction may have led from [a] to [b]
    while a call ran (in a cluster also a write that was refused because its task had
    failed, and that is committed later all the same).  A write is the specified command at some point between the
    call and the answer, or a refusal; a read answers from the state it ends in, or
    is refused.  A read of a configuration takes the record from one state and the
    history from a later one.  [nd_within n] says that what the node has served is
    within its limits. *)
Class ConfigNodeSpec (N : Type) `{ConfigNode N} `{KVCodec} := {
  nd_rep : N -> Mvcc -> Prop;
  nd_others : Mvcc -> Mvcc -> Prop;
  nd_within : N -> Prop;
  nd_others_preorder :: PreOrder nd_others;
  nd_others_steps a b : nd_others a b -> rtc store_step a b;
  nd_wf n a : nd_rep n a -> wf a;
  nd_Apply n a cmd r n' :
    nd_rep n a -> cmd_valid cmd -> cmd_fits a cmd -> node_Apply cmd n = Done (Some (r, n')) ->
    nd_within n' ->
    (exists a1 a2, nd_others a a1 /\ cmd_fits a1 cmd /\ r = snd (spec_apply a1 cmd) /\
       nd_others (fst (spec_apply a1 cmd)) a2 /\ nd_rep n' a2) \/
    (refusal (ar_code r) /\ exists a2, nd_others a a2 /\ nd_rep n' a2);
  nd_Get n a key s r n' :
    nd_rep n a -> node_Get key s n = Done (Some (r, n')) -> nd_within n' ->
    exists a', nd_others a a' /\ nd_rep n' a' /\
    (refusal (gr_code r) \/
     r = match spec_get a' key with
         | Some kv => mkGetResult OK "" kv [] ""
         | None => mkGetResult KEY_NOT_FOUND "key not found" KV_default [] ""
         end);
  nd_GetConfig n a key version r n' :
    nd_rep n a -> in_int64 version -> node_GetConfig key version n = Done (Some (r, n')) ->
    nd_within n' ->
    exists a1 a2, nd_others a a1 /\ nd_others a1 a2 /\ nd_rep n' a2 /\
    r = config_result (spec_get_config a1 key version) version (spec_history a2 key)
}.

(** The local node keeps the promise whatever its hub is doing. *)
Section local_spec.
Context `{KVCodecSpec} {DB : Type} `{LevelDBSpec DB}.

Definition local_rep (n : LocalNode DB) (a : Mvcc) : Prop :=
  exists d dir, ln_store n = mkStore (Some d) dir /\ Rep d a.

Lemma local_Apply n a cmd r n' :
  local_rep n a -> cmd_valid cmd -> cmd_fits a cmd ->
  LocalNode_Apply n cmd = Done (r, n') ->
  (r = snd (spec_apply a cmd) /\ local_rep n' (fst (spec_apply a cmd))) \/
  (ar_code r = INTERNAL /\ local_rep n' a).
Proof.
  intros (d & dir & Hs & Hd) Hv Hf E. unfold LocalNode_Apply in E. rewrite Hs in E.
  destruct (ApplyCmdToStore_refines d dir a cmd Hd Hv Hf) as (r0 & d' & E' & Hr).
  rewrite E' in E. simplify_eq/=.
  destruct Hr as [[-> Hd']|(Hc & _ & _ & Hd')]; [left|right]; (split; [done|by exists d', dir]).
Qed.

Lemma local_Compaction n a keep r n' :
  local_rep n a -> LocalNode_Compaction n keep = Done (r, n') ->
  exists b, rtc store_step a b /\ m_rev b = m_rev a /\ local_rep n' b.
Proof.
  intros (d & dir & Hs & Hd) E. unfold LocalNode_Compaction, Compaction in E. rewrite Hs in E.
  simpl in E. destruct (CompactionLocked_refines d a keep Hd) as (k & d' & E' & _ & Hr).
  rewrite E' in E. simplify_eq/=. destruct Hr as [Hr|[_ Hr]].
  - eexists. split; [|split; [|by exists d', dir]]; [|done].
    apply rtc_once. apply (step_compact a keep). by eapply rep_wf.
  - exists a. split_and!; [done..|by exists d', dir].
Qed.

(** A read of a configuration, where the others lead from a state to one that
    [leads] relates to it. *)
Lemma get_config_refines {N} (store_ : N -> Store DB) meanwhile n a key version r n'
    (rep : N -> Mvcc -> Prop) (leads : Mvcc -> Mvcc -> Prop) :
  (forall n a, rep n a -> exists d dir, store_ n = mkStore (Some d) dir /\ Rep d a) ->
  (forall a, leads a a) ->
  (forall n1, meanwhile n = Done n1 -> n1 = n' -> exists b, leads a b /\ rep n1 b) ->
  rep n a -> in_int64 version ->
  get_config_from_store store_ meanwhile n key version ConfigResult_default = Done (r, n') ->
  exists a2, leads a a2 /\ rep n' a2 /\
    r = config_result (spec_get_config a key version) version (spec_history a2 key).
Proof.
  intros Hrep Hrefl Hmean Hn Hv E. pose proof (Hrep _ _ Hn) as (d & dir & Hs & Hd).
  unfold get_config_from_store in E. rewrite Hs, (GetConfig_rep _ _ _ _ _ Hd Hv) in E.
  destruct (spec_get_config a key version) as [kv|]; simpl in E.
  - destruct (meanwhile n) as [n1|] eqn:Em; [|done]. simpl in E.
    destruct (GetHistory (store_ n1) key) as [hist|] eqn:Eh; [|done]. simpl in E. simplify_eq.
    destruct (Hmean n' eq_refl eq_refl) as (b & Hb & Hn'). exists b. split_and!; [done..|].
    destruct (Hrep _ _ Hn') as (d' & dir' & Hs' & Hd').
    rewrite Hs', (GetHistory_rep _ _ _ _ Hd') in Eh. by simplify_eq.
  - simplify_eq. exists a. split_and!; [apply Hrefl|done|]. unfold config_result.
    destruct (version <=? 0); [by rewrite decide_False|by rewrite decide_True].
Qed.

Lemma local_spec_of (leads : Mvcc -> Mvcc -> Prop) `{!PreOrder leads} `{Ot : OtherThreads DB} :
  (forall a b, leads a b -> rtc store_step a b) ->
  (forall n a n', local_rep n a -> serve_others n (other_calls n) = Done n' ->
     exists b, leads a b /\ local_rep n' b) ->
  ConfigNodeSpec (LocalNode DB).
Proof.
  intros Hsteps Hothers. refine {| nd_rep := local_rep; nd_others := leads; nd_within _ := True |}.
  - exact Hsteps.
  - intros n a (d & dir & _ & Hd). by eapply rep_wf.
  - intros n a cmd r n' Hn Hv Hf E _. simpl in E. unfold returning in E.
    destruct (LocalNode_Apply n cmd) as [[r0 n0]|] eqn:Ea; [|done]. simplify_eq/=.
    destruct (local_Apply _ _ _ _ _ Hn Hv Hf Ea) as [[-> ?]|[??]]; [left|right].
    + by exists a, (fst (spec_apply a cmd)).
    + split; [by right|by exists a].
  - intros n a key s r n' Hn E _. simpl in E. unfold returning, LocalNode_Get, get_from_store in E.
    pose proof Hn as (d & dir & Hs & Hd). rewrite Hs, (Get_rep _ _ _ _ Hd) in E. exists a.
    destruct (spec_get a key); simplify_eq/=; (split_and!; [done|done|by right]).
  - intros n a key version r n' Hn Hv E _. simpl in E. unfold returning in E.
    destruct (LocalNode_GetConfig n key version) as [[r0 n0]|] eqn:Eg; [|done]. simplify_eq/=.
    destruct (get_config_refines ln_store (fun n => serve_others n (other_calls n)) n a key version
      r n' local_rep leads) as (a2 & ? & ? & ->); [done|done| |done|done|exact Eg|by exists a, a2].
    intros n1 E1 _. by eapply Hothers.
Defined.

(** A client that has the node to itself. *)
Definition alone_spec : ConfigNodeSpec (H := LocalNode_node (Ot := alone DB)) (LocalNode DB).
Proof.
  refine (local_spec_of (Ot := alone DB) eq _ _).
  - intros a b ->. constructor.
  - intros n a n' Hn E. cbn in E. simplify_eq. by exists a.
Defined.

Definition calls_size (cs : list other_call) : Z :=
  foldr (fun c k => match c with OtherApply cmd => cmd_size cmd | _ => 0 end + k) 0 cs.
End local_spec.

(** The commands of the others are valid and there are revisions left for them. *)
Class OtherThreadsSpec (DB : Type) `{KVCodec} `{LevelDBSpec DB} `{Ot : OtherThreads DB} : Prop := {
  oc_valid n cmd : OtherApply cmd ∈ other_calls n -> cmd_valid cmd;
  oc_room n a : local_rep n a -> m_rev a + calls_size (other_calls n) <= int64_max
}.

Section among_others.
Context `{KVCodecSpec} {DB : Type} `{LevelDBSpec DB} `{Ot : OtherThreads DB}.

Lemma serve_others_steps n a cs n' :
  local_rep n a -> (forall cmd, OtherApply cmd ∈ cs -> cmd_valid cmd) ->
  m_rev a + calls_size cs <= int64_max -> serve_others n cs = Done n' ->
  exists b, rtc store_step a b /\ local_rep n' b.
Proof.
  revert n a. induction cs as [|c cs IH]; intros n a Hn Hv Hs E; simpl in E.
  { simplify_eq. by exists a. }
  assert (0 <= calls_size cs) as Hpos.
  { clear. induction cs as [|[[]|] cs IH]; simpl; lia. }
  destruct (serve_other n c) as [n1|] eqn:E1; [|done]. simpl in E, Hs.
  assert (exists b, rtc store_step a b /\ m_rev b + calls_size cs <= int64_max /\ local_rep n1 b)
    as (b & Hb & Hsb & Hn1).
  { destruct c as [cmd|keep]; simpl in E1, Hs.
    - destruct (LocalNode_Apply n cmd) as [[r n2]|] eqn:Ea; [|done]. simplify_eq/=.
      assert (cmd_valid cmd) as Hvc by (apply Hv; by left).
      assert (cmd_fits a cmd) as Hf by (unfold cmd_fits; lia).
      destruct (local_Apply _ _ _ _ _ Hn Hvc Hf Ea) as [[_ Hr]|[_ Hr]].
      + eexists. split; [by apply rtc_once, StepApply|]. split; [|done].
        pose proof (spec_apply_rev a cmd). lia.
      + exists a. split; [done|]. split; [|done]. destruct cmd; simpl in *; lia.
    - destruct (LocalNode_Compaction n keep) as [[r n2]|] eqn:Ec; [|done]. simplify_eq/=.
      destruct (local_Compaction _ _ _ _ _ Hn Ec) as (b & Hb & Hr & Hn1). exists b.
      split_and!; [done|lia|done]. }
  destruct (IH n1 b Hn1) as (b' & ? & ?); [intros cmd Hin; apply Hv; by right|done|done|].
  exists b'. split; [by etrans|done].
Qed.

#[export] Instance LocalNode_spec `{!OtherThreadsSpec DB} : ConfigNodeSpec (LocalNode DB) | 10.
Proof.
  refine (local_spec_of (rtc store_step) _ _); [done|].
  intros n a n' Hn E. eapply serve_others_steps; [exact Hn|apply oc_valid|by apply oc_room|exact E].
Defined.
End among_others.
