(* ===== verification/StateMachine.v ===== *)
(** Model of src/src/raft/state_machine.{h,cpp}: the closures that carry results
    back to the waiting clients, and the callbacks of the replicated state
    machine.  The raft library and the protobuf parser of commands are not part
    of the repository: log entries, snapshot readers and writers come in as
    arguments, and [ParseCmd] is an operation of a class. *)
From S2P Require Import Prelude CxxStd StoreKey Proto LevelDB Store StoreOps WatchHub Node.

(** [RaftCmd::SerializeToZeroCopyStream] and [ParseFromZeroCopyStream]. *)
Class CmdCodec := {
  SerializeCmd : RaftCmd -> string;
  ParseCmd : string -> option RaftCmd
}.

Class CmdCodecSpec `{KVCodec} `{CmdCodec} : Prop :=
  ParseCmd_SerializeCmd : forall cmd, cmd_valid cmd -> ParseCmd (SerializeCmd cmd) = Some cmd.

(** * Closures *)

(** [butil::Status]: [None] is ok, otherwise the error string. *)
Abbreviation Status := (option string).

Definition status_ok (s : Status) : bool := match s with None => true | Some _ => false end.

(** [ApplyClosure] with the result it points to and its [WaitState]: [done], and
    whether [cv] has been notified since the waiting call last went to sleep on it
    (it is the only one that does). *)
Record ApplyClosure := mkApplyClosure {
  cl_out : ApplyResult;
  cl_status : Status;
  cl_done : bool;
  cl_notified : bool
}.

Definition ApplyClosure_new : ApplyClosure := mkApplyClosure ApplyResult_default None false false.

(** The closures given to braft: [ApplyClosure]s, and the [ConfChangeClosure]s of
    raft_node.cpp with the [ConfChangeOutcome] they share with the caller ([done]
    and, once it ran, the status).  [dynamic_cast] tells them apart. *)
Inductive Closure :=
| IsApply (c : ApplyClosure)
| IsConfChange (status : Status) (done : bool).

Abbreviation Closures := (gmap nat Closure).

Definition closure_status (c : Closure) : Status :=
  match c with IsApply c => cl_status c | IsConfChange s _ => s end.

(** [done->status().set_error(...)]. *)
Definition set_status (c : Closure) (s : Status) : Closure :=
  match c with
  | IsApply c => IsApply (mkApplyClosure (cl_out c) s (cl_done c) (cl_notified c))
  | IsConfChange _ ran => IsConfChange s ran
  end.

Definition Finish (c : ApplyClosure) (result : ApplyResult) : ApplyClosure :=
  mkApplyClosure result (cl_status c) (cl_done c) (cl_notified c).

(** [cv.notify_one]. *)
Definition notify_one (c : ApplyClosure) : ApplyClosure :=
  mkApplyClosure (cl_out c) (cl_status c) (cl_done c) true.

(** The waiting call goes to sleep on [cv]: what wakes it is a later notification. *)
Definition sleep_on (c : ApplyClosure) : ApplyClosure :=
  mkApplyClosure (cl_out c) (cl_status c) (cl_done c) false.

Definition ApplyClosure_Run (c : ApplyClosure) : ApplyClosure :=
  let out :=
    match cl_status c with
    | Some err =>
        if decide (ar_code (cl_out c) = OK) then set_error (cl_out c) INTERNAL err
        else cl_out c
    | None => cl_out c
    end in
  notify_one (mkApplyClosure out (cl_status c) true (cl_notified c)).

Definition Run (c : Closure) : Closure :=
  match c with IsApply c => IsApply (ApplyClosure_Run c) | IsConfChange s _ => IsConfChange s true end.

(** * The state machine *)

(** One committed log entry: its data and, on the node that proposed it, the
    [done] pointer. *)
Record LogEntry := mkEntry { le_data : string; le_done : option nat }.

(** [fs_runs]: closures whose [AsyncClosureGuard] has been left and whose [Run]
    has not happened yet. *)
Record Fsm (DB : Type) := mkFsm {
  fs_store : Store DB;
  fs_hub : option WatchHub;
  fs_waiters : Heap;
  fs_closures : Closures;
  fs_runs : list nat;
  leader_term_ : Z
}.
Arguments mkFsm {DB}.
Arguments fs_store {DB}.
Arguments fs_hub {DB}.
Arguments fs_waiters {DB}.
Arguments fs_closures {DB}.
Arguments fs_runs {DB}.
Arguments leader_term_ {DB}.

Definition update_closure (f : Closure -> Closure) (done : option nat) (cs : Closures) : Closures :=
  match done with Some id => alter f id cs | None => cs end.

Section fsm.
Context `{KVCodec} `{CmdCodec} {DB : Type} `{LevelDB DB}.
Implicit Types m : Fsm DB.

(** The assignments to [iter.done()] after a command was applied. *)
Definition report_result (result : ApplyResult) (c : Closure) : Closure :=
  let c := match c with IsApply c => IsApply (Finish c result) | _ => c end in
  if negb (bool_decide (ar_code result = OK)) && status_ok (closure_status c)
  then set_status c (Some (if String.eqb (ar_message result) "" then "store apply failed"
                           else ar_message result))
  else c.

(** One iteration of the loop of [on_apply]. *)
Definition apply_entry m (e : LogEntry) : outcome (Fsm DB) :=
  let runs := match le_done e with Some id => fs_runs m ++ [id] | None => fs_runs m end in
  match ParseCmd (le_data e) with
  | None =>
      Done (mkFsm (fs_store m) (fs_hub m) (fs_waiters m)
              (update_closure (fun c => set_status c (Some "bad raft cmd")) (le_done e)
                 (fs_closures m)) runs (leader_term_ m))
  | Some cmd =>
      '(result, store) ← ApplyCmdToStore (fs_store m) cmd ApplyResult_default;
      Done (mkFsm store (fs_hub m)
              (broadcast_events (fs_waiters m) (fs_hub m) (ar_events result))
              (update_closure (report_result result) (le_done e) (fs_closures m))
              runs (leader_term_ m))
  end.

Fixpoint on_apply m (entries : list LogEntry) : outcome (Fsm DB) :=
  match entries with
  | [] => Done m
  | e :: entries' => m' ← apply_entry m e; on_apply m' entries'
  end.

(** The asynchronous [Run]s. *)
Definition run_closures m : Fsm DB :=
  mkFsm (fs_store m) (fs_hub m) (fs_waiters m)
    (foldl (fun cs id => alter Run id cs) (fs_closures m) (fs_runs m)) [] (leader_term_ m).

Definition on_leader_start m (term : Z) : Fsm DB :=
  mkFsm (fs_store m) (fs_hub m) (fs_waiters m) (fs_closures m) (fs_runs m) term.

Definition on_leader_stop m : Fsm DB :=
  mkFsm (fs_store m) (fs_hub m) (fs_waiters m) (fs_closures m) (fs_runs m) (-1).

Definition is_leader m : bool := 0 <? leader_term_ m.

(** * Snapshots *)

(** [save] and [add_file] are what the calls on the file and the writer answer;
    the result is the status [done] is run with, and the data written. *)
Definition save_snapshot m (save : SnapshotData -> Z) (add_file : Z)
    : outcome (Status * option SnapshotData) :=
  data ← ExportSnapshot (fs_store m);
  Done (if negb (save data =? 0) then (Some "fail to save snapshot file", None)
        else if negb (add_file =? 0) then (Some "fail to add snapshot file", Some data)
        else (None, Some data)).

(** [file_meta] and [load] are what the reader and the file answer. *)
Definition on_snapshot_load {FS} `{LevelDBFiles DB FS} m (fs : FS) (file_meta : Z)
    (load : option SnapshotData) : outcome (Z * Fsm DB * FS) :=
  if negb (file_meta =? 0) then Done (-1, m, fs)
  else
    match load with
    | None => Done (-1, m, fs)
    | Some data =>
        '(err, store, fs) ← LoadSnapshot (fs_store m) fs data;
        Done (match err with None => 0 | Some _ => -1 end,
              mkFsm store (fs_hub m) (fs_waiters m) (fs_closures m) (fs_runs m)
                (leader_term_ m), fs)
    end.
End fsm.
