(* ===== verification/RaftNode.v ===== *)
(** Model of src/src/raft/raft_node.{h,cpp}: the node of a cluster.  The raft
    library is not part of the repository: its calls are the operations of the
    class [Braft].  Other threads of the library run while a request is served;
    what they call back into the program, and what the compaction thread does, is
    handled between two calls of the request ([turn]), and two getters that are
    called one right after the other ([IsLeader] and [LeaderId]) see one state.  Loops
    that wait take fuel, a number of turns. *)
From S2P Require Import Prelude CxxStd StoreKey Proto LevelDB Store StoreOps WatchHub WatchCall.
From S2P Require Import Node StateMachine.

(** * The raft library *)

Inductive LeaseState := LEASE_DISABLED | LEASE_VALID | LEASE_NOT_READY | LEASE_EXPIRED.

#[export] Instance LeaseState_eq_dec : EqDecision LeaseState.
Proof. solve_decision. Defined.

Inductive RaftState := STATE_LEADER | STATE_TRANSFERRING | STATE_CANDIDATE | STATE_OTHER.

Record NodeStatus := mkNodeStatus {
  ns_state : RaftState;
  ns_term : Z;
  ns_committed_index : Z;
  ns_known_applied_index : Z
}.

(** What other threads do to the node while a request waits: the library calls the
    state machine, or the [Run] of a closure; the compaction thread of the server
    makes a pass. *)
Inductive callback :=
| CbApply (entries : list LogEntry)
| CbLeaderStart (term : Z)
| CbLeaderStop
| CbRun (id : nat) (status : Status)
| CbCompaction (keep_versions : Z).

Class Braft (B : Type) := {
  br_callbacks : B -> list callback * B;
  br_is_leader : B -> bool;
  br_leader_id : B -> option string;              (** [None]: an empty [PeerId] *)
  br_get_leader_lease_status : B -> LeaseState;
  br_get_status : B -> NodeStatus;
  br_list_peers : B -> option (list string);      (** [None]: an error status *)
  br_parse_peer : string -> option string;
  br_apply : B -> string -> option Z -> nat -> B; (** data, expected term, done *)
  br_add_peer : B -> string -> nat -> B;
  br_remove_peer : B -> string -> nat -> B;
  br_gettimeofday_us : B -> Z;
  br_usleep : B -> Z -> B                         (** time passes *)
}.

(** Sleeping moves the clock, nothing moves it back. *)
Class BraftSpec (B : Type) `{Braft B} := {
  br_usleep_us b us : 0 <= us ->
    br_gettimeofday_us b + us <= br_gettimeofday_us (br_usleep b us);
  br_callbacks_us b : br_gettimeofday_us b <= br_gettimeofday_us (snd (br_callbacks b))
}.

(** * The node *)

Definition kLeaseWaitMs : Z := 1000.
Definition kCatchupWaitMs : Z := 1000.
Definition kConfChangeTimeoutSec : Z := 60.

Record RaftNode (DB B : Type) := mkRaftNode {
  rn_fsm : Fsm DB;         (** with the store and the hub *)
  rn_node : option B;      (** [node_] *)
  rn_next : nat            (** the next closure allocated with [new] *)
}.
Arguments mkRaftNode {DB B}.
Arguments rn_fsm {DB B}.
Arguments rn_node {DB B}.
Arguments rn_next {DB B}.

Section raft.
Context `{KVCodec} `{CmdCodec} {DB B : Type} `{LevelDB DB} `{Braft B}.
Implicit Types n : RaftNode DB B.

Definition with_fsm n (m : Fsm DB) : RaftNode DB B := mkRaftNode m (rn_node n) (rn_next n).
Definition with_node n (b : B) : RaftNode DB B := mkRaftNode (rn_fsm n) (Some b) (rn_next n).

Definition set_store (m : Fsm DB) (store : Store DB) : Fsm DB :=
  mkFsm store (fs_hub m) (fs_waiters m) (fs_closures m) (fs_runs m) (leader_term_ m).

Definition set_closures (m : Fsm DB) (cs : Closures) : Fsm DB :=
  mkFsm (fs_store m) (fs_hub m) (fs_waiters m) cs (fs_runs m) (leader_term_ m).

(** A new closure. *)
Definition new_closure n (c : Closure) : nat * RaftNode DB B :=
  (rn_next n,
   mkRaftNode (set_closures (rn_fsm n) (<[rn_next n := c]> (fs_closures (rn_fsm n))))
     (rn_node n) (S (rn_next n))).

Definition handle (m : Fsm DB) (cb : callback) : outcome (Fsm DB) :=
  match cb with
  | CbApply entries => m ← on_apply m entries; Done (run_closures m)
  | CbLeaderStart term => Done (on_leader_start m term)
  | CbLeaderStop => Done (on_leader_stop m)
  | CbRun id status =>
      Done (set_closures m (alter (fun c => Run (set_status c status)) id (fs_closures m)))
  | CbCompaction keep_versions =>
      '(_, store) ← Compaction (fs_store m) keep_versions; Done (set_store m store)
  end.

Fixpoint handle_all (m : Fsm DB) (cbs : list callback) : outcome (Fsm DB) :=
  match cbs with
  | [] => Done m
  | cb :: cbs' => m ← handle m cb; handle_all m cbs'
  end.

Definition turn n : outcome (RaftNode DB B) :=
  match rn_node n with
  | None => Done n
  | Some b =>
      let '(cbs, b') := br_callbacks b in
      m ← handle_all (rn_fsm n) cbs;
      Done (mkRaftNode m (Some b') (rn_next n))
  end.

(** * Meta data *)

Definition RaftNode_IsLeader n : bool :=
  match rn_node n with Some b => br_is_leader b | None => false end.

Definition RaftNode_LeaderId n : string :=
  match rn_node n with Some b => default "" (br_leader_id b) | None => "" end.

Definition RaftNode_Role n : string :=
  match rn_node n with
  | None => "uninitialized"
  | Some b =>
      match ns_state (br_get_status b) with
      | STATE_LEADER => "leader"
      | STATE_CANDIDATE => "candidate"
      | STATE_TRANSFERRING => "transferring"
      | STATE_OTHER => "follower"
      end
  end.

Definition status_field (f : NodeStatus -> Z) n : Z :=
  match rn_node n with Some b => f (br_get_status b) | None => 0 end.

Definition RaftNode_Term := status_field ns_term.
Definition RaftNode_CommitIndex := status_field ns_committed_index.
Definition RaftNode_AppliedIndex := status_field ns_known_applied_index.

Definition RaftNode_Peers n : list string :=
  match rn_node n with Some b => default [] (br_list_peers b) | None => [] end.

Definition RaftNode_CurrentRevision n : outcome Z := CurrentRevision (fs_store (rn_fsm n)).

Definition RaftNode_Compaction n (keep_versions : Z) : outcome (Z * RaftNode DB B) :=
  '(removed, store) ← Compaction (fs_store (rn_fsm n)) keep_versions;
  Done (removed, with_fsm n (set_store (rn_fsm n) store)).

(** * Writing *)

Definition apply_done n (id : nat) : option ApplyResult :=
  match fs_closures (rn_fsm n) !! id with
  | Some (IsApply c) => if cl_done c then Some (cl_out c) else None
  | _ => None
  end.

Definition woken n (id : nat) : bool :=
  match fs_closures (rn_fsm n) !! id with Some (IsApply c) => cl_notified c | _ => false end.

Definition fall_asleep n (id : nat) : RaftNode DB B :=
  with_fsm n (set_closures (rn_fsm n)
    (alter (fun c => match c with IsApply c => IsApply (sleep_on c) | _ => c end) id
       (fs_closures (rn_fsm n)))).

(** A call asleep on its condition variable, without a time limit: it looks at [done]
    only when it has been notified.  (Woken without a notification it would find
    [done] false, for [Run] sets it and notifies, and sleep on.)  [None] when the fuel
    is used up. *)
Fixpoint cv_wait (fuel : nat) n (id : nat) : outcome (option (ApplyResult * RaftNode DB B)) :=
  match fuel with
  | O => Done None
  | S fuel' =>
      n ← turn n;
      if woken n id then
        match apply_done n id with
        | Some out => Done (Some (out, n))
        | None => cv_wait fuel' (fall_asleep n id) id
        end
      else cv_wait fuel' n id
  end.

(** [ApplyClosure::WaitFor]: [cv.wait] with the predicate [done], which is tested
    before the first sleep. *)
Definition WaitFor (fuel : nat) n (id : nat) : outcome (option (ApplyResult * RaftNode DB B)) :=
  match apply_done n id with
  | Some out => Done (Some (out, n))
  | None => cv_wait fuel (fall_asleep n id) id
  end.

Definition not_leader_result n : ApplyResult :=
  mkApplyResult NOT_LEADER "" KV_default [] (RaftNode_LeaderId n) [].

Definition RaftNode_Apply (fuel : nat) n (cmd : RaftCmd)
    : outcome (option (ApplyResult * RaftNode DB B)) :=
  if negb (RaftNode_IsLeader n) then Done (Some (not_leader_result n, n))
  else
    match rn_node n with
    | None => Throws NullDeref
    | Some b =>
        let '(id, n) := new_closure n (IsApply ApplyClosure_new) in
        let term := leader_term_ (rn_fsm n) in
        let expected_term := if 0 <? term then Some term else None in
        WaitFor fuel (with_node n (br_apply b (SerializeCmd cmd) expected_term id)) id
    end.

(** * Reading *)

Fixpoint lease_loop (fuel : nat) n (deadline_us : Z) : outcome (option (bool * RaftNode DB B)) :=
  match fuel with
  | O => Done None
  | S fuel' =>
      n ← turn n;
      match rn_node n with
      | None => Throws NullDeref
      | Some b =>
          match br_get_leader_lease_status b with
          | LEASE_VALID => Done (Some (true, n))
          | LEASE_EXPIRED | LEASE_DISABLED => Done (Some (false, n))
          | LEASE_NOT_READY =>
              if deadline_us <=? br_gettimeofday_us b then Done (Some (false, n))
              else lease_loop fuel' (with_node n (br_usleep b 5000)) deadline_us
          end
      end
  end.

Definition WaitLeaderLease (fuel : nat) n (timeout_ms : Z)
    : outcome (option (bool * RaftNode DB B)) :=
  match rn_node n with
  | None => Done (Some (false, n))
  | Some b => lease_loop fuel n (br_gettimeofday_us b + timeout_ms * 1000)
  end.

Fixpoint catch_up_loop (fuel : nat) n (deadline_us : Z)
    : outcome (option (bool * RaftNode DB B)) :=
  match fuel with
  | O => Done None
  | S fuel' =>
      n ← turn n;
      match rn_node n with
      | None => Throws NullDeref
      | Some b =>
          let status := br_get_status b in
          if ns_committed_index status <=? ns_known_applied_index status then
            Done (Some (true, n))
          else if deadline_us <=? br_gettimeofday_us b then Done (Some (false, n))
          else catch_up_loop fuel' (with_node n (br_usleep b 100)) deadline_us
      end
  end.

Definition WaitAppliedCatchUp (fuel : nat) n (timeout_ms : Z)
    : outcome (option (bool * RaftNode DB B)) :=
  match rn_node n with
  | None => Done (Some (false, n))
  | Some b => catch_up_loop fuel n (br_gettimeofday_us b + timeout_ms * 1000)
  end.

Definition get_error (code : Code) (message leader_id : string) : GetResult :=
  mkGetResult code message KV_default [] leader_id.

(** The local read at the end of [Get]. *)
Definition local_get n (key : string) : outcome (option (GetResult * RaftNode DB B)) :=
  out ← get_from_store (fs_store (rn_fsm n)) key GetResult_default;
  Done (Some (out, n)).

Definition RaftNode_Get (fuel : nat) n (key : string) (serializable : bool)
    : outcome (option (GetResult * RaftNode DB B)) :=
  if serializable then local_get n key
  else
    leased ← WaitLeaderLease fuel n kLeaseWaitMs;
    match leased with
    | None => Done None
    | Some (false, n) =>
        Done (Some (if RaftNode_IsLeader n
                    then get_error INTERNAL "leader not ready for linearizable read, retry" ""
                    else get_error NOT_LEADER "" (RaftNode_LeaderId n), n))
    | Some (true, n) =>
        caught_up ← WaitAppliedCatchUp fuel n kCatchupWaitMs;
        match caught_up with
        | None => Done None
        | Some (false, n) => Done (Some (get_error INTERNAL "apply catch-up timeout" "", n))
        | Some (true, n) => local_get n key
        end
    end.

Definition RaftNode_GetConfig n (key : string) (version : Z)
    : outcome (ConfigResult * RaftNode DB B) :=
  get_config_from_store (fun n => fs_store (rn_fsm n)) turn n key version ConfigResult_default.

Definition RaftNode_Watch n (a : WatchArgs) (hub_watch : WatchArgs -> WatchResult)
    : outcome WatchResult :=
  match fs_hub (rn_fsm n) with Some _ => Done (hub_watch a) | None => Throws NullDeref end.

(** * Membership *)

(** [add] selects between the two methods, which differ in the call and the
    messages. *)
Definition conf_change_timeout_message (add : bool) : string :=
  (if add then "add" else "remove") +:+ " peer timed out after 60s (change may still be in " +:+
  "progress), check health later".

Definition conf_change_done n (id : nat) : option Status :=
  match fs_closures (rn_fsm n) !! id with
  | Some (IsConfChange s true) => Some s
  | _ => None
  end.

(** [wait_for(lock, 100000)] until done or past the deadline; a wait that is not
    notified lasts its 100 ms. *)
Fixpoint conf_change_loop (fuel : nat) n (id : nat) (deadline_us : Z)
    : outcome (option (RaftNode DB B)) :=
  match rn_node n with
  | None => Throws NullDeref
  | Some b =>
      match conf_change_done n id with
      | Some _ => Done (Some n)
      | None =>
          if br_gettimeofday_us b <? deadline_us then
            match fuel with
            | O => Done None
            | S fuel' =>
                n ← turn (with_node n (br_usleep b 100000));
                conf_change_loop fuel' n id deadline_us
            end
          else Done (Some n)
      end
  end.

Definition ConfChange (add : bool) (fuel : nat) n (peer : string)
    : outcome (option (ConfChangeResult * RaftNode DB B)) :=
  match rn_node n with
  | None => Done (Some (mkConfChangeResult INTERNAL "raft node not initialized", n))
  | Some b =>
      if negb (RaftNode_IsLeader n) then
        Done (Some (mkConfChangeResult NOT_LEADER
                      ("not leader, leader=" +:+ RaftNode_LeaderId n), n))
      else
        match br_parse_peer peer with
        | None => Done (Some (mkConfChangeResult INTERNAL
                                ("invalid peer address `" +:+ peer +:+ "'"), n))
        | Some peer_id =>
            let '(id, n) := new_closure n (IsConfChange None false) in
            let b := (if add then br_add_peer else br_remove_peer) b peer_id id in
            waited ← conf_change_loop fuel (with_node n b) id
                       (br_gettimeofday_us b + kConfChangeTimeoutSec * 1000000);
            match waited with
            | None => Done None
            | Some n =>
                Done (Some (match conf_change_done n id with
                  | None => mkConfChangeResult INTERNAL (conf_change_timeout_message add)
                  | Some (Some err) => mkConfChangeResult INTERNAL err
                  | Some None => mkConfChangeResult OK
                      ("peer " +:+ peer +:+ (if add then " added" else " removed"))
                  end, n))
            end
        end
  end.

Definition RaftNode_AddPeer := ConfChange true.
Definition RaftNode_RemovePeer := ConfChange false.

(** * The object *)

(** [Init] gives the node its store, its state machine and, when the peer list
    parses, a raft node.  Requests can arrive before that: the RPC server is
    started first. *)
Inductive RaftNodeObj :=
| RnCreated (hub : option WatchHub)
| RnInitialized (n : RaftNode DB B).

(** [add_service] is what [braft::add_service] answers. *)
Definition AddServiceToServer (add_service : Z) : bool := add_service =? 0.

(** [listen_addr] and [initial_conf] say whether [str2endpoint] and
    [Configuration::parse_from] accept their argument; [start] is the raft node
    and what its [init] answers. *)
Definition RaftNode_Init (hub : option WatchHub) (store : Store DB)
    (listen_addr initial_conf : bool) (start : B * Z) (group listen_ip port peers : string)
    : bool * string * RaftNodeObj :=
  let n node := RnInitialized (mkRaftNode (mkFsm store hub ∅ ∅ [] (-1)) node 0) in
  if negb listen_addr then
    (false, "invalid listen address " +:+ listen_ip +:+ ":" +:+ port, n None)
  else if negb initial_conf then
    (false, "fail to parse peers `" +:+ peers +:+ "'", n None)
  else if negb (start.2 =? 0) then
    (false, "fail to init raft node " +:+ group, n (Some start.1))
  else (true, "", n (Some start.1)).

(** A method before and after [Init]. *)
Definition initialized {A} (f : RaftNode DB B -> outcome (option (A * RaftNode DB B)))
    (created : call RaftNodeObj A) : call RaftNodeObj A := fun o =>
  match o with
  | RnCreated _ => created o
  | RnInitialized n =>
      x ← f n;
      Done (match x with Some (r, n) => Some (r, RnInitialized n) | None => None end)
  end.

Definition meta {A} (f : RaftNode DB B -> A) (dflt : A) (o : RaftNodeObj) : A :=
  match o with RnCreated _ => dflt | RnInitialized n => f n end.

Definition null_store {A} : call RaftNodeObj A := fun _ => Throws NullDeref.

#[export] Instance RaftNode_node (fuel : nat) : ConfigNode RaftNodeObj := {|
  node_Apply cmd := initialized (fun n => RaftNode_Apply fuel n cmd)
    (mret (mkApplyResult NOT_LEADER "" KV_default [] "" []));
  node_Get key serializable := initialized (fun n => RaftNode_Get fuel n key serializable)
    (if serializable then null_store else mret (get_error NOT_LEADER "" ""));
  node_GetConfig key version :=
    initialized (returning (fun n => RaftNode_GetConfig n key version)) null_store;
  node_Watch a hub_watch :=
    initialized (reading (fun n => RaftNode_Watch n a hub_watch)) null_store;
  node_Compaction keep :=
    initialized (returning (fun n => RaftNode_Compaction n keep)) null_store;
  node_AddPeer peer := initialized (fun n => RaftNode_AddPeer fuel n peer)
    (mret (mkConfChangeResult INTERNAL "raft node not initialized"));
  node_RemovePeer peer := initialized (fun n => RaftNode_RemovePeer fuel n peer)
    (mret (mkConfChangeResult INTERNAL "raft node not initialized"));
  node_IsLeader := meta RaftNode_IsLeader false;
  node_LeaderId := meta RaftNode_LeaderId "";
  node_Role := meta RaftNode_Role "uninitialized";
  node_Term := meta RaftNode_Term 0;
  node_CommitIndex := meta RaftNode_CommitIndex 0;
  node_AppliedIndex := meta RaftNode_AppliedIndex 0;
  node_Peers := meta RaftNode_Peers [];
  node_CurrentRevision := initialized (reading RaftNode_CurrentRevision) null_store
|}.
End raft.
