(* ===== verification/FsmTheorems.v ===== *)
(** Properties of the replicated state machine of StateMachine.v. *)
From S2P Require Import Prelude CxxStd StoreKey Proto LevelDB Store StoreSpec StoreRepr.
From S2P Require Import StoreRefine StoreSnapshot StoreOps Demo StoreMaintenance WatchHub Node.
From S2P Require Import StateMachine.
From Stdlib Require Import Ascii.

Section log.
Context `{KVCodec} `{CmdCodec} {DB : Type} `{LevelDB DB}.
Implicit Types m : Fsm DB.

(** The log alone: what applying its entries does to a store, and the events of
    each entry. *)
Fixpoint apply_log (store : Store DB) (log : list string)
    : outcome (Store DB * list (list WatchEvent)) :=
  match log with
  | [] => Done (store, [])
  | data :: log' =>
      match ParseCmd data with
      | None => '(store, evss) ← apply_log store log'; Done (store, [] :: evss)
      | Some cmd =>
          '(result, store) ← ApplyCmdToStore store cmd ApplyResult_default;
          '(store, evss) ← apply_log store log';
          Done (store, ar_events result :: evss)
      end
  end.

Lemma broadcast_events_nil heap hub : broadcast_events heap hub [] = heap.
Proof. by destruct hub. Qed.

(** [on_apply] as a function of the log. *)
Lemma on_apply_log m entries :
  match apply_log (fs_store m) (le_data <$> entries) with
  | Throws e => on_apply m entries = Throws e
  | Done (store, evss) =>
      exists cs, on_apply m entries =
        Done (mkFsm store (fs_hub m)
                (foldl (fun heap evs => broadcast_events heap (fs_hub m) evs) (fs_waiters m) evss)
                cs (fs_runs m ++ omap le_done entries) (leader_term_ m))
  end.
Proof.
  revert m. induction entries as [|[data done] entries IH]; intros m; simpl.
  { exists (fs_closures m). rewrite app_nil_r. by destruct m. }
  assert (Hruns : match done with Some id => fs_runs m ++ [id] | None => fs_runs m end ++
    omap le_done entries = fs_runs m ++ omap le_done (mkEntry data done :: entries)).
  { destruct done; csimpl; [by rewrite <-app_assoc|done]. }
  unfold apply_entry. simpl. destruct (ParseCmd data) as [cmd|].
  - destruct (ApplyCmdToStore (fs_store m) cmd ApplyResult_default) as [[r st]|e]; [|done]. simpl.
    match goal with |- context [on_apply ?m' entries] => specialize (IH m') end. simpl in IH.
    destruct (apply_log st _) as [[st' evss]|e]; [|done]. destruct IH as [cs IH].
    exists cs. rewrite IH. simpl. by rewrite Hruns.
  - simpl. match goal with |- context [on_apply ?m' entries] => specialize (IH m') end. simpl in IH.
    destruct (apply_log _ _) as [[st' evss]|e]; [|done]. destruct IH as [cs IH].
    exists cs. rewrite IH. simpl. by rewrite broadcast_events_nil, Hruns.
Qed.

(** C24. The replicated state depends on the log alone.  Applying a batch of
    committed entries changes the store as the bytes of the entries say, the
    same on the leader, which has [done] closures for its own proposals, and on
    the followers, which have none; the events are broadcast to the waiters in
    the order of the log; and every [done] closure of the batch is scheduled to
    run exactly once, in order, also for entries that do not parse. *)
Theorem on_apply_follows_log m entries :
  match apply_log (fs_store m) (le_data <$> entries) with
  | Throws e => on_apply m entries = Throws e
  | Done (store, evss) =>
      exists cs, on_apply m entries =
        Done (mkFsm store (fs_hub m)
                (foldl (fun heap evs => broadcast_events heap (fs_hub m) evs) (fs_waiters m) evss)
                cs (fs_runs m ++ omap le_done entries) (leader_term_ m))
  end.
Proof. apply on_apply_log. Qed.

Lemma apply_log_app store l1 l2 :
  apply_log store (l1 ++ l2) =
  '(store, evss1) ← apply_log store l1;
  '(store, evss2) ← apply_log store l2;
  Done (store, evss1 ++ evss2).
Proof.
  revert store. induction l1 as [|data l1 IH]; intros store; simpl.
  { by destruct (apply_log store l2) as [[]|]. }
  destruct (ParseCmd data) as [cmd|].
  - destruct (ApplyCmdToStore store cmd ApplyResult_default) as [[r st]|]; simpl; [|done].
    rewrite IH. destruct (apply_log st l1) as [[st1 e1]|]; simpl; [|done].
    by destruct (apply_log st1 l2) as [[]|].
  - rewrite IH. destruct (apply_log store l1) as [[st1 e1]|]; simpl; [|done].
    by destruct (apply_log st1 l2) as [[]|].
Qed.

Lemma on_apply_app m l1 l2 :
  on_apply m (l1 ++ l2) = m' ← on_apply m l1; on_apply m' l2.
Proof.
  revert m. induction l1 as [|e l1 IH]; intros m; [done|]. simpl.
  destruct (apply_entry m e) as [m'|x]; [|done]. apply IH.
Qed.

(** An entry without the closure [id] does not touch it. *)
Lemma apply_entry_other m e m' id :
  apply_entry m e = Done m' -> le_done e <> Some id ->
  fs_closures m' !! id = fs_closures m !! id.
Proof.
  unfold apply_entry. intros E Hne. destruct (ParseCmd (le_data e)) as [cmd|].
  - destruct (ApplyCmdToStore _ _ _) as [[r st]|]; simplify_eq/=.
    destruct (le_done e) as [id'|]; [|done]. simpl. apply lookup_alter_ne. congruence.
  - simplify_eq/=. destruct (le_done e) as [id'|]; [|done]. simpl.
    apply lookup_alter_ne. congruence.
Qed.

Lemma on_apply_other m l m' id :
  on_apply m l = Done m' -> Forall (fun e => le_done e <> Some id) l ->
  fs_closures m' !! id = fs_closures m !! id.
Proof.
  revert m. induction l as [|e l IH]; intros m E Hl; simpl in E; [by simplify_eq|].
  apply Forall_cons in Hl as [He Hl]. destruct (apply_entry m e) as [m1|] eqn:E1; [|done].
  rewrite (IH m1 E Hl). by eapply apply_entry_other.
Qed.

Lemma run_all_lookup (cs : Closures) (ids : list nat) (id : nat) :
  NoDup ids -> foldl (fun cs id => alter Run id cs) cs ids !! id =
  if decide (id ∈ ids) then Run <$> cs !! id else cs !! id.
Proof.
  intros Hnd. revert cs. induction Hnd as [|x ids Hx Hnd IH]; intros cs; [done|]. simpl.
  rewrite IH. destruct (decide (x = id)) as [->|Hne].
  - rewrite decide_False, decide_True by (done || by left). apply lookup_alter_eq.
  - rewrite lookup_alter_ne by done. apply decide_ext. rewrite elem_of_cons. split; [by right|by intros [->|]].
Qed.

(** The proposer gets the result of its own command.  When the entry of a
    waiting [ApplyClosure] is applied, anywhere in a batch, and the closures
    have run, the waiter is released and its result is what [ApplyCmdToStore]
    returned for the command at this place of the log (also when that is an
    error code, although the closure's status is then an error too); when the
    entry does not parse it is INTERNAL with the error text. *)
Theorem proposal_result m pre e post id m1 m' :
  le_done e = Some id ->
  fs_closures m !! id = Some (IsApply ApplyClosure_new) ->
  Forall (fun x => le_done x <> Some id) (pre ++ post) ->
  NoDup (fs_runs m ++ omap le_done (pre ++ e :: post)) ->
  on_apply m pre = Done m1 ->
  on_apply m (pre ++ e :: post) = Done m' ->
  exists c, fs_closures (run_closures m') !! id = Some (IsApply c) /\ cl_done c = true /\
    match ParseCmd (le_data e) with
    | Some cmd => exists st, ApplyCmdToStore (fs_store m1) cmd ApplyResult_default =
                             Done (cl_out c, st)
    | None => ar_code (cl_out c) = INTERNAL /\ ar_message (cl_out c) = "bad raft cmd" /\
              ar_events (cl_out c) = []
    end.
Proof.
  intros Hid Hc Hother Hnd Hpre Hall.
  pose proof (on_apply_log m (pre ++ e :: post)) as Hruns. rewrite Hall in Hruns.
  destruct (apply_log _ _) as [[store evss]|x]; [|done]. destruct Hruns as [cs [= ->]].
  rewrite on_apply_app, Hpre in Hall. simpl in Hall.
  apply Forall_app in Hother as [Hopre Hopost].
  pose proof (on_apply_other _ _ _ id Hpre Hopre) as Hc1. rewrite Hc in Hc1.
  destruct (apply_entry m1 e) as [m2|x] eqn:E; [|done]. simpl in Hall.
  pose proof (on_apply_other _ _ _ id Hall Hopost) as Hc2. simpl in Hc2.
  unfold run_closures. cbn [fs_closures fs_runs].
  rewrite run_all_lookup by done. rewrite decide_True, Hc2.
  2: { rewrite omap_app. csimpl. rewrite Hid. set_solver. }
  clear - E Hid Hc1. unfold apply_entry in E. rewrite Hid in E.
  destruct (ParseCmd (le_data e)) as [cmd|].
  - destruct (ApplyCmdToStore (fs_store m1) cmd ApplyResult_default) as [[r st]|x]; [|done].
    simplify_eq/=. rewrite lookup_alter_eq, Hc1. simpl.
    unfold report_result. simpl.
    destruct (bool_decide_reflect (ar_code r = OK)) as [Ho|Ho]; simpl;
      eexists; (split; [done|]); unfold ApplyClosure_Run; simpl; [by eauto|].
    rewrite decide_False by done. by eauto.
  - simplify_eq/=. rewrite lookup_alter_eq, Hc1. simpl. eexists. split; [done|]. done.
Qed.
End log.

(** * A concrete codec of commands *)

Module BitCmdCodec.
Fixpoint puts_tuple (puts : list (string * string)) : list (string + Z) :=
  match puts with
  | [] => []
  | (k, v) :: puts' => inl k :: inl v :: puts_tuple puts'
  end.

Fixpoint tuple_puts (t : list (string + Z)) : option (list (string * string)) :=
  match t with
  | [] => Some []
  | inl k :: inl v :: t' => puts ← tuple_puts t'; Some ((k, v) :: puts)
  | _ => None
  end.

Definition cmd_tuple (cmd : RaftCmd) : list (string + Z) :=
  match cmd with
  | CmdPut k v => [inr 1; inl k; inl v]
  | CmdDelete k => [inr 2; inl k]
  | CmdCas k e v => [inr 3; inl k; inl e; inl v]
  | CmdPublish k v => [inr 4; inl k; inl v]
  | CmdRollback k t => [inr 5; inl k; inr t]
  | CmdBatchPut puts => inr 6 :: puts_tuple puts
  | CmdNotSet => []
  end.

Definition tuple_cmd (t : list (string + Z)) : option RaftCmd :=
  match t with
  | [] => Some CmdNotSet
  | [inr 1; inl k; inl v] => Some (CmdPut k v)
  | [inr 2; inl k] => Some (CmdDelete k)
  | [inr 3; inl k; inl e; inl v] => Some (CmdCas k e v)
  | [inr 4; inl k; inl v] => Some (CmdPublish k v)
  | [inr 5; inl k; inr t] => Some (CmdRollback k t)
  | inr 6 :: t => CmdBatchPut <$> tuple_puts t
  | _ => None
  end.

#[export] Instance codec : CmdCodec := {|
  SerializeCmd cmd := "#" +:+ BitCodec.pos_digits (encode (cmd_tuple cmd));
  ParseCmd s :=
    match s with String "#"%char s' => decode (BitCodec.digits_pos s') ≫= tuple_cmd | _ => None end
|}.

Lemma tuple_puts_tuple puts : tuple_puts (puts_tuple puts) = Some puts.
Proof. induction puts as [|[k v] puts IH]; [done|]. simpl. by rewrite IH. Qed.

#[export] Instance codec_spec : CmdCodecSpec.
Proof.
  intros cmd _. simpl. rewrite BitCodec.digits_pos_digits, decode_encode. simpl.
  destruct cmd; try done. simpl. by rewrite tuple_puts_tuple.
Qed.
End BitCmdCodec.

#[export] Existing Instances BitCmdCodec.codec BitCmdCodec.codec_spec.

(** * The replicated store *)

Section replicated.
Context `{KVCodecSpec} `{CmdCodec} `{!CmdCodecSpec} {DB : Type} `{LevelDBSpec DB}.
Implicit Types (m : Fsm DB) (a : Mvcc).

Definition fsm_rep m a : Prop := exists d dir, fs_store m = mkStore (Some d) dir /\ Rep d a.

(** What a log of commands does to a database and the state it represents: each
    command is one write with its specified effect, or is skipped because the
    device refused the write. *)
Inductive log_effect : DB -> Mvcc -> list RaftCmd -> DB -> Mvcc -> Prop :=
| EffectDone d a : log_effect d a [] d a
| EffectApplied d a cmd d1 cmds d' a' :
    one_write d d1 -> Rep d1 (fst (spec_apply a cmd)) ->
    log_effect d1 (fst (spec_apply a cmd)) cmds d' a' -> log_effect d a (cmd :: cmds) d' a'
| EffectRefused d a cmd d1 cmds d' a' :
    ~ accepts_writes d -> one_write d d1 -> Rep d1 a ->
    log_effect d1 a cmds d' a' -> log_effect d a (cmd :: cmds) d' a'.

(** The specified state after a log. *)
Definition spec_log (a : Mvcc) (cmds : list RaftCmd) : Mvcc :=
  foldl (fun a cmd => fst (spec_apply a cmd)) a cmds.

Lemma log_effect_accepted d a cmds d' a' :
  log_effect d a cmds d' a' -> (forall d1, rtc one_write d d1 -> accepts_writes d1) ->
  a' = spec_log a cmds.
Proof.
  induction 1 as [d a|d a cmd d1 cmds d' a' Hw _ _ IH|d a cmd d1 cmds d' a' Hn]; intros Hacc.
  - done.
  - apply IH. intros d2 Hd2. apply Hacc. by eapply rtc_l.
  - destruct Hn. by apply Hacc.
Qed.

Definition cmds_size (cmds : list RaftCmd) : Z :=
  foldr (fun cmd n => cmd_size cmd + n) 0 cmds.

Lemma cmds_size_nonneg cmds : 0 <= cmds_size cmds.
Proof. induction cmds as [|cmd cmds IH]; simpl; [lia|]. destruct cmd; simpl; lia. Qed.

Lemma apply_entry_refines m d dir a done cmd :
  fs_store m = mkStore (Some d) dir -> Rep d a -> cmd_valid cmd -> cmd_fits a cmd ->
  exists m' d', apply_entry m (mkEntry (SerializeCmd cmd) done) = Done m' /\
    fs_store m' = mkStore (Some d') dir /\ one_write d d' /\
    (Rep d' (fst (spec_apply a cmd)) \/ ~ accepts_writes d /\ Rep d' a).
Proof.
  intros Hs Hd Hv Hf. unfold apply_entry. simpl. rewrite ParseCmd_SerializeCmd, Hs by done.
  destruct (ApplyCmdToStore_refines d dir a cmd Hd Hv Hf) as (r & d' & E & Hr).
  destruct (ApplyCmdToStore_one_write _ _ _ _ _ _ E) as (d1 & E1 & Hw). simplify_eq.
  rewrite E. simpl. do 2 eexists. split_and!; [done|done|done|].
  destruct Hr as [[_ Hr]|(_ & _ & Ha & Hr)]; [by left|by right].
Qed.

(** C13. A node that has applied a log of valid commands is in a state the
    specification reaches.  [on_apply] does not crash, whatever the closures of
    the entries are and whichever writes the device refuses; the store then
    represents a well-formed state in which each command, in the order of the
    log, has had exactly its specified effect, or none when the device refused
    its write; when no write is refused, the state is the specified one. *)
Theorem on_apply_refines m d dir a entries cmds :
  fs_store m = mkStore (Some d) dir -> Rep d a -> Forall cmd_valid cmds ->
  m_rev a + cmds_size cmds <= int64_max -> le_data <$> entries = SerializeCmd <$> cmds ->
  exists m' d' a', on_apply m entries = Done m' /\ fs_store m' = mkStore (Some d') dir /\
    Rep d' a' /\ wf a' /\ log_effect d a cmds d' a' /\
    ((forall d1, rtc one_write d d1 -> accepts_writes d1) -> a' = spec_log a cmds).
Proof.
  intros Hs Hd Hv Hf He.
  assert (exists m' d' a', on_apply m entries = Done m' /\ fs_store m' = mkStore (Some d') dir /\
    Rep d' a' /\ log_effect d a cmds d' a') as (m' & d' & a' & ? & ? & Hd' & Hl).
  2: { exists m', d', a'. split_and!; try done; [by eapply rep_wf|by eapply log_effect_accepted]. }
  revert m d a cmds Hs Hd Hv Hf He.
  induction entries as [|[data done] entries IH]; intros m d a cmds Hs Hd Hv Hf He.
  { destruct cmds; [|done]. exists m, d, a. split_and!; [done..|constructor]. }
  destruct cmds as [|cmd cmds]; [done|]. csimpl in He. simplify_eq/=.
  apply Forall_cons in Hv as [Hv1 Hv]. pose proof (cmds_size_nonneg cmds).
  destruct (apply_entry_refines m d dir a done cmd Hs Hd Hv1) as (m1 & d1 & -> & Hs1 & Hw & Hr);
    [unfold cmd_fits; lia|]. simpl. pose proof (spec_apply_rev a cmd) as Hrev.
  destruct Hr as [Hr|[Hn Hr]].
  - destruct (IH m1 d1 _ cmds Hs1 Hr Hv) as (m' & d' & a' & ? & ? & ? & ?); [lia|done|].
    exists m', d', a'. split_and!; [done..|]. by eapply EffectApplied.
  - destruct (IH m1 d1 _ cmds Hs1 Hr Hv) as (m' & d' & a' & ? & ? & ? & ?); [|done|].
    { destruct cmd; simpl in *; lia. }
    exists m', d', a'. split_and!; [done..|]. by eapply EffectRefused.
Qed.

(** A snapshot moves the replicated state between nodes: what
    [save_snapshot] wrote on one node and [on_snapshot_load] installs on another
    puts the second into the saved state without its superseded history, when
    the files could be written and read and the old directory was removed.  A
    snapshot without its data file, or one that cannot be read, leaves the node
    as it was. *)
Theorem snapshot_transfer {FS} `{!LevelDBFiles DB FS} `{!LevelDBFilesSpec DB FS}
    m1 a m2 (fs : FS) file_meta load :
  fsm_rep m1 a ->
  (forall save add_file data m2' fs', save_snapshot m1 save add_file = Done (None, Some data) ->
     load = Some data -> file_meta = 0 ->
     fst (fs_remove_all (snd (reset_db (fs_store m2) fs)) (data_dir_ (fs_store m2))) = true ->
     on_snapshot_load m2 fs file_meta load = Done (0, m2', fs') ->
     fsm_rep m2' (spec_reload a)) /\
  (file_meta <> 0 \/ load = None -> on_snapshot_load m2 fs file_meta load = Done (-1, m2, fs)).
Proof.
  intros (d & dir & Hs & Hd). split.
  - intros save add_file data m2' fs' Hsave -> -> Hrm Hload.
    unfold save_snapshot in Hsave. rewrite Hs in Hsave. simpl in Hsave.
    assert (data = ExportSnapshotLocked d) as ->.
    { destruct (negb _); [done|]. destruct (negb _); by simplify_eq. }
    unfold on_snapshot_load in Hload. simpl in Hload.
    destruct (LoadSnapshot _ _ _) as [[[err st] fs1]|x] eqn:El; [|done]. simpl in Hload.
    destruct err as [err|]; [done|]. simplify_eq.
    destruct (LoadSnapshot_rep _ _ _ _ _ _ _ Hd eq_refl El Hrm) as (d' & -> & Hd').
    by exists d', (data_dir_ (fs_store m2)).
  - unfold on_snapshot_load. intros [Hf| ->].
    + by destruct (Z.eqb_spec file_meta 0).
    + by destruct (negb _).
Qed.
End replicated.

(** * Witnesses *)

Definition demo_closure : Closure := IsApply ApplyClosure_new.

Definition demo_fsm : Fsm MemDB.t :=
  mkFsm (mkStore (Some demo_db) "data") None ∅ {[1%nat := demo_closure]} [] 3.

Definition demo_entry : LogEntry := mkEntry (SerializeCmd (CmdCas "app" "x" "y")) (Some 1%nat).
Definition earlier_entry : LogEntry := mkEntry (SerializeCmd (CmdPut "app" "x")) None.

Definition fsm_of (o : outcome (Fsm MemDB.t)) : Fsm MemDB.t :=
  match o with Done m => m | Throws _ => demo_fsm end.

Lemma demo_fsm_rep : fsm_rep demo_fsm demo_state.
Proof. exists demo_db, "data". split; [done|exact demo_rep]. Qed.

Lemma fsm_of_Done (o : outcome (Fsm MemDB.t)) :
  match o with Done _ => true | Throws _ => false end = true -> o = Done (fsm_of o).
Proof. by destruct o. Qed.

Lemma proposal_result_witness :
  exists m' c, on_apply demo_fsm [earlier_entry; demo_entry] = Done m' /\
    fs_closures (run_closures m') !! 1%nat = Some (IsApply c) /\ cl_done c = true.
Proof.
  set (all := on_apply demo_fsm [earlier_entry; demo_entry]).
  set (pre := on_apply demo_fsm [earlier_entry]).
  assert (all = Done (fsm_of all)) as Eall by (apply fsm_of_Done; vm_compute; reflexivity).
  assert (pre = Done (fsm_of pre)) as Epre by (apply fsm_of_Done; vm_compute; reflexivity).
  destruct (proposal_result demo_fsm [earlier_entry] demo_entry [] 1 (fsm_of pre) (fsm_of all)
    eq_refl eq_refl) as (c & Hc & Hdone & _);
    [constructor; [discriminate|constructor]|apply (NoDup_singleton 1%nat)
    |exact Epre|exact Eall|].
  exists (fsm_of all), c. split; [exact Eall|split; [exact Hc|exact Hdone]].
Defined.

Lemma demo_always_accepts d : rtc one_write demo_db d -> accepts_writes d.
Proof.
  intros Hd. apply mem_accepts.
  assert (MemDB.write_error demo_db = None) as He by (by vm_compute).
  revert He. induction Hd as [|d d1 d2 Hw _ IH]; [done|]. intros He. apply IH.
  by eapply mem_one_write.
Qed.

Lemma on_apply_refines_witness :
  exists m' d' a', on_apply demo_fsm [earlier_entry; demo_entry] = Done m' /\
    fs_store m' = mkStore (Some d') "data" /\ Rep d' a' /\
    a' = spec_log demo_state [CmdPut "app" "x"; CmdCas "app" "x" "y"].
Proof.
  destruct (on_apply_refines demo_fsm demo_db "data" demo_state [earlier_entry; demo_entry]
    [CmdPut "app" "x"; CmdCas "app" "x" "y"] eq_refl demo_rep)
    as (m' & d' & a' & E & Hs & Hd & _ & _ & Ha);
    [repeat constructor|by vm_compute|reflexivity|].
  exists m', d', a'. split; [exact E|split; [exact Hs|split; [exact Hd|]]].
  exact (Ha demo_always_accepts).
Defined.

Lemma snapshot_transfer_witness :
  let m2 := mkFsm old_node None ∅ ∅ [] (-1) in
  (exists m2' fs', on_snapshot_load m2 demo_fs 0 (Some (ExportSnapshotLocked demo_db)) =
     Done (0, m2', fs') /\ fsm_rep m2' (spec_reload demo_state)) /\
  on_snapshot_load m2 demo_fs 2 None = Done (-1, m2, demo_fs).
Proof.
  intros m2. split.
  - destruct load_demo_ok as [fs' E].
    assert (on_snapshot_load m2 demo_fs 0 (Some (ExportSnapshotLocked demo_db)) =
      Done (0, mkFsm (mkStore (Some (loaded demo_fs)) "data") None ∅ ∅ [] (-1), fs')) as El.
    { unfold on_snapshot_load. cbn [Z.eqb negb fs_store m2]. unfold load_demo in E.
      fold m2. change (fs_store m2) with old_node. rewrite E. reflexivity. }
    do 2 eexists. split; [exact El|].
    apply (proj1 (snapshot_transfer demo_fsm demo_state m2 demo_fs 0
      (Some (ExportSnapshotLocked demo_db)) demo_fsm_rep) (fun _ => 0) 0
      (ExportSnapshotLocked demo_db) _ fs'); [reflexivity|reflexivity|reflexivity|by vm_compute|exact El].
  - apply (snapshot_transfer demo_fsm demo_state m2 demo_fs 2 None demo_fsm_rep). by right.
Defined.
