(* ===== verification/RaftTheorems.v ===== *)
(** Properties of the cluster node of RaftNode.v. *)
From S2P Require Import Prelude CxxStd StoreKey Proto LevelDB Store StoreSpec StoreRepr StoreOps.
From S2P Require Import Demo WatchHub WatchCall Node StateMachine FsmTheorems RaftNode.

(** What the node relies on when it hands a task to the library: an entry that
    comes back with a closure carries the data submitted with it, and a task whose
    closure is run without having been applied failed. *)
Class BraftTasks (B : Type) `{Braft B} := {
  br_task : B -> nat -> option string;
  br_task_apply b data term id : br_task (br_apply b data term id) id = Some data;
  br_task_callbacks b id : br_task (snd (br_callbacks b)) id = br_task b id;
  br_entry_task b entries e id : CbApply entries ∈ fst (br_callbacks b) -> e ∈ entries ->
    le_done e = Some id -> is_Some (br_task b id) -> br_task b id = Some (le_data e);
  br_run_error b id status : CbRun id status ∈ fst (br_callbacks b) ->
    is_Some (br_task b id) -> status <> None
}.

(** The entries a callback hands over. *)
Definition callback_entries (cb : callback) : list LogEntry :=
  match cb with CbApply entries => entries | _ => [] end.
Definition callbacks_data (cbs : list callback) : list string :=
  le_data <$> (cbs ≫= callback_entries).

(** The log as the library keeps it: [br_log] are the data entries up to the
    committed index it reports, [br_delivered] those it has handed to [on_apply].
    Entries are handed over by callbacks only, and when the applied index has
    reached the committed one, all of them have been. *)
Class BraftLog (B : Type) `{Braft B} := {
  br_log : B -> list string;
  br_delivered : B -> list string;
  br_delivered_callbacks b :
    br_delivered (snd (br_callbacks b)) = br_delivered b ++ callbacks_data (fst (br_callbacks b));
  br_delivered_usleep b us : br_delivered (br_usleep b us) = br_delivered b;
  br_delivered_apply b data term id : br_delivered (br_apply b data term id) = br_delivered b;
  br_applied_all b :
    ns_committed_index (br_get_status b) <= ns_known_applied_index (br_get_status b) ->
    br_log b `prefix_of` br_delivered b
}.

(** * The store follows the log *)

Section follows.
Context `{KVCodec} `{CmdCodec} {DB B : Type} `{LevelDB DB} `{BraftLog B} (init : Store DB).
Implicit Types (n : RaftNode DB B) (m : Fsm DB) (D : list string).

(** What the entries of a log make of the store [init], with compaction passes
    anywhere between them. *)
Inductive log_run : list string -> Store DB -> Prop :=
| LogInit : log_run [] init
| LogUnparsed D data st :
    log_run D st -> ParseCmd data = None -> log_run (D ++ [data]) st
| LogApplied D data cmd r st st' :
    log_run D st -> ParseCmd data = Some cmd ->
    ApplyCmdToStore st cmd ApplyResult_default = Done (r, st') -> log_run (D ++ [data]) st'
| LogCompacted D keep removed st st' :
    log_run D st -> Compaction st keep = Done (removed, st') -> log_run D st'.

(** The store holds what the entries [D] make of it. *)
Definition fsm_at m D : Prop := log_run D (fs_store m).

Definition follows n : Prop := exists b, rn_node n = Some b /\ fsm_at (rn_fsm n) (br_delivered b).

(** The same for the entries delivered after [D0]. *)
Definition fsm_since (D0 : list string) m D : Prop := exists E, D = D0 ++ E /\ fsm_at m E.

Lemma fsm_since_all m D : fsm_at m D <-> fsm_since [] m D.
Proof. split; [by exists D|by intros (E & -> & ?)]. Qed.

Lemma apply_entry_at m e m' D :
  fsm_at m D -> apply_entry m e = Done m' -> fsm_at m' (D ++ [le_data e]).
Proof.
  unfold fsm_at, apply_entry. intros Hm E.
  destruct (ParseCmd (le_data e)) as [cmd|] eqn:Ep.
  - destruct (ApplyCmdToStore (fs_store m) cmd ApplyResult_default) as [[r st]|] eqn:Ea; [|done].
    simplify_eq/=. by eapply LogApplied.
  - simplify_eq/=. by apply LogUnparsed.
Qed.

Lemma on_apply_at m l m' D :
  fsm_at m D -> on_apply m l = Done m' -> fsm_at m' (D ++ (le_data <$> l)).
Proof.
  revert m D. induction l as [|e l IH]; intros m D Hm E; simpl in E.
  { simplify_eq. by rewrite app_nil_r. }
  destruct (apply_entry m e) as [m1|] eqn:E1; [|done]. csimpl. rewrite cons_middle, app_assoc.
  eapply IH; [by eapply apply_entry_at|exact E].
Qed.

Lemma handle_at m cb m' D :
  fsm_at m D -> handle m cb = Done m' -> fsm_at m' (D ++ (le_data <$> callback_entries cb)).
Proof.
  intros Hm E. destruct cb as [l|t| |id status|keep]; simpl in E;
    [|simplify_eq; by rewrite app_nil_r..|].
  - destruct (on_apply m l) as [m1|] eqn:E1; [|done]. simplify_eq/=.
    exact (on_apply_at _ _ _ _ Hm E1).
  - destruct (Compaction (fs_store m) keep) as [[removed st]|] eqn:Ec; [|done].
    simplify_eq/=. rewrite app_nil_r. by eapply LogCompacted.
Qed.

Lemma handle_all_at m cbs m' D :
  fsm_at m D -> handle_all m cbs = Done m' -> fsm_at m' (D ++ callbacks_data cbs).
Proof.
  revert m D. induction cbs as [|cb cbs IH]; intros m D Hm E; simpl in E.
  { simplify_eq. by rewrite app_nil_r. }
  destruct (handle m cb) as [m1|] eqn:E1; [|done].
  unfold callbacks_data. csimpl. rewrite fmap_app, app_assoc.
  eapply IH; [by eapply handle_at|exact E].
Qed.

Lemma turn_follows D0 n n' b :
  rn_node n = Some b -> fsm_since D0 (rn_fsm n) (br_delivered b) -> turn n = Done n' ->
  exists b', rn_node n' = Some b' /\ fsm_since D0 (rn_fsm n') (br_delivered b') /\
    br_delivered b `prefix_of` br_delivered b'.
Proof.
  intros Hb (D & HD & Hat) E. unfold turn in E. rewrite Hb in E.
  pose proof (br_delivered_callbacks b) as Hd. destruct (br_callbacks b) as [cbs b'].
  destruct (handle_all (rn_fsm n) cbs) as [m|] eqn:Eh; [|done]. simplify_eq/=.
  exists b'. split; [done|]. rewrite Hd. split; [|by eexists].
  exists (D ++ callbacks_data cbs). rewrite HD, app_assoc. split; [done|by eapply handle_all_at].
Qed.
End follows.

(** Between two callbacks no closure is left to run. *)
Section runs.
Context `{KVCodec} `{CmdCodec} {DB B : Type} `{LevelDB DB} `{Braft B}.
Implicit Types (n : RaftNode DB B) (m : Fsm DB).

Lemma handle_runs m cb m' : handle m cb = Done m' -> fs_runs m = [] -> fs_runs m' = [].
Proof.
  intros E Hr. destruct cb as [l|t| |id status|keep]; simpl in E; [|by simplify_eq/=..|].
  - destruct (on_apply m l); by simplify_eq/=.
  - destruct (Compaction _ _) as [[]|]; by simplify_eq/=.
Qed.

Lemma handle_all_runs m cbs m' : handle_all m cbs = Done m' -> fs_runs m = [] -> fs_runs m' = [].
Proof.
  revert m. induction cbs as [|cb cbs IH]; intros m E Hr; simpl in E; [by simplify_eq|].
  destruct (handle m cb) as [m1|] eqn:E1; [|done]. by eapply IH, handle_runs.
Qed.

Lemma turn_runs n n' : turn n = Done n' -> fs_runs (rn_fsm n) = [] -> fs_runs (rn_fsm n') = [].
Proof.
  unfold turn. intros E Hr. destruct (rn_node n) as [b|]; [|by simplify_eq].
  destruct (br_callbacks b) as [cbs b']. destruct (handle_all _ _) as [m|] eqn:Eh; simplify_eq/=.
  by eapply handle_all_runs.
Qed.

Lemma cv_wait_runs fuel n id r n' :
  cv_wait fuel n id = Done (Some (r, n')) -> fs_runs (rn_fsm n) = [] -> fs_runs (rn_fsm n') = [].
Proof.
  revert n. induction fuel as [|fuel IH]; intros n E Hr; simpl in E; [done|].
  destruct (turn n) as [n1|] eqn:Et; [|done]. apply turn_runs in Et; [|done]. simpl in E.
  destruct (woken n1 id); [|by eapply IH].
  destruct (apply_done n1 id); [by simplify_eq|by eapply IH].
Qed.

Lemma WaitFor_runs fuel n id r n' :
  WaitFor fuel n id = Done (Some (r, n')) -> fs_runs (rn_fsm n) = [] -> fs_runs (rn_fsm n') = [].
Proof.
  unfold WaitFor. intros E Hr. destruct (apply_done n id); [by simplify_eq|].
  by eapply cv_wait_runs.
Qed.

Lemma lease_loop_runs fuel n dl ok n' :
  lease_loop fuel n dl = Done (Some (ok, n')) -> fs_runs (rn_fsm n) = [] ->
  fs_runs (rn_fsm n') = [].
Proof.
  revert n. induction fuel as [|fuel IH]; intros n E Hr; simpl in E; [done|].
  destruct (turn n) as [n1|] eqn:Et; [|done]. apply turn_runs in Et; [|done]. simpl in E.
  destruct (rn_node n1) as [b|]; [|done].
  destruct (br_get_leader_lease_status b); simplify_eq; try done.
  destruct (dl <=? _); [by simplify_eq|]. by eapply IH.
Qed.

Lemma catch_up_loop_runs fuel n dl ok n' :
  catch_up_loop fuel n dl = Done (Some (ok, n')) -> fs_runs (rn_fsm n) = [] ->
  fs_runs (rn_fsm n') = [].
Proof.
  revert n. induction fuel as [|fuel IH]; intros n E Hr; simpl in E; [done|].
  destruct (turn n) as [n1|] eqn:Et; [|done]. apply turn_runs in Et; [|done]. simpl in E.
  destruct (rn_node n1) as [b|]; [|done].
  destruct (_ <=? ns_known_applied_index _); [by simplify_eq|].
  destruct (dl <=? _); [by simplify_eq|]. by eapply IH.
Qed.

Lemma RaftNode_Apply_runs fuel n cmd r n' :
  RaftNode_Apply fuel n cmd = Done (Some (r, n')) -> fs_runs (rn_fsm n) = [] ->
  fs_runs (rn_fsm n') = [].
Proof.
  unfold RaftNode_Apply. intros E Hr. destruct (negb _); [by simplify_eq|].
  destruct (rn_node n); [|done]. simpl in E. by apply WaitFor_runs in E.
Qed.

Lemma RaftNode_Get_runs fuel n key s r n' :
  RaftNode_Get fuel n key s = Done (Some (r, n')) -> fs_runs (rn_fsm n) = [] ->
  fs_runs (rn_fsm n') = [].
Proof.
  unfold RaftNode_Get, local_get. intros E Hr.
  destruct s; [destruct (get_from_store _ _ _); by simplify_eq/=|].
  destruct (WaitLeaderLease fuel n kLeaseWaitMs) as [[[ok n1]|]|] eqn:El; simpl in E; try done.
  assert (fs_runs (rn_fsm n1) = []) as Hr1.
  { unfold WaitLeaderLease in El. destruct (rn_node n); [by eapply lease_loop_runs|by simplify_eq]. }
  destruct ok; [|by simplify_eq].
  destruct (WaitAppliedCatchUp fuel n1 kCatchupWaitMs) as [[[ok n2]|]|] eqn:Ec; simpl in E; try done.
  assert (fs_runs (rn_fsm n2) = []) as Hr2.
  { unfold WaitAppliedCatchUp in Ec. destruct (rn_node n1); [|by simplify_eq].
    by eapply catch_up_loop_runs. }
  destruct ok; [|by simplify_eq]. destruct (get_from_store _ _ _); by simplify_eq/=.
Qed.
End runs.

Section log_run.
Context `{KVCodec} `{CmdCodec} {DB : Type} `{LevelDB DB}.
Implicit Types st : Store DB.

Lemma log_run_app st0 D1 st1 D2 st2 :
  log_run st0 D1 st1 -> log_run st1 D2 st2 -> log_run st0 (D1 ++ D2) st2.
Proof.
  intros H1' H2'. induction H2' as [|D data st _ IH Hp|D data cmd r st st' _ IH Hp E|
    D keep removed st st' _ IH E].
  - by rewrite app_nil_r.
  - rewrite app_assoc. by apply LogUnparsed.
  - rewrite app_assoc. by eapply LogApplied.
  - by eapply LogCompacted.
Qed.
End log_run.

Section results.
Context `{KVCodec} `{CmdCodec} `{!CmdCodecSpec} {DB B : Type} `{LevelDB DB} `{Braft B} `{!BraftTasks B}.
Context `{!BraftLog B} (init : Store DB).
Implicit Types (n : RaftNode DB B) (m : Fsm DB) (D : list string).

(** The result of [cmd] as an entry that comes after [pre] in the log [D], which has
    led to the store of [m]. *)
Definition result_at (cmd : RaftCmd) (pre D : list string) m (r : ApplyResult) : Prop :=
  exists st st' post, log_run init pre st /\
    ApplyCmdToStore st cmd ApplyResult_default = Done (r, st') /\
    log_run st' post (fs_store m) /\ D = pre ++ SerializeCmd cmd :: post.

(** What a client may be told about its command, when the entries [D] have been
    applied: the result of its own entry, at its place in the log. *)
Definition applied_or_failed (cmd : RaftCmd) D m (r : ApplyResult) : Prop :=
  (exists pre, result_at cmd pre D m r) \/ ar_code r = INTERNAL.

(** The same, with what is known of the place. *)
Definition answer_at (place : list string -> Prop) (cmd : RaftCmd) D m (r : ApplyResult) : Prop :=
  (exists pre, result_at cmd pre D m r /\ place pre) \/ ar_code r = INTERNAL.

Definition waiting (c : ApplyClosure) : Prop :=
  cl_out c = ApplyResult_default /\ cl_status c = None /\ cl_done c = false.

Definition answered place (cmd : RaftCmd) D m (c : ApplyClosure) : Prop :=
  answer_at place cmd D m (cl_out c).

(** The closure [id] of a proposal of [cmd]. *)
Definition closure_ok place (cmd : RaftCmd) (id : nat) D m : Prop :=
  fsm_at init m D /\
  exists c, fs_closures m !! id = Some (IsApply c) /\
    (waiting c \/ answered place cmd D m c) /\ (id ∈ fs_runs m -> answered place cmd D m c).

Lemma answer_mono (place place' : list string -> Prop) cmd D m E m' r :
  log_run (fs_store m) E (fs_store m') -> (forall pre, place pre -> place' pre) ->
  answer_at place cmd D m r -> answer_at place' cmd (D ++ E) m' r.
Proof.
  intros Hp Hpl [(pre & (st & st' & post & ? & ? & ? & ->) & ?)|?]; [left|by right].
  exists pre. split; [|by apply Hpl]. exists st, st', (post ++ E). rewrite <-app_assoc.
  split_and!; [done..| |done]. by eapply log_run_app.
Qed.

Lemma closure_ok_place (place place' : list string -> Prop) cmd id D m :
  (forall pre, place pre -> place' pre) ->
  closure_ok place cmd id D m -> closure_ok place' cmd id D m.
Proof.
  intros Hpl (Hat & c & Hc & Hw & Hr).
  assert (answered place cmd D m c -> answered place' cmd D m c) as Ha.
  { rewrite <-(app_nil_r D) at 2. apply answer_mono; [constructor|done]. }
  split; [done|]. exists c. split_and!; [done| |by auto]. destruct Hw; [by left|by right; auto].
Qed.

Lemma answered_Run place cmd D m c :
  answered place cmd D m c -> answered place cmd D m (ApplyClosure_Run c).
Proof.
  unfold answered, ApplyClosure_Run. simpl. destruct (cl_status c); [|done].
  case_decide; [by right|done].
Qed.

Lemma apply_entry_closure_ok place cmd id m e m' D :
  cmd_valid cmd -> closure_ok place cmd id D m ->
  (le_done e = Some id -> le_data e = SerializeCmd cmd /\ place D) ->
  apply_entry m e = Done m' -> closure_ok place cmd id (D ++ [le_data e]) m'.
Proof.
  intros Hv (Hat & c & Hc & Hw & Hr) He E. split; [by eapply apply_entry_at|].
  assert (log_run (fs_store m) [le_data e] (fs_store m')) as Hp.
  { by apply (apply_entry_at _ m e m' [] (LogInit _)). }
  destruct (decide (le_done e = Some id)) as [Hid|Hid].
  - destruct (He Hid) as [He' Hpl]. clear He. rename He' into He. unfold apply_entry in E.
    rewrite He, ParseCmd_SerializeCmd, Hid in E by done.
    destruct (ApplyCmdToStore _ _ _) as [[r st]|] eqn:Ea; [|done]. simplify_eq/=.
    match goal with |- context [mkFsm st ?h ?w ?c ?rs ?t] =>
      assert (answer_at place cmd (D ++ [le_data e]) (mkFsm st h w c rs t) r) as Hr' end.
    { left. exists D. split; [|done]. exists (fs_store m), st, []. rewrite He.
      split_and!; [done..|constructor|done]. }
    rewrite lookup_alter_eq, Hc. simpl. unfold report_result. simpl.
    destruct (_ && _); eexists; (split; [done|]); by split; [right|].
  - exists c. rewrite (apply_entry_other _ _ _ _ E Hid).
    assert (answered place cmd D m c -> answered place cmd (D ++ [le_data e]) m' c) as Hm
      by by apply answer_mono.
    split_and!; [done|by destruct Hw; [left|right; apply Hm]|].
    intros Hin. apply Hm, Hr. unfold apply_entry in E.
    assert (fs_runs m' = match le_done e with Some id => fs_runs m ++ [id] | None => fs_runs m end)
      as Hruns.
    { destruct (ParseCmd _) as [cmd1|]; [|by simplify_eq/=].
      destruct (ApplyCmdToStore _ _ _) as [[r st]|]; by simplify_eq/=. }
    rewrite Hruns in Hin. destruct (le_done e) as [id'|]; [|done].
    apply elem_of_app in Hin as [?|?%list_elem_of_singleton]; [done|congruence].
Qed.

Lemma on_apply_closure_ok place cmd id m l m' D :
  cmd_valid cmd -> closure_ok place cmd id D m ->
  (forall l1 e l2, l = l1 ++ e :: l2 -> le_done e = Some id ->
     le_data e = SerializeCmd cmd /\ place (D ++ (le_data <$> l1))) ->
  on_apply m l = Done m' -> closure_ok place cmd id (D ++ (le_data <$> l)) m'.
Proof.
  intros Hv. revert m D. induction l as [|e l IH]; intros m D Hc He E; simpl in E.
  { simplify_eq. by rewrite app_nil_r. }
  destruct (apply_entry m e) as [m1|] eqn:E1; [|done]. csimpl. rewrite cons_middle, app_assoc.
  eapply IH; [| |exact E].
  - eapply apply_entry_closure_ok; [done|done| |exact E1]. intros Hid.
    destruct (He [] e l eq_refl Hid) as [? Hpl]. split; [done|]. by rewrite app_nil_r in Hpl.
  - intros l1 e' l2 -> Hid. destruct (He (e :: l1) e' l2 eq_refl Hid) as [? Hpl].
    split; [done|]. by rewrite <-app_assoc.
Qed.

Lemma run_closures_ok place cmd id m D :
  closure_ok place cmd id D m -> closure_ok place cmd id D (run_closures m).
Proof.
  intros [Hat Hc]. split; [exact Hat|]. revert Hc. unfold run_closures. simpl.
  generalize (fs_runs m) as ids. intros ids.
  generalize (fs_closures m) as cs. induction ids as [|x ids IH]; intros cs (c & Hc & Hw & Hr).
  { by exists c. }
  simpl. apply IH. destruct (decide (x = id)) as [->|Hne].
  - rewrite lookup_alter_eq, Hc. simpl. specialize (Hr ltac:(by left)).
    eexists. split; [done|]. split; [right|intros _]; by apply answered_Run.
  - rewrite lookup_alter_ne by done. exists c. split_and!; [done|done|].
    intros Hin. apply Hr. by right.
Qed.

Lemma handle_closure_ok place cmd id m cb m' (b : B) D :
  cmd_valid cmd -> closure_ok place cmd id D m -> br_task b id = Some (SerializeCmd cmd) ->
  cb ∈ fst (br_callbacks b) ->
  (forall l1 e l2, cb = CbApply (l1 ++ e :: l2) -> le_done e = Some id ->
     place (D ++ (le_data <$> l1))) ->
  handle m cb = Done m' -> closure_ok place cmd id (D ++ (le_data <$> callback_entries cb)) m'.
Proof.
  intros Hv Hc Ht Hin Hpl E. destruct cb as [l|t| |id' status|keep]; simpl in E.
  - destruct (on_apply m l) as [m1|] eqn:E1; [|done]. simplify_eq/=. apply run_closures_ok.
    eapply on_apply_closure_ok; [done|done| |exact E1]. intros l1 e l2 -> Hid.
    split; [|by eapply Hpl].
    pose proof (br_entry_task b _ e id Hin ltac:(set_solver) Hid) as Hd. rewrite Ht in Hd.
    by injection (Hd ltac:(eauto)).
  - simplify_eq. by rewrite app_nil_r.
  - simplify_eq. by rewrite app_nil_r.
  - simplify_eq. rewrite app_nil_r. destruct Hc as (Hat & c & Hc & Hw & Hr). split; [done|]. simpl.
    destruct (decide (id' = id)) as [->|Hne].
    + rewrite lookup_alter_eq, Hc. simpl. eexists. split; [done|].
      assert (status <> None) as Hs by (eapply br_run_error; [exact Hin|by rewrite Ht]).
      destruct status as [err|]; [|done].
      assert (answered place cmd D m
        (ApplyClosure_Run (mkApplyClosure (cl_out c) (Some err) (cl_done c) (cl_notified c)))).
      { destruct Hw as [(Ho & _)|Ha]; [|by apply answered_Run].
        unfold answered, ApplyClosure_Run. simpl. rewrite Ho. by right. }
      by split; [right|].
    + rewrite lookup_alter_ne by done. by exists c.
  - destruct (Compaction (fs_store m) keep) as [[removed st]|] eqn:Ec; [|done]. simplify_eq/=.
    destruct Hc as (Hat & c & Hc & Hw & Hr).
    assert (forall c, answered place cmd D m c ->
      answered place cmd (D ++ []) (set_store m st) c) as Ha.
    { intros c0. apply answer_mono; [by eapply LogCompacted; [constructor|]|done]. }
    rewrite app_nil_r in *. split; [by eapply LogCompacted|]. exists c.
    split_and!; [done|by destruct Hw as [?|?]; [left|right; apply Ha]|by auto].
Qed.

(** Where the callbacks of [b] put an entry with the closure [id]. *)
Definition places (b : B) (id : nat) (place : list string -> Prop) : Prop :=
  forall cbs1 l1 e l2 cbs2, fst (br_callbacks b) = cbs1 ++ CbApply (l1 ++ e :: l2) :: cbs2 ->
    le_done e = Some id -> place (br_delivered b ++ callbacks_data cbs1 ++ (le_data <$> l1)).

Lemma handle_all_closure_ok D0 D place cmd id m handled cbs m' (b : B) :
  cmd_valid cmd -> br_delivered b = D0 ++ D ->
  closure_ok (fun pre => place (D0 ++ pre)) cmd id (D ++ callbacks_data handled) m ->
  br_task b id = Some (SerializeCmd cmd) -> fst (br_callbacks b) = handled ++ cbs ->
  places b id place -> handle_all m cbs = Done m' ->
  closure_ok (fun pre => place (D0 ++ pre)) cmd id
    ((D ++ callbacks_data handled) ++ callbacks_data cbs) m'.
Proof.
  intros Hv HD. revert m handled.
  induction cbs as [|cb cbs IH]; intros m handled Hc Ht Hcbs Hpl E; simpl in E.
  { simplify_eq. by rewrite app_nil_r. }
  destruct (handle m cb) as [m1|] eqn:E1; [|done].
  assert (callbacks_data (handled ++ [cb]) = callbacks_data handled ++ (le_data <$> callback_entries cb))
    as Hd by (unfold callbacks_data; rewrite bind_app, fmap_app; simpl; by rewrite app_nil_r).
  unfold callbacks_data at 2. csimpl. rewrite fmap_app, app_assoc, <-(app_assoc D).
  rewrite <-Hd. apply (IH m1 (handled ++ [cb])); [|done| |done|exact E].
  - rewrite Hd, app_assoc. eapply handle_closure_ok; [done|done|exact Ht| | |exact E1].
    + rewrite Hcbs. set_solver.
    + intros l1 e l2 -> Hid. rewrite <-app_assoc, app_assoc, <-HD. by eapply Hpl.
  - by rewrite <-app_assoc.
Qed.

(** A proposal of [cmd] under [id] is under way or answered. *)
Definition proposed D0 (inv : B -> Prop) (place : B -> list string -> Prop) (cmd : RaftCmd)
    (id : nat) n : Prop :=
  exists b D, rn_node n = Some b /\ inv b /\ br_task b id = Some (SerializeCmd cmd) /\
    br_delivered b = D0 ++ D /\ closure_ok (fun pre => place b (D0 ++ pre)) cmd id D (rn_fsm n).

(** What is known of the place of the entry holds when it is delivered, and goes on
    holding; [inv] is what is known of the library meanwhile. *)
Definition place_law (inv : B -> Prop) (place : B -> list string -> Prop) (id : nat) : Prop :=
  forall b, inv b ->
  inv (snd (br_callbacks b)) /\ places b id (place (snd (br_callbacks b))) /\
  forall pre, place b pre -> place (snd (br_callbacks b)) pre.

Lemma turn_proposed D0 inv place cmd id n n' :
  cmd_valid cmd -> place_law inv place id -> proposed D0 inv place cmd id n ->
  turn n = Done n' -> proposed D0 inv place cmd id n'.
Proof.
  intros Hv Hpl (b & D & Hb & Hi & Ht & HD & Hc) E. unfold turn in E. rewrite Hb in E.
  destruct (Hpl b Hi) as (Hi' & Hplaces & Hmono). pose proof (br_delivered_callbacks b) as Hd.
  pose proof (br_task_callbacks b id) as Ht'.
  destruct (br_callbacks b) as [cbs b'] eqn:Ecb. simpl in *.
  destruct (handle_all (rn_fsm n) cbs) as [m|] eqn:Eh; [|done]. simplify_eq/=.
  exists b', ((D ++ callbacks_data []) ++ callbacks_data cbs). split; [done|]. split; [done|].
  split; [by rewrite Ht'|]. split; [by rewrite Hd, HD, app_nil_r, app_assoc|].
  apply (handle_all_closure_ok D0 D (place b') cmd id (rn_fsm n) [] cbs m b); try done.
  - rewrite app_nil_r. eapply closure_ok_place; [|exact Hc]. by intros pre; apply Hmono.
  - by rewrite Ecb.
Qed.

Lemma fall_asleep_proposed D0 inv place cmd id n :
  proposed D0 inv place cmd id n -> proposed D0 inv place cmd id (fall_asleep n id).
Proof.
  intros (b & D & ? & ? & ? & ? & Hat & c & Hc & Hw & Hr). exists b, D. split_and!; [done..|].
  split; [exact Hat|]. simpl. rewrite lookup_alter_eq, Hc. simpl. by eexists.
Qed.

Lemma WaitFor_answer D0 inv place cmd id fuel n r n' :
  cmd_valid cmd -> place_law inv place id -> proposed D0 inv place cmd id n ->
  WaitFor fuel n id = Done (Some (r, n')) ->
  exists b D, rn_node n' = Some b /\ inv b /\ br_delivered b = D0 ++ D /\
    fsm_at init (rn_fsm n') D /\
    answer_at (fun pre => place b (D0 ++ pre)) cmd D (rn_fsm n') r.
Proof.
  intros Hv Hpl.
  assert (forall n out, proposed D0 inv place cmd id n -> apply_done n id = Some out ->
    exists b D, rn_node n = Some b /\ inv b /\ br_delivered b = D0 ++ D /\
      fsm_at init (rn_fsm n) D /\
      answer_at (fun pre => place b (D0 ++ pre)) cmd D (rn_fsm n) out) as Hdone.
  { intros n0 out (b & D & Hb & Hi & _ & HD & Hat & c & Hc & Hw & _) Ed.
    exists b, D. split_and!; [done..|].
    unfold apply_done in Ed. rewrite Hc in Ed. destruct (cl_done c) eqn:Edone; [|done].
    simplify_eq. by destruct Hw as [(_ & _ & ?)|]; [congruence|]. }
  unfold WaitFor. intros Hp E.
  destruct (apply_done n id) as [out|] eqn:Ed; [simplify_eq; by apply Hdone|].
  apply fall_asleep_proposed in Hp. revert Hp E. generalize (fall_asleep n id) as n0. clear n Ed.
  induction fuel as [|fuel IH]; intros n Hp E; simpl in E; [done|].
  destruct (turn n) as [n1|] eqn:Et; [|done]. simpl in E.
  assert (proposed D0 inv place cmd id n1) as Hp1
    by by apply (turn_proposed D0 inv place cmd id n).
  destruct (woken n1 id); [|by eapply IH].
  destruct (apply_done n1 id) as [out|] eqn:Ed; [simplify_eq; by apply Hdone|].
  eapply IH; [|exact E]. by apply fall_asleep_proposed.
Qed.

(** A proposal on the leader. *)
Definition proposal n (b : B) (cmd : RaftCmd) : B :=
  br_apply b (SerializeCmd cmd)
    (if 0 <? leader_term_ (rn_fsm n) then Some (leader_term_ (rn_fsm n)) else None) (rn_next n).

Lemma RaftNode_Apply_place D0 D inv place fuel n b cmd r n' :
  cmd_valid cmd -> fs_runs (rn_fsm n) = [] ->
  place_law inv place (rn_next n) -> inv (proposal n b cmd) ->
  rn_node n = Some b -> br_delivered b = D0 ++ D -> fsm_at init (rn_fsm n) D ->
  RaftNode_IsLeader n = true -> RaftNode_Apply fuel n cmd = Done (Some (r, n')) ->
  exists b' D', rn_node n' = Some b' /\ inv b' /\ br_delivered b' = D0 ++ D' /\
    fsm_at init (rn_fsm n') D' /\
    answer_at (fun pre => place b' (D0 ++ pre)) cmd D' (rn_fsm n') r.
Proof.
  intros Hv Hruns Hpl Hi Hb HD Hat Hl. unfold RaftNode_Apply. rewrite Hl. simpl. rewrite Hb.
  intros E. eapply (WaitFor_answer D0 inv place); [exact Hv|exact Hpl| |exact E].
  eexists _, D. split; [done|]. split; [exact Hi|]. split; [apply br_task_apply|].
  rewrite br_delivered_apply. split; [exact HD|]. split; [exact Hat|].
  exists ApplyClosure_new. simpl.
  rewrite lookup_insert_eq, Hruns. split_and!; [done|by left; split_and!|].
  by intros ?%elem_of_nil.
Qed.

(** C26. What [RaftNode::Apply] answers.  A node that is not the leader does not
    propose: it answers NOT_LEADER with the leader it knows and is left as it
    was.  On the leader the answer is the result that [ApplyCmdToStore] gave for
    this very command in a store the log before its entry leads to, with compaction
    passes anywhere, and the store now is what the rest of the log makes of the one
    the command left; or, when the library gave the task
    up, INTERNAL.  It is never the result of another client's command and never an
    unfilled OK. *)
Theorem RaftNode_Apply_answer fuel n cmd r n' :
  cmd_valid cmd -> fs_runs (rn_fsm n) = [] -> follows init n ->
  RaftNode_Apply fuel n cmd = Done (Some (r, n')) ->
  if RaftNode_IsLeader n
  then exists b, rn_node n' = Some b /\ fsm_at init (rn_fsm n') (br_delivered b) /\
         applied_or_failed cmd (br_delivered b) (rn_fsm n') r
  else ar_code r = NOT_LEADER /\ ar_leader_id r = RaftNode_LeaderId n /\ n' = n.
Proof.
  intros Hv Hruns (b & Hb & Hat) E. destruct (RaftNode_IsLeader n) eqn:El.
  2: { unfold RaftNode_Apply in E. rewrite El in E. by simplify_eq/=. }
  destruct (RaftNode_Apply_place [] (br_delivered b) (fun _ => True) (fun _ _ => True) fuel n b cmd
    r n') as (b' & D & ? & _ & HD & ? & Ha); try done.
  simpl in HD. exists b'. rewrite HD. split_and!; [done..|].
  destruct Ha as [(pre & ? & _)|?]; [left; by eexists|by right].
Qed.
End results.

Section waits.
Context `{KVCodec} `{CmdCodec} {DB B : Type} `{LevelDB DB} `{Braft B}.
Implicit Types (n : RaftNode DB B) (m : Fsm DB).

(** * Reads *)

Lemma lease_loop_true fuel n dl n' :
  lease_loop fuel n dl = Done (Some (true, n')) ->
  exists b, rn_node n' = Some b /\ br_get_leader_lease_status b = LEASE_VALID.
Proof.
  revert n. induction fuel as [|fuel IH]; intros n E; simpl in E; [done|].
  destruct (turn n) as [n1|]; [|done]. simpl in E. destruct (rn_node n1) as [b|] eqn:Eb; [|done].
  destruct (br_get_leader_lease_status b) eqn:Es; simplify_eq; [by exists b|].
  destruct (dl <=? _); [done|]. by eapply IH.
Qed.

Lemma catch_up_loop_true fuel n dl n' :
  catch_up_loop fuel n dl = Done (Some (true, n')) ->
  exists b, rn_node n' = Some b /\
    ns_committed_index (br_get_status b) <= ns_known_applied_index (br_get_status b).
Proof.
  revert n. induction fuel as [|fuel IH]; intros n E; simpl in E; [done|].
  destruct (turn n) as [n1|]; [|done]. simpl in E. destruct (rn_node n1) as [b|] eqn:Eb; [|done].
  destruct (Z.leb_spec (ns_committed_index (br_get_status b))
    (ns_known_applied_index (br_get_status b))); [simplify_eq; by exists b|].
  destruct (dl <=? _); [done|]. by eapply IH.
Qed.

(** While a read waits the store goes on following the log. *)
Context `{!BraftLog B} (init : Store DB) (D0 : list string).

Definition ahead n n' : Prop :=
  forall b, rn_node n = Some b -> fsm_since init D0 (rn_fsm n) (br_delivered b) ->
  exists b', rn_node n' = Some b' /\ fsm_since init D0 (rn_fsm n') (br_delivered b') /\
    br_delivered b `prefix_of` br_delivered b'.

Lemma ahead_turn n n1 n' : turn n = Done n1 -> ahead n1 n' -> ahead n n'.
Proof.
  intros E Ha b Hb Hat. destruct (turn_follows init D0 n n1 b Hb Hat E) as (b1 & Hb1 & Hat1 & Hp1).
  destruct (Ha b1 Hb1 Hat1) as (b' & ? & ? & ?). exists b'. split_and!; [done|done|]. by etrans.
Qed.

Lemma ahead_usleep n b us n' :
  rn_node n = Some b -> ahead (with_node n (br_usleep b us)) n' -> ahead n n'.
Proof.
  intros Hb Ha b0 Hb0 Hat. rewrite Hb in Hb0. simplify_eq.
  rewrite <-(br_delivered_usleep b0 us). apply Ha; [done|]. by rewrite br_delivered_usleep.
Qed.

Lemma ahead_refl n : ahead n n.
Proof. intros b ? ?. by exists b. Qed.

Lemma lease_loop_ahead fuel n dl ok n' :
  lease_loop fuel n dl = Done (Some (ok, n')) -> ahead n n'.
Proof.
  revert n. induction fuel as [|fuel IH]; intros n E; simpl in E; [done|].
  destruct (turn n) as [n1|] eqn:Et; [|done]. apply (ahead_turn _ _ _ Et). simpl in E.
  destruct (rn_node n1) as [b|] eqn:Eb; [|done].
  destruct (br_get_leader_lease_status b); simplify_eq; try apply ahead_refl.
  destruct (dl <=? _); [simplify_eq; apply ahead_refl|].
  eapply ahead_usleep; [done|]. by eapply IH.
Qed.

Lemma catch_up_loop_ahead fuel n dl ok n' :
  catch_up_loop fuel n dl = Done (Some (ok, n')) -> ahead n n'.
Proof.
  revert n. induction fuel as [|fuel IH]; intros n E; simpl in E; [done|].
  destruct (turn n) as [n1|] eqn:Et; [|done]. apply (ahead_turn _ _ _ Et). simpl in E.
  destruct (rn_node n1) as [b|] eqn:Eb; [|done].
  destruct (_ <=? ns_known_applied_index _); [simplify_eq; apply ahead_refl|].
  destruct (dl <=? _); [simplify_eq; apply ahead_refl|].
  eapply ahead_usleep; [done|]. by eapply IH.
Qed.

Lemma RaftNode_Get_ahead fuel n key r n' :
  RaftNode_Get fuel n key false = Done (Some (r, n')) -> ahead n n'.
Proof.
  unfold RaftNode_Get. intros E.
  destruct (WaitLeaderLease fuel n kLeaseWaitMs) as [[[ok n1]|]|] eqn:El; simpl in E; try done.
  assert (ahead n n1) as H1'.
  { unfold WaitLeaderLease in El. destruct (rn_node n); [by eapply lease_loop_ahead|].
    simplify_eq. apply ahead_refl. }
  destruct ok; [|by simplify_eq].
  destruct (WaitAppliedCatchUp fuel n1 kCatchupWaitMs) as [[[ok n2]|]|] eqn:Ec; simpl in E; try done.
  assert (ahead n1 n2) as H2'.
  { unfold WaitAppliedCatchUp in Ec. destruct (rn_node n1); [by eapply catch_up_loop_ahead|].
    simplify_eq. apply ahead_refl. }
  assert (n' = n2) as ->.
  { destruct ok; [|by simplify_eq]. unfold local_get in E.
    destruct (get_from_store _ _ _); by simplify_eq/=. }
  intros b Hb Hat. destruct (H1' b Hb Hat) as (b1 & Hb1 & Hat1 & Hp1).
  destruct (H2' b1 Hb1 Hat1) as (b2 & ? & ? & ?). exists b2. split_and!; [done|done|by etrans].
Qed.

(** The outcomes of [Get]. *)
Lemma RaftNode_Get_cases fuel n b0 key r n' :
  rn_node n = Some b0 -> fsm_since init D0 (rn_fsm n) (br_delivered b0) ->
  RaftNode_Get fuel n key false = Done (Some (r, n')) ->
  (gr_code r = NOT_LEADER /\ RaftNode_IsLeader n' = false /\
     gr_leader_id r = RaftNode_LeaderId n') \/
  (gr_code r = INTERNAL /\ gr_kv r = KV_default /\ gr_leader_id r = "") \/
  (exists n1 b1 b,
     WaitLeaderLease fuel n kLeaseWaitMs = Done (Some (true, n1)) /\
     rn_node n1 = Some b1 /\ br_get_leader_lease_status b1 = LEASE_VALID /\
     WaitAppliedCatchUp fuel n1 kCatchupWaitMs = Done (Some (true, n')) /\
     rn_node n' = Some b /\
     ns_committed_index (br_get_status b) <= ns_known_applied_index (br_get_status b) /\
     fsm_since init D0 (rn_fsm n') (br_delivered b) /\
     br_log b `prefix_of` br_delivered b /\ br_delivered b0 `prefix_of` br_delivered b /\
     get_from_store (fs_store (rn_fsm n')) key GetResult_default = Done r).
Proof.
  intros Hb0 Hat. unfold RaftNode_Get. intros E.
  destruct (WaitLeaderLease fuel n kLeaseWaitMs) as [[[[] n1]|]|] eqn:El; simpl in E; try done.
  2: { destruct (RaftNode_IsLeader n1) eqn:Ei; simplify_eq; [right; left|left]; done. }
  destruct (WaitAppliedCatchUp fuel n1 kCatchupWaitMs) as [[[[] n2]|]|] eqn:Ec; simpl in E; try done.
  2: { simplify_eq. by right; left. }
  right; right. unfold local_get in E.
  destruct (get_from_store (fs_store (rn_fsm n2)) key GetResult_default) as [out|] eqn:Eg; [|done].
  simplify_eq/=. unfold WaitLeaderLease in El. rewrite Hb0 in El.
  destruct (lease_loop_true _ _ _ _ El) as (b1 & Hb1 & Hv).
  destruct (lease_loop_ahead _ _ _ _ _ El b0 Hb0 Hat) as (b1' & Hb1' & Hat1 & Hp1).
  pose proof Ec as Ec'. unfold WaitAppliedCatchUp in Ec'. rewrite Hb1 in Ec'. rewrite Hb1 in Hb1'.
  simplify_eq. destruct (catch_up_loop_true _ _ _ _ Ec') as (b & Hb & Hle).
  destruct (catch_up_loop_ahead _ _ _ _ _ Ec' _ Hb1 Hat1) as (b' & Hb' & Hat' & Hp').
  rewrite Hb in Hb'. simplify_eq. exists n1, b1', b'. split_and!; try done.
  - by apply br_applied_all.
  - by etrans.
Qed.

End waits.

Section reads.
Context `{KVCodec} `{CmdCodec} {DB B : Type} `{LevelDB DB} `{Braft B} `{!BraftLog B} (init : Store DB).
Implicit Types n : RaftNode DB B.

(** C28. A linearizable read never answers from stale state.  When [Get] answers
    from the store, the leader lease was valid and, in a status sample taken after
    that, the applied index had reached the committed one; the store it reads then
    is what the entries delivered so far, and compaction passes, make of the initial
    one, and these
    contain the whole committed log and everything that had been delivered, hence
    acknowledged, when the read began.  Otherwise it answers INTERNAL, or
    NOT_LEADER with the known leader, and the latter only when it is not the leader
    itself, so a client is never redirected in a circle. *)
Theorem RaftNode_Get_linearizable fuel n b0 key r n' :
  rn_node n = Some b0 -> fsm_at init (rn_fsm n) (br_delivered b0) ->
  RaftNode_Get fuel n key false = Done (Some (r, n')) ->
  (gr_code r = NOT_LEADER /\ RaftNode_IsLeader n' = false /\
     gr_leader_id r = RaftNode_LeaderId n') \/
  (gr_code r = INTERNAL /\ gr_kv r = KV_default /\ gr_leader_id r = "") \/
  (exists n1 b1 b,
     WaitLeaderLease fuel n kLeaseWaitMs = Done (Some (true, n1)) /\
     rn_node n1 = Some b1 /\ br_get_leader_lease_status b1 = LEASE_VALID /\
     WaitAppliedCatchUp fuel n1 kCatchupWaitMs = Done (Some (true, n')) /\
     rn_node n' = Some b /\
     ns_committed_index (br_get_status b) <= ns_known_applied_index (br_get_status b) /\
     fsm_at init (rn_fsm n') (br_delivered b) /\
     br_log b `prefix_of` br_delivered b /\ br_delivered b0 `prefix_of` br_delivered b /\
     get_from_store (fs_store (rn_fsm n')) key GetResult_default = Done r).
Proof.
  intros Hb Hat E.
  destruct (RaftNode_Get_cases init [] fuel n b0 key r n' Hb) as [?|[?|(n1 & b1 & b & Hg)]];
    [by apply fsm_since_all|done|by left|by right; left|].
  right; right. exists n1, b1, b. rewrite <-fsm_since_all in Hg. exact Hg.
Qed.

End reads.

(** * The waits end *)

Section ends.
Context `{KVCodec} `{CmdCodec} {DB B : Type} `{LevelDB DB} `{BraftSpec B}.
Implicit Types (n : RaftNode DB B) (m : Fsm DB).

Lemma turn_clock n n' b :
  turn n = Done n' -> rn_node n = Some b ->
  exists b', rn_node n' = Some b' /\ br_gettimeofday_us b <= br_gettimeofday_us b'.
Proof.
  unfold turn. intros E Hb. rewrite Hb in E. pose proof (br_callbacks_us b) as Hc.
  destruct (br_callbacks b) as [cbs b'].
  destruct (handle_all (rn_fsm n) cbs); simplify_eq/=. by exists b'.
Qed.

Lemma lease_loop_ends k fuel n b dl :
  rn_node n = Some b -> dl - br_gettimeofday_us b <= 5000 * Z.of_nat k -> (k < fuel)%nat ->
  lease_loop fuel n dl <> Done None.
Proof.
  revert fuel n b. induction k as [|k IH]; intros [|fuel] n b Hb Hdl Hk; try lia; simpl;
    (destruct (turn n) as [n1|] eqn:Et; [|done]); simpl;
    destruct (turn_clock _ _ _ Et Hb) as (b1 & Hb1 & Hle); rewrite Hb1;
    destruct (br_get_leader_lease_status b1); try done;
    destruct (Z.leb_spec dl (br_gettimeofday_us b1)); try done; [lia|].
  eapply IH; [done| |lia]. pose proof (br_usleep_us b1 5000 ltac:(lia)). lia.
Qed.

Lemma catch_up_loop_ends k fuel n b dl :
  rn_node n = Some b -> dl - br_gettimeofday_us b <= 100 * Z.of_nat k -> (k < fuel)%nat ->
  catch_up_loop fuel n dl <> Done None.
Proof.
  revert fuel n b. induction k as [|k IH]; intros [|fuel] n b Hb Hdl Hk; try lia; simpl;
    (destruct (turn n) as [n1|] eqn:Et; [|done]); simpl;
    destruct (turn_clock _ _ _ Et Hb) as (b1 & Hb1 & Hle); rewrite Hb1;
    destruct (_ <=? ns_known_applied_index _); try done;
    destruct (Z.leb_spec dl (br_gettimeofday_us b1)); try done; [lia|].
  eapply IH; [done| |lia]. pose proof (br_usleep_us b1 100 ltac:(lia)). lia.
Qed.

Lemma conf_change_loop_ends k fuel n b id dl :
  rn_node n = Some b -> dl - br_gettimeofday_us b <= 100000 * Z.of_nat k -> (k <= fuel)%nat ->
  conf_change_loop fuel n id dl <> Done None.
Proof.
  revert fuel n b. induction k as [|k IH]; intros fuel n b Hb Hdl Hk;
    destruct fuel as [|fuel]; try lia; simpl; rewrite Hb;
    destruct (conf_change_done n id); try done;
    destruct (Z.ltb_spec (br_gettimeofday_us b) dl); try done; try lia.
  destruct (turn _) as [n1|] eqn:Et; [|done]. simpl.
  destruct (turn_clock _ _ _ Et eq_refl) as (b1 & Hb1 & Hle).
  eapply IH; [done| |lia]. pose proof (br_usleep_us b 100000 ltac:(lia)). lia.
Qed.

(** C40. The bounded waits end: within 10001 turns a read has answered (1 s in
    steps of 5 ms for the lease, 1 s in steps of 100 us for the applied index),
    and within 600 turns a membership change has (60 s in steps of 100 ms). *)
Theorem raft_waits_end fuel n key serializable add peer :
  (10001 <= Z.of_nat fuel -> RaftNode_Get fuel n key serializable <> Done None) /\
  (600 <= Z.of_nat fuel -> ConfChange add fuel n peer <> Done None).
Proof.
  split; intros Hf.
  - unfold RaftNode_Get, local_get. destruct serializable.
    { by destruct (get_from_store _ _ _). }
    destruct (WaitLeaderLease fuel n kLeaseWaitMs) as [[[ok n1]|]|] eqn:El; simpl; try done.
    2: { unfold WaitLeaderLease, kLeaseWaitMs in El. destruct (rn_node n) as [b|] eqn:Eb; [|done].
         exfalso. eapply (lease_loop_ends (Z.to_nat 200)); [exact Eb| | |exact El]; lia. }
    destruct ok; [|by destruct (RaftNode_IsLeader n1)].
    destruct (WaitAppliedCatchUp fuel n1 kCatchupWaitMs) as [[[ok n2]|]|] eqn:Ec; simpl; try done.
    2: { unfold WaitAppliedCatchUp, kCatchupWaitMs in Ec.
         destruct (rn_node n1) as [b|] eqn:Eb; [|done].
         exfalso. eapply (catch_up_loop_ends (Z.to_nat 10000)); [exact Eb| | |exact Ec]; lia. }
    destruct ok; [|done]. by destruct (get_from_store _ _ _).
  - unfold ConfChange. destruct (rn_node n) as [b|]; [|done].
    destruct (negb _); [done|]. destruct (br_parse_peer peer) as [p|]; [|done]. simpl.
    destruct (conf_change_loop _ _ _ _) as [[n1|]|] eqn:El; simpl; try done.
    exfalso. unfold kConfChangeTimeoutSec in El.
    eapply (conf_change_loop_ends (Z.to_nat 600));  [| | |exact El];
      [reflexivity| |]; lia.
Qed.

(** A membership change answers OK only when the library has reported its
    success; a change still under way after the wait, a failed one, an address
    that does not parse and a node without raft are INTERNAL, and a node that is
    not the leader answers NOT_LEADER and starts nothing. *)
Theorem ConfChange_answer add fuel n peer r n' :
  ConfChange add fuel n peer = Done (Some (r, n')) ->
  match cc_code r with
  | OK => exists id, conf_change_done n' id = Some None
  | NOT_LEADER => RaftNode_IsLeader n = false /\ n' = n /\
                  cc_message r = "not leader, leader=" +:+ RaftNode_LeaderId n
  | INTERNAL => rn_node n = None \/ br_parse_peer (B := B) peer = None \/
      (exists id, conf_change_done n' id = None /\
                  cc_message r = conf_change_timeout_message add) \/
      (exists id err, conf_change_done n' id = Some (Some err) /\ cc_message r = err)
  | _ => False
  end.
Proof.
  unfold ConfChange. destruct (rn_node n) as [b|]; [|intros [= <- <-]; by left].
  destruct (RaftNode_IsLeader n) eqn:El; simpl; [|by intros [= <- <-]].
  destruct (br_parse_peer peer) as [p|] eqn:Ep; [|intros [= <- <-]; by right; left].
  destruct (conf_change_loop _ _ _ _) as [[n1|]|]; simpl; try done. intros [= <- <-].
  destruct (conf_change_done n1 (rn_next n)) as [[err|]|] eqn:Ed; simpl.
  - right; right; right. by exists (rn_next n), err.
  - by exists (rn_next n).
  - right; right; left. by exists (rn_next n).
Qed.
End ends.
