(* ===== verification/Cluster.v ===== *)
(** A group of nodes as its clients see it: the requests that any of them serves
    are linearizable with respect to the specification of the store.  Each node is
    a [RaftNode]; what the raft library guarantees across the group is the class
    [BraftGroup]. *)
From S2P Require Import Prelude CxxStd StoreKey Proto LevelDB Store StoreSpec StoreRepr StoreOps.
From S2P Require Import StoreRefine StoreScan StoreCompact StoreRun Replicas StoreLife WatchHub WatchCall Node StateMachine.
From S2P Require Import FsmTheorems RaftNode RaftTheorems.

(** * What the library guarantees across the group *)

(** [br_committed b] is the log the group has committed when one of its nodes is in
    state [b]: the data of the entries and, for each, the number of the proposal it
    comes from; [br_ticket b id] is the number of the proposal submitted with the
    closure [id].  Committed entries stay, a node hands over and reports committed
    entries only, a node whose lease is valid knows all of them, and a task becomes
    a new entry, which its closure comes back with. *)
Class BraftGroup (B : Type) `{BraftLog B} := {
  br_committed : B -> list (string * nat);
  br_ticket : B -> nat -> nat;
  br_committed_callbacks b : br_committed b `prefix_of` br_committed (snd (br_callbacks b));
  br_committed_usleep b us : br_committed b `prefix_of` br_committed (br_usleep b us);
  br_committed_apply b data term id :
    br_committed b `prefix_of` br_committed (br_apply b data term id);
  br_log_callbacks b : br_log b `prefix_of` br_log (snd (br_callbacks b));
  br_log_usleep b us : br_log b `prefix_of` br_log (br_usleep b us);
  br_delivered_committed b : br_delivered b `prefix_of` (br_committed b).*1;
  br_lease_committed b :
    br_get_leader_lease_status b = LEASE_VALID -> (br_committed b).*1 `prefix_of` br_log b;
  br_ticket_callbacks b id : br_ticket (snd (br_callbacks b)) id = br_ticket b id;
  br_ticket_apply b data term id : br_ticket (br_apply b data term id) id ∉ (br_committed b).*2;
  br_entry_ticket b cbs1 l1 e l2 cbs2 id :
    fst (br_callbacks b) = cbs1 ++ CbApply (l1 ++ e :: l2) :: cbs2 -> le_done e = Some id ->
    (br_committed (snd (br_callbacks b))).*2
      !! length (br_delivered b ++ callbacks_data cbs1 ++ (le_data <$> l1)) = Some (br_ticket b id)
}.

Lemma prefix_fmap {A C} (f : A -> C) (l k : list A) :
  l `prefix_of` k -> f <$> l `prefix_of` f <$> k.
Proof. intros [x ->]. rewrite fmap_app. by eexists. Qed.

Lemma omap_NoDup_ne {A C} (f : A -> option C) (l : list A) i j x y z :
  NoDup (omap f l) -> i <> j -> l !! i = Some x -> l !! j = Some y ->
  f x = Some z -> f y = Some z -> False.
Proof.
  revert i j. induction l as [|a l IH]; intros i j Hnd Hne Hi Hj Hx Hy; [done|].
  assert (forall k w, l !! k = Some w -> f w = Some z -> z ∈ omap f l) as Hin.
  { intros k w Hk Hw. apply list_elem_of_omap. exists w. split; [|done].
    by eapply list_elem_of_lookup_2. }
  destruct i as [|i], j as [|j]; simpl in *; simplify_eq.
  - rewrite Hx in Hnd. apply NoDup_cons in Hnd as [Hn _]. by eapply Hn, Hin.
  - rewrite Hy in Hnd. apply NoDup_cons in Hnd as [Hn _]. by eapply Hn, Hin.
  - apply (IH i j); try done; [|congruence]. destruct (f a); [by apply NoDup_cons in Hnd as [_ ?]|done].
Qed.

Section group.
Context {B : Type} `{BraftGroup B}.
Implicit Types b : B.

(** [b'] is a later state of the same node. *)
Definition later b b' : Prop :=
  br_committed b `prefix_of` br_committed b' /\ br_log b `prefix_of` br_log b'.

#[export] Instance later_preorder : PreOrder later.
Proof.
  split; [by intros b|]. intros b1 b2 b3 [] []. split; by etrans.
Qed.

Lemma later_callbacks b : later b (snd (br_callbacks b)).
Proof. split; [apply br_committed_callbacks|apply br_log_callbacks]. Qed.

Lemma later_usleep b us : later b (br_usleep b us).
Proof. split; [apply br_committed_usleep|apply br_log_usleep]. Qed.

(** What is known of an entry proposed under [id], from its submission on. *)
Lemma ticket_law (id tk : nat) (G : list (string * nat)) :
  place_law (fun b => br_ticket b id = tk /\ G `prefix_of` br_committed b)
    (fun b pre => (br_committed b).*2 !! length pre = Some tk) id.
Proof.
  intros b [Ht Hg]. split_and!.
  - by rewrite br_ticket_callbacks.
  - etrans; [exact Hg|apply br_committed_callbacks].
  - intros cbs1 l1 e l2 cbs2 E Hid. rewrite <-Ht. by eapply br_entry_ticket.
  - intros pre Hp. destruct (br_committed_callbacks b) as [k ->].
    rewrite fmap_app. by apply lookup_app_l_Some.
Qed.
End group.

Section waits.
Context `{KVCodec} `{CmdCodec} {DB B : Type} `{LevelDB DB} `{BraftGroup B}.
Implicit Types n : RaftNode DB B.

Lemma turn_later n n' b :
  turn n = Done n' -> rn_node n = Some b -> exists b', rn_node n' = Some b' /\ later b b'.
Proof.
  unfold turn. intros E Hb. rewrite Hb in E. pose proof (later_callbacks b) as Hl.
  destruct (br_callbacks b) as [cbs b']. destruct (handle_all _ _); simplify_eq/=. by exists b'.
Qed.

Lemma lease_loop_later fuel n dl ok n' b :
  lease_loop fuel n dl = Done (Some (ok, n')) -> rn_node n = Some b ->
  exists b', rn_node n' = Some b' /\ later b b'.
Proof.
  revert n b. induction fuel as [|fuel IH]; intros n b E Hb; simpl in E; [done|].
  destruct (turn n) as [n1|] eqn:Et; [|done]. simpl in E.
  destruct (turn_later _ _ _ Et Hb) as (b1 & Hb1 & Hl). rewrite Hb1 in E.
  assert (lease_loop fuel (with_node n1 (br_usleep b1 5000)) dl = Done (Some (ok, n')) ->
    exists b', rn_node n' = Some b' /\ later b b') as Hloop.
  { intros E'. destruct (IH _ _ E' eq_refl) as (b' & ? & ?). exists b'. split; [done|].
    etrans; [exact Hl|]. etrans; [apply later_usleep|done]. }
  destruct (br_get_leader_lease_status b1); simplify_eq; try (by exists b1).
  destruct (dl <=? _); [simplify_eq; by exists b1|by apply Hloop].
Qed.

Lemma catch_up_loop_later fuel n dl ok n' b :
  catch_up_loop fuel n dl = Done (Some (ok, n')) -> rn_node n = Some b ->
  exists b', rn_node n' = Some b' /\ later b b'.
Proof.
  revert n b. induction fuel as [|fuel IH]; intros n b E Hb; simpl in E; [done|].
  destruct (turn n) as [n1|] eqn:Et; [|done]. simpl in E.
  destruct (turn_later _ _ _ Et Hb) as (b1 & Hb1 & Hl). rewrite Hb1 in E.
  destruct (_ <=? ns_known_applied_index _); [simplify_eq; by exists b1|].
  destruct (dl <=? _); [simplify_eq; by exists b1|].
  destruct (IH _ _ E eq_refl) as (b' & ? & ?). exists b'. split; [done|].
  etrans; [exact Hl|]. etrans; [apply later_usleep|done].
Qed.
End waits.

(** * The specified answers *)

Section spec.
Context `{KVCodecSpec} `{CmdCodec} `{!CmdCodecSpec} {DB : Type} `{LevelDBSpec DB}.
Implicit Types (a : Mvcc) (log : list string) (st : Store DB).

Definition commands log : list RaftCmd := omap ParseCmd log.

(** The commands are valid, there is room for their revisions, and none rolls back
    to an explicit version, which a node may have reclaimed. *)
Definition log_ok a log : Prop :=
  Forall (fun cmd => cmd_valid cmd /\ reads_index cmd = false) (commands log) /\
  m_rev a + cmds_size (commands log) <= int64_max.

(** The store of a node of the group at its start: on a device that accepts
    writes, in a state equivalent to [a]. *)
Definition replica_of a st : Prop :=
  exists d dir b, st = mkStore (Some d) dir /\ Rep d b /\ b ≡ a /\
    forall d', rtc one_write d d' -> accepts_writes d'.

Lemma commands_app l1 l2 : commands (l1 ++ l2) = commands l1 ++ commands l2.
Proof. apply omap_app. Qed.

Lemma cmds_size_app l1 l2 : cmds_size (l1 ++ l2) = cmds_size l1 + cmds_size l2.
Proof. induction l1 as [|cmd l1 IH]; [done|]. simpl. rewrite IH. lia. Qed.

Lemma log_ok_prefix a l1 l2 : l1 `prefix_of` l2 -> log_ok a l2 -> log_ok a l1.
Proof.
  intros [k ->] [Hf Hs]. rewrite commands_app in Hf, Hs. rewrite cmds_size_app in Hs.
  apply Forall_app in Hf as [Hf _]. pose proof (cmds_size_nonneg (commands k)). split; [done|lia].
Qed.

Lemma spec_log_rev a cmds : m_rev (spec_log a cmds) <= m_rev a + cmds_size cmds.
Proof.
  revert a. induction cmds as [|cmd cmds IH]; intros a; simpl; [lia|].
  specialize (IH (spec_apply a cmd).1). pose proof (spec_apply_rev a cmd). lia.
Qed.

(** A command on a replica. *)
Lemma replica_apply a st cmd r st' :
  replica_of a st -> cmd_valid cmd -> reads_index cmd = false -> cmd_fits a cmd ->
  ApplyCmdToStore st cmd ApplyResult_default = Done (r, st') ->
  r = snd (spec_apply a cmd) /\ replica_of (fst (spec_apply a cmd)) st'.
Proof.
  intros (d & dir & b & -> & Hd & Hb & Hacc) Hv Hr Hf E.
  assert (cmd_fits b cmd) as Hf' by (unfold cmd_fits; by rewrite Hb).
  destruct (ApplyCmdToStore_refines d dir b cmd Hd Hv Hf') as (r0 & d' & E' & Hres).
  rewrite E in E'. injection E' as <- ->.
  destruct (ApplyCmdToStore_one_write _ _ _ _ _ _ E) as (d1 & [= <-] & Hw).
  destruct (spec_apply_equiv b a cmd Hb Hr) as [He1 He2].
  destruct Hres as [[-> Hd']|(_ & _ & Hn & _)]; [|by destruct Hn; apply Hacc].
  split; [done|]. exists d', dir, (fst (spec_apply b cmd)). split_and!; [done..|].
  intros d2 Hd2. apply Hacc. by eapply rtc_l.
Qed.

(** A compaction pass. *)
Lemma replica_compact a st keep removed st' :
  replica_of a st -> Compaction st keep = Done (removed, st') -> replica_of a st'.
Proof.
  intros (d & dir & b & -> & Hd & Hb & Hacc). unfold Compaction. simpl.
  destruct (CompactionLocked d d keep) as [[n d']|] eqn:E; [|done]. intros [= _ <-].
  pose proof (CompactionLocked_one_write _ _ _ _ _ E) as Hw.
  assert (forall d2, rtc one_write d' d2 -> accepts_writes d2) as Hacc'
    by (intros d2 Hd2; apply Hacc; by eapply rtc_l).
  destruct (CompactionLocked_refines d b keep Hd) as (n' & d1 & E' & _ & Hr).
  rewrite E in E'. simplify_eq. destruct Hr as [Hr|[_ Hr]].
  - exists d1, dir, (spec_reclaim (victims (Z.max 1 keep) (m_hist b)) b).
    split_and!; [done|done| |done]. by rewrite spec_reclaim_equiv.
  - by exists d1, dir, b.
Qed.

(** A node that has followed a log is a replica of the specified state. *)
Lemma log_run_replica a init D st :
  log_run init D st -> replica_of a init -> log_ok a D ->
  replica_of (spec_log a (commands D)) st.
Proof.
  intros Hl Hi. induction Hl as [|D data st Hl IH Hp|D data cmd r st st' Hl IH Hp E|
    D keep removed st st' Hl IH E]; intros Hok.
  - done.
  - rewrite commands_app. simpl. rewrite Hp, app_nil_r. apply IH.
    eapply log_ok_prefix; [|exact Hok]. by eexists.
  - assert (log_ok a D) as Hok' by (eapply log_ok_prefix; [by eexists|exact Hok]).
    unfold log_ok in Hok. rewrite commands_app in *. simpl in *. rewrite Hp in *.
    destruct Hok as [Hf Hs]. apply Forall_app in Hf as [_ Hf].
    apply Forall_cons in Hf as [[Hv Hr] _]. rewrite cmds_size_app in Hs. simpl in Hs.
    unfold spec_log. rewrite foldl_app. simpl. fold (spec_log a (commands D)).
    eapply replica_apply; [by apply IH|done|done| |exact E].
    unfold cmd_fits. pose proof (spec_log_rev a (commands D)). lia.
  - eapply replica_compact; [by apply IH|exact E].
Qed.

(** The same for a node that starts from what an earlier part of the log made of the
    initial state. *)
Lemma log_ok_after a D0 D : log_ok a (D0 ++ D) -> log_ok (spec_log a (commands D0)) D.
Proof.
  unfold log_ok. rewrite commands_app, cmds_size_app. intros [Hf Hs].
  apply Forall_app in Hf as [_ Hf]. split; [done|].
  pose proof (spec_log_rev a (commands D0)). lia.
Qed.

Lemma spec_log_app a l1 l2 : spec_log a (l1 ++ l2) = spec_log (spec_log a l1) l2.
Proof. apply foldl_app. Qed.

Lemma log_run_replica_after a D0 init D st :
  log_run init D st -> replica_of (spec_log a (commands D0)) init -> log_ok a (D0 ++ D) ->
  replica_of (spec_log a (commands (D0 ++ D))) st.
Proof.
  intros Hl Hi Hok. rewrite commands_app, spec_log_app.
  eapply log_run_replica; [exact Hl|exact Hi|by apply log_ok_after].
Qed.

(** A read on a replica. *)
Lemma replica_get a st key r :
  replica_of a st -> get_from_store st key GetResult_default = Done r ->
  match spec_get a key with
  | Some kv => gr_code r = OK /\ gr_kv r = kv
  | None => gr_code r = KEY_NOT_FOUND
  end.
Proof.
  intros (d & dir & b & -> & Hd & Hb & _). unfold get_from_store.
  rewrite (Get_rep _ _ _ _ Hd), Hb. destruct (spec_get a key); intros; by simplify_eq/=.
Qed.
End spec.

(** * Requests *)

(** A request that was answered, not refused: the instants at which it was received
    and answered, what was asked and answered, and the number of the proposal of a
    write. *)
Inductive operation :=
| Write (cmd : RaftCmd) (r : ApplyResult) (ticket : nat)
| Read (key : string) (r : GetResult).

Record request := mkRequest { rq_begin : nat; rq_end : nat; rq_op : operation }.

Definition ticket_of (q : request) : option nat :=
  match rq_op q with Write _ _ tk => Some tk | Read _ _ => None end.

Section requests.
Context `{KVCodecSpec} `{CmdCodec} `{!CmdCodecSpec} {DB B : Type} `{LevelDBSpec DB}.
Context `{Braft B} `{!BraftTasks B} `{!BraftLog B} `{!BraftGroup B}.
Context (a0 : Mvcc) (G : nat -> list (string * nat)).
Implicit Types (n : RaftNode DB B) (q : request).

(** A node of the group that runs no closure: its store follows the log from a store
    that represents what the first entries [D0] make of [a0]; there are none when the
    node was there from the beginning, those its snapshot covers when it was started
    from one (Recovery.v). *)
Definition member n (b : B) : Prop :=
  rn_node n = Some b /\ fs_runs (rn_fsm n) = [] /\
  exists init D0, replica_of (spec_log a0 (commands D0)) init /\
    fsm_since init D0 (rn_fsm n) (br_delivered b).

(** [G t] is the log the group has committed at the instant [t]. *)
Inductive served : request -> Prop :=
| ServedWrite t t' fuel n b cmd r n' b' :
    member n b -> br_committed b = G t -> cmd_valid cmd ->
    RaftNode_Apply fuel n cmd = Done (Some (r, n')) -> ~ refusal (ar_code r) ->
    rn_node n' = Some b' -> br_committed b' = G t' ->
    served (mkRequest t t' (Write cmd r (br_ticket (proposal n b cmd) (rn_next n))))
| ServedRead t t' fuel n b key r n' b' :
    member n b -> br_committed b = G t ->
    RaftNode_Get fuel n key false = Done (Some (r, n')) -> ~ refusal (gr_code r) ->
    rn_node n' = Some b' -> br_committed b' = G t' ->
    served (mkRequest t t' (Read key r)).

(** The answer the specification gives when the operation takes effect at position
    [p] of the log: a write is the entry before it, a read sees the entries before
    it. *)
Definition legal (log : list string) (op : operation) (p : nat) : Prop :=
  let state i := spec_log a0 (commands (take i log)) in
  match op with
  | Write cmd r _ => exists i, p = S i /\ log !! i = Some (SerializeCmd cmd) /\
      r = snd (spec_apply (state i) cmd)
  | Read key r => (p <= length log)%nat /\
      match spec_get (state p) key with
      | Some kv => gr_code r = OK /\ gr_kv r = kv
      | None => gr_code r = KEY_NOT_FOUND
      end
  end.

(** The position of a request lies between what was committed when it was received
    and when it was answered. *)
Definition explained (log : list (string * nat)) q (p : nat) : Prop :=
  legal log.*1 (rq_op q) p /\
  (length (G (rq_begin q)) <= p <= length (G (rq_end q)))%nat /\
  (forall tk, ticket_of q = Some tk ->
     (length (G (rq_begin q)) < p)%nat /\ log.*2 !! (p - 1)%nat = Some tk).

Lemma write_explained t t' cmd r tk n b fuel n' b' log :
  member n b -> br_committed b = G t -> cmd_valid cmd ->
  RaftNode_Apply fuel n cmd = Done (Some (r, n')) -> ~ refusal (ar_code r) ->
  rn_node n' = Some b' -> br_committed b' = G t' -> G t' `prefix_of` log -> log_ok a0 log.*1 ->
  tk = br_ticket (proposal n b cmd) (rn_next n) ->
  exists p, explained log (mkRequest t t' (Write cmd r tk)) p.
Proof.
  intros (Hb & Hruns & init & D0 & Hinit & D1 & HD1 & Hat) Hg Hv E Hr Hb' Hg' [rest ->] Hok ->.
  destruct (RaftNode_IsLeader n) eqn:Hl.
  2: { unfold RaftNode_Apply in E. rewrite Hl in E. simplify_eq/=. destruct Hr. by left. }
  set (tk := br_ticket (proposal n b cmd) (rn_next n)).
  destruct (RaftNode_Apply_place init D0 D1 _ _ fuel n b cmd r n' Hv Hruns
    (ticket_law (rn_next n) tk (G t)))
    as (b1 & D & Hb1 & [_ Hpre] & HD & _ & Ha); [split; [done|]|done|done|done|done|exact E|].
  { rewrite <-Hg. apply br_committed_apply. }
  rewrite Hb' in Hb1. injection Hb1 as <-. rewrite Hg' in *. simpl in HD, Ha.
  destruct Ha as [(pre & (st & st' & post & Hst & Ha & _ & Hp) & Htk)|?]; [|by destruct Hr; right].
  assert ((D0 ++ pre) ++ [SerializeCmd cmd] `prefix_of` (G t').*1) as [k Hk].
  { etrans; [|rewrite <-Hg'; apply br_delivered_committed]. rewrite HD, Hp. exists post.
    by rewrite <-!app_assoc. }
  revert Hst Htk Hk. set (at_ := D0 ++ pre). intros Hst Htk Hk.
  assert (length (G t) <= length at_)%nat as Hlen.
  { apply Nat.nlt_ge. intros Hlt. apply (br_ticket_apply b (SerializeCmd cmd)
      (if 0 <? leader_term_ (rn_fsm n) then Some (leader_term_ (rn_fsm n)) else None) (rn_next n)).
    rewrite Hg. fold (proposal n b cmd). fold tk. apply (list_elem_of_lookup_2 _ (length at_)).
    destruct Hpre as [x Hx]. rewrite Hx, fmap_app in Htk.
    rewrite lookup_app_l in Htk; [done|by rewrite length_fmap]. }
  assert (length at_ < length (G t'))%nat as Hlen'.
  { apply (f_equal length) in Hk. rewrite length_fmap, !length_app in Hk. simpl in Hk. lia. }
  rewrite fmap_app, Hk in Hok.
  exists (S (length at_)). split_and!; simpl; [|lia|lia|].
  - exists (length at_). rewrite fmap_app, Hk, <-!app_assoc. simpl.
    split_and!; [done|by rewrite list_lookup_middle|]. rewrite take_app_length.
    eapply replica_apply; [eapply log_run_replica_after; [exact Hst|exact Hinit|]|exact Hv| | |exact Ha];
      fold at_.
    + eapply log_ok_prefix; [|exact Hok]. rewrite <-!app_assoc. by eexists.
    + destruct Hok as [Hf _]. rewrite !commands_app in Hf. simpl in Hf.
      rewrite ParseCmd_SerializeCmd in Hf by done. rewrite !Forall_app, Forall_cons in Hf. by destruct_and!.
    + destruct Hok as [_ Hs]. rewrite !commands_app, !cmds_size_app in Hs. simpl in Hs.
      rewrite ParseCmd_SerializeCmd in Hs by done. simpl in Hs.
      unfold cmd_fits. pose proof (spec_log_rev a0 (commands at_)).
      pose proof (cmds_size_nonneg (commands k)). pose proof (cmds_size_nonneg (commands rest.*1)). lia.
  - intros tk' [= <-]. split; [lia|]. rewrite Nat.sub_0_r, fmap_app.
    by apply lookup_app_l_Some.
Qed.

Lemma read_explained t t' key r n b fuel n' b' log :
  member n b -> br_committed b = G t ->
  RaftNode_Get fuel n key false = Done (Some (r, n')) -> ~ refusal (gr_code r) ->
  rn_node n' = Some b' -> br_committed b' = G t' -> G t' `prefix_of` log -> log_ok a0 log.*1 ->
  exists p, explained log (mkRequest t t' (Read key r)) p.
Proof.
  intros (Hb & _ & init & D0 & Hinit & Hat) Hg E Hr Hb' Hg' [rest ->] Hok.
  destruct (RaftNode_Get_cases init D0 fuel n b key r n' Hb Hat E)
    as [[? _]|[[? _]|(n1 & b1 & b2 & El & Hb1 & Hv & Ec & Hb2 & _ & Hat2 & Hlog & _ & Hget)]];
    [by destruct Hr; left|by destruct Hr; right|].
  rewrite Hb' in Hb2. injection Hb2 as <-.
  unfold WaitLeaderLease in El. rewrite Hb in El.
  destruct (lease_loop_later _ _ _ _ _ _ El Hb) as (b1' & Hb1' & [Hc1 _]).
  rewrite Hb1 in Hb1'. injection Hb1' as <-.
  unfold WaitAppliedCatchUp in Ec. rewrite Hb1 in Ec.
  destruct (catch_up_loop_later _ _ _ _ _ _ Ec Hb1) as (b2 & Hb2 & [_ Hl2]).
  rewrite Hb' in Hb2. injection Hb2 as <-.
  assert ((G t).*1 `prefix_of` br_delivered b') as Hlow.
  { rewrite <-Hg. etrans; [by apply prefix_fmap|]. etrans; [by apply br_lease_committed|]. by etrans. }
  pose proof (br_delivered_committed b') as Hhigh. rewrite Hg' in Hhigh.
  exists (length (br_delivered b')). split_and!; simpl; [| | |done].
  - destruct Hhigh as [k Hk]. rewrite fmap_app, Hk, <-app_assoc in *. rewrite take_app_length.
    split; [rewrite length_app; lia|]. eapply replica_get; [|exact Hget].
    destruct Hat2 as (D & HD & Hat2). rewrite HD in *.
    eapply log_run_replica_after; [exact Hat2|exact Hinit|].
    eapply log_ok_prefix; [|exact Hok]. by eexists.
  - apply prefix_length in Hlow. by rewrite length_fmap in Hlow.
  - apply prefix_length in Hhigh. by rewrite length_fmap in Hhigh.
Qed.

Lemma served_explained q t :
  served q -> (forall t1 t2, (t1 <= t2)%nat -> G t1 `prefix_of` G t2) ->
  (rq_end q <= t)%nat -> log_ok a0 (G t).*1 -> exists p, explained (G t) q p.
Proof.
  intros Hq Hmono Ht Hok.
  destruct Hq; [eapply write_explained|eapply read_explained]; try done; by apply Hmono.
Qed.

Lemma explained_all qs t :
  Forall (fun q => served q /\ (rq_end q <= t)%nat) qs ->
  (forall t1 t2, (t1 <= t2)%nat -> G t1 `prefix_of` G t2) -> log_ok a0 (G t).*1 ->
  exists ps, Forall2 (explained (G t)) qs ps.
Proof.
  intros Hqs Hmono Hok. induction Hqs as [|q qs [Hq Ht] _ [ps IH]]; [by exists []|].
  destruct (served_explained q t Hq Hmono Ht Hok) as [p Hp]. exists (p :: ps). by constructor.
Qed.

(** C3. The group is linearizable.  Take any requests that nodes of the group have
    answered, commands on whoever was the leader and linearizable reads, while
    callbacks and compaction passes ran on each node; no command of the log rolls back
    to an explicit version, and the devices accept writes.  There is one order of them,
    the positions in the log of the group, that explains every answer: each
    command has the result, and each read the record, that the specification
    gives in the state the log before its position leads to from the common initial
    state; two commands never share a position; and a request that was answered
    before another was received takes effect no later, and strictly before it if the
    other is a command. *)
Theorem cluster_linearizable (t : nat) (qs : list request) :
  (forall t1 t2, (t1 <= t2)%nat -> G t1 `prefix_of` G t2) ->
  log_ok a0 (G t).*1 ->
  Forall (fun q => served q /\ (rq_end q <= t)%nat) qs -> NoDup (omap ticket_of qs) ->
  exists ps : list nat, length ps = length qs /\
    (forall i q p, qs !! i = Some q -> ps !! i = Some p -> legal (G t).*1 (rq_op q) p) /\
    (forall i j qi qj pi pj, qs !! i = Some qi -> ps !! i = Some pi ->
       qs !! j = Some qj -> ps !! j = Some pj -> (rq_end qi <= rq_begin qj)%nat ->
       (pi <= pj)%nat /\ (is_Some (ticket_of qj) -> (pi < pj)%nat)) /\
    (forall i j qi qj p, i <> j -> qs !! i = Some qi -> qs !! j = Some qj ->
       is_Some (ticket_of qi) -> is_Some (ticket_of qj) ->
       ps !! i = Some p -> ps !! j <> Some p).
Proof.
  intros Hmono Hok Hqs Hnd. destruct (explained_all qs t Hqs Hmono Hok) as [ps Hps].
  exists ps. split_and!.
  - symmetry. by eapply Forall2_length.
  - intros i q p Hq Hp. by destruct (Forall2_lookup_lr _ _ _ _ _ _ Hps Hq Hp).
  - intros i j qi qj pi pj Hqi Hpi Hqj Hpj Ht.
    destruct (Forall2_lookup_lr _ _ _ _ _ _ Hps Hqi Hpi) as (_ & [_ Hi] & _).
    destruct (Forall2_lookup_lr _ _ _ _ _ _ Hps Hqj Hpj) as (_ & [Hj _] & Hw).
    pose proof (prefix_length _ _ (Hmono _ _ Ht)). split; [lia|].
    intros [tk Htk]. destruct (Hw tk Htk). lia.
  - intros i j qi qj p Hne Hqi Hqj [tki Hi] [tkj Hj] Hpi Hpj.
    destruct (Forall2_lookup_lr _ _ _ _ _ _ Hps Hqi Hpi) as (_ & _ & Hwi).
    destruct (Forall2_lookup_lr _ _ _ _ _ _ Hps Hqj Hpj) as (_ & _ & Hwj).
    destruct (Hwi _ Hi) as [_ Ei], (Hwj _ Hj) as [_ Ej].
    rewrite Ei in Ej. injection Ej as <-. by apply (omap_NoDup_ne ticket_of qs i j qi qj tki).
Qed.
End requests.
