(* ===== verification/Recovery.v ===== *)
(** A group of nodes through snapshots and restarts (the snapshot callbacks of
    src/src/raft/state_machine.cpp and the start of a node in
    src/src/server/server.cpp and src/src/raft/raft_node.cpp).  The raft library
    keeps the committed log and one snapshot for each node; it decides when a
    snapshot is saved, hands a snapshot of one node to another that is behind, and,
    when a node starts, loads its snapshot and then hands over the entries behind
    it.  Any of these steps can come at any time. *)
From S2P Require Import Prelude CxxStd StoreKey Proto LevelDB Store StoreSpec StoreRepr StoreOps.
From S2P Require Import StoreRefine StoreScan StoreSnapshot StoreMaintenance StoreRun Replicas StoreLife.
From S2P Require Import WatchHub Node StateMachine FsmTheorems RaftNode RaftTheorems Cluster Demo.

(** * Nodes *)

(** [rp_fsm] is [None] while the process is not running, or after the library has
    stopped a node that could not load a snapshot.  [rp_applied] counts the entries
    of the log the state machine has been given or that its snapshot covers;
    [rp_saving]: [on_snapshot_save] has been called at this count and its bthread
    has not exported the store yet; [rp_snapshot]: the last snapshot saved or
    received, with the count the library keeps for it. *)
Record Replica (DB FS : Type) := mkReplica {
  rp_fsm : option (Fsm DB);
  rp_fs : FS;
  rp_applied : nat;
  rp_saving : option nat;
  rp_snapshot : option (nat * SnapshotData)
}.
Arguments mkReplica {DB FS}.
Arguments rp_fsm {DB FS}.
Arguments rp_fs {DB FS}.
Arguments rp_applied {DB FS}.
Arguments rp_saving {DB FS}.
Arguments rp_snapshot {DB FS}.

Record Group (DB FS : Type) := mkGroup {
  gr_log : list string;
  gr_nodes : gmap nat (Replica DB FS)
}.
Arguments mkGroup {DB FS}.
Arguments gr_log {DB FS}.
Arguments gr_nodes {DB FS}.

Section steps.
Context `{KVCodec} `{CmdCodec} {DB FS : Type} `{LevelDB DB} `{!LevelDBFiles DB FS}.
Implicit Types (r : Replica DB FS) (m : Fsm DB) (g : Group DB FS).

(** [on_snapshot_save] hands the work to a new bthread and returns. *)
Definition on_snapshot_save r : Replica DB FS :=
  mkReplica (rp_fsm r) (rp_fs r) (rp_applied r) (Some (rp_applied r)) (rp_snapshot r).

(** What the library keeps when the bthread has run [done]. *)
Definition snapshot_saved r (idx : nat) (status : Status) (data : option SnapshotData)
    : Replica DB FS :=
  mkReplica (rp_fsm r) (rp_fs r) (rp_applied r) None
    (match status, data with None, Some data => Some (idx, data) | _, _ => rp_snapshot r end).

(** A snapshot of the library is loaded; a node that fails is stopped. *)
Definition load_into r m (fs : FS) (idx : nat) (data : SnapshotData) : outcome (Replica DB FS) :=
  '(rc, m, fs) ← on_snapshot_load m fs 0 (Some data);
  Done (if rc =? 0 then mkReplica (Some m) fs idx None (Some (idx, data))
        else mkReplica None fs idx None (Some (idx, data))).

(** The process starts on the directory it finds: the server opens the store,
    [RaftNode::Init] gives it to a new state machine, and the library loads the
    node's snapshot when there is one. *)
Definition start_node r (hub : option WatchHub) (dir : string) : outcome (Replica DB FS) :=
  '(err, store, fs) ← Open (mkStore None "") (rp_fs r) dir;
  match err with
  | Some _ => Done (mkReplica None fs (rp_applied r) None (rp_snapshot r))
  | None =>
      let m := mkFsm store hub ∅ ∅ [] (-1) in
      match rp_snapshot r with
      | None => Done (mkReplica (Some m) fs 0 None None)
      | Some (idx, data) => load_into r m fs idx data
      end
  end.

(** The devices of the group accept writes, and an old directory can be removed. *)
Definition healthy r : Prop :=
  forall m d, rp_fsm r = Some m -> db_ (fs_store m) = Some d ->
    forall d', rtc one_write d d' -> accepts_writes d'.

Definition removable m (fs : FS) : Prop :=
  fst (fs_remove_all (snd (reset_db (fs_store m) fs)) (data_dir_ (fs_store m))) = true.

Definition removable_at (fs : FS) dir : Prop :=
  forall st fs', Open (mkStore (None : option DB) "") fs dir = Done (None, st, fs') ->
    fst (fs_remove_all (snd (reset_db st fs')) (data_dir_ st)) = true.

(** What a step says about itself: a snapshot counted for [idx] entries was exported
    after [applied] of them; a node without a snapshot started with this state in
    its directory. *)
Inductive label :=
| Plain
| Exported (idx applied : nat)
| StartedBare (st : Store DB).

Inductive node_step (log : list string) : label -> Replica DB FS -> Replica DB FS -> Prop :=
| NodeCallback r m cb m' :
    rp_fsm r = Some m -> handle m cb = Done m' ->
    take (length (callback_entries cb)) (drop (rp_applied r) log) =
      le_data <$> callback_entries cb ->
    node_step log Plain r
      (mkReplica (Some m') (rp_fs r) (rp_applied r + length (callback_entries cb))
         (rp_saving r) (rp_snapshot r))
| NodeSave r : is_Some (rp_fsm r) -> rp_saving r = None ->
    node_step log Plain r (on_snapshot_save r)
| NodeExport r m idx save add_file status data :
    rp_fsm r = Some m -> rp_saving r = Some idx ->
    save_snapshot m save add_file = Done (status, data) ->
    node_step log (Exported idx (rp_applied r)) r (snapshot_saved r idx status data)
| NodeStop r fs :
    node_step log Plain r (mkReplica None fs (rp_applied r) None (rp_snapshot r))
| NodeRestart r hub dir r' :
    rp_fsm r = None -> is_Some (rp_snapshot r) -> removable_at (rp_fs r) dir ->
    start_node r hub dir = Done r' -> healthy r' -> node_step log Plain r r'
| NodeStartBare r hub dir m r' :
    rp_fsm r = None -> rp_snapshot r = None ->
    start_node r hub dir = Done r' -> rp_fsm r' = Some m ->
    node_step log (StartedBare (fs_store m)) r r'.

Inductive group_step : label -> Group DB FS -> Group DB FS -> Prop :=
| GroupCommit g data : group_step Plain g (mkGroup (gr_log g ++ [data]) (gr_nodes g))
| GroupNode g i l r r' :
    gr_nodes g !! i = Some r -> node_step (gr_log g) l r r' ->
    group_step l g (mkGroup (gr_log g) (<[i := r']> (gr_nodes g)))
| GroupInstall g i j r s m idx data r' :
    gr_nodes g !! i = Some s -> rp_snapshot s = Some (idx, data) ->
    gr_nodes g !! j = Some r -> rp_fsm r = Some m -> (rp_applied r < idx)%nat ->
    removable m (rp_fs r) -> load_into r m (rp_fs r) idx data = Done r' -> healthy r' ->
    group_step Plain g (mkGroup (gr_log g) (<[j := r']> (gr_nodes g))).
End steps.
Arguments label : clear implicits.

(** * Every orderly run keeps the nodes together *)

Section recovery.
Context `{KVCodecSpec} `{CmdCodec} `{!CmdCodecSpec} {DB FS : Type} `{LevelDBFilesSpec DB FS}.
Context (a0 : Mvcc).
Implicit Types (r : Replica DB FS) (m : Fsm DB) (g : Group DB FS) (log : list string).

(** A snapshot holds what it is counted for, and a node without one starts from the
    initial state. *)
Definition orderly (l : label DB) : Prop :=
  match l with
  | Plain => True
  | Exported idx applied => idx = applied
  | StartedBare st => replica_of a0 st
  end.

Definition orderly_step g g' : Prop := exists l, orderly l /\ group_step l g g'.

(** What the first [n] entries of the log make of the initial state. *)
Definition state_at log (n : nat) : Mvcc := spec_log a0 (commands (take n log)).

Definition snapshot_at log (idx : nat) (data : SnapshotData) : Prop :=
  (idx <= length log)%nat /\ exists b, wf b /\ snapshot_of b data /\ b ≡ state_at log idx.

Definition node_ok log r : Prop :=
  (forall m, rp_fsm r = Some m ->
     (rp_applied r <= length log)%nat /\ replica_of (state_at log (rp_applied r)) (fs_store m)) /\
  (forall idx data, rp_snapshot r = Some (idx, data) -> snapshot_at log idx data).

Definition group_ok g : Prop := map_Forall (fun _ => node_ok (gr_log g)) (gr_nodes g).

Lemma state_at_app log e n : (n <= length log)%nat -> state_at (log ++ e) n = state_at log n.
Proof. intros Hn. unfold state_at. by rewrite take_app_le. Qed.

Lemma node_ok_app log e r : node_ok log r -> node_ok (log ++ e) r.
Proof.
  intros [Hm Hs]. split.
  - intros m E. destruct (Hm m E) as [? ?]. rewrite length_app, state_at_app by done. split; [lia|done].
  - intros idx data E. destruct (Hs _ _ E) as (? & b & ? & ? & ?). split; [rewrite length_app; lia|].
    exists b. by rewrite state_at_app.
Qed.

Lemma healthy_replica r m a d dir b :
  healthy r -> rp_fsm r = Some m -> fs_store m = mkStore (Some d) dir -> Rep d b -> b ≡ a ->
  replica_of a (fs_store m).
Proof.
  intros Hh Hm Hs Hd Hb. exists d, dir, b. split_and!; [done..|]. apply (Hh m d Hm). by rewrite Hs.
Qed.

Lemma load_into_ok log r m fs idx data r' :
  snapshot_at log idx data -> removable m fs -> load_into r m fs idx data = Done r' ->
  healthy r' -> node_ok log r'.
Proof.
  intros Hsd Hrm E Hh. unfold load_into, on_snapshot_load in E. simpl in E.
  destruct (LoadSnapshot (fs_store m) fs data) as [[[err st] fs1]|] eqn:El; [|done].
  destruct err as [err|]; simpl in E; simplify_eq.
  - split; [done|]. simpl. by intros ?? [= <- <-].
  - split; simpl; [|by intros ?? [= <- <-]]. intros m' Em.
    destruct Hsd as (Hle & b & Hw & Hs & Hb). split; [done|].
    destruct (LoadSnapshot_of b data _ _ _ _ Hw Hs El Hrm) as (d & -> & Hd).
    eapply (healthy_replica _ m'); [exact Hh|exact Em| |exact Hd|exact Hb].
    by injection Em as <-.
Qed.

Lemma start_node_ok log r hub dir r' idx data :
  rp_snapshot r = Some (idx, data) -> snapshot_at log idx data -> removable_at (rp_fs r) dir ->
  start_node r hub dir = Done r' -> healthy r' -> node_ok log r'.
Proof.
  intros Hs Hsd Hrm E Hh. unfold start_node in E.
  destruct (Open _ _ _) as [[[err st] fs]|] eqn:Eo; [|done]. simpl in E.
  destruct err as [err|]; [simplify_eq; split; [done|]|].
  - simpl. rewrite Hs. by intros ?? [= <- <-].
  - rewrite Hs in E. eapply load_into_ok; [exact Hsd| |exact E|exact Hh].
    unfold removable. simpl. by apply Hrm.
Qed.

Lemma callback_ok log r m cb m' :
  log_ok a0 log -> node_ok log r -> rp_fsm r = Some m -> handle m cb = Done m' ->
  take (length (callback_entries cb)) (drop (rp_applied r) log) = le_data <$> callback_entries cb ->
  node_ok log (mkReplica (Some m') (rp_fs r) (rp_applied r + length (callback_entries cb))
    (rp_saving r) (rp_snapshot r)).
Proof.
  intros Hok [Hm Hs] Em E Hl. destruct (Hm m Em) as [Hle Hr]. split; [|exact Hs].
  simpl. intros ? [= <-].
  assert (take (rp_applied r + length (callback_entries cb)) log =
    take (rp_applied r) log ++ (le_data <$> callback_entries cb)) as Ht.
  { rewrite <-Hl. symmetry. apply take_take_drop. }
  assert (rp_applied r + length (callback_entries cb) <= length log)%nat as Hlen.
  { apply (f_equal length) in Hl. rewrite length_take, length_drop, length_fmap in Hl. lia. }
  split; [done|]. unfold state_at. rewrite Ht.
  eapply log_run_replica_after; [|exact Hr|].
  - apply (handle_at (fs_store m) m cb m' [] (LogInit _) E).
  - eapply log_ok_prefix; [|exact Hok]. rewrite <-Ht.
    exists (drop (rp_applied r + length (callback_entries cb)) log). by rewrite take_drop.
Qed.

Lemma export_ok log r m save add_file status data :
  node_ok log r -> rp_fsm r = Some m -> save_snapshot m save add_file = Done (status, data) ->
  node_ok log (snapshot_saved r (rp_applied r) status data).
Proof.
  intros [Hm Hs] Em E. split; [exact Hm|]. simpl.
  destruct status as [err|]; [exact Hs|]. destruct data as [data|]; [|exact Hs].
  intros ?? [= <- <-]. destruct (Hm m Em) as (Hle & d & dir & b & Est & Hd & Hb & _).
  split; [done|]. exists b. split_and!; [by eapply rep_wf| |done].
  unfold save_snapshot in E. rewrite Est in E. simpl in E.
  assert (data = ExportSnapshotLocked d) as ->.
  { destruct (negb _); [done|]. destruct (negb _); by simplify_eq. }
  by apply ExportSnapshotLocked_refines.
Qed.

Lemma node_step_ok log l r r' :
  orderly l -> log_ok a0 log -> node_ok log r -> node_step log l r r' -> node_ok log r'.
Proof.
  intros Hl Hok Hr Hst. destruct Hst as [r m cb m' Em E Hd|r Hm Hs|r m idx save af st data Em Hs E|
    r fs|r hub dir r' Em Hs Hrm E Hh|r hub dir m r' Em Hs E Em'].
  - by eapply callback_ok.
  - exact Hr.
  - simpl in Hl. subst idx. by eapply export_ok.
  - split; [done|]. apply Hr.
  - destruct Hs as [[idx data] Hs]. eapply start_node_ok; [exact Hs| |exact Hrm|exact E|exact Hh].
    by apply Hr.
  - simpl in Hl. unfold start_node in E. destruct (Open _ _ _) as [[[err st] fs]|]; [|done].
    simpl in E. destruct err; [by simplify_eq|]. rewrite Hs in E. simplify_eq/=.
    split; [|done]. simpl. intros ? [= <-]. split; [lia|]. exact Hl.
Qed.

Lemma group_step_ok g g' :
  orderly_step g g' -> log_ok a0 (gr_log g') -> group_ok g -> group_ok g'.
Proof.
  intros (l & Hl & Hst) Hok Hg. destruct Hst as [g data|g i l r r' Hi Hst|
    g i j r s m idx data r' Hi Hs Hj Em Hlt Hrm E Hh]; simpl in *.
  - intros i r Hi. apply node_ok_app. by eapply Hg.
  - apply map_Forall_insert_2; [|exact Hg]. eapply node_step_ok; [done|done| |exact Hst]. by eapply Hg.
  - apply map_Forall_insert_2; [|exact Hg].
    eapply load_into_ok; [|exact Hrm|exact E|exact Hh]. destruct (Hg _ _ Hi) as [_ Hsn]. by apply Hsn.
Qed.

Lemma orderly_step_log g g' : orderly_step g g' -> gr_log g `prefix_of` gr_log g'.
Proof. intros (l & _ & Hst). destruct Hst; simpl; [by eexists|done..]. Qed.

Lemma group_run_ok g g' :
  rtc orderly_step g g' -> log_ok a0 (gr_log g') -> group_ok g -> group_ok g'.
Proof.
  intros Hr. induction Hr as [g|g g1 g' Hst Hr IH]; [done|]. intros Hok Hg. apply IH; [done|].
  eapply group_step_ok; [exact Hst| |exact Hg]. eapply log_ok_prefix; [|exact Hok].
  clear -Hr. induction Hr as [|g g1 g' Hst _ IH]; [done|].
  etrans; [by apply orderly_step_log|exact IH].
Qed.
(** A group before any node has been started. *)
Definition fresh g : Prop :=
  gr_log g = [] /\
  map_Forall (fun _ r => rp_fsm r = None /\ rp_snapshot r = None) (gr_nodes g).

Lemma fresh_ok g : fresh g -> group_ok g.
Proof. intros [_ Hf] i r Hi. destruct (Hf _ _ Hi) as [Hm Hs]. split; congruence. Qed.

(** A node that is running is the member of the group that Cluster.v speaks of. *)
Lemma replica_reads a st :
  replica_of a st ->
  CurrentRevision st = Done (m_rev a) /\
  forall key, Get st key =
    Done (match spec_get a key with Some kv => (Some kv, OK) | None => (None, KEY_NOT_FOUND) end).
Proof.
  intros (d & dir & b & -> & Hd & Hb & _). split.
  - unfold CurrentRevision, read_db. simpl. by rewrite (CurrentRevisionLocked_rep _ _ Hd), Hb.
  - intros key. rewrite (Get_rep _ _ _ _ Hd). by rewrite Hb.
Qed.

Lemma log_ok_next log n cmd :
  log_ok a0 log -> log !! n = Some (SerializeCmd cmd) -> cmd_valid cmd ->
  reads_index cmd = false /\ cmd_fits (state_at log n) cmd.
Proof.
  intros [Hc Hs] Hnext%take_drop_middle Hv.
  rewrite <-Hnext, commands_app in Hc, Hs. rewrite cmds_size_app in Hs. simpl in Hc, Hs.
  rewrite ParseCmd_SerializeCmd in Hc, Hs by done. simpl in Hs.
  rewrite Forall_app, Forall_cons in Hc. split; [by destruct_and!|]. unfold cmd_fits, state_at.
  pose proof (spec_log_rev a0 (commands (take n log))).
  pose proof (cmds_size_nonneg (commands (drop (S n) log))). unfold commands in *. lia.
Qed.

(** C4. Nodes recover.  Take any run of a group: entries committed and handed over,
    compaction passes, snapshots saved by any node, snapshots of one node loaded by
    another that is behind, processes that stop or crash at any time with anything
    left in their data directory, and started again.  If every snapshot is exported
    before another entry is applied, and a node that is started without a snapshot
    finds the initial state, then every running node has the revision, the current
    record of every key and the result of the next command that the entries it has
    applied, or its snapshot covers, give from the initial state; so two nodes at the
    same place of the log never differ in these.  As everywhere for groups, the
    devices accept writes and no command of the log rolls back to an explicit version;
    and the old directory can be removed when a snapshot is loaded.  The history and
    the old published versions, which compaction and snapshots take away, are not
    part of it. *)
Theorem group_recovers g0 g i r m :
  fresh g0 -> rtc orderly_step g0 g -> log_ok a0 (gr_log g) ->
  gr_nodes g !! i = Some r -> rp_fsm r = Some m ->
  let a := spec_log a0 (commands (take (rp_applied r) (gr_log g))) in
  (rp_applied r <= length (gr_log g))%nat /\
  CurrentRevision (fs_store m) = Done (m_rev a) /\
  (forall key, Get (fs_store m) key =
     Done (match spec_get a key with Some kv => (Some kv, OK) | None => (None, KEY_NOT_FOUND) end)) /\
  (forall cmd res st, gr_log g !! rp_applied r = Some (SerializeCmd cmd) -> cmd_valid cmd ->
     ApplyCmdToStore (fs_store m) cmd ApplyResult_default = Done (res, st) ->
     res = snd (spec_apply a cmd)) /\
  (forall j r' m', gr_nodes g !! j = Some r' -> rp_fsm r' = Some m' ->
     rp_applied r' = rp_applied r ->
     CurrentRevision (fs_store m') = CurrentRevision (fs_store m) /\
     forall key, Get (fs_store m') key = Get (fs_store m) key).
Proof.
  intros Hf Hr Hok Hi Em a.
  pose proof (group_run_ok _ _ Hr Hok (fresh_ok _ Hf)) as Hg.
  destruct (proj1 (Hg _ _ Hi) _ Em) as [Hle Hrep].
  destruct (replica_reads _ _ Hrep) as [Hrev Hget]. split_and!; [done|done|done|..].
  - intros cmd res st Hnext Hv E. destruct (log_ok_next _ _ _ Hok Hnext Hv) as [? ?].
    by eapply replica_apply.
  - intros j r' m' Hj Em' Ha. destruct (proj1 (Hg _ _ Hj) _ Em') as [_ Hrep'].
    rewrite Ha in Hrep'. destruct (replica_reads _ _ Hrep') as [Hrev' Hget'].
    rewrite Hrev, Hrev'. split; [done|]. intros key. by rewrite Hget, Hget'.
Qed.
(** The running nodes are members of the group in the sense of Cluster.v, so what
    they answer to clients is linearizable with the rest. *)
Lemma running_member {B} `{Braft B} `{!BraftTasks B} `{!BraftLog B} `{!BraftGroup B}
    g0 g i r m (n : RaftNode DB B) (b : B) :
  fresh g0 -> rtc orderly_step g0 g -> log_ok a0 (gr_log g) ->
  gr_nodes g !! i = Some r -> rp_fsm r = Some m -> fs_runs m = [] ->
  rn_fsm n = m -> rn_node n = Some b -> br_delivered b = take (rp_applied r) (gr_log g) ->
  member a0 n b.
Proof.
  intros Hf Hr Hok Hi Em Hruns Hn Hb Hd.
  destruct (proj1 (group_run_ok _ _ Hr Hok (fresh_ok _ Hf) _ _ Hi) _ Em) as [_ Hrep].
  split; [done|]. split; [by rewrite Hn|]. exists (fs_store m), (br_delivered b).
  split; [by rewrite Hd|]. exists []. rewrite app_nil_r. split; [done|]. rewrite Hn. constructor.
Qed.
End recovery.
