(* ===== verification/RaftSpec.v ===== *)
(** The cluster node keeps the promise of the node interface, so what is proved of
    the services holds in cluster mode too: between a request and its answer other
    clients' commands are applied and compaction passes run
    (src/src/raft/raft_node.cpp behind src/src/raft/node.h). *)
From S2P Require Import Prelude CxxStd StoreKey Proto LevelDB Store StoreSpec StoreRepr StoreOps.
From S2P Require Import StoreRefine StoreScan StoreCompact Replicas WatchHub WatchCall Node.
From S2P Require Import StateMachine FsmTheorems RaftNode RaftTheorems Cluster.

Section log_run.
Context `{KVCodecSpec} `{CmdCodec} {DB : Type} `{LevelDBSpec DB}.
Implicit Types (st : Store DB) (a : Mvcc).

(** [st] holds the state [a]. *)
Definition store_rep st a : Prop := exists d dir, st = mkStore (Some d) dir /\ Rep d a.

Definition cmds_ok a (cmds : list RaftCmd) : Prop :=
  Forall cmd_valid cmds /\ m_rev a + cmds_size cmds <= int64_max.

(** [b] is the state after commands of the total size [size], some of which the
    device may have refused, and compaction passes. *)
Definition steps_to a (size : Z) b : Prop := rtc store_step a b /\ m_rev b <= m_rev a + size.

Lemma steps_to_trans a k1 b k2 c : steps_to a k1 b -> steps_to b k2 c -> steps_to a (k1 + k2) c.
Proof. intros [H1' ?] [H2' ?]. split; [by etrans|lia]. Qed.

Lemma store_rep_apply st a cmd r st' :
  store_rep st a -> cmd_valid cmd -> cmd_fits a cmd ->
  ApplyCmdToStore st cmd ApplyResult_default = Done (r, st') ->
  (r = snd (spec_apply a cmd) /\ store_rep st' (fst (spec_apply a cmd))) \/
  (ar_code r = INTERNAL /\ store_rep st' a).
Proof.
  intros (d & dir & -> & Hd) Hv Hf E.
  destruct (ApplyCmdToStore_refines d dir a cmd Hd Hv Hf) as (r0 & d' & E' & Hres).
  rewrite E in E'. simplify_eq.
  destruct Hres as [[-> Hd']|(? & _ & _ & Hd')]; [left|right]; (split; [done|by exists d', dir]).
Qed.

Lemma log_run_steps st D st' a :
  log_run st D st' -> store_rep st a -> cmds_ok a (commands D) ->
  exists b, store_rep st' b /\ steps_to a (cmds_size (commands D)) b.
Proof.
  intros Hl Ha. induction Hl as [|D data st1 Hl IH Hp|D data cmd r st1 st2 Hl IH Hp E|
    D keep removed st1 st2 Hl IH E]; intros Hok.
  - exists a. split; [done|]. split; [done|]. simpl. lia.
  - rewrite commands_app in *. simpl in *. rewrite Hp, app_nil_r in *. by apply IH.
  - unfold cmds_ok in *. rewrite commands_app, cmds_size_app in *. simpl in *. rewrite Hp in *.
    simpl in *. destruct Hok as [Hf Hs]. apply Forall_app in Hf as [Hf [Hv _]%Forall_cons].
    assert (0 <= cmd_size cmd) by (destruct cmd; simpl; lia).
    destruct IH as (b & Hb & Hab); [split; [done|lia]|]. pose proof Hab as [_ Hrev].
    assert (cmd_fits b cmd) as Hfit by (unfold cmd_fits; lia).
    destruct (store_rep_apply _ _ _ _ _ Hb Hv Hfit E) as [[_ Hb2]|[_ Hb2]].
    + exists (fst (spec_apply b cmd)). split; [done|]. eapply steps_to_trans; [done|].
      split; [by apply rtc_once, StepApply|]. pose proof (spec_apply_rev b cmd). lia.
    + exists b. split; [done|]. eapply steps_to_trans; [done|]. split; [done|lia].
  - destruct (IH Hok) as (b & (d & dir & -> & Hd) & Hab). unfold Compaction in E. simpl in E.
    destruct (CompactionLocked_refines d b keep Hd) as (n & d' & E' & _ & Hr).
    rewrite E' in E. simplify_eq/=. destruct Hr as [Hr|[_ Hr]].
    + eexists. split; [by exists d', dir|].
      rewrite <-(Z.add_0_r (cmds_size _)). eapply steps_to_trans; [done|]. split; [|simpl; lia].
      apply rtc_once. apply (step_compact b keep). by eapply rep_wf.
    + exists b. split; [by exists d', dir|done].
Qed.
End log_run.

Section spec.
Context `{KVCodecSpec} `{CmdCodec} `{!CmdCodecSpec} {DB B : Type} `{LevelDBSpec DB}.
Context `{Braft B} `{!BraftTasks B} `{!BraftLog B} (base : Z) (fuel : nat).
Implicit Types (n : RaftNode DB B) (o : @RaftNodeObj DB B) (a : Mvcc).

(** The revisions used so far are at most those of the entries delivered. *)
Definition raft_rep o a : Prop := exists n b, o = RnInitialized n /\ rn_node n = Some b /\
  fs_runs (rn_fsm n) = [] /\ store_rep (fs_store (rn_fsm n)) a /\
  m_rev a <= base + cmds_size (commands (br_delivered b)).

(** The entries delivered are valid commands, and there is room for them. *)
Definition raft_within o : Prop := exists n b, o = RnInitialized n /\ rn_node n = Some b /\
  Forall cmd_valid (commands (br_delivered b)) /\
  base + cmds_size (commands (br_delivered b)) <= int64_max.

Lemma within_suffix n b a D0 D :
  raft_within (RnInitialized n) -> rn_node n = Some b -> br_delivered b = D0 ++ D ->
  m_rev a <= base + cmds_size (commands D0) ->
  cmds_ok a (commands D).
Proof.
  intros (n0 & b0 & [= <-] & Hb0 & Hv & Hs) Hb HD Ha. rewrite Hb in Hb0. injection Hb0 as <-.
  rewrite HD, commands_app in *. rewrite cmds_size_app in Hs. apply Forall_app in Hv as [_ ?].
  split; [done|lia].
Qed.

(** The node at the end of a call during which the entries [D] were delivered. *)
Lemma raft_rep_end n n' b b' a D :
  rn_node n = Some b -> rn_node n' = Some b' -> br_delivered b' = br_delivered b ++ D ->
  fs_runs (rn_fsm n') = [] -> store_rep (fs_store (rn_fsm n)) a ->
  m_rev a <= base + cmds_size (commands (br_delivered b)) -> raft_within (RnInitialized n') ->
  log_run (fs_store (rn_fsm n)) D (fs_store (rn_fsm n')) ->
  exists a', rtc store_step a a' /\ raft_rep (RnInitialized n') a' /\
    store_rep (fs_store (rn_fsm n')) a'.
Proof.
  intros Hb Hb' HD Hruns Ha Hrev Hw Hl.
  destruct (log_run_steps _ _ _ _ Hl Ha) as (a' & Ha' & [Hs Hr]); [by eapply within_suffix|].
  exists a'. split; [done|]. split; [|done]. exists n', b'. split_and!; try done.
  rewrite HD, commands_app, cmds_size_app. lia.
Qed.

Lemma initialized_Done {A} (f : RaftNode DB B -> outcome (option (A * RaftNode DB B)))
    created n r o' :
  initialized f created (RnInitialized n) = Done (Some (r, o')) ->
  exists n', f n = Done (Some (r, n')) /\ o' = RnInitialized n'.
Proof.
  simpl. destruct (f n) as [[[r0 n0]|]|]; simpl; intros E; simplify_eq. by exists n0.
Qed.

Lemma raft_Apply n a cmd r n' :
  raft_rep (RnInitialized n) a -> cmd_valid cmd ->
  RaftNode_Apply fuel n cmd = Done (Some (r, n')) -> raft_within (RnInitialized n') ->
  (exists a1 a2, rtc store_step a a1 /\ cmd_fits a1 cmd /\ r = snd (spec_apply a1 cmd) /\
     rtc store_step (fst (spec_apply a1 cmd)) a2 /\ raft_rep (RnInitialized n') a2) \/
  (refusal (ar_code r) /\ exists a2, rtc store_step a a2 /\ raft_rep (RnInitialized n') a2).
Proof.
  intros Hn Hv E Hw. pose proof Hn as (n0 & b & [= <-] & Hb & Hruns & Ha & Hrev).
  destruct (RaftNode_IsLeader n) eqn:El.
  2: { right. unfold RaftNode_Apply in E. rewrite El in E. simplify_eq/=. split; [by left|].
       by exists a. }
  destruct (RaftNode_Apply_place (fs_store (rn_fsm n)) (br_delivered b) [] (fun _ => True)
    (fun _ _ => True) fuel n b cmd r n') as (b' & D & Hb' & _ & HD & Hat & Hr); try done.
  { by rewrite app_nil_r. }
  { constructor. }
  pose proof (RaftNode_Apply_runs _ _ _ _ _ E Hruns) as Hruns'.
  destruct Hr as [(pre & (st & st' & post & Hpre & Hap & Hpost & HDeq) & _)|Hr].
  2: { right. split; [by right|].
       destruct (raft_rep_end n n' b b' a D) as (a' & ? & ? & _); try done. by exists a'. }
  assert (cmds_ok a (commands D)) as Hok by by eapply within_suffix.
  rewrite HDeq, cons_middle, !commands_app in Hok. simpl in Hok.
  rewrite ParseCmd_SerializeCmd in Hok by done. destruct Hok as [Hf Hs].
  rewrite !cmds_size_app in Hs. simpl in Hs. apply Forall_app in Hf as [Hf1 Hf2].
  apply Forall_app in Hf2 as [_ Hf2]. pose proof (cmds_size_nonneg (commands post)).
  assert (0 <= cmd_size cmd) by (destruct cmd; simpl; lia).
  destruct (log_run_steps _ _ _ _ Hpre Ha) as (a1 & Ha1 & [Hs1 Hr1]); [split; [done|lia]|].
  assert (cmd_fits a1 cmd) as Hfit by (unfold cmd_fits; lia).
  pose proof (spec_apply_rev a1 cmd).
  assert (forall a2, m_rev a2 <= m_rev a1 + cmd_size cmd -> store_rep st' a2 ->
    exists a3, rtc store_step a2 a3 /\ raft_rep (RnInitialized n') a3) as Hend.
  { intros a2 Hr2 Ha2. destruct (log_run_steps _ _ _ _ Hpost Ha2) as (a3 & Ha3 & [Hs3 Hr3]);
      [split; [done|lia]|]. exists a3. split; [done|]. exists n', b'. split_and!; try done.
    rewrite HD, HDeq, cons_middle, !commands_app, !cmds_size_app. simpl.
    rewrite ParseCmd_SerializeCmd by done. simpl. lia. }
  destruct (store_rep_apply _ _ _ _ _ Ha1 Hv Hfit Hap) as [[-> Ha2]|[Hc Ha2]].
  - left. destruct (Hend (fst (spec_apply a1 cmd))) as (a3 & ? & ?); [lia|done|].
    by exists a1, a3.
  - right. split; [by right|]. destruct (Hend a1) as (a3 & ? & ?); [lia|done|].
    exists a3. split; [by etrans|done].
Qed.

(** A read in state [a]. *)
Lemma store_rep_get st a key r :
  store_rep st a -> get_from_store st key GetResult_default = Done r ->
  r = match spec_get a key with
      | Some kv => mkGetResult OK "" kv [] ""
      | None => mkGetResult KEY_NOT_FOUND "key not found" KV_default [] ""
      end.
Proof.
  intros (d & dir & -> & Hd). unfold get_from_store. rewrite (Get_rep _ _ _ _ Hd).
  destruct (spec_get a key); intros; by simplify_eq/=.
Qed.

Lemma raft_Get n a key s r n' :
  raft_rep (RnInitialized n) a -> RaftNode_Get fuel n key s = Done (Some (r, n')) ->
  raft_within (RnInitialized n') ->
  exists a', rtc store_step a a' /\ raft_rep (RnInitialized n') a' /\
  (refusal (gr_code r) \/
   r = match spec_get a' key with
       | Some kv => mkGetResult OK "" kv [] ""
       | None => mkGetResult KEY_NOT_FOUND "key not found" KV_default [] ""
       end).
Proof.
  intros Hn E Hw. pose proof Hn as (n0 & b & [= <-] & Hb & Hruns & Ha & Hrev). destruct s.
  { unfold RaftNode_Get, local_get in E.
    destruct (get_from_store _ _ _) as [out|] eqn:Eg; simplify_eq/=. exists a.
    split_and!; [done|done|right]. by eapply store_rep_get. }
  assert (fsm_since (fs_store (rn_fsm n)) (br_delivered b) (rn_fsm n) (br_delivered b)) as Hat.
  { exists []. rewrite app_nil_r. split; [done|constructor]. }
  destruct (RaftNode_Get_ahead (fs_store (rn_fsm n)) (br_delivered b) fuel n key r n' E b Hb Hat)
    as (b' & Hb' & (D & HD & Hat') & _).
  pose proof (RaftNode_Get_runs _ _ _ _ _ _ E Hruns) as Hruns'.
  destruct (raft_rep_end n n' b b' a D) as (a' & Hs' & Hn' & Ha'); try done.
  exists a'. split_and!; [done|done|].
  destruct (RaftNode_Get_cases (fs_store (rn_fsm n)) (br_delivered b) fuel n b key r n' Hb Hat E)
    as [[? _]|[[? _]|(n1 & b1 & b2 & _ & _ & _ & _ & _ & _ & _ & _ & _ & Hget)]];
    [by left; left|by left; right|right]. by eapply store_rep_get.
Qed.

(** The turn between the two reads of [GetConfig]. *)
Lemma raft_turn n a n' :
  raft_rep (RnInitialized n) a -> turn n = Done n' -> raft_within (RnInitialized n') ->
  exists a', rtc store_step a a' /\ raft_rep (RnInitialized n') a'.
Proof.
  intros (n0 & b & [= <-] & Hb & Hruns & Ha & Hrev) E Hw.
  assert (fsm_since (fs_store (rn_fsm n)) (br_delivered b) (rn_fsm n) (br_delivered b)) as Hat.
  { exists []. rewrite app_nil_r. split; [done|constructor]. }
  destruct (turn_follows (fs_store (rn_fsm n)) (br_delivered b) n n' b Hb Hat E)
    as (b' & Hb' & (D & HD & Hat') & _).
  destruct (raft_rep_end n n' b b' a D) as (a' & ? & ? & _); try done;
    [by eapply turn_runs|by exists a'].
Qed.

#[export] Instance RaftNode_spec : ConfigNodeSpec (H := RaftNode_node fuel) (@RaftNodeObj DB B).
Proof.
  refine (Build_ConfigNodeSpec _ (RaftNode_node fuel) _ raft_rep (rtc store_step) raft_within
    _ _ _ _ _ _).
  - done.
  - intros o a (n & b & -> & _ & _ & (d & dir & _ & Hd) & _). by eapply rep_wf.
  - intros o a cmd r o' Hn Hv _ E Hw. pose proof Hn as (n & b & -> & _).
    cbn [node_Apply RaftNode_node] in E. apply initialized_Done in E as (n' & E & ->).
    by eapply raft_Apply.
  - intros o a key s r o' Hn E Hw. pose proof Hn as (n & b & -> & _).
    cbn [node_Get RaftNode_node] in E. apply initialized_Done in E as (n' & E & ->).
    by eapply raft_Get.
  - intros o a key version r o' Hn Hv E Hw. pose proof Hn as (n & b & -> & _).
    cbn [node_GetConfig RaftNode_node] in E. apply initialized_Done in E as (n' & E & ->).
    unfold returning in E.
    destruct (RaftNode_GetConfig n key version) as [[r0 n0]|] eqn:Eg; simplify_eq/=.
    destruct (get_config_refines (fun n => fs_store (rn_fsm n)) turn n a key version r n'
      (fun n => raft_rep (RnInitialized n)) (rtc store_step)) as (a2 & ? & ? & ->);
      [|done| |done|done|exact Eg|by exists a, a2].
    + by intros n1 a1 (n2 & b1 & [= <-] & _ & _ & Ha & _).
    + intros n1 E1 ->. by eapply raft_turn.
Defined.
End spec.
