(* ===== verification/RaftExamples.v ===== *)
(** A raft library that behaves: it commits every task at once and reports the
    entries and the membership changes at the next turn.  The theorems of
    RaftTheorems.v are applied at a node that runs on it. *)
From Stdlib Require Import Ascii.
From S2P Require Import Prelude CxxStd StoreKey Proto LevelDB Store StoreSpec StoreRepr StoreOps.
From S2P Require Import Demo WatchHub WatchCall Node StateMachine FsmTheorems RaftNode.
From S2P Require Import RaftTheorems Cluster.

Lemma imap_data {A} (l : list A) : (imap (fun i x => (x, i)) l).*1 = l.
Proof.
  apply list_eq. intros i. rewrite list_lookup_fmap, list_lookup_imap. by destruct (l !! i).
Qed.

Lemma imap_index {A} (l : list A) : (imap (fun i x => (x, i)) l).*2 = seq 0 (length l).
Proof.
  apply list_eq. intros i. rewrite list_lookup_fmap, list_lookup_imap.
  destruct (l !! i) eqn:E; simpl.
  - apply lookup_lt_Some in E. by rewrite lookup_seq_lt.
  - apply lookup_ge_None in E. by rewrite lookup_seq_ge.
Qed.

Module SoloRaft.
(** A committed entry with the closure of its proposer, or a membership change. *)
Inductive item := Entry (data : string) (owner : option nat) | Change (id : nat).

(** [so_tasks]: the data and the position of the entries proposed here;
    [so_queue]: what is committed and has not been called back; [so_ready_us]: when
    the lease of the leader becomes valid; [so_delivered]: the data handed to the
    state machine. *)
Record t := mk {
  so_now : Z;
  so_ready_us : Z;
  so_tasks : gmap nat (string * nat);
  so_queue : list item;
  so_committed : Z;
  so_delivered : list string
}.

Definition owner_of (tasks : gmap nat (string * nat)) (p : nat) (data : string)
    (owner : option nat) : option nat :=
  id ← owner; if decide (tasks !! id = Some (data, p)) then Some id else None.

(** The callbacks for a queue that begins at position [p] of the log. *)
Fixpoint callbacks_of (tasks : gmap nat (string * nat)) (p : nat) (q : list item)
    : list callback :=
  match q with
  | [] => []
  | Entry data owner :: q' =>
      CbApply [mkEntry data (owner_of tasks p data owner)] :: callbacks_of tasks (S p) q'
  | Change id :: q' =>
      match tasks !! id with
      | Some _ => callbacks_of tasks p q'
      | None => CbRun id None :: callbacks_of tasks p q'
      end
  end.

Definition queue_data (q : list item) : list string :=
  omap (fun x => match x with Entry data _ => Some data | Change _ => None end) q.

Definition pending (b : t) : list callback :=
  callbacks_of (so_tasks b) (length (so_delivered b)) (so_queue b).

Definition whole_log (b : t) : list string := so_delivered b ++ queue_data (so_queue b).

Definition callbacks (b : t) : list callback * t :=
  (pending b,
   mk (so_now b) (so_ready_us b) (so_tasks b) [] (so_committed b) (whole_log b)).

Definition change_peers (b : t) (peer : string) (id : nat) : t :=
  mk (so_now b) (so_ready_us b) (so_tasks b) (so_queue b ++ [Change id]) (so_committed b + 1)
    (so_delivered b).

#[export] Instance ops : Braft t := {|
  br_callbacks := callbacks;
  br_is_leader b := true;
  br_leader_id b := Some "10.0.0.1:8200:0";
  br_get_leader_lease_status b :=
    if so_ready_us b <=? so_now b then LEASE_VALID else LEASE_NOT_READY;
  br_get_status b :=
    mkNodeStatus STATE_LEADER 3 (so_committed b)
      (so_committed b - Z.of_nat (length (so_queue b)));
  br_list_peers b := Some ["10.0.0.1:8200:0"];
  br_parse_peer peer := if String.eqb peer "" then None else Some peer;
  br_apply b data term id :=
    mk (so_now b) (so_ready_us b) (<[id := (data, length (whole_log b))]> (so_tasks b))
      (so_queue b ++ [Entry data (Some id)]) (so_committed b + 1) (so_delivered b);
  br_add_peer := change_peers;
  br_remove_peer := change_peers;
  br_gettimeofday_us := so_now;
  br_usleep b us :=
    mk (so_now b + us) (so_ready_us b) (so_tasks b) (so_queue b) (so_committed b) (so_delivered b)
|}.

Lemma callbacks_of_data tasks p q : callbacks_data (callbacks_of tasks p q) = queue_data q.
Proof.
  revert p. induction q as [|[data owner|id] q IH]; intros p; csimpl; [done| |].
  - unfold callbacks_data in *. csimpl. by rewrite IH.
  - destruct (tasks !! id); [apply IH|]. unfold callbacks_data in *. csimpl. apply IH.
Qed.

(** An entry called back with a closure is the task of that closure, at its place. *)
Lemma callbacks_of_entry tasks p q cbs1 l1 e l2 cbs2 id :
  callbacks_of tasks p q = cbs1 ++ CbApply (l1 ++ e :: l2) :: cbs2 -> le_done e = Some id ->
  tasks !! id = Some (le_data e, (p + length (callbacks_data cbs1) + length l1)%nat) /\
  (length (callbacks_data cbs1) + length l1 < length (queue_data q))%nat.
Proof.
  revert p cbs1. induction q as [|[data owner|id'] q IH]; intros p cbs1 E Hid.
  - by destruct cbs1.
  - csimpl in *. destruct cbs1 as [|cb cbs1]; simplify_eq/=.
    + destruct l1 as [|? [|]]; simplify_eq/=. unfold owner_of in Hid.
      destruct owner as [id'|]; simplify_eq/=. case_decide; simplify_eq.
      rewrite Nat.add_0_r. split; [|lia]. unfold callbacks_data. simpl. by rewrite Nat.add_0_r.
    + destruct (IH (S p) cbs1) as [Ht Hl]; [done|done|].
      unfold callbacks_data in *. csimpl. split; [|lia]. rewrite Ht. do 2 f_equal. lia.
  - csimpl in *. destruct (tasks !! id'); [by apply IH|].
    destruct cbs1 as [|cb cbs1]; simplify_eq/=. unfold callbacks_data in *. csimpl. by apply IH.
Qed.

Lemma callbacks_of_run tasks p q id status :
  CbRun id status ∈ callbacks_of tasks p q -> tasks !! id = None.
Proof.
  revert p. induction q as [|[data owner|id'] q IH]; intros p; simpl.
  - by intros ?%elem_of_nil.
  - intros [?|?]%elem_of_cons; [done|by eapply IH].
  - destruct (tasks !! id') eqn:E; [by apply IH|].
    intros [?|?]%elem_of_cons; [by simplify_eq|by eapply IH].
Qed.

#[export] Instance log : BraftLog t.
Proof.
  refine {| br_log := whole_log; br_delivered := so_delivered |}; simpl; try done.
  - intros b. unfold whole_log, pending. by rewrite callbacks_of_data.
  - intros b Hb. unfold whole_log. destruct (so_queue b); simpl in Hb; [|lia].
    by rewrite app_nil_r.
Defined.

#[export] Instance spec : BraftSpec t.
Proof. split; simpl; intros; lia. Qed.

#[export] Instance tasks : BraftTasks t.
Proof.
  refine (Build_BraftTasks _ _ (fun b id => fst <$> so_tasks b !! id) _ _ _ _); simpl.
  - intros. by rewrite lookup_insert_eq.
  - done.
  - intros b entries e id (cbs1 & cbs2 & Hc)%list_elem_of_split (l1 & l2 & ->)%list_elem_of_split
      Hid _.
    destruct (callbacks_of_entry _ _ _ _ _ _ _ _ _ Hc Hid) as [-> _]. done.
  - intros b id status Hin%callbacks_of_run. rewrite Hin. by intros [??].
Qed.

(** The number of a proposal is its position. *)
#[export] Instance group : BraftGroup t.
Proof.
  refine (Build_BraftGroup _ _ _ (fun b => imap (fun i data => (data, i)) (whole_log b))
    (fun b id => default 0%nat (snd <$> so_tasks b !! id)) _ _ _ _ _ _ _ _ _ _); simpl.
  - intros b. unfold whole_log at 2. simpl. by rewrite app_nil_r.
  - done.
  - intros b data term id. unfold whole_log at 2. simpl. unfold queue_data.
    rewrite omap_app, app_assoc. fold (whole_log b). rewrite imap_app. by eexists.
  - intros b. unfold whole_log at 2. simpl. by rewrite app_nil_r.
  - done.
  - intros b. rewrite imap_data. by eexists.
  - intros b _. by rewrite imap_data.
  - done.
  - intros b data term id. rewrite lookup_insert_eq. simpl. rewrite imap_index.
    rewrite elem_of_seq. lia.
  - intros b cbs1 l1 e l2 cbs2 id Hc Hid.
    destruct (callbacks_of_entry _ _ _ _ _ _ _ _ _ Hc Hid) as [-> Hl]. simpl.
    rewrite imap_index. unfold whole_log. simpl. rewrite app_nil_r.
    rewrite !length_app, length_fmap. rewrite lookup_seq. split; [|lia].
    unfold callbacks_data. lia.
Defined.
End SoloRaft.

#[local] Existing Instances SoloRaft.ops SoloRaft.log SoloRaft.spec SoloRaft.tasks SoloRaft.group.
#[local] Existing Instances BitCmdCodec.codec BitCmdCodec.codec_spec.

(** A node over the demonstration store whose lease becomes valid in 12 ms. *)
Definition demo_raft : SoloRaft.t := SoloRaft.mk 0 12000 ∅ [] 0 [].

Definition demo_node : RaftNode MemDB.t SoloRaft.t := mkRaftNode demo_fsm (Some demo_raft) 2.

Lemma demo_at : fsm_at (fs_store demo_fsm) (rn_fsm demo_node) (br_delivered demo_raft).
Proof. constructor. Qed.

Lemma demo_follows : follows (fs_store demo_fsm) demo_node.
Proof. eexists. split; [reflexivity|exact demo_at]. Qed.

(** Evaluates a call at the demonstration node to the answer it gives. *)
Definition answers {X} (o : outcome (option X)) : bool :=
  match o with Done (Some _) => true | _ => false end.

Lemma answers_Done {X} (o : outcome (option X)) :
  answers o = true -> exists x, o = Done (Some x).
Proof. destruct o as [[x|]|]; [by exists x|done|done]. Qed.

Lemma RaftNode_Apply_answer_witness :
  exists r n' D, RaftNode_Apply 2 demo_node (CmdPut "app" "x") = Done (Some (r, n')) /\
    fsm_at (fs_store demo_fsm) (rn_fsm n') D /\
    applied_or_failed (fs_store demo_fsm) (CmdPut "app" "x") D (rn_fsm n') r.
Proof.
  assert (cmd_valid (CmdPut "app" "x")) as Hv by (by vm_compute).
  destruct (answers_Done (RaftNode_Apply 2 demo_node (CmdPut "app" "x"))) as [[r n'] E].
  { vm_compute. reflexivity. }
  pose proof (RaftNode_Apply_answer (fs_store demo_fsm) 2 demo_node (CmdPut "app" "x") r n' Hv
    eq_refl demo_follows E) as Ha.
  change (RaftNode_IsLeader demo_node) with true in Ha. destruct Ha as (b & _ & Hat & Hr).
  exists r, n', (br_delivered b). split; [exact E|split; [exact Hat|exact Hr]].
Defined.

Lemma RaftNode_Get_linearizable_witness :
  exists r n', RaftNode_Get 9 demo_node "app" false = Done (Some (r, n')) /\
    gr_code r = OK /\
    (exists b, rn_node n' = Some b /\ fsm_at (fs_store demo_fsm) (rn_fsm n') (br_delivered b) /\
       br_log b `prefix_of` br_delivered b) /\
    get_from_store (fs_store (rn_fsm n')) "app" GetResult_default = Done r.
Proof.
  destruct (answers_Done (RaftNode_Get 9 demo_node "app" false)) as [[r n'] E].
  { vm_compute. reflexivity. }
  exists r, n'. assert (gr_code r = OK) as Hok.
  { assert (match RaftNode_Get 9 demo_node "app" false with
            | Done (Some (r, _)) => gr_code r | _ => INTERNAL end = OK) as Hc
      by (vm_compute; reflexivity).
    rewrite E in Hc. exact Hc. }
  destruct (RaftNode_Get_linearizable (fs_store demo_fsm) 9 demo_node demo_raft "app" r n'
    eq_refl demo_at E)
    as [[H _]|[[H _]|(n1 & b1 & b & _ & _ & _ & _ & Hb & _ & Hat & Hp & _ & H)]].
  - rewrite Hok in H. discriminate H.
  - rewrite Hok in H. discriminate H.
  - split; [exact E|split; [exact Hok|split; [|exact H]]].
    exists b. split; [exact Hb|split; [exact Hat|exact Hp]].
Defined.

Lemma raft_waits_end_witness :
  RaftNode_Get (Z.to_nat 10001) demo_node "app" false <> Done None /\
  ConfChange true 600 demo_node "10.0.0.2:8200" <> Done None.
Proof.
  split.
  - apply (raft_waits_end (Z.to_nat 10001) demo_node "app" false true "").
    rewrite Z2Nat.id; [apply Z.le_refl|apply Z.leb_le; reflexivity].
  - apply (raft_waits_end 600 demo_node "" false true "10.0.0.2:8200"). apply Z.leb_le. reflexivity.
Defined.

Lemma ConfChange_answer_witness :
  exists r n', ConfChange true 3 demo_node "10.0.0.2:8200" = Done (Some (r, n')) /\
    cc_code r = OK /\ exists id, conf_change_done n' id = Some None.
Proof.
  destruct (answers_Done (ConfChange true 3 demo_node "10.0.0.2:8200")) as [[r n'] E].
  { vm_compute. reflexivity. }
  exists r, n'. assert (cc_code r = OK) as Hok.
  { assert (match ConfChange true 3 demo_node "10.0.0.2:8200" with
            | Done (Some (r, _)) => cc_code r | _ => INTERNAL end = OK) as Hc
      by (vm_compute; reflexivity).
    rewrite E in Hc. exact Hc. }
  split; [exact E|split; [exact Hok|]].
  assert (Ha := ConfChange_answer true 3 demo_node "10.0.0.2:8200" r n' E).
  rewrite Hok in Ha. exact Ha.
Defined.

(** * Two nodes *)

(** Another node of the group, to which the entry of the first has been replicated,
    later the leader. *)
Definition demo_put : RaftCmd := CmdPut "app" "x".

Definition demo_raft2 : SoloRaft.t :=
  SoloRaft.mk 0 0 ∅ [SoloRaft.Entry (SerializeCmd demo_put) None] 1 [].

Definition demo_node2 : RaftNode MemDB.t SoloRaft.t := mkRaftNode demo_fsm (Some demo_raft2) 0.

Definition demo_group (t : nat) : list (string * nat) :=
  match t with O => [] | S _ => [(SerializeCmd demo_put, 0%nat)] end.

Lemma demo_group_grows t1 t2 : (t1 <= t2)%nat -> demo_group t1 `prefix_of` demo_group t2.
Proof. intros Ht. destruct t1; [apply prefix_nil|]. destruct t2; [lia|done]. Qed.

Definition committed_after {X} (o : outcome (option (X * RaftNode MemDB.t SoloRaft.t))) :
    option (list (string * nat)) :=
  match o with Done (Some (_, n)) => br_committed <$> rn_node n | _ => None end.

Lemma committed_after_Some {X} (o : outcome (option (X * RaftNode MemDB.t SoloRaft.t))) l :
  committed_after o = Some l ->
  exists r n b, o = Done (Some (r, n)) /\ rn_node n = Some b /\ br_committed b = l.
Proof.
  destruct o as [[[r n]|]|]; simpl; try done. intros (b & Hb & ->)%fmap_Some.
  by exists r, n, b.
Qed.

Lemma demo_replica : replica_of demo_state (fs_store demo_fsm).
Proof.
  exists demo_db, "data", demo_state. split; [reflexivity|]. split; [exact demo_rep|].
  split; [split; reflexivity|exact demo_always_accepts].
Qed.

Lemma demo_put_valid : cmd_valid demo_put.
Proof. by vm_compute. Qed.

Lemma demo_log_ok : log_ok demo_state [SerializeCmd demo_put].
Proof.
  assert (commands [SerializeCmd demo_put] = [demo_put]) as Hc by (vm_compute; reflexivity).
  unfold log_ok. rewrite Hc. split; [|apply Z.leb_le; vm_compute; reflexivity].
  constructor; [split; [exact demo_put_valid|reflexivity]|constructor].
Qed.

(** A command on the first node, then a read on the second. *)
Lemma cluster_linearizable_witness :
  exists w n1 r n2 p1 p2,
    RaftNode_Apply 2 demo_node demo_put = Done (Some (w, n1)) /\
    RaftNode_Get 2 demo_node2 "app" false = Done (Some (r, n2)) /\
    legal demo_state [SerializeCmd demo_put] (Write demo_put w 0) p1 /\
    legal demo_state [SerializeCmd demo_put] (Read "app" r) p2 /\ (p1 <= p2)%nat.
Proof.
  destruct (committed_after_Some (RaftNode_Apply 2 demo_node demo_put) (demo_group 1))
    as (w & n1 & b1 & E1 & Hb1 & Hg1); [vm_compute; reflexivity|].
  destruct (committed_after_Some (RaftNode_Get 2 demo_node2 "app" false) (demo_group 3))
    as (r & n2 & b2 & E2 & Hb2 & Hg2); [vm_compute; reflexivity|].
  assert (ar_code w = OK) as Hw.
  { assert (match RaftNode_Apply 2 demo_node demo_put with
            | Done (Some (w, _)) => ar_code w | _ => INTERNAL end = OK) as Hc
      by (vm_compute; reflexivity).
    rewrite E1 in Hc. exact Hc. }
  assert (gr_code r = OK) as Hr.
  { assert (match RaftNode_Get 2 demo_node2 "app" false with
            | Done (Some (r, _)) => gr_code r | _ => INTERNAL end = OK) as Hc
      by (vm_compute; reflexivity).
    rewrite E2 in Hc. exact Hc. }
  set (q1 := mkRequest 0 1 (Write demo_put w 0)). set (q2 := mkRequest 2 3 (Read "app" r)).
  assert (forall tk, br_ticket (proposal demo_node demo_raft demo_put) (rn_next demo_node) = tk ->
    served (B := SoloRaft.t) (DB := MemDB.t) demo_state demo_group
      (mkRequest 0 1 (Write demo_put w tk))) as Hq1.
  { intros tk <-.
    apply (ServedWrite demo_state demo_group 0 1 2 demo_node demo_raft demo_put w n1 b1);
      [|vm_compute; reflexivity|exact demo_put_valid|exact E1| |exact Hb1|exact Hg1].
    - split; [reflexivity|]. split; [reflexivity|]. exists (fs_store demo_fsm), [].
      split; [exact demo_replica|exists []; split; [reflexivity|constructor]].
    - rewrite Hw. intros [?|?]; discriminate. }
  assert (served (B := SoloRaft.t) (DB := MemDB.t) demo_state demo_group q2) as Hq2.
  { apply (ServedRead demo_state demo_group 2 3 2 demo_node2 demo_raft2 "app" r n2 b2);
      [|vm_compute; reflexivity|exact E2| |exact Hb2|exact Hg2].
    - split; [reflexivity|]. split; [reflexivity|]. exists (fs_store demo_fsm), [].
      split; [exact demo_replica|exists []; split; [reflexivity|constructor]].
    - rewrite Hr. intros [?|?]; discriminate. }
  destruct (cluster_linearizable (B := SoloRaft.t) (DB := MemDB.t) demo_state demo_group 3 [q1; q2]
    demo_group_grows) as (ps & Hlen & Hlegal & Horder & _).
  - exact demo_log_ok.
  - constructor; [split; [apply (Hq1 0%nat); vm_compute; reflexivity|simpl; lia]|].
    constructor; [split; [exact Hq2|simpl; lia]|constructor].
  - apply NoDup_singleton.
  - destruct ps as [|p1 [|p2 [|]]]; try discriminate Hlen.
    exists w, n1, r, n2, p1, p2. split; [exact E1|split; [exact E2|]].
    split; [exact (Hlegal 0%nat q1 p1 eq_refl eq_refl)|].
    split; [exact (Hlegal 1%nat q2 p2 eq_refl eq_refl)|].
    apply (Horder 0%nat 1%nat q1 q2 p1 p2 eq_refl eq_refl eq_refl eq_refl). simpl. lia.
Defined.
