(* ===== verification/RaftLive.v ===== *)
(** A proposal on the leader returns: [RaftNode::Apply] waits without a deadline, so
    this depends on the library answering the task (src/src/raft/raft_node.cpp,
    state_machine.cpp). *)
From S2P Require Import Prelude CxxStd StoreKey Proto LevelDB Store StoreSpec StoreRepr StoreOps.
From S2P Require Import StoreCompact StoreRun Replicas Demo WatchHub WatchCall Node StateMachine.
From S2P Require Import FsmTheorems RaftNode RaftTheorems Cluster RaftExamples.

(** What the library does in [k] turns, when the request makes no further call. *)
Fixpoint run_turns {B : Type} `{Braft B} (k : nat) (b : B) : list callback * B :=
  match k with
  | O => ([], b)
  | S k' =>
      let '(cbs, b1) := br_callbacks b in
      let '(cbs', b2) := run_turns k' b1 in (cbs ++ cbs', b2)
  end.

(** The callback settles the task of the closure [id]: its entry is applied, or the
    closure is run. *)
Definition settles (id : nat) (cb : callback) : Prop :=
  match cb with
  | CbApply entries => exists e, e ∈ entries /\ le_done e = Some id
  | CbRun id' _ => id' = id
  | _ => False
  end.

Section live.
Context `{KVCodecSpec} `{CmdCodec} `{!CmdCodecSpec} {DB B : Type} `{LevelDBSpec DB}.
Context `{Braft B} `{!BraftLog B} (a0 : Mvcc) (init : Store DB) (Hinit : replica_of a0 init).
Implicit Types (n : RaftNode DB B) (m : Fsm DB) (D : list string).

(** * Nothing the library calls throws *)

Lemma apply_entry_total m e D :
  fsm_at init m D -> log_ok a0 (D ++ [le_data e]) -> exists m', apply_entry m e = Done m'.
Proof using All.
  intros Hm Hok. assert (log_ok a0 D) as Hok' by (eapply log_ok_prefix; [by eexists|exact Hok]).
  unfold apply_entry. destruct (ParseCmd (le_data e)) as [cmd|] eqn:Ep; [|by eexists].
  destruct (log_run_replica _ _ _ _ Hm Hinit Hok') as (d & dir & b & -> & Hd & Hb & _).
  destruct Hok as [Hf Hs]. rewrite commands_app in Hf, Hs. simpl in Hf, Hs. rewrite Ep in Hf, Hs.
  apply Forall_app in Hf as [_ [[Hv _] _]%Forall_cons]. rewrite cmds_size_app in Hs. simpl in Hs.
  assert (cmd_fits b cmd) as Hfit.
  { unfold cmd_fits. rewrite Hb. pose proof (spec_log_rev a0 (commands D)). lia. }
  destruct (ApplyCmdToStore_refines d dir b cmd Hd Hv Hfit) as (r & d' & -> & _). by eexists.
Qed.

Lemma on_apply_total m l D :
  fsm_at init m D -> log_ok a0 (D ++ (le_data <$> l)) -> exists m', on_apply m l = Done m'.
Proof using All.
  revert m D. induction l as [|e l IH]; intros m D Hm Hok; [by eexists|]. csimpl in Hok.
  rewrite cons_middle, app_assoc in Hok.
  destruct (apply_entry_total m e D Hm) as [m1 E]; [eapply log_ok_prefix; [by eexists|exact Hok]|].
  simpl. rewrite E. eapply IH; [by eapply apply_entry_at|exact Hok].
Qed.

Lemma handle_total m cb D :
  fsm_at init m D -> log_ok a0 (D ++ (le_data <$> callback_entries cb)) ->
  exists m', handle m cb = Done m'.
Proof using All.
  intros Hm Hok. destruct cb as [l|t| |id status|keep]; simpl; try by eexists.
  - destruct (on_apply_total m l D Hm Hok) as [m1 ->]. by eexists.
  - simpl in Hok. rewrite app_nil_r in Hok.
    destruct (log_run_replica _ _ _ _ Hm Hinit Hok) as (d & dir & b & -> & Hd & _).
    unfold Compaction. simpl.
    destruct (CompactionLocked_refines d b keep Hd) as (r & d' & -> & _). by eexists.
Qed.

Lemma handle_all_total m cbs D :
  fsm_at init m D -> log_ok a0 (D ++ callbacks_data cbs) -> exists m', handle_all m cbs = Done m'.
Proof using All.
  revert m D. induction cbs as [|cb cbs IH]; intros m D Hm Hok; [by eexists|].
  unfold callbacks_data in Hok. csimpl in Hok. rewrite fmap_app, app_assoc in Hok.
  destruct (handle_total m cb D Hm) as [m1 E]; [eapply log_ok_prefix; [by eexists|exact Hok]|].
  simpl. rewrite E. eapply IH; [by eapply handle_at|exact Hok].
Qed.

(** * The closure is released *)

(** Between two callbacks: no closure is left to run, and [id] is an [ApplyClosure],
    which has been released, and its call woken, exactly if [released] holds. *)
Definition pending_closure (id : nat) (released : Prop) m : Prop :=
  fs_runs m = [] /\ exists c, fs_closures m !! id = Some (IsApply c) /\
    (released <-> cl_done c = true) /\ cl_notified c = cl_done c.

(** [done] is set, and the notification sent, at the same time. *)
Definition same_flags (c c' : ApplyClosure) : Prop :=
  cl_done c' = cl_done c /\ cl_notified c' = cl_notified c.

Lemma report_result_apply r c : exists c', report_result r (IsApply c) = IsApply c' /\ same_flags c c'.
Proof. unfold report_result. simpl. destruct (_ && _); simpl; by eexists. Qed.

Lemma apply_entry_keeps m e m' id c :
  apply_entry m e = Done m' -> fs_closures m !! id = Some (IsApply c) ->
  exists c', fs_closures m' !! id = Some (IsApply c') /\ same_flags c c'.
Proof.
  intros E Hc. destruct (decide (le_done e = Some id)) as [Hid|Hid].
  2: { exists c. by rewrite (apply_entry_other _ _ _ _ E Hid). }
  unfold apply_entry in E. rewrite Hid in E. destruct (ParseCmd (le_data e)) as [cmd|].
  - destruct (ApplyCmdToStore _ _ _) as [[r st]|]; [|done]. simplify_eq/=.
    rewrite lookup_alter_eq, Hc. simpl. destruct (report_result_apply r c) as (c' & -> & ?).
    by exists c'.
  - simplify_eq/=. rewrite lookup_alter_eq, Hc. simpl. by eexists.
Qed.

Lemma on_apply_keeps m l m' id c :
  on_apply m l = Done m' -> fs_closures m !! id = Some (IsApply c) ->
  exists c', fs_closures m' !! id = Some (IsApply c') /\ same_flags c c'.
Proof.
  revert m c. induction l as [|e l IH]; intros m c E Hc; simpl in E; [simplify_eq; by exists c|].
  destruct (apply_entry m e) as [m1|] eqn:E1; [|done].
  destruct (apply_entry_keeps _ _ _ _ _ E1 Hc) as (c1 & Hc1 & Hd & Hn). unfold same_flags.
  rewrite <-Hd, <-Hn. by apply (IH m1).
Qed.

Lemma run_all_keeps (cs : Closures) (ids : list nat) id c :
  cs !! id = Some (IsApply c) -> cl_notified c = cl_done c ->
  exists c', foldl (fun cs id => alter Run id cs) cs ids !! id = Some (IsApply c') /\
    (cl_done c = true \/ id ∈ ids <-> cl_done c' = true) /\ cl_notified c' = cl_done c'.
Proof.
  revert cs c. induction ids as [|x ids IH]; intros cs c Hc Hn; simpl.
  { exists c. split_and!; [done| |done]. rewrite elem_of_nil. tauto. }
  destruct (decide (x = id)) as [->|Hne].
  - destruct (IH (alter Run id cs) (ApplyClosure_Run c)) as (c' & ? & Hd & ?);
      [by rewrite lookup_alter_eq, Hc|done|]. exists c'. split_and!; [done| |done].
    rewrite <-Hd, elem_of_cons. simpl. tauto.
  - destruct (IH (alter Run x cs) c) as (c' & ? & Hd & ?); [by rewrite lookup_alter_ne|done|].
    exists c'. split_and!; [done| |done]. rewrite <-Hd, elem_of_cons. split; [|tauto].
    intros [?|[?|?]]; [tauto|congruence|tauto].
Qed.

Lemma handle_releases m cb m' id (P : Prop) :
  handle m cb = Done m' -> pending_closure id P m -> pending_closure id (P \/ settles id cb) m'.
Proof.
  intros E (Hr & c & Hc & Hd & Hn). destruct cb as [l|t| |id' status|keep]; simpl in E.
  - destruct (on_apply m l) as [m1|] eqn:E1; [|done]. simplify_eq/=. split; [done|].
    destruct (on_apply_keeps _ _ _ _ _ E1 Hc) as (c1 & Hc1 & Hd1 & Hn1).
    assert (fs_runs m1 = omap le_done l) as Hruns.
    { pose proof (on_apply_log m l) as Hl. rewrite E1 in Hl.
      destruct (apply_log _ _) as [[st evss]|]; [|done]. destruct Hl as [cs [= ->]]. simpl.
      by rewrite Hr. }
    unfold run_closures. simpl. rewrite Hruns.
    destruct (run_all_keeps _ (omap le_done l) id c1 Hc1) as (c' & Hc' & Hd' & ?); [congruence|].
    exists c'. split_and!; [done| |done]. by rewrite <-Hd', Hd1, <-Hd, list_elem_of_omap.
  - simplify_eq. split; [done|]. exists c. split_and!; [done| |done]. simpl. rewrite <-Hd. tauto.
  - simplify_eq. split; [done|]. exists c. split_and!; [done| |done]. simpl. rewrite <-Hd. tauto.
  - simplify_eq. split; [done|]. simpl. destruct (decide (id' = id)) as [->|Hne].
    + rewrite lookup_alter_eq, Hc. simpl. eexists. split_and!; [done| |done]. simpl. tauto.
    + rewrite lookup_alter_ne by done. exists c. split_and!; [done| |done]. rewrite <-Hd. tauto.
  - destruct (Compaction _ _) as [[removed st]|]; [|done]. simplify_eq/=. split; [done|].
    exists c. split_and!; [done| |done]. simpl. rewrite <-Hd. tauto.
Qed.

Lemma handle_all_releases m cbs m' id (P : Prop) :
  handle_all m cbs = Done m' -> pending_closure id P m ->
  pending_closure id (P \/ Exists (settles id) cbs) m'.
Proof.
  revert m P. induction cbs as [|cb cbs IH]; intros m P E Hp; simpl in E.
  - simplify_eq. destruct Hp as (? & c & ? & Hd & ?). split; [done|]. exists c.
    split_and!; [done| |done]. rewrite <-Hd, Exists_nil. tauto.
  - destruct (handle m cb) as [m1|] eqn:E1; [|done].
    destruct (IH m1 _ E (handle_releases _ _ _ _ _ E1 Hp)) as (? & c & ? & Hd & ?).
    split; [done|]. exists c. split_and!; [done| |done]. rewrite <-Hd, Exists_cons. tauto.
Qed.

(** * The wait *)

Lemma run_turns_delivered k (b : B) :
  br_delivered (snd (run_turns k b)) =
  br_delivered b ++ callbacks_data (fst (run_turns k b)).
Proof.
  revert b. induction k as [|k IH]; intros b; simpl; [by rewrite app_nil_r|].
  pose proof (br_delivered_callbacks b) as Hd. destruct (br_callbacks b) as [cbs b1]. simpl in Hd.
  specialize (IH b1). destruct (run_turns k b1) as [cbs' b2]. simpl in *.
  rewrite IH, Hd. unfold callbacks_data. by rewrite bind_app, fmap_app, app_assoc.
Qed.

Lemma pending_closure_iff id (P P' : Prop) m :
  (P <-> P') -> pending_closure id P m -> pending_closure id P' m.
Proof. intros HP (? & c & ? & Hd & ?). split; [done|]. exists c. by rewrite <-HP. Qed.

(** A call asleep on a closure that is not released returns exactly when the library
    settles its task within the turns of the wait. *)
Lemma cv_wait_returns fuel n b id :
  rn_node n = Some b -> fsm_at init (rn_fsm n) (br_delivered b) ->
  log_ok a0 (br_delivered (snd (run_turns fuel b))) -> pending_closure id False (rn_fsm n) ->
  exists x, cv_wait fuel n id = Done x /\
    (is_Some x <-> Exists (settles id) (fst (run_turns fuel b))).
Proof using All.
  revert n b. induction fuel as [|fuel IH]; intros n b Hb Hat Hok Hp; simpl.
  { eexists. split; [done|]. rewrite Exists_nil. split; [by intros [??]|done]. }
  rewrite run_turns_delivered in Hok. simpl in Hok.
  pose proof (br_delivered_callbacks b) as Hdel. unfold turn. rewrite Hb.
  destruct (br_callbacks b) as [cbs b1]. simpl in Hdel.
  pose proof (run_turns_delivered fuel b1) as Hd2.
  destruct (run_turns fuel b1) as [cbs' b2] eqn:Er. simpl in *.
  unfold callbacks_data in Hok. rewrite bind_app, fmap_app, app_assoc in Hok.
  destruct (handle_all_total (rn_fsm n) cbs (br_delivered b) Hat) as [m E];
    [eapply log_ok_prefix; [by eexists|exact Hok]|].
  rewrite E. simpl. pose proof (handle_all_releases _ _ _ _ _ E Hp) as Hm.
  pose proof Hm as (_ & c & Hc & Hd & Hn). unfold woken, apply_done. simpl. rewrite Hc, Hn.
  destruct (cl_done c) eqn:Edone.
  - eexists. split; [done|]. rewrite Exists_app. split; [|by eexists]. intros _.
    destruct Hd as [_ [[]|?]]; [done|by left].
  - assert (~ Exists (settles id) cbs) as Hno by (intros ?; by assert (false = true) by tauto).
    destruct (IH (mkRaftNode m (Some b1) (rn_next n)) b1) as (x & Hx & Hiff); simpl.
    + done.
    + rewrite Hdel. by eapply handle_all_at.
    + rewrite Er. simpl. rewrite Hd2, Hdel. exact Hok.
    + eapply pending_closure_iff; [|exact Hm]. tauto.
    + exists x. split; [done|]. rewrite Hiff, Er. simpl. rewrite Exists_app. tauto.
Qed.

Lemma WaitFor_returns fuel n b id :
  rn_node n = Some b -> fsm_at init (rn_fsm n) (br_delivered b) ->
  log_ok a0 (br_delivered (snd (run_turns fuel b))) -> pending_closure id False (rn_fsm n) ->
  exists x, WaitFor fuel n id = Done x /\
    (is_Some x <-> Exists (settles id) (fst (run_turns fuel b))).
Proof using All.
  intros Hb Hat Hok (Hr & c & Hc & Hd & Hn). unfold WaitFor, apply_done. rewrite Hc.
  destruct (cl_done c) eqn:Edone; [tauto|].
  apply (cv_wait_returns fuel (fall_asleep n id)); [exact Hb|exact Hat|exact Hok|].
  split; [exact Hr|]. exists (sleep_on c). simpl. by rewrite lookup_alter_eq, Hc, Edone.
Qed.

End live.

#[local] Existing Instances SoloRaft.ops SoloRaft.log SoloRaft.spec SoloRaft.tasks SoloRaft.group.

Lemma demo_turns :
  fst (run_turns 2 (proposal demo_node demo_raft demo_put)) =
    [CbApply [mkEntry (SerializeCmd demo_put) (Some 2%nat)]] /\
  br_delivered (snd (run_turns 2 (proposal demo_node demo_raft demo_put))) =
    [SerializeCmd demo_put].
Proof. vm_compute. done. Qed.

