(* ===== verification/RecoveryExamples.v ===== *)
(** Concrete groups for Recovery.v: a node that restarts from its snapshot and one
    that receives it, and what happens when the conditions of [group_recovers] are
    not met. *)
From S2P Require Import Prelude CxxStd StoreKey Proto LevelDB Store StoreSpec StoreRepr StoreOps.
From S2P Require Import StoreRefine StoreSnapshot StoreMaintenance StoreRun Replicas StoreLife.
From S2P Require Import WatchHub WatchCall WatchStore WatchSystem WatchSteps WatchTheorems WatchExamples.
From S2P Require Import Node StateMachine FsmTheorems RaftNode RaftTheorems Cluster Demo.
From S2P Require Import Recovery.

Abbreviation node := (Replica MemDB.t MemDB.fs).
Abbreviation group := (Group MemDB.t MemDB.fs).

(** * The in-memory engine *)

Lemma mem_healthy (r : node) :
  match rp_fsm r with
  | Some m => match db_ (fs_store m) with Some d => MemDB.write_error d = None | None => True end
  | None => True
  end -> healthy r.
Proof.
  intros Hw m d Em Ed d' Hd. rewrite Em, Ed in Hw. apply mem_accepts. clear -Hw Hd.
  induction Hd as [|d d1 d2 Hd _ IH]; [done|]. by eapply IH, mem_one_write.
Qed.

Lemma mem_removable_at (fs : MemDB.fs) dir :
  MemDB.can_remove fs = true -> removable_at (DB := MemDB.t) fs dir.
Proof.
  destruct fs as [dbs [] [] [e|]]; intros Hr st fs'; simpl in *; try done. by intros [= <- <-].
Qed.

Lemma mem_empty_replica : replica_of mvcc_empty (mkStore (Some MemDB.empty) "data").
Proof.
  exists MemDB.empty, "data", mvcc_empty. split_and!; [done|exact empty_rep|done|].
  intros d' Hd. apply mem_accepts. assert (MemDB.write_error MemDB.empty = None) as He by done.
  revert He. induction Hd as [|d d1 d2 Hd _ IH]; [done|]. intros He. by eapply IH, mem_one_write.
Qed.

(** The value of a step that is known to be [Done]. *)
Definition out {A} (x : A) (o : outcome A) : A := match o with Done a => a | Throws _ => x end.

Lemma out_Done {A} (x : A) (o : outcome A) :
  match o with Done _ => true | Throws _ => false end = true -> o = Done (out x o).
Proof. by destruct o. Qed.

(** * Steps as functions *)

Definition empty_disk : MemDB.fs := MemDB.mkFS ∅ true true None.
Definition new_node : node := mkReplica None empty_disk 0 None None.
Definition new_fsm : Fsm MemDB.t := mkFsm (mkStore (Some MemDB.empty) "data") None ∅ ∅ [] (-1).
Definition fsm_or (r : node) : Fsm MemDB.t := default new_fsm (rp_fsm r).

Definition put_x : string := SerializeCmd (CmdPut "app" "x").
Definition put_y : string := SerializeCmd (CmdPut "app" "y").

Definition started (r : node) : node := out r (start_node r None "data").

Definition given (data : string) : callback := CbApply [mkEntry data None].

Definition applied (data : string) (r : node) : node :=
  mkReplica (Some (out new_fsm (handle (fsm_or r) (given data)))) (rp_fs r)
    (rp_applied r + 1) (rp_saving r) (rp_snapshot r).

Definition exported (r : node) : node :=
  let '(status, data) := out (None, None) (save_snapshot (fsm_or r) (fun _ => 0) 0) in
  snapshot_saved r (default 0%nat (rp_saving r)) status data.

(** The process ends and leaves this directory. *)
Definition stopped (fs : MemDB.fs) (r : node) : node :=
  mkReplica None fs (rp_applied r) None (rp_snapshot r).

Definition closed (r : node) : MemDB.fs := snd (Close (fs_store (fsm_or r)) (rp_fs r)).

Definition snapshot_or (r : node) : nat * SnapshotData :=
  default (0%nat, mkSnapshot 0 [] []) (rp_snapshot r).

Definition received (s r : node) : node :=
  out r (load_into r (fsm_or r) (rp_fs r) (snapshot_or s).1 (snapshot_or s).2).

Definition two (log : list string) (r1 r2 : node) : group :=
  mkGroup log (<[1%nat := r1]> {[2%nat := r2]}).

(** * Runs *)

Abbreviation step l g g' := (group_step (DB := MemDB.t) (FS := MemDB.fs) l g g').
Abbreviation runs := (rtc (orderly_step (DB := MemDB.t) (FS := MemDB.fs) mvcc_empty)).

Section runs.
Implicit Types r : node.

Lemma step_1 l log r r' r2 : node_step log l r r' -> step l (two log r r2) (two log r' r2).
Proof.
  intros Hs. pose proof (GroupNode (two log r r2) 1 l r r') as Hg. unfold two in *. simpl in Hg.
  rewrite insert_insert_eq in Hg. apply Hg; [apply lookup_insert_eq|exact Hs].
Qed.

Lemma step_2 l log r r' r1 : node_step log l r r' -> step l (two log r1 r) (two log r1 r').
Proof.
  intros Hs. pose proof (GroupNode (two log r1 r) 2 l r r') as Hg. unfold two in *. simpl in Hg.
  rewrite insert_insert_ne, insert_singleton_eq in Hg by done.
  apply Hg; [by rewrite lookup_insert_ne, lookup_singleton_eq|exact Hs].
Qed.

Lemma two_1 log r1 r2 : gr_nodes (two log r1 r2) !! 1%nat = Some r1.
Proof. apply lookup_insert_eq. Qed.

Lemma two_2 log r1 r2 : gr_nodes (two log r1 r2) !! 2%nat = Some r2.
Proof. simpl. by rewrite lookup_insert_ne, lookup_singleton_eq. Qed.
End runs.

Definition is_done {A} (o : outcome A) : bool := match o with Done _ => true | Throws _ => false end.

Section node_steps.
Implicit Types r : node.

Lemma step_start log r m :
  rp_fsm r = None -> rp_snapshot r = None -> is_done (start_node r None "data") = true ->
  rp_fsm (started r) = Some m -> node_step log (StartedBare (fs_store m)) r (started r).
Proof. intros ? ? Hd ?. apply (NodeStartBare log r None "data"); try done. by apply out_Done. Qed.

Lemma step_restart log r :
  rp_fsm r = None -> is_Some (rp_snapshot r) -> MemDB.can_remove (rp_fs r) = true ->
  is_done (start_node r None "data") = true -> healthy (started r) ->
  node_step log Plain r (started r).
Proof.
  intros ? ? Hr Hd ?. apply (NodeRestart log r None "data"); try done.
  - by apply mem_removable_at.
  - by apply out_Done.
Qed.

Lemma step_given log r m data :
  rp_fsm r = Some m -> log !! rp_applied r = Some data ->
  is_done (handle m (given data)) = true -> node_step log Plain r (applied data r).
Proof.
  intros Em Hl Hd. unfold applied, fsm_or. rewrite Em. apply (NodeCallback log r m (given data)); [done| |].
  - by apply out_Done.
  - simpl. by rewrite (drop_S _ _ _ Hl).
Qed.

Lemma step_exported log r m idx :
  rp_fsm r = Some m -> rp_saving r = Some idx ->
  is_done (save_snapshot m (fun _ => 0) 0) = true ->
  node_step log (Exported idx (rp_applied r)) r (exported r).
Proof.
  intros Em Hi Hd. unfold exported, fsm_or. rewrite Em, Hi. simpl.
  destruct (out _ _) as [status data] eqn:Eo.
  apply (NodeExport log r m idx (fun _ => 0) 0); [done|done|].
  rewrite <-Eo. by apply out_Done.
Qed.

(** Node 2 receives the snapshot of node 1. *)
Lemma step_received log s r m :
  rp_fsm r = Some m -> rp_snapshot s = Some (snapshot_or s) ->
  (rp_applied r < (snapshot_or s).1)%nat -> removable m (rp_fs r) ->
  is_done (load_into r m (rp_fs r) (snapshot_or s).1 (snapshot_or s).2) = true ->
  healthy (received s r) -> step Plain (two log s r) (two log s (received s r)).
Proof.
  intros Em Hs Hlt Hr Hd Hh.
  pose proof (GroupInstall (two log s r) 1 2 r s m (snapshot_or s).1 (snapshot_or s).2
    (received s r) (two_1 log s r)) as Hg. rewrite <-surjective_pairing in Hg.
  specialize (Hg Hs (two_2 log s r) Em Hlt Hr). unfold two in *. cbn [gr_log gr_nodes] in Hg.
  rewrite insert_insert_ne, insert_singleton_eq in Hg by done. apply Hg; [|exact Hh].
  unfold received, fsm_or. rewrite Em. by apply out_Done.
Qed.
End node_steps.

Lemma runs_l l g g1 g' : orderly mvcc_empty l -> step l g g1 -> runs g1 g' -> runs g g'.
Proof. intros Ho Hs Hr. eapply rtc_l; [|exact Hr]. by exists l. Qed.

(** One step of a run: the goal is [runs (two log r1 r2) g']. *)
Ltac node1 lem := eapply (runs_l Plain); [exact I|apply step_1; lem|].
Ltac node2 lem := eapply (runs_l Plain); [exact I|apply step_2; lem|].
Ltac commit data :=
  eapply (runs_l Plain); [exact I|apply (GroupCommit _ data)|]; unfold two; cbn [gr_log gr_nodes app];
  match goal with |- runs (mkGroup ?log (<[1%nat := ?r1]> {[2%nat := ?r2]})) _ =>
    fold (two log r1 r2) end.

(** * The nodes of the examples *)

Definition n_started : node := started new_node.
Definition n_x : node := applied put_x n_started.
Definition n_saved : node := exported (on_snapshot_save n_x).
Definition garbage : MemDB.fs := MemDB.mkFS {["data" := {["junk" := "1"]}]} true true None.
Definition n_restarted : node := started (stopped garbage n_saved).
Definition n_received : node := received n_saved n_started.

Lemma started_store : fs_store (fsm_or n_started) = mkStore (Some MemDB.empty) "data".
Proof. vm_compute. reflexivity. Qed.

Lemma started_fsm : rp_fsm n_started = Some (fsm_or n_started).
Proof. vm_compute. reflexivity. Qed.

Lemma new_node_starts log : node_step log (StartedBare (fs_store (fsm_or n_started))) new_node n_started.
Proof. apply step_start; [reflexivity|reflexivity|vm_compute; reflexivity|exact started_fsm]. Qed.

Lemma start_orderly : orderly mvcc_empty (StartedBare (fs_store (fsm_or n_started))).
Proof. unfold orderly. rewrite started_store. exact mem_empty_replica. Qed.

Lemma both_started g' :
  runs (two [] n_started n_started) g' -> runs (two [] new_node new_node) g'.
Proof.
  intros Hr. eapply runs_l; [exact start_orderly|apply step_1, new_node_starts|].
  eapply runs_l; [exact start_orderly|apply step_2, new_node_starts|exact Hr].
Qed.

Lemma fresh_group : fresh (two [] new_node new_node).
Proof. split; [reflexivity|]. by apply map_Forall_insert_2; [|apply map_Forall_singleton]. Qed.

Lemma n_x_step log : log !! 0%nat = Some put_x -> node_step log Plain n_started n_x.
Proof. intros Hl. by apply (step_given log n_started (fsm_or n_started)); [exact started_fsm| |vm_compute]. Qed.

Lemma n_x_fsm : rp_fsm n_x = Some (fsm_or n_x).
Proof. reflexivity. Qed.

Lemma log_x_ok : log_ok mvcc_empty [put_x].
Proof.
  assert (commands [put_x] = [CmdPut "app" "x"]) as Hc by (vm_compute; reflexivity).
  unfold log_ok. rewrite Hc. split; [|apply Z.leb_le; vm_compute; reflexivity].
  constructor; [split; [split; reflexivity|reflexivity]|constructor].
Qed.

(** Node 1 saves a snapshot, node 2 receives it, node 1 crashes with garbage in its
    directory and restarts. *)
Lemma recovery_run : runs (two [] new_node new_node) (two [put_x] n_restarted n_received).
Proof.
  apply both_started. commit put_x.
  node1 ltac:(by apply n_x_step).
  node1 ltac:(by apply NodeSave).
  eapply (runs_l (Exported 1 1)); [reflexivity|apply step_1,
    (step_exported [put_x] (on_snapshot_save n_x) (fsm_or n_x) 1);
    [reflexivity|reflexivity|vm_compute; reflexivity]|].
  fold n_saved.
  eapply (runs_l Plain); [exact I|apply (step_received [put_x] n_saved n_started (fsm_or n_started))|];
    [exact started_fsm|vm_compute; reflexivity|vm_compute; lia|vm_compute; reflexivity
    |vm_compute; reflexivity|apply mem_healthy; vm_compute; reflexivity|].
  fold n_received.
  node1 ltac:(by apply (NodeStop _ n_saved garbage)).
  fold (stopped garbage n_saved).
  node1 ltac:(apply (step_restart [put_x] (stopped garbage n_saved));
    [reflexivity|eexists; vm_compute; reflexivity|reflexivity|vm_compute; reflexivity
    |apply mem_healthy; vm_compute; reflexivity]).
  constructor.
Qed.

Lemma group_recovers_witness :
  exists m1 m2, rp_fsm n_restarted = Some m1 /\ rp_fsm n_received = Some m2 /\
    runs (two [] new_node new_node) (two [put_x] n_restarted n_received) /\
    CurrentRevision (fs_store m1) = Done 1 /\
    forall key, Get (fs_store m2) key = Get (fs_store m1) key.
Proof.
  exists (fsm_or n_restarted), (fsm_or n_received).
  assert (rp_fsm n_restarted = Some (fsm_or n_restarted)) as E1 by (vm_compute; reflexivity).
  assert (rp_fsm n_received = Some (fsm_or n_received)) as E2 by (vm_compute; reflexivity).
  assert (rp_applied n_restarted = 1%nat) as A1 by (vm_compute; reflexivity).
  assert (rp_applied n_received = 1%nat) as A2 by (vm_compute; reflexivity).
  assert (m_rev (spec_log mvcc_empty (commands (take 1 [put_x]))) = 1) as Hrev
    by (vm_compute; reflexivity).
  split; [exact E1|]. split; [exact E2|]. split; [exact recovery_run|].
  destruct (group_recovers mvcc_empty (two [] new_node new_node)
    (two [put_x] n_restarted n_received) 1 n_restarted (fsm_or n_restarted) fresh_group recovery_run
    log_x_ok (two_1 _ _ _) E1) as (_ & Hr & _ & _ & Hsame).
  split.
  - rewrite A1 in Hr. etransitivity; [exact Hr|]. apply (f_equal Done). exact Hrev.
  - apply (Hsame 2%nat n_received (fsm_or n_received) (two_2 _ _ _) E2).
    etransitivity; [exact A2|symmetry; exact A1].
Defined.

(** * Without the conditions *)

Definition n_closed : node := stopped (closed n_x) n_x.
Definition n_again : node := started n_closed.
Definition n_twice : node := applied put_x n_again.

(** A node that is shut down properly and started again before it has saved its first
    snapshot applies the log a second time.  The store keeps what was applied, nothing
    in it says how far, and without a snapshot the library hands over the log from
    its first entry: one put is now two, with revision 2 and version 2, while the
    other node of the group is at revision 1 after the same log. *)
Theorem restart_reapplies_the_log :
  exists g1 g2 st m1 m2,
    runs (two [] new_node new_node) g1 /\
    gr_nodes g1 !! 1%nat = Some (stopped (snd (Close (fs_store (fsm_or n_x)) (rp_fs n_x))) n_x) /\
    step (StartedBare st) g1 g2 /\
    runs g2 (two [put_x] n_twice n_x) /\
    rp_fsm n_twice = Some m1 /\ rp_fsm n_x = Some m2 /\ rp_applied n_twice = rp_applied n_x /\
    CurrentRevision (fs_store m1) = Done 2 /\ CurrentRevision (fs_store m2) = Done 1 /\
    Get (fs_store m1) "app" = Done (Some (mkKV "app" "x" 2 2 false), OK) /\
    Get (fs_store m2) "app" = Done (Some (mkKV "app" "x" 1 1 false), OK).
Proof.
  exists (two [put_x] n_closed n_x), (two [put_x] n_again n_x), (fs_store (fsm_or n_again)).
  exists (fsm_or n_twice), (fsm_or n_x).
  assert (rp_fsm n_again = Some (fsm_or n_again)) as Ea by (vm_compute; reflexivity).
  split; [|split; [|split; [|split; [|split_and!; vm_compute; reflexivity]]]].
  - apply both_started. commit put_x.
    node1 ltac:(by apply n_x_step). node2 ltac:(by apply n_x_step).
    node1 ltac:(by apply (NodeStop _ n_x (closed n_x))). constructor.
  - unfold n_closed. apply two_1.
  - apply step_1. apply step_start; [reflexivity|reflexivity|vm_compute; reflexivity|exact Ea].
  - node1 ltac:(apply (step_given [put_x] n_again (fsm_or n_again) put_x);
      [exact Ea|vm_compute; reflexivity|vm_compute; reflexivity]). constructor.
Qed.

Definition n_saving : node := on_snapshot_save n_x.
Definition n_ahead : node := applied put_y n_saving.
Definition n_late : node := exported n_ahead.
Definition n_behind : node := received n_late n_started.
Definition n_apart : node := applied put_y n_behind.

(** [on_snapshot_save] returns before the store has been exported, and the library
    goes on handing over entries.  Here the second entry is applied in between: the
    snapshot that counts for one entry holds both, and a node that receives it and
    then the second entry has applied it twice: revision 3, against 2 on the node
    that made the snapshot. *)
Theorem late_export_reapplies_an_entry :
  exists g1 g2 m1 m2,
    runs (two [] new_node new_node) g1 /\ step (Exported 1 2) g1 g2 /\
    runs g2 (two [put_x; put_y] n_late n_apart) /\
    rp_fsm n_late = Some m1 /\ rp_fsm n_apart = Some m2 /\ rp_applied n_late = rp_applied n_apart /\
    CurrentRevision (fs_store m1) = Done 2 /\ CurrentRevision (fs_store m2) = Done 3 /\
    Get (fs_store m1) "app" = Done (Some (mkKV "app" "y" 2 2 false), OK) /\
    Get (fs_store m2) "app" = Done (Some (mkKV "app" "y" 3 3 false), OK).
Proof.
  exists (two [put_x; put_y] n_ahead n_started), (two [put_x; put_y] n_late n_started).
  exists (fsm_or n_late), (fsm_or n_apart).
  assert (rp_fsm n_behind = Some (fsm_or n_behind)) as Eb by (vm_compute; reflexivity).
  split; [|split; [|split; [|split_and!; vm_compute; reflexivity]]].
  - apply both_started. commit put_x. commit put_y.
    node1 ltac:(by apply n_x_step). node1 ltac:(by apply NodeSave). fold n_saving.
    node1 ltac:(apply (step_given [put_x; put_y] n_saving (fsm_or n_saving) put_y);
      [reflexivity|vm_compute; reflexivity|vm_compute; reflexivity]). constructor.
  - apply step_1, (step_exported [put_x; put_y] n_ahead (fsm_or n_ahead) 1);
      [reflexivity|reflexivity|vm_compute; reflexivity].
  - eapply (runs_l Plain); [exact I|apply (step_received [put_x; put_y] n_late n_started (fsm_or n_started))|];
      [exact started_fsm|vm_compute; reflexivity|vm_compute; lia|vm_compute; reflexivity
      |vm_compute; reflexivity|apply mem_healthy; vm_compute; reflexivity|].
    fold n_behind.
    node2 ltac:(apply (step_given [put_x; put_y] n_behind (fsm_or n_behind) put_y);
      [exact Eb|vm_compute; reflexivity|vm_compute; reflexivity]). constructor.
Qed.

(** * A snapshot installed under a waiting [Watch] *)

(** A node and its peer after the first write, which both have applied and
    broadcast; a call waits on the node.  The peer goes on to revision 3. *)
Definition watching : Sys MemDB.t :=
  default (start 8) (exec_all (start 8) (put_broadcast "a" "1" 0 ++ wait_from 1 1)).

Definition peer : Sys MemDB.t :=
  default (start 8) (exec_all (start 8)
    (put_broadcast "a" "1" 0 ++ put_broadcast "a" "2" 0 ++ put_broadcast "a" "3" 0)).

(** The state machine of a node whose store, hub and waiters these are. *)
Definition machine (σ : Sys MemDB.t) : Fsm MemDB.t :=
  mkFsm (mkStore (Some (sy_store σ)) "data") (Some (sy_hub σ)) (sy_heap σ) ∅ [] (-1).

Definition peer_snapshot : SnapshotData := ExportSnapshotLocked (sy_store peer).

Definition loaded : Z * Fsm MemDB.t * MemDB.fs :=
  out (-1, machine watching, empty_disk)
    (on_snapshot_load (machine watching) empty_disk 0 (Some peer_snapshot)).

Definition reloaded : Sys MemDB.t :=
  WatchSystem.set_store watching (default MemDB.empty (db_ (fs_store (snd (fst loaded)))))
    (sy_log watching) WrIdle.

Definition after_install : Sys MemDB.t :=
  default (start 8) (exec_all reloaded
    (put_broadcast "a" "4" 1 ++ replicate 4 (AWatch 1 calm))).

Lemma watching_reachable : reachable watching.
Proof.
  exists MemDB.empty, [], 8%nat. split; [exact empty_inv|].
  apply (exec_all_steps _ (put_broadcast "a" "1" 0 ++ wait_from 1 1)); by vm_compute.
Qed.

(** [on_snapshot_load] replaces the store and tells the hub nothing.  A call that
    waits since revision 1 on a node that receives a snapshot of revision 3 goes on
    waiting, and returns with the next write alone: the changes of revisions 2 and 3
    are not delivered, the result is OK, and the anchor it hands out is 4.  A call
    that starts after the snapshot is told that they have been reclaimed. *)
Theorem install_skips_a_waiting_watch :
  exists m' fs',
    reachable watching /\
    on_snapshot_load (machine watching) empty_disk 0 (Some peer_snapshot) = Done (0, m', fs') /\
    db_ (fs_store m') = Some (sy_store reloaded) /\
    fs_hub m' = Some (sy_hub reloaded) /\ fs_waiters m' = sy_heap reloaded /\
    exec_all reloaded (put_broadcast "a" "4" 1 ++ replicate 4 (AWatch 1 calm)) =
      Some after_install /\
    sy_calls after_install !! 1%nat =
      Some (mkCall live_args (WReturn true (mkWatchResult OK "" 4 [ev 4 "a" "4" 4]))) /\
    matching "a" (drop 1 (sy_log peer)) = [ev 2 "a" "2" 2; ev 3 "a" "3" 3] /\
    (exists σ, exec_all reloaded (wait_from 2 1) = Some σ /\
       match sy_calls σ !! 2%nat with
       | Some (mkCall _ (WReturn false res)) => wr_code res = COMPACTED
       | _ => False
       end).
Proof.
  exists (snd (fst loaded)), (snd loaded).
  split; [exact watching_reachable|].
  split; [vm_compute; reflexivity|]. split; [vm_compute; reflexivity|].
  split; [vm_compute; reflexivity|]. split; [vm_compute; reflexivity|].
  split; [vm_compute; reflexivity|]. split; [vm_compute; reflexivity|].
  split; [vm_compute; reflexivity|].
  exists (default (start 8) (exec_all reloaded (wait_from 2 1))).
  split; vm_compute; reflexivity.
Qed.
