(* ===== verification/RestUtil.v ===== *)
(** Model of src/src/server/rest_util.h: what the five services share when they
    answer HTTP and RPC requests.  The [brpc::Controller] of a request is a pair
    of records; the library has parsed the request and will send the response. *)
From Stdlib Require Import Ascii.
From S2P Require Import Prelude CxxStd StoreKey Proto LevelDB Store StoreOps WatchHub WatchCall.
From S2P Require Import Node.

(** * Requests and responses *)

Inductive HttpMethod :=
| HTTP_METHOD_GET
| HTTP_METHOD_POST
| HTTP_METHOD_DELETE
| HTTP_METHOD_OPTIONS
| HTTP_METHOD_OTHER.

#[export] Instance HttpMethod_eq_dec : EqDecision HttpMethod.
Proof. solve_decision. Defined.

(** The request part of a controller.  [unresolved_path] is what the [*] of the
    mapping matched, empty for a call that did not come over HTTP; [IsCanceled]
    and [deadline_us] are only handed on to the watch. *)
Record HttpRequest := mkHttpRequest {
  http_method : HttpMethod;
  unresolved_path : string;
  GetHeader : string -> option string;
  GetQuery : string -> option string;
  request_attachment : string;
  deadline_us : Z
}.

Record HttpResponse := mkHttpResponse {
  status_code : Z;
  headers : gmap string string;
  content_type : string;
  response_attachment : string
}.

Definition HttpResponse_default : HttpResponse := mkHttpResponse 200 ∅ "" "".

Definition SetHeader (name value : string) (h : HttpResponse) : HttpResponse :=
  mkHttpResponse (status_code h) (<[name := value]> (headers h)) (content_type h)
    (response_attachment h).

Definition set_status_code (code : Z) (h : HttpResponse) : HttpResponse :=
  mkHttpResponse code (headers h) (content_type h) (response_attachment h).

Record KVResponse := mkKVResponse {
  kvr_code : Code;
  kvr_message : string;
  kvr_kv : option KV;      (** [has_kv()] *)
  kvr_kvs : list KV
}.

Definition KVResponse_default : KVResponse := mkKVResponse OK "" None [].

(** * The helpers *)

Definition ResolveKey (req : HttpRequest) (req_key : string) : string :=
  if negb (String.eqb (unresolved_path req) "") then unresolved_path req else req_key.

(** [s.rfind(':')] and the cut there. *)
Definition cut_port (s : string) : outcome string :=
  match rfind_char ":" s with Some i => substr s 0 i | None => Done s end.

Definition IsAllowedOrigin (origin request_host : string) : outcome bool :=
  if String.eqb origin "" || String.eqb request_host "" then Done false
  else
    match find_str "://" origin with
    | None => Done false
    | Some scheme_end =>
        origin_host ← substr_from origin (scheme_end + 3);
        origin_host ← cut_port origin_host;
        target_host ← cut_port request_host;
        Done (String.eqb origin_host target_host)
    end.

(** [true]: a preflight request, answered here. *)
Definition HandleCorsPreflight (req : HttpRequest) (h : HttpResponse)
    : outcome (bool * HttpResponse) :=
  h ← match GetHeader req "Origin", GetHeader req "Host" with
      | Some origin, Some host =>
          allowed ← IsAllowedOrigin origin host;
          Done (if (allowed : bool)
                then SetHeader "Vary" "Origin" (SetHeader "Access-Control-Allow-Origin" origin h)
                else h)
      | _, _ => Done h
      end;
  let h := SetHeader "Access-Control-Allow-Methods" "GET,POST,DELETE,OPTIONS" h in
  let h := SetHeader "Access-Control-Allow-Headers" "Content-Type" h in
  if decide (http_method req = HTTP_METHOD_OPTIONS) then Done (true, set_status_code 200 h)
  else Done (false, h).

Definition IsValidKey (key : string) : bool := negb (String.eqb key "").

Definition QueryInt64 (req : HttpRequest) (name : string) (dflt : Z) : Z :=
  match GetQuery req name with
  | None => dflt
  | Some v => if String.eqb v "" then dflt else strtoll v 10
  end.

Definition not_leader_message (leader_id : string) : string := "not leader, leader=" +:+ leader_id.

(** Whether [code] asks for a redirection to a known leader. *)
Definition redirects (code : Code) (leader_id : string) : bool :=
  bool_decide (code = NOT_LEADER) && negb (String.eqb leader_id "").

Definition FillResponse `{KVCodec} (r : ApplyResult) (resp : KVResponse) : KVResponse :=
  if decide (ar_code r = OK) then
    mkKVResponse (ar_code r) (ar_message r)
      (if (0 <? KV_ByteSizeLong (ar_kv r))%nat then Some (ar_kv r) else kvr_kv resp)
      (kvr_kvs resp ++ ar_kvs r)
  else
    mkKVResponse (ar_code r)
      (if redirects (ar_code r) (ar_leader_id r) then not_leader_message (ar_leader_id r)
       else ar_message r)
      (kvr_kv resp) (kvr_kvs resp).

(** [path.size() >= n && path.compare(path.size() - n, n, suffix) == 0], and then
    the part before it; [n] is the size of the suffix. *)
Definition has_suffix (suffix path : string) : bool :=
  (String.length suffix <=? String.length path)%nat &&
  String.eqb (String.substring (String.length path - String.length suffix)
                (String.length suffix) path) suffix.

Definition without_suffix (suffix path : string) : outcome string :=
  substr path 0 (String.length path - String.length suffix).
