(* ===== verification/KVService.v ===== *)
(** Model of src/src/server/kv_service_impl.{h,cpp} and config_service_impl.{h,cpp}:
    the key-value and the configuration service, over RPC and over HTTP.  A
    handler is a call on the node behind [node_]; the library runs [done] when it
    returns. *)
From S2P Require Import Prelude CxxStd StoreKey Proto LevelDB Store StoreOps WatchHub WatchCall.
From S2P Require Import Node RestUtil.

(** * Messages *)

Record PutRequest := mkPutRequest { pr_key : string; pr_value : string }.
Record GetRequest := mkGetRequest { gq_key : string; gq_serializable : bool }.
Record BatchPutRequest := mkBatchPutRequest { entries : list PutRequest }.
Record CompareAndSwapRequest := mkCasRequest {
  cas_key : string; cas_expect : string; cas_value : string }.
Record PublishRequest := mkPublishRequest { pb_key : string; pb_value : string }.
Record GetConfigRequest := mkGetConfigRequest { gc_key : string; gc_version : Z }.
Record RollbackRequest := mkRollbackRequest { rb_key : string; rb_target_version : Z }.

Record ConfigResponse := mkConfigResponse {
  cfr_code : Code;
  cfr_message : string;
  cfr_kv : option KV;
  cfr_history : list KV
}.

Definition ConfigResponse_default : ConfigResponse := mkConfigResponse OK "" None [].

(** [json2pb::JsonToProtoMessage] into a fresh message: what it returns, and what
    the message holds then. *)
Class JsonToProto := {
  JsonToPut : string -> bool * PutRequest;
  JsonToCas : string -> bool * CompareAndSwapRequest;
  JsonToBatch : string -> bool * BatchPutRequest;
  JsonToPublish : string -> bool * PublishRequest;
  JsonToRollback : string -> bool * RollbackRequest
}.

(** * The key-value service *)

Section kv.
Context `{KVCodec} `{JsonToProto} {N : Type} `{ConfigNode N}.

Definition kv_error (code : Code) (message : string) (resp : KVResponse) : KVResponse :=
  mkKVResponse code message (kvr_kv resp) (kvr_kvs resp).

Definition DoPut (key value : string) (resp : KVResponse) : call N KVResponse :=
  if negb (IsValidKey key) then mret (kv_error INVALID_ARGUMENT "empty key" resp)
  else
    result ← node_Apply (CmdPut key value);
    mret (FillResponse result resp).

Definition DoGet (key : string) (serializable : bool) (resp : KVResponse) : call N KVResponse :=
  result ← node_Get key serializable;
  mret (mkKVResponse (gr_code result)
          (if redirects (gr_code result) (gr_leader_id result)
           then not_leader_message (gr_leader_id result) else gr_message result)
          (if decide (gr_code result = OK) then Some (gr_kv result) else kvr_kv resp)
          (kvr_kvs resp)).

Definition DoDelete (key : string) (resp : KVResponse) : call N KVResponse :=
  if negb (IsValidKey key) then mret (kv_error INVALID_ARGUMENT "empty key" resp)
  else
    result ← node_Apply (CmdDelete key);
    mret (FillResponse result resp).

(** The loop over the entries: [None] when one has an empty key. *)
Fixpoint batch_puts (es : list PutRequest) (batch : list (string * string))
    : option (list (string * string)) :=
  match es with
  | [] => Some batch
  | e :: es' =>
      if negb (IsValidKey (pr_key e)) then None
      else batch_puts es' (batch ++ [(pr_key e, pr_value e)])
  end.

Definition DoBatchPut (request : BatchPutRequest) (resp : KVResponse) : call N KVResponse :=
  match batch_puts (entries request) [] with
  | None => mret (kv_error INVALID_ARGUMENT "batch contains empty key" resp)
  | Some batch =>
      result ← node_Apply (CmdBatchPut batch);
      mret (FillResponse result resp)
  end.

Definition DoCAS (key expect value : string) (resp : KVResponse) : call N KVResponse :=
  if negb (IsValidKey key) then mret (kv_error INVALID_ARGUMENT "empty key" resp)
  else
    result ← node_Apply (CmdCas key expect value);
    mret (FillResponse result resp).

(** The RPC methods. *)
Definition KV_Put (req : HttpRequest) (m : PutRequest) : call N KVResponse :=
  DoPut (ResolveKey req (pr_key m)) (pr_value m) KVResponse_default.
Definition KV_Get (req : HttpRequest) (m : GetRequest) : call N KVResponse :=
  DoGet (ResolveKey req (gq_key m)) (gq_serializable m) KVResponse_default.
Definition KV_Delete (req : HttpRequest) (key : string) : call N KVResponse :=
  DoDelete (ResolveKey req key) KVResponse_default.
Definition KV_BatchPut (m : BatchPutRequest) : call N KVResponse :=
  DoBatchPut m KVResponse_default.
Definition KV_CompareAndSwap (req : HttpRequest) (m : CompareAndSwapRequest)
    : call N KVResponse :=
  DoCAS (ResolveKey req (cas_key m)) (cas_expect m) (cas_value m) KVResponse_default.

(** What comes after the CORS headers. *)
Definition KV_dispatch (req : HttpRequest) (response : KVResponse) : call N KVResponse :=
  let path := unresolved_path req in
  match http_method req with
  | HTTP_METHOD_GET =>
      DoGet path (bool_decide (GetQuery req "serializable" = Some "true")) response
  | HTTP_METHOD_DELETE => DoDelete path response
  | HTTP_METHOD_POST =>
      let body := request_attachment req in
      if has_suffix "/cas" path then fun n =>
        key ← without_suffix "/cas" path;
        let m := (JsonToCas body).2 in
        DoCAS key (cas_expect m) (cas_value m) response n
      else if String.eqb path "batch" then DoBatchPut (JsonToBatch body).2 response
      else DoPut path (pr_value (JsonToPut body).2) response
  | _ => mret (kv_error INTERNAL "unsupported http method" response)
  end.

Definition KV_Rest (req : HttpRequest) : call N (KVResponse * HttpResponse) := fun n =>
  '(handled, h) ← HandleCorsPreflight req HttpResponse_default;
  if (handled : bool) then Done (Some ((KVResponse_default, h), n))
  else (r ← KV_dispatch req KVResponse_default; mret (r, h)) n.
End kv.

(** * The configuration service *)

Section config.
Context `{KVCodec} `{JsonToProto} {N : Type} `{ConfigNode N}.

Definition config_error (code : Code) (message : string) (resp : ConfigResponse)
    : ConfigResponse := mkConfigResponse code message (cfr_kv resp) (cfr_history resp).

(** The end of [DoPublish] and of [DoRollback]. *)
Definition config_fill (result : ApplyResult) (resp : ConfigResponse) : ConfigResponse :=
  mkConfigResponse (ar_code result)
    (if redirects (ar_code result) (ar_leader_id result)
     then not_leader_message (ar_leader_id result) else ar_message result)
    (if decide (ar_code result = OK) then Some (ar_kv result) else cfr_kv resp)
    (cfr_history resp).

Definition DoPublish (key value : string) (resp : ConfigResponse) : call N ConfigResponse :=
  if negb (IsValidKey key) then mret (config_error INVALID_ARGUMENT "empty key" resp)
  else
    result ← node_Apply (CmdPublish key value);
    mret (config_fill result resp).

Definition DoGetConfig (key : string) (version : Z) (resp : ConfigResponse)
    : call N ConfigResponse :=
  result ← node_GetConfig key version;
  mret (if decide (cr_code result = OK)
        then mkConfigResponse (cr_code result) (cr_message result) (Some (cr_kv result))
               (cfr_history resp ++ cr_history result)
        else config_error (cr_code result) (cr_message result) resp).

Definition DoRollback (key : string) (target_version : Z) (resp : ConfigResponse)
    : call N ConfigResponse :=
  if negb (IsValidKey key) then mret (config_error INVALID_ARGUMENT "empty key" resp)
  else
    result ← node_Apply (CmdRollback key target_version);
    mret (config_fill result resp).

Definition Config_Publish (req : HttpRequest) (m : PublishRequest) : call N ConfigResponse :=
  DoPublish (ResolveKey req (pb_key m)) (pb_value m) ConfigResponse_default.
Definition Config_GetConfig (req : HttpRequest) (m : GetConfigRequest) : call N ConfigResponse :=
  DoGetConfig (ResolveKey req (gc_key m)) (gc_version m) ConfigResponse_default.
Definition Config_Rollback (req : HttpRequest) (m : RollbackRequest) : call N ConfigResponse :=
  DoRollback (ResolveKey req (rb_key m)) (rb_target_version m) ConfigResponse_default.

Definition Config_dispatch (req : HttpRequest) (response : ConfigResponse)
    : call N ConfigResponse :=
  let path := unresolved_path req in
  match http_method req with
  | HTTP_METHOD_GET => DoGetConfig path (QueryInt64 req "version" 0) response
  | HTTP_METHOD_POST =>
      let body := request_attachment req in
      if has_suffix "/rollback" path then fun n =>
        key ← without_suffix "/rollback" path;
        DoRollback key (rb_target_version (JsonToRollback body).2) response n
      else DoPublish path (pb_value (JsonToPublish body).2) response
  | _ => mret (config_error INTERNAL "unsupported http method" response)
  end.

Definition Config_Rest (req : HttpRequest) : call N (ConfigResponse * HttpResponse) := fun n =>
  '(handled, h) ← HandleCorsPreflight req HttpResponse_default;
  if (handled : bool) then Done (Some ((ConfigResponse_default, h), n))
  else (r ← Config_dispatch req ConfigResponse_default; mret (r, h)) n.
End config.
