(* ===== verification/Services.v ===== *)
(** Model of the watch, the admin and the dashboard service
    (src/src/server/watch_service_impl, admin_service_impl and
    dashboard_service_impl). *)
From Stdlib Require Import Ascii.
From S2P Require Import Prelude CxxStd StoreKey Proto LevelDB Store StoreOps WatchHub WatchCall.
From S2P Require Import Node RestUtil.

(** * Watch *)

Record WatchRequest := mkWatchRequest {
  wq_key : string; wq_from_revision : Z; wq_timeout_ms : Z }.

Record WatchResponse := mkWatchResponse {
  wrs_code : Code;
  wrs_message : string;
  wrs_current_revision : Z;
  wrs_events : list WatchEvent
}.

Definition WatchResponse_default : WatchResponse := mkWatchResponse OK "" 0 [].

Section watch.
Context {N : Type} `{ConfigNode N}.

(** [hub_watch]: what the hub answers to the call (WatchCall.v). *)
Definition DoWatch (key : string) (from_revision timeout_ms server_deadline_us : Z)
    (hub_watch : WatchArgs -> WatchResult) (resp : WatchResponse) : call N WatchResponse :=
  result ← node_Watch (mkArgs key from_revision timeout_ms server_deadline_us true) hub_watch;
  mret (mkWatchResponse (wr_code result) (wr_message result) (wr_current_revision result)
          (wrs_events resp ++ wr_events result)).

Definition Watch_Watch (req : HttpRequest) (m : WatchRequest)
    (hub_watch : WatchArgs -> WatchResult) : call N WatchResponse :=
  DoWatch (wq_key m) (wq_from_revision m) (wq_timeout_ms m) (deadline_us req) hub_watch
    WatchResponse_default.

Definition Watch_Rest (req : HttpRequest) (hub_watch : WatchArgs -> WatchResult)
    : call N (WatchResponse * HttpResponse) := fun n =>
  '(handled, h) ← HandleCorsPreflight req HttpResponse_default;
  if (handled : bool) then Done (Some ((WatchResponse_default, h), n))
  else if negb (bool_decide (http_method req = HTTP_METHOD_GET)) then
    Done (Some ((mkWatchResponse INTERNAL "unsupported http method, use GET" 0 [], h), n))
  else
    (r ← DoWatch (unresolved_path req) (QueryInt64 req "from_revision" 0)
           (QueryInt64 req "timeout_ms" 30000) (deadline_us req) hub_watch
           WatchResponse_default;
     mret (r, h)) n.
End watch.

(** * Admin *)

Record GetHealthResponse := mkGetHealthResponse {
  hl_code : Code;
  hl_message : string;
  hl_role : string;
  hl_term : Z;
  hl_commit_index : Z;
  hl_applied_index : Z;
  hl_leader_id : string;
  hl_peers : list string
}.

Definition GetHealthResponse_default : GetHealthResponse := mkGetHealthResponse OK "" "" 0 0 0 "" [].

Record AdminResponse := mkAdminResponse { ad_code : Code; ad_message : string }.

Section admin.
Context {N : Type} `{ConfigNode N}.

Definition GetHealth (req : HttpRequest) : call N (GetHealthResponse * HttpResponse) := fun n =>
  '(handled, h) ← HandleCorsPreflight req HttpResponse_default;
  if (handled : bool) then Done (Some ((GetHealthResponse_default, h), n))
  else
    Done (Some ((mkGetHealthResponse OK "ok" (node_Role n) (node_Term n) (node_CommitIndex n)
                   (node_AppliedIndex n) (node_LeaderId n) (node_Peers n), h), n)).

Definition conf_change_method (change : string -> call N ConfChangeResult) (req : HttpRequest)
    (peer : string) : call N (AdminResponse * HttpResponse) := fun n =>
  '(handled, h) ← HandleCorsPreflight req HttpResponse_default;
  if (handled : bool) then Done (Some ((mkAdminResponse OK "", h), n))
  else (result ← change peer; mret (mkAdminResponse (cc_code result) (cc_message result), h)) n.

Definition Admin_AddPeer := conf_change_method node_AddPeer.
Definition Admin_RemovePeer := conf_change_method node_RemovePeer.
End admin.

(** * Dashboard *)

(** [path.find_last_of('.')] and the rest. *)
Definition extension (path : string) : outcome string :=
  match rfind_char "." path with
  | None => Done ""
  | Some dot => substr_from path (dot + 1)
  end.

Definition ContentType (path : string) : outcome string :=
  ext ← extension path;
  Done (if String.eqb ext "html" || String.eqb ext "" then "text/html; charset=utf-8"
        else if String.eqb ext "css" then "text/css; charset=utf-8"
        else if String.eqb ext "js" then "application/javascript; charset=utf-8"
        else if String.eqb ext "json" then "application/json"
        else if String.eqb ext "svg" then "image/svg+xml"
        else if String.eqb ext "png" then "image/png"
        else if String.eqb ext "ico" then "image/x-icon"
        else "application/octet-stream").

(** What an [std::ifstream] opened on a path has: where seeking to the end leads
    ([tellg], -1 when it fails), and the bytes a read from the start gives, or
    [None] when reading fails.  A directory opens too. *)
Record OpenFile := mkOpenFile { of_end : Z; of_bytes : option string }.

Definition string_max_size : Z := int64_max.

(** [n] bytes of [s], with zeros behind it: the buffer is resized first. *)
Fixpoint read_into (n : nat) (s : string) : string :=
  match n with
  | O => ""
  | S n' =>
      match s with
      | "" => String (ascii_of_nat 0) (read_into n' "")
      | String c s' => String c (read_into n' s')
      end
  end.

Definition ReadFile (file : option OpenFile) : outcome (option string) :=
  match file with
  | None => Done None
  | Some f =>
      if of_end f <? 0 then Done None
      else if string_max_size <=? of_end f then Throws LengthError
      else match of_bytes f with
           | None => Done None
           | Some s => Done (Some (read_into (Z.to_nat (of_end f)) s))
           end
  end.

Definition HTTP_STATUS_NOT_FOUND : Z := 404.

(** [open]: the files under the working directory of the server. *)
Definition Dashboard_Rest (web_dir : string) (open : string -> option OpenFile)
    (req : HttpRequest) : outcome HttpResponse :=
  let h := HttpResponse_default in
  let not_found := Done (set_status_code HTTP_STATUS_NOT_FOUND h) in
  if negb (bool_decide (http_method req = HTTP_METHOD_GET)) then not_found
  else
    let path := unresolved_path req in
    let path := if String.eqb path "" then "index.html" else path in
    if starts_with "/" path || bool_decide (is_Some (find_str ".." path)) then not_found
    else
      contents ← ReadFile (open (web_dir +:+ "/" +:+ path));
      match contents with
      | None => not_found
      | Some contents =>
          ct ← ContentType path;
          Done (mkHttpResponse (status_code h) (headers h) ct
                  (response_attachment h +:+ contents))
      end.
