(* ===== verification/Server.v ===== *)
(** Model of src/src/server/server.{h,cpp} and of the start of the program
    (src/src/main/server_main.cpp): how the store, the hub, the node and the
    services are put together, and the background compaction. *)
From S2P Require Import Prelude CxxStd StoreKey Proto LevelDB Store StoreOps WatchHub WatchCall.
From S2P Require Import Node StateMachine RaftNode RestUtil KVService Services.

Record ServerOptions := mkServerOptions {
  opt_port : string;          (** printed in decimal *)
  opt_listen_ip : string;
  opt_data_dir : string;
  opt_node_name : string;
  opt_peers : string;
  opt_web_dir : string
}.

Definition kKeepVersions : Z := 10.

(** The services in the order they are registered. *)
Inductive service := KVSvc | ConfigSvc | WatchSvc | AdminSvc | DashSvc.

#[export] Instance service_eq_dec : EqDecision service.
Proof. solve_decision. Defined.

Definition service_name (s : service) : string :=
  match s with
  | KVSvc => "KVService" | ConfigSvc => "ConfigService" | WatchSvc => "WatchService"
  | AdminSvc => "AdminService" | DashSvc => "DashboardService"
  end.

(** The paths of each service over HTTP, as the RPC library reads them: a [*] matches
    the rest of the path, which the method gets as its unresolved path. *)
Definition kKVServiceRestMappings : string := "/v1/kv/* => Rest,".
Definition kConfigServiceRestMappings : string := "/v1/config/* => Rest,".
Definition kWatchServiceRestMappings : string := "/v1/watch/* => Rest,".
Definition kAdminServiceRestMappings : string :=
  "/healthz => GetHealth," +:+ "/addpeer => AddPeer," +:+ "/removepeer => RemovePeer,".
Definition kDashboardRestMappings : string := "/dashboard => Rest," +:+ "/dashboard/* => Rest,".

(** The services with their paths. *)
Definition all_services : list (service * string) :=
  [(KVSvc, kKVServiceRestMappings); (ConfigSvc, kConfigServiceRestMappings);
   (WatchSvc, kWatchServiceRestMappings); (AdminSvc, kAdminServiceRestMappings);
   (DashSvc, kDashboardRestMappings)].

(** What the libraries answer while the server starts: 0 is success. *)
Record StartEnv (B : Type) := mkStartEnv {
  se_add_raft_service : Z;
  se_AddService : service -> string -> Z;
  se_Start : Z;
  se_listen_addr : bool;
  se_initial_conf : bool;
  se_raft_start : B * Z
}.
Arguments mkStartEnv {B}.
Arguments se_add_raft_service {B}.
Arguments se_AddService {B}.
Arguments se_Start {B}.
Arguments se_listen_addr {B}.
Arguments se_initial_conf {B}.
Arguments se_raft_start {B}.

Section server.
Context `{KVCodec} `{CmdCodec} {DB FS B : Type} `{LevelDB DB} `{LevelDBFiles DB FS} `{Braft B}.

Inductive ServerNode :=
| NodeLocal (n : LocalNode DB)
| NodeRaft (o : @RaftNodeObj DB B).

(** [sv_services]: registered with the RPC server; [sv_started]: it accepts
    requests; [sv_compaction]: the thread runs. *)
Record ConfigraftServer := mkServer {
  sv_node : option ServerNode;
  sv_services : list (service * string);
  sv_started : bool;
  sv_compaction : bool
}.

Definition ConfigraftServer_new : ConfigraftServer := mkServer None [] false false.

Definition with_services (sv : ConfigraftServer) (l : list (service * string)) : ConfigraftServer :=
  mkServer (sv_node sv) l (sv_started sv) (sv_compaction sv).

(** The five [AddService] calls: the error message of the one that fails. *)
Fixpoint add_services (env : StartEnv B) (sv : ConfigraftServer) (l : list (service * string))
    : option string * ConfigraftServer :=
  match l with
  | [] => (None, sv)
  | (s, mappings) :: l' =>
      if negb (se_AddService env s mappings =? 0)
      then (Some ("fail to add " +:+ service_name s), sv)
      else add_services env (with_services sv (sv_services sv ++ [(s, mappings)])) l'
  end.

Definition cluster (opts : ServerOptions) : bool := negb (String.eqb (opt_node_name opts) "").

(** The first part of [Init], up to [server_.Start].  The store is what is left
    to hand over; when the call returns it is destroyed. *)
Definition Init_services (opts : ServerOptions) (env : StartEnv B) (fs : FS)
    : outcome (option string * ConfigraftServer * Store DB * FS) :=
  let sv := ConfigraftServer_new in
  let store_dir := opt_data_dir opts +:+ "/data" in
  '(store_err, store, fs) ← Open (mkStore None "") fs store_dir;
  match store_err with
  | Some e => Done (Some ("open store " +:+ store_dir +:+ " failed: " +:+ e), sv, store, fs)
  | None =>
      let hub := Some (WatchHub_new kMaxWatchEvents) in
      if cluster opts && negb (AddServiceToServer (se_add_raft_service env))
      then Done (Some "fail to add raft service", sv, store, fs)
      else
        let '(node, store) :=
          if cluster opts then (NodeRaft (RnCreated hub), store)
          else (NodeLocal (mkLocalNode store hub ∅), mkStore None "") in
        match add_services env (mkServer (Some node) [] false false) all_services with
        | (Some err, sv) => Done (Some err, sv, store, fs)
        | (None, sv) =>
            if negb (se_Start env =? 0)
            then Done (Some ("fail to start brpc server on port " +:+ opt_port opts), sv,
                       store, fs)
            else Done (None, mkServer (sv_node sv) (sv_services sv) true false, store, fs)
        end
  end.

(** The rest: the node of a cluster gets its store, and the compaction thread
    is started. *)
Definition Init_node (opts : ServerOptions) (env : StartEnv B) (sv : ConfigraftServer)
    (store : Store DB) : option string * ConfigraftServer :=
  let started node :=
    mkServer (Some node) (sv_services sv) (sv_started sv) true in
  match sv_node sv with
  | Some (NodeRaft (RnCreated hub)) =>
      let '(ok, err, o) :=
        RaftNode_Init hub store (se_listen_addr env) (se_initial_conf env) (se_raft_start env)
          "configraft" (opt_listen_ip opts) (opt_port opts) (opt_peers opts) in
      if (ok : bool) then (None, started (NodeRaft o))
      else (Some err, mkServer (Some (NodeRaft o)) (sv_services sv) (sv_started sv) false)
  | Some node => (None, started node)
  | None => (None, sv)
  end.

(** [Init]: [None] when it returns true.  A store that no node took over is
    closed with the [unique_ptr] that holds it. *)
Definition Init (opts : ServerOptions) (env : StartEnv B) (fs : FS)
    : outcome (option string * ConfigraftServer * FS) :=
  '(err, sv, store, fs) ← Init_services opts env fs;
  match err with
  | Some e => Done (Some e, sv, snd (reset_db store fs))
  | None => let '(err, sv) := Init_node opts env sv store in Done (err, sv, fs)
  end.

(** [main]: the exit status. *)
Definition server_main (opts : ServerOptions) (env : StartEnv B) (fs : FS) : outcome Z :=
  '(err, _, _) ← Init opts env fs;
  Done (match err with None => 0 | Some _ => 1 end).
End server.

(** * The compaction thread and the destructor *)

Section shutdown.
Context {N : Type} `{ConfigNode N}.

(** Where the thread of [StartCompactionLoop] is: not created, about to lock
    [compaction_mu_], at the condition of its loop, in [wait_for] (with the mutex
    released; [notified]: the condition variable has been signalled), behind it,
    in [Compaction], ended.  It holds the mutex at [ThTest], [ThWoken] and
    [ThCompact]. *)
Inductive thread_pc :=
| ThNone
| ThStart
| ThTest
| ThWait (notified : bool)
| ThWoken
| ThCompact
| ThEnded.

(** Where the destructor is: not called, about to lock the mutex and set the
    flag, about to notify, about to join, behind the join.  It holds the mutex
    inside the step that sets the flag only. *)
Inductive dtor_pc := DtNone | DtLock | DtNotify | DtJoin | DtDone.

Record Shutdown := mkShutdown {
  sd_stop : bool;           (** [stop_compaction_] *)
  sd_thread : thread_pc;
  sd_dtor : dtor_pc;
  sd_node : N
}.

Definition holds_mutex (t : thread_pc) : bool :=
  match t with ThTest | ThWoken | ThCompact => true | _ => false end.

(** [StartCompactionLoop]; [started] is false when [Init] returned before it. *)
Definition StartCompactionLoop (started : bool) (n : N) : Shutdown :=
  mkShutdown false (if started then ThStart else ThNone) DtNone n.

(** A step of the thread; [None] when it has to wait.  [woken]: the minute has
    passed, or the wait ended spuriously. *)
Definition thread_step (woken : bool) (s : Shutdown) : option Shutdown :=
  let at_pc t n := mkShutdown (sd_stop s) t (sd_dtor s) n in
  match sd_thread s with
  | ThNone | ThEnded => None
  | ThStart => Some (at_pc ThTest (sd_node s))
  | ThTest => Some (at_pc (if sd_stop s then ThEnded else ThWait false) (sd_node s))
  | ThWait notified =>
      if notified || woken then Some (at_pc ThWoken (sd_node s)) else None
  | ThWoken => Some (at_pc (if sd_stop s then ThEnded else ThCompact) (sd_node s))
  | ThCompact =>
      match node_Compaction kKeepVersions (sd_node s) with
      | Done (Some (_, n)) => Some (at_pc ThTest n)
      | _ => None
      end
  end.

Definition notify (t : thread_pc) : thread_pc :=
  match t with ThWait _ => ThWait true | _ => t end.

(** A step of [~ConfigraftServer]. *)
Definition dtor_step (s : Shutdown) : option Shutdown :=
  let at_pc stop t d := Some (mkShutdown stop t d (sd_node s)) in
  match sd_dtor s with
  | DtNone => at_pc (sd_stop s) (sd_thread s) DtLock
  | DtLock => if holds_mutex (sd_thread s) then None else at_pc true (sd_thread s) DtNotify
  | DtNotify => at_pc (sd_stop s) (notify (sd_thread s)) DtJoin
  | DtJoin =>
      match sd_thread s with
      | ThNone | ThEnded => at_pc (sd_stop s) (sd_thread s) DtDone
      | _ => None
      end
  | DtDone => None
  end.

(** Requests use the node meanwhile. *)
Inductive shutdown_step : Shutdown -> Shutdown -> Prop :=
| SdThread woken s s' : thread_step woken s = Some s' -> shutdown_step s s'
| SdDtor s s' : dtor_step s = Some s' -> shutdown_step s s'
| SdServe s n : shutdown_step s (mkShutdown (sd_stop s) (sd_thread s) (sd_dtor s) n).
End shutdown.
Arguments Shutdown : clear implicits.
