(* ===== verification/RestFacts.v ===== *)
(** Facts about the string functions and the CORS headers of RestUtil.v that the
    properties of the services use. *)
From Stdlib Require Import Ascii.
From S2P Require Import Prelude CxxStd StoreKey Proto LevelDB Store StoreOps WatchHub WatchCall.
From S2P Require Import Node RestUtil.

(** * Searching *)

Fixpoint char_free (c : ascii) (s : string) : bool :=
  match s with "" => true | String d s' => negb (Ascii.eqb c d) && char_free c s' end.

Lemma rfind_char_bound c s i : rfind_char c s = Some i -> (i < String.length s)%nat.
Proof.
  revert i. induction s as [|d s IH]; intros i; simpl; [done|].
  destruct (rfind_char c s) as [j|]; [intros [= <-]; specialize (IH j eq_refl); lia|].
  destruct (Ascii.eqb c d); [|done]. intros [= <-]. lia.
Qed.

Lemma rfind_char_free c s : char_free c s = true -> rfind_char c s = None.
Proof.
  induction s as [|d s IH]; simpl; [done|]. rewrite andb_true_iff, negb_true_iff.
  intros [-> Hs]. by rewrite IH.
Qed.

Lemma rfind_char_last c p s :
  char_free c s = true -> rfind_char c (p +:+ String c s) = Some (String.length p).
Proof.
  intros Hs. induction p as [|d p IH]; simpl.
  - by rewrite rfind_char_free, Ascii.eqb_refl.
  - by rewrite IH.
Qed.

Lemma starts_with_length p s : starts_with p s = true -> (String.length p <= String.length s)%nat.
Proof. rewrite starts_with_spec. intros [t ->]. rewrite str_length_app. lia. Qed.

Lemma starts_with_head c d p s : Ascii.eqb c d = false -> starts_with (String c p) (String d s) = false.
Proof.
  intros Hcd. apply not_true_is_false. rewrite starts_with_spec. intros [t [= -> _]].
  by rewrite Ascii.eqb_refl in Hcd.
Qed.

Lemma find_str_eq p s :
  find_str p s = if starts_with p s then Some 0%nat
                 else match s with "" => None | String _ s' => S <$> find_str p s' end.
Proof. by destruct s. Qed.

Lemma find_str_bound p s i :
  find_str p s = Some i -> (i + String.length p <= String.length s)%nat.
Proof.
  revert i. induction s as [|d s IH]; intros i; rewrite find_str_eq;
    destruct (starts_with p _) eqn:E;
    try (intros [= <-]; by apply starts_with_length in E); try done.
  destruct (find_str p s) as [j|]; [|done]. intros [= <-]. specialize (IH j eq_refl). simpl. lia.
Qed.

Lemma find_str_skip c p q s :
  char_free c q = true -> find_str (String c p) (q +:+ String c p +:+ s) = Some (String.length q).
Proof.
  induction q as [|d q IH]; intros Hq; rewrite find_str_eq.
  - by rewrite (starts_with_app (String c p) s : starts_with _ ("" +:+ _) = true).
  - simpl in Hq. apply andb_true_iff in Hq as [Hd%negb_true_iff Hq].
    change (String d q +:+ ?t) with (String d (q +:+ t)).
    rewrite starts_with_head by done. cbn [String.length]. by rewrite IH.
Qed.

(** A string found nowhere is in no suffix. *)
Lemma find_str_app_r p q s : is_Some (find_str p s) -> is_Some (find_str p (q +:+ s)).
Proof.
  intros Hs. induction q as [|d q IH]; [done|]. rewrite find_str_eq.
  change (String d q +:+ s) with (String d (q +:+ s)).
  destruct (starts_with p _); [by eexists|]. destruct IH as [i ->]. by eexists.
Qed.

(** * Suffixes of a path *)

Lemma has_suffix_spec suffix path :
  has_suffix suffix path = true <-> exists key, path = key +:+ suffix.
Proof.
  unfold has_suffix. rewrite andb_true_iff, Nat.leb_le, String.eqb_eq. split.
  - intros [Hl Hs]. exists (String.substring 0 (String.length path - String.length suffix) path).
    pose proof (substring_split path (String.length path - String.length suffix)) as Hp.
    replace (_ - (_ - _))%nat with (String.length suffix) in Hp by lia.
    rewrite Hs in Hp. symmetry. apply Hp. lia.
  - intros [key ->]. rewrite str_length_app. split; [lia|].
    replace (_ + _ - _)%nat with (String.length key) by lia.
    by rewrite substring_app_skip, substring_all.
Qed.

Lemma without_suffix_app key suffix : without_suffix suffix (key +:+ suffix) = Done key.
Proof.
  unfold without_suffix, substr. rewrite str_length_app, decide_True by lia.
  replace (_ + _ - _)%nat with (String.length key) by lia. by rewrite substring_prefix.
Qed.

Lemma str_app_inj_r (a b suffix : string) : a +:+ suffix = b +:+ suffix -> a = b.
Proof. intros E. by apply str_app_inj_length_r in E as [? _]. Qed.

Lemma no_suffix suffix path :
  (forall key, path <> key +:+ suffix) -> has_suffix suffix path = false.
Proof.
  intros Hn. apply not_true_is_false. intros [key E]%has_suffix_spec. by destruct (Hn key).
Qed.

(** * CORS *)

Lemma cut_port_Done s : exists t, cut_port s = Done t.
Proof.
  unfold cut_port. destruct (rfind_char ":" s); [|by eexists].
  unfold substr. rewrite decide_True by lia. by eexists.
Qed.

Lemma IsAllowedOrigin_Done origin host : exists b, IsAllowedOrigin origin host = Done b.
Proof.
  unfold IsAllowedOrigin. destruct (_ || _); [by eexists|].
  destruct (find_str "://" origin) as [i|] eqn:E; [|by eexists].
  apply find_str_bound in E. simpl in E.
  assert (exists t, substr_from origin (i + 3) = Done t) as [t Et].
  { unfold substr_from, substr. rewrite decide_True by lia. by eexists. }
  rewrite Et. destruct (cut_port_Done t) as [t1 E1], (cut_port_Done host) as [t2 E2].
  cbn. rewrite E1. cbn. rewrite E2. by eexists.
Qed.

(** The preflight test never throws, and is the test for OPTIONS. *)
Lemma HandleCorsPreflight_Done req h :
  exists h', HandleCorsPreflight req h = Done (bool_decide (http_method req = HTTP_METHOD_OPTIONS), h').
Proof.
  unfold HandleCorsPreflight.
  assert (forall k : HttpResponse -> outcome (bool * HttpResponse), 
    (forall h, exists h', k h = Done (bool_decide (http_method req = HTTP_METHOD_OPTIONS), h')) ->
    exists h', (match GetHeader req "Origin", GetHeader req "Host" with
      | Some origin, Some host =>
          allowed ← IsAllowedOrigin origin host;
          Done (if (allowed : bool)
                then SetHeader "Vary" "Origin" (SetHeader "Access-Control-Allow-Origin" origin h)
                else h)
      | _, _ => Done h
      end ≫= k) = Done (bool_decide (http_method req = HTTP_METHOD_OPTIONS), h')) as Hk.
  { intros k Hk. destruct (GetHeader req "Origin") as [o|], (GetHeader req "Host") as [host|];
      try apply Hk. destruct (IsAllowedOrigin_Done o host) as [b ->]. apply Hk. }
  apply Hk. intros h1. destruct (decide _) as [Hm|Hm].
  - rewrite bool_decide_eq_true_2 by done. by eexists.
  - rewrite bool_decide_eq_false_2 by done. by eexists.
Qed.
