(* ===== verification/ServiceTheorems.v ===== *)
(** Properties of the services over any node that keeps the promise of
    [ConfigNodeSpec], and of the HTTP front end for any node at all. *)
From Stdlib Require Import Ascii.
From S2P Require Import Prelude CxxStd StoreKey Proto LevelDB Store StoreSpec StoreRepr.
From S2P Require Import StoreRefine StoreScan StoreOps WatchHub WatchCall Node RestUtil RestFacts.
From S2P Require Import KVService Services.

(** * Requests over HTTP *)

(** A request that is no preflight: what [Rest] answers is what the dispatcher
    answers, with the CORS headers. *)
Section rest.
Context `{KVCodec} `{JsonToProto} {N : Type} `{ConfigNode N}.

Lemma KV_Rest_dispatch req n resp h n' :
  http_method req <> HTTP_METHOD_OPTIONS ->
  KV_Rest req n = Done (Some ((resp, h), n')) ->
  KV_dispatch req KVResponse_default n = Done (Some (resp, n')).
Proof.
  intros Hm. unfold KV_Rest. destruct (HandleCorsPreflight_Done req HttpResponse_default) as [h1 ->].
  rewrite bool_decide_eq_false_2 by done. simpl. unfold mbind, call_bind at 1.
  destruct (KV_dispatch _ _ n) as [[[r n1]|]|]; try done. by intros [= <- _ <-].
Qed.

Lemma Config_Rest_dispatch req n resp h n' :
  http_method req <> HTTP_METHOD_OPTIONS ->
  Config_Rest req n = Done (Some ((resp, h), n')) ->
  Config_dispatch req ConfigResponse_default n = Done (Some (resp, n')).
Proof.
  intros Hm. unfold Config_Rest.
  destruct (HandleCorsPreflight_Done req HttpResponse_default) as [h1 ->].
  rewrite bool_decide_eq_false_2 by done. simpl. unfold mbind, call_bind at 1.
  destruct (Config_dispatch _ _ n) as [[[r n1]|]|]; try done. by intros [= <- _ <-].
Qed.
End rest.

(** * Reading what was written *)

Section service.
Context `{KVCodecSpec} `{JsonToProto} {N : Type} `{ConfigNode N} `{!ConfigNodeSpec N}.
Implicit Types (n : N) (a : Mvcc) (req : HttpRequest).

Lemma nd_others_wf n a b : nd_rep n a -> nd_others a b -> wf b.
Proof. intros Hn Hs%nd_others_steps. eapply store_steps_wf; [exact Hs|by eapply nd_wf]. Qed.

Lemma node_Apply_record n a cmd (kv : Mvcc -> KV) r n' :
  nd_rep n a -> cmd_valid cmd -> cmd_fits a cmd ->
  (forall a1, snd (spec_apply a1 cmd) = ok_result (kv a1)) ->
  node_Apply cmd n = Done (Some (r, n')) -> nd_within n' ->
  (exists a1 a2, nd_others a a1 /\ wf a1 /\ cmd_fits a1 cmd /\ r = ok_result (kv a1) /\
     wf (fst (spec_apply a1 cmd)) /\ nd_others (fst (spec_apply a1 cmd)) a2 /\ nd_rep n' a2) \/
  (refusal (ar_code r) /\ exists a2, nd_others a a2 /\ nd_rep n' a2).
Proof.
  intros Hn Hv Hf Hkv E Hw.
  destruct (nd_Apply n a cmd r n' Hn Hv Hf E Hw) as [(a1 & a2 & Ho & Hf1 & -> & ? & ?)|?];
    [left|by right].
  assert (wf a1) as Hw1 by (eapply nd_others_wf; [exact Hn|exact Ho]).
  exists a1, a2. split_and!; try done. by apply spec_apply_wf.
Qed.

Lemma spec_record_bytes a key value deleted :
  wf a -> m_rev a < int64_max -> utf8_valid key = true -> utf8_valid value = true ->
  (0 <? KV_ByteSizeLong (spec_record a key value deleted))%nat = true.
Proof.
  intros Hw Hr Hk Hv. apply KV_ByteSizeLong_pos.
  - apply (wf_main_encodable (spec_commit a (spec_record a key value deleted))) with (k := key);
      [by apply spec_record_wf|]. simpl. by rewrite lookup_insert_eq.
  - intros E. apply (f_equal kv_revision) in E. simpl in E.
    destruct (wf_bounds _ Hw). lia.
Qed.

Lemma FillResponse_record kv :
  (0 <? KV_ByteSizeLong kv)%nat = true ->
  FillResponse (ok_result kv) KVResponse_default = mkKVResponse OK "" (Some kv) [].
Proof.
  intros Hb. unfold FillResponse. rewrite decide_True by done.
  change (ar_kv (ok_result kv)) with kv. by rewrite Hb.
Qed.

Lemma DoGet_answer n a key s resp n' :
  nd_rep n a -> DoGet key s KVResponse_default n = Done (Some (resp, n')) -> nd_within n' ->
  exists a', nd_others a a' /\ nd_rep n' a' /\
  (refusal (kvr_code resp) \/
   match spec_get a' key with
   | Some kv => kvr_code resp = OK /\ kvr_kv resp = Some kv
   | None => kvr_code resp = KEY_NOT_FOUND /\ kvr_kv resp = None
   end).
Proof.
  intros Hn E Hw. unfold DoGet, mbind, call_bind in E.
  destruct (node_Get key s n) as [[[r n1]|]|] eqn:Eg; [|done|done].
  unfold mret, call_ret in E. simplify_eq/=.
  destruct (nd_Get _ _ _ _ _ _ Hn Eg Hw) as (a' & Ho & Hn1 & Hr). exists a'.
  split_and!; [done|done|]. destruct Hr as [?|Hr]; [by left|right].
  rewrite Hr. by destruct (spec_get a' key).
Qed.

Lemma FillResponse_refused r : refusal (ar_code r) ->
  refusal (kvr_code (FillResponse r KVResponse_default)) /\
  kvr_kv (FillResponse r KVResponse_default) = None.
Proof. unfold FillResponse. by intros [Hf|Hf]; rewrite Hf; (split; [by left + right|]). Qed.

Lemma DoPut_answer n a key value resp n' :
  nd_rep n a -> m_rev a < int64_max -> utf8_valid key = true -> utf8_valid value = true ->
  key <> "" -> DoPut key value KVResponse_default n = Done (Some (resp, n')) -> nd_within n' ->
  (exists a1 a2, nd_others a a1 /\
     resp = mkKVResponse OK "" (Some (spec_record a1 key value false)) [] /\
     wf (spec_put a1 key value) /\ nd_others (spec_put a1 key value) a2 /\ nd_rep n' a2) \/
  (refusal (kvr_code resp) /\ kvr_kv resp = None /\ exists a2, nd_others a a2 /\ nd_rep n' a2).
Proof.
  intros Hn Hr Hk Hv Hne E Hw. unfold DoPut, IsValidKey in E.
  destruct (String.eqb_spec key "") as [?|_]; [done|]. simpl in E. unfold mbind, call_bind in E.
  destruct (node_Apply (CmdPut key value) n) as [[[r n1]|]|] eqn:Ea; [|done|done].
  unfold mret, call_ret in E. simplify_eq/=.
  destruct (node_Apply_record n a (CmdPut key value) (fun a1 => spec_record a1 key value false) r n'
    Hn (conj Hk Hv)) as [(a1 & a2 & Ho1 & Hw1 & Hf1 & -> & Hw2 & Ho2 & Hn')|[Hf Hn']];
    [unfold cmd_fits; simpl; lia|done|exact Ea|exact Hw| |].
  - left. exists a1, a2. split_and!; try done.
    apply FillResponse_record, (spec_record_bytes a1 key value false); try done.
    unfold cmd_fits in Hf1. simpl in Hf1. lia.
  - right. destruct (FillResponse_refused r Hf) as [? ?]. done.
Qed.

(** What a later read of [key] may say after [kv] was written: the record that is
    current then, which is [kv] or a newer one. *)
Definition reads_back (a : Mvcc) (key : string) (kv : KV) (code : Code) (read : option KV) : Prop :=
  exists b cur, nd_others a b /\ m_main b !! key = Some cur /\
    (cur = kv \/ kv_revision kv < kv_revision cur) /\
    if kv_deleted cur then code = KEY_NOT_FOUND /\ read = None
    else code = OK /\ read = Some cur.

Lemma put_reads_back a1 key value a2 a3 code read :
  wf (spec_put a1 key value) ->
  rtc store_step (spec_put a1 key value) a2 -> nd_others a2 a3 ->
  match spec_get a3 key with
  | Some kv => code = OK /\ read = Some kv
  | None => code = KEY_NOT_FOUND /\ read = None
  end -> reads_back a2 key (spec_record a1 key value false) code read.
Proof.
  intros Hw Ho2 Ho3 Hr.
  assert (rtc store_step (spec_put a1 key value) a3) as Hs
    by (transitivity a2; [done|by apply nd_others_steps]).
  destruct (store_steps_not_older _ _ Hs Hw key (spec_record a1 key value false)) as (cur & Hc & Hcur).
  { unfold spec_put, spec_commit. simpl. apply lookup_insert_eq. }
  exists a3, cur. split_and!; try done. unfold spec_get in Hr. rewrite Hc in Hr.
  by destruct (kv_deleted cur).
Qed.

(** C15. A write through the HTTP interface is read back, also when other clients
    write and compaction runs at the same time.  [POST /v1/kv/{key}] with a key that
    is not reserved answers OK with the record that a put makes in a state between
    the request and the answer, of its next revision and version; then every later
    [GET /v1/kv/{key}], on the node as it is then, returns this record or one that
    others have written since, or says that the key has been deleted since, or is
    refused.  Otherwise the POST is refused: its answer has no record, and the node then
    serves a state that others have led to or, on a cluster, the refused write itself,
    whose task may be committed after the node has been told that it failed.  On a node
    that the client has to itself ([nd_others] is equality) the record has the next
    revision and version, it is what is read, and a refused write has changed nothing.
    The value is the one the JSON parser left in its message: whether the body parsed
    is not looked at. *)
Theorem rest_put_then_get n a req resp h n' :
  let key := unresolved_path req in
  let value := pr_value (JsonToPut (request_attachment req)).2 in
  nd_rep n a -> m_rev a < int64_max -> utf8_valid key = true -> utf8_valid value = true ->
  http_method req = HTTP_METHOD_POST -> key <> "" -> key <> "batch" ->
  has_suffix "/cas" key = false ->
  KV_Rest req n = Done (Some ((resp, h), n')) -> nd_within n' ->
  (exists a1 a2, nd_others a a1 /\ nd_others (spec_put a1 key value) a2 /\ nd_rep n' a2 /\
   let kv := mkKV key value (spec_version a1 key) (m_rev a1 + 1) false in
   kvr_code resp = OK /\ kvr_kv resp = Some kv /\
   forall n1 b req2 resp2 h2 n2, nd_others a2 b -> nd_rep n1 b ->
     http_method req2 = HTTP_METHOD_GET -> unresolved_path req2 = key ->
     KV_Rest req2 n1 = Done (Some ((resp2, h2), n2)) -> nd_within n2 ->
     refusal (kvr_code resp2) \/ reads_back a2 key kv (kvr_code resp2) (kvr_kv resp2)) \/
  (refusal (kvr_code resp) /\ kvr_kv resp = None /\
   exists a2, nd_others a a2 /\ nd_rep n' a2).
Proof.
  intros key value Hn Hr Hk Hv Hm Hne Hnb Hnc E Hwi.
  apply KV_Rest_dispatch in E; [|by rewrite Hm]. unfold KV_dispatch in E.
  fold key in E. rewrite Hm, Hnc in E. fold value in E.
  destruct (String.eqb_spec key "batch") as [?|_]; [done|].
  destruct (DoPut_answer n a key value resp n' Hn Hr Hk Hv Hne E Hwi)
    as [(a1 & a2 & Ho1 & -> & Hw1 & Ho2 & Hn')|?]; [left|by right].
  exists a1, a2. split; [done|]. split; [done|]. split; [done|]. intros kv. split_and!; [done..|].
  intros n1 b req2 resp2 h2 n2 Hob Hn1 Hm2 Hp2 E2 Hw2.
  apply KV_Rest_dispatch in E2; [|by rewrite Hm2]. unfold KV_dispatch in E2.
  rewrite Hm2, Hp2 in E2.
  destruct (DoGet_answer _ _ _ _ _ _ Hn1 E2 Hw2) as (a3 & Ho3 & _ & [?|E3]); [by left|right].
  eapply put_reads_back; [done|by apply nd_others_steps|by transitivity b|done].
Qed.

(** A published record is in the index until it is reclaimed, and in the history as
    long as it is in the index. *)
Lemma publish_published a key value :
  wf (spec_publish a key value) -> published (spec_publish a key value) (spec_record a key value false).
Proof.
  intros Hw. split; [|left; simpl; apply lookup_insert_eq].
  exists (spec_record a key value false). simpl. split; [apply lookup_insert_eq|lia].
Qed.

(** C33. A configuration published over HTTP can be fetched by its version:
    [POST /v1/config/{key}] answers OK with the record that a publish makes in a state
    between the request and the answer, which extends the history of the key by this
    record; then [GET /v1/config/{key}?version=N], for any text of the query that
    [strtoll] reads as its version, returns that very record, whatever others have
    published since, or VERSION_NOT_FOUND, and then compaction has reclaimed it.  The
    history that comes with the record is that of the key in a state that is read
    after the record, and the record is in it unless compaction has reclaimed it in
    between.  Otherwise the node has refused the write. *)
Theorem rest_publish_then_get n a req resp h n' :
  let key := unresolved_path req in
  let value := pb_value (JsonToPublish (request_attachment req)).2 in
  nd_rep n a -> m_rev a < int64_max -> utf8_valid key = true -> utf8_valid value = true ->
  http_method req = HTTP_METHOD_POST -> key <> "" -> has_suffix "/rollback" key = false ->
  Config_Rest req n = Done (Some ((resp, h), n')) -> nd_within n' ->
  (exists a1 a2, nd_others a a1 /\ nd_others (spec_publish a1 key value) a2 /\ nd_rep n' a2 /\
   let kv := mkKV key value (spec_version a1 key) (m_rev a1 + 1) false in
   cfr_code resp = OK /\ cfr_kv resp = Some kv /\
   spec_history (spec_publish a1 key value) key = spec_history a1 key ++ [kv] /\
   forall n1 b req2 text resp2 h2 n2, nd_others a2 b -> nd_rep n1 b ->
     http_method req2 = HTTP_METHOD_GET -> unresolved_path req2 = key ->
     GetQuery req2 "version" = Some text -> text <> "" -> strtoll text 10 = kv_version kv ->
     Config_Rest req2 n1 = Done (Some ((resp2, h2), n2)) -> nd_within n2 ->
     exists a3 a4, nd_others b a3 /\ nd_others a3 a4 /\
     ((cfr_code resp2 = OK /\ cfr_kv resp2 = Some kv /\
       cfr_history resp2 = spec_history a4 key /\
       (kv ∈ cfr_history resp2 \/ m_cfg a4 !! (key, kv_version kv) = None)) \/
      (cfr_code resp2 = VERSION_NOT_FOUND /\ m_cfg a3 !! (key, kv_version kv) = None))) \/
  (refusal (cfr_code resp) /\ exists a2, nd_others a a2 /\ nd_rep n' a2).
Proof.
  intros key value Hn Hr Hk Hv Hm Hne Hnr E Hwi.
  apply Config_Rest_dispatch in E; [|by rewrite Hm]. unfold Config_dispatch in E.
  fold key in E. rewrite Hm, Hnr in E. fold value in E. unfold DoPublish, IsValidKey in E.
  destruct (String.eqb_spec key "") as [?|_]; [done|]. simpl in E. unfold mbind, call_bind in E.
  destruct (node_Apply (CmdPublish key value) n) as [[[r n1]|]|] eqn:Ea; [|done|done].
  unfold mret, call_ret in E. simplify_eq/=.
  destruct (node_Apply_record n a (CmdPublish key value) (fun a1 => spec_record a1 key value false) r n'
    Hn (conj Hk Hv)) as [(a1 & a2 & Ho1 & Hw1 & Hf1 & -> & Hw2 & Ho2 & Hn')|[Hf Hn']];
    [unfold cmd_fits; simpl; lia|done|exact Ea|exact Hwi| |].
  2: { right. split; [|done]. simpl. by destruct Hf as [Hf|Hf]; rewrite Hf; [left|right]. }
  left. exists a1, a2. split; [done|]. split; [done|]. split; [done|].
  set (kv := spec_record a1 key value false).
  split_and!; [done..| |].
  { by rewrite spec_publish_history, decide_True by done. }
  intros n1 b req2 text resp2 h2 n2 Hob Hn1 Hm2 Hp2 Hq Ht Hs E2 Hwi2.
  destruct (spec_version_range a1 Hw1 key) as [Hv1 Hv2].
  unfold cmd_fits in Hf1. simpl in Hf1.
  apply Config_Rest_dispatch in E2; [|by rewrite Hm2]. unfold Config_dispatch in E2.
  rewrite Hm2, Hp2 in E2. unfold QueryInt64 in E2. rewrite Hq in E2.
  destruct (String.eqb_spec text "") as [?|_]; [done|]. rewrite Hs in E2.
  unfold DoGetConfig, mbind, call_bind in E2.
  destruct (node_GetConfig key (spec_version a1 key) n1) as [[[c n3]|]|] eqn:Eg; [|done|done].
  unfold mret, call_ret in E2. simpl in E2.
  assert (n3 = n2) as -> by by destruct (decide (cr_code c = OK)); simplify_eq/=.
  apply (nd_GetConfig _ b) in Eg as (a3 & a4 & Ho3 & Ho4 & Hn3 & ->);
    [|done|unfold in_int64, int64_min; lia|done].
  exists a3, a4. split; [done|]. split; [done|].
  assert (nd_others (spec_publish a1 key value) a3) as Ho by (transitivity a2; [done|by transitivity b]).
  assert (forall x, nd_others (spec_publish a1 key value) x ->
    m_cfg x !! (key, spec_version a1 key) = Some kv \/ m_cfg x !! (key, spec_version a1 key) = None)
    as Hpub.
  { intros x Hx. assert (published x kv) as [_ Hp]; [|exact Hp].
    eapply store_steps_published; [by apply nd_others_steps|by apply publish_published]. }
  unfold config_result, spec_get_config in E2. destruct (Z.leb_spec (spec_version a1 key) 0); [lia|].
  destruct (Hpub a3 Ho) as [Hp|Hp]; rewrite Hp in E2; [left|right; by simplify_eq/=].
  simplify_eq/=. split_and!; [done..|].
  destruct (Hpub a4) as [Hp4|Hp4]; [by transitivity a3|left|by right].
  apply list_elem_of_fmap.
  exists (spec_version a1 (unresolved_path req), spec_record a1 (unresolved_path req) value false).
  split; [done|]. by rewrite elem_of_sorted_entries, versions_of_lookup.
Qed.
End service.

(** * Empty keys *)

Definition no_empty_key (cmd : RaftCmd) : bool :=
  match cmd with
  | CmdPut key _ | CmdDelete key | CmdCas key _ _ | CmdPublish key _ | CmdRollback key _ =>
      negb (String.eqb key "")
  | CmdBatchPut puts => forallb (fun e => negb (String.eqb e.1 "")) puts
  | CmdNotSet => false
  end.

(** The node with another [Apply] for the commands that have an empty key. *)
Definition with_bad_apply {N} (I : ConfigNode N) (bad : RaftCmd -> call N ApplyResult)
    : ConfigNode N := {|
  node_Apply cmd := if no_empty_key cmd then node_Apply cmd else bad cmd;
  node_Get := node_Get;
  node_GetConfig := node_GetConfig;
  node_Watch := node_Watch;
  node_Compaction := node_Compaction;
  node_AddPeer := node_AddPeer;
  node_RemovePeer := node_RemovePeer;
  node_IsLeader := node_IsLeader;
  node_LeaderId := node_LeaderId;
  node_Role := node_Role;
  node_Term := node_Term;
  node_CommitIndex := node_CommitIndex;
  node_AppliedIndex := node_AppliedIndex;
  node_Peers := node_Peers;
  node_CurrentRevision := node_CurrentRevision
|}.

Section keys.
Context `{KVCodec} `{JsonToProto} {N : Type} (I : ConfigNode N)
  (bad : RaftCmd -> call N ApplyResult).
Let J : ConfigNode N := with_bad_apply I bad.

Lemma batch_puts_no_empty es batch puts :
  forallb (fun e => negb (String.eqb e.1 "")) batch = true ->
  batch_puts es batch = Some puts -> no_empty_key (CmdBatchPut puts) = true.
Proof.
  revert batch. induction es as [|e es IH]; intros batch Hb E; simpl in E; [by simplify_eq|].
  unfold IsValidKey in E. destruct (String.eqb (pr_key e) "") eqn:Ee; [done|]. simpl in E.
  eapply IH; [|exact E]. rewrite forallb_app, Hb. simpl. by rewrite Ee.
Qed.

Lemma DoPut_J key value resp : DoPut (H1 := J) key value resp = DoPut key value resp.
Proof. unfold DoPut, IsValidKey. simpl. by destruct (String.eqb key ""). Qed.

Lemma DoDelete_J key resp : DoDelete (H1 := J) key resp = DoDelete key resp.
Proof. unfold DoDelete, IsValidKey. simpl. by destruct (String.eqb key ""). Qed.

Lemma DoCAS_J key e value resp : DoCAS (H1 := J) key e value resp = DoCAS key e value resp.
Proof. unfold DoCAS, IsValidKey. simpl. by destruct (String.eqb key ""). Qed.

Lemma DoPublish_J key value resp : DoPublish (H1 := J) key value resp = DoPublish key value resp.
Proof. unfold DoPublish, IsValidKey. simpl. by destruct (String.eqb key ""). Qed.

Lemma DoRollback_J key t resp : DoRollback (H1 := J) key t resp = DoRollback key t resp.
Proof. unfold DoRollback, IsValidKey. simpl. by destruct (String.eqb key ""). Qed.

Lemma DoBatchPut_J m resp : DoBatchPut (H1 := J) m resp = DoBatchPut m resp.
Proof.
  unfold DoBatchPut. destruct (batch_puts (entries m) []) as [puts|] eqn:E; [|done].
  pose proof (batch_puts_no_empty (entries m) [] puts eq_refl E) as Hn. simpl in *.
  by rewrite Hn.
Qed.

(** No command with an empty key reaches the node, which would put entries
    under the bare prefixes of the three indexes: whatever the node would do
    with such a command, every HTTP request and every RPC of the two services
    has the same outcome. *)
Theorem empty_keys_stopped :
  (forall req n, KV_Rest (H1 := J) req n = KV_Rest req n) /\
  (forall req n, Config_Rest (H1 := J) req n = Config_Rest req n) /\
  (forall req m n, KV_Put (H1 := J) req m n = KV_Put req m n) /\
  (forall req key n, KV_Delete (H1 := J) req key n = KV_Delete req key n) /\
  (forall req m n, KV_CompareAndSwap (H1 := J) req m n = KV_CompareAndSwap req m n) /\
  (forall m n, KV_BatchPut (H1 := J) m n = KV_BatchPut m n) /\
  (forall req m n, Config_Publish (H1 := J) req m n = Config_Publish req m n) /\
  (forall req m n, Config_Rollback (H1 := J) req m n = Config_Rollback req m n).
Proof.
  assert (forall req resp n, KV_dispatch (H1 := J) req resp n = KV_dispatch req resp n) as Hkv.
  { intros req resp n. unfold KV_dispatch.
    destruct (http_method req); rewrite ?DoDelete_J; try done.
    destruct (has_suffix "/cas" _); [|by destruct (String.eqb _ "batch"); rewrite ?DoBatchPut_J, ?DoPut_J].
    destruct (without_suffix "/cas" _) as [key|]; [|done]. simpl. by rewrite DoCAS_J. }
  assert (forall req resp n, Config_dispatch (H1 := J) req resp n = Config_dispatch req resp n) as Hcf.
  { intros req resp n. unfold Config_dispatch.
    destruct (http_method req); rewrite ?DoPublish_J; try done.
    destruct (has_suffix "/rollback" _); [|done].
    destruct (without_suffix "/rollback" _) as [key|]; [|done]. simpl. by rewrite DoRollback_J. }
  split_and!; intros.
  - unfold KV_Rest. destruct (HandleCorsPreflight req _) as [[[] h]|]; [done| |done]. simpl.
    unfold mbind, call_bind at 1 2. by rewrite Hkv.
  - unfold Config_Rest. destruct (HandleCorsPreflight req _) as [[[] h]|]; [done| |done]. simpl.
    unfold mbind, call_bind at 1 2. by rewrite Hcf.
  - unfold KV_Put. by rewrite DoPut_J.
  - unfold KV_Delete. by rewrite DoDelete_J.
  - unfold KV_CompareAndSwap. by rewrite DoCAS_J.
  - unfold KV_BatchPut. by rewrite DoBatchPut_J.
  - unfold Config_Publish. by rewrite DoPublish_J.
  - unfold Config_Rollback. by rewrite DoRollback_J.
Qed.
End keys.

(** * CORS *)

Definition port_text (port : option string) : string :=
  match port with Some p => String ":" p | None => "" end.

Lemma cut_port_text host port :
  char_free ":" host = true -> (forall p, port = Some p -> char_free ":" p = true) ->
  cut_port (host +:+ port_text port) = Done host.
Proof.
  intros Hh Hp. unfold cut_port. destruct port as [p|]; simpl.
  - rewrite rfind_char_last by auto. unfold substr. rewrite str_length_app, decide_True by lia.
    by rewrite substring_prefix.
  - by rewrite str_app_nil_r, rfind_char_free.
Qed.

Lemma IsAllowedOrigin_hosts scheme host port host' port' :
  char_free ":" scheme = true -> char_free ":" host = true -> char_free ":" host' = true ->
  (forall p, port = Some p -> char_free ":" p = true) ->
  (forall p, port' = Some p -> char_free ":" p = true) -> host' +:+ port_text port' <> "" ->
  IsAllowedOrigin (scheme +:+ "://" +:+ host +:+ port_text port) (host' +:+ port_text port') =
    Done (String.eqb host host').
Proof.
  intros Hs Hh Hh' Hp Hp' Hne. unfold IsAllowedOrigin.
  destruct (String.eqb_spec (scheme +:+ "://" +:+ host +:+ port_text port) "") as [E|_].
  { by destruct scheme. }
  destruct (String.eqb_spec (host' +:+ port_text port') "") as [E|_]; [done|]. cbn [orb].
  rewrite (find_str_skip ":" "//") by done.
  replace (String.length scheme + 3)%nat with (String.length (scheme +:+ "://"))
    by (by rewrite str_length_app).
  rewrite <-(str_app_assoc scheme "://" (host +:+ port_text port)), substr_from_app.
  rewrite outcome_bind_Done, !cut_port_text by done. done.
Qed.

(** The headers set for every request do not touch the one of the origin. *)
Lemma cors_tail req h1 b h' :
  (let h := SetHeader "Access-Control-Allow-Methods" "GET,POST,DELETE,OPTIONS" h1 in
   let h := SetHeader "Access-Control-Allow-Headers" "Content-Type" h in
   if decide (http_method req = HTTP_METHOD_OPTIONS) then Done (true, set_status_code 200 h)
   else Done (false, h)) = Done (b, h') ->
  headers h' !! "Access-Control-Allow-Origin" = headers h1 !! "Access-Control-Allow-Origin".
Proof.
  simpl. case_decide; intros [= <- <-]; simpl; by rewrite !lookup_insert_ne.
Qed.

(** C34. Cross-origin access is granted to the same host only.  The response
    carries [Access-Control-Allow-Origin] exactly when the origin of the request
    passes [IsAllowedOrigin], and then with that origin; and for hosts without a
    colon, with or without a port, an origin passes exactly when its host is the
    host of the request.  Bracketed IPv6 hosts are cut at their last colon when
    there is no port: a foreign one can pass, and the own one can be refused. *)
Theorem cors_same_host :
  (forall req h b h' o, headers h !! "Access-Control-Allow-Origin" = None ->
     HandleCorsPreflight req h = Done (b, h') ->
     (headers h' !! "Access-Control-Allow-Origin" = Some o <->
      GetHeader req "Origin" = Some o /\
      exists host, GetHeader req "Host" = Some host /\ IsAllowedOrigin o host = Done true)) /\
  (forall scheme host port host' port',
     char_free ":" scheme = true -> char_free ":" host = true -> char_free ":" host' = true ->
     (forall p, port = Some p -> char_free ":" p = true) ->
     (forall p, port' = Some p -> char_free ":" p = true) -> host' +:+ port_text port' <> "" ->
     IsAllowedOrigin (scheme +:+ "://" +:+ host +:+ port_text port) (host' +:+ port_text port') =
       Done (String.eqb host host')) /\
  IsAllowedOrigin "http://[::2]" "[::1]" = Done true /\
  IsAllowedOrigin "http://[::1]" "[::1]:8000" = Done false.
Proof.
  split_and!; [|exact IsAllowedOrigin_hosts|done|done].
  intros req h b h' o Hh. unfold HandleCorsPreflight.
  destruct (GetHeader req "Origin") as [o1|], (GetHeader req "Host") as [host|].
  1: destruct (IsAllowedOrigin_Done o1 host) as [[] Ha]; rewrite Ha, outcome_bind_Done.
  all: rewrite outcome_bind_Done; intros E%cors_tail; rewrite E.
  - simpl. rewrite lookup_insert_ne by done. rewrite lookup_insert_eq. split.
    + intros [= <-]. eauto.
    + by intros [[= <-] _].
  - rewrite Hh. split; [done|]. intros [[= <-] (host' & [= <-] & ?)]. congruence.
  - rewrite Hh. split; [done|]. by intros (_ & ? & ? & _).
  - rewrite Hh. split; [done|]. by intros [? _].
  - rewrite Hh. split; [done|]. by intros [? _].
Qed.

(** * Dashboard *)

(** The components of a path. *)
Fixpoint split_slash (s : string) : list string :=
  match s with
  | "" => [""]
  | String c s' =>
      match split_slash s' with
      | x :: l => if Ascii.eqb c "/" then "" :: x :: l else String c x :: l
      | [] => []
      end
  end.

Lemma split_slash_cons c s :
  exists x l, split_slash s = x :: l /\
    split_slash (String c s) = if Ascii.eqb c "/" then "" :: x :: l else String c x :: l.
Proof.
  revert c. induction s as [|d s IH]; intros c; [by exists "", []|].
  destruct (IH d) as (x & l & E & E'). simpl in *. rewrite E in *.
  destruct (Ascii.eqb d "/"); eauto.
Qed.

Lemma split_slash_head s x l : split_slash s = x :: l -> exists q, s = x +:+ q.
Proof.
  revert x l. induction s as [|c s IH]; intros x l E; [injection E as <- <-; by exists ""|].
  destruct (split_slash_cons c s) as (y & k & Ey & Es). rewrite Es in E.
  destruct (Ascii.eqb c "/"); injection E as <- <-; [by eexists|].
  destruct (IH _ _ Ey) as [q ->]. by exists q.
Qed.

Lemma split_slash_part s x : x ∈ split_slash s -> exists p q, s = p +:+ x +:+ q.
Proof.
  induction s as [|c s IH]; intros Hx.
  { apply list_elem_of_singleton in Hx as ->. by exists "", "". }
  destruct (split_slash_cons c s) as (y & k & Ey & Es). rewrite Es in Hx.
  assert (x ∈ split_slash s -> exists p q, String c s = p +:+ x +:+ q) as Hs.
  { intros (p & q & ->)%IH. by exists (String c p), q. }
  rewrite Ey in Hs. destruct (Ascii.eqb c "/").
  - apply elem_of_cons in Hx as [->|Hx]; [by exists "", (String c s)|by apply Hs].
  - apply elem_of_cons in Hx as [->|Hx]; [|apply Hs; by right].
    destruct (split_slash_head _ _ _ Ey) as [q ->]. by exists "", q.
Qed.

(** The path that is opened, when one is. *)
Definition dashboard_path (req : HttpRequest) : string :=
  if String.eqb (unresolved_path req) "" then "index.html" else unresolved_path req.

Lemma ContentType_Done p : exists ct, ContentType p = Done ct.
Proof.
  unfold ContentType, extension. destruct (rfind_char "." p) as [i|] eqn:E; [|by eexists].
  apply rfind_char_bound in E. unfold substr_from, substr. rewrite decide_True by lia. by eexists.
Qed.

(** C35. The dashboard serves files below its directory only: the answer depends on
    the files [web_dir/p] alone where [p] is relative and no component of [p] is
    [..].  It is 404, or 200 with the bytes of one such file; the call is left by
    an exception, which the handler does not catch, exactly when seeking to the
    end of the file yields a size no string can have, as for a directory. *)
Theorem dashboard_stays_inside web_dir open open' req :
  (forall p, starts_with "/" p = false -> ~ (".." ∈ split_slash p) ->
     open (web_dir +:+ "/" +:+ p) = open' (web_dir +:+ "/" +:+ p)) ->
  Dashboard_Rest web_dir open req = Dashboard_Rest web_dir open' req /\
  match Dashboard_Rest web_dir open req with
  | Done h => status_code h = 404 /\ response_attachment h = "" \/
      status_code h = 200 /\ exists f s,
        open (web_dir +:+ "/" +:+ dashboard_path req) = Some f /\ of_bytes f = Some s /\
        response_attachment h = read_into (Z.to_nat (of_end f)) s
  | Throws e => e = LengthError /\ exists f,
      open (web_dir +:+ "/" +:+ dashboard_path req) = Some f /\ string_max_size <= of_end f
  end.
Proof.
  intros Ho. unfold Dashboard_Rest. fold (dashboard_path req).
  destruct (negb _); [by split; [|left]|].
  destruct (starts_with "/" (dashboard_path req)) eqn:Hs; [by split; [|left]|]. cbn [orb].
  case_bool_decide as Hd; [by split; [|left]|].
  assert (~ (".." ∈ split_slash (dashboard_path req))) as Hn.
  { intros (p & q & E)%split_slash_part. apply Hd. rewrite E. apply find_str_app_r.
    rewrite find_str_eq, starts_with_app. eexists. reflexivity. }
  rewrite <-(Ho _ Hs Hn). split; [done|].
  destruct (open (web_dir +:+ "/" +:+ dashboard_path req)) as [f|]; simpl; [|by left].
  destruct (of_end f <? 0); [by left|].
  destruct (Z.leb_spec string_max_size (of_end f)).
  { split; [done|]. by exists f. }
  destruct (of_bytes f) as [s|] eqn:Es; simpl; [|by left].
  destruct (ContentType_Done (dashboard_path req)) as [ct ->]. right. split; [done|].
  by exists f, s.
Qed.
