(* ===== verification/ServerTheorems.v ===== *)
(** Properties of the start of the server, and the witnesses for the services. *)
From Stdlib Require Import Ascii.
From S2P Require Import Prelude CxxStd StoreKey Proto LevelDB Store StoreSpec StoreRepr StoreOps.
From S2P Require Import Demo WatchHub WatchCall Node StateMachine FsmTheorems RaftNode.
From S2P Require Import RaftTheorems Cluster RaftSpec RaftExamples RestUtil RestFacts KVService.
From S2P Require Import Services ServiceTheorems Server StoreMaintenance.

Section server.
Context `{KVCodec} `{CmdCodec} `{JsonToProto} {DB FS B : Type} `{LevelDB DB}
  `{LevelDBFiles DB FS} `{Braft B}.
Implicit Types (sv : @ConfigraftServer DB B) (opts : ServerOptions) (env : StartEnv B).

Lemma add_services_shape env sv l err sv' :
  add_services env sv l = (err, sv') ->
  sv_node sv' = sv_node sv /\ sv_started sv' = sv_started sv /\
  sv_compaction sv' = sv_compaction sv /\ (err = None -> sv_services sv' = sv_services sv ++ l).
Proof.
  revert sv. induction l as [|[s mappings] l IH]; intros sv E; simpl in E.
  - simplify_eq. rewrite app_nil_r. done.
  - destruct (negb _); [by simplify_eq|].
    destruct (IH _ E) as (-> & -> & -> & Hs). split_and!; try done.
    intros He. rewrite (Hs He). simpl. by rewrite <-app_assoc.
Qed.

#[local] Arguments add_services : simpl never.

(** What the first part of [Init] leaves when it succeeds. *)
Lemma Init_services_done opts env (fs : FS) sv store fs' :
  Init_services opts env fs = Done (None, sv, store, fs') ->
  sv_services sv = all_services /\ sv_started sv = true /\ sv_compaction sv = false /\
  exists d, let opened := mkStore (Some d) (opt_data_dir opts +:+ "/data") in
    let hub := Some (WatchHub_new kMaxWatchEvents) in
    if cluster opts then sv_node sv = Some (NodeRaft (RnCreated hub)) /\ store = opened
    else sv_node sv = Some (NodeLocal (mkLocalNode opened hub ∅)).
Proof.
  unfold Init_services, Open, OpenLocked. intros E.
  destruct (fs_create_directories fs _) as [fs1|]; [|done]. simpl in E.
  destruct (db_open fs1 _) as [[e|d] fs2]; [by simplify_eq/=|]. simpl in E.
  destruct (cluster opts) eqn:Ec; simpl in E.
  - destruct (negb (AddServiceToServer _)); [done|].
    destruct (add_services (DB := DB) env _ all_services) as [[e|] sv1] eqn:Ea; [done|].
    apply add_services_shape in Ea as (Hn & _ & _ & Hs).
    destruct (negb _); simplify_eq/=. split_and!; [by rewrite Hs|done|done|].
    exists d. by rewrite Hn.
  - destruct (add_services (DB := DB) env _ all_services) as [[e|] sv1] eqn:Ea; [done|].
    apply add_services_shape in Ea as (Hn & _ & _ & Hs).
    destruct (negb _); simplify_eq/=. split_and!; [by rewrite Hs|done|done|].
    exists d. by rewrite Hn.
Qed.

Lemma Init_services_compaction opts env (fs : FS) err sv store fs' :
  Init_services opts env fs = Done (err, sv, store, fs') -> sv_compaction sv = false.
Proof.
  unfold Init_services. intros E.
  destruct (Open _ fs _) as [[[[e|] st] fs1]|]; simpl in E; [by simplify_eq| |done].
  destruct (cluster opts && _); [by simplify_eq|].
  destruct (if cluster opts then _ else _) as [node st'].
  destruct (add_services (DB := DB) env _ all_services) as [[e|] sv1] eqn:Ea;
    apply add_services_shape in Ea as (_ & _ & Hc & _); [by simplify_eq|].
  destruct (negb _); by simplify_eq.
Qed.

(** C36. How the server comes up.  When [Init] succeeds, all five services are
    registered, the server accepts requests, the compaction thread runs, and the
    store that was opened belongs to the node: the local one, or the cluster
    node with its raft node; [main] then goes on to serve, and a failed [Init]
    leaves no compaction thread and exit status 1.  In between a cluster node
    serves without a store: the RPC server is started before [RaftNode::Init], and
    until that has run a request for a configuration, a serializable read and a
    watch run into the null pointer. *)
Theorem server_start opts env (fs : FS) :
  match Init opts env fs with
  | Throws _ => True
  | Done (Some _, sv, _) => sv_compaction sv = false /\
      server_main (B := B) opts env fs = Done 1
  | Done (None, sv, _) =>
      server_main (B := B) opts env fs = Done 0 /\
      sv_services sv = all_services /\ sv_started sv = true /\ sv_compaction sv = true /\
      exists d, let opened := mkStore (Some d) (opt_data_dir opts +:+ "/data") in
        if cluster opts
        then exists n, sv_node sv = Some (NodeRaft (RnInitialized n)) /\
               fs_store (rn_fsm n) = opened /\ rn_node n = Some (fst (se_raft_start env))
        else exists n, sv_node sv = Some (NodeLocal n) /\ ln_store n = opened
  end /\
  forall sv store fs', cluster opts = true ->
    Init_services opts env fs = Done (None, sv, store, fs') ->
    sv_started sv = true /\ exists o, sv_node sv = Some (NodeRaft o) /\
    forall fuel hub_watch req, http_method req = HTTP_METHOD_GET ->
      Config_Rest (H1 := RaftNode_node fuel) req o = Throws NullDeref /\
      Watch_Rest (H := RaftNode_node fuel) req hub_watch o = Throws NullDeref /\
      (GetQuery req "serializable" = Some "true" ->
       KV_Rest (H1 := RaftNode_node fuel) req o = Throws NullDeref).
Proof.
  split.
  - unfold server_main, Init.
    destruct (Init_services opts env fs) as [[[[[e|] sv] store] fs']|] eqn:E; simpl; [|  |done].
    + split; [|done]. by eapply Init_services_compaction.
    + pose proof (Init_services_done _ _ _ _ _ _ E) as (Hsv & Hst & _ & d & Hd).
      unfold Init_node, RaftNode_Init. destruct (cluster opts).
      * destruct Hd as [Hn ->]. rewrite Hn.
        destruct (se_listen_addr env), (se_initial_conf env); simpl; try done.
        destruct (se_raft_start env) as [b res]. simpl. destruct (res =? 0); simpl; [|done].
        split_and!; try done. exists d. eexists. by split_and!.
      * rewrite Hd. split_and!; try done. exists d. eexists. by split_and!.
  - intros sv store fs' Hc E. apply Init_services_done in E as (_ & Hst & _ & d & Hd).
    rewrite Hc in Hd. destruct Hd as [Hn _]. split; [done|]. eexists. split; [exact Hn|].
    intros fuel hub_watch req Hm.
    destruct (HandleCorsPreflight_Done req HttpResponse_default) as [h1 Eh].
    rewrite bool_decide_eq_false_2 in Eh by (by rewrite Hm).
    unfold Config_Rest, Watch_Rest, KV_Rest, Config_dispatch, KV_dispatch. rewrite Eh, Hm.
    split_and!; [done|done|]. intros ->. done.
Qed.
End server.

(** * Witnesses for the services *)

(** A parser that takes the body for the value. *)
Definition body_codec : JsonToProto := {|
  JsonToPut body := (true, mkPutRequest "" body);
  JsonToCas body := (true, mkCasRequest "" "" body);
  JsonToBatch body := (true, mkBatchPutRequest []);
  JsonToPublish body := (true, mkPublishRequest "" body);
  JsonToRollback body := (true, mkRollbackRequest "" 0)
|}.

#[local] Existing Instances body_codec alone alone_spec.

Definition demo_local : LocalNode MemDB.t :=
  mkLocalNode (mkStore (Some demo_db) "data") None ∅.

Lemma demo_local_rep : nd_rep demo_local demo_state.
Proof.
  change (local_rep demo_local demo_state). exists demo_db, "data".
  split; [reflexivity|exact demo_rep].
Qed.

Definition demo_request (m : HttpMethod) (path body : string) (version : option string)
    : HttpRequest :=
  mkHttpRequest m path (fun _ => None)
    (fun name => if String.eqb name "version" then version else None) body 0.

Lemma demo_room : m_rev demo_state < int64_max.
Proof. by vm_compute. Qed.

#[local] Existing Instances SoloRaft.ops SoloRaft.log SoloRaft.tasks.

(** The same state behind a node of a cluster. *)
Definition demo_cluster : @RaftNodeObj MemDB.t SoloRaft.t := RnInitialized demo_node.

Lemma demo_cluster_rep : raft_rep (m_rev demo_state) demo_cluster demo_state.
Proof.
  exists demo_node, demo_raft. split; [reflexivity|]. split; [reflexivity|].
  split; [reflexivity|]. split; [exists demo_db, "data"; split; [reflexivity|exact demo_rep]|].
  change (commands (br_delivered demo_raft)) with ([] : list RaftCmd). simpl. lia.
Qed.

Definition delivered_after {X} (o : outcome (option (X * @RaftNodeObj MemDB.t SoloRaft.t))) :
    option (list string) :=
  match o with
  | Done (Some (_, RnInitialized n)) => br_delivered <$> rn_node n
  | _ => None
  end.

Lemma delivered_after_Some {X} (o : outcome (option (X * @RaftNodeObj MemDB.t SoloRaft.t))) :
  delivered_after o = Some [SerializeCmd demo_put] ->
  exists x n', o = Done (Some (x, n')) /\ raft_within (m_rev demo_state) n'.
Proof.
  destruct o as [[[x [hub|n]]|]|]; try done.
  cbn [delivered_after]. intros (b & Hb & Hd)%fmap_Some.
  exists x, (RnInitialized n). split; [done|]. exists n, b. rewrite <-Hd.
  split_and!; [done|done|..]; destruct demo_log_ok as [Hf Hs]; [|done].
  eapply Forall_impl; [exact Hf|]. by intros cmd [? _].
Qed.

Definition demo_post : HttpRequest := demo_request HTTP_METHOD_POST "app" "x" None.

(** On the local node, where the record has the next revision and version, and on the
    cluster node. *)
Lemma rest_put_then_get_witness :
  (exists resp h n', KV_Rest demo_post demo_local = Done (Some ((resp, h), n')) /\
    ((kvr_code resp = OK /\ kvr_kv resp = Some (mkKV "app" "x" 4 7 false)) \/
     refusal (kvr_code resp))) /\
  (exists resp h n', KV_Rest (H1 := RaftNode_node 3) demo_post demo_cluster =
      Done (Some ((resp, h), n')) /\
    ((kvr_code resp = OK /\ exists v r, kvr_kv resp = Some (mkKV "app" "x" v r false)) \/
     refusal (kvr_code resp))).
Proof.
  assert (mkKV "app" "x" (spec_version demo_state "app") (m_rev demo_state + 1) false =
    mkKV "app" "x" 4 7 false) as Hkv4 by (vm_compute; reflexivity).
  split.
  - destruct (answers_Done (KV_Rest demo_post demo_local)) as [[[resp h] n'] E].
    { vm_compute. reflexivity. }
    exists resp, h, n'. split; [exact E|].
    destruct (rest_put_then_get (H1 := body_codec) demo_local demo_state demo_post
      resp h n' demo_local_rep demo_room eq_refl eq_refl eq_refl)
      as [(a1 & a2 & Ho & _ & _ & Hc & Hkv & _)|[Hr _]];
      [discriminate|discriminate|reflexivity|exact E|exact I| |].
    + left. split; [exact Hc|]. change (demo_state = a1) in Ho. subst a1.
      rewrite <-Hkv4. exact Hkv.
    + right. exact Hr.
  - destruct (delivered_after_Some (KV_Rest (H1 := RaftNode_node 3) demo_post demo_cluster))
      as ([resp h] & n' & E & Hwi); [vm_compute; reflexivity|].
    exists resp, h, n'. split; [exact E|].
    destruct (rest_put_then_get (H1 := body_codec) (H2 := RaftNode_node 3)
      (ConfigNodeSpec0 := RaftNode_spec (m_rev demo_state) 3) demo_cluster demo_state demo_post
      resp h n' demo_cluster_rep demo_room eq_refl eq_refl eq_refl)
      as [(a1 & a2 & _ & _ & _ & Hc & Hkv & _)|[Hr _]];
      [discriminate|discriminate|reflexivity|exact E|exact Hwi| |].
    + left. split; [exact Hc|]. do 2 eexists. exact Hkv.
    + right. exact Hr.
Defined.

Lemma rest_publish_then_get_witness :
  exists resp h n', Config_Rest demo_post demo_local = Done (Some ((resp, h), n')) /\
    ((cfr_code resp = OK /\ exists v r, cfr_kv resp = Some (mkKV "app" "x" v r false)) \/
     refusal (cfr_code resp)).
Proof.
  destruct (answers_Done (Config_Rest demo_post demo_local)) as [[[resp h] n'] E].
  { vm_compute. reflexivity. }
  exists resp, h, n'. split; [exact E|].
  destruct (rest_publish_then_get (H1 := body_codec) demo_local demo_state demo_post
    resp h n' demo_local_rep demo_room eq_refl eq_refl eq_refl)
    as [(a1 & a2 & _ & _ & _ & Hc & Hkv & _)|[Hr _]];
    [discriminate|reflexivity|exact E|exact I| |].
  - left. split; [exact Hc|]. do 2 eexists. exact Hkv.
  - right. exact Hr.
Defined.

(** The files of a directory [web]: the page, and the directory itself. *)
Definition demo_files (path : string) : option OpenFile :=
  if String.eqb path "web/index.html" then Some (mkOpenFile 4 (Some "page"))
  else if String.eqb path "web/." then Some (mkOpenFile int64_max None)
  else None.

Lemma dashboard_stays_inside_witness :
  Dashboard_Rest "web" demo_files (demo_request HTTP_METHOD_GET "" "" None) =
    Done (mkHttpResponse 200 ∅ "text/html; charset=utf-8" "page") /\
  Dashboard_Rest "web" demo_files (demo_request HTTP_METHOD_GET "." "" None) =
    Throws LengthError /\
  Dashboard_Rest "web" demo_files (demo_request HTTP_METHOD_GET "../x" "" None) =
    Dashboard_Rest "web" (fun p => if String.eqb p "web/../x" then Some (mkOpenFile 1 (Some "y"))
                                   else demo_files p)
      (demo_request HTTP_METHOD_GET "../x" "" None).
Proof.
  split; [vm_compute; reflexivity|split; [vm_compute; reflexivity|]].
  apply (dashboard_stays_inside "web" demo_files
    (fun p => if String.eqb p "web/../x" then Some (mkOpenFile 1 (Some "y")) else demo_files p)
    (demo_request HTTP_METHOD_GET "../x" "" None)).
  intros p _ Hp. destruct (String.eqb_spec ("web" +:+ "/" +:+ p) "web/../x") as [E|_];
    [|reflexivity].
  injection E as ->. destruct Hp. left.
Defined.
