(* ===== verification/FrontEnd.v ===== *)
(** What the key-value and the configuration service make of a request, over HTTP
    and over RPC: the operation it asks for, stated from the paths and methods a
    client uses, and the answer to each operation in terms of the abstract state. *)
From S2P Require Import Prelude CxxStd StoreKey Proto LevelDB Store StoreSpec StoreRepr.
From S2P Require Import StoreRefine StoreScan StoreOps WatchHub WatchCall Node RestUtil RestFacts.
From S2P Require Import Demo StateMachine RaftNode KVService Services ServiceTheorems.
From S2P Require Import FsmTheorems RaftTheorems RaftExamples RaftSpec Server ServerTheorems.

(** * Operations *)

(** What a request asks for; [OpReply] is answered without the node. *)
Inductive Op :=
| OpWrite (cmd : RaftCmd)
| OpGet (key : string) (serializable : bool)
| OpGetConfig (key : string) (version : Z)
| OpReply (code : Code) (message : string).

Definition on_key (key : string) (cmd : RaftCmd) : Op :=
  if decide (key = "") then OpReply INVALID_ARGUMENT "empty key" else OpWrite cmd.

Definition on_batch (es : list PutRequest) : Op :=
  if decide (Exists (fun e => pr_key e = "") es)
  then OpReply INVALID_ARGUMENT "batch contains empty key"
  else OpWrite (CmdBatchPut ((fun e => (pr_key e, pr_value e)) <$> es)).

(** The node can take the operation: the strings of the request are valid UTF-8 and
    there are revisions left. *)
Definition op_valid `{KVCodec} (a : Mvcc) (op : Op) : Prop :=
  match op with
  | OpWrite cmd => cmd_valid cmd /\ cmd_fits a cmd
  | OpGetConfig _ version => in_int64 version
  | _ => True
  end.

(** The entry points of the two services. *)
Inductive KVEntry :=
| KvHttp (req : HttpRequest)
| KvPut (req : HttpRequest) (m : PutRequest)
| KvGet (req : HttpRequest) (m : GetRequest)
| KvDelete (req : HttpRequest) (key : string)
| KvBatchPut (m : BatchPutRequest)
| KvCas (req : HttpRequest) (m : CompareAndSwapRequest).

Inductive ConfigEntry :=
| CfHttp (req : HttpRequest)
| CfPublish (req : HttpRequest) (m : PublishRequest)
| CfGetConfig (req : HttpRequest) (m : GetConfigRequest)
| CfRollback (req : HttpRequest) (m : RollbackRequest).

Section enter.
Context `{KVCodec} `{JsonToProto} {N : Type} `{ConfigNode N}.

Definition kv_enter (e : KVEntry) : call N KVResponse :=
  match e with
  | KvHttp req => r ← KV_Rest req; mret (r.1)
  | KvPut req m => KV_Put req m
  | KvGet req m => KV_Get req m
  | KvDelete req key => KV_Delete req key
  | KvBatchPut m => KV_BatchPut m
  | KvCas req m => KV_CompareAndSwap req m
  end.

Definition config_enter (e : ConfigEntry) : call N ConfigResponse :=
  match e with
  | CfHttp req => r ← Config_Rest req; mret (r.1)
  | CfPublish req m => Config_Publish req m
  | CfGetConfig req m => Config_GetConfig req m
  | CfRollback req m => Config_Rollback req m
  end.
End enter.

(** * What a request asks for *)

Lemma batch_no_cas key : "batch" <> key +:+ "/cas".
Proof.
  intros E. assert (has_suffix "/cas" "batch" = true) as Hs by (apply has_suffix_spec; by exists key).
  by vm_compute in Hs.
Qed.

Section asks.
Context `{JsonToProto}.

(** [/v1/kv/{key}], [/v1/kv/{key}/cas] and [/v1/kv/batch]. *)
Inductive kv_asks : KVEntry -> Op -> Prop :=
| AskPreflight req :
    http_method req = HTTP_METHOD_OPTIONS -> kv_asks (KvHttp req) (OpReply OK "")
| AskOther req :
    http_method req = HTTP_METHOD_OTHER ->
    kv_asks (KvHttp req) (OpReply INTERNAL "unsupported http method")
| AskGet req key :
    http_method req = HTTP_METHOD_GET -> unresolved_path req = key ->
    kv_asks (KvHttp req) (OpGet key (bool_decide (GetQuery req "serializable" = Some "true")))
| AskDelete req key :
    http_method req = HTTP_METHOD_DELETE -> unresolved_path req = key ->
    kv_asks (KvHttp req) (on_key key (CmdDelete key))
| AskCas req key m :
    http_method req = HTTP_METHOD_POST -> unresolved_path req = key +:+ "/cas" ->
    m = (JsonToCas (request_attachment req)).2 ->
    kv_asks (KvHttp req) (on_key key (CmdCas key (cas_expect m) (cas_value m)))
| AskBatch req :
    http_method req = HTTP_METHOD_POST -> unresolved_path req = "batch" ->
    kv_asks (KvHttp req) (on_batch (entries (JsonToBatch (request_attachment req)).2))
| AskPut req key :
    http_method req = HTTP_METHOD_POST -> unresolved_path req = key ->
    (forall key', key <> key' +:+ "/cas") -> key <> "batch" ->
    kv_asks (KvHttp req) (on_key key (CmdPut key (pr_value (JsonToPut (request_attachment req)).2)))
| AskRpcPut req m key :
    key = ResolveKey req (pr_key m) -> kv_asks (KvPut req m) (on_key key (CmdPut key (pr_value m)))
| AskRpcGet req m :
    kv_asks (KvGet req m) (OpGet (ResolveKey req (gq_key m)) (gq_serializable m))
| AskRpcDelete req k key :
    key = ResolveKey req k -> kv_asks (KvDelete req k) (on_key key (CmdDelete key))
| AskRpcBatch m : kv_asks (KvBatchPut m) (on_batch (entries m))
| AskRpcCas req m key :
    key = ResolveKey req (cas_key m) ->
    kv_asks (KvCas req m) (on_key key (CmdCas key (cas_expect m) (cas_value m))).

(** [/v1/config/{key}], with [?version=N], and [/v1/config/{key}/rollback]. *)
Inductive config_asks : ConfigEntry -> Op -> Prop :=
| AskCfPreflight req :
    http_method req = HTTP_METHOD_OPTIONS -> config_asks (CfHttp req) (OpReply OK "")
| AskCfOther req :
    http_method req = HTTP_METHOD_OTHER \/ http_method req = HTTP_METHOD_DELETE ->
    config_asks (CfHttp req) (OpReply INTERNAL "unsupported http method")
| AskCfGet req key :
    http_method req = HTTP_METHOD_GET -> unresolved_path req = key ->
    config_asks (CfHttp req) (OpGetConfig key (QueryInt64 req "version" 0))
| AskCfRollback req key :
    http_method req = HTTP_METHOD_POST -> unresolved_path req = key +:+ "/rollback" ->
    config_asks (CfHttp req)
      (on_key key (CmdRollback key (rb_target_version (JsonToRollback (request_attachment req)).2)))
| AskCfPublish req key :
    http_method req = HTTP_METHOD_POST -> unresolved_path req = key ->
    (forall key', key <> key' +:+ "/rollback") ->
    config_asks (CfHttp req)
      (on_key key (CmdPublish key (pb_value (JsonToPublish (request_attachment req)).2)))
| AskRpcPublish req m key :
    key = ResolveKey req (pb_key m) ->
    config_asks (CfPublish req m) (on_key key (CmdPublish key (pb_value m)))
| AskRpcGetConfig req m :
    config_asks (CfGetConfig req m) (OpGetConfig (ResolveKey req (gc_key m)) (gc_version m))
| AskRpcRollback req m key :
    key = ResolveKey req (rb_key m) ->
    config_asks (CfRollback req m) (on_key key (CmdRollback key (rb_target_version m))).

(** A request asks for one operation. *)
Lemma kv_asks_unique e op op' : kv_asks e op -> kv_asks e op' -> op = op'.
Proof.
  intros Ho Ho'. destruct Ho; inversion Ho'; simplify_eq; try congruence.
  - assert (key = key0) as -> by (apply (str_app_inj_r _ _ "/cas"); congruence). done.
  - exfalso. apply (batch_no_cas key). congruence.
  - exfalso. apply (batch_no_cas key). congruence.
Qed.

Lemma config_asks_unique e op op' : config_asks e op -> config_asks e op' -> op = op'.
Proof.
  intros Ho Ho'. destruct Ho; inversion Ho'; simplify_eq; try congruence;
    try (exfalso; intuition congruence).
  assert (key = key0) as -> by (apply (str_app_inj_r _ _ "/rollback"); congruence). done.
Qed.

Lemma kv_asks_total e : exists op, kv_asks e op.
Proof.
  destruct e as [req|req m|req m|req k|m|req m]; try (eexists; by econstructor).
  destruct (http_method req) eqn:Hm; try (eexists; by econstructor).
  destruct (has_suffix "/cas" (unresolved_path req)) eqn:Hs.
  { apply has_suffix_spec in Hs as [key Hp]. eexists. by eapply AskCas. }
  destruct (decide (unresolved_path req = "batch")); [eexists; by apply AskBatch|].
  eexists. eapply AskPut; [done|reflexivity| |done].
  intros key Hp. rewrite Hp in Hs. by rewrite (proj2 (has_suffix_spec _ _) (ex_intro _ key eq_refl)) in Hs.
Qed.

Lemma config_asks_total e : exists op, config_asks e op.
Proof.
  destruct e as [req|req m|req m|req m]; try (eexists; by econstructor).
  destruct (http_method req) eqn:Hm; try (eexists; by econstructor).
  - destruct (has_suffix "/rollback" (unresolved_path req)) eqn:Hs.
    { apply has_suffix_spec in Hs as [key Hp]. eexists. by eapply AskCfRollback. }
    eexists. eapply AskCfPublish; [done|reflexivity|].
    intros key Hp. rewrite Hp in Hs. by rewrite (proj2 (has_suffix_spec _ _) (ex_intro _ key eq_refl)) in Hs.
  - eexists. apply AskCfOther. by right.
  - eexists. apply AskCfOther. by left.
Qed.
End asks.

(** * The handlers serve the operation *)

Section serve.
Context `{KVCodec} `{JsonToProto} {N : Type} `{ConfigNode N}.

(** What a handler does for an operation, on the node or without it. *)
Definition kv_serve (op : Op) : call N KVResponse :=
  match op with
  | OpWrite cmd => result ← node_Apply cmd; mret (FillResponse result KVResponse_default)
  | OpGet key serializable => DoGet key serializable KVResponse_default
  | OpGetConfig _ _ => fun _ => Done None
  | OpReply code message => mret (kv_error code message KVResponse_default)
  end.

Definition config_serve (op : Op) : call N ConfigResponse :=
  match op with
  | OpWrite cmd => result ← node_Apply cmd; mret (config_fill result ConfigResponse_default)
  | OpGet _ _ => fun _ => Done None
  | OpGetConfig key version => DoGetConfig key version ConfigResponse_default
  | OpReply code message => mret (config_error code message ConfigResponse_default)
  end.

Lemma DoPut_serve key value n :
  DoPut key value KVResponse_default n = kv_serve (on_key key (CmdPut key value)) n.
Proof. unfold DoPut, on_key, IsValidKey. by destruct (String.eqb_spec key ""), (decide (key = "")). Qed.

Lemma DoDelete_serve key n :
  DoDelete key KVResponse_default n = kv_serve (on_key key (CmdDelete key)) n.
Proof. unfold DoDelete, on_key, IsValidKey. by destruct (String.eqb_spec key ""), (decide (key = "")). Qed.

Lemma DoCAS_serve key e value n :
  DoCAS key e value KVResponse_default n = kv_serve (on_key key (CmdCas key e value)) n.
Proof. unfold DoCAS, on_key, IsValidKey. by destruct (String.eqb_spec key ""), (decide (key = "")). Qed.

Lemma DoPublish_serve key value n :
  DoPublish key value ConfigResponse_default n = config_serve (on_key key (CmdPublish key value)) n.
Proof.
  unfold DoPublish, on_key, IsValidKey. by destruct (String.eqb_spec key ""), (decide (key = "")).
Qed.

Lemma DoRollback_serve key t n :
  DoRollback key t ConfigResponse_default n = config_serve (on_key key (CmdRollback key t)) n.
Proof.
  unfold DoRollback, on_key, IsValidKey. by destruct (String.eqb_spec key ""), (decide (key = "")).
Qed.

Lemma batch_puts_spec es batch :
  batch_puts es batch =
  if decide (Exists (fun e => pr_key e = "") es) then None
  else Some (batch ++ ((fun e => (pr_key e, pr_value e)) <$> es)).
Proof.
  revert batch. induction es as [|e es IH]; intros batch; cbn [batch_puts].
  - rewrite decide_False by by intros ?%Exists_nil. by rewrite app_nil_r.
  - unfold IsValidKey. destruct (String.eqb_spec (pr_key e) "") as [He|He]; cbn [negb].
    + rewrite decide_True; [done|]. by left.
    + rewrite IH, <-app_assoc.
      destruct (decide (Exists _ es)) as [Hx|Hx], (decide (Exists _ (e :: es))) as [Hy|Hy]; try done.
      * destruct Hy. by right.
      * apply Exists_cons in Hy as [?|?]; done.
Qed.

Lemma DoBatchPut_serve m n :
  DoBatchPut m KVResponse_default n = kv_serve (on_batch (entries m)) n.
Proof. unfold DoBatchPut, on_batch. rewrite batch_puts_spec. by destruct (decide _). Qed.

Lemma KV_Rest_serve req n :
  kv_enter (KvHttp req) n =
  if decide (http_method req = HTTP_METHOD_OPTIONS) then Done (Some (KVResponse_default, n))
  else KV_dispatch req KVResponse_default n.
Proof.
  unfold kv_enter, KV_Rest, mbind, call_bind.
  destruct (HandleCorsPreflight_Done req HttpResponse_default) as [h ->].
  destruct (decide (http_method req = HTTP_METHOD_OPTIONS)).
  - by rewrite bool_decide_eq_true_2 by done.
  - rewrite bool_decide_eq_false_2 by done. simpl.
    by destruct (KV_dispatch _ _ n) as [[[r n1]|]|].
Qed.

Lemma Config_Rest_serve req n :
  config_enter (CfHttp req) n =
  if decide (http_method req = HTTP_METHOD_OPTIONS) then Done (Some (ConfigResponse_default, n))
  else Config_dispatch req ConfigResponse_default n.
Proof.
  unfold config_enter, Config_Rest, mbind, call_bind.
  destruct (HandleCorsPreflight_Done req HttpResponse_default) as [h ->].
  destruct (decide (http_method req = HTTP_METHOD_OPTIONS)).
  - by rewrite bool_decide_eq_true_2 by done.
  - rewrite bool_decide_eq_false_2 by done. simpl.
    by destruct (Config_dispatch _ _ n) as [[[r n1]|]|].
Qed.

(** Every entry point serves what the request asks for; in particular nothing but the
    node can throw or hang. *)
Lemma kv_enter_serve e op n : kv_asks e op -> kv_enter e n = kv_serve op n.
Proof.
  destruct 1 as [req Hm|req Hm|req key Hm Hp|req key Hm Hp|req key m Hm Hp ->|req Hm Hp
    |req key Hm Hp Hc Hb|req m key ->|req m|req k key ->|m|req m key ->];
    [rewrite KV_Rest_serve, Hm; simpl; try done..| | | | |].
  - unfold KV_dispatch. by rewrite Hm.
  - unfold KV_dispatch. by rewrite Hm, Hp.
  - unfold KV_dispatch. rewrite Hm, Hp. apply DoDelete_serve.
  - unfold KV_dispatch. rewrite Hm, Hp, (proj2 (has_suffix_spec _ _)) by by eexists.
    rewrite without_suffix_app. apply DoCAS_serve.
  - unfold KV_dispatch. rewrite Hm, Hp. apply DoBatchPut_serve.
  - unfold KV_dispatch. rewrite Hm, Hp, no_suffix by done.
    destruct (String.eqb_spec key "batch"); [done|]. apply DoPut_serve.
  - apply DoPut_serve.
  - done.
  - apply DoDelete_serve.
  - apply DoBatchPut_serve.
  - apply DoCAS_serve.
Qed.

Lemma config_enter_serve e op n : config_asks e op -> config_enter e n = config_serve op n.
Proof.
  destruct 1 as [req Hm|req Hm|req key Hm Hp|req key Hm Hp|req key Hm Hp Hc|req m key ->|req m
    |req m key ->]; [rewrite Config_Rest_serve..| | |].
  - by rewrite decide_True.
  - unfold Config_dispatch. by destruct Hm as [-> | ->].
  - rewrite Hm. unfold Config_dispatch. by rewrite Hm, Hp.
  - rewrite Hm. unfold Config_dispatch. rewrite Hm, Hp, (proj2 (has_suffix_spec _ _)) by by eexists.
    rewrite without_suffix_app. apply DoRollback_serve.
  - rewrite Hm. unfold Config_dispatch. rewrite Hm, Hp, no_suffix by done. apply DoPublish_serve.
  - apply DoPublish_serve.
  - done.
  - apply DoRollback_serve.
Qed.
End serve.

(** * Answers *)

Section answers.
Context `{KVCodecSpec} `{JsonToProto} {N : Type} `{ConfigNode N} `{!ConfigNodeSpec N}.
Implicit Types (n : N) (a b : Mvcc).

(** The responses that carry the result of a command. *)
Definition kv_reply (cmd : RaftCmd) (r : ApplyResult) : KVResponse :=
  mkKVResponse (ar_code r) (ar_message r)
    (match cmd with
     | CmdBatchPut _ => None
     | _ => if decide (ar_code r = OK) then Some (ar_kv r) else None
     end) (ar_kvs r).

Definition config_reply (r : ApplyResult) : ConfigResponse :=
  mkConfigResponse (ar_code r) (ar_message r)
    (if decide (ar_code r = OK) then Some (ar_kv r) else None) [].

(** The responses to an operation that arrives in state [a] and is answered in state
    [b], other clients and compaction moving the state in between. *)
Inductive kv_answers a : Op -> KVResponse -> Mvcc -> Prop :=
| KvWritten cmd a1 b :
    nd_others a a1 -> cmd_fits a1 cmd -> nd_others (fst (spec_apply a1 cmd)) b ->
    kv_answers a (OpWrite cmd) (kv_reply cmd (snd (spec_apply a1 cmd))) b
| KvWriteRefused cmd code msg b :
    refusal code -> nd_others a b -> kv_answers a (OpWrite cmd) (mkKVResponse code msg None []) b
| KvReadRefused key s code msg b :
    refusal code -> nd_others a b -> kv_answers a (OpGet key s) (mkKVResponse code msg None []) b
| KvFound key s kv b :
    nd_others a b -> spec_get b key = Some kv ->
    kv_answers a (OpGet key s) (mkKVResponse OK "" (Some kv) []) b
| KvMissing key s b :
    nd_others a b -> spec_get b key = None ->
    kv_answers a (OpGet key s) (mkKVResponse KEY_NOT_FOUND "key not found" None []) b
| KvReplied code msg : kv_answers a (OpReply code msg) (mkKVResponse code msg None []) a.

Inductive config_answers a : Op -> ConfigResponse -> Mvcc -> Prop :=
| CfWritten cmd a1 b :
    nd_others a a1 -> cmd_fits a1 cmd -> nd_others (fst (spec_apply a1 cmd)) b ->
    config_answers a (OpWrite cmd) (config_reply (snd (spec_apply a1 cmd))) b
| CfWriteRefused cmd code msg b :
    refusal code -> nd_others a b ->
    config_answers a (OpWrite cmd) (mkConfigResponse code msg None []) b
| CfFound key version kv a1 b :
    nd_others a a1 -> spec_get_config a1 key version = Some kv -> nd_others a1 b ->
    config_answers a (OpGetConfig key version)
      (mkConfigResponse OK "" (Some kv) (spec_history b key)) b
| CfMissing key version a1 b :
    nd_others a a1 -> spec_get_config a1 key version = None -> nd_others a1 b ->
    config_answers a (OpGetConfig key version)
      (if version <=? 0 then mkConfigResponse KEY_NOT_FOUND "key not found" None []
       else mkConfigResponse VERSION_NOT_FOUND "version not found" None []) b
| CfReplied code msg : config_answers a (OpReply code msg) (mkConfigResponse code msg None []) a.

Lemma FillResponse_reply a cmd :
  wf a -> cmd_valid cmd -> cmd_fits a cmd ->
  FillResponse (snd (spec_apply a cmd)) KVResponse_default = kv_reply cmd (snd (spec_apply a cmd)).
Proof.
  unfold cmd_fits. intros Hw Hv Hf. destruct cmd as [k v|k|k e v|k v|k t|puts|];
    cbn [spec_apply snd cmd_valid cmd_size] in *.
  - by rewrite FillResponse_record by (apply spec_record_bytes; tauto || lia).
  - rewrite FillResponse_record; [done|]. apply spec_record_bytes; [done|lia|done|].
    apply utf8_valid_empty.
  - destruct (spec_cas_matches a k e); [|done]. cbn [snd].
    by rewrite FillResponse_record by (apply spec_record_bytes; tauto || lia).
  - by rewrite FillResponse_record by (apply spec_record_bytes; tauto || lia).
  - destruct (spec_get_config a k t) as [x|] eqn:E; [|done]. cbn [snd].
    rewrite FillResponse_record; [done|]. apply spec_record_bytes; [done|lia|tauto|].
    by eapply spec_get_config_utf8.
  - unfold FillResponse, kv_reply. simpl. unfold KV_ByteSizeLong. by rewrite SerializeKV_default.
  - done.
Qed.

Lemma config_fill_reply a cmd :
  config_fill (snd (spec_apply a cmd)) ConfigResponse_default = config_reply (snd (spec_apply a cmd)).
Proof.
  unfold config_reply, config_fill, redirects. destruct cmd; simpl; try done; by case_match.
Qed.

Lemma FillResponse_refusal r :
  refusal (ar_code r) ->
  exists msg, FillResponse r KVResponse_default = mkKVResponse (ar_code r) msg None [].
Proof. unfold FillResponse. intros [Hc|Hc]; rewrite Hc; by eexists. Qed.

Lemma kv_serve_answers n a op resp n' :
  nd_rep n a -> op_valid a op -> (forall key version, op <> OpGetConfig key version) ->
  kv_serve op n = Done (Some (resp, n')) -> nd_within n' ->
  exists b, kv_answers a op resp b /\ nd_rep n' b.
Proof.
  intros Hn Hv Hk E Hwi. destruct op as [cmd|key s|key version|code msg]; simpl in E.
  - destruct Hv as [Hv Hf]. unfold mbind, call_bind in E.
    destruct (node_Apply cmd n) as [[[r n1]|]|] eqn:Ea; [|done|done].
    unfold mret, call_ret in E. simplify_eq.
    destruct (nd_Apply _ _ _ _ _ Hn Hv Hf Ea Hwi) as [(a1 & b & Ho & Hf1 & -> & ? & ?)|(Hr & b & ? & ?)];
      exists b; (split; [|done]).
    + rewrite FillResponse_reply; [by apply (KvWritten a cmd a1 b)|by apply (nd_others_wf n a a1)|done|done].
    + destruct (FillResponse_refusal r Hr) as [msg ->]. by constructor.
  - unfold DoGet, mbind, call_bind in E.
    destruct (node_Get key s n) as [[[r n1]|]|] eqn:Eg; [|done|done].
    unfold mret, call_ret in E. simplify_eq/=.
    destruct (nd_Get _ _ _ _ _ _ Hn Eg Hwi) as (b & ? & ? & Hr). exists b. split; [|done].
    destruct Hr as [Hr|Hr].
    + pose proof Hr as Hr'. destruct Hr as [Hc|Hc]; rewrite Hc in *; by constructor.
    + destruct (spec_get b key) as [kv|] eqn:Es; rewrite Hr; by constructor.
  - by destruct (Hk key version).
  - unfold mret, call_ret in E. simplify_eq. exists a. split; [constructor|done].
Qed.

Lemma config_serve_answers n a op resp n' :
  nd_rep n a -> op_valid a op -> (forall key s, op <> OpGet key s) ->
  config_serve op n = Done (Some (resp, n')) -> nd_within n' ->
  exists b, config_answers a op resp b /\ nd_rep n' b.
Proof.
  intros Hn Hv Hk E Hwi. destruct op as [cmd|key s|key version|code msg]; simpl in E.
  - destruct Hv as [Hv Hf]. unfold mbind, call_bind in E.
    destruct (node_Apply cmd n) as [[[r n1]|]|] eqn:Ea; [|done|done].
    unfold mret, call_ret in E. simplify_eq.
    destruct (nd_Apply _ _ _ _ _ Hn Hv Hf Ea Hwi) as [(a1 & b & Ho & Hf1 & -> & ? & ?)|(Hr & b & ? & ?)];
      exists b; (split; [|done]).
    + rewrite config_fill_reply. by apply (CfWritten a cmd a1 b).
    + unfold config_fill. destruct Hr as [Hc|Hc]; rewrite Hc; (apply CfWriteRefused; [|done]);
        [by left|by right].
  - by destruct (Hk key s).
  - unfold DoGetConfig, mbind, call_bind in E.
    destruct (node_GetConfig key version n) as [[[r n1]|]|] eqn:Eg; [|done|done].
    unfold mret, call_ret in E. simplify_eq/=.
    destruct (nd_GetConfig _ _ _ _ _ _ Hn Hv Eg Hwi) as (a1 & b & ? & ? & ? & ->).
    exists b. split; [|done]. unfold config_result.
    destruct (spec_get_config a1 key version) as [kv|] eqn:Es; simpl.
    + by apply (CfFound a key version kv a1).
    + pose proof (CfMissing a key version a1 b) as Hm. unfold config_error.
      destruct (version <=? 0); by apply Hm.
  - unfold mret, call_ret in E. simplify_eq. exists a. split; [constructor|done].
Qed.
(** C14. The two services implement their interface.  Every request, on any path, with
    any method and any body, over HTTP or RPC, asks for exactly one operation.  One
    that is malformed gets its answer and leaves the node untouched.  For the others
    the answer of the handler, if the node lets it return, is the one that the
    specified operation has in a state between the request and the answer, in all its
    fields (code, message, record, records of a batch, mismatch of a comparison), and
    the node then serves a state the operation leads to.  A configuration that is
    found comes with the history of the key in a later state, which the node then
    serves: the code takes the two from the store one after the other.  Or the node
    has refused, with a message of its own, and then serves a state that other clients,
    or the refused write itself if its task is committed after all, have led to. *)
Theorem front_end_refines n a :
  nd_rep n a ->
  (forall e, exists op, kv_asks e op /\ (forall op', kv_asks e op' -> op' = op) /\
    (forall code msg, op = OpReply code msg ->
       kv_enter e n = Done (Some (mkKVResponse code msg None [], n))) /\
    (forall resp n', kv_enter e n = Done (Some (resp, n')) -> op_valid a op -> nd_within n' ->
       exists b, kv_answers a op resp b /\ nd_rep n' b)) /\
  (forall e, exists op, config_asks e op /\ (forall op', config_asks e op' -> op' = op) /\
    (forall code msg, op = OpReply code msg ->
       config_enter e n = Done (Some (mkConfigResponse code msg None [], n))) /\
    (forall resp n', config_enter e n = Done (Some (resp, n')) -> op_valid a op -> nd_within n' ->
       exists b, config_answers a op resp b /\ nd_rep n' b)).
Proof.
  intros Hn. split; intros e.
  - destruct (kv_asks_total e) as [op Ho]. exists op. split_and!; [done|..].
    + intros op' Ho'. by eapply kv_asks_unique.
    + intros code msg ->. by rewrite (kv_enter_serve _ _ n Ho).
    + intros resp n' E Hv Hwi. rewrite (kv_enter_serve _ _ n Ho) in E.
      eapply kv_serve_answers; [done|done| |done|done]. intros k v ->. by inversion Ho.
  - destruct (config_asks_total e) as [op Ho]. exists op. split_and!; [done|..].
    + intros op' Ho'. by eapply config_asks_unique.
    + intros code msg ->. by rewrite (config_enter_serve _ _ n Ho).
    + intros resp n' E Hv Hwi. rewrite (config_enter_serve _ _ n Ho) in E.
      eapply config_serve_answers; [done|done| |done|done]. intros k v ->. by inversion Ho.
Qed.
End answers.

#[local] Existing Instances body_codec alone alone_spec SoloRaft.ops SoloRaft.log SoloRaft.tasks.
#[local] Existing Instances BitCmdCodec.codec BitCmdCodec.codec_spec.

(** A node on which, between the two reads of [GetConfig], another client publishes the
    key and the compaction thread makes a pass. *)
Definition busy : OtherThreads MemDB.t := fun n =>
  match CurrentRevision (ln_store n) with
  | Done r => if r <? 100 then [OtherApply (CmdPublish "app" "y"); OtherCompaction 1] else []
  | Throws _ => []
  end.

Lemma busy_calls n : other_calls (OtherThreads := busy) n = [] \/
  exists r, CurrentRevision (ln_store n) = Done r /\ r < 100 /\
    other_calls (OtherThreads := busy) n = [OtherApply (CmdPublish "app" "y"); OtherCompaction 1].
Proof.
  unfold other_calls, busy. destruct (CurrentRevision (ln_store n)) as [r|]; [|by left].
  destruct (Z.ltb_spec r 100); [right; by exists r|by left].
Qed.

Lemma busy_spec : OtherThreadsSpec (Ot := busy) MemDB.t.
Proof.
  split.
  - intros n cmd Hin. destruct (busy_calls n) as [E|(r & _ & _ & E)]; rewrite E in Hin;
      [by apply elem_of_nil in Hin|].
    apply elem_of_cons in Hin as [[= ->]|Hin]; [split; reflexivity|].
    by apply list_elem_of_singleton in Hin.
  - intros n a Hn. destruct (busy_calls n) as [E|(r & Er & Hr & E)]; rewrite E; simpl.
    + destruct Hn as (d & dir & _ & Hd). destruct (wf_bounds _ (rep_wf _ _ Hd)). lia.
    + destruct Hn as (d & dir & Hs & Hd). rewrite Hs in Er. unfold CurrentRevision, read_db in Er.
      simpl in Er. rewrite (CurrentRevisionLocked_rep _ _ Hd) in Er.
      simplify_eq. unfold int64_max. lia.
Qed.

Definition busy_node : ConfigNode (LocalNode MemDB.t) := LocalNode_node (Ot := busy).
Definition busy_node_spec : ConfigNodeSpec (H := busy_node) (LocalNode MemDB.t) :=
  LocalNode_spec (Ot := busy) (OtherThreadsSpec0 := busy_spec).

Definition get_version_1 : HttpRequest := demo_request HTTP_METHOD_GET "app" "" (Some "1").

(** A configuration may come with a history that does not hold it: the record of
    version 1 is read, then version 4 is published and a compaction pass keeps one
    version, then the history is read. *)
Theorem config_history_is_later :
  exists resp n', config_enter (H1 := busy_node) (CfHttp get_version_1) demo_local =
      Done (Some (resp, n')) /\
    cfr_code resp = OK /\ cfr_kv resp = Some (mkKV "app" "1000" 1 1 false) /\
    cfr_history resp = [mkKV "app" "y" 4 7 false].
Proof.
  destruct (answers_Done (config_enter (H1 := busy_node) (CfHttp get_version_1) demo_local))
    as [[resp n'] E]; [vm_compute; reflexivity|].
  exists resp, n'. split; [exact E|]. clear -E.
  assert (Some resp = match config_enter (H1 := busy_node) (CfHttp get_version_1) demo_local with
    | Done (Some (r, _)) => Some r | _ => None end) as Er by by rewrite E.
  clear E. revert Er. vm_compute. intros [= ->]. split_and!; reflexivity.
Qed.

Lemma demo_asks : kv_asks (KvHttp demo_post) (OpWrite (CmdPut "app" "x")).
Proof.
  assert (on_key "app" (CmdPut "app" (pr_value (JsonToPut (request_attachment demo_post)).2)) =
    OpWrite (CmdPut "app" "x")) as <- by (vm_compute; reflexivity).
  apply (AskPut demo_post "app"); [reflexivity|reflexivity| |discriminate].
  intros key E. assert (has_suffix "/cas" "app" = true) as Hs by (apply has_suffix_spec; by exists key).
  vm_compute in Hs. discriminate Hs.
Qed.

Lemma demo_op_valid : op_valid demo_state (OpWrite (CmdPut "app" "x")).
Proof. split; [split; reflexivity|by vm_compute]. Qed.

(** A put over HTTP on the local node and on the cluster node, a read of a
    configuration on a node that others use, and a batch with an empty key. *)
Lemma front_end_refines_witness :
  (exists resp n' b, kv_enter (KvHttp demo_post) demo_local = Done (Some (resp, n')) /\
     kv_answers demo_state (OpWrite (CmdPut "app" "x")) resp b /\ nd_rep n' b) /\
  (exists resp n' b, kv_enter (H1 := RaftNode_node 3) (KvHttp demo_post) demo_cluster =
       Done (Some (resp, n')) /\
     kv_answers (ConfigNodeSpec0 := RaftNode_spec (m_rev demo_state) 3) demo_state
       (OpWrite (CmdPut "app" "x")) resp b) /\
  (exists resp n' b, config_enter (H1 := busy_node) (CfHttp get_version_1) demo_local =
       Done (Some (resp, n')) /\
     config_answers (H2 := busy_node) (ConfigNodeSpec0 := busy_node_spec) demo_state
       (OpGetConfig "app" 1) resp b) /\
  kv_enter (KvBatchPut (mkBatchPutRequest [mkPutRequest "a" "1"; mkPutRequest "" "2"])) demo_local =
    Done (Some (mkKVResponse INVALID_ARGUMENT "batch contains empty key" None [], demo_local)).
Proof.
  split; [|split; [|split]].
  - destruct (answers_Done (kv_enter (KvHttp demo_post) demo_local)) as [[resp n'] E].
    { vm_compute. reflexivity. }
    destruct (front_end_refines demo_local demo_state demo_local_rep) as [Hk _].
    destruct (Hk (KvHttp demo_post)) as (op & _ & Hu & _ & Ha).
    rewrite <-(Hu _ demo_asks) in Ha.
    destruct (Ha resp n' E demo_op_valid I) as (b & Hb & Hn).
    exists resp, n', b. split; [exact E|split; [exact Hb|exact Hn]].
  - destruct (delivered_after_Some (kv_enter (H1 := RaftNode_node 3) (KvHttp demo_post) demo_cluster))
      as (resp & n' & E & Hwi); [vm_compute; reflexivity|].
    destruct (front_end_refines (H2 := RaftNode_node 3)
      (ConfigNodeSpec0 := RaftNode_spec (m_rev demo_state) 3) demo_cluster demo_state
      demo_cluster_rep) as [Hk _].
    destruct (Hk (KvHttp demo_post)) as (op & _ & Hu & _ & Ha).
    rewrite <-(Hu _ demo_asks) in Ha.
    destruct (Ha resp n' E demo_op_valid Hwi) as (b & Hb & _).
    exists resp, n', b. split; [exact E|exact Hb].
  - destruct (answers_Done (config_enter (H1 := busy_node) (CfHttp get_version_1) demo_local))
      as [[resp n'] E]; [vm_compute; reflexivity|].
    destruct (front_end_refines (H2 := busy_node) (ConfigNodeSpec0 := busy_node_spec) demo_local
      demo_state demo_local_rep) as [_ Hk].
    destruct (Hk (CfHttp get_version_1)) as (op & _ & Hu & _ & Ha).
    rewrite <-(Hu (OpGetConfig "app" 1) (AskCfGet get_version_1 "app" eq_refl eq_refl)) in Ha.
    destruct (Ha resp n' E) as (b & Hb & _); [split; discriminate|exact I|].
    exists resp, n', b. split; [exact E|exact Hb].
  - destruct (front_end_refines demo_local demo_state demo_local_rep) as [Hk _].
    destruct (Hk (KvBatchPut (mkBatchPutRequest [mkPutRequest "a" "1"; mkPutRequest "" "2"])))
      as (op & _ & Hu & Hr & _).
    apply Hr. symmetry.
    apply (Hu _ (AskRpcBatch (mkBatchPutRequest [mkPutRequest "a" "1"; mkPutRequest "" "2"]))).
Defined.
