(* ===== verification/ServerStop.v ===== *)
(** The shutdown of the server: the destructor of src/src/server/server.cpp
    against the compaction thread. *)
From S2P Require Import Prelude CxxStd StoreKey Proto LevelDB Store StoreSpec StoreRepr StoreOps.
From S2P Require Import Demo WatchHub WatchCall Node RestUtil KVService Services Server.

Section shutdown.
Context {N : Type} `{ConfigNode N}.
Implicit Types s : Shutdown N.

(** The flag follows the destructor; a compaction never runs once it is set; a
    thread that waits when the destructor joins has been notified. *)
Record shutdown_inv s : Prop := {
  inv_stop : sd_stop s = match sd_dtor s with DtNone | DtLock => false | _ => true end;
  inv_compact : sd_stop s = true -> sd_thread s <> ThCompact;
  inv_notified : sd_dtor s = DtJoin \/ sd_dtor s = DtDone -> sd_thread s <> ThWait false;
  inv_joined : sd_dtor s = DtDone -> sd_thread s = ThNone \/ sd_thread s = ThEnded
}.

Lemma thread_step_inv woken s s' :
  thread_step woken s = Some s' -> shutdown_inv s -> shutdown_inv s'.
Proof.
  destruct s as [stop t d n]. intros E []. unfold thread_step in E. simpl in *. subst stop.
  destruct t as [| | |b| | |]; simplify_eq/=; [| |destruct (b || woken)| |
    destruct (node_Compaction _ _) as [[[? ?]|]|]]; simplify_eq/=;
    destruct d; split; simpl; intuition congruence.
Qed.

Lemma dtor_step_inv s s' : dtor_step s = Some s' -> shutdown_inv s -> shutdown_inv s'.
Proof.
  destruct s as [stop t d n]. intros E []. unfold dtor_step in E. simpl in *. subst stop.
  destruct d; simplify_eq/=; [|destruct (holds_mutex t) eqn:Em| |destruct t]; simplify_eq/=;
    split; simpl; try destruct t; simpl in *; intuition congruence.
Qed.

Lemma shutdown_step_inv s s' : shutdown_step s s' -> shutdown_inv s -> shutdown_inv s'.
Proof.
  destruct 1 as [woken s s' E|s s' E|s n]; [by eapply thread_step_inv|by eapply dtor_step_inv|].
  by intros [].
Qed.

Lemma shutdown_steps_inv s s' : rtc shutdown_step s s' -> shutdown_inv s -> shutdown_inv s'.
Proof. induction 1; eauto using shutdown_step_inv. Qed.

(** The steps the thread takes to its end once the flag is set. *)
Definition thread_rank (t : thread_pc) : nat :=
  match t with
  | ThNone | ThEnded => 0
  | ThTest | ThWoken => 1
  | ThStart | ThWait _ | ThCompact => 2
  end.

(** [k] steps of the thread in which no wait is cut short. *)
Fixpoint thread_steps (k : nat) s : option (Shutdown N) :=
  match k with
  | O => Some s
  | S k' => thread_step false s ≫= thread_steps k'
  end.

(** C37. Shutting down is prompt and safe.  Whatever the compaction thread was
    doing when the destructor was called, from the moment the flag is set no pass
    is started and the thread does not touch the node; when the destructor joins,
    the thread has ended or can take a step without waiting for its minute to
    pass, and it has ended after at most two such steps; while the destructor
    waits for the mutex, the thread gives it up after at most three steps,
    provided the pass it is in or about to begin returns; and the destructor never
    gets past the join before the thread has ended. *)
Theorem shutdown_prompt started n s :
  rtc shutdown_step (StartCompactionLoop started n) s ->
  (sd_stop s = true -> forall woken s', thread_step woken s = Some s' -> sd_node s' = sd_node s) /\
  (sd_dtor s = DtJoin -> (thread_rank (sd_thread s) <= 2)%nat /\
     (is_Some (dtor_step s) \/
      exists s', thread_step false s = Some s' /\
        (thread_rank (sd_thread s') < thread_rank (sd_thread s))%nat)) /\
  (sd_dtor s = DtLock ->
     (exists r n', node_Compaction kKeepVersions (sd_node s) = Done (Some (r, n'))) ->
     exists k s', (k <= 3)%nat /\ thread_steps k s = Some s' /\ is_Some (dtor_step s')) /\
  (sd_dtor s = DtDone -> sd_thread s = ThNone \/ sd_thread s = ThEnded).
Proof.
  intros Hs. apply shutdown_steps_inv in Hs.
  2: { split; simpl; try done. by intros [?|?]. }
  destruct Hs as [Hstop Hc Hn Hj], s as [stop t d n0]. simpl in *. subst stop. split_and!.
  - intros Ht woken s' E. specialize (Hc Ht). unfold thread_step in E. simpl in E.
    destruct t; simplify_eq/=; try done; repeat case_match; by simplify_eq/=.
  - intros ->. specialize (Hc eq_refl). specialize (Hn (or_introl eq_refl)).
    split; [destruct t; simpl; lia|]. unfold dtor_step, thread_step. simpl.
    destruct t as [| | |[]| | |]; try done; [left|right|right|right|right|left];
      try (eexists; split; [done|simpl; lia]); by eexists.
  - intros -> (r & n' & E). destruct t as [| | |b| | |].
    1,2,4,7: exists 0%nat; eexists; split_and!; [lia|done|]; by eexists.
    + exists 1%nat. eexists. split_and!; [lia|done|]. by eexists.
    + exists 3%nat. eexists. split_and!; [lia|simpl; unfold thread_step; simpl; by rewrite E|].
      by eexists.
    + exists 2%nat. eexists. split_and!; [lia|simpl; unfold thread_step; simpl; by rewrite E|].
      by eexists.
  - exact Hj.
Qed.
End shutdown.

#[local] Existing Instances alone alone_spec.

(** The destructor is called while a pass is running. *)
Lemma shutdown_prompt_witness :
  exists s : Shutdown (LocalNode MemDB.t),
    rtc shutdown_step (StartCompactionLoop true (mkLocalNode (mkStore (Some demo_db) "") None ∅)) s /\
    sd_thread s = ThCompact /\ sd_dtor s = DtLock /\
    exists k s', (k <= 3)%nat /\ thread_steps k s = Some s' /\ is_Some (dtor_step s').
Proof.
  set (n := mkLocalNode (mkStore (Some demo_db) "") None ∅).
  exists (mkShutdown false ThCompact DtLock n).
  assert (rtc shutdown_step (StartCompactionLoop true n) (mkShutdown false ThCompact DtLock n)) as Hs.
  { eapply rtc_l; [apply (SdThread false); reflexivity|].
    eapply rtc_l; [apply (SdThread false); reflexivity|].
    eapply rtc_l; [apply (SdThread true); reflexivity|].
    eapply rtc_l; [apply (SdThread false); reflexivity|].
    apply rtc_once, SdDtor. reflexivity. }
  split; [exact Hs|]. split; [reflexivity|]. split; [reflexivity|].
  destruct (shutdown_prompt true n _ Hs) as (_ & _ & H & _). apply H; [reflexivity|].
  do 2 eexists. vm_compute. reflexivity.
Defined.
