(* ===== verification/ServerLife.v ===== *)
(** How long the objects of the server live: [main] of src/src/main/server_main.cpp
    after [Init], the destructors of src/src/server/server.cpp and
    src/src/raft/raft_node.cpp, and the order in which the members declared in
    server.h, raft_node.h and local_node.h go.  Requests, callbacks of the raft
    library and the compaction thread run until something waits for them. *)
From S2P Require Import Prelude CxxStd StoreKey Proto LevelDB Store StoreSpec StoreRepr StoreOps.
From S2P Require Import Demo WatchHub WatchCall Node StateMachine RaftNode RestUtil KVService Services.
From S2P Require Import Server ServerStop ServerTheorems RaftExamples.

(** * Members *)

(** The members of [ConfigraftServer], then those of its node. *)
Inductive member :=
| M_opts | M_watch_hub | M_node | M_svc (s : service) | M_server | M_compaction_thread
| M_stop_compaction | M_compaction_mu | M_compaction_cv
| M_store | M_fsm | M_raft | M_group.

#[export] Instance member_eq_dec : EqDecision member.
Proof. solve_decision. Defined.

(** In the order of their declarations. *)
Definition server_members : list member :=
  [M_opts; M_watch_hub; M_node; M_svc KVSvc; M_svc ConfigSvc; M_svc WatchSvc; M_svc AdminSvc;
   M_svc DashSvc; M_server; M_compaction_thread; M_stop_compaction; M_compaction_mu;
   M_compaction_cv].

(** [RaftNode] and [LocalNode]; the pointer to the hub owns nothing. *)
Definition node_members (cluster : bool) : list member :=
  if cluster then [M_store; M_fsm; M_raft; M_group] else [M_store].

(** What [main] does on its way out: the RPC server is told to stop, and waited for;
    the raft node is told to stop, and waited for; a member is destroyed (or was
    null). *)
Inductive leaving := LvStop | LvJoin | LvRaftShutdown | LvRaftJoin | LvFree (o : member).

#[export] Instance leaving_eq_dec : EqDecision leaving.
Proof. solve_decision. Defined.

(** [~RaftNode], or the implicit destructor of [LocalNode]; [raft]: [node_] has been
    made. *)
Definition destroy_node (cluster raft : bool) : list leaving :=
  (if raft then [LvRaftShutdown; LvRaftJoin] else []) ++
  (LvFree <$> reverse (node_members cluster)) ++ [LvFree M_node].

(** The destructor of the RPC server stops it and waits for its requests. *)
Definition destroy_member (cluster raft : bool) (o : member) : list leaving :=
  match o with
  | M_node => destroy_node cluster raft
  | M_server => [LvStop; LvJoin; LvFree M_server]
  | _ => [LvFree o]
  end.

(** Members are destroyed in the reverse order of their declarations. *)
Definition destroy_members (cluster raft : bool) : list leaving :=
  reverse server_members ≫= destroy_member cluster raft.

(** * The end of the program as a step machine *)

(** [main]: in [RunUntilAskedToQuit], where it waits for the signal and then for the
    requests; in [~ConfigraftServer]; behind it, with what is left to do. *)
Inductive main_pc := MnServing | MnJoining | MnDtor | MnMembers (rest : list leaving).

Section life.
Context {N : Type} `{ConfigNode N} (cluster raft : bool).

(** [lf_accepting]: the RPC server takes requests; [lf_requests]: those in flight;
    [lf_raft]: the raft library may call the state machine. *)
Record Life := mkLife {
  lf_main : main_pc;
  lf_accepting : bool;
  lf_requests : gmap nat service;
  lf_raft : bool;
  lf_freed : list member;
  lf_sd : Shutdown N
}.
Implicit Types l : Life.

Definition at_main l pc : Life :=
  mkLife pc (lf_accepting l) (lf_requests l) (lf_raft l) (lf_freed l) (lf_sd l).
Definition with_sd l sd : Life :=
  mkLife (lf_main l) (lf_accepting l) (lf_requests l) (lf_raft l) (lf_freed l) sd.

(** One action on the way out; [None] while it has to wait. *)
Definition leave_step l (a : leaving) (rest : list leaving) : option Life :=
  let next accepting raft freed :=
    Some (mkLife (MnMembers rest) accepting (lf_requests l) raft freed (lf_sd l)) in
  match a with
  | LvStop => next false (lf_raft l) (lf_freed l)
  | LvJoin =>
      if decide (lf_requests l = ∅) then next (lf_accepting l) (lf_raft l) (lf_freed l) else None
  | LvRaftShutdown => next (lf_accepting l) (lf_raft l) (lf_freed l)
  | LvRaftJoin => next (lf_accepting l) false (lf_freed l)
  | LvFree o => next (lf_accepting l) (lf_raft l) (lf_freed l ++ [o])
  end.

(** A step of [main]; at [MnServing] it is asked to quit. *)
Definition main_step l : option Life :=
  match lf_main l with
  | MnServing => Some (mkLife MnJoining false (lf_requests l) (lf_raft l) (lf_freed l) (lf_sd l))
  | MnJoining => if decide (lf_requests l = ∅) then Some (at_main l MnDtor) else None
  | MnDtor =>
      match sd_dtor (lf_sd l) with
      | DtDone => Some (at_main l (MnMembers (destroy_members cluster raft)))
      | _ => with_sd l <$> dtor_step (lf_sd l)
      end
  | MnMembers [] => None
  | MnMembers (a :: rest) => leave_step l a rest
  end.

(** All that can happen.  A request in flight may be answered at any time, or never:
    when it is depends on its handler. *)
Inductive life_step : Life -> Life -> Prop :=
| LfMain l l' : main_step l = Some l' -> life_step l l'
| LfThread woken l sd : thread_step woken (lf_sd l) = Some sd -> life_step l (with_sd l sd)
| LfAccept l r s :
    lf_accepting l = true -> lf_requests l !! r = None ->
    life_step l (mkLife (lf_main l) true (<[r := s]> (lf_requests l)) (lf_raft l) (lf_freed l)
      (lf_sd l))
| LfReply l r :
    life_step l (mkLife (lf_main l) (lf_accepting l) (delete r (lf_requests l)) (lf_raft l)
      (lf_freed l) (lf_sd l))
| LfUse l n :
    lf_requests l <> ∅ \/ lf_raft l = true ->
    life_step l (with_sd l (mkShutdown (sd_stop (lf_sd l)) (sd_thread (lf_sd l))
      (sd_dtor (lf_sd l)) n)).

(** * Who uses what *)

(** A request runs in its service; all but the dashboard call the node, which works
    on its store, broadcasts to the hub, waits in it, and asks the raft node. *)
Definition request_uses (s : service) : list member :=
  M_server :: M_svc s ::
  match s with
  | DashSvc => []
  | _ => M_node :: M_watch_hub :: filter (fun o => o = M_raft -> raft = true) (node_members cluster)
  end.

(** The thread waits on the server's own members and calls [node_->Compaction]. *)
Definition thread_uses (t : thread_pc) : list member :=
  match t with
  | ThNone | ThEnded => []
  | _ => [M_stop_compaction; M_compaction_mu; M_compaction_cv; M_node; M_store]
  end.

(** The state machine writes its store and broadcasts to the hub. *)
Definition callback_uses : list member := [M_raft; M_fsm; M_store; M_watch_hub].

(** What is in use in a state. *)
Definition in_use l (o : member) : Prop :=
  (exists r s, lf_requests l !! r = Some s /\ o ∈ request_uses s) \/
  o ∈ thread_uses (sd_thread (lf_sd l)) \/
  (lf_raft l = true /\ o ∈ callback_uses).

(** What [main] may wait for: a request in flight, or the compaction thread, which can
    take a step or is in its pass. *)
Definition main_waits l : Prop :=
  lf_requests l <> ∅ \/ is_Some (thread_step false (lf_sd l)) \/
  sd_thread (lf_sd l) = ThCompact.
End life.
Arguments Life : clear implicits.

(** * The invariant *)

Definition frees (l : list leaving) : list member :=
  omap (fun a => match a with LvFree o => Some o | _ => None end) l.

Lemma frees_app l1 l2 : frees (l1 ++ l2) = frees l1 ++ frees l2.
Proof. apply omap_app. Qed.

(** The part of a list before its first [b]. *)
Definition upto (b : leaving) (l : list leaving) : list leaving :=
  take_while (fun a => negb (bool_decide (a = b))) l.

Lemma upto_app b l1 l2 : b ∉ l1 -> upto b (l1 ++ l2) = l1 ++ upto b l2.
Proof.
  unfold upto. induction l1 as [|a l1 IH]; intros Hb; [done|]. simpl.
  apply not_elem_of_cons in Hb as [Hne Hb].
  rewrite bool_decide_eq_false_2 by congruence. simpl. by rewrite IH.
Qed.

(** What has been destroyed before [b] is done. *)
Lemma frees_upto b gone rest o : b ∉ gone -> o ∈ frees gone -> o ∈ frees (upto b (gone ++ rest)).
Proof. intros Hb Ho. rewrite (upto_app _ _ _ Hb), frees_app. apply elem_of_app. by left. Qed.

Lemma upto_next a b gone rest : a ∉ upto b (gone ++ a :: rest) -> a <> b -> b ∈ gone.
Proof.
  intros Ha Hne. destruct (decide (b ∈ gone)) as [|Hb]; [done|]. exfalso. apply Ha.
  rewrite (upto_app _ _ _ Hb). apply elem_of_app. right. unfold upto. simpl.
  rewrite bool_decide_eq_false_2 by done. by left.
Qed.

Section invariant.
Context {N : Type} `{ConfigNode N} (cluster raft : bool).
Implicit Types l : Life N.

Definition main_inv l : Prop :=
  match lf_main l with
  | MnServing | MnJoining | MnDtor => lf_freed l = []
  | MnMembers rest =>
      sd_dtor (lf_sd l) = DtDone /\
      exists gone, destroy_members cluster raft = gone ++ rest /\ lf_freed l = frees gone /\
        (LvStop ∈ gone -> lf_accepting l = false) /\
        (LvJoin ∈ gone -> lf_accepting l = false /\ lf_requests l = ∅) /\
        (LvRaftJoin ∈ gone -> lf_raft l = false)
  end.

Record life_inv l : Prop := {
  li_shutdown : shutdown_inv (lf_sd l);
  li_raft : lf_raft l = true -> raft = true;
  li_main : main_inv l
}.

Lemma stop_before_join : LvJoin ∉ upto LvStop (destroy_members cluster raft).
Proof. apply (bool_decide_unpack _). destruct cluster, raft; vm_compute; exact I. Qed.

(** A member in use is destroyed after [main] has waited for its user. *)
Lemma request_members_last s :
  Forall (fun o => o ∉ frees (upto LvJoin (destroy_members cluster raft)))
    (request_uses cluster raft s).
Proof. apply (bool_decide_unpack _). destruct cluster, raft, s; vm_compute; exact I. Qed.

Lemma callback_members_last :
  raft = true ->
  Forall (fun o => o ∉ frees (upto LvRaftJoin (destroy_members cluster raft))) callback_uses.
Proof. intros ->. apply (bool_decide_unpack _). destruct cluster; vm_compute; exact I. Qed.

Lemma destroyed_once : NoDup (frees (destroy_members cluster raft)).
Proof. apply (bool_decide_unpack _). destruct cluster, raft; vm_compute; exact I. Qed.

Lemma destroyed_all :
  Forall (fun o => o ∈ frees (destroy_members cluster raft))
    (server_members ++ node_members cluster).
Proof. apply (bool_decide_unpack _). destruct cluster, raft; vm_compute; exact I. Qed.

Lemma joins_once : LvJoin ∈ destroy_members cluster raft /\
  (raft = true -> LvRaftJoin ∈ destroy_members cluster raft).
Proof. apply (bool_decide_unpack _). destruct cluster, raft; vm_compute; exact I. Qed.

(** * Preservation *)

Lemma leave_step_inv l a rest l' :
  lf_main l = MnMembers (a :: rest) -> leave_step l a rest = Some l' ->
  life_inv l -> life_inv l'.
Proof.
  intros Em E [Hsd Hr Hm]. unfold main_inv in Hm. rewrite Em in Hm.
  destruct Hm as (Hd & gone & Hg & Hf & Hs & Hj & Hrj).
  assert (destroy_members cluster raft = (gone ++ [a]) ++ rest) as Hg' by (by rewrite <-app_assoc).
  assert (forall b, b ∈ gone ++ [a] -> b <> a -> b ∈ gone) as Hin.
  { by intros b [?| ->%list_elem_of_singleton]%elem_of_app. }
  assert (a = LvJoin -> lf_accepting l = false) as Hstop.
  { intros ->. apply Hs. eapply (upto_next LvJoin LvStop _ rest); [|discriminate].
    rewrite <-Hg. apply stop_before_join. }
  assert (lf_freed l ++ frees [a] = frees (gone ++ [a])) as Hfr by (by rewrite frees_app, Hf).
  destruct a; simpl in E; try case_decide as Hq; simplify_eq/=;
    (split; [exact Hsd|simpl; by eauto|]; split; [exact Hd|]; eexists; split; [exact Hg'|]);
    simpl; rewrite ?app_nil_r in Hfr; split_and!; try exact Hfr; eauto.
  intros Hb%Hin; [|done]. split; [done|by apply Hj].
Qed.

Lemma main_step_inv l l' : main_step cluster raft l = Some l' -> life_inv l -> life_inv l'.
Proof.
  intros E Hi. unfold main_step in E. destruct (lf_main l) as [| | |[|a rest]] eqn:Em.
  - destruct Hi as [Hsd Hr Hm]. unfold main_inv in Hm. rewrite Em in Hm. by simplify_eq.
  - destruct Hi as [Hsd Hr Hm]. unfold main_inv in Hm. rewrite Em in Hm.
    case_decide; by simplify_eq.
  - destruct Hi as [Hsd Hr Hm]. unfold main_inv in Hm. rewrite Em in Hm.
    destruct (sd_dtor (lf_sd l)) eqn:Ed.
    5: { simplify_eq/=. split; [done..|]. split; [done|]. exists [].
         split_and!; [done|done|by intros ?%elem_of_nil..]. }
    all: destruct (dtor_step (lf_sd l)) as [sd|] eqn:Es; [|done]; simplify_eq/=;
      split; [by eapply dtor_step_inv|done|]; unfold main_inv; simpl; by rewrite Em.
  - done.
  - by eapply leave_step_inv.
Qed.

Lemma life_step_inv l l' : life_step cluster raft l l' -> life_inv l -> life_inv l'.
Proof.
  destruct 1 as [l l' E|woken l sd E|l r s Ha Hr|l r|l n Hu]; intros Hi.
  - by eapply main_step_inv.
  - destruct Hi as [Hsd Hr Hm]. split; [by eapply thread_step_inv|done|].
    unfold main_inv in *. simpl. destruct (lf_main l) as [| | |rest]; try done.
    destruct Hm as (Hd & gone & Hm). split; [|by exists gone].
    unfold thread_step in E. destruct (sd_thread _); simplify_eq/=; try done;
      repeat case_match; by simplify_eq/=.
  - destruct Hi as [Hsd Hrf Hm]. split; [done..|]. unfold main_inv in *. simpl.
    destruct (lf_main l) as [| | |rest]; try done.
    destruct Hm as (Hd & gone & Hg & Hf & Hs & Hj & Hrj). split; [done|]. exists gone.
    split_and!; try done; [by intros Hin; rewrite Hs in Ha|].
    intros Hin. by destruct (Hj Hin); rewrite Ha in *.
  - destruct Hi as [Hsd Hrf Hm]. split; [done..|]. unfold main_inv in *. simpl.
    destruct (lf_main l) as [| | |rest]; try done.
    destruct Hm as (Hd & gone & Hg & Hf & Hs & Hj & Hrj). split; [done|]. exists gone.
    split_and!; try done. intros Hin. destruct (Hj Hin) as [? ->]. by rewrite delete_empty.
  - destruct Hi as [Hsd Hrf Hm]. split; [|done|done]. by destruct Hsd.
Qed.

Lemma life_steps_inv l l' : rtc (life_step cluster raft) l l' -> life_inv l -> life_inv l'.
Proof. induction 1; eauto using life_step_inv. Qed.
End invariant.

Section ended.
Context {N : Type} `{ConfigNode N} (cluster raft : bool).
Implicit Types l : Life N.

Lemma freed_once l : main_inv cluster raft l -> NoDup (lf_freed l).
Proof.
  unfold main_inv. destruct (lf_main l) as [| | |rest]; try (intros ->; constructor).
  intros (_ & gone & Hg & -> & _). pose proof (destroyed_once cluster raft) as Hnd.
  rewrite Hg, frees_app in Hnd. by apply NoDup_app in Hnd as [? _].
Qed.

(** [main] has ended. *)
Lemma life_ended l :
  life_inv cluster raft l -> lf_main l = MnMembers [] ->
  lf_requests l = ∅ /\ lf_raft l = false /\
  (sd_thread (lf_sd l) = ThNone \/ sd_thread (lf_sd l) = ThEnded) /\
  forall o, o ∈ server_members ++ node_members cluster -> o ∈ lf_freed l.
Proof.
  intros [[_ _ _ Hend] Hr Hm] Em. unfold main_inv in Hm. rewrite Em in Hm.
  destruct Hm as (Hd & gone & Hg & -> & _ & Hj & Hrj). rewrite app_nil_r in Hg. subst gone.
  destruct (joins_once cluster raft) as [H1 H2]. split; [by apply Hj|]. split; [|split; [by apply Hend|]].
  - destruct (lf_raft l) eqn:E; [|done]. by apply Hrj, H2, Hr.
  - apply Forall_forall, destroyed_all.
Qed.
End ended.

(** * From [Init] to the end *)

Section server.
Context `{KVCodec} `{CmdCodec} {DB FS B N : Type} `{LevelDB DB} `{LevelDBFiles DB FS} `{Braft B}
  `{ConfigNode N}.
Implicit Types (sv : @ConfigraftServer DB B) (opts : ServerOptions) (env : StartEnv B).
Implicit Types (l : Life N).

Definition node_cluster sv : bool :=
  match sv_node sv with Some (NodeRaft _) => true | _ => false end.

Definition node_raft sv : bool :=
  match sv_node sv with
  | Some (NodeRaft (RnInitialized n)) => bool_decide (rn_node n <> None)
  | _ => false
  end.

(** The members that are not null when [Init] has returned. *)
Definition made sv : list member :=
  [M_opts; M_server; M_compaction_thread; M_stop_compaction; M_compaction_mu; M_compaction_cv] ++
  (M_svc ∘ fst <$> sv_services sv) ++
  match sv_node sv with
  | None => []
  | Some (NodeLocal _) => [M_watch_hub; M_node; M_store]
  | Some (NodeRaft (RnCreated _)) => [M_watch_hub; M_node; M_group]
  | Some (NodeRaft (RnInitialized n)) =>
      [M_watch_hub; M_node; M_group; M_store; M_fsm] ++ (if node_raft sv then [M_raft] else [])
  end.

(** [main] when [Init] has returned: it serves, or is on its way out.  The RPC
    server may have taken requests already. *)
Definition life_of (err : option string) sv (reqs : gmap nat service) (n : N) : Life N :=
  mkLife (match err with None => MnServing | Some _ => MnDtor end)
    (sv_started sv) reqs (node_raft sv) [] (StartCompactionLoop (sv_compaction sv) n).

Abbreviation steps sv := (rtc (life_step (N := N) (node_cluster sv) (node_raft sv))).

Lemma life_of_inv err sv reqs n : life_inv (node_cluster sv) (node_raft sv) (life_of err sv reqs n).
Proof.
  split; [|done|]; [|by unfold main_inv; destruct err].
  split; simpl; [done|done|by intros [?|?]|done].
Qed.

(** Nothing runs that [Init] has not made ready. *)
Definition users_ready sv l : Prop :=
  (lf_accepting l = true \/ lf_requests l <> ∅ -> sv_started sv = true) /\
  (sd_thread (lf_sd l) <> ThNone -> sv_compaction sv = true).

Lemma users_ready_main sv l l' :
  main_step (node_cluster sv) (node_raft sv) l = Some l' -> users_ready sv l -> users_ready sv l'.
Proof.
  intros E [Ha Ht]. unfold main_step in E. destruct (lf_main l) as [| | |[|a rest]]; simplify_eq/=.
  - split; [|exact Ht]. intros [?|?]; [done|by apply Ha; right].
  - case_decide; by simplify_eq/=.
  - destruct (sd_dtor (lf_sd l)) eqn:Ed; try by simplify_eq/=.
    all: unfold dtor_step in E; rewrite Ed in E; simpl in E; repeat case_match; simplify_eq/=;
      (split; [exact Ha|]); simpl; try exact Ht; destruct (sd_thread _); simpl in *; auto.
  - destruct a; simpl in E; try case_decide; simplify_eq/=; split; try done.
    intros [?|?]; [done|by apply Ha; right].
Qed.

Lemma users_ready_step sv l l' :
  life_step (node_cluster sv) (node_raft sv) l l' -> users_ready sv l -> users_ready sv l'.
Proof.
  destruct 1 as [l l' E|woken l sd E|l r s Ha Hr|l r|l n Hu]; intros Hu'.
  - by eapply users_ready_main.
  - destruct Hu' as [Ha Ht]. split; [done|]. intros _. apply Ht. unfold thread_step in E.
    by destruct (sd_thread _).
  - destruct Hu' as [Ha' Ht]. split; [|done]. intros _. apply Ha'. by left.
  - destruct Hu' as [Ha Ht]. split; [|done]. simpl. intros [?|Hd]; apply Ha; [by left|right].
    intros E. rewrite E in Hd. by rewrite delete_empty in Hd.
  - done.
Qed.
Lemma users_ready_run sv l l' : steps sv l l' -> users_ready sv l -> users_ready sv l'.
Proof. induction 1; eauto using users_ready_step. Qed.

#[local] Arguments add_services : simpl never.

Lemma Init_services_failed opts env (fs : FS) e sv store fs' :
  Init_services opts env fs = Done (Some e, sv, store, fs') ->
  sv_started sv = false /\ node_raft sv = false.
Proof.
  unfold Init_services. intros E.
  destruct (Open _ fs _) as [[[[e'|] st] fs1]|]; simpl in E; [by simplify_eq| |done].
  destruct (cluster opts && _); [by simplify_eq|].
  destruct (cluster opts);
    (destruct (add_services (DB := DB) env _ all_services) as [[e'|] sv1] eqn:Ea;
      apply add_services_shape in Ea as (Hn & Hst & _);
      [simplify_eq; unfold node_raft; by rewrite Hn, Hst|];
      destruct (negb _); simplify_eq; unfold node_raft; by rewrite Hn, Hst).
Qed.

(** A server that accepts requests has all its services and a node with a store. *)
Definition complete sv : Prop :=
  sv_services sv = all_services /\
  match sv_node sv with
  | Some (NodeLocal _) | Some (NodeRaft (RnInitialized _)) => True
  | _ => False
  end.

Lemma Init_complete opts env (fs : FS) err sv fs' :
  Init opts env fs = Done (err, sv, fs') ->
  sv_started sv = true \/ sv_compaction sv = true \/ node_raft sv = true -> complete sv.
Proof.
  unfold Init. intros E.
  destruct (Init_services opts env fs) as [[[[[e|] sv1] store] fs1]|] eqn:Ei; simpl in E; [| |done].
  - simplify_eq. pose proof (Init_services_compaction _ _ _ _ _ _ _ Ei) as ->.
    apply Init_services_failed in Ei as [-> ->]. by intros [?|[?|?]].
  - intros _. apply Init_services_done in Ei as (Hs & _ & _ & d & Hd).
    unfold Init_node, RaftNode_Init in E. unfold complete. destruct (cluster opts).
    + destruct Hd as [Hn ->]. rewrite Hn in E.
      destruct (se_listen_addr env), (se_initial_conf env); simpl in E; [|by simplify_eq/=..].
      destruct (negb _); by simplify_eq/=.
    + rewrite Hd in E. by simplify_eq/=.
Qed.

Lemma request_uses_made sv s :
  complete sv ->
  Forall (fun o => o ∈ made sv) (request_uses (node_cluster sv) (node_raft sv) s).
Proof.
  destruct sv as [node svcs st cp]. intros [Hs Hn]. simpl in *. subst svcs.
  apply (bool_decide_unpack _).
  destruct node as [[n|[hub|[m [b|] nx]]]|]; try done; destruct s; vm_compute; exact I.
Qed.

Lemma thread_uses_made sv t : complete sv -> Forall (fun o => o ∈ made sv) (thread_uses t).
Proof.
  destruct sv as [node svcs st cp]. intros [Hs Hn]. simpl in *. subst svcs.
  apply (bool_decide_unpack _).
  destruct node as [[n|[hub|[m [b|] nx]]]|]; try done; destruct t; vm_compute; exact I.
Qed.

Lemma callback_uses_made sv :
  complete sv -> node_raft sv = true -> Forall (fun o => o ∈ made sv) callback_uses.
Proof.
  destruct sv as [node svcs st cp]. intros [Hs Hn] Hr. simpl in *. subst svcs.
  apply (bool_decide_unpack _).
  destruct node as [[n|[hub|[m [b|] nx]]]|]; try done; vm_compute; exact I.
Qed.

(** While [main] is on its way out it can take a step, or what it waits for can. *)
Lemma main_progress c r l :
  life_inv c r l -> lf_main l <> MnMembers [] ->
  is_Some (main_step c r l) \/ main_waits l.
Proof.
  intros [[Hstop Hc Hn Hj] _ Hm] Hend. unfold main_step, main_waits.
  destruct (decide (lf_requests l = ∅)) as [|Hq]; [|by right; left].
  destruct (lf_main l) as [| | |[|a rest]] eqn:Em; [by left|by left| |done|].
  - destruct (sd_dtor (lf_sd l)) eqn:Ed; unfold dtor_step, thread_step; rewrite ?Ed.
    + by left.
    + destruct (sd_thread (lf_sd l)) eqn:Et; simpl;
        try (left; by eexists); right; right; first [by left; eexists|by right].
    + by left.
    + specialize (Hn (or_introl eq_refl)).
      destruct (sd_thread (lf_sd l)) as [| | |[|]| | |] eqn:Et; simpl; try done;
        try (left; by eexists); right; right; first [by left; eexists|by right].
    + by left.
  - left. destruct a; simpl; rewrite ?decide_True by done; by eexists.
Qed.

(** What has not been destroyed yet when something uses it. *)
Lemma in_use_kept c r l o : life_inv c r l -> in_use c r l o -> o ∉ lf_freed l.
Proof.
  intros [[_ _ _ Hj] Hr Hm] Hu. unfold main_inv in Hm.
  destruct (lf_main l) as [| | |rest]; try (rewrite Hm; apply not_elem_of_nil).
  destruct Hm as (Hd & gone & Hg & -> & _ & Hjoin & Hrj). intros Hin.
  destruct Hu as [(i & s & Hi & Ho)|[Ho|[Hf Ho]]].
  - assert (LvJoin ∉ gone) as Hgone.
    { intros Hx. destruct (Hjoin Hx) as [_ E]. by rewrite E in Hi. }
    pose proof (request_members_last c r s) as Hl. rewrite Forall_forall in Hl.
    apply (Hl o Ho). rewrite Hg. by apply frees_upto.
  - destruct (Hj Hd) as [E|E]; rewrite E in Ho; by apply elem_of_nil in Ho.
  - assert (LvRaftJoin ∉ gone) as Hgone by (intros Hx; by rewrite (Hrj Hx) in Hf).
    pose proof (callback_members_last c r (Hr Hf)) as Hl. rewrite Forall_forall in Hl.
    apply (Hl o Ho). rewrite Hg. by apply frees_upto.
Qed.

Lemma in_use_made sv l o :
  (sv_started sv = true \/ sv_compaction sv = true \/ node_raft sv = true -> complete sv) ->
  (lf_raft l = true -> node_raft sv = true) -> users_ready sv l ->
  in_use (node_cluster sv) (node_raft sv) l o -> o ∈ made sv.
Proof.
  intros Hc Hr [Ha Ht] [(i & s & Hi & Ho)|[Ho|[Hf Ho]]].
  - assert (complete sv) as Hs.
    { apply Hc. left. apply Ha. right. intros E. by rewrite E in Hi. }
    pose proof (request_uses_made sv s Hs) as Hl. rewrite Forall_forall in Hl. by apply Hl.
  - assert (complete sv) as Hs.
    { apply Hc. right; left. apply Ht. intros E. rewrite E in Ho. by apply elem_of_nil in Ho. }
    pose proof (thread_uses_made sv (sd_thread (lf_sd l)) Hs) as Hl.
    rewrite Forall_forall in Hl. by apply Hl.
  - assert (complete sv) as Hs by (apply Hc; right; right; by apply Hr).
    pose proof (callback_uses_made sv Hs (Hr Hf)) as Hl. rewrite Forall_forall in Hl. by apply Hl.
Qed.

(** C38. Nothing is used after it has been destroyed.  From the return of [Init],
    successful or not, to the end of [main], in every interleaving of [main], the
    compaction thread, requests and callbacks of the raft library: the services,
    the node, its store, its state machine and the hub exist and have not been
    destroyed as long as a request, a callback or the thread can reach them; no
    member is destroyed twice; [main] can go on, or waits for a request in flight or
    for the thread, which can take a step without waiting or is in a pass (how long a
    request takes is not said here); and when [main] has ended nothing runs any more and every member is gone. *)
Theorem members_outlive_users opts env (fs fs' : FS) err sv reqs n l :
  Init opts env fs = Done (err, sv, fs') -> (sv_started sv = false -> reqs = ∅) ->
  steps sv (life_of err sv reqs n) l ->
  (forall o, in_use (node_cluster sv) (node_raft sv) l o -> o ∈ made sv /\ o ∉ lf_freed l) /\
  NoDup (lf_freed l) /\
  (lf_main l <> MnMembers [] ->
     is_Some (main_step (node_cluster sv) (node_raft sv) l) \/ main_waits l) /\
  (lf_main l = MnMembers [] ->
     lf_requests l = ∅ /\ lf_raft l = false /\
     (sd_thread (lf_sd l) = ThNone \/ sd_thread (lf_sd l) = ThEnded) /\
     forall o, o ∈ server_members ++ node_members (node_cluster sv) -> o ∈ lf_freed l).
Proof.
  intros Ei Hreqs Hs.
  pose proof (life_steps_inv _ _ _ _ Hs (life_of_inv err sv reqs n)) as Hi.
  assert (users_ready sv l) as Hu.
  { eapply users_ready_run; [exact Hs|]. split; simpl; [|by destruct (sv_compaction sv)].
    intros [?|Hne]; [done|]. destruct (sv_started sv); [done|]. by destruct Hne; apply Hreqs. }
  split; [|split; [|split]].
  - intros o Ho. split; [|by eapply in_use_kept].
    eapply in_use_made; [by eapply Init_complete|apply Hi|exact Hu|exact Ho].
  - destruct Hi as [_ _ Hm]. by eapply freed_once.
  - intros Hm. by apply main_progress.
  - intros Em. by eapply life_ended.
Qed.
End server.

(** * Witness: a node of a cluster that is asked to quit while a [Watch] waits *)

Definition life_opts : ServerOptions :=
  mkServerOptions "8001" "127.0.0.1" "data" "node1" "127.0.0.1:8001" "web".

Definition life_env : StartEnv SoloRaft.t :=
  mkStartEnv 0 (fun _ _ => 0) 0 true true (demo_raft, 0).

Definition life_fs : MemDB.fs := MemDB.mkFS ∅ true true None.

Definition life_init : option (option string * @ConfigraftServer MemDB.t SoloRaft.t * MemDB.fs) :=
  match Init life_opts life_env life_fs with Done x => Some x | Throws _ => None end.

Definition life_server : @ConfigraftServer MemDB.t SoloRaft.t :=
  match life_init with Some (_, sv, _) => sv | None => ConfigraftServer_new end.

Definition life_left : MemDB.fs := match life_init with Some (_, _, fs) => fs | None => life_fs end.

#[local] Existing Instances alone alone_spec.

(** The node a pass of the thread would find. *)
Definition life_node : LocalNode MemDB.t := mkLocalNode (mkStore (Some demo_db) "data") None ∅.

Definition life_quitting : Life (LocalNode MemDB.t) :=
  mkLife MnJoining false {[1%nat := WatchSvc]} true [] (StartCompactionLoop true life_node).

Lemma life_quitting_run :
  rtc (life_step true true) (life_of None life_server ∅ life_node) life_quitting.
Proof.
  eapply rtc_l; [apply (LfAccept _ _ _ 1 WatchSvc); vm_compute; reflexivity|].
  apply rtc_once, LfMain. vm_compute. reflexivity.
Qed.

Lemma members_outlive_users_witness :
  Init life_opts life_env life_fs = Done (None, life_server, life_left) /\
  (M_watch_hub ∈ made life_server /\ M_watch_hub ∉ lf_freed life_quitting) /\
  main_waits life_quitting.
Proof.
  assert (Init life_opts life_env life_fs = Done (None, life_server, life_left)) as E
    by (vm_compute; reflexivity).
  destruct (members_outlive_users life_opts life_env life_fs life_left None life_server ∅ life_node
    life_quitting E (fun _ => eq_refl) life_quitting_run) as (Hu & _ & Hp & _).
  split; [exact E|]. split.
  - apply Hu. left. exists 1%nat, WatchSvc. split; [reflexivity|].
    apply (bool_decide_unpack _). vm_compute. exact I.
  - destruct Hp as [[l' Hl]|Hw]; [discriminate|vm_compute in Hl; discriminate|exact Hw].
Defined.
