(* ===== verification/WatchNodes.v ===== *)
(** The nodes as the writer of the Watch system: [LocalNode::Apply]
    (src/src/raft/local_node.cpp), [on_apply] (src/src/raft/state_machine.cpp) and
    compaction passes are schedules of WatchSystem.v, so what WatchTheorems.v and
    WatchLive.v say of the hub holds on the hub of a node.  From there to the
    clients: a write that was answered OK wakes the calls that wait for it. *)
From S2P Require Import Prelude CxxStd StoreKey Proto LevelDB Store StoreSpec StoreRepr StoreOps.
From S2P Require Import StoreEvents WatchHub WatchCall WatchStore WatchSystem WatchInv WatchSteps.
From S2P Require Import WatchTheorems WatchLive Node StateMachine FsmTheorems RaftNode Cluster.

(** * Schedules of the writer *)

(** The commands a schedule applies. *)
Definition written (act : action) : option RaftCmd :=
  match act with AWrite cmd => Some cmd | _ => None end.

Definition writes (acts : list action) : list RaftCmd := omap written acts.

Lemma writes_app l1 l2 : writes (l1 ++ l2) = writes l1 ++ writes l2.
Proof. apply omap_app. Qed.

(** Actions of the writer and of the compaction thread only: no call takes a step. *)
Definition by_node (act : action) : Prop :=
  match act with ACall _ _ | AWatch _ _ => False | _ => True end.

Lemma exec_all_app {S} `{EventStore S} (σ : Sys S) l1 l2 :
  exec_all σ (l1 ++ l2) = exec_all σ l1 ≫= fun σ' => exec_all σ' l2.
Proof.
  revert σ. induction l1 as [|act l1 IH]; intros σ; [done|]. simpl.
  destruct (exec σ act) as [σ'|]; [apply IH|done].
Qed.

Lemma allowed_all_app {S} `{EventStoreSpec S} (σ σ' : Sys S) l1 l2 :
  exec_all σ l1 = Some σ' -> allowed_all σ l1 -> allowed_all σ' l2 -> allowed_all σ (l1 ++ l2).
Proof.
  revert σ. induction l1 as [|act l1 IH]; intros σ E H1 H2; simpl in *; [by simplify_eq|].
  destruct H1 as [Ha H1]. destruct (exec σ act) as [σ1|]; [|done]. split; [done|]. by apply IH.
Qed.

(** Everything that is not the store, the writer's buffers or the log stays. *)
Definition same_calls {S} (σ σ' : Sys S) : Prop :=
  sy_calls σ' = sy_calls σ /\ sy_hub σ' = sy_hub σ /\ sy_reg σ' = sy_reg σ.

#[export] Instance same_calls_preorder {S} : PreOrder (@same_calls S).
Proof. split; [by intros σ|]. intros σ1 σ2 σ3 (?&?&?) (?&?&?). split_and!; congruence. Qed.

Section views.
Context `{KVCodec} `{CmdCodec} {DB : Type} `{LevelDB DB}.
Implicit Types (σ : Sys DB) (m : Fsm DB) (n : LocalNode DB).

(** The store, the hub and the waiters of a node are those of the system, and no
    broadcast is under way. *)
Record view (store : Store DB) (hub : option WatchHub) (heap : Heap) σ : Prop := {
  vw_store : db_ store = Some (sy_store σ);
  vw_hub : hub = Some (sy_hub σ);
  vw_heap : heap = sy_heap σ;
  vw_idle : sy_writer σ = WrIdle
}.

Definition local_view n σ : Prop := view (ln_store n) (ln_hub n) (ln_waiters n) σ.
Definition fsm_view m σ : Prop := view (fs_store m) (fs_hub m) (fs_waiters m) σ.

(** What one command leaves. *)
Definition after_write σ (d : DB) (evs : list WatchEvent) : Sys DB :=
  mkSys d (sy_compaction σ) (broadcast_events (sy_heap σ) (Some (sy_hub σ)) evs) (sy_hub σ) WrIdle
    (sy_calls σ) (sy_log σ ++ evs) (sy_reg σ).

(** The results do not depend on the directory of the store. *)
Lemma ApplyCmdToStore_dir d dir dir' cmd r st :
  ApplyCmdToStore (mkStore (Some d) dir) cmd ApplyResult_default = Done (r, st) ->
  exists d', st = mkStore (Some d') dir /\
    ApplyCmdToStore (mkStore (Some d) dir') cmd ApplyResult_default = Done (r, mkStore (Some d') dir').
Proof.
  intros E. destruct (ApplyCmdToStore_one_write _ _ _ _ _ _ E) as (d' & -> & _).
  exists d'. split; [done|]. revert E.
  destruct cmd as [k v|k|k e v|k v|k t|puts|]; simpl;
    unfold ApplyPut, ApplyDelete, ApplyCas, ApplyPublish, ApplyRollback, ApplyBatch,
      Put, Delete, CompareAndSwap, Publish, Rollback, BatchPut, with_db; simpl;
    repeat (case_match; simplify_eq/=; try done); intros; by simplify_eq/=.
Qed.

Lemma broadcast_steps σ d evs :
  evs <> [] ->
  exec_all (WatchSystem.set_store σ d (sy_log σ ++ evs) (WrApplied evs))
    (replicate (length (waiters_ (sy_hub σ)) + 2) ABroadcast) = Some (after_write σ d evs).
Proof.
  intros Hne. rewrite Nat.add_succ_r. simpl.
  rewrite (deliveries _ evs (waiters_ (sy_hub σ))) by done. simpl.
  unfold after_write, broadcast_events, Broadcast. by destruct evs.
Qed.

(** A command is a write and its broadcast. *)
Lemma write_steps σ dir cmd r st :
  sy_writer σ = WrIdle ->
  ApplyCmdToStore (mkStore (Some (sy_store σ)) dir) cmd ApplyResult_default = Done (r, st) ->
  exists acts d, st = mkStore (Some d) dir /\ Forall by_node acts /\ writes acts = [cmd] /\
    exec_all σ acts = Some (after_write σ d (ar_events r)).
Proof.
  intros Hw E. destruct (ApplyCmdToStore_dir _ _ "" _ _ _ E) as (d & -> & E').
  assert (db_apply (sy_store σ) cmd = Done (ar_events r, d)) as Ed.
  { unfold db_apply. by rewrite E'. }
  exists (AWrite cmd :: match ar_events r with
                        | [] => []
                        | _ => replicate (length (waiters_ (sy_hub σ)) + 2) ABroadcast
                        end), d.
  split; [done|]. split; [|split].
  - constructor; [done|]. destruct (ar_events r); [constructor|].
    apply Forall_replicate. done.
  - unfold writes. simpl. f_equal. destruct (ar_events r); [done|].
    generalize (length (waiters_ (sy_hub σ)) + 2)%nat. intros k. by induction k.
  - simpl. rewrite Hw. change (es_apply (sy_store σ) cmd) with (db_apply (sy_store σ) cmd).
    rewrite Ed. simpl. destruct (ar_events r) as [|e evs] eqn:Ee.
    + simpl. unfold after_write. simpl. by destruct σ.
    + by apply broadcast_steps.
Qed.
End views.

Section nodes.
Context `{KVCodec} `{CmdCodec} {DB : Type} `{LevelDB DB}.
Implicit Types (σ : Sys DB) (m : Fsm DB) (n : LocalNode DB).

(** What a step of a node is in the Watch system: a schedule that applies [cmds] and
    reports [evs], and takes no step of a call. *)
Definition schedule σ σ' (cmds : list RaftCmd) : Prop :=
  same_calls σ σ' /\
  exists acts, exec_all σ acts = Some σ' /\ Forall by_node acts /\ writes acts = cmds.

Lemma schedule_refl σ : schedule σ σ [].
Proof. split; [done|]. by exists []. Qed.

Lemma schedule_trans σ1 σ2 σ3 cs1 cs2 :
  schedule σ1 σ2 cs1 -> schedule σ2 σ3 cs2 -> schedule σ1 σ3 (cs1 ++ cs2).
Proof.
  intros (Hs1 & l1 & E1 & Hb1 & <-) (Hs2 & l2 & E2 & Hb2 & <-). split; [by etrans|].
  exists (l1 ++ l2). split_and!; [|by apply Forall_app|apply writes_app].
  by rewrite exec_all_app, E1.
Qed.

Lemma view_apply store hub heap σ cmd r store' :
  view store hub heap σ -> ApplyCmdToStore store cmd ApplyResult_default = Done (r, store') ->
  exists σ', schedule σ σ' [cmd] /\ sy_log σ' = sy_log σ ++ ar_events r /\
    sy_compaction σ' = sy_compaction σ /\
    view store' hub (broadcast_events heap hub (ar_events r)) σ'.
Proof.
  intros [Hs Hh Hp Hi] E. destruct store as [db dir]. simpl in Hs. subst db hub heap.
  destruct (write_steps σ dir cmd r store' Hi E) as (acts & d & -> & Hb & Hw & Ex).
  exists (after_write σ d (ar_events r)). split; [|done]. split; [done|]. by exists acts.
Qed.

Lemma local_Apply_schedule n σ cmd r n' :
  local_view n σ -> LocalNode_Apply n cmd = Done (r, n') ->
  exists σ', schedule σ σ' [cmd] /\ sy_log σ' = sy_log σ ++ ar_events r /\ local_view n' σ'.
Proof.
  intros Hv E. unfold LocalNode_Apply in E.
  destruct (ApplyCmdToStore (ln_store n) cmd _) as [[r0 st]|] eqn:Ea; [|done]. simplify_eq/=.
  destruct (view_apply _ _ _ _ _ _ _ Hv Ea) as (σ' & Hs & Hl & _ & Hv'). by exists σ'.
Qed.

Lemma apply_entry_schedule m σ e m' :
  fsm_view m σ -> apply_entry m e = Done m' ->
  exists σ', schedule σ σ' (commands [le_data e]) /\ sy_compaction σ' = sy_compaction σ /\
    fsm_view m' σ'.
Proof.
  intros Hv E. unfold apply_entry in E. unfold commands. simpl.
  destruct (ParseCmd (le_data e)) as [cmd|].
  - destruct (ApplyCmdToStore (fs_store m) cmd _) as [[r st]|] eqn:Ea; [|done]. simplify_eq/=.
    destruct (view_apply _ _ _ _ _ _ _ Hv Ea) as (σ' & Hs & _ & Hc & Hv'). by exists σ'.
  - simplify_eq. exists σ. split; [apply schedule_refl|]. split; [done|]. by destruct Hv.
Qed.

Lemma on_apply_schedule m σ entries m' :
  fsm_view m σ -> on_apply m entries = Done m' ->
  exists σ', schedule σ σ' (commands (le_data <$> entries)) /\
    sy_compaction σ' = sy_compaction σ /\ fsm_view m' σ'.
Proof.
  revert m σ. induction entries as [|e entries IH]; intros m σ Hv E; simpl in E.
  { simplify_eq. exists σ. split; [apply schedule_refl|done]. }
  destruct (apply_entry m e) as [m1|] eqn:Ea; [|done]. simpl in E.
  destruct (apply_entry_schedule _ _ _ _ Hv Ea) as (σ1 & Hs1 & Hc1 & Hv1).
  destruct (IH _ _ Hv1 E) as (σ2 & Hs2 & Hc2 & Hv2). exists σ2.
  split; [|split; [congruence|done]]. rewrite fmap_cons.
  change (le_data e :: ?l) with ([le_data e] ++ l). rewrite commands_app.
  by eapply schedule_trans.
Qed.

Lemma Compaction_schedule store hub heap σ keep removed store' :
  view store hub heap σ -> sy_compaction σ = None ->
  Compaction store keep = Done (removed, store') ->
  exists σ', schedule σ σ' [] /\ sy_log σ' = sy_log σ /\ sy_compaction σ' = None /\
    view store' hub heap σ'.
Proof.
  intros [Hs Hh Hp Hi] Hn E. unfold Compaction in E. rewrite Hs in E.
  destruct (CompactionLocked (sy_store σ) (sy_store σ) keep) as [[k d]|] eqn:Ec; [|done].
  simplify_eq/=. exists (set_compaction σ d None). split; [|by split_and!].
  split; [done|]. exists [ACompact keep; ACompactEnd].
  split; [|by split; [repeat constructor|]]. simpl. rewrite Hn. simpl.
  unfold db_compact. rewrite Ec. simpl. done.
Qed.

(** The commands of a callback of the raft library. *)
Definition callback_commands (cb : callback) : list RaftCmd :=
  match cb with CbApply entries => commands (le_data <$> entries) | _ => [] end.

Lemma handle_schedule m σ cb m' :
  fsm_view m σ -> sy_compaction σ = None -> handle m cb = Done m' ->
  exists σ', schedule σ σ' (callback_commands cb) /\ sy_compaction σ' = None /\ fsm_view m' σ'.
Proof.
  intros Hv Hn E. destruct cb as [entries|term| |id status|keep]; simpl in E.
  - destruct (on_apply m entries) as [m1|] eqn:Ea; [|done]. simplify_eq/=.
    destruct (on_apply_schedule _ _ _ _ Hv Ea) as (σ' & Hs & Hc & Hv').
    exists σ'. split; [done|]. split; [congruence|]. by destruct Hv'.
  - simplify_eq. exists σ. split; [apply schedule_refl|]. split; [done|]. by destruct Hv.
  - simplify_eq. exists σ. split; [apply schedule_refl|]. split; [done|]. by destruct Hv.
  - simplify_eq. exists σ. split; [apply schedule_refl|]. split; [done|]. by destruct Hv.
  - destruct (Compaction (fs_store m) keep) as [[k st]|] eqn:Ec; [|done]. simplify_eq/=.
    destruct (Compaction_schedule _ _ _ _ _ _ _ Hv Hn Ec) as (σ' & Hs & _ & Hc & Hv').
    by exists σ'.
Qed.

Lemma handle_all_schedule m σ cbs m' :
  fsm_view m σ -> sy_compaction σ = None -> handle_all m cbs = Done m' ->
  exists σ', schedule σ σ' (cbs ≫= callback_commands) /\ sy_compaction σ' = None /\ fsm_view m' σ'.
Proof.
  revert m σ. induction cbs as [|cb cbs IH]; intros m σ Hv Hn E; simpl in E.
  { simplify_eq. exists σ. split; [apply schedule_refl|done]. }
  destruct (handle m cb) as [m1|] eqn:Eh; [|done]. simpl in E.
  destruct (handle_schedule _ _ _ _ Hv Hn Eh) as (σ1 & Hs1 & Hn1 & Hv1).
  destruct (IH _ _ Hv1 Hn1 E) as (σ2 & Hs2 & Hn2 & Hv2). exists σ2.
  split; [|done]. simpl. by eapply schedule_trans.
Qed.
End nodes.

(** * The schedules are allowed, and wake the calls that wait *)

Section wake.
Context `{KVCodecSpec} `{CmdCodec} {DB : Type} `{LevelDBSpec DB}.
Implicit Types (σ : Sys DB) (m : Fsm DB) (n : LocalNode DB) (a : WatchArgs).

Lemma reachable_step σ σ' : reachable σ -> sys_step σ σ' -> reachable σ'.
Proof. intros (s & L & max & Hs & Hr) Hst. exists s, L, max. split; [done|]. by eapply rtc_r. Qed.

Lemma reachable_rep σ : reachable σ -> exists b, Rep (sy_store σ) b /\ log_of b (sy_log σ).
Proof. intros [max Hi]%reachable_inv. exact (si_store _ _ Hi). Qed.

Lemma reachable_rev σ :
  reachable σ -> CurrentRevisionLocked (sy_store σ) = Z.of_nat (length (sy_log σ)).
Proof. intros [max Hi]%reachable_inv. apply (es_inv_rev _ _ (si_store _ _ Hi)). Qed.

Lemma db_apply_size d b cmd evs d' :
  Rep d b -> db_valid d cmd -> db_apply d cmd = Done (evs, d') ->
  CurrentRevisionLocked d' <= CurrentRevisionLocked d + cmd_size cmd.
Proof.
  intros Hd [Hv Hf] E. rewrite (CurrentRevisionLocked_rep _ _ Hd) in *. unfold db_apply in E.
  destruct (ApplyCmdToStore_refines d "" b cmd Hd Hv Hf) as (r & d1 & E' & Hr).
  rewrite E' in E. simplify_eq/=. destruct Hr as [[_ Hr]|(_ & _ & _ & Hr)];
    rewrite (CurrentRevisionLocked_rep _ _ Hr).
  - pose proof (spec_apply_rev b cmd). lia.
  - destruct cmd; simpl; lia.
Qed.

Definition writes_fit σ (cmds : list RaftCmd) : Prop :=
  Forall cmd_valid cmds /\ CurrentRevisionLocked (sy_store σ) + cmds_size cmds <= int64_max.

Lemma other_action σ act σ' cmds :
  reachable σ -> written act = None -> exec σ act = Some σ' -> Forall cmd_valid cmds ->
  CurrentRevisionLocked (sy_store σ) + cmds_size cmds <= int64_max ->
  allowed σ act /\ reachable σ' /\ writes_fit σ' cmds.
Proof.
  intros Hr Hn E Hv Hf. assert (allowed σ act) as Ha by by destruct act.
  assert (reachable σ') as Hr' by (eapply reachable_step; [exact Hr|by eapply SysStep]).
  split; [done|]. split; [done|]. split; [done|].
  rewrite (reachable_rev _ Hr') in *. rewrite (reachable_rev _ Hr) in Hf.
  assert (sy_log σ' = sy_log σ) as ->; [|done].
  destruct act as [cmd| |keep| |w a|w e]; simpl in E; [done|..];
    repeat (case_match; simplify_eq/=; try done).
Qed.

(** One action of a schedule whose commands fit. *)
Lemma writes_fit_step σ act σ' cmds :
  reachable σ -> exec σ act = Some σ' -> writes_fit σ (writes [act] ++ cmds) ->
  allowed σ act /\ reachable σ' /\ writes_fit σ' cmds.
Proof.
  intros Hr E [Hv Hf]. rewrite cmds_size_app in Hf. apply Forall_app in Hv as [Hv1 Hv].
  destruct act as [cmd| |keep| |w a|w e]; simpl in Hv1, Hf.
  - apply Forall_cons in Hv1 as [Hv1 _]. pose proof (cmds_size_nonneg cmds).
    assert (db_valid (sy_store σ) cmd) as Hdb by (split; [done|lia]).
    assert (allowed σ (AWrite cmd)) as Hal by exact Hdb.
    assert (reachable σ') as Hr' by (apply (reachable_step σ); [exact Hr|exact (SysStep σ _ σ' Hal E)]).
    split; [done|]. split; [done|]. split; [done|].
    destruct (reachable_rep _ Hr) as (b & Hb & _). simpl in E.
    destruct (sy_writer σ); try done.
    destruct (db_apply (sy_store σ) cmd) as [[evs d']|] eqn:Ea; simplify_eq/=.
    pose proof (db_apply_size _ _ _ _ _ Hb Hdb Ea). lia.
  - by eapply other_action.
  - by eapply other_action.
  - by eapply other_action.
  - by eapply other_action.
  - by eapply other_action.
Qed.

Lemma schedule_allowed σ acts σ' :
  reachable σ -> exec_all σ acts = Some σ' -> writes_fit σ (writes acts) ->
  allowed_all σ acts /\ reachable σ'.
Proof.
  revert σ. induction acts as [|act acts IH]; intros σ Hr E Hw; simpl in *; [by simplify_eq|].
  destruct (exec σ act) as [σ1|] eqn:E1; [|done]. simpl in E.
  destruct (writes_fit_step σ act σ1 (writes acts) Hr E1) as (Ha & Hr1 & Hw1).
  { by rewrite <-writes_app. }
  destruct (IH _ Hr1 E Hw1) as [Hall Hr']. by split.
Qed.

Lemma schedule_reachable σ σ' cmds :
  reachable σ -> schedule σ σ' cmds -> writes_fit σ cmds -> reachable σ'.
Proof. intros Hr (_ & acts & E & _ & <-) Hw. by destruct (schedule_allowed σ acts σ' Hr E Hw). Qed.

Lemma schedule_log σ σ' cmds : schedule σ σ' cmds -> sy_log σ `prefix_of` sy_log σ'.
Proof.
  intros (_ & acts & E & _ & _). clear -E. revert σ E.
  induction acts as [|act acts IH]; intros σ E; simpl in E; [by simplify_eq|].
  destruct (exec σ act) as [σ1|] eqn:E1; [|done]. simpl in E.
  etrans; [by eapply exec_log|by apply IH].
Qed.

(** The call waits at its condition variable, or is about to. *)
Definition waits σ (w : nat) a : Prop :=
  exists dl, sy_calls σ !! w = Some (mkCall a (WWait dl)) \/
    sy_calls σ !! w = Some (mkCall a (WBlocked dl)).

(** However the run goes on, [w] returns after six steps of its own, with [e] unless
    its buffer has overflowed. *)
Definition will_return σ (w : nat) a (e : WatchEvent) : Prop :=
  forall acts σ', exec_all σ acts = Some σ' -> allowed_all σ acts -> (6 <= own_steps w acts)%nat ->
    exists ok out, sy_calls σ' !! w = Some (mkCall a (WReturn ok out)) /\
      (e ∈ wr_events out \/
       wr_events out = [] /\ exists lo, sy_reg σ !! w = Some lo /\ too_many σ' a lo).

Lemma waits_registered σ w a :
  reachable σ -> waits σ w a ->
  exists lo, sy_reg σ !! w = Some lo /\ (lo <= length (sy_log σ))%nat.
Proof.
  intros [max Hi]%reachable_inv (dl & Hc).
  assert (exists pc, sy_calls σ !! w = Some (mkCall a pc) /\ (pc = WWait dl \/ pc = WBlocked dl))
    as (pc & Hpc & Hor) by (destruct Hc; eauto).
  pose proof (si_calls _ _ Hi _ _ Hpc) as Hinv.
  destruct Hor as [-> | ->]; simpl in Hinv; [|destruct Hinv as [Hinv _]];
    destruct Hinv as (lo & x & E & _ & _ & _ & (Hb & _) & _); exists lo; (split; [done|lia]).
Qed.

(** A change made while the call waits. *)
Lemma new_change_returned σ σ' cmds w a e :
  reachable σ -> waits σ w a -> schedule σ σ' cmds -> reachable σ' -> sy_writer σ' = WrIdle ->
  e ∈ drop (length (sy_log σ)) (sy_log σ') -> wa_key a = "" \/ ev_key e = wa_key a ->
  will_return σ' w a e.
Proof.
  intros Hr Hw Hs Hr' Hi He Hk acts σ'' E Ha Ho.
  destruct (waits_registered _ _ _ Hr Hw) as (lo & Hlo & Hle).
  destruct Hs as [(Hc & _ & Hreg) _]. rewrite <-Hreg in Hlo.
  assert (waits σ' w a) as Hw' by (unfold waits; by rewrite Hc).
  destruct (on_its_way_returns σ' acts σ'' w a lo e Hr') as (ok & out & Hret & Hres); try done.
  - destruct Hw' as [dl Hdl]. eapply waiting_on_its_way; [done|done|exact Hdl|done|].
    apply elem_of_matching. split; [done|].
    replace (length (sy_log σ)) with (lo + (length (sy_log σ) - lo))%nat in He by lia.
    rewrite <-drop_drop in He. apply list_elem_of_lookup in He as [i Hi'].
    rewrite lookup_drop in Hi'. by eapply list_elem_of_lookup_2.
  - exists ok, out. split; [done|]. destruct Hres as [?|[? ?]]; [by left|right].
    split; [done|]. by exists lo.
Qed.
End wake.

(** * The two nodes *)

Section drive.
Context `{KVCodecSpec} `{CmdCodec} {DB B : Type} `{LevelDBSpec DB} `{Braft B}.
Implicit Types (σ : Sys DB) (a : WatchArgs).

(** C11. The nodes drive the hub as its writer.  When a node's store, hub and waiters
    are those of a state the Watch system can reach, whatever a command on the local
    node, or a turn of the raft library on a cluster node (batches of entries,
    leadership changes, closures, compaction passes), does to them is a schedule of
    that system, in which no call takes a step, which applies exactly these commands
    and ends without a broadcast under way; so every theorem about the system holds
    on every node, leader or follower.  And every call that was waiting when a
    matching change was made, asleep on its condition variable or about to be, returns
    with it after at most six steps of its own, whatever else happens; the one
    exception is a call whose buffer overflows, which returns without events. *)
Theorem node_drives_watch σ :
  reachable σ -> sy_compaction σ = None ->
  (forall (n n' : LocalNode DB) cmd r,
     local_view n σ -> writes_fit σ [cmd] -> LocalNode_Apply n cmd = Done (r, n') ->
     exists σ', schedule σ σ' [cmd] /\ reachable σ' /\ local_view n' σ' /\
       sy_log σ' = sy_log σ ++ ar_events r /\
       forall w a e, waits σ w a -> e ∈ ar_events r -> wa_key a = "" \/ ev_key e = wa_key a ->
         will_return σ' w a e) /\
  (forall (n n' : RaftNode DB B) b,
     let cmds := fst (br_callbacks b) ≫= callback_commands in
     rn_node n = Some b -> fsm_view (rn_fsm n) σ -> writes_fit σ cmds -> turn n = Done n' ->
     exists σ' evs, schedule σ σ' cmds /\ reachable σ' /\ fsm_view (rn_fsm n') σ' /\
       sy_log σ' = sy_log σ ++ evs /\
       forall w a e, waits σ w a -> e ∈ evs -> wa_key a = "" \/ ev_key e = wa_key a ->
         will_return σ' w a e).
Proof.
  intros Hr Hn. split.
  - intros n n' cmd r Hv Hf E. destruct (local_Apply_schedule _ _ _ _ _ Hv E) as (σ' & Hs & Hl & Hv').
    assert (reachable σ') as Hr' by by eapply schedule_reachable.
    exists σ'. split_and!; [done..|]. intros w a e Hw He Hk.
    apply (new_change_returned σ σ' [cmd] w a e Hr Hw Hs Hr'); [apply Hv'| |exact Hk].
    by rewrite Hl, drop_app_length.
  - intros n n' b cmds Eb Hv Hf E. unfold turn in E. rewrite Eb in E.
    destruct (br_callbacks b) as [cbs b'] eqn:Ec. simpl in cmds.
    destruct (handle_all (rn_fsm n) cbs) as [m|] eqn:Eh; [|done]. simplify_eq/=.
    destruct (handle_all_schedule _ _ _ _ Hv Hn Eh) as (σ' & Hs & _ & Hv').
    assert (reachable σ') as Hr' by by eapply schedule_reachable.
    destruct (schedule_log _ _ _ Hs) as [evs Hl]. exists σ', evs. split_and!; [done..|].
    intros w a e Hw He Hk. apply (new_change_returned σ σ' _ w a e Hr Hw Hs Hr'); [apply Hv'| |exact Hk].
    by rewrite Hl, drop_app_length.
Qed.
End drive.
