(* ===== verification/WatchService.v ===== *)
(** From the services to the waiting clients: what a request to the key-value or the
    configuration service of a single node announces as written is delivered to
    every [Watch] call that waits for it. *)
From S2P Require Import Prelude CxxStd StoreKey Proto LevelDB Store StoreSpec StoreRepr StoreOps.
From S2P Require Import StoreRefine WatchHub WatchCall WatchStore WatchSystem WatchInv WatchSteps.
From S2P Require Import WatchTheorems WatchLive Node StateMachine FsmTheorems RaftNode WatchNodes.
From S2P Require Import RestUtil KVService Services ServiceTheorems FrontEnd Demo WatchExamples.
From S2P Require Import ServerTheorems RaftExamples.

(** The records a response announces. *)
Definition kv_records (resp : KVResponse) : list KV :=
  match kvr_kv resp with Some kv => [kv] | None => [] end ++ kvr_kvs resp.

Definition config_records (resp : ConfigResponse) : list KV :=
  match cfr_kv resp with Some kv => [kv] | None => [] end.

Section announced.
Context `{KVCodecSpec}.

(** A command that succeeds announces what it reports for broadcast. *)
Lemma kv_reply_records a cmd :
  ar_code (snd (spec_apply a cmd)) = OK ->
  MakeEvent <$> kv_records (kv_reply cmd (snd (spec_apply a cmd))) =
    ar_events (snd (spec_apply a cmd)).
Proof.
  destruct cmd as [k v|k|k e v|k v|k t|puts|]; cbn [spec_apply snd]; try done.
  - by destruct (spec_cas_matches a k e).
  - by destruct (spec_get_config a k t).
Qed.

Lemma config_reply_records a cmd :
  (forall puts, cmd <> CmdBatchPut puts) -> ar_code (snd (spec_apply a cmd)) = OK ->
  MakeEvent <$> config_records (config_reply (snd (spec_apply a cmd))) =
    ar_events (snd (spec_apply a cmd)).
Proof.
  destruct cmd as [k v|k|k e v|k v|k t|puts|]; cbn [spec_apply snd]; intros Hb; try done.
  - by destruct (spec_cas_matches a k e).
  - by destruct (spec_get_config a k t).
  - by destruct (Hb puts).
Qed.

Lemma config_asks_no_batch `{JsonToProto} e op puts :
  config_asks e op -> op <> OpWrite (CmdBatchPut puts).
Proof. by destruct 1; unfold on_key; try case_decide. Qed.
End announced.

Section service.
Context `{KVCodecSpec} `{CmdCodec} `{JsonToProto} {DB : Type} `{LevelDBSpec DB}.
Context `{OtherThreads DB}.
Implicit Types (n : LocalNode DB) (σ : Sys DB).

(** A command on the local node that is answered OK. *)
Lemma local_Apply_ok n σ cmd r n' :
  reachable σ -> local_view n σ -> writes_fit σ [cmd] -> LocalNode_Apply n cmd = Done (r, n') ->
  ar_code r = OK -> exists b, wf b /\ cmd_fits b cmd /\ r = snd (spec_apply b cmd).
Proof.
  intros Hr [Hs _ _ _] [Hv Hf] E Hok. apply Forall_cons in Hv as [Hv _].
  destruct (reachable_rep _ Hr) as (b & Hb & _). simpl in Hf.
  rewrite (CurrentRevisionLocked_rep _ _ Hb) in Hf.
  assert (cmd_fits b cmd) as Hfit by (unfold cmd_fits; lia).
  destruct n as [[db dir] hub heap]. simpl in Hs. subst db.
  destruct (local_Apply (mkLocalNode (mkStore (Some (sy_store σ)) dir) hub heap) b cmd r n')
    as [[-> _]|[Hc _]]; [by exists (sy_store σ), dir|done..| |congruence].
  exists b. split_and!; [by eapply rep_wf|done|done].
Qed.

(** Whatever is announced is on its way to the calls that wait for it. *)
Definition delivered σ σ' (recs : list KV) : Prop :=
  forall w a kv, waits σ w a -> kv ∈ recs -> wa_key a = "" \/ kv_key kv = wa_key a ->
    will_return σ' w a (MakeEvent kv).

Lemma announced_delivered n σ cmd r n' recs :
  reachable σ -> local_view n σ -> writes_fit σ [cmd] -> LocalNode_Apply n cmd = Done (r, n') ->
  MakeEvent <$> recs = ar_events r ->
  exists σ', schedule σ σ' [cmd] /\ reachable σ' /\ local_view n' σ' /\ delivered σ σ' recs.
Proof.
  intros Hr Hv Hf E He. destruct (local_Apply_schedule _ _ _ _ _ Hv E) as (σ' & Hs & Hl & Hv').
  assert (reachable σ') as Hr' by by eapply schedule_reachable.
  exists σ'. split_and!; [done..|]. intros w a kv Hw Hin Hk.
  apply (new_change_returned σ σ' [cmd] w a _ Hr Hw Hs Hr'); [apply Hv'| |exact Hk].
  rewrite Hl, drop_app_length, <-He. by apply list_elem_of_fmap_2.
Qed.

(** C10. What is written is pushed to those who wait.  On a single node whose hub is in
    any state it can reach, a request to the key-value service or the configuration
    service, over HTTP or over RPC, that asks for a write and is answered OK reaches
    every client, its broadcast waking the calls that sleep: each record the answer announces, a value, a tombstone, the
    records of a batch, a published or rolled back version, is returned by every
    [Watch] call that was waiting for its key or for all keys, with the revision,
    the version and the value of the answer, after at most six steps of its own,
    whatever the clock says and whatever else happens, unless its buffer overflows. *)
Theorem writes_reach_watchers n n' σ cmd :
  reachable σ -> local_view n σ -> writes_fit σ [cmd] ->
  (forall e resp, kv_asks e (OpWrite cmd) ->
     kv_enter e n = Done (Some (resp, n')) -> kvr_code resp = OK ->
     exists σ', schedule σ σ' [cmd] /\ reachable σ' /\ local_view n' σ' /\
       delivered σ σ' (kv_records resp)) /\
  (forall e resp, config_asks e (OpWrite cmd) ->
     config_enter e n = Done (Some (resp, n')) -> cfr_code resp = OK ->
     exists σ', schedule σ σ' [cmd] /\ reachable σ' /\ local_view n' σ' /\
       delivered σ σ' (config_records resp)).
Proof.
  intros Hr Hv Hf. split; intros e resp Ha E Hok.
  - rewrite (kv_enter_serve _ _ n Ha) in E. unfold kv_serve, mbind, call_bind in E. simpl in E.
    unfold returning in E.
    destruct (LocalNode_Apply n cmd) as [[r n1]|] eqn:El; [|done].
    unfold mret, call_ret in E. simpl in E. simplify_eq.
    assert (ar_code r = OK) as Hc by (unfold FillResponse in Hok; by case_decide).
    destruct (local_Apply_ok _ _ _ _ _ Hr Hv Hf El Hc) as (b & Hw & Hfit & ->).
    eapply announced_delivered; [done..|]. rewrite FillResponse_reply; [|done| |done].
    + by apply kv_reply_records.
    + by destruct Hf as [[? _]%Forall_cons _].
  - rewrite (config_enter_serve _ _ n Ha) in E. unfold config_serve, mbind, call_bind in E. simpl in E.
    unfold returning in E.
    destruct (LocalNode_Apply n cmd) as [[r n1]|] eqn:El; [|done].
    unfold mret, call_ret in E. simpl in E. simplify_eq.
    assert (ar_code r = OK) as Hc by exact Hok.
    destruct (local_Apply_ok _ _ _ _ _ Hr Hv Hf El Hc) as (b & Hw & Hfit & ->).
    eapply announced_delivered; [done..|]. rewrite config_fill_reply.
    apply config_reply_records; [|done]. intros puts ->. by apply (config_asks_no_batch _ _ puts Ha).
Qed.
End service.

(** * Witnesses: a POST, and a turn of the raft library, with a waiting call *)

#[local] Existing Instances body_codec alone SoloRaft.ops.

(** The node has applied one write; call 1 is asleep, waiting for everything
    from revision 1. *)
Definition pushed_state : Sys MemDB.t :=
  default (start 8) (exec_all (start 8) (put_broadcast "a" "1" 0 ++ wait_from 1 1 ++ [AWatch 1 calm])).

Definition pushed_node : LocalNode MemDB.t :=
  mkLocalNode (mkStore (Some (sy_store pushed_state)) "data") (Some (sy_hub pushed_state))
    (sy_heap pushed_state).

Definition pushed_answer : KVResponse * LocalNode MemDB.t :=
  match kv_enter (KvHttp demo_post) pushed_node with
  | Done (Some x) => x
  | _ => (KVResponse_default, pushed_node)
  end.

Lemma pushed_reachable : reachable pushed_state.
Proof.
  exists MemDB.empty, [], 8%nat. split; [exact empty_inv|].
  apply (exec_all_steps _ (put_broadcast "a" "1" 0 ++ wait_from 1 1 ++ [AWatch 1 calm])); by vm_compute.
Qed.

Lemma pushed_waits : waits pushed_state 1 live_args.
Proof. eexists. right. vm_compute. reflexivity. Qed.

Lemma writes_reach_watchers_witness :
  kvr_code pushed_answer.1 = OK /\
  exists σ', local_view pushed_answer.2 σ' /\ will_return σ' 1 live_args (ev 2 "app" "x" 1).
Proof.
  assert (kv_enter (KvHttp demo_post) pushed_node = Done (Some (pushed_answer.1, pushed_answer.2)))
    as E by (vm_compute; reflexivity).
  assert (kvr_code pushed_answer.1 = OK) as Hok by (vm_compute; reflexivity).
  assert (kv_records pushed_answer.1 = [mkKV "app" "x" 1 2 false]) as Hrec by (vm_compute; reflexivity).
  assert (writes_fit pushed_state [CmdPut "app" "x"]) as Hf.
  { split; [|apply Z.leb_le; vm_compute; reflexivity]. constructor; [split; reflexivity|constructor]. }
  assert (local_view pushed_node pushed_state) as Hv.
  { split; [reflexivity|reflexivity|reflexivity|vm_compute; reflexivity]. }
  split; [exact Hok|].
  destruct (writes_reach_watchers pushed_node pushed_answer.2 pushed_state (CmdPut "app" "x")
    pushed_reachable Hv Hf) as [Hkv _].
  destruct (Hkv (KvHttp demo_post) pushed_answer.1 demo_asks E Hok) as (σ' & _ & _ & Hv' & Hd).
  exists σ'. split; [exact Hv'|].
  apply (Hd 1%nat live_args (mkKV "app" "x" 1 2 false) pushed_waits); [|left; reflexivity].
  rewrite Hrec. left.
Defined.

(** A node of a cluster in the same state, with a put in the queue of its library. *)
Definition pushed_raft : RaftNode MemDB.t SoloRaft.t :=
  mkRaftNode (mkFsm (mkStore (Some (sy_store pushed_state)) "data") (Some (sy_hub pushed_state))
    (sy_heap pushed_state) ∅ [] (-1)) (Some demo_raft2) 0.

Definition pushed_turn : RaftNode MemDB.t SoloRaft.t :=
  match turn pushed_raft with Done n => n | Throws _ => pushed_raft end.

Lemma node_drives_watch_witness :
  turn pushed_raft = Done pushed_turn /\
  exists σ', schedule pushed_state σ' [demo_put] /\ reachable σ' /\ fsm_view (rn_fsm pushed_turn) σ'.
Proof.
  assert (turn pushed_raft = Done pushed_turn) as E by (vm_compute; reflexivity).
  assert (fst (br_callbacks demo_raft2) ≫= callback_commands = [demo_put]) as Hc
    by (vm_compute; reflexivity).
  assert (writes_fit pushed_state [demo_put]) as Hf.
  { split; [|apply Z.leb_le; vm_compute; reflexivity]. constructor; [split; reflexivity|constructor]. }
  assert (fsm_view (rn_fsm pushed_raft) pushed_state) as Hv.
  { split; [reflexivity|reflexivity|reflexivity|vm_compute; reflexivity]. }
  assert (sy_compaction pushed_state = None) as Hn by (vm_compute; reflexivity).
  split; [exact E|].
  destruct (node_drives_watch (B := SoloRaft.t) pushed_state pushed_reachable Hn) as [_ Ht].
  specialize (Ht pushed_raft pushed_turn demo_raft2). cbn zeta in Ht. rewrite Hc in Ht.
  destruct (Ht eq_refl Hv Hf E) as (σ' & evs & Hs & Hr & Hv' & _).
  exists σ'. split; [exact Hs|]. split; [exact Hr|exact Hv'].
Defined.
