(* ===== verification/WatchCluster.v ===== *)
(** Watching a group: the nodes of a raft group, each with its own hub, report the
    same changes, so a client may go on watching on another node with the anchor it
    got from the first.  A node comes up with the initial store or with a snapshot
    of another node, applies a part of the log, runs compaction when it likes, and
    serves [Watch] calls in any interleaving with all that. *)
From S2P Require Import Prelude CxxStd StoreKey Proto LevelDB Store StoreSpec StoreRepr StoreOps.
From S2P Require Import StoreRefine StoreScan StoreCompact StoreSnapshot StoreMaintenance StoreEvents.
From S2P Require Import StoreRun Replicas StoreLife WatchHub WatchCall WatchStore WatchSystem.
From S2P Require Import WatchInv WatchSteps WatchTheorems WatchLive Node StateMachine FsmTheorems.
From S2P Require Import RaftNode Cluster WatchNodes Demo WatchExamples.

(** * The changes of a log *)

(** What the commands report when they are applied from [a] on. *)
Fixpoint spec_events (a : Mvcc) (cmds : list RaftCmd) : list WatchEvent :=
  match cmds with
  | [] => []
  | cmd :: cmds' =>
      ar_events (snd (spec_apply a cmd)) ++ spec_events (fst (spec_apply a cmd)) cmds'
  end.

Lemma spec_events_app a l1 l2 :
  spec_events a (l1 ++ l2) = spec_events a l1 ++ spec_events (spec_log a l1) l2.
Proof.
  revert a. induction l1 as [|cmd l1 IH]; intros a; [done|]. simpl. by rewrite IH, <-app_assoc.
Qed.

Section events.
Context `{KVCodecSpec} `{CmdCodec}.

(** The log of the initial state goes on with the changes of the commands. *)
Lemma log_of_commands a L cmds :
  wf a -> log_of a L -> Forall cmd_valid cmds -> m_rev a + cmds_size cmds <= int64_max ->
  log_of (spec_log a cmds) (L ++ spec_events a cmds).
Proof.
  revert a L. induction cmds as [|cmd cmds IH]; intros a L Hw HL Hv Hs; simpl in *.
  { by rewrite app_nil_r. }
  apply Forall_cons in Hv as [Hv Hvs]. pose proof (cmds_size_nonneg cmds).
  pose proof (spec_apply_rev a cmd).
  assert (cmd_fits a cmd) as Hf by (unfold cmd_fits; lia).
  rewrite app_assoc. apply IH; [by apply spec_apply_wf|by apply log_apply|done|lia].
Qed.

(** A snapshot keeps a part of the history. *)
Lemma log_of_reload a L : wf a -> log_of a L -> log_of (spec_reload a) L.
Proof.
  intros Hw [Hlen Hev Hhist]. split; [done|done|]. simpl.
  intros r kv [Hr _]%map_lookup_filter_Some. by apply Hhist.
Qed.
End events.

(** * A node that follows the log *)

Section follow.
Context `{KVCodecSpec} `{CmdCodec} `{!CmdCodecSpec} {DB : Type} `{LevelDBSpec DB}.
Implicit Types (σ : Sys DB).

Definition replica_system (a : Mvcc) σ : Prop := replica_of a (mkStore (Some (sy_store σ)) "").

(** A pass that other commands may have run beside. *)
Lemma replica_compact_during a (d_it d : DB) keep d' :
  replica_of a (mkStore (Some d) "") -> db_since d_it d -> db_compact d_it d keep = Done d' ->
  replica_of a (mkStore (Some d') "").
Proof.
  intros (d1 & dir & b & [= <- <-] & Hd & Hb & Hacc) (a0 & b' & Hd0 & Hb' & Hs) E.
  rewrite <-(Rep_unique _ _ _ Hd Hb') in Hs. unfold db_compact in E.
  destruct (CompactionLocked_during d_it a0 d b keep Hd0 Hd Hs) as (n & d2 & E' & _ & Hr).
  pose proof (CompactionLocked_one_write _ _ _ _ _ E') as Hw.
  rewrite E' in E. simplify_eq/=.
  assert (forall d3, rtc one_write d' d3 -> accepts_writes d3) as Hacc'
    by (intros d3 Hd3; apply Hacc; by eapply rtc_l).
  destruct Hr as [Hr|[_ Hr]].
  - eexists _, _, _. split_and!; [done|exact Hr|by rewrite spec_reclaim_equiv|done].
  - by eexists _, _, b.
Qed.

Lemma replica_write a (d : DB) cmd evs d' :
  replica_of a (mkStore (Some d) "") -> cmd_valid cmd -> reads_index cmd = false -> cmd_fits a cmd ->
  db_apply d cmd = Done (evs, d') ->
  evs = ar_events (snd (spec_apply a cmd)) /\
  replica_of (fst (spec_apply a cmd)) (mkStore (Some d') "").
Proof.
  intros Hr Hv Hi Hf E. unfold db_apply in E.
  destruct (ApplyCmdToStore (mkStore (Some d) "") cmd _) as [[r st]|] eqn:Ea; [|done].
  destruct (ApplyCmdToStore_one_write _ _ _ _ _ _ Ea) as (d1 & -> & _). simplify_eq/=.
  destruct (replica_apply _ _ _ _ _ Hr Hv Hi Hf Ea) as [-> ?]. by split.
Qed.

Definition log_cmds_ok (a : Mvcc) (cmds : list RaftCmd) : Prop :=
  Forall (fun cmd => cmd_valid cmd /\ reads_index cmd = false) cmds /\
  m_rev a + cmds_size cmds <= int64_max.

Lemma replica_rev a σ : replica_system a σ -> CurrentRevisionLocked (sy_store σ) = m_rev a.
Proof.
  intros (d & dir & b & [= <- _] & Hd & Hb & _). by rewrite (CurrentRevisionLocked_rep _ _ Hd), Hb.
Qed.

Lemma log_cmds_fit a σ cmds : replica_system a σ -> log_cmds_ok a cmds -> writes_fit σ cmds.
Proof.
  intros Hr [Hv Hs]. split; [|by rewrite (replica_rev _ _ Hr)].
  eapply Forall_impl; [exact Hv|]. by intros cmd [? _].
Qed.

(** One action, and then a whole schedule. *)
Lemma replica_action a σ act σ' cmds :
  reachable σ -> replica_system a σ -> exec σ act = Some σ' -> log_cmds_ok a (writes [act] ++ cmds) ->
  reachable σ' /\ replica_system (spec_log a (writes [act])) σ' /\
  sy_log σ' = sy_log σ ++ spec_events a (writes [act]) /\
  log_cmds_ok (spec_log a (writes [act])) cmds.
Proof.
  intros Hr Hrep E Hok.
  destruct (writes_fit_step σ act σ' cmds Hr E (log_cmds_fit _ _ _ Hrep Hok)) as (_ & Hr' & _).
  split; [done|]. destruct Hok as [Hv Hs]. apply Forall_app in Hv as [Hv1 Hv].
  rewrite cmds_size_app in Hs. unfold replica_system in *.
  destruct act as [cmd| |keep| |w c|w e]; simpl in *; rewrite ?app_nil_r.
  - apply Forall_cons in Hv1 as [[Hv1 Hi] _]. pose proof (cmds_size_nonneg cmds).
    destruct (sy_writer σ); try done.
    destruct (db_apply (sy_store σ) cmd) as [[evs d']|] eqn:Ea; simplify_eq/=.
    pose proof (spec_apply_rev a cmd).
    destruct (replica_write a _ cmd _ _ Hrep Hv1 Hi ltac:(unfold cmd_fits; lia) Ea) as [-> ?].
    split_and!; [done|done|]. split; [done|lia].
  - assert (log_cmds_ok a cmds) by (split; [done|lia]).
    destruct (sy_writer σ) as [| |evs [|p l]]; by simplify_eq/=.
  - assert (log_cmds_ok a cmds) by (split; [done|lia]). destruct (sy_compaction σ); by simplify_eq/=.
  - assert (log_cmds_ok a cmds) by (split; [done|lia]).
    destruct (sy_compaction σ) as [[it k]|] eqn:Ec; [|done].
    destruct (db_compact it (sy_store σ) k) as [d'|] eqn:Ed; simplify_eq/=.
    split_and!; [|done|done]. eapply replica_compact_during; [exact Hrep| |exact Ed].
    destruct (reachable_inv _ Hr) as [max Hi]. by apply (si_compaction _ _ Hi it k).
  - assert (log_cmds_ok a cmds) by (split; [done|lia]). destruct (sy_calls σ !! w); by simplify_eq/=.
  - assert (log_cmds_ok a cmds) by (split; [done|lia]). destruct (sy_calls σ !! w) as [x|]; [|done].
    destruct (watch_step _ _ _ _ _ _ _) as [[[pc heap] hub]|]; by simplify_eq/=.
Qed.

Lemma replica_schedule a σ acts σ' :
  reachable σ -> replica_system a σ -> exec_all σ acts = Some σ' -> log_cmds_ok a (writes acts) ->
  reachable σ' /\ replica_system (spec_log a (writes acts)) σ' /\
  sy_log σ' = sy_log σ ++ spec_events a (writes acts).
Proof.
  revert a σ. induction acts as [|act acts IH]; intros a σ Hr Hrep E Hok; simpl in E.
  { simplify_eq/=. by rewrite app_nil_r. }
  destruct (exec σ act) as [σ1|] eqn:E1; [|done]. simpl in E.
  change (act :: acts) with ([act] ++ acts) in Hok |- *. rewrite writes_app in Hok |- *.
  destruct (replica_action _ _ _ _ _ Hr Hrep E1 Hok) as (Hr1 & Hrep1 & Hl1 & Hok1).
  destruct (IH _ _ Hr1 Hrep1 E Hok1) as (Hr' & Hrep' & Hl').
  rewrite spec_log_app, spec_events_app. split_and!; [done|done|]. by rewrite Hl', Hl1, <-app_assoc.
Qed.
End follow.

(** * The nodes of a group *)

Section group.
Context `{KVCodecSpec} `{CmdCodec} `{!CmdCodecSpec} {DB FS : Type} `{LevelDBFilesSpec DB FS}.
Context (a0 : Mvcc) (L0 : list WatchEvent) (log : list string).
Implicit Types (σ : Sys DB).

(** The state and the changes of the first [n] entries. *)
Definition state_at (n : nat) : Mvcc := spec_log a0 (commands (take n log)).
Definition changes_at (n : nat) : list WatchEvent := L0 ++ spec_events a0 (commands (take n log)).

(** [serves n σ]: a node that has applied the first [n] entries is in state [σ].  It
    comes up with the initial state, or with a snapshot of a node of the group, and
    goes on from there by any schedule that applies the next entries. *)
Inductive serves : nat -> Sys DB -> Prop :=
| ServesFresh d b max :
    Rep d b -> b ≡ a0 -> log_of b L0 -> (forall d', rtc one_write d d' -> accepts_writes d') ->
    serves 0 (sys_init d L0 max)
| ServesSnapshot n σ dir data (st st' : Store DB) (fs fs' : FS) d max :
    serves n σ -> ExportSnapshot (mkStore (Some (sy_store σ)) dir) = Done data ->
    LoadSnapshot st fs data = Done (None, st', fs') ->
    fst (fs_remove_all (snd (reset_db st fs)) (data_dir_ st)) = true ->
    db_ st' = Some d -> (forall d', rtc one_write d d' -> accepts_writes d') ->
    serves n (sys_init d (sy_log σ) max)
| ServesRun n k σ acts σ' :
    serves n σ -> (n + k <= length log)%nat -> exec_all σ acts = Some σ' ->
    writes acts = commands (take k (drop n log)) -> serves (n + k) σ'.

Lemma log_ok_part n k :
  log_ok a0 log -> log_cmds_ok (state_at n) (commands (take k (drop n log))).
Proof.
  intros Hok.
  assert (log_ok a0 (take n log ++ take k (drop n log))) as Hp.
  { eapply log_ok_prefix; [|exact Hok]. rewrite take_take_drop. exists (drop (n + k) log).
    by rewrite take_drop. }
  by apply log_ok_after in Hp.
Qed.

Lemma changes_at_add n k :
  changes_at (n + k) = changes_at n ++ spec_events (state_at n) (commands (take k (drop n log))).
Proof.
  unfold changes_at, state_at. by rewrite <-take_take_drop, commands_app, spec_events_app, app_assoc.
Qed.

Lemma reachable_init d L max : db_inv d L -> reachable (sys_init d L max).
Proof. intros Hd. exists d, L, max. split; [exact Hd|constructor]. Qed.

Lemma serves_inv n σ :
  log_ok a0 log -> serves n σ ->
  (n <= length log)%nat /\ reachable σ /\ replica_system (state_at n) σ /\ sy_log σ = changes_at n.
Proof.
  intros Hok Hs. induction Hs as [d b max Hd Hb HL Hacc|n σ dir data st st' fs fs' d max Hs IH Ex El
    Hrm Hd Hacc|n k σ acts σ' Hs IH Hle E Hw].
  - split; [lia|]. split; [by apply reachable_init; exists b|]. split.
    + by exists d, "", b.
    + unfold changes_at. simpl. by rewrite app_nil_r.
  - destruct IH as (Hle & Hr & (d1 & dir' & b & [= <- _] & Hd1 & Hb & _) & Hl).
    injection Ex as <-.
    destruct (LoadSnapshot_of b _ _ _ _ _ (rep_wf _ _ Hd1) (ExportSnapshotLocked_refines _ _ Hd1) El Hrm) as (d2 & -> & Hd2).
    simpl in Hd. simplify_eq. pose proof (rep_wf _ _ Hd1) as Hwf.
    destruct (reachable_rep _ Hr) as (b' & Hb' & HL).
    rewrite <-(Rep_unique _ _ _ Hd1 Hb') in HL.
    split; [done|]. split; [|split; [|done]].
    + apply reachable_init. exists (spec_reload b). split; [done|]. by apply log_of_reload.
    + by exists d, "", (spec_reload b).
  - destruct IH as (_ & Hr & Hrep & Hl).
    destruct (replica_schedule (state_at n) σ acts σ' Hr Hrep E) as (Hr' & Hrep' & Hl').
    { rewrite Hw. by apply log_ok_part. }
    split; [done|]. split; [done|]. rewrite Hw in Hrep', Hl'. split.
    + unfold state_at. rewrite <-take_take_drop, commands_app, spec_log_app. exact Hrep'.
    + by rewrite changes_at_add, Hl', Hl.
Qed.

(** The answers of any node of the group. *)
Definition group_answered (nodes : list (Sys DB)) (a : WatchArgs) (out : WatchResult) : Prop :=
  exists σ, σ ∈ nodes /\ answered σ a out.

Lemma serves_covers n σ a out :
  wf a0 -> log_of a0 L0 -> log_ok a0 log -> serves n σ -> answered σ a out ->
  wr_events out <> [] -> covers (L0 ++ spec_events a0 (commands log)) a out.
Proof.
  intros Hw HL0 Hok Hs Ha Hne. destruct (serves_inv _ _ Hok Hs) as (Hle & Hr & _ & Hl).
  destruct (answered_covers _ _ _ Hr Ha Hne) as (Hpos & Hsound & Hall).
  assert (L0 ++ spec_events a0 (commands log) =
    sy_log σ ++ spec_events (state_at n) (commands (drop n log))) as HL.
  { rewrite Hl. unfold changes_at, state_at.
    by rewrite <-app_assoc, <-spec_events_app, <-commands_app, take_drop. }
  assert (numbered (L0 ++ spec_events a0 (commands log))) as Hnum.
  { apply (log_of_commands a0 L0 (commands log) Hw HL0); [|apply Hok].
    eapply Forall_impl; [apply Hok|]. by intros cmd [? _]. }
  destruct Ha as (w & ok & Hc).
  destruct (returned_events _ _ _ _ _ Hr Hc Hne) as (_ & _ & Hcur & _).
  rewrite HL in Hnum |- *. split; [done|]. split.
  - intros e He. destruct (Hsound e He). split; [apply elem_of_app; by left|done].
  - intros Hf e He Hk Hb. apply Hall; [done| |done|done].
    apply elem_of_app in He as [He|He]; [done|exfalso].
    apply list_elem_of_lookup in He as [i Hi].
    assert (ev_revision e = Z.of_nat (length (sy_log σ) + i) + 1) as Hrev.
    { apply Hnum. rewrite lookup_app_r by lia. by replace (length (sy_log σ) + i - length (sy_log σ))%nat with i by lia. }
    assert (wr_current_revision out <= Z.of_nat (length (sy_log σ))); [|lia].
    rewrite Hcur. unfold last_revision. destruct (last (wr_events out)) as [x|] eqn:Ex; [|simpl; lia].
    apply last_Some_elem_of in Ex. destruct (Hsound x Ex) as [Hx _].
    apply list_elem_of_lookup in Hx as [j Hj]. pose proof (lookup_lt_Some _ _ _ Hj).
    rewrite (reachable_numbered _ Hr _ _ Hj). lia.
Qed.

End group.

(** * Witness: a client that moves to a node that came up from a snapshot *)

Definition watch_cmds : list RaftCmd := [CmdPut "a" "1"; CmdPut "a" "2"; CmdPut "a" "3"].
Definition watch_log : list string := SerializeCmd <$> watch_cmds.

(** The first node is [live_state]: two entries, and a call that has returned the
    change of revision 2.  Its snapshot is loaded by the second. *)
Definition watch_disk : MemDB.fs := MemDB.mkFS ∅ true true None.
Definition watch_data : SnapshotData := ExportSnapshotLocked (sy_store live_state).

Definition watch_loaded : option (Store MemDB.t * MemDB.fs) :=
  match LoadSnapshot (mkStore (Some MemDB.empty) "data") watch_disk watch_data with
  | Done (None, st, fs) => Some (st, fs)
  | _ => None
  end.

Definition second_db : MemDB.t := default MemDB.empty (watch_loaded ≫= fun x => db_ x.1).
Definition second_start : Sys MemDB.t := sys_init second_db (sy_log live_state) 8.

Definition second_schedule : list action :=
  wait_from 1 2 ++ put_broadcast "a" "3" 1 ++ replicate 4 (AWatch 1 calm).

Definition second_state : Sys MemDB.t := default second_start (exec_all second_start second_schedule).

Lemma mem_accepts_always (d : MemDB.t) :
  MemDB.write_error d = None -> forall d', rtc one_write d d' -> accepts_writes d'.
Proof.
  intros Hd d' Hr. apply mem_accepts. induction Hr as [|d d1 d2 Hw _ IH]; [done|].
  by apply IH, (mem_one_write _ _ Hw).
Qed.

Abbreviation serving := (serves (DB := MemDB.t) (FS := MemDB.fs) mvcc_empty [] watch_log).

Lemma first_serves : serving 2 live_state.
Proof.
  apply (ServesRun mvcc_empty [] watch_log 0 2 (start 8) live_schedule).
  - apply (ServesFresh _ _ _ MemDB.empty mvcc_empty 8); [exact empty_rep|done|by split|].
    by apply mem_accepts_always.
  - vm_compute. lia.
  - vm_compute. reflexivity.
  - vm_compute. reflexivity.
Qed.

Lemma second_serves : serving 3 second_state.
Proof.
  apply (ServesRun mvcc_empty [] watch_log 2 1 second_start second_schedule).
  - destruct watch_loaded as [[st fs]|] eqn:E; [|vm_compute in E; discriminate].
    apply (ServesSnapshot mvcc_empty [] watch_log 2 live_state "data" watch_data
      (mkStore (Some MemDB.empty) "data") st watch_disk fs).
    + exact first_serves.
    + reflexivity.
    + unfold watch_loaded in E. destruct (LoadSnapshot _ _ _) as [[[[e|] st'] fs']|]; try discriminate.
      by injection E as -> ->.
    + vm_compute. reflexivity.
    + vm_compute in E. injection E as <- <-. vm_compute. reflexivity.
    + apply mem_accepts_always. vm_compute. reflexivity.
  - vm_compute. lia.
  - vm_compute. reflexivity.
  - vm_compute. reflexivity.
Qed.

