(* ===== verification/Client.v ===== *)
(** Model of the command line client, src/client/client_main.cpp.  The RPC
    library is not part of the repository: initialising a channel and calling a
    stub are operations of a class, on the state [W] of everything outside the
    client.  The standard output is the list of its lines. *)
From stdpp Require Import pretty.
From S2P Require Import Prelude CxxStd StoreKey Proto LevelDB Store StoreSpec StoreOps.
From S2P Require Import WatchHub WatchCall.
From S2P Require Import Node RestUtil KVService Services.

(** * Flags *)

Record Flags := mkFlags {
  FLAGS_server : string;
  FLAGS_method : string;
  FLAGS_key : string;
  FLAGS_value : string;
  FLAGS_expect : string;
  FLAGS_peer : string;
  FLAGS_timeout_ms : Z
}.

Definition Flags_default : Flags := mkFlags "127.0.0.1:8000" "Get" "" "" "" "" 3000.

(** * The RPC library *)

(** What a stub leaves: the error text of a controller that [Failed()], or the
    response. *)
Definition rpc (W R : Type) : Type := W -> (string + R) * W.

Class Channel (W : Type) := {
  ch_Init : string -> Z -> W -> Z * W;        (** 0: success *)
  stub_Put : PutRequest -> rpc W KVResponse;
  stub_Get : GetRequest -> rpc W KVResponse;
  stub_Delete : string -> rpc W KVResponse;
  stub_CompareAndSwap : CompareAndSwapRequest -> rpc W KVResponse;
  stub_GetHealth : rpc W GetHealthResponse;
  stub_AddPeer : string -> rpc W AdminResponse;
  stub_RemovePeer : string -> rpc W AdminResponse
}.

(** * The program *)

(** [resp.kv()]: the default instance when the field is not set. *)
Definition kv_of (resp : KVResponse) : KV := default KV_default (kvr_kv resp).

Definition print_code (c : Code) : string := pretty (Code_number c).

Definition print_put (resp : KVResponse) : string :=
  "Put ok, code=" +:+ print_code (kvr_code resp) +:+ " version=" +:+
  pretty (kv_version (kv_of resp)) +:+ " revision=" +:+ pretty (kv_revision (kv_of resp)).

Definition print_get (resp : KVResponse) : string :=
  if decide (kvr_code resp = OK) then
    "Get: value=" +:+ kv_value (kv_of resp) +:+ " version=" +:+
    pretty (kv_version (kv_of resp)) +:+ " revision=" +:+ pretty (kv_revision (kv_of resp))
  else "Get: code=" +:+ print_code (kvr_code resp) +:+ " message=" +:+ kvr_message resp.

Definition print_delete (resp : KVResponse) : string :=
  "Delete: code=" +:+ print_code (kvr_code resp).

Definition print_cas (resp : KVResponse) : string :=
  "CAS: code=" +:+ print_code (kvr_code resp) +:+ " message=" +:+ kvr_message resp.

(** The loop over the peers, with [", "] before all but the first. *)
Fixpoint print_peers (first : bool) (peers : list string) : string :=
  match peers with
  | [] => ""
  | p :: peers' => (if first then "" else ", ") +:+ p +:+ print_peers false peers'
  end.

Definition print_health (resp : GetHealthResponse) : string :=
  "role=" +:+ hl_role resp +:+ " term=" +:+ pretty (hl_term resp) +:+
  " commit=" +:+ pretty (hl_commit_index resp) +:+
  " applied=" +:+ pretty (hl_applied_index resp) +:+
  " leader=" +:+ hl_leader_id resp +:+ " peers=[" +:+ print_peers true (hl_peers resp) +:+ "]".

Definition print_change (method : string) (resp : AdminResponse) : string :=
  method +:+ ": code=" +:+ print_code (ad_code resp) +:+ " message=" +:+ ad_message resp.

Section client.
Context {W : Type} `{Channel W}.

(** One call, and the line printed when it did not fail. *)
Definition print_reply {R} (call : rpc W R) (print : R -> string) (w : W)
    : Z * list string * W :=
  match call w with
  | (inl _, w') => (1, [], w')
  | (inr resp, w') => (0, [print resp], w')
  end.

(** The chain of tests on [method]. *)
Definition run_method (f : Flags) (w : W) : Z * list string * W :=
  let method := FLAGS_method f in
  if String.eqb method "Put" then
    print_reply (stub_Put (mkPutRequest (FLAGS_key f) (FLAGS_value f))) print_put w
  else if String.eqb method "Get" then
    print_reply (stub_Get (mkGetRequest (FLAGS_key f) false)) print_get w
  else if String.eqb method "Delete" then
    print_reply (stub_Delete (FLAGS_key f)) print_delete w
  else if String.eqb method "CAS" then
    print_reply (stub_CompareAndSwap (mkCasRequest (FLAGS_key f) (FLAGS_expect f) (FLAGS_value f)))
      print_cas w
  else if String.eqb method "GetHealth" then print_reply stub_GetHealth print_health w
  else if String.eqb method "AddPeer" || String.eqb method "RemovePeer" then
    if String.eqb (FLAGS_peer f) "" then (1, [], w)
    else if String.eqb method "AddPeer" then
      print_reply (stub_AddPeer (FLAGS_peer f)) (print_change method) w
    else print_reply (stub_RemovePeer (FLAGS_peer f)) (print_change method) w
  else (1, [], w).

(** [main]: the exit status and what was printed. *)
Definition client_main (f : Flags) (w : W) : Z * list string * W :=
  let '(rc, w) := ch_Init (FLAGS_server f) (FLAGS_timeout_ms f) w in
  if negb (rc =? 0) then (1, [], w) else run_method f w.
End client.

(** * What the client relies on *)

(** A call that did not come through an HTTP mapping. *)
Definition is_rpc (req : HttpRequest) : Prop :=
  unresolved_path req = "" /\ http_method req = HTTP_METHOD_POST.

(** The response message of a method that also answers HTTP requests. *)
Definition rpc_part {N R} (m : call N (R * HttpResponse)) : call N R :=
  x ← m; mret x.1.

Section delivery.
Context {W N : Type} `{ConfigNodeSpec N}.
Implicit Types n : N.

(** Other clients and compaction have led from [n] to [n']. *)
Definition others_move n n' : Prop :=
  forall a, nd_rep n a -> exists b, nd_others a b /\ nd_rep n' b.

(** Runs of a handler, each with the node it found and the node it left, between the
    nodes [n] and [n']. *)
Fixpoint linked n (runs : list (N * N)) n' : Prop :=
  match runs with
  | [] => others_move n n'
  | (n1, n2) :: runs' => others_move n n1 /\ linked n2 runs' n'
  end.

Definition ran {R} (handler : HttpRequest -> call N R) (r : R) (run : N * N) : Prop :=
  exists req, is_rpc req /\ handler req run.1 = Done (Some (r, run.2)).

(** The library sends a request again when the connection breaks ([max_retry] is 3
    unless a program sets it, and this one does not), and a call that gives up does
    not stop a handler: a call has had its handler run any number of times, and the
    response of a call that succeeded is the one a run gave.  (A run that is still
    going on when the call gives up is another client from then on.) *)
Definition delivered {R} (node : W -> N) (runs : list (N * N))
    (handler : HttpRequest -> call N R) (w : W) (res : (string + R) * W) : Prop :=
  linked (node w) runs (node res.2) /\ Forall (fun run => exists r, ran handler r run) runs /\
  match res.1 with inr r => Exists (ran handler r) runs | inl _ => True end.
End delivery.

(** [ch_node]: the node behind the services the channel leads to; [put_runs] and
    [get_runs]: the runs of the handlers that a call of the stub causes. *)
Class ChannelSpec (W N : Type) `{Channel W} `{ConfigNodeSpec N} := {
  ch_node : W -> N;
  ch_Init_node server timeout w : ch_node (ch_Init server timeout w).2 = ch_node w;
  put_runs : PutRequest -> W -> list (N * N);
  get_runs : GetRequest -> W -> list (N * N);
  stub_Put_delivered m w :
    delivered ch_node (put_runs m w) (fun req => KV_Put req m) w (stub_Put m w);
  stub_Get_delivered m w :
    delivered ch_node (get_runs m w) (fun req => KV_Get req m) w (stub_Get m w);
  stub_Delete_delivered key w : exists runs,
    delivered ch_node runs (fun req => KV_Delete req key) w (stub_Delete key w);
  stub_CompareAndSwap_delivered m w : exists runs,
    delivered ch_node runs (fun req => KV_CompareAndSwap req m) w (stub_CompareAndSwap m w);
  stub_GetHealth_delivered w : exists runs,
    delivered ch_node runs (fun req => rpc_part (GetHealth req)) w (stub_GetHealth w);
  stub_AddPeer_delivered peer w : exists runs,
    delivered ch_node runs (fun req => rpc_part (Admin_AddPeer req peer)) w (stub_AddPeer peer w);
  stub_RemovePeer_delivered peer w : exists runs,
    delivered ch_node runs (fun req => rpc_part (Admin_RemovePeer req peer)) w
      (stub_RemovePeer peer w)
}.
