(* ===== verification/ClientTheorems.v ===== *)
(** Properties of the command line client of Client.v, over a channel that leads
    to the services of a node that keeps the promise of [ConfigNodeSpec]. *)
From stdpp Require Import pretty.
From S2P Require Import Prelude CxxStd StoreKey Proto LevelDB Store StoreSpec StoreRepr StoreOps.
From S2P Require Import Demo WatchHub WatchCall Node RestUtil RestFacts KVService Services.
From S2P Require Import ServiceTheorems ServerTheorems RaftExamples Client.

(** * Exit status *)

Definition client_methods : list string :=
  ["Put"; "Get"; "Delete"; "CAS"; "GetHealth"; "AddPeer"; "RemovePeer"].

Definition peer_method (m : string) : bool := String.eqb m "AddPeer" || String.eqb m "RemovePeer".

(** Which stub a run of the client reaches: [None] when it reaches none. *)
Definition reaches_stub (f : Flags) : bool :=
  bool_decide (FLAGS_method f ∈ client_methods) &&
  negb (peer_method (FLAGS_method f) && String.eqb (FLAGS_peer f) "").

Section client.
Context {W : Type} `{Channel W}.

Lemma print_reply_status {R} (call : rpc W R) print w :
  (exists line w', print_reply call print w = (0, [line], w')) \/
  (exists w', print_reply call print w = (1, [], w')).
Proof. unfold print_reply. destruct (call w) as [[e|r] w']; [right|left]; eauto. Qed.

(** A method the client has no branch for. *)
Lemma run_method_unknown f w :
  FLAGS_method f ∉ client_methods -> run_method f w = (1, [], w).
Proof.
  intros Hm. unfold run_method, client_methods in *. rewrite !elem_of_cons in Hm.
  repeat match goal with
  | |- context [String.eqb (FLAGS_method f) ?m] =>
      destruct (String.eqb_spec (FLAGS_method f) m) as [?|_]; [tauto|]
  end. done.
Qed.
End client.

Section service.
Context `{KVCodecSpec} {W N : Type} `{Channel W} `{ConfigNode N} `{!ConfigNodeSpec N}
  `{!ChannelSpec W N}.
Implicit Types (w : W) (n : N) (a b : Mvcc) (f : Flags).

Lemma ResolveKey_rpc req key : is_rpc req -> ResolveKey req key = key.
Proof. intros [Hp _]. unfold ResolveKey. by rewrite Hp. Qed.

(** * The runs of one call *)

Lemma linked_app n l1 x l2 n' :
  linked n (l1 ++ x :: l2) n' -> linked n l1 x.1 /\ linked x.2 l2 n'.
Proof.
  revert n. induction l1 as [|[y z] l1 IH]; intros n; simpl; destruct x as [n1 n2]; [done|].
  intros [? Hl]. apply IH in Hl as [? ?]. by split.
Qed.

(** What the runs of a handler do to the state, when each is a [step] and other
    clients come in between. *)
Lemma linked_steps {R} (handler : HttpRequest -> call N R) (ok : N * N -> Prop)
    (step : Mvcc -> Mvcc -> Prop) n runs n' a :
  (forall n1 n2 r b, nd_rep n1 b -> ok (n1, n2) -> ran handler r (n1, n2) ->
     exists b', rtc step b b' /\ nd_rep n2 b') ->
  (forall b b', nd_others b b' -> rtc step b b') ->
  nd_rep n a -> linked n runs n' -> Forall (fun run => exists r, ran handler r run) runs ->
  Forall ok runs -> exists b, rtc step a b /\ nd_rep n' b.
Proof.
  intros Hrun Ho. revert n a. induction runs as [|[n1 n2] runs IH]; intros n a Hn Hl Hr Hok.
  { destruct (Hl a Hn) as (b & ? & ?). exists b. by auto. }
  destruct Hl as [Hm Hl]. apply Forall_cons in Hr as [[r Hr] Hrs].
  apply Forall_cons in Hok as [Hok Hoks].
  destruct (Hm a Hn) as (b1 & Hb1 & Hn1).
  destruct (Hrun n1 n2 r b1 Hn1 Hok Hr) as (b2 & Hb2 & Hn2).
  destruct (IH n2 b2 Hn2 Hl Hrs Hoks) as (b3 & Hb3 & Hn3). exists b3. split; [|done].
  etrans; [by apply Ho|]. by etrans.
Qed.

(** The run that gave the response of a call: the states before it, and after it. *)
Lemma answering_run {R} (handler : HttpRequest -> call N R) (ok : N * N -> Prop)
    (step : Mvcc -> Mvcc -> Prop) n runs n' a r :
  (forall n1 n2 r b, nd_rep n1 b -> ok (n1, n2) -> ran handler r (n1, n2) ->
     exists b', rtc step b b' /\ nd_rep n2 b') ->
  (forall b b', nd_others b b' -> rtc step b b') ->
  nd_rep n a -> linked n runs n' -> Forall (fun run => exists r, ran handler r run) runs ->
  Forall ok runs -> Exists (ran handler r) runs ->
  exists n1 n2 b, rtc step a b /\ nd_rep n1 b /\ ok (n1, n2) /\ ran handler r (n1, n2) /\
    forall b', nd_rep n2 b' -> exists c, rtc step b' c /\ nd_rep n' c.
Proof.
  intros Hrun Ho Hn Hl Hr Hok Hex.
  apply Exists_exists in Hex as ([n1 n2] & Hin & Hran).
  apply list_elem_of_split in Hin as (l1 & l2 & ->).
  apply linked_app in Hl as [Hl1 Hl2]. simpl in Hl1, Hl2.
  apply Forall_app in Hr as [Hr1 [_ Hr2]%Forall_cons].
  apply Forall_app in Hok as [Hok1 [Hok0 Hok2]%Forall_cons].
  destruct (linked_steps handler ok step n l1 n1 a) as (b & ? & ?); [done..|].
  exists n1, n2, b. split_and!; [done..|]. intros b' Hb'.
  by apply (linked_steps handler ok step n2 l2).
Qed.

(** * Put *)

(** A run is within the limits of the node, and finds a revision left. *)
Definition put_run_ok (run : N * N) : Prop :=
  nd_within run.2 /\ forall b, nd_rep run.1 b -> m_rev b < int64_max.

Definition get_run_ok (run : N * N) : Prop := nd_within run.2.

(** What happens beside one run of a put: other clients, and other runs of it. *)
Inductive put_step (key value : string) : Mvcc -> Mvcc -> Prop :=
| PutOthers a b : nd_others a b -> put_step key value a b
| PutAgain a : m_rev a < int64_max -> put_step key value a (spec_put a key value).

Lemma put_steps_store key value a b :
  utf8_valid key = true -> utf8_valid value = true ->
  rtc (put_step key value) a b -> rtc store_step a b.
Proof.
  intros Hk Hv. induction 1 as [|a a1 b Hs _ IH]; [done|]. etrans; [|exact IH].
  destruct Hs as [a a1 Ho|a Hr]; [by apply nd_others_steps|]. apply rtc_once.
  apply (StepApply a (CmdPut key value)); [by split|]. unfold cmd_fits. simpl. lia.
Qed.

Lemma put_others key value a b : nd_others a b -> rtc (put_step key value) a b.
Proof. intros Ho. by apply rtc_once, PutOthers. Qed.

(** One run. *)
Lemma put_ran key value n1 n2 resp b :
  utf8_valid key = true -> utf8_valid value = true -> key <> "" ->
  nd_rep n1 b -> put_run_ok (n1, n2) ->
  ran (fun req => KV_Put req (mkPutRequest key value)) resp (n1, n2) ->
  (exists b1 b2, nd_others b b1 /\ m_rev b1 < int64_max /\
     resp = mkKVResponse OK "" (Some (spec_record b1 key value false)) [] /\
     wf (spec_put b1 key value) /\ nd_others (spec_put b1 key value) b2 /\ nd_rep n2 b2) \/
  (refusal (kvr_code resp) /\ kvr_kv resp = None /\ exists b2, nd_others b b2 /\ nd_rep n2 b2).
Proof.
  intros Hk Hv Hne Hn [Hwi Hr] (req & Hreq & E). unfold KV_Put in E. simpl in E, Hwi, Hr.
  rewrite ResolveKey_rpc in E by done.
  destruct (DoPut_answer _ _ _ _ _ _ Hn (Hr b Hn) Hk Hv Hne E Hwi)
    as [(b1 & b2 & ? & -> & Hw & ? & ?)|?]; [left|by right].
  exists b1, b2. split_and!; try done. destruct (wf_bounds _ Hw) as [_ Hb]. simpl in Hb. lia.
Qed.

Lemma put_ran_steps key value n1 n2 resp b :
  utf8_valid key = true -> utf8_valid value = true -> key <> "" ->
  nd_rep n1 b -> put_run_ok (n1, n2) ->
  ran (fun req => KV_Put req (mkPutRequest key value)) resp (n1, n2) ->
  exists b', rtc (put_step key value) b b' /\ nd_rep n2 b'.
Proof.
  intros Hk Hv Hne Hn Hok Hran.
  destruct (put_ran key value n1 n2 resp b Hk Hv Hne Hn Hok Hran)
    as [(b1 & b2 & Ho1 & Hr & _ & _ & Ho2 & Hn2)|(_ & _ & b2 & Ho & Hn2)]; exists b2; (split; [|done]).
  - etrans; [by apply put_others|]. eapply rtc_l; [by apply PutAgain|by apply put_others].
  - by apply put_others.
Qed.

(** * Get *)

(** What a run with [--method=Get] prints. *)
Lemma client_get f w a code out w' :
  nd_rep (ch_node w) a -> FLAGS_method f = "Get" -> client_main f w = (code, out, w') ->
  Forall get_run_ok (get_runs (mkGetRequest (FLAGS_key f) false)
    (ch_Init (FLAGS_server f) (FLAGS_timeout_ms f) w).2) ->
  code = 1 /\ out = [] \/
  code = 0 /\ exists resp a', out = [print_get resp] /\ nd_others a a' /\
    (refusal (kvr_code resp) \/
     match spec_get a' (FLAGS_key f) with
     | Some kv => kvr_code resp = OK /\ kvr_kv resp = Some kv
     | None => kvr_code resp = KEY_NOT_FOUND /\ kvr_kv resp = None
     end).
Proof.
  intros Hn Hm E Hok. unfold client_main in E.
  pose proof (ch_Init_node (FLAGS_server f) (FLAGS_timeout_ms f) w) as Hi.
  destruct (ch_Init _ _ w) as [rc w1]. simpl in Hi, Hok. rewrite <-Hi in Hn.
  destruct (negb (rc =? 0)); [left; by simplify_eq|].
  unfold run_method in E. rewrite Hm in E. simpl in E. unfold print_reply in E.
  set (m := mkGetRequest (FLAGS_key f) false) in *.
  destruct (stub_Get_delivered m w1) as (Hl & Hr & Hd).
  destruct (stub_Get m w1) as [[e|resp] w2]; [left; by simplify_eq|right].
  simplify_eq. split; [done|]. exists resp. simpl in Hl, Hd.
  assert (forall n1 n2 r b, nd_rep n1 b -> get_run_ok (n1, n2) ->
    ran (fun req => KV_Get req m) r (n1, n2) ->
    exists b', nd_others b b' /\ nd_rep n2 b' /\
      (refusal (kvr_code r) \/
       match spec_get b' (FLAGS_key f) with
       | Some kv => kvr_code r = OK /\ kvr_kv r = Some kv
       | None => kvr_code r = KEY_NOT_FOUND /\ kvr_kv r = None
       end)) as Hget.
  { intros n1 n2 r b Hb Hwi (req & Hreq & Er). unfold KV_Get in Er. simpl in Er.
    rewrite ResolveKey_rpc in Er by done. by eapply DoGet_answer. }
  destruct (answering_run (fun req => KV_Get req m) get_run_ok nd_others (ch_node w1)
    (get_runs m w1) (ch_node w') a resp) as (n1 & n2 & b & Hab & Hb & Hok1 & Hran & _); try done.
  { intros n1 n2 r b Hb Hok1 Hran. destruct (Hget _ _ _ _ Hb Hok1 Hran) as (b' & ? & ? & _).
    exists b'. split; [by apply rtc_once|done]. }
  { intros b b' ?. by apply rtc_once. }
  destruct (Hget _ _ _ _ Hb Hok1 Hran) as (b' & Hbb & _ & Hans). exists b'.
  split_and!; [done| |done]. transitivity b; [|done].
  clear -Hab. induction Hab as [|x y z ? _ IH]; [done|by transitivity y].
Qed.

(** C16. From one shell command to the next, on a node that others use too, over a
    channel that may have the request run any number of times.
    [configraft_client --method=Put --key=K --value=V] prints
    [Put ok, code=0 version=N revision=R], where N and R are the next version of the
    key and the next revision in a state between the call and the answer, other clients
    and earlier runs of the same request having led to it.  A later
    [configraft_client --method=Get --key=K] prints [Get: value=V version=N revision=R],
    or the record written since, by a repetition of the request or by others, or that
    there is none when the key has been deleted since, or that the node refused the
    read; or it prints nothing when the call failed.  A refused write prints [Put ok]
    too, with the code of the refusal; earlier runs, and the refused one if its task is
    committed after all, may have written.  When the call fails, exit status 1, the
    write has been done any number of times, or not at all. *)
Theorem client_put_then_get f w a code out w' :
  let key := FLAGS_key f in
  let value := FLAGS_value f in
  nd_rep (ch_node w) a ->
  utf8_valid key = true -> utf8_valid value = true -> key <> "" ->
  FLAGS_method f = "Put" -> client_main f w = (code, out, w') ->
  Forall put_run_ok (put_runs (mkPutRequest key value)
    (ch_Init (FLAGS_server f) (FLAGS_timeout_ms f) w).2) ->
  (exists a1 a2, rtc (put_step key value) a a1 /\
   rtc (put_step key value) (spec_put a1 key value) a2 /\ nd_rep (ch_node w') a2 /\
   let kv := mkKV key value (spec_version a1 key) (m_rev a1 + 1) false in
   code = 0 /\
   out = ["Put ok, code=0 version=" +:+ pretty (kv_version kv) +:+ " revision=" +:+
          pretty (kv_revision kv)] /\
   forall w1 b f2 code2 out2 w2, nd_others a2 b -> nd_rep (ch_node w1) b ->
     FLAGS_method f2 = "Get" -> FLAGS_key f2 = key -> client_main f2 w1 = (code2, out2, w2) ->
     Forall get_run_ok (get_runs (mkGetRequest key false)
       (ch_Init (FLAGS_server f2) (FLAGS_timeout_ms f2) w1).2) ->
     (code2 = 1 /\ out2 = []) \/
     exists resp, out2 = [print_get resp] /\
       (refusal (kvr_code resp) \/ reads_back a2 key kv (kvr_code resp) (kvr_kv resp))) \/
  (exists a2, rtc (put_step key value) a a2 /\ nd_rep (ch_node w') a2 /\
   ((code = 0 /\ exists c, refusal c /\
      out = ["Put ok, code=" +:+ print_code c +:+ " version=0 revision=0"]) \/
    (code = 1 /\ out = []))).
Proof.
  intros key value Hn Hk Hv Hne Hm E Hok. unfold client_main in E.
  pose proof (ch_Init_node (FLAGS_server f) (FLAGS_timeout_ms f) w) as Hi.
  destruct (ch_Init _ _ w) as [rc w1]. simpl in Hi, Hok. rewrite <-Hi in Hn. clear Hi.
  destruct (negb (rc =? 0)).
  { right. injection E as <- <- <-. exists a. split_and!; [done|done|by right]. }
  unfold run_method in E. rewrite Hm in E. simpl in E. unfold print_reply in E.
  fold key value in E. set (m := mkPutRequest key value) in *.
  assert (forall n1 n2 r b, nd_rep n1 b -> put_run_ok (n1, n2) ->
    ran (fun req => KV_Put req m) r (n1, n2) ->
    exists b', rtc (put_step key value) b b' /\ nd_rep n2 b') as Hrun
    by (intros; by eapply put_ran_steps).
  destruct (stub_Put_delivered m w1) as (Hl & Hr & Hd).
  destruct (stub_Put m w1) as [[e|resp] w2]; simpl in Hl, Hd; injection E as <- <- <-.
  { right. destruct (linked_steps (fun req => KV_Put req m) put_run_ok (put_step key value)
      (ch_node w1) (put_runs m w1) (ch_node w2) a) as (b & ? & ?); try done; [apply put_others|].
    exists b. split_and!; [done|done|by right]. }
  destruct (answering_run (fun req => KV_Put req m) put_run_ok (put_step key value) (ch_node w1)
    (put_runs m w1) (ch_node w2) a resp) as (n1 & n2 & b & Hab & Hb & Hok1 & Hran & Hrest); try done;
    [apply put_others|].
  destruct (put_ran key value n1 n2 resp b Hk Hv Hne Hb Hok1 Hran)
    as [(a1 & b2 & Ho1 & Hr1 & -> & Hw & Ho2 & Hn2)|(Hf & Hkv & b2 & Ho & Hn2)];
    destruct (Hrest b2 Hn2) as (a2 & Ha2 & Hn'); [left|right].
  2: { exists a2. split; [etrans; [exact Hab|etrans; [by apply put_others|exact Ha2]]|].
       split; [done|]. left. split; [done|]. exists (kvr_code resp). split; [done|].
       unfold print_put, kv_of. by rewrite Hkv. }
  assert (rtc (put_step key value) (spec_put a1 key value) a2) as Hput
    by (etrans; [by apply put_others|exact Ha2]).
  exists a1, a2. split; [etrans; [exact Hab|by apply put_others]|]. split; [done|]. split; [done|].
  intros kv. split_and!; [done|done|]. intros w3 b3 f2 code2 out2 w4 Hob Hnb Hm2 Hk2 E2 Hok2.
  rewrite <-Hk2 in Hok2.
  destruct (client_get _ _ _ _ _ _ Hnb Hm2 E2 Hok2) as [?|(_ & resp2 & a3 & -> & Ho3 & Hg)];
    [by left|right].
  exists resp2. split; [done|]. rewrite Hk2 in Hg. destruct Hg as [?|Hg]; [by left|right].
  apply (put_reads_back a1 key value a2 a3);
    [done|exact (put_steps_store key value _ _ Hk Hv Hput)|by transitivity b3|exact Hg].
Qed.
End service.

(** The exit status: 0 exactly when the channel could be initialised, the
    method is one of the seven the program has a branch for, with a peer where
    one is needed, and the call did not fail, and then one line is printed; in
    every other case it is 1, nothing is printed, and an unknown method or a
    missing peer makes no call.  The code of the answer plays no part.
    [BatchPut], which the help text offers, is not among the seven. *)
Theorem client_exit_status {W} `{Channel W} f (w : W) :
  let '(rc, w1) := ch_Init (FLAGS_server f) (FLAGS_timeout_ms f) w in
  let '(code, out, w') := client_main f w in
  (code = 0 \/ code = 1) /\ (code = 0 -> rc = 0 /\ reaches_stub f = true /\ length out = 1%nat) /\
  (code = 1 -> out = []) /\ (rc <> 0 \/ reaches_stub f = false -> code = 1 /\ w' = w1) /\
  (FLAGS_method f = "BatchPut" -> code = 1).
Proof.
  unfold client_main. destruct (ch_Init _ _ w) as [rc w1].
  destruct (Z.eqb_spec rc 0) as [->|Hrc]; simpl.
  2: { split_and!; try done; by auto. }
  destruct (decide (FLAGS_method f ∈ client_methods)) as [Hin|Hn].
  2: { rewrite run_method_unknown by done. split_and!; try done; by auto. }
  assert (FLAGS_method f <> "BatchPut") as Hb.
  { intros Hb. rewrite Hb in Hin. apply (bool_decide_eq_true_2 _) in Hin. by vm_compute in Hin. }
  unfold reaches_stub. rewrite bool_decide_eq_true_2 by done. simpl.
  assert (forall R (call : rpc W R) print, let '(code, out, w') := print_reply call print w1 in
    (code = 0 \/ code = 1) /\ (code = 0 -> length out = 1%nat) /\ (code = 1 -> out = [])) as Hp.
  { intros R call print. destruct (print_reply_status call print w1) as [(l & w' & ->)|[w' ->]];
      split_and!; by auto. }
  unfold client_methods in Hin. rewrite !elem_of_cons in Hin.
  unfold run_method, peer_method.
  destruct_or! Hin; [..|by apply elem_of_nil in Hin]; rewrite Hin in *; simpl.
  6-7: destruct (String.eqb (FLAGS_peer f) ""); simpl; [split_and!; try done; by auto|].
  all: match goal with
    | Hp : forall R : Type, _ |- context [print_reply ?call ?print ?w1] =>
        specialize (Hp _ call print); destruct (print_reply call print w1) as [[code out] w']
    end; destruct_and!; split_and!; try done; try tauto; by intros [?|?].
Qed.

(** * A channel without a network *)

(** The services of the node are called where the client runs, once and [extra] more
    times; the response is that of the last run.  A handler that throws or does not
    return makes the call fail. *)
Module Direct.
Section direct.
Context `{KVCodec} {N : Type} `{ConfigNode N}.

Definition request : HttpRequest :=
  mkHttpRequest HTTP_METHOD_POST "" (fun _ => None) (fun _ => None) "" 0.

Fixpoint run {R} (extra : nat) (handler : HttpRequest -> call N R) : rpc N R := fun n =>
  match handler request n with
  | Done (Some (r, n')) =>
      match extra with O => (inr r, n') | S extra' => run extra' handler n' end
  | _ => (inl "failed", n)
  end.

Fixpoint trace {R} (extra : nat) (handler : HttpRequest -> call N R) (n : N) : list (N * N) :=
  match handler request n with
  | Done (Some (_, n')) =>
      (n, n') :: match extra with O => [] | S extra' => trace extra' handler n' end
  | _ => []
  end.

Definition channel (extra : nat) : Channel N := {|
  ch_Init _ _ n := (0, n);
  stub_Put m := run extra (fun req => KV_Put req m);
  stub_Get m := run extra (fun req => KV_Get req m);
  stub_Delete key := run extra (fun req => KV_Delete req key);
  stub_CompareAndSwap m := run extra (fun req => KV_CompareAndSwap req m);
  stub_GetHealth := run extra (fun req => rpc_part (GetHealth req));
  stub_AddPeer peer := run extra (fun req => rpc_part (Admin_AddPeer req peer));
  stub_RemovePeer peer := run extra (fun req => rpc_part (Admin_RemovePeer req peer))
|}.

Context `{!ConfigNodeSpec N}.

Lemma others_move_refl (n : N) : others_move n n.
Proof. intros a Hn. by exists a. Qed.

Lemma run_delivered {R} extra (handler : HttpRequest -> call N R) n :
  delivered id (trace extra handler n) handler n (run extra handler n).
Proof.
  unfold delivered, id. revert n. induction extra as [|extra IH]; intros n; simpl;
    destruct (handler request n) as [[[r n']|]|] eqn:E; simpl;
    try (split_and!; [apply others_move_refl|constructor|done]).
  - assert (ran handler r (n, n')) as Hr by by exists request.
    split_and!; [apply others_move_refl|apply others_move_refl|constructor; [by exists r|constructor]|by constructor].
  - destruct (IH n') as (Hl & Hr & Hd).
    assert (ran handler r (n, n')) as Hrun by by exists request.
    split_and!; [apply others_move_refl|done|constructor; [by exists r|done]|].
    destruct (run extra handler n') as [[e|r'] n2]; simpl in *; [done|by right].
Qed.

Definition spec (extra : nat) : ChannelSpec (H := channel extra) N N.
Proof.
  refine (Build_ChannelSpec N N (channel extra) _ _ _ id _
    (fun m => trace extra (fun req => KV_Put req m))
    (fun m => trace extra (fun req => KV_Get req m)) _ _ _ _ _ _ _);
    intros; try apply run_delivered; try done; eexists; apply run_delivered.
Defined.
End direct.
End Direct.

#[local] Existing Instances alone alone_spec.

Definition demo_flags (method key value : string) : Flags :=
  mkFlags "127.0.0.1:8000" method key value "" "" 3000.

(** A node that the client has to itself, and a request that is run once, or twice. *)
Definition demo_main (extra : nat) : Flags -> LocalNode MemDB.t -> Z * list string * LocalNode MemDB.t :=
  client_main (H := Direct.channel extra).

Definition room_left (n : LocalNode MemDB.t) : bool :=
  match db_ (ln_store n) with Some d => CurrentRevisionLocked d <? int64_max | None => true end.

Lemma put_runs_ok (runs : list (LocalNode MemDB.t * LocalNode MemDB.t)) :
  forallb (fun run => room_left run.1) runs = true -> Forall put_run_ok runs.
Proof.
  intros Hall. apply Forall_forall. intros [n1 n2] Hin. split; [exact I|].
  intros b (d & dir & Hs & Hd). simpl in Hs.
  rewrite forallb_forall in Hall. apply list_elem_of_In, Hall in Hin.
  unfold room_left in Hin. simpl in Hin. rewrite Hs in Hin. simpl in Hin.
  rewrite (CurrentRevisionLocked_rep _ _ Hd) in Hin. lia.
Qed.

Lemma get_runs_ok (runs : list (LocalNode MemDB.t * LocalNode MemDB.t)) : Forall get_run_ok runs.
Proof. apply Forall_forall. intros run _. exact I. Qed.

Definition put_flags : Flags := demo_flags "Put" "app" "x".
Definition get_flags : Flags := demo_flags "Get" "app" "".

(** A put and a later get; and a put that is sent twice, whose answer is that of the
    second run. *)
Lemma client_put_then_get_witness :
  (exists w', demo_main 0 put_flags demo_local =
      (0, ["Put ok, code=0 version=4 revision=7"], w') /\
    exists code2 out2 w2, demo_main 0 get_flags w' = (code2, out2, w2) /\
    ((code2 = 1 /\ out2 = []) \/
     exists resp, out2 = [print_get resp] /\
       (refusal (kvr_code resp) \/ exists a2 kv, nd_rep w' a2 /\
          reads_back a2 "app" kv (kvr_code resp) (kvr_kv resp)))) /\
  (exists w', demo_main 1 put_flags demo_local =
      (0, ["Put ok, code=0 version=5 revision=8"], w') /\
    exists a1 a2, rtc (put_step "app" "x") demo_state a1 /\
      rtc (put_step "app" "x") (spec_put a1 "app" "x") a2 /\ nd_rep w' a2).
Proof.
  split.
  - destruct (demo_main 0 put_flags demo_local) as [[code out] w'] eqn:E.
    assert (code = 0 /\ out = ["Put ok, code=0 version=4 revision=7"]) as [-> ->].
    { apply (f_equal fst) in E. revert E. vm_compute. by intros [= <- <-]. }
    exists w'. split; [reflexivity|].
    destruct (demo_main 0 get_flags w') as [[code2 out2] w2] eqn:E2.
    exists code2, out2, w2. split; [reflexivity|].
    destruct (client_put_then_get (H1 := Direct.channel 0) (ChannelSpec0 := Direct.spec 0) put_flags
      demo_local demo_state 0 ["Put ok, code=0 version=4 revision=7"] w' demo_local_rep eq_refl
      eq_refl) as [(a1 & a2 & _ & _ & Hn2 & _ & _ & Hg)|(a2 & _ & _ & Hc)];
      [discriminate|reflexivity|exact E|apply put_runs_ok; vm_compute; reflexivity| |].
    + destruct (Hg w' a2 get_flags code2 out2 w2 (reflexivity a2) Hn2 eq_refl eq_refl E2
        (get_runs_ok _)) as [Hf|(resp & Ho & Hr)]; [left; exact Hf|right].
      exists resp. split; [exact Ho|]. destruct Hr as [Hr|Hr]; [left; exact Hr|right].
      eexists a2, _. split; [exact Hn2|exact Hr].
    + exfalso. destruct Hc as [(_ & c & Hc & Ho)|[Hc _]]; [|discriminate Hc].
      destruct Hc as [-> | ->]; discriminate Ho.
  - destruct (demo_main 1 put_flags demo_local) as [[code out] w'] eqn:E.
    assert (code = 0 /\ out = ["Put ok, code=0 version=5 revision=8"]) as [-> ->].
    { apply (f_equal fst) in E. revert E. vm_compute. by intros [= <- <-]. }
    exists w'. split; [reflexivity|].
    destruct (client_put_then_get (H1 := Direct.channel 1) (ChannelSpec0 := Direct.spec 1) put_flags
      demo_local demo_state 0 ["Put ok, code=0 version=5 revision=8"] w' demo_local_rep eq_refl
      eq_refl) as [(a1 & a2 & Ha1 & Ha2 & Hn2 & _)|(a2 & _ & _ & Hc)];
      [discriminate|reflexivity|exact E|apply put_runs_ok; vm_compute; reflexivity| |].
    + exists a1, a2. split; [exact Ha1|split; [exact Ha2|exact Hn2]].
    + exfalso. destruct Hc as [(_ & c & Hc & Ho)|[Hc _]]; [|discriminate Hc].
      destruct Hc as [-> | ->]; discriminate Ho.
Defined.
